(* ===== verification/_CoqProject ===== *)
-Q . S2P
Prelude.v
Errors.v
VarInt.v
Oid.v
Toml.v
Permissions.v
Roles.v
Db.v
Users.v
Machine.v
Session.v
Resources.v
Race.v
UserApi.v
MachineApi.v
FabFire.v
Auth.v
Initiators.v
Actors.v
LightProc.v
ProcThreads.v
ProcLayout.v
ConsoleStats.v
ConsoleVisitors.v
ConsoleSpans.v
ConsoleAggregate.v
ConsoleView.v
ConsoleLayer.v
LoadBalancer.v
Supervision.v
Worker.v
Pool.v
Runtime.v
Executor.v
StateValue.v
Startup.v
Server.v
Visit.v
