(* ===== verification/Prelude.v ===== *)
(** * FabAccess server (bffh): a verification library

    bffh is the server of FabAccess, which controls access to the machines of
    a workshop.  A member logs in over the Cap'n Proto API (with a password or
    a DESFire card), gets a session, and through it sees and changes machines
    as far as the member's roles permit.  A machine's state is stored in LMDB,
    each change goes to an audit log and to a signal; actors listen to the
    signal and switch the real machine, initiators change machines from
    outside.  All of it runs as light-weight procs on the server's own
    executor.

    ** Parts and files

    Sources are under src/bffhd unless a path says otherwise.

    - Prelude: results, outcomes (returns, panics, has not finished), loops,
      UTF-8 and strings, integers, the wiring of modules to machines shared by
      actors and initiators, tactics and the hint database [fab].
    - VarInt: [VarInt], 7-bit groups (utils/varint.rs: [convert_from],
      [convert_into]).
    - Errors: the error wrapper and [Locales] (error.rs, utils/l10nstring.rs).
    - Oid: [Oid], object identifiers (utils/oid.rs: [from_box], [build],
      [from_str], [convert_to_string], the serde and archived forms).
    - Toml: TOML documents as serde reads and writes them, for the user file.
    - Permissions: [Permissions], dotted permissions, their order, and rules
      (authorization/permissions.rs).
    - Roles: [Roles], roles with parents and the permission check
      (authorization/roles.rs: [tally_role], [permitted_tally],
      [is_permitted]).
    - Db: [DbError], [RawDB], [ArchivedVal], [Adapter], [DB], the typed
      key-value store (db/mod.rs, raw.rs, typed.rs) over the interfaces [Lmdb]
      and [Rkyv].
    - Users: [UserDataSerde], [UserOps], [UserDB], [Users], accounts, passwords,
      the user file and what serde derives for its entries (users/mod.rs,
      users/db.rs).
    - Machine: [MState], [StateDB], [AuditLog], machine states, their database
      and the audit log (resources/modules/fabaccess.rs, resources/state,
      audit.rs); [World] is the state all handlers share: the LMDB environment,
      the audit log, the signal of every machine, the clock.
    - Session: [Session], opening sessions and permission queries
      (session/mod.rs); the class [Authorizer] is what sessions promise to
      resources, and [session_authorizer] is the instance.
    - Resources: [Resource], [Search], [Boot], machines, their registry and the
      start of the server (resources/mod.rs, resources/search.rs, lib.rs);
      stated against [Authorizer].
    - Race: requests to machines on several threads, cut at each access
      (resources/mod.rs: [try_update], [give_back], [force_set], [set_state]).
    - UserApi: [UserApi], [UserSystem], [ApiSession], the API objects for users
      (capnp/user.rs, user_system.rs, session.rs, permissionsystem.rs).
    - MachineApi: [MachineApi], [MachineSystem], those for machines
      (capnp/machine.rs, machinesystem.rs).
    - FabFire: [FabFireJson], [FabFireBin], the DESFire card login in its two
      framings (authentication/fabfire/server.rs, fabfire_bin/server.rs), in a
      state-and-error monad with weakest preconditions.
    - Auth: [Callback], [AuthenticationHandle], [Authentication], [BootCap], the
      SASL callbacks, the authentication object and the bootstrap object
      (authentication/mod.rs, capnp/authenticationsystem.rs,
      capnp/connection.rs).
    - Initiators: [LineBuffer], [InitiatorCallbacks], [Process], [Dummy],
      [InitiatorLoad] (utils/linebuffer.rs, initiators).
    - Actors: [Actors], [ActorDriver], [ActorLoad] (actors).
    - LightProc: [State], [ProcData], [RawProc], [ProcHandle], [LightProc],
      [RecoverableHandle], [ProcSystem] (src/runtime/lightproc): the state
      word, reference counts, wakers and handles of procs, each operation from
      beginning to end.  ProcThreads: [Threads], the same operations
      interleaved at every access to the block, with the schedule function that
      is in it.  ProcLayout: [Layout],
      [proc_layout], [allocate], [CatchUnwind], where the fields of a proc are
      in memory (layout_helpers.rs, proc_layout.rs, raw_proc.rs,
      catch_unwind.rs).
    - ConsoleStats: [TimeAnchor], [PollStats], [Histogram], [TaskStats],
      [Attributes], [ResourceStats], [AsyncOpStats] (src/runtime/console:
      stats.rs, attribute.rs); ConsoleVisitors: the visitors of visitors.rs;
      ConsoleSpans: [SpanStack], [Callsites] (stack.rs, callsites.rs).
    - ConsoleAggregate: [IdMap], [Aggregator], [Server] (id_map.rs,
      aggregate.rs, server.rs, event.rs): the entries, what is sent of them, and
      the four remote calls.  ConsoleView: what a client sees of that, with
      [layer_step], the promise the layer makes to the aggregator.
      ConsoleLayer: [ConsoleLayer], every callback of tracing (lib.rs), which
      keeps that promise.
    - LoadBalancer: [Linux], [Windows], [Macos], [Stats], [LoadBalancer]
      (src/runtime/executor: placement.rs, load_balancer.rs).
    - Supervision: [GroupId], [SupervisionRegistry] (supervision.rs).
    - Worker: [WorkerThread], one worker as a function of its queues
      (worker.rs).  Pool: [ThreadManager] and all workers, interleaved at each
      access to a queue or a parker (thread_manager.rs, worker.rs); a worker
      that nobody interrupts does what Worker says.
    - Runtime: procs on the thread pool (pool.rs, worker.rs, lightproc.rs), the
      composition of LightProc and Pool.
    - Executor: [Block], [Executor], blocking on a future and spawning
      (run.rs, pool.rs); it composes Supervision, LightProc and ConsoleLayer.
    - StateValue: [ImplRegistry], [ArchivedStateValueMetadata], [StateSerde]
      (resources/state/value.rs, resources/state/mod.rs).
    - Startup: [Config], [Main], [Tls], [KeyLog], [APIServer], [Uuid] (config,
      capnp/config.rs, capnp/mod.rs, tls.rs, keylog.rs, utils/uuid.rs,
      src/bin/bffhd/main.rs); a connection becomes a task of the executor.
    - Server: [StateOpen], [UserOpen], [AuditOpen], [Logging], [Difluoroborane]
      (lib.rs, logging.rs, and the opening of databases and logs), the whole
      server from a configuration to the signal that ends it; [Globals] are the
      cells that are set once in a process, [Difluoroborane.Running] the tasks and
      sockets that a run has opened; the class
      [Spawning] is what it needs of an executor, and [ExecutorSpawning] the
      instance made of Executor.
    - Visit: [Connection] (capnp/mod.rs), and a visit of a member from the
      connection over login, machine and actor to giving the machine back.

    Calls, fallible calls and mutation: a Rust function is a Rocq function that
    takes and returns the state it changes; [Option] and [Result] are [option]
    and [result]; [unwrap], [expect] and an index out of range are [Panic].
    Locks and transactions are taken and released within a call.  Handlers are
    atomic steps and a server run is a sequence of them, except in [Race], [Pool]
    and [ProcThreads], where calls are cut at each access to shared state and
    interleaved.  Tracing and log output is left out.

    ** What is shown

    - Access control: a status change happens exactly when the transition table
      allows it to the session's user, nobody else can take a machine that is
      in use away from its user (short of the manage permission), and giving
      back works ([Resources]); a role grants exactly the rules of the role and
      of what it inherits from ([Roles], [Permissions]); a session's
      permissions are those of the account as it is now, and none once the
      account is gone ([Session]).
    - State: when requests are handled one after the other, the signal of a
      machine shows what the database stores, in every reachable world, each change
      is in the audit log, and a restart keeps all
      states ([Resources]); when requests run on several threads, every state is
      still accounted for by a request and its user's privileges, each request
      returns after eight steps of its own, and a machine in use with no request in
      progress is protected as before; the signal still shows the database if requests to the same machine do
      not overlap ([Race]).
      The last effect an actor tries to have is that of the machine's
      state, applied one at a time ([Actors]).
    - Login: a card or a password is accepted only for the account and secret
      that match; an authentication object gives at most one session
      ([FabFire], [Auth]); whatever a client sends, a step of the card
      login returns but for the card files, keys and challenges that its [unwrap]s
      panic on.
    - API objects carry exactly the capabilities their viewer may use, lists
      show exactly what the viewer may see ([UserApi], [MachineApi]); accounts
      change as asked, passwords only with the old one.
    - Round trips: variable-length integers, object identifiers in binary and
      text, rules as text, the user file, machine URNs.
    - Wiring: the configured initiators and actors that can start are started,
      on the right machine ([Initiators], [Actors]).
    - Procs: without [ProcHandle::cancel] no operation touches freed memory,
      apart from leaving the span of the proc too late, counts are exact, wake-ups
      are not lost and the output arrives ([LightProc]); so it is with any number
      of threads and any interleaving of their accesses, for all operations of
      wakers and [LightProc]s and for dropping the handle, with one more late
      access, to the unparker in the schedule function of a local proc
      ([ProcThreads]).  Either access ends an execution of the models: nothing is
      claimed of what comes after it.  The fields of a proc do not overlap, are
      aligned, and are read back as they were written ([ProcLayout]).
    - Runtime: procs on the pool are safe whatever the workers and the owners of
      wakers and handles do (but for the two late accesses), each is in at most one
      queue and polled by at most one worker; a woken proc that is bound to a worker
      is run again after a bounded number of steps of that worker, whatever else
      happens, and the worker is never stuck meanwhile ([Runtime]).
    - Executor: whatever the threads do, no task is lost or run twice and no
      local task waits for a worker that sleeps; a worker that can wake up can
      always run everything it can reach ([Pool]); a single worker's run is one
      of the interleaved ones ([Pool]); one worker's round ends with
      all queues empty ([Worker]); group reference counts are exact and the last
      close is noticed ([Supervision]); blocking on a future that is woken
      returns its output, and a spawn is queued, grouped and reported to the
      console with its location ([Executor]); loads are ordered and their mean
      is within bounds ([LoadBalancer]).
    - Console: what a client sees is exactly what the layer recorded, after each
      publication, and the layer keeps the promise this rests on ([ConsoleView],
      [ConsoleLayer]); busy times are the time covered by nested polls and
      attributes keep their type ([ConsoleStats]); the span stack is a bag
      ([ConsoleSpans]).
    - Start-up: what the command line makes of the configuration, what the TLS
      acceptor accepts, that key logs can be read back, and that each connection
      has a group of its own ([Startup]); the server starts and serves whenever
      what the configuration names can be opened, fails with the first error
      otherwise, panics when it is started twice in a process, and opens no socket
      before TLS is set up ([Server]).
    - End to end: a member who logs in takes a free machine, nobody else can use
      it meanwhile, gives it back, and the machine's actor switches it on and off
      ([Visit]).
    - Where the code does something else than it means to, a theorem states
      what it does: cyclic roles, the second line of an initiator's child, the
      largest OID node, panicking names and card files, user files with clashing
      names, the cancelled proc, the span left and the unparker used after the proc
      is freed, self-wakes, task details, full callsite
      tables, sleeping dynamic workers, machines taken twice and signals left behind
      by requests that overlap.

    ** Parameters

    Code outside the repository is an interface with the laws its
    documentation gives, and an instance that shows they can hold: [Lmdb]
    ([LmdbLaws]; [LmdbHealthy]: no I/O errors; [LmdbKeyLimit]: keys have 1 to
    511 bytes), [Rkyv], [Argon2], [UserFiles] (file system, and TOML documents as
    bytes), [AuditIo],
    [Hex], [Desfire], [Json], [Writer], [Sasl], [VecAlloc] (how a Vec grows),
    [InputJson], [Spawn] (child processes), [Signals], [Mqtt], [Hdr] (HDR
    histograms), [PoolOps] (slab of groups), [StealOps] (work-stealing deques;
    [StealFair] bounds the races lost in a row), [TlsIo], [LmdbOpen], [ServerIo]
    (files, sockets, signal handlers), [Allocator], [MachineSerde] (derived serde
    code).  Randomness (salts, card
    challenges), time and the answers of the operating system are arguments.

    ** Fuel

    The role walk recurses on parents: [depth_bound] (one more than the number
    of roles) is enough for acyclic roles, with every further fuel giving the
    same answer, and no fuel is enough on a cycle.  The read and line loops of
    the process initiator take fuel per round; the theorems give a sufficient
    amount, or show that none is.  Two rounds are enough for an actor's poll of
    a machine at rest and for every compare-and-exchange loop of a proc.  A
    worker needs one round more than there are tasks, and one attempt to steal
    more than races may be lost.  ProcThreads has no fuel: a loop is a step that
    comes back to itself; at most [max_ops] (2^30) operations are in progress at a
    time, so that the 32-bit count of a proc cannot overflow.  A server that gets
    no signal does not return ([OutOfFuel]).

    ** Not modelled

    Generated schema code and the module SDK; the gRPC transport of the console
    (serve and the stream adapters of server.rs); the types of claims, which have no
    operations; the impls of Debug; rkyv's relative pointers; spawn_threads and
    calculate_ema (floating-point arithmetic), which nobody calls.  In
    [ProcThreads] cancelling through the handle is left out, which goes wrong
    without any interleaving ([LightProc]), and so is polling it, where the lock
    of the awaiter does not exclude anybody.  Memory is sequentially consistent throughout.

    ** Plan

    What is left is small: the supervision registry and the callsites under
    interleaving, and waking the task that awaits a handle as part of [Runtime]. *)

From Stdlib Require Export Ascii.
From stdpp Require Export prelude gmap strings pretty numbers list.

(* [naive_solver] clears hypotheses it has already cleared. *)
#[export] Set Warnings "-clear-no-such-hyp".

(** ** Outcomes and results

    A Rust call either returns, panics, or (in a model whose recursion is
    driven by fuel) has not been given enough fuel to say.  A fallible call
    returns a [result]. *)
Inductive outcome (A : Type) : Type :=
| Done (a : A)
| Panic
| OutOfFuel.
Arguments Done {A} a.
Arguments Panic {A}.
Arguments OutOfFuel {A}.

Inductive result (A E : Type) : Type :=
| Ok (a : A)
| Err (e : E).
Arguments Ok {A E} a.
Arguments Err {A E} e.

Definition outcome_bind {A B} (m : outcome A) (k : A → outcome B) : outcome B :=
  match m with
  | Done a => k a
  | Panic => Panic
  | OutOfFuel => OutOfFuel
  end.

Definition result_bind {A B E} (m : result A E) (k : A → result B E) : result B E :=
  match m with
  | Ok a => k a
  | Err e => Err e
  end.

(** [Result::map_err], [Option::ok_or], [Result::ok], [Result::is_ok]. *)
Definition map_err {A E F} (f : E → F) (r : result A E) : result A F :=
  match r with
  | Ok a => Ok a
  | Err e => Err (f e)
  end.

Definition ok_or {A E} (o : option A) (e : E) : result A E :=
  match o with
  | Some a => Ok a
  | None => Err e
  end.

Definition ok {A E} (r : result A E) : option A :=
  match r with
  | Ok a => Some a
  | Err _ => None
  end.

(** [unwrap]/[expect] on an option or a result panic on the other branch. *)
Definition unwrap {A} (o : option A) : outcome A :=
  match o with
  | Some a => Done a
  | None => Panic
  end.

Definition unwrap_ok {A E} (r : result A E) : outcome A :=
  match r with
  | Ok a => Done a
  | Err _ => Panic
  end.

Declare Scope rust_scope.
Delimit Scope rust_scope with rust.
Notation "'let!' x ':=' e 'in' k" := (outcome_bind e (λ x, k))
  (at level 10, x pattern, e at level 200, k at level 200,
   format "'let!'  x  ':='  e  'in' '//' k") : rust_scope.
Notation "'let?' x ':=' e 'in' k" := (result_bind e (λ x, k))
  (at level 10, x pattern, e at level 200, k at level 200,
   format "'let?'  x  ':='  e  'in' '//' k") : rust_scope.
#[global] Open Scope rust_scope.

(** ** Machine integers

    Unsigned integers of the source are [N]; [fits w n] says [n] is a value of
    the w-bit type and [wrap w n] is what a wrapping operation keeps. *)
Definition wrap (w n : N) : N := (n `mod` 2 ^ w)%N.
Definition fits (w n : N) : Prop := (n < 2 ^ w)%N.
#[export] Instance fits_dec w n : Decision (fits w n).
Proof. unfold fits. apply _. Defined.

Definition u8_max : N := 255.
Definition u128_max : N := 2 ^ 128 - 1.

(** ** Strings

    A Rust [str] is its UTF-8 bytes, a [string] of 8-bit characters.
    Separators and the other characters the code compares with are ASCII, so
    splitting bytes is splitting characters. *)
Fixpoint sall (p : ascii → bool) (s : string) : bool :=
  match s with
  | EmptyString => true
  | String c s' => p c && sall p s'
  end.

(** [str::split] on one separator: ["".split('.')] has one (empty) part. *)
Fixpoint split (sep : ascii) (s : string) : list string :=
  match s with
  | EmptyString => [EmptyString]
  | String c s' =>
      if decide (c = sep) then EmptyString :: split sep s'
      else match split sep s' with
           | [] => [String c EmptyString]
           | h :: t => String c h :: t
           end
  end.

(** [str::split_terminator]: as [split], without a trailing empty part. *)
Definition split_terminator (sep : ascii) (s : string) : list string :=
  let parts := split sep s in
  match last parts with
  | Some EmptyString => removelast parts
  | _ => parts
  end.

(** The parts joined by the separator again. *)
Fixpoint join (sep : ascii) (l : list string) : string :=
  match l with
  | [] => EmptyString
  | [s] => s
  | s :: l' => s +:+ String sep (join sep l')
  end.

Definition no_char (sep : ascii) (s : string) : bool :=
  sall (λ c, bool_decide (c ≠ sep)) s.

(** [str::starts_with] *)
Fixpoint starts_with (p s : string) : bool :=
  match p, s with
  | EmptyString, _ => true
  | String a p', String b s' => bool_decide (a = b) && starts_with p' s'
  | String _ _, EmptyString => false
  end.

(** [<uN>::from_str]: an optional plus sign, then at least one decimal digit,
    with the multiplication and the addition checked at each digit. *)
Fixpoint parse_digits (max acc : N) (s : string) : option N :=
  match s with
  | EmptyString => Some acc
  | String c s' =>
      match Ascii.is_nat c with
      | None => None
      | Some d =>
          let m := (acc * 10)%N in
          if (max <? m)%N then None
          else if (max <? m + N.of_nat d)%N then None
          else parse_digits max (m + N.of_nat d) s'
      end
  end.

Definition parse_uint (max : N) (s : string) : option N :=
  match s with
  | EmptyString => None
  | String c EmptyString =>
      if decide (c = "+"%char ∨ c = "-"%char) then None else parse_digits max 0 s
  | String c s' =>
      if decide (c = "+"%char) then parse_digits max 0 s'
      else parse_digits max 0 s
  end.

(** [ToString] of an unsigned integer. *)
Definition to_string (n : N) : string := pretty n.

Definition is_digit (c : ascii) : bool := bool_decide (is_Some (Ascii.is_nat c)).

(** ** UTF-8

    [str::from_utf8]: the bytes must be well-formed UTF-8 (no overlong forms,
    no surrogates, at most U+10FFFF). *)
Definition utf8_cont (b : N) : bool := ((128 <=? b) && (b <? 192))%N.
Definition in_range (lo hi b : N) : bool := ((lo <=? b) && (b <=? hi))%N.

Fixpoint utf8_valid (l : list N) : bool :=
  match l with
  | [] => true
  | b :: l1 =>
      if (b <? 128)%N then utf8_valid l1
      else
        match l1 with
        | [] => false
        | c1 :: l2 =>
            if in_range 194 223 b then utf8_cont c1 && utf8_valid l2
            else
              match l2 with
              | [] => false
              | c2 :: l3 =>
                  if ((b =? 224)%N && in_range 160 191 c1)
                     || (in_range 225 236 b && utf8_cont c1)
                     || ((b =? 237)%N && in_range 128 159 c1)
                     || (in_range 238 239 b && utf8_cont c1)
                  then utf8_cont c2 && utf8_valid l3
                  else
                    match l3 with
                    | [] => false
                    | c3 :: l4 =>
                        (((b =? 240)%N && in_range 144 191 c1)
                         || (in_range 241 243 b && utf8_cont c1)
                         || ((b =? 244)%N && in_range 128 143 c1))
                        && utf8_cont c2 && utf8_cont c3 && utf8_valid l4
                    end
              end
        end
  end.

Definition string_of_bytes (l : list N) : string :=
  foldr (λ b s, String (ascii_of_N b) s) EmptyString l.

Fixpoint bytes_of_string (s : string) : list N :=
  match s with
  | EmptyString => []
  | String c s' => N_of_ascii c :: bytes_of_string s'
  end.

Definition from_utf8 (l : list N) : option string :=
  if utf8_valid l then Some (string_of_bytes l) else None.

(** ** White space *)

(** [str::trim] leaves nothing: only Unicode white space. *)
Fixpoint blank (l : list N) : bool :=
  match l with
  | [] => true
  | b :: l1 =>
      if in_range 9 13 b || (b =? 32)%N then blank l1
      else
        match l1 with
        | c :: l2 =>
            if ((b =? 194)%N && ((c =? 133)%N || (c =? 160)%N)) then blank l2
            else
              match l2 with
              | d :: l3 =>
                  (((b =? 225)%N && (c =? 154)%N && (d =? 128)%N)
                   || ((b =? 226)%N && (c =? 128)%N
                       && (in_range 128 138 d || in_range 168 169 d || (d =? 175)%N))
                   || ((b =? 226)%N && (c =? 129)%N && (d =? 159)%N)
                   || ((b =? 227)%N && (c =? 128)%N && (d =? 128)%N)) && blank l3
              | [] => false
              end
        | [] => false
        end
  end.

(** The length in bytes of the white space character a text starts with, 0 for
    none; a continuation byte starts none. *)
Definition white_len (l : list N) : nat :=
  match l with
  | b :: _ =>
      if blank [b] then 1
      else if (2 <=? length l) && blank (take 2 l) then 2
      else if (3 <=? length l) && blank (take 3 l) then 3 else 0
  | [] => 0
  end.

Definition flush (word : list N) : list string :=
  match word with [] => [] | _ => [string_of_bytes word] end.

Fixpoint split_white (skip : nat) (word l : list N) : list string :=
  match l with
  | [] => flush word
  | b :: l' =>
      match skip with
      | S skip => split_white skip word l'
      | O =>
          match white_len l with
          | O => split_white 0 (word ++ [b]) l'
          | S k => flush word ++ split_white k [] l'
          end
      end
  end.

(** [str::split_whitespace] *)
Definition split_whitespace (s : string) : list string := split_white 0 [] (bytes_of_string s).

(** ** Slices: indexing out of range panics *)

(** [&l[i..]] *)
Definition slice_from {A} (l : list A) (i : nat) : outcome (list A) :=
  if decide (i ≤ length l) then Done (drop i l) else Panic.

(** [l[i] = x] *)
Definition set_at {A} (l : list A) (i : nat) (x : A) : outcome (list A) :=
  if decide (i < length l) then Done (<[i:=x]> l) else Panic.

(** ** Loops

    A [for] loop over a collection threads the mutable state [St] through its
    body; [any_loop] is the shape [for x in l { if f(&mut st, x) { return true } }
    false]. *)
Fixpoint for_loop {St A} (f : St → A → outcome St) (st : St) (l : list A) : outcome St :=
  match l with
  | [] => Done st
  | a :: l' => let! st' := f st a in for_loop f st' l'
  end.

Fixpoint any_loop {St A} (f : St → A → outcome (St * bool)) (st : St) (l : list A)
  : outcome (St * bool) :=
  match l with
  | [] => Done (st, false)
  | a :: l' =>
      let! (st', b) := f st a in
      if b then Done (st', true) else any_loop f st' l'
  end.

(** ** Wiring modules to machines

    The configuration names modules and lists connections (module, machine).
    [connect] keeps for each module what [find] gives for its machine, a later
    connection replacing an earlier one; [load_modules] walks the configured
    modules, takes each one's connection out of the map and starts it. *)
Definition connect {A} (find : string → option A) (connections : list (string * string))
  : gmap string A :=
  foldl (λ m c, match find c.2 with Some a => <[c.1 := a]> m | None => m end) ∅ connections.

Fixpoint load_modules {A C D} (load_single : string → C → A → outcome (option D))
  (m : gmap string A) (modules : list (string * C)) : outcome (list D) :=
  match modules with
  | [] => Done []
  | (name, cfg) :: rest =>
      match m !! name with
      | Some a =>
          let! o := load_single name cfg a in
          let! ds := load_modules load_single (delete name m) rest in
          Done (match o with Some d => d :: ds | None => ds end)
      | None => load_modules load_single m rest
      end
  end.

(** The last connection of the module to a machine that exists. *)
Definition connected {A} (find : string → option A) (connections : list (string * string))
  (name : string) (a : A) : Prop :=
  ∃ pre i post, connections = pre ++ (name, i) :: post ∧ find i = Some a ∧
    ∀ i', (name, i') ∈ post → find i' = None.

(** ** Tactics *)

(** Invert the equations between constructors of [outcome], [result], options
    and pairs that are in the context. *)
Ltac inv_eqs :=
  repeat match goal with
  | H : Done _ = Done _ |- _ => injection H as H; try subst
  | H : Ok _ = Ok _ |- _ => injection H as H; try subst
  | H : Err _ = Err _ |- _ => injection H as H; try subst
  | H : Some _ = Some _ |- _ => injection H as H; try subst
  | H : (_, _) = (_, _) |- _ => injection H as H; try subst
  | H : Done _ = Panic |- _ => discriminate H
  | H : Done _ = OutOfFuel |- _ => discriminate H
  | H : Panic = Done _ |- _ => discriminate H
  | H : OutOfFuel = Done _ |- _ => discriminate H
  | H : Ok _ = Err _ |- _ => discriminate H
  | H : Err _ = Ok _ |- _ => discriminate H
  | H : None = Some _ |- _ => discriminate H
  | H : Some _ = None |- _ => discriminate H
  end.

(** Split on every [match] and [if] of the goal and the hypotheses, cleaning
    up after each. *)
Ltac crush_cases :=
  repeat (case_match; simplify_eq/=; try done; inv_eqs).

Create HintDb fab.

(** ** Generic lemmas *)

Lemma outcome_bind_Done {A B} (m : outcome A) (k : A → outcome B) b :
  outcome_bind m k = Done b ↔ ∃ a, m = Done a ∧ k a = Done b.
Proof. destruct m; simpl; split; [eauto|intros (a' & Ha & Hk); congruence|..]; (done || by intros (? & ? & ?)). Qed.

Lemma result_bind_Ok {A B E} (m : result A E) (k : A → result B E) b :
  result_bind m k = Ok b ↔ ∃ a, m = Ok a ∧ k a = Ok b.
Proof. destruct m; simpl; split; [eauto|intros (a' & Ha & Hk); congruence|..]; (done || by intros (? & ? & ?)). Qed.

(** *** Loops: partial and total rules *)

Section LoopRules.
Context {St A : Type}.

(** An invariant the body keeps is kept by the loop, and what one iteration
    establishes for its element and the others keep holds at the end. *)
Lemma for_loop_each (I : St → Prop) (Q : A → St → Prop) f (l : list A) st st' :
  (∀ s a s', a ∈ l → I s → f s a = Done s' →
     I s' ∧ Q a s' ∧ ∀ b, Q b s → Q b s') →
  I st → for_loop f st l = Done st' →
  I st' ∧ (∀ a, a ∈ l → Q a st') ∧ ∀ b, Q b st → Q b st'.
Proof.
  revert st. induction l as [|a l IH]; intros st Hf Hi; simpl.
  - intros ?; inv_eqs. split; [done|]. split; [|done]. by intros ? ?%not_elem_of_nil.
  - intros (s1 & H1 & Hl)%outcome_bind_Done.
    destruct (Hf st a s1) as (Hi1 & Ha & Hk); [left|done..|].
    destruct (IH s1) as (Hi' & Heach & Hkeep); [|done..|].
    { intros s b s' Hb. apply Hf. by right. }
    split; [done|]. split; [|by eauto]. intros b [->|Hb]%elem_of_cons; eauto.
Qed.

Lemma any_loop_inv (I : St → Prop) (P : A → Prop) f (l : list A) st st' b :
  (∀ s a s' b, a ∈ l → I s → f s a = Done (s', b) → I s' ∧ (b = true ↔ P a)) →
  I st → any_loop f st l = Done (st', b) →
  I st' ∧ (b = true ↔ ∃ a, a ∈ l ∧ P a).
Proof.
  revert st. induction l as [|a l IH]; intros st Hf Hi; simpl.
  - intros [= <- <-]. split; [done|]. split; [done|]. by intros (? & ?%not_elem_of_nil & _).
  - intros ([s1 b1] & H1 & Hl)%outcome_bind_Done.
    destruct (Hf st a s1 b1) as [Hi1 Hb1]; [left|done..|].
    destruct b1.
    + inv_eqs. split; [done|]. split; [|done]. intros _. exists a. split; [left|tauto].
    + destruct (IH s1) as [Hi' Hb]; [|done..|].
      { intros s c s' b' Hc. apply Hf. by right. }
      split; [done|]. rewrite Hb. split.
      * intros (c & Hc & HP). exists c. split; [by right|done].
      * intros (c & [->|Hc]%elem_of_cons & HP); [|eauto]. exfalso.
        by assert (false = true) by tauto.
Qed.

(** A loop whose body always returns does return. *)
Lemma any_loop_total (I : St → Prop) f (l : list A) st :
  (∀ s a, a ∈ l → I s → ∃ s' b, f s a = Done (s', b) ∧ I s') →
  I st → ∃ st' b, any_loop f st l = Done (st', b) ∧ I st'.
Proof.
  revert st. induction l as [|a l IH]; intros st Hf Hi; simpl; [eauto|].
  destruct (Hf st a) as (s1 & b1 & -> & Hi1); [left|done|]. simpl.
  destruct b1; [eauto|]. apply IH; [|done]. intros s c Hc. apply Hf. by right.
Qed.

Lemma for_loop_total (I : St → Prop) f (l : list A) st :
  (∀ s a, a ∈ l → I s → ∃ s', f s a = Done s' ∧ I s') →
  I st → ∃ st', for_loop f st l = Done st' ∧ I st'.
Proof.
  revert st. induction l as [|a l IH]; intros st Hf Hi; simpl; [eauto|].
  destruct (Hf st a) as (s1 & -> & Hi1); [left|done|]. simpl.
  apply IH; [|done]. intros s c Hc. apply Hf. by right.
Qed.

End LoopRules.

Lemma string_app_cons c (a b : string) : String c a +:+ b = String c (a +:+ b).
Proof. done. Qed.

Lemma string_app_nil_l (a : string) : EmptyString +:+ a = a.
Proof. done. Qed.

Lemma string_app_assoc (a b c : string) : (a +:+ b) +:+ c = a +:+ (b +:+ c).
Proof. induction a; [done|]. rewrite !string_app_cons. by f_equal. Qed.

Lemma string_app_nil_r (a : string) : a +:+ EmptyString = a.
Proof. induction a; [done|]. rewrite string_app_cons. by f_equal. Qed.

Lemma string_length_app (a b : string) :
  String.length (a +:+ b) = String.length a + String.length b.
Proof. induction a; [done|]. rewrite string_app_cons. simpl. lia. Qed.

Lemma sall_app p a b : sall p (a +:+ b) = sall p a && sall p b.
Proof.
  induction a as [|c a IH]; [done|]. rewrite string_app_cons. simpl.
  rewrite IH. by destruct (p c).
Qed.

Lemma sall_impl (p q : ascii → bool) s :
  (∀ c, p c = true → q c = true) → sall p s = true → sall q s = true.
Proof.
  intros Hpq. induction s as [|c s IH]; simpl; [done|].
  intros [Hc Hs]%andb_prop. by rewrite (Hpq _ Hc), IH.
Qed.

Lemma starts_with_app p s : starts_with p (p +:+ s) = true.
Proof.
  induction p as [|c p IH]; [done|]. rewrite string_app_cons. simpl.
  by rewrite bool_decide_true.
Qed.

#[global] Arguments starts_with : simpl never.

Lemma string_of_bytes_of_string s : string_of_bytes (bytes_of_string s) = s.
Proof. induction s; simpl; [done|]. by rewrite ascii_N_embedding, IHs. Qed.

Lemma bytes_of_string_of_bytes l :
  Forall (fits 8) l → bytes_of_string (string_of_bytes l) = l.
Proof.
  induction 1 as [|b l Hb _ IH]; simpl; [done|]. by rewrite N_ascii_embedding, IH.
Qed.

(** *** Splitting and joining *)

Lemma split_nonempty sep s : split sep s ≠ [].
Proof. destruct s; simpl; [done|]. repeat case_match; done. Qed.

Lemma join_cons2 sep s t l :
  join sep (s :: t :: l) = s +:+ String sep (join sep (t :: l)).
Proof. done. Qed.

Lemma join_String sep c h t : join sep (String c h :: t) = String c (join sep (h :: t)).
Proof. by destruct t. Qed.

Lemma join_split sep s : join sep (split sep s) = s.
Proof.
  induction s as [|c s IH]; simpl; [done|].
  pose proof (split_nonempty sep s).
  case_decide as Hc.
  - destruct (split sep s) as [|h t]; [done|]. rewrite join_cons2, IH. by subst.
  - destruct (split sep s) as [|h t]; [done|]. by rewrite join_String, IH.
Qed.

(** [split] loses nothing: equal parts come from equal strings. *)
#[export] Instance split_inj sep : Inj (=) (=) (split sep).
Proof. intros a b H. by rewrite <- (join_split sep a), H, join_split. Qed.

Lemma split_no_char sep s : no_char sep s = true → split sep s = [s].
Proof.
  unfold no_char. induction s as [|c s IH]; simpl; [done|].
  intros [Hc%bool_decide_eq_true Hs]%andb_prop.
  rewrite decide_False by done. by rewrite IH.
Qed.

Lemma split_app_sep sep a b :
  no_char sep a = true → split sep (a +:+ String sep b) = a :: split sep b.
Proof.
  unfold no_char. induction a as [|c a IH].
  - simpl. by rewrite decide_True.
  - rewrite string_app_cons. simpl. intros [Hc%bool_decide_eq_true Hs]%andb_prop.
    rewrite decide_False by done. by rewrite IH.
Qed.

Lemma split_app_l sep a b :
  split sep (a +:+ String sep b) = split sep a ++ split sep b.
Proof.
  induction a as [|c a IH].
  - simpl. by rewrite decide_True.
  - rewrite string_app_cons. simpl. rewrite IH. case_decide; [done|].
    pose proof (split_nonempty sep a). by destruct (split sep a).
Qed.

Lemma split_join sep l :
  l ≠ [] → Forall (λ s, no_char sep s = true) l → split sep (join sep l) = l.
Proof.
  intros Hne Hall. induction l as [|s l IH]; [done|].
  apply Forall_cons in Hall as [Hs Hall].
  destruct l as [|t l]; [by apply split_no_char|].
  rewrite join_cons2, split_app_sep by done. by rewrite IH.
Qed.

Lemma split_parts_no_char sep s : Forall (λ p, no_char sep p = true) (split sep s).
Proof.
  unfold no_char. induction s as [|c s IH]; simpl; [by constructor|].
  case_decide as Hc; [by constructor|].
  destruct (split sep s) as [|h t]; [|apply Forall_cons in IH as [Hh Ht]];
    constructor; simpl; rewrite ?bool_decide_true by done; auto.
Qed.

(** *** Decimal numbers: printing then parsing *)

Lemma is_nat_pretty_N_char (d : N) :
  (d < 10)%N → Ascii.is_nat (pretty_N_char d) = Some (N.to_nat d).
Proof.
  intros H. destruct d as [|p]; [done|].
  do 4 (destruct p as [p|p|]; try done; try lia).
Qed.

Lemma parse_digits_go max x s :
  (x ≤ max)%N →
  parse_digits max 0 (pretty_N_go x s) = parse_digits max x s.
Proof.
  revert s. induction (N.lt_wf_0 x) as [x _ IH]. intros s Hx.
  destruct (decide (x = 0%N)) as [->|Hne]; [by rewrite pretty_N_go_0|].
  pose proof (N.div_mod x 10 ltac:(done)) as Hdm.
  pose proof (N.mod_lt x 10 ltac:(done)) as Hm.
  rewrite pretty_N_go_step by lia.
  assert (x `div` 10 < x)%N by (apply N.div_lt; lia).
  rewrite IH by lia. simpl.
  rewrite is_nat_pretty_N_char, N2Nat.id by done.
  set (q := (x `div` 10)%N) in *. set (r := (x `mod` 10)%N) in *.
  destruct (N.ltb_spec max (q * 10)); [lia|].
  destruct (N.ltb_spec max (q * 10 + r)); [lia|]. f_equal. lia.
Qed.

Lemma sall_digit_go x s :
  sall is_digit s = true → sall is_digit (pretty_N_go x s) = true.
Proof.
  revert s. induction (N.lt_wf_0 x) as [x _ IH]. intros s Hs.
  destruct (decide (x = 0%N)) as [->|Hne]; [by rewrite pretty_N_go_0|].
  rewrite pretty_N_go_step by lia. apply IH; [apply N.div_lt; lia|].
  simpl. rewrite Hs. unfold is_digit.
  rewrite is_nat_pretty_N_char by (apply N.mod_lt; done).
  rewrite bool_decide_true by eauto. done.
Qed.

Lemma to_string_digits n : sall is_digit (to_string n) = true.
Proof.
  unfold to_string, pretty, pretty_N. case_decide; [done|]. by apply sall_digit_go.
Qed.

Lemma to_string_no_char sep n : is_digit sep = false → no_char sep (to_string n) = true.
Proof.
  intros Hsep. unfold no_char. eapply sall_impl; [|apply to_string_digits].
  intros c Hc. apply bool_decide_eq_true. intros ->. congruence.
Qed.

Lemma pretty_N_go_nonempty x s :
  (0 < x)%N → ∃ c s', pretty_N_go x s = String c s'.
Proof.
  revert s. induction (N.lt_wf_0 x) as [x _ IH]. intros s Hx.
  rewrite pretty_N_go_step by done.
  destruct (decide (x `div` 10 = 0)%N) as [->|Hne].
  - rewrite pretty_N_go_0. eauto.
  - apply IH; [by apply N.div_lt|by apply N.neq_0_lt_0].
Qed.

Lemma parse_uint_digits max s :
  s ≠ EmptyString → sall is_digit s = true → parse_uint max s = parse_digits max 0 s.
Proof.
  intros Hne Hall. destruct s as [|c s]; [done|].
  simpl in Hall. apply andb_prop in Hall as [Hc%bool_decide_eq_true _].
  assert (c ≠ "+"%char ∧ c ≠ "-"%char) as [Hp Hm].
  { split; intros ->; destruct Hc; discriminate. }
  unfold parse_uint. destruct s; rewrite decide_False by tauto; done.
Qed.

Lemma parse_uint_to_string max n : (n ≤ max)%N → parse_uint max (to_string n) = Some n.
Proof.
  intros Hn. rewrite parse_uint_digits; [| |apply to_string_digits].
  - unfold to_string, pretty, pretty_N. case_decide as H0.
    + subst. simpl. by destruct max.
    + by rewrite parse_digits_go.
  - unfold to_string, pretty, pretty_N. case_decide as H0; [done|].
    destruct (pretty_N_go_nonempty n EmptyString) as (c & s & ->); [lia|done].
Qed.

(** ** Wiring *)

Lemma connect_spec {A} (find : string → option A) connections name a :
  connect find connections !! name = Some a ↔ connected find connections name a.
Proof.
  unfold connect. induction connections as [|[n i] l IH] using rev_ind.
  { split; [done|]. intros ([|??] & ? & ? & ? & _); simplify_eq. }
  rewrite foldl_app. simpl. split.
  - intros Hl. destruct (decide (n = name ∧ is_Some (find i))) as [[-> [b Hb]]|Hno].
    + rewrite Hb, lookup_insert_eq in Hl. simplify_eq. exists l, i, [].
      split_and!; [done..|]. intros ? ?%elem_of_nil. done.
    + assert (connected find l name a) as (pre & i1 & post & -> & Hg & Hn).
      { apply IH. destruct (find i) as [b|] eqn:Hb; [|done].
        rewrite lookup_insert_ne in Hl; [done|]. naive_solver. }
      exists pre, i1, (post ++ [(n, i)]). rewrite <- app_assoc. split_and!; [done..|].
      intros i' [?|?%list_elem_of_singleton]%elem_of_app; [auto|]. simplify_eq.
      apply eq_None_not_Some. naive_solver.
  - intros (pre & i1 & post & Heq & Hg & Hn).
    destruct post as [|p post _] using rev_ind.
    + apply app_inj_tail in Heq as [-> Heq]. simplify_eq. rewrite Hg. apply lookup_insert_eq.
    + rewrite app_comm_cons, app_assoc in Heq. apply app_inj_tail in Heq as [-> <-].
      assert (connected find (pre ++ (name, i1) :: post) name a) as Hl%IH.
      { exists pre, i1, post. split_and!; [done..|]. intros i' Hi'. apply Hn.
        apply elem_of_app. by left. }
      destruct (find i) as [b|] eqn:Hb; [|done]. rewrite lookup_insert_ne; [done|]. intros ->.
      rewrite (Hn i) in Hb; [done|]. apply elem_of_app. right. by apply list_elem_of_singleton.
Qed.

(** [starts name cfg a d]: the module so configured becomes [d] on [a]. *)
Lemma load_modules_spec {A C D} (load_single : string → C → A → outcome (option D))
  (starts : string → C → A → D → Prop) m l :
  NoDup l.*1 →
  (∀ name cfg a, (name, cfg) ∈ l →
    ∃ o, load_single name cfg a = Done o ∧ ∀ d, o = Some d ↔ starts name cfg a d) →
  ∃ ds, load_modules load_single m l = Done ds ∧
    ∀ d, d ∈ ds ↔ ∃ name cfg a, (name, cfg) ∈ l ∧ m !! name = Some a ∧ starts name cfg a d.
Proof.
  revert m. induction l as [|[n c] l IH]; intros m Hnd Hok; simpl.
  { exists []. split; [done|]. intros d. split; [by intros ?%elem_of_nil|].
    intros (? & ? & ? & ?%elem_of_nil & _). done. }
  apply NoDup_cons in Hnd as [Hn Hnd].
  assert (∀ name cfg, (name, cfg) ∈ l → name ≠ n) as Hne.
  { intros name cfg Hin ->. apply Hn. apply list_elem_of_fmap. by exists (n, cfg). }
  assert (Hok' := λ name cfg a (Hin : (name, cfg) ∈ l),
    Hok name cfg a (list_elem_of_further _ _ _ Hin)).
  destruct (m !! n) as [a|] eqn:Hm.
  - destruct (Hok n c a) as (o & -> & Ho); [left|].
    destruct (IH (delete n m) Hnd Hok') as (ds & -> & Hds). simpl. eexists. split; [reflexivity|].
    assert (∀ d, d ∈ ds ↔ ∃ name cfg b, (name, cfg) ∈ l ∧ m !! name = Some b ∧
      starts name cfg b d) as Hds'.
    { intros d. rewrite Hds. split; intros (name & cfg & b & Hin & Hl & Hst);
        exists name, cfg, b; (split_and!; [done| |done]); pose proof (Hne _ _ Hin);
        revert Hl; by rewrite lookup_delete_ne. }
    intros d. transitivity (o = Some d ∨ d ∈ ds).
    { destruct o; [rewrite elem_of_cons|]; naive_solver. }
    rewrite Ho, Hds'. split.
    + intros [?|(name & cfg & b & ? & ?)]; [exists n, c, a; by split_and!; [left|..]|].
      exists name, cfg, b. split; [by right|done].
    + intros (name & cfg & b & [[= -> ->]|Hin]%elem_of_cons & Hl & Hst); [left; by simplify_eq|].
      right. by exists name, cfg, b.
  - destruct (IH m Hnd Hok') as (ds & -> & Hds). exists ds. split; [done|]. intros d. rewrite Hds.
    split; intros (name & cfg & b & Hin & Hl & Hst); exists name, cfg, b; (split_and!; [|done..]).
    + by right.
    + apply elem_of_cons in Hin as [[= -> ->]|?]; [congruence|done].
Qed.
