(* ===== verification/Errors.v ===== *)
(** * Errors and locales (bffhd/error.rs, bffhd/utils/l10nstring.rs)

    The wrapper that gives an I/O error the code, help and link of the place it
    happened in, and the table of localized messages.  [io::Error] and miette's
    severities are parameters. *)

From S2P Require Import Prelude.

(** ** bffhd/error.rs *)

Section Error.
(** [io::Error] and the [Severity] of miette. *)
Context {IoError Severity : Type}.

(** [trait Description], with its defaults. *)
Record Description := mkDescription {
  DESCRIPTION : option string;
  CODE : string;
  HELP : option string;
  URL : option string;
}.

Definition described (code : string) : Description := mkDescription None code None None.

Inductive Source := Io (e : IoError).

(** [#[error("io error occured")]] *)
Definition source_display (s : Source) : string := "io error occured".

(** The derived [Diagnostic] of [Source] gives no severity, and its [description]
    is the one the trait [Error] has by default. *)
Definition source_severity (s : Source) : option Severity := None.
Definition source_description (s : Source) : string := "description() is deprecated; use Display".

Record Error := mkError {
  description_ : option string;
  code_ : string;
  severity_ : option Severity;
  help_ : option string;
  url_ : option string;
  source_ : Source;
}.

Definition new (D : Description) (source : Source) : Error :=
  mkError (DESCRIPTION D) (CODE D) (source_severity source) (HELP D) (URL D) source.

Definition wrap (D : Description) (error : Source) : Error := new D error.

Definition display (self : Error) : string := source_display (source_ self).

Definition source (self : Error) : option Source := Some (source_ self).

Definition description (self : Error) : string :=
  match description_ self with
  | Some desc => desc
  | None => source_description (source_ self)
  end.

(** [impl Diagnostic for Error] *)
Definition code (self : Error) : option string := Some (code_ self).
Definition severity (self : Error) : option Severity := severity_ self.
Definition help (self : Error) : option string := help_ self.
Definition url (self : Error) : option string := url_ self.
Definition diagnostic_source (self : Error) : option Source := Some (source_ self).

End Error.

(** ** bffhd/utils/l10nstring.rs *)

Module Locales.

Record t := mk { map : gmap string (gmap string string) }.

(** The language and the message in it. *)
Definition get (self : t) (lang msg : string) : option (string * string) :=
  m ← map self !! msg; content ← m !! lang; Some (lang, content).

Definition available (self : t) (msg : string) : list string := [].

(** [LANG] *)
Definition LANG : t := mk ∅.

End Locales.
