(* ===== verification/VarInt.v ===== *)
(** * Variable-length unsigned integers (bffhd/utils/varint.rs)

    [VarUInt<N>] is a big-endian base-128 encoding kept right-aligned in an
    N-byte array: every byte but the last has bit 7 set.  [from] is the loop of
    the macro [convert_from!], [into] the loop of [convert_into!]; both are
    instantiated for u8..u128 by [impl_convert_from_to!].

    [venc] is a reference encoder on lists; the theorems show that the array
    loop computes it, that it is minimal, and that decoding inverts it. *)

From S2P Require Import Prelude.

Module VarInt.

Local Open Scope N_scope.

Record VarUInt := mkVarUInt {
  offset : nat;
  bytes : list N;
}.

Definition new (bytes : list N) (offset : nat) : VarUInt := mkVarUInt offset bytes.

Definition default (n : nat) : VarUInt := new (replicate n 0) n.

Definition as_bytes (v : VarUInt) : outcome (list N) :=
  slice_from (bytes v) (offset v).

(** The [while num > 0x7f] loop; [idx] is the index written next. *)
Fixpoint convert_from_loop (idx : nat) (num more : N) (bs : list N)
  : outcome (nat * list N) :=
  if 0x7f <? num then
    let! bs' := set_at bs idx (N.lor (N.land num 0x7f) more) in
    match idx with
    | O => Panic
    | S idx' => convert_from_loop idx' (N.shiftr num 7) 0x80 bs'
    end
  else
    let! bs' := set_at bs idx (N.lor (wrap 8 num) more) in
    Done (idx, bs').

(** [From<$num> for VarUInt<$req>] *)
Definition from (n : nat) (inp : N) : outcome VarUInt :=
  let this := default n in
  match length (bytes this) with
  | O => Panic
  | S last =>
      let! (idx, bs) := convert_from_loop last inp 0 (bytes this) in
      Done (new bs idx)
  end.

(** The loop of [convert_into!] visits the bytes from the last one;
    [w] is the width of the result type, past which a shift overflows. *)
Fixpoint convert_into_loop (w : N) (rev_bytes : list N) (shift out : N) : outcome N :=
  match rev_bytes with
  | [] => Done out
  | b :: r =>
      if w <=? shift then Panic
      else
        let val := N.land b 0x7f in
        let shifted := wrap w (N.shiftl val shift) in
        convert_into_loop w r (shift + 7) (N.lor out shifted)
  end.

(** [Into<$num> for VarUInt<$req>] *)
Definition into (w : N) (v : VarUInt) : outcome N :=
  let! bs := as_bytes v in
  convert_into_loop w (rev bs) 0 0.

(** The five instantiations: (bits, array size). *)
Definition VarU8 : N * nat := (8, 2%nat).
Definition VarU16 : N * nat := (16, 3%nat).
Definition VarU32 : N * nat := (32, 5%nat).
Definition VarU64 : N * nat := (64, 10%nat).
Definition VarU128 : N * nat := (128, 19%nat).

(** ** Reference encoder *)

(** [venc k more x]: the encoding of [x] in at most [k + 1] bytes, whose last
    byte carries the flag [more]. *)
Fixpoint venc (k : nat) (more x : N) : list N :=
  match k with
  | O => [N.lor x more]
  | S k' =>
      if 0x7f <? x then venc k' 0x80 (N.shiftr x 7) ++ [N.lor (N.land x 0x7f) more]
      else [N.lor x more]
  end.

(** A byte sequence is a single minimal group when every byte but the last has
    its continuation bit, the last has not, and there is no leading zero
    group. *)
Definition minimal_group (bs : list N) : Prop :=
  ∃ init lst, bs = init ++ [lst] ∧ lst < 0x80 ∧
    Forall (λ b, 0x80 ≤ b < 0x100) init ∧ head init ≠ Some 0x80.

Lemma venc_O more x : venc 0 more x = [N.lor x more].
Proof. done. Qed.

Lemma venc_S k more x :
  venc (S k) more x =
    if 0x7f <? x then venc k 0x80 (N.shiftr x 7) ++ [N.lor (N.land x 0x7f) more]
    else [N.lor x more].
Proof. done. Qed.

(** ** Bit lemmas *)

Lemma land_7f x : N.land x 0x7f = x `mod` 128.
Proof. change 0x7f with (N.ones 7). by rewrite N.land_ones. Qed.

Lemma shiftr_7 x : N.shiftr x 7 = x `div` 128.
Proof. by rewrite N.shiftr_div_pow2. Qed.

Lemma shiftl_7 x : N.shiftl x 7 = x * 128.
Proof. by rewrite N.shiftl_mul_pow2. Qed.

Lemma lor_disjoint_add a b k :
  a < 2 ^ k → N.lor a (b * 2 ^ k) = a + b * 2 ^ k.
Proof.
  intros Ha. rewrite <- N.shiftl_mul_pow2.
  assert (N.land a (N.shiftl b k) = 0) as H.
  { apply N.bits_inj. intros i. rewrite N.land_spec, N.bits_0.
    destruct (N.lt_ge_cases i k) as [Hi|Hi].
    - rewrite N.shiftl_spec_low by done. apply andb_false_r.
    - rewrite <- (N.mod_small a (2 ^ k)) by done.
      rewrite N.mod_pow2_bits_high by done. done. }
  rewrite <- N.lxor_lor by done. by rewrite <- N.add_nocarry_lxor.
Qed.

Lemma lor_80 x : x < 128 → N.lor x 0x80 = x + 128.
Proof. intros H. by apply (lor_disjoint_add x 1 7). Qed.

Lemma div_mod_128 x : x = x `div` 128 * 128 + x `mod` 128.
Proof. rewrite (N.div_mod x 128) at 1 by done. lia. Qed.

(** One shift removes one 7-bit group. *)
Lemma shiftr_bound k x :
  x < 2 ^ (7 * N.of_nat (S (S k))) → N.shiftr x 7 < 2 ^ (7 * N.of_nat (S k)).
Proof.
  intros Hx. rewrite shiftr_7. apply N.Div0.div_lt_upper_bound.
  change 128 with (2 ^ 7). rewrite <- N.pow_add_r.
  by replace (7 + 7 * N.of_nat (S k)) with (7 * N.of_nat (S (S k))) by lia.
Qed.

Lemma shiftr_pos x : 127 < x → 0 < N.shiftr x 7.
Proof. intros H. rewrite shiftr_7. apply N.div_str_pos. lia. Qed.

Lemma wrap_small w n : n < 2 ^ w → wrap w n = n.
Proof. apply N.mod_small. Qed.

(** ** The array loop computes the reference encoder *)

Lemma length_venc k more x : (length (venc k more x) ≤ S k)%nat.
Proof.
  revert more x. induction k as [|k IH]; intros more x; simpl; [lia|].
  case_match; simpl; [|lia]. rewrite length_app; simpl.
  specialize (IH 128 (N.shiftr x 7)). lia.
Qed.

Lemma venc_nonempty k more x : venc k more x ≠ [].
Proof. destruct k; simpl; [done|]. case_match; [|done]. by destruct (venc _ _ _). Qed.

Lemma set_at_drop {A} (bs : list A) idx b :
  (idx < length bs)%nat →
  ∃ bs', set_at bs idx b = Done bs' ∧ length bs' = length bs ∧
    drop idx bs' = b :: drop (S idx) bs ∧
    take idx bs' = take idx bs.
Proof.
  intros H. unfold set_at. rewrite decide_True by done.
  eexists. split; [done|]. split; [apply length_insert|]. split.
  - rewrite (drop_S _ b) by (by apply list_lookup_insert_eq).
    f_equal. apply drop_insert_lt. lia.
  - apply take_insert_ge. lia.
Qed.

Lemma convert_from_loop_venc idx num more bs :
  (idx < length bs)%nat → num < 2 ^ (7 * N.of_nat (S idx)) →
  ∃ idx' bs', convert_from_loop idx num more bs = Done (idx', bs') ∧
    (idx' ≤ idx)%nat ∧ length bs' = length bs ∧
    drop idx' bs' = venc idx more num ++ drop (S idx) bs.
Proof.
  revert num more bs. induction idx as [|idx IH]; intros num more bs Hlen Hnum.
  - change (7 * N.of_nat 1) with 7 in Hnum. simpl.
    destruct (N.ltb_spec 127 num); [change (2 ^ 7) with 128 in Hnum; lia|].
    destruct (set_at_drop bs 0 (N.lor (wrap 8 num) more)) as (bs' & -> & Hl & Hd & _); [done|].
    simpl. eexists _, _. split; [done|]. split; [lia|]. split; [done|].
    rewrite Hd. unfold wrap. rewrite N.mod_small; [done|]. change (2 ^ 8) with 256. lia.
  - simpl. destruct (N.ltb_spec 127 num) as [Hgt|Hle].
    + destruct (set_at_drop bs (S idx) (N.lor (N.land num 127) more))
        as (bs1 & -> & Hl1 & Hd1 & Ht1); [done|]. simpl.
      destruct (IH (N.shiftr num 7) 128 bs1) as (idx' & bs' & -> & Hi & Hl & Hd);
        [lia|by apply shiftr_bound|].
      eexists _, _. split; [done|]. split; [lia|]. split; [lia|].
      rewrite Hd, Hd1, <- app_assoc. done.
    + destruct (set_at_drop bs (S idx) (N.lor (wrap 8 num) more))
        as (bs1 & -> & Hl1 & Hd1 & _); [done|]. simpl.
      eexists _, _. split; [done|]. split; [lia|]. split; [done|].
      rewrite Hd1. unfold wrap. rewrite N.mod_small; [done|]. change (2 ^ 8) with 256. lia.
Qed.

(** The array of [from n x] holds the reference encoding of [x]. *)
Lemma from_venc n x :
  (0 < n)%nat → x < 2 ^ (7 * N.of_nat n) →
  ∃ v, from n x = Done v ∧ as_bytes v = Done (venc (pred n) 0 x).
Proof.
  intros Hn Hx. destruct n as [|n]; [lia|]. unfold from, default, new. cbn [bytes].
  rewrite length_replicate.
  destruct (convert_from_loop_venc n x 0 (replicate (S n) 0))
    as (idx & bs & -> & Hi & Hl & Hd); [rewrite length_replicate; lia|done|].
  rewrite length_replicate in Hl.
  eexists. split; [done|]. unfold as_bytes, slice_from; simpl.
  rewrite decide_True by lia. rewrite Hd. f_equal.
  rewrite drop_ge, app_nil_r; [done|]. rewrite length_replicate. lia.
Qed.

(** ** Decoding *)

Definition groups_value (bs : list N) : N :=
  foldr (λ b acc, b `mod` 128 + 128 * acc) 0 (rev bs).

Lemma groups_value_snoc bs b :
  groups_value (bs ++ [b]) = b `mod` 128 + 128 * groups_value bs.
Proof. unfold groups_value. by rewrite rev_app_distr. Qed.

Lemma lor_mod_128 x more :
  x < 128 → more = 0 ∨ more = 128 → N.lor x more `mod` 128 = x.
Proof.
  intros Hx [->| ->].
  - rewrite N.lor_0_r. by apply N.mod_small.
  - rewrite lor_80 by done. rewrite N.Div0.add_mod, N.Div0.mod_same, N.add_0_r, N.Div0.mod_mod.
    by apply N.mod_small.
Qed.

Lemma groups_value_venc k more x :
  x < 2 ^ (7 * N.of_nat (S k)) → more = 0 ∨ more = 128 →
  groups_value (venc k more x) = x.
Proof.
  revert more x. induction k as [|k IH]; intros more x Hx Hm; simpl.
  - change (2 ^ (7 * N.of_nat 1)) with 128 in Hx.
    unfold groups_value; simpl. rewrite lor_mod_128 by done. lia.
  - destruct (N.ltb_spec 127 x) as [Hgt|Hle].
    + rewrite groups_value_snoc, IH by (auto using shiftr_bound).
      rewrite land_7f, lor_mod_128 by (done || by apply N.mod_lt).
      rewrite shiftr_7. pose proof (div_mod_128 x). lia.
    + unfold groups_value; simpl. rewrite lor_mod_128 by (done || lia). lia.
Qed.

Lemma convert_into_loop_value w r shift out :
  out < 2 ^ shift →
  out + 2 ^ shift * foldr (λ b acc, b `mod` 128 + 128 * acc) 0 r < 2 ^ w →
  (r ≠ [] → shift + 7 * (N.of_nat (length r) - 1) < w) →
  convert_into_loop w r shift out =
    Done (out + 2 ^ shift * foldr (λ b acc, b `mod` 128 + 128 * acc) 0 r).
Proof.
  revert shift out. induction r as [|b r IH]; intros shift out Hout Hv Hsh; simpl.
  - f_equal. lia.
  - simpl in Hv. specialize (Hsh ltac:(done)). simpl length in Hsh.
    destruct (N.leb_spec w shift); [lia|].
    rewrite land_7f, N.shiftl_mul_pow2.
    set (F := foldr _ 0 r) in *. set (d := b `mod` 128) in *.
    assert (d < 128) by (by apply N.mod_lt).
    assert (0 < 2 ^ shift) by (apply N.neq_0_lt_0, N.pow_nonzero; done).
    assert (2 ^ (shift + 7) = 2 ^ shift * 128) as Hp by (rewrite N.pow_add_r; done).
    rewrite wrap_small by nia.
    rewrite lor_disjoint_add by done.
    rewrite IH.
    + f_equal. rewrite Hp. fold F. lia.
    + rewrite Hp. nia.
    + rewrite Hp. fold F. nia.
    + intros. destruct r; [done|]. simpl length in *. lia.
Qed.

Lemma into_groups w v bs :
  as_bytes v = Done bs → bs ≠ [] → groups_value bs < 2 ^ w →
  7 * (N.of_nat (length bs) - 1) < w →
  into w v = Done (groups_value bs).
Proof.
  intros Hb Hne Hv Hw. unfold into. rewrite Hb. simpl.
  rewrite convert_into_loop_value; rewrite ?length_rev, ?N.pow_0_r, ?N.mul_1_l, ?N.add_0_l;
    auto; lia.
Qed.

(** ** Shape of the encoding *)

Lemma head_app_nonempty {A} (l k : list A) : l ≠ [] → head (l ++ k) = head l.
Proof. by destruct l. Qed.

(** The continuation groups: every byte has bit 7, and the first is not 0x80
    because the number they encode is positive. *)
Lemma venc_continued k x :
  0 < x → x < 2 ^ (7 * N.of_nat (S k)) →
  Forall (λ b, 0x80 ≤ b < 0x100) (venc k 0x80 x) ∧ head (venc k 0x80 x) ≠ Some 0x80.
Proof.
  revert x. induction k as [|k IH]; intros x Hpos Hx; simpl.
  - change (2 ^ (7 * N.of_nat 1)) with 128 in Hx. rewrite lor_80 by done. simpl.
    split; [apply Forall_singleton; cbv beta; lia|]. intros H%(inj Some). lia.
  - destruct (N.ltb_spec 127 x) as [Hgt|Hle].
    + destruct (IH (N.shiftr x 7)) as [Hf Hh].
      * by apply shiftr_pos.
      * by apply shiftr_bound.
      * pose proof (N.mod_lt x 128 ltac:(done)).
        rewrite land_7f, lor_80 by done. generalize dependent (x `mod` 128). intros r Hr. split.
        -- apply Forall_app. split; [done|]. apply Forall_singleton; cbv beta; lia.
        -- rewrite head_app_nonempty; [done|]. apply venc_nonempty.
    + rewrite lor_80 by lia. simpl. split; [apply Forall_singleton; cbv beta; lia|]. intros H%(inj Some). lia.
Qed.

Lemma venc_minimal k x :
  x < 2 ^ (7 * N.of_nat (S k)) → minimal_group (venc k 0 x).
Proof.
  intros Hx. destruct k as [|k]; simpl.
  - change (2 ^ (7 * N.of_nat 1)) with 128 in Hx.
    exists [], (N.lor x 0). rewrite N.lor_0_r. repeat split; auto.
  - destruct (N.ltb_spec 127 x) as [Hgt|Hle]; rewrite ?N.lor_0_r.
    + exists (venc k 128 (N.shiftr x 7)), (N.land x 127). split; [done|].
      rewrite land_7f. split; [by apply N.mod_lt|].
      apply venc_continued; [by apply shiftr_pos|by apply shiftr_bound].
    + exists [], x. repeat split; auto. lia.
Qed.

(** ** Properties *)

(** C39: for every instantiation (w bits in n bytes, n minimal),
    encoding a w-bit number never panics and decoding gives it back. *)
Theorem varint_roundtrip (w : N) (n : nat) (x : N) :
  7 * (N.of_nat n - 1) < w → w ≤ 7 * N.of_nat n → fits w x →
  ∃ v, from n x = Done v ∧ into w v = Done x.
Proof.
  intros Hn Hw Hx. assert (0 < n)%nat as Hn0 by lia. unfold fits in Hx.
  assert (x < 2 ^ (7 * N.of_nat n)) as Hx'
    by (eapply N.lt_le_trans; [done|]; apply N.pow_le_mono_r; lia).
  destruct (from_venc n x) as (v & Hv & Hb); [done|done|].
  exists v. split; [done|].
  assert (groups_value (venc (pred n) 0 x) = x) as Hg.
  { apply groups_value_venc; [|by left]. by replace (S (pred n)) with n by lia. }
  pose proof (length_venc (pred n) 0 x).
  rewrite (into_groups w v _ Hb); rewrite ?Hg; auto using venc_nonempty. lia.
Qed.

Lemma varint_roundtrip_witness :
  ∃ v, from 19 (2 ^ 128 - 1) = Done v ∧ into 128 v = Done (2 ^ 128 - 1).
Proof. apply (varint_roundtrip 128 19 (2 ^ 128 - 1)); by vm_compute. Defined.

(** the encoding is one minimal group of at most n bytes, so
    concatenated encodings can be told apart. *)
Theorem varint_minimal (n : nat) (x : N) :
  (0 < n)%nat → x < 2 ^ (7 * N.of_nat n) →
  ∃ v bs, from n x = Done v ∧ as_bytes v = Done bs ∧
    (length bs ≤ n)%nat ∧ minimal_group bs.
Proof.
  intros Hn Hx. destruct (from_venc n x) as (v & Hv & Hb); [done|done|].
  exists v, (venc (pred n) 0 x). split; [done|]. split; [done|].
  pose proof (length_venc (pred n) 0 x). split; [lia|].
  apply venc_minimal. by replace (S (pred n)) with n by lia.
Qed.

Lemma varint_minimal_witness :
  ∃ v bs, from 5 128 = Done v ∧ as_bytes v = Done bs ∧
    (length bs ≤ 5)%nat ∧ minimal_group bs.
Proof. apply (varint_minimal 5 128); [lia|by vm_compute]. Defined.

#[global] Arguments venc : simpl never.
#[global] Arguments from : simpl never.

End VarInt.
