(* ===== verification/Oid.v ===== *)
(** * Object identifiers (bffhd/utils/oid.rs)

    An [ObjectIdentifier] is its BER byte string: one byte [40 * root + first]
    followed by the child nodes as [VarU128] groups.  [build], [from_str],
    [from_box] and [convert_to_string] are the constructors, the parser of the
    dotted form, the validator of the byte form and the printer. *)

From S2P Require Import Prelude VarInt.

Module Oid.

Local Open Scope N_scope.

(** [type Node = u128] *)
Definition node_max : N := u128_max.

Inductive ObjectIdentifierRoot := ItuT | Iso | JointIsoItuT.

#[export] Instance root_eq_dec : EqDecision ObjectIdentifierRoot.
Proof. solve_decision. Defined.

Inductive ObjectIdentifierError :=
| IllegalRootNode
| IllegalFirstChildNode
| IllegalChildNodeValue.

#[export] Instance oid_error_eq_dec : EqDecision ObjectIdentifierError.
Proof. solve_decision. Defined.

Record ObjectIdentifier := mkOid { nodes : list N }.

#[export] Instance oid_eq_dec : EqDecision ObjectIdentifier.
Proof. solve_decision. Defined.

Abbreviation oid_result A := (result A ObjectIdentifierError).

(** [self as u8] *)
Definition root_as_u8 (r : ObjectIdentifierRoot) : N :=
  match r with
  | ItuT => 0
  | Iso => 1
  | JointIsoItuT => 2
  end.

(** [TryFrom<u8> for ObjectIdentifierRoot] *)
Definition root_try_from (value : N) : oid_result ObjectIdentifierRoot :=
  match value with
  | 0 => Ok ItuT
  | 1 => Ok Iso
  | 2 => Ok JointIsoItuT
  | _ => Err IllegalRootNode
  end.

(** The validation loop of [from_box] over [nodes[1..]]. *)
Fixpoint from_box_loop (parsing_big_int : bool) (big_int : N) (bs : list N)
  : oid_result unit :=
  match bs with
  | [] => Ok tt
  | b :: bs' =>
      let? st :=
        if negb parsing_big_int && (b <? 128) then Ok (parsing_big_int, big_int)
        else
          let? big :=
            if 0 <? big_int then
              if N.shiftr node_max 7 <=? big_int then Err IllegalChildNodeValue
              else Ok (wrap 128 (N.shiftl big_int 7))
            else Ok big_int in
          Ok (negb (N.land b 0x80 =? 0), N.lor big (N.land b 0x7f))
      in
      let (p, big) := st : bool * N in
      let big := if (0 <? big) && negb p then 0 else big in
      from_box_loop p big bs'
  end.

(** [ObjectIdentifier::from_box] (also [TryFrom<&[u8]>], [TryFrom<Vec<u8>>]) *)
Definition from_box (bs : list N) : oid_result ObjectIdentifier :=
  match bs with
  | [] => Err IllegalRootNode
  | b0 :: rest =>
      let? _ := root_try_from (b0 `div` 40) in
      let? _ := from_box_loop false 0 rest in
      Ok (mkOid bs)
  end.

(** The [for child in children] loop of [build]. *)
Fixpoint build_children (children : list N) (vec : list N) : outcome (list N) :=
  match children with
  | [] => Done vec
  | child :: rest =>
      let! var := VarInt.from (snd VarInt.VarU128) child in
      let! bytes := VarInt.as_bytes var in
      build_children rest (vec ++ bytes)
  end.

(** [ObjectIdentifier::build]; [(root as u8) * 40 + first] is u8 arithmetic,
    at most 2 * 40 + 40. *)
Definition build (root : ObjectIdentifierRoot) (first : N) (children : list N)
  : outcome (oid_result ObjectIdentifier) :=
  if 40 <? first then Done (Err IllegalFirstChildNode)
  else
    let! vec := build_children children [root_as_u8 root * 40 + first] in
    Done (Ok (mkOid vec)).

(** [root], [first_node], [child_nodes], [as_bytes] *)
Definition root (o : ObjectIdentifier) : outcome (oid_result ObjectIdentifierRoot) :=
  match nodes o with
  | [] => Panic
  | b0 :: _ => Done (root_try_from (b0 `div` 40))
  end.

Definition first_node (o : ObjectIdentifier) : outcome N :=
  match nodes o with
  | [] => Panic
  | b0 :: _ => Done (b0 `mod` 40)
  end.

Definition child_nodes (o : ObjectIdentifier) : outcome (list N) :=
  slice_from (nodes o) 1.

Definition parse_string_first_node (s : string) : oid_result N :=
  let? n := ok_or (parse_uint u8_max s) IllegalFirstChildNode in
  if 39 <? n then Err IllegalFirstChildNode else Ok n.

(** The [for child in nodes.map(|n| n.parse().ok())] loop. *)
Fixpoint parse_children (parts : list string) : oid_result (list N) :=
  match parts with
  | [] => Ok []
  | p :: rest =>
      match parse_uint node_max p with
      | Some c => let? cs := parse_children rest in Ok (c :: cs)
      | None => Err IllegalChildNodeValue
      end
  end.

(** [FromStr] (also [TryFrom<&str>], [TryFrom<String>]) *)
Definition from_str (value : string) : outcome (oid_result ObjectIdentifier) :=
  let parts := split "." value in
  match (n ← head parts; n ← parse_uint u8_max n; ok (root_try_from n)) with
  | None => Done (Err IllegalRootNode)
  | Some root =>
      match (n ← head (tail parts); ok (parse_string_first_node n)) with
      | None => Done (Err IllegalFirstChildNode)
      | Some first =>
          match parse_children (tail (tail parts)) with
          | Err e => Done (Err e)
          | Ok children => build root first children
          end
      end
  end.

(** The printing loop of [convert_to_string]; [big_int += ..] is u128
    arithmetic, a debug build panics when it overflows. *)
Fixpoint convert_to_string_loop (parsing_big_int : bool) (big_int : N) (out : string)
  (bs : list N) : outcome (oid_result string) :=
  match bs with
  | [] => Done (Ok out)
  | b :: bs' =>
      if negb parsing_big_int && (b <? 128) then
        let out := out +:+ String "." (to_string b) in
        let flush := (0 <? big_int) && negb parsing_big_int in
        let out' := if flush then out +:+ String "." (to_string big_int) else out in
        convert_to_string_loop parsing_big_int (if flush then 0 else big_int) out' bs'
      else
        let shifted :=
          if 0 <? big_int then
            if N.shiftr node_max 7 <=? big_int then None
            else Some (wrap 128 (N.shiftl big_int 7))
          else Some big_int in
        match shifted with
        | None => Done (Err IllegalChildNodeValue)
        | Some big =>
            let big' := big + N.land b 0x7f in
            if node_max <? big' then Panic
            else
              let p := negb (N.land b 0x80 =? 0) in
              let flush := (0 <? big') && negb p in
              let out' := if flush then out +:+ String "." (to_string big') else out in
              convert_to_string_loop p (if flush then 0 else big') out' bs'
        end
  end.

Definition convert_to_string (bs : list N) : outcome (oid_result string) :=
  match bs with
  | [] => Panic
  | b0 :: rest =>
      let out := to_string (b0 `div` 40) +:+ String "." (to_string (b0 `mod` 40)) in
      convert_to_string_loop false 0 out rest
  end.

(** [Into<String> for &ObjectIdentifier], [Display], [Debug]: an error is a
    panic ([expect]). *)
Definition into_string (o : ObjectIdentifier) : outcome string :=
  let! r := convert_to_string (nodes o) in
  unwrap_ok r.

(** [Deserialize]: the visitor reads a string for a human-readable format and
    bytes otherwise; [Serialize] writes the same two forms. *)
Inductive serde_form := FormStr (s : string) | FormBytes (bs : list N).

Definition serialize (human_readable : bool) (o : ObjectIdentifier) : outcome serde_form :=
  if human_readable then let! s := into_string o in Done (FormStr s)
  else Done (FormBytes (nodes o)).

Definition visit (f : serde_form) : outcome (oid_result ObjectIdentifier) :=
  match f with
  | FormStr s => from_str s
  | FormBytes bs => Done (from_box bs)
  end.

(** The conversions: [from_string] and [TryFrom] of strings, of slices and vectors,
    [Into] slices and vectors, and [Display]. *)
Definition from_string (value : string) : outcome (oid_result ObjectIdentifier) := from_str value.

Definition try_from_string (value : string) : outcome (oid_result ObjectIdentifier) :=
  from_string value.

Definition try_from_bytes (bs : list N) : oid_result ObjectIdentifier := from_box bs.

Definition into_bytes (o : ObjectIdentifier) : list N := nodes o.

Definition display (o : ObjectIdentifier) : outcome string := into_string o.

(** *** The archived form: the nodes, as rkyv stores a vector. *)
Record ArchivedObjectIdentifier := mkArchivedOid { archived : list N }.

(** [Archive::resolve] and [Serialize] of both archived types *)
Definition resolve (o : ObjectIdentifier) : ArchivedObjectIdentifier := mkArchivedOid (nodes o).

(** [Debug for ArchivedObjectIdentifier] *)
Definition error_debug (e : ObjectIdentifierError) : string :=
  match e with
  | IllegalRootNode => "IllegalRootNode"
  | IllegalFirstChildNode => "IllegalFirstChildNode"
  | IllegalChildNodeValue => "IllegalChildNodeValue"
  end.

Definition archived_debug (a : ArchivedObjectIdentifier) : outcome string :=
  let! r := convert_to_string (archived a) in
  Done match r with Ok s => s | Err e => "Invalid OID: " +:+ error_debug e end.

(** [ser::Serialize for ArchivedObjectIdentifier] *)
Definition archived_serialize (human_readable : bool) (a : ArchivedObjectIdentifier) : outcome serde_form :=
  if human_readable then
    let! r := convert_to_string (archived a) in
    let! s := unwrap_ok r in Done (FormStr s)
  else Done (FormBytes (archived a)).

(** ** Specification vocabulary *)

(** What an OID denotes, and its dotted form. *)
Definition dotted (r : ObjectIdentifierRoot) (first : N) (children : list N) : string :=
  join "." (to_string (root_as_u8 r) :: to_string first :: (to_string <$> children)).

(** The byte form: the children as reference VarInt groups. *)
Definition ber (r : ObjectIdentifierRoot) (first : N) (children : list N) : list N :=
  (root_as_u8 r * 40 + first) :: (children ≫= VarInt.venc 18 0).

(** A child node the printer accepts: not one of the 128 largest u128. *)
Definition printable_node (c : N) : Prop := c < 2 ^ 128 - 128.

(** ** Constants *)

Definition OID_TYPE_str : string := "1.3.6.1.4.1.48398.612.1.14".
Definition OID_VALUE_str : string := "1.3.6.1.4.1.48398.612.2.4".

(** ** Building *)

Lemma build_children_venc children vec :
  Forall (λ c, c < 2 ^ 128) children →
  build_children children vec = Done (vec ++ (children ≫= VarInt.venc 18 0)).
Proof.
  revert vec. induction children as [|c cs IH]; intros vec Hall; simpl.
  - by rewrite app_nil_r.
  - apply Forall_cons in Hall as [Hc Hall].
    destruct (VarInt.from_venc 19 c (Nat.lt_0_succ _)) as (v & Hv & Hb).
    { eapply N.lt_le_trans; [exact Hc|]. by vm_compute. }
    cbn [snd VarInt.VarU128]. rewrite Hv. cbn [outcome_bind]. rewrite Hb. simpl. rewrite IH by done. by rewrite <- app_assoc.
Qed.

Lemma build_ber r first children :
  first ≤ 40 → Forall (λ c, c < 2 ^ 128) children →
  build r first children = Done (Ok (mkOid (ber r first children))).
Proof.
  intros Hf Hc. unfold build. destruct (N.ltb_spec 40 first); [lia|].
  rewrite build_children_venc by done. done.
Qed.

(** ** The two loops over the groups of one child *)

Lemma byte_split b : b < 128 → N.land (b + 128) 0x7f = b ∧ (N.land (b + 128) 0x80 =? 0) = false.
Proof.
  intros Hb. rewrite <- VarInt.lor_80 by done. split.
  - rewrite N.land_lor_distr_l, VarInt.land_7f. change (N.land 128 127) with 0.
    rewrite N.lor_0_r. by apply N.mod_small.
  - apply N.eqb_neq. intros H. apply (f_equal (λ z, N.testbit z 7)) in H.
    rewrite N.land_spec, N.lor_spec in H. by rewrite orb_true_r in H.
Qed.

Lemma low_byte_split b : b < 128 → N.land b 0x7f = b ∧ (N.land b 0x80 =? 0) = true.
Proof.
  intros Hb. split.
  - rewrite VarInt.land_7f. by apply N.mod_small.
  - apply N.eqb_eq. change 0x80 with (1 * 2 ^ 7).
    apply N.bits_inj. intros i. rewrite N.land_spec, N.bits_0, <- N.shiftl_mul_pow2.
    destruct (N.lt_ge_cases i 7) as [Hi|Hi].
    + rewrite N.shiftl_spec_low by done. apply andb_false_r.
    + rewrite <- (N.mod_small b (2 ^ 7)) by done. by rewrite N.mod_pow2_bits_high.
Qed.

Lemma node_max_shift : N.shiftr node_max 7 = 2 ^ 121 - 1.
Proof. by vm_compute. Qed.

(** Adding one group to a positive prefix. *)
Lemma group_step x :
  127 < x → x < 2 ^ 128 - 128 →
  (0 <? N.shiftr x 7) = true ∧ (N.shiftr node_max 7 <=? N.shiftr x 7) = false ∧
  wrap 128 (N.shiftl (N.shiftr x 7) 7) = x - N.land x 0x7f ∧
  x - N.land x 0x7f + N.land x 0x7f = x.
Proof.
  intros Hlo Hhi. rewrite node_max_shift.
  pose proof (VarInt.div_mod_128 x) as Hdm.
  pose proof (N.mod_lt x 128 ltac:(done)) as Hm.
  rewrite VarInt.shiftl_7, VarInt.shiftr_7, VarInt.land_7f.
  set (q := x `div` 128) in *. set (r := x `mod` 128) in *.
  change (2 ^ 128) with (2 ^ 121 * 128) in *.
  repeat split.
  - apply N.ltb_lt. lia.
  - apply N.leb_gt. lia.
  - rewrite VarInt.wrap_small; [lia|]. change (2 ^ 128) with (2 ^ 121 * 128). lia.
  - lia.
Qed.

(** Reading the continuation groups of [x] leaves the loop with [x] in
    [big_int], from either value of the flag. *)
Lemma to_string_loop_continued k x p out rest :
  0 < x → x < 2 ^ 121 - 1 → x < 2 ^ (7 * N.of_nat (S k)) →
  convert_to_string_loop p 0 out (VarInt.venc k 0x80 x ++ rest) =
    convert_to_string_loop true x out rest.
Proof.
  revert x p rest. induction k as [|k IH]; intros x p rest Hpos Hmax Hk;
    rewrite ?VarInt.venc_O, ?VarInt.venc_S.
  - simpl. change (2 ^ (7 * N.of_nat 1)) with 128 in Hk. rewrite VarInt.lor_80 by done.
    destruct (byte_split x Hk) as [Hl Hh]. rewrite Hl, Hh.
    destruct (N.ltb_spec (x + 128) 128); [lia|]. rewrite andb_false_r. simpl.
    rewrite N.add_0_l.
    destruct (N.ltb_spec node_max x); [unfold node_max, u128_max in *; lia|].
    by rewrite andb_false_r.
  - destruct (N.ltb_spec 127 x) as [Hgt|Hle].
    + pose proof (N.mod_lt x 128 ltac:(done)) as Hm.
      rewrite <- app_assoc, IH.
      * destruct (group_step x) as (H1 & H2 & H3 & H4); [done|lia|].
        rewrite VarInt.land_7f in H3, H4 |- *. rewrite VarInt.lor_80 by done.
        destruct (byte_split (x `mod` 128) Hm) as [Hl Hh]. simpl.
        rewrite Hl, Hh, H1, H2, H3, H4. simpl.
        destruct (N.ltb_spec node_max x); [unfold node_max, u128_max in *; lia|].
        by rewrite andb_false_r.
      * by apply VarInt.shiftr_pos.
      * rewrite VarInt.shiftr_7. apply N.Div0.div_lt_upper_bound. lia.
      * by apply VarInt.shiftr_bound.
    + rewrite VarInt.lor_80 by lia. simpl.
      destruct (byte_split x ltac:(lia)) as [Hl Hh]. rewrite Hl, Hh.
      destruct (N.ltb_spec (x + 128) 128); [lia|]. rewrite andb_false_r. simpl.
      rewrite N.add_0_l.
      destruct (N.ltb_spec node_max x); [unfold node_max, u128_max in *; lia|].
      by rewrite andb_false_r.
Qed.

(** A whole child: its number is printed and the loop is back at a boundary. *)
Lemma to_string_loop_child c out rest :
  printable_node c →
  convert_to_string_loop false 0 out (VarInt.venc 18 0 c ++ rest) =
    convert_to_string_loop false 0 (out +:+ String "." (to_string c)) rest.
Proof.
  intros Hc. unfold printable_node in Hc. rewrite VarInt.venc_S.
  destruct (N.ltb_spec 127 c) as [Hgt|Hle]; rewrite N.lor_0_r.
  - rewrite <- app_assoc. rewrite to_string_loop_continued.
    + destruct (group_step c) as (H1 & H2 & H3 & H4); [done|done|].
      pose proof (N.mod_lt c 128 ltac:(done)) as Hm.
      rewrite VarInt.land_7f in H3, H4 |- *.
      destruct (low_byte_split (c `mod` 128) Hm) as [Hl Hh]. simpl.
      rewrite Hl, Hh, H1, H2, H3, H4. simpl.
      destruct (N.ltb_spec node_max c); [unfold node_max, u128_max in *; lia|].
      destruct (N.ltb_spec 0 c); [done|lia].
    + by apply VarInt.shiftr_pos.
    + rewrite VarInt.shiftr_7. apply N.Div0.div_lt_upper_bound. lia.
    + rewrite VarInt.shiftr_7. apply N.Div0.div_lt_upper_bound.
      eapply N.lt_le_trans; [done|]. by vm_compute.
  - simpl. destruct (N.ltb_spec c 128); [done|lia].
Qed.

Lemma to_string_loop_children children out :
  Forall printable_node children →
  convert_to_string_loop false 0 out (children ≫= VarInt.venc 18 0) =
    Done (Ok (foldl (λ o c, o +:+ String "." (to_string c)) out children)).
Proof.
  revert out. induction children as [|c cs IH]; intros out Hall; simpl; [done|].
  apply Forall_cons in Hall as [Hc Hall].
  rewrite to_string_loop_child by done. by apply IH.
Qed.

Lemma foldl_join (l : list string) (o : string) :
  foldl (λ o s, o +:+ String "." s) o l = join "." (o :: l).
Proof.
  revert o. induction l as [|s l IH]; intros o; [done|].
  simpl foldl. rewrite IH. destruct l as [|t l]; simpl; [done|].
  by rewrite string_app_assoc, string_app_cons.
Qed.

Lemma foldl_fmap_string (l : list N) (o : string) :
  foldl (λ o c, o +:+ String "." (to_string c)) o l =
  foldl (λ o s, o +:+ String "." s) o (to_string <$> l).
Proof. revert o. induction l; intros o; simpl; [done|]. apply IHl. Qed.

Lemma first_byte r first :
  first ≤ 39 →
  (root_as_u8 r * 40 + first) `div` 40 = root_as_u8 r ∧
  (root_as_u8 r * 40 + first) `mod` 40 = first.
Proof.
  intros Hf. split.
  - rewrite N.div_add_l by done. rewrite N.div_small by lia. lia.
  - rewrite N.add_comm, N.Div0.mod_add. apply N.mod_small. lia.
Qed.

Lemma convert_to_string_ber r first children :
  first ≤ 39 → Forall printable_node children →
  convert_to_string (ber r first children) = Done (Ok (dotted r first children)).
Proof.
  intros Hf Hc. unfold convert_to_string, ber.
  destruct (first_byte r first Hf) as [-> ->].
  rewrite to_string_loop_children by done. do 2 f_equal.
  rewrite foldl_fmap_string, foldl_join. unfold dotted.
  destruct children; simpl; [done|]. by rewrite string_app_assoc, string_app_cons.
Qed.

(** ** Parsing the dotted form *)

Lemma dot_not_digit : is_digit "." = false.
Proof. done. Qed.

Lemma split_dotted r first children :
  split "." (dotted r first children) =
    to_string (root_as_u8 r) :: to_string first :: (to_string <$> children).
Proof.
  apply split_join; [done|].
  repeat (apply Forall_cons; split; [by apply to_string_no_char|]).
  apply Forall_fmap, Forall_true. intros c. by apply to_string_no_char.
Qed.

Lemma parse_children_fmap cs :
  Forall (λ c, c < 2 ^ 128) cs → parse_children (to_string <$> cs) = Ok cs.
Proof.
  induction 1 as [|c cs Hc _ IH]; [done|]. rewrite fmap_cons. cbn [parse_children].
  rewrite parse_uint_to_string by (unfold node_max, u128_max; lia). by rewrite IH.
Qed.

Lemma root_try_from_as_u8 r : root_try_from (root_as_u8 r) = Ok r.
Proof. by destruct r. Qed.

Lemma from_str_dotted r first children :
  first ≤ 39 → Forall (λ c, c < 2 ^ 128) children →
  from_str (dotted r first children) = Done (Ok (mkOid (ber r first children))).
Proof.
  intros Hf Hc. unfold from_str. rewrite split_dotted. simpl.
  rewrite parse_uint_to_string by (destruct r; by vm_compute). simpl.
  rewrite root_try_from_as_u8. simpl.
  unfold parse_string_first_node.
  rewrite parse_uint_to_string by (unfold u8_max; lia). simpl.
  destruct (N.ltb_spec 39 first); [lia|]. simpl.
  rewrite parse_children_fmap by done. apply build_ber; [lia|done].
Qed.

Lemma printable_bound cs : Forall printable_node cs → Forall (λ c, c < 2 ^ 128) cs.
Proof. intros H. eapply Forall_impl; [exact H|]. intros c. unfold printable_node. lia. Qed.

(** ** The validator and the printer agree *)

(** Run from the same state, the two loops accept the same byte strings. *)
Lemma loops_agree p big out bs :
  Forall (λ b, b < 256) bs → big < 2 ^ 128 →
  from_box_loop p big bs = Ok tt ↔
  ∃ s, convert_to_string_loop p big out bs = Done (Ok s).
Proof.
  revert p big out. induction bs as [|b bs IH]; intros p big out Hb Hbig; simpl; [naive_solver|].
  apply Forall_cons in Hb as [Hb0 Hb].
  destruct (negb p && (b <? 128)) eqn:Hp; simpl.
  { apply IH; [done|]. by case_match. }
  rewrite node_max_shift.
  assert (N.land b 127 < 128) as Hl by (rewrite VarInt.land_7f; by apply N.mod_lt).
  destruct (N.ltb_spec 0 big) as [Hpos|Hz]; simpl.
  - destruct (N.leb_spec (2 ^ 121 - 1) big) as [|Hlt]; simpl.
    { split; [done|by intros [??]]. }
    assert (big * 128 + 128 ≤ 2 ^ 128) as Hsz
      by (change (2 ^ 128) with (2 ^ 121 * 128); lia).
    rewrite VarInt.shiftl_7, VarInt.wrap_small by lia.
    assert (N.lor (big * 128) (N.land b 127) = big * 128 + N.land b 127) as ->.
    { rewrite N.lor_comm, N.add_comm. by apply (VarInt.lor_disjoint_add _ _ 7). }
    destruct (N.ltb_spec node_max (big * 128 + N.land b 127));
      [unfold node_max, u128_max in *; lia|].
    apply IH; [done|]. case_match; [done|lia].
  - assert (big = 0) as -> by lia. rewrite N.lor_0_l, N.add_0_l.
    destruct (N.ltb_spec node_max (N.land b 127)); [unfold node_max, u128_max in *; lia|].
    apply IH; [done|]. case_match; [done|lia].
Qed.

Lemma venc_bytes k more x :
  more = 0 ∨ more = 128 → x < 2 ^ (7 * N.of_nat (S k)) →
  Forall (λ b, b < 256) (VarInt.venc k more x).
Proof.
  revert more x. induction k as [|k IH]; intros more x Hm Hx;
    rewrite ?VarInt.venc_O, ?VarInt.venc_S.
  - change (2 ^ (7 * N.of_nat 1)) with 128 in Hx.
    apply Forall_singleton. destruct Hm as [->| ->]; [rewrite N.lor_0_r|rewrite VarInt.lor_80]; lia.
  - destruct (N.ltb_spec 127 x).
    + apply Forall_app. split; [apply IH; [by right|by apply VarInt.shiftr_bound]|].
      apply Forall_singleton. pose proof (N.mod_lt x 128 ltac:(done)) as Hr.
      rewrite VarInt.land_7f. generalize dependent (x `mod` 128). intros r Hr.
      destruct Hm as [->| ->]; [rewrite N.lor_0_r|rewrite VarInt.lor_80]; lia.
    + apply Forall_singleton. destruct Hm as [->| ->]; [rewrite N.lor_0_r|rewrite VarInt.lor_80]; lia.
Qed.

Lemma ber_tail_bytes children :
  Forall (λ c, c < 2 ^ 128) children →
  Forall (λ b, b < 256) (children ≫= VarInt.venc 18 0).
Proof.
  induction 1 as [|c cs Hc _ IH]; simpl; [constructor|].
  apply Forall_app. split; [|done]. apply venc_bytes; [by left|].
  eapply N.lt_le_trans; [done|]. by vm_compute.
Qed.

(** ** Properties *)

(** C38: an OID built from a root, a first node up to 39 and printable
    children prints as its dotted form, and parsing that form gives it back. *)
Theorem oid_string_roundtrip r first children :
  first ≤ 39 → Forall printable_node children →
  ∃ o, build r first children = Done (Ok o) ∧
    into_string o = Done (dotted r first children) ∧
    from_str (dotted r first children) = Done (Ok o).
Proof.
  intros Hf Hc. exists (mkOid (ber r first children)).
  split; [apply build_ber; [lia|by apply printable_bound]|]. split.
  - unfold into_string. cbn [nodes]. by rewrite convert_to_string_ber.
  - apply from_str_dotted; [done|by apply printable_bound].
Qed.

Lemma oid_string_roundtrip_witness :
  ∃ o, build Iso 3 [6; 1; 4; 1; 48398; 612; 2; 4] = Done (Ok o) ∧
    into_string o = Done OID_VALUE_str ∧ from_str OID_VALUE_str = Done (Ok o).
Proof.
  apply (oid_string_roundtrip Iso 3 [6; 1; 4; 1; 48398; 612; 2; 4]); [lia|].
  repeat constructor; by vm_compute.
Defined.

(** every byte string [from_box] accepts prints without error or
    panic, so the [expect] in [Into<String>] holds for deserialized OIDs; and
    every non-empty byte string with a legal root that prints is accepted. *)
Theorem oid_validator_printer_agree bs :
  Forall (λ b, b < 256) bs →
  (∃ o, from_box bs = Ok o) ↔
  ((∃ r, root (mkOid bs) = Done (Ok r)) ∧ ∃ s, into_string (mkOid bs) = Done s).
Proof.
  intros Hb. unfold into_string, root, from_box; simpl. destruct bs as [|b0 bs]; simpl.
  { split; [by intros [o ?]|by intros [[r ?] _]]. }
  apply Forall_cons in Hb as [_ Hb].
  set (out := _ +:+ _). split.
  - intros [o H]. apply result_bind_Ok in H as (r & Hr & H).
    apply result_bind_Ok in H as ([] & Hl & _). split; [rewrite Hr; eauto|].
    destruct (proj1 (loops_agree false 0 out bs Hb ltac:(done)) Hl) as [s Hs].
    exists s. by rewrite Hs.
  - intros [[r Hr] [s Hs]]. inv_eqs. rewrite Hr. simpl.
    apply outcome_bind_Done in Hs as ([s'|e] & Hs & Hu); [|done].
    rewrite (proj2 (loops_agree false 0 out bs Hb ltac:(done))) by eauto. simpl. eauto.
Qed.

Lemma oid_validator_printer_agree_witness :
  (∃ o, from_box [43; 6; 1] = Ok o) ↔
  ((∃ r, root (mkOid [43; 6; 1]) = Done (Ok r)) ∧
   ∃ s, into_string (mkOid [43; 6; 1]) = Done s).
Proof. apply (oid_validator_printer_agree [43; 6; 1]). repeat constructor. Defined.

Lemma from_box_ber r first children :
  first ≤ 39 → Forall printable_node children →
  from_box (ber r first children) = Ok (mkOid (ber r first children)).
Proof.
  intros Hf Hc. pose proof (printable_bound _ Hc) as Hb. unfold ber. simpl.
  destruct (first_byte r first Hf) as [-> _]. rewrite root_try_from_as_u8. simpl.
  rewrite (proj2 (loops_agree false 0 EmptyString _ (ber_tail_bytes children Hb) ltac:(done)));
    [done|]. eexists. by apply to_string_loop_children.
Qed.

(** both serde forms round-trip for built OIDs. *)
Theorem oid_serde_roundtrip human r first children :
  first ≤ 39 → Forall printable_node children →
  ∃ o f, build r first children = Done (Ok o) ∧
    serialize human o = Done f ∧ visit f = Done (Ok o).
Proof.
  intros Hf Hc. pose proof (printable_bound _ Hc) as Hb.
  exists (mkOid (ber r first children)).
  pose proof (convert_to_string_ber r first children Hf Hc) as Hs.
  destruct human.
  - exists (FormStr (dotted r first children)).
    split; [apply build_ber; [lia|done]|]. split; [|by apply from_str_dotted].
    unfold serialize, into_string. cbn [nodes]. by rewrite Hs.
  - exists (FormBytes (ber r first children)).
    split; [apply build_ber; [lia|done]|]. split; [done|].
    cbn [visit]. by rewrite from_box_ber.
Qed.

Lemma oid_serde_roundtrip_witness :
  ∃ o f, build JointIsoItuT 25 [2 ^ 127] = Done (Ok o) ∧
    serialize false o = Done f ∧ visit f = Done (Ok o).
Proof.
  apply (oid_serde_roundtrip false JointIsoItuT 25 [2 ^ 127]); [lia|].
  repeat constructor; by vm_compute.
Defined.

(** The conversions undo each other for built OIDs. *)
Theorem oid_conversions_roundtrip r first children :
  first ≤ 39 → Forall printable_node children →
  ∃ o s, build r first children = Done (Ok o) ∧ try_from_bytes (into_bytes o) = Ok o ∧
    display o = Done s ∧ try_from_string s = Done (Ok o).
Proof.
  intros Hf Hc. pose proof (printable_bound _ Hc) as Hb.
  exists (mkOid (ber r first children)), (dotted r first children).
  pose proof (convert_to_string_ber r first children Hf Hc) as Hs.
  split; [apply build_ber; [lia|done]|]. split; [by apply from_box_ber|].
  split; [|by apply from_str_dotted].
  unfold display, into_string. cbn [nodes]. by rewrite Hs.
Qed.

Lemma oid_conversions_roundtrip_witness :
  ∃ o s, build JointIsoItuT 25 [2 ^ 127] = Done (Ok o) ∧ try_from_bytes (into_bytes o) = Ok o ∧
    display o = Done s ∧ try_from_string s = Done (Ok o).
Proof.
  apply (oid_conversions_roundtrip JointIsoItuT 25 [2 ^ 127]); [lia|].
  repeat constructor; by vm_compute.
Defined.

(** [build] accepts the largest child node, but the overflow guard
    [big_int >= Node::MAX >> 7] of the printer and of the validator rejects it:
    printing the OID panics and reading its bytes back fails. *)
Theorem oid_largest_node_unprintable :
  ∃ o, build Iso 3 [u128_max] = Done (Ok o) ∧
    into_string o = Panic ∧ from_box (nodes o) = Err IllegalChildNodeValue.
Proof.
  eexists. split; [by vm_compute|]. split; by vm_compute.
Qed.

(** [build] lets the first node be 40, one more than the node
    range the error documents, and the result is another OID: 0.40 is 1.0, and
    2.40 has no legal root. *)
Theorem oid_first_node_40 children :
  Forall (λ c, c < 2 ^ 128) children →
  build ItuT 40 children = build Iso 0 children ∧
  ∃ o, build JointIsoItuT 40 children = Done (Ok o) ∧
    root o = Done (Err IllegalRootNode).
Proof.
  intros Hc. split.
  - rewrite !build_ber by (done || lia). done.
  - exists (mkOid (ber JointIsoItuT 40 children)).
    split; [by apply build_ber|done].
Qed.

Lemma oid_first_node_40_witness :
  build ItuT 40 [7] = build Iso 0 [7] ∧
  ∃ o, build JointIsoItuT 40 [7] = Done (Ok o) ∧ root o = Done (Err IllegalRootNode).
Proof. apply (oid_first_node_40 [7]). repeat constructor. Defined.

(** an archived OID is written and read back as the OID it was made of; if it
    prints, it prints the same, and if the OID does not print, printing the
    archived form still returns. *)
Theorem archived_oid_same human o :
  archived_serialize human (resolve o) = serialize human o ∧
  (∀ s, into_string o = Done s → archived_debug (resolve o) = Done s) ∧
  (∀ e, convert_to_string (nodes o) = Done (Err e) →
     into_string o = Panic ∧ archived_debug (resolve o) = Done ("Invalid OID: " +:+ error_debug e)).
Proof.
  unfold archived_serialize, serialize, archived_debug, into_string, resolve. cbn [archived].
  destruct (convert_to_string (nodes o)) as [[s|e]| |]; cbn; destruct human; naive_solver.
Qed.

End Oid.
