(* ===== verification/Toml.v ===== *)
(** * TOML documents as serde sees them (the formats of bffhd/users/mod.rs)

    A document is a table; the [toml] crate turns it into text and back, and is a
    parameter of the development (Users, [UserFiles]).  What the crate promises is
    stated up to the order of the entries, [toml_equiv].  What serde's derives do
    with the values is defined by the types that have the derives. *)

From S2P Require Import Prelude.

#[local] Set Warnings "-register-all".

(** [TOther]: numbers, booleans and dates. *)
Inductive TomlValue :=
| TString (s : string)
| TArray (l : list TomlValue)
| TTable (l : list (string * TomlValue))
| TOther (n : Z).

Abbreviation TomlTable := (list (string * TomlValue)).

(** ** Reading strings *)

Inductive SerdeError :=
| DuplicateField (field : string)
| MissingField (field : string)
| InvalidType.

(** [String] *)
Definition as_string (v : TomlValue) : result string SerdeError :=
  match v with
  | TString s => Ok s
  | _ => Err InvalidType
  end.

Fixpoint try_each {A B E} (f : A → result B E) (l : list A) : result (list B) E :=
  match l with
  | [] => Ok []
  | x :: l => let? y := f x in let? ys := try_each f l in Ok (y :: ys)
  end.

(** [Vec<String>] *)
Definition as_strings (v : TomlValue) : result (list string) SerdeError :=
  match v with
  | TArray l => try_each as_string l
  | _ => Err InvalidType
  end.

(** [HashMap<String, T>]: of entries with the same key the last one stays. *)
Fixpoint as_map {T} (f : TomlValue → result T SerdeError) (m : gmap string T) (l : TomlTable)
  : result (gmap string T) SerdeError :=
  match l with
  | [] => Ok m
  | (k, v) :: l => let? x := f v in as_map f (<[k := x]> m) l
  end.

(** ** Well-formed documents, and when two are the same *)

(** No table has two entries with the same key. *)
Inductive keys_unique : TomlValue → Prop :=
| ku_string s : keys_unique (TString s)
| ku_array l : Forall keys_unique l → keys_unique (TArray l)
| ku_table l : NoDup l.*1 → Forall (λ p, keys_unique p.2) l → keys_unique (TTable l)
| ku_other n : keys_unique (TOther n).

Fixpoint toml_unique (v : TomlValue) : bool :=
  match v with
  | TString _ | TOther _ => true
  | TArray l => forallb toml_unique l
  | TTable l => bool_decide (NoDup l.*1) && forallb (λ p, toml_unique p.2) l
  end.

Fixpoint toml_unique_iff v : toml_unique v = true ↔ keys_unique v.
Proof.
  destruct v as [s|l|l|n]; simpl; [by split; constructor| | |by split; constructor].
  - assert (forallb toml_unique l = true ↔ Forall keys_unique l) as ->.
    { induction l as [|x l IH]; simpl; [by split; constructor|].
      rewrite andb_true_iff, IH, toml_unique_iff, Forall_cons. done. }
    split; [by constructor|by inversion 1].
  - assert (forallb (λ p, toml_unique p.2) l = true ↔ Forall (λ p, keys_unique p.2) l) as Hl.
    { induction l as [|[k x] l IH]; simpl; [by split; constructor|].
      rewrite andb_true_iff, IH, toml_unique_iff, Forall_cons. done. }
    rewrite andb_true_iff, bool_decide_eq_true, Hl.
    split; [intros []; by constructor|by inversion 1].
Qed.

(** Tables are the same up to the order of their entries. *)
Inductive toml_equiv : TomlValue → TomlValue → Prop :=
| te_string s : toml_equiv (TString s) (TString s)
| te_array l l' : Forall2 toml_equiv l l' → toml_equiv (TArray l) (TArray l')
| te_table l l1 l' :
    l ≡ₚ l1 → l1.*1 = l'.*1 → Forall2 toml_equiv l1.*2 l'.*2 → toml_equiv (TTable l) (TTable l')
| te_other n : toml_equiv (TOther n) (TOther n).

Fixpoint toml_equiv_refl v : toml_equiv v v.
Proof.
  destruct v as [s|l|l|n]; [constructor|constructor|apply (te_table l l l); [done..|]|constructor].
  - induction l as [|x l IH]; constructor; [apply toml_equiv_refl|exact IH].
  - induction l as [|[k x] l IH]; simpl; constructor; [apply toml_equiv_refl|exact IH].
Qed.

Lemma toml_equiv_string s v : toml_equiv (TString s) v → v = TString s.
Proof. by inversion 1. Qed.

Lemma toml_equiv_strings l v : toml_equiv (TArray (TString <$> l)) v → v = TArray (TString <$> l).
Proof.
  inversion 1 as [|? l' Hl| |]; subst. f_equal. clear -Hl.
  revert l' Hl. induction l as [|s l IH]; intros l' Hl; simpl in Hl; inversion Hl; subst; [done|].
  simpl. f_equal; [by apply toml_equiv_string|by apply IH].
Qed.

Lemma toml_equiv_table l v :
  toml_equiv (TTable l) v →
  ∃ l', v = TTable l' ∧ l.*1 ≡ₚ l'.*1 ∧
    (∀ k x', (k, x') ∈ l' → ∃ x, (k, x) ∈ l ∧ toml_equiv x x') ∧
    (∀ k x, (k, x) ∈ l → ∃ x', (k, x') ∈ l' ∧ toml_equiv x x').
Proof.
  inversion 1 as [| |? l1 l' Hp Hk Hv|]; subst. exists l'. split; [done|].
  split; [by rewrite <- Hk, Hp|].
  setoid_rewrite Hp. clear -Hk Hv. revert l' Hk Hv.
  induction l1 as [|[k x] l1 IH]; intros [|[k' x'] l'] Hk Hv; simpl in *; try done.
  { split; by intros ?? ?%elem_of_nil. }
  inversion Hv as [|? ? ? ? Hx Hv']; subst. injection Hk as -> Hk.
  destruct (IH l' Hk Hv') as [H1 H2]. clear IH.
  split; intros k0 x0 [Heq|Hin]%elem_of_cons.
  - injection Heq as -> ->. exists x. split; [left|done].
  - destruct (H1 _ _ Hin) as (x1 & ? & ?). exists x1. split; [by right|done].
  - injection Heq as -> ->. exists x'. split; [left|done].
  - destruct (H2 _ _ Hin) as (x1 & ? & ?). exists x1. split; [by right|done].
Qed.

(** ** Reading maps *)

Lemma as_string_each l : try_each as_string (TString <$> l) = Ok l.
Proof.
  induction l as [|s l IH]; [done|]. rewrite fmap_cons. cbn [try_each as_string result_bind]. by rewrite IH.
Qed.

(** A map of entries with distinct keys has them all. *)
Lemma as_map_spec {T} (f : TomlValue → result T SerdeError) (g : TomlValue → T) m l :
  (∀ k v, (k, v) ∈ l → f v = Ok (g v)) → NoDup l.*1 →
  as_map f m l = Ok (list_to_map ((λ p, (p.1, g p.2)) <$> l) ∪ m).
Proof.
  revert m. induction l as [|[k v] l IH]; intros m Hf Hnd; simpl; [by rewrite map_empty_union|].
  apply NoDup_cons in Hnd as [Hk Hnd]. rewrite (Hf k v) by left. simpl. rewrite IH; [|by intros; eapply Hf; right|done].
  f_equal. rewrite <- insert_union_r, insert_union_l; [done|].
  apply not_elem_of_list_to_map_1. rewrite <- list_fmap_compose. exact Hk.
Qed.

(** ** As a tree, for an instance of the crate *)

Fixpoint toml_tree (v : TomlValue) : gen_tree (string + Z) :=
  match v with
  | TString s => GenLeaf (inl s)
  | TArray l => GenNode 0 (toml_tree <$> l)
  | TTable l => GenNode 1 ((λ p : string * TomlValue,
                  GenNode 2 [GenLeaf (inl p.1); toml_tree p.2]) <$> l)
  | TOther n => GenLeaf (inr n)
  end.

Fixpoint tree_toml (t : gen_tree (string + Z)) : TomlValue :=
  match t with
  | GenLeaf (inl s) => TString s
  | GenNode 0 l => TArray (tree_toml <$> l)
  | GenNode 1 l => TTable ((λ t, match t with
                                 | GenNode _ [GenLeaf (inl k); v] => (k, tree_toml v)
                                 | _ => (EmptyString, TOther 0)
                                 end) <$> l)
  | GenLeaf (inr n) => TOther n
  | GenNode _ _ => TOther 0
  end.

Fixpoint tree_toml_tree v : tree_toml (toml_tree v) = v.
Proof.
  destruct v as [s|l|l|n]; simpl; [done|f_equal|f_equal|done].
  - induction l as [|x l IH]; simpl; [done|]. f_equal; [apply tree_toml_tree|exact IH].
  - induction l as [|[k x] l IH]; simpl; [done|]. f_equal; [|exact IH]. f_equal. apply tree_toml_tree.
Qed.

#[export] Instance TomlValue_eq_dec : EqDecision TomlValue.
Proof.
  intros x y. destruct (decide (toml_tree x = toml_tree y)) as [Heq|Hne].
  - left. by rewrite <- (tree_toml_tree x), Heq, tree_toml_tree.
  - right. by intros ->.
Defined.

#[export] Instance TomlValue_countable : Countable TomlValue.
Proof. apply (inj_countable' toml_tree tree_toml). apply tree_toml_tree. Defined.
