(* ===== verification/Permissions.v ===== *)
(** * Permissions and permission rules (bffhd/authorization/permissions.rs)

    A permission is a dot-separated path; permissions are ordered by path
    prefix, the shorter path being the greater one, and a [PermRule] grants a
    permission by comparing with that order. *)

From S2P Require Import Prelude.

Module Permissions.

Definition is_sep_char (c : ascii) : bool := bool_decide (c = "."%char).

(** [Permission(str)] *)
Abbreviation Permission := string.

(** [PermissionBuf]: an owned permission string. *)
Record PermissionBuf := mkPermissionBuf { inner : string }.

#[export] Instance PermissionBuf_eq_dec : EqDecision PermissionBuf.
Proof. solve_decision. Defined.

Record PrivilegesBuf := mkPrivilegesBuf {
  disclose : PermissionBuf;
  read : PermissionBuf;
  write : PermissionBuf;
  manage : PermissionBuf;
}.

#[export] Instance PrivilegesBuf_eq_dec : EqDecision PrivilegesBuf.
Proof. solve_decision. Defined.

Definition new : PermissionBuf := mkPermissionBuf EmptyString.

Definition from_string_unchecked (s : string) : PermissionBuf := mkPermissionBuf s.

Definition as_permission (p : PermissionBuf) : Permission := inner p.

(** The capacity is not observable. *)
Definition with_capacity (cap : N) : PermissionBuf := mkPermissionBuf EmptyString.

(** [Permission::as_str], [Permission::new]: a [Permission] is its string. *)
Definition as_str (p : Permission) : string := p.

Definition from_perm (perm : Permission) : PermissionBuf := mkPermissionBuf (as_str perm).

Definition buf_into_string (p : PermissionBuf) : string := inner p.

Definition is_empty (p : PermissionBuf) : bool := bool_decide (inner p = EmptyString).

(** [chars().rev().next()], up to the comparison with the separator. *)
Fixpoint last_char (s : string) : option ascii :=
  match s with
  | EmptyString => None
  | String c EmptyString => Some c
  | String _ s' => last_char s'
  end.

(** [PermissionBuf::push]/[_push] *)
Definition push (p : PermissionBuf) (perm : Permission) : PermissionBuf :=
  let need_sep :=
    match last_char (inner p) with
    | Some c => negb (is_sep_char c)
    | None => false
    end in
  let s := if need_sep then inner p +:+ String "." EmptyString else inner p in
  mkPermissionBuf (s +:+ perm).

(** [Permission::iter] *)
Definition iter (p : Permission) : list string := split "." p.

(** The loop of [PartialOrd for Permission]: walk both paths while both have a
    component, stop at the first difference. *)
Fixpoint partial_cmp_loop (i j : list string) : option comparison :=
  match i, j with
  | l :: i', r :: j' => if decide (l = r) then partial_cmp_loop i' j' else None
  | [], [] => Some Eq
  | _ :: _, [] => Some Lt
  | [], _ :: _ => Some Gt
  end.

Definition partial_cmp (a b : Permission) : option comparison :=
  partial_cmp_loop (iter a) (iter b).

(** The provided methods [gt] and [ge] of [PartialOrd]. *)
(** [PartialOrd for PermissionBuf] *)
Definition buf_partial_cmp (a b : PermissionBuf) : option comparison :=
  partial_cmp (as_permission a) (as_permission b).

Definition gt (a b : Permission) : bool :=
  match partial_cmp a b with Some Gt => true | _ => false end.

Definition ge (a b : Permission) : bool :=
  match partial_cmp a b with Some Gt | Some Eq => true | _ => false end.

Inductive PermRule :=
| Base (perm : PermissionBuf)
| Children (parent : PermissionBuf)
| Subtree (parent : PermissionBuf).

#[export] Instance PermRule_eq_dec : EqDecision PermRule.
Proof. solve_decision. Defined.

Definition match_perm (rule : PermRule) (perm : Permission) : bool :=
  match rule with
  | Base base => bool_decide (as_permission base = perm)
  | Children parent => gt (as_permission parent) perm
  | Subtree parent => ge (as_permission parent) perm
  end.

(** [Display for PermRule] *)
Definition display (rule : PermRule) : string :=
  match rule with
  | Base perm => inner perm
  | Children parent => inner parent +:+ ".+"
  | Subtree parent => inner parent +:+ ".*"
  end.

(** [Into<String> for PermRule], also used to serialize a rule. *)
Definition into_string (rule : PermRule) : string :=
  match rule with
  | Base perm => inner perm
  | Children perm => inner (push perm "+")
  | Subtree perm => inner (push perm "+")
  end.

(** [str::is_char_boundary]: a byte index is a boundary unless it points at a
    UTF-8 continuation byte. *)
Definition is_continuation (c : ascii) : bool :=
  ((128 <=? N_of_ascii c) && (N_of_ascii c <? 192))%N.

Definition is_char_boundary (s : string) (i : nat) : bool :=
  if decide (i = 0 ∨ i = String.length s) then true
  else match String.get i s with
       | Some c => negb (is_continuation c)
       | None => false
       end.

(** [TryFrom<String> for PermRule]; slicing off a character boundary
    panics. *)
Definition try_from (input : string) : outcome (result PermRule string) :=
  let len := String.length input in
  if len <=? 2 then Done (Err "Input string for PermRule is too short")
  else if negb (is_char_boundary input (len - 2)) then Panic
  else
    let ending := String.substring (len - 2) 2 input in
    let truncated := from_string_unchecked (String.substring 0 (len - 2) input) in
    if decide (ending = ".+") then Done (Ok (Children truncated))
    else if decide (ending = ".*") then Done (Ok (Subtree truncated))
    else Done (Ok (Base (from_string_unchecked input))).

(** ** Specification vocabulary *)

(** [below p q]: [q] is a path strictly below [p]. *)
Definition below (p q : string) : Prop := ∃ s, q = p +:+ String "." s.

(** What the documentation of [PermRule] says a rule grants. *)
Definition grants (rule : PermRule) (perm : string) : Prop :=
  match rule with
  | Base b => perm = inner b
  | Children p => below (inner p) perm
  | Subtree p => perm = inner p ∨ below (inner p) perm
  end.

(** ** The order *)

Lemma partial_cmp_loop_gt i j :
  partial_cmp_loop i j = Some Gt ↔ ∃ x k, j = i ++ x :: k.
Proof.
  revert j. induction i as [|l i IH]; intros [|r j]; simpl.
  - split; [done|]. by intros (? & ? & ?).
  - split; [eauto|done].
  - split; [done|]. by intros (? & ? & ?).
  - case_decide as H.
    + rewrite IH. subst. split; intros (x & k & Hj); exists x, k; by simplify_eq.
    + split; [done|]. intros (x & k & Hj). by simplify_eq.
Qed.

Lemma partial_cmp_loop_eq i j : partial_cmp_loop i j = Some Eq ↔ i = j.
Proof.
  revert j. induction i as [|l i IH]; intros [|r j]; simpl; [done..|].
  case_decide as H; [rewrite IH|]; split; congruence.
Qed.

Lemma partial_cmp_loop_flip i j :
  partial_cmp_loop j i = CompOpp <$> partial_cmp_loop i j.
Proof.
  revert j. induction i as [|l i IH]; intros [|r j]; simpl; [done..|].
  destruct (decide (l = r)), (decide (r = l)); by subst.
Qed.

Lemma join_app sep l k :
  l ≠ [] → k ≠ [] → join sep (l ++ k) = join sep l +:+ String sep (join sep k).
Proof.
  intros Hl Hk. induction l as [|s l IH]; [done|].
  destruct l as [|t l].
  - destruct k; [done|]. done.
  - rewrite join_cons2. change ((s :: t :: l) ++ k) with (s :: t :: (l ++ k)).
    rewrite join_cons2. change (t :: l ++ k) with ((t :: l) ++ k).
    rewrite IH by done. by rewrite string_app_assoc, string_app_cons.
Qed.

Lemma below_path p q : below p q ↔ ∃ x k, iter q = iter p ++ x :: k.
Proof.
  unfold below, iter. split.
  - intros [s ->]. rewrite split_app_l.
    pose proof (split_nonempty "." s). destruct (split "." s); [done|eauto].
  - intros (x & k & H). exists (join "." (x :: k)).
    rewrite <- (join_split "." q), H, join_app by (done || apply split_nonempty).
    by rewrite join_split.
Qed.

Lemma gt_below a b : gt a b = true ↔ below a b.
Proof.
  unfold gt, partial_cmp. rewrite below_path, <- partial_cmp_loop_gt.
  by destruct (partial_cmp_loop _ _) as [[]|].
Qed.

Lemma partial_cmp_Eq a b : partial_cmp a b = Some Eq ↔ a = b.
Proof.
  unfold partial_cmp, iter. rewrite partial_cmp_loop_eq.
  split; [apply (inj (split "."))|by intros ->].
Qed.

Lemma ge_below a b : ge a b = true ↔ b = a ∨ below a b.
Proof.
  rewrite <- gt_below. unfold ge, gt.
  pose proof (partial_cmp_Eq a b) as Heq.
  destruct (partial_cmp a b) as [[]|]; naive_solver.
Qed.

Lemma below_trans p q r : below p q → below q r → below p r.
Proof.
  intros [s ->] [t ->]. exists (s +:+ String "." t).
  by rewrite string_app_assoc, string_app_cons.
Qed.

Lemma below_length p q : below p q → String.length p < String.length q.
Proof. intros [s ->]. rewrite string_length_app. simpl. lia. Qed.

#[export] Hint Resolve below_trans : fab.

(** ** Substrings of a concatenation *)

Lemma substring_all b : String.substring 0 (String.length b) b = b.
Proof. induction b as [|c b IH]; simpl; congruence. Qed.

Lemma substring_app_l a b : String.substring 0 (String.length a) (a +:+ b) = a.
Proof.
  induction a as [|c a IH]; [by destruct b|].
  rewrite string_app_cons. simpl. by rewrite IH.
Qed.

Lemma substring_app_r a b :
  String.substring (String.length a) (String.length b) (a +:+ b) = b.
Proof.
  induction a as [|c a IH]; [apply substring_all|]. by rewrite string_app_cons.
Qed.

Lemma get_app_r a c b : String.get (String.length a) (a +:+ String c b) = Some c.
Proof. induction a as [|d a IH]; [done|]. by rewrite string_app_cons. Qed.

(** [try_from] on a string with two known last bytes, the first of which starts
    a character. *)
Lemma try_from_suffix p c d :
  p ≠ EmptyString → is_continuation c = false →
  try_from (p +:+ String c (String d EmptyString)) =
    let ending := String c (String d EmptyString) in
    if decide (ending = ".+") then Done (Ok (Children (from_string_unchecked p)))
    else if decide (ending = ".*") then Done (Ok (Subtree (from_string_unchecked p)))
    else Done (Ok (Base (from_string_unchecked (p +:+ ending)))).
Proof.
  intros Hp Hc. unfold try_from. cbv zeta.
  assert (is_char_boundary (p +:+ String c (String d EmptyString)) (String.length p) = true) as Hb.
  { unfold is_char_boundary. case_decide; [done|]. by rewrite get_app_r, Hc. }
  rewrite string_length_app. change (String.length (String c (String d EmptyString))) with 2.
  destruct (Nat.leb_spec (String.length p + 2) 2); [destruct p; simpl in *; [done|lia]|].
  replace (String.length p + 2 - 2) with (String.length p) by lia.
  rewrite Hb, substring_app_l.
  pose proof (substring_app_r p (String c (String d EmptyString))) as Hs.
  simpl String.length in Hs. by rewrite Hs.
Qed.

Lemma push_sep p c perm :
  last_char (inner p) = Some c → is_sep_char c = false →
  inner (push p perm) = inner p +:+ String "." perm.
Proof.
  intros Hl Hs. unfold push. rewrite Hl, Hs. simpl.
  by rewrite string_app_assoc, string_app_cons.
Qed.

(** Pushing a path on a buffer that does not end in a separator goes below it in
    the order of permissions; on an empty buffer it is that path. *)
Lemma push_goes_below p c perm :
  last_char (inner p) = Some c → is_sep_char c = false →
  buf_partial_cmp p (push p perm) = Some Gt ∧ push new perm = from_perm perm.
Proof.
  intros Hl Hs. split; [|done]. unfold buf_partial_cmp, as_permission.
  assert (gt (inner p) (inner (push p perm)) = true) as Hgt.
  { apply gt_below. exists perm. by eapply push_sep. }
  unfold gt in Hgt. by destruct (partial_cmp _ _) as [[]|].
Qed.

Lemma match_perm_grants rule perm : match_perm rule perm = true ↔ grants rule perm.
Proof.
  destruct rule as [b|p|p]; simpl; unfold as_permission.
  - rewrite bool_decide_eq_true. naive_solver.
  - apply gt_below.
  - apply ge_below.
Qed.

(** ** Properties *)

(** [match_perm] grants exactly what the rule's documentation
    says: [Base] the permission itself, [Children] what is strictly below the
    node, [Subtree] the node and everything below it. *)
Theorem match_perm_spec rule perm : match_perm rule perm = true ↔ grants rule perm.
Proof. apply match_perm_grants. Qed.

(** the comparison of permissions is a partial order: it is [Equal]
    on equal strings only, comparing the other way round gives the reverse,
    and [Greater] is transitive. *)
Theorem permission_partial_order a b c :
  (partial_cmp a b = Some Eq ↔ a = b) ∧
  partial_cmp b a = CompOpp <$> partial_cmp a b ∧
  (partial_cmp a b = Some Gt → partial_cmp b c = Some Gt → partial_cmp a c = Some Gt).
Proof.
  split; [apply partial_cmp_Eq|]. split; [apply partial_cmp_loop_flip|].
  unfold partial_cmp. rewrite !partial_cmp_loop_gt, <- !below_path. eauto with fab.
Qed.

(** a [Children] or [Subtree] rule of a non-empty node that is
    printed with [Display] is read back as the same rule. *)
Theorem permrule_display_roundtrip p :
  inner p ≠ EmptyString →
  try_from (display (Children p)) = Done (Ok (Children p)) ∧
  try_from (display (Subtree p)) = Done (Ok (Subtree p)).
Proof.
  intros Hp. destruct p as [s]. simpl in *.
  split; by rewrite try_from_suffix.
Qed.

Lemma permrule_display_roundtrip_witness :
  try_from (display (Children (mkPermissionBuf "bffh.perm"))) =
    Done (Ok (Children (mkPermissionBuf "bffh.perm"))) ∧
  try_from (display (Subtree (mkPermissionBuf "bffh.perm"))) =
    Done (Ok (Subtree (mkPermissionBuf "bffh.perm"))).
Proof. by apply (permrule_display_roundtrip (mkPermissionBuf "bffh.perm")). Defined.

(** the conversion to a string used when a rule is serialized
    writes a [Subtree] rule with the suffix of [Children]; reading it back
    gives a rule that no longer grants the node itself. *)
Theorem permrule_subtree_serialized_as_children p c :
  last_char (inner p) = Some c → is_sep_char c = false →
  try_from (into_string (Subtree p)) = Done (Ok (Children p)) ∧
  match_perm (Subtree p) (inner p) = true ∧ match_perm (Children p) (inner p) = false.
Proof.
  intros Hl Hs. split; [|split].
  - unfold into_string. rewrite (push_sep p c) by done. rewrite try_from_suffix.
    + by destruct p.
    + by destruct (inner p).
    + done.
  - apply match_perm_grants. simpl. auto.
  - apply not_true_is_false. intros H%match_perm_grants. simpl in H.
    apply below_length in H. lia.
Qed.

Lemma permrule_subtree_serialized_as_children_witness :
  try_from (into_string (Subtree (mkPermissionBuf "a.b"))) =
    Done (Ok (Children (mkPermissionBuf "a.b"))) ∧
  match_perm (Subtree (mkPermissionBuf "a.b")) "a.b" = true ∧
  match_perm (Children (mkPermissionBuf "a.b")) "a.b" = false.
Proof.
  by apply (permrule_subtree_serialized_as_children (mkPermissionBuf "a.b") "b").
Defined.

(** [try_from] slices two bytes before the end, so a rule that
    ends in a three-byte character (here the euro sign) panics instead of
    being a [Base] rule. *)
Theorem permrule_multibyte_panics (s : string) :
  let euro := String "226" (String "130" (String "172" EmptyString)) in
  try_from (s +:+ euro) = Panic.
Proof.
  unfold try_from. cbv zeta. rewrite string_length_app. simpl String.length.
  replace (String.length s + 3 <=? 2) with false by (symmetry; apply Nat.leb_gt; lia).
  replace (String.length s + 3 - 2) with (String.length (s +:+ String "226" EmptyString))
    by (rewrite string_length_app; simpl; lia).
  change (String "226" (String "130" (String "172" EmptyString)))
    with (String "226" EmptyString +:+ String "130" (String "172" EmptyString)).
  rewrite <- string_app_assoc. unfold is_char_boundary.
  rewrite decide_False by (rewrite !string_length_app; simpl; lia).
  by rewrite get_app_r.
Qed.

End Permissions.
