(* ===== verification/Roles.v ===== *)
(** * Roles (bffhd/authorization/roles.rs)

    A role bundles permission rules and inherits those of its parents.
    [permitted_tally] and [tally_role] walk the parents depth first; their
    recursion is driven by fuel. *)

From S2P Require Import Prelude Permissions.

#[export] Existing Instance Permissions.PermRule_eq_dec.

Record Role := mkRole {
  parents : list string;
  permissions : list Permissions.PermRule;
}.

#[export] Instance Role_eq_dec : EqDecision Role.
Proof. solve_decision. Defined.

Module Roles.

(** [Roles]: the handle on the global role map. *)
Record t := mk { roles : gmap string Role }.

(** [Roles::new] through the global [OnceCell]: the first map stays. *)
Definition new (cell : option (gmap string Role)) (rs : gmap string Role)
  : option (gmap string Role) * t :=
  match cell with
  | Some this => (cell, mk this)
  | None => (Some rs, mk rs)
  end.

Definition get (self : t) (roleid : string) : option Role := roles self !! roleid.

Definition list_roles (self : t) : list string := (map_to_list (roles self)).*1.

Fixpoint tally_role (fuel : nat) (self : t) (acc : gmap string Role) (role_id : string)
  : outcome (gmap string Role) :=
  match fuel with
  | O => OutOfFuel
  | S fuel =>
      match get self role_id with
      | None => Done acc
      | Some role =>
          if decide (is_Some (acc !! role_id)) then Done acc
          else
            let! acc' := for_loop (tally_role fuel self) acc (parents role) in
            Done (<[role_id := role]> acc')
      end
  end.

Definition collect_permrules (fuel : nat) (self : t) (user_roles : list string)
  : outcome (list Permissions.PermRule) :=
  let! roleset := for_loop (tally_role fuel self) ∅ user_roles in
  Done (concat ((λ p, permissions p.2) <$> map_to_list roleset)).

Fixpoint permitted_tally (fuel : nat) (self : t) (seen : gset string) (role_id : string)
  (perm : string) : outcome (gset string * bool) :=
  match fuel with
  | O => OutOfFuel
  | S fuel =>
      match get self role_id with
      | None => Done (seen, false)
      | Some role =>
          if decide (role_id ∈ seen) then Done (seen, false)
          else if existsb (λ rule, Permissions.match_perm rule perm) (permissions role)
          then Done (seen, true)
          else
            let! (seen', b) :=
              any_loop (λ s parent, permitted_tally fuel self s parent perm) seen (parents role) in
            if b then Done (seen', true) else Done ({[ role_id ]} ∪ seen', false)
      end
  end.

Definition is_permitted (fuel : nat) (self : t) (user_roles : list string) (perm : string)
  : outcome bool :=
  let! (_, b) :=
    any_loop (λ s role_id, permitted_tally fuel self s role_id perm) ∅ user_roles in
  Done b.

(** [Display for Role] *)
Definition display_list (items : list string) : string :=
  match items with
  | [] => " []" +:+ String "010" EmptyString
  | _ => String "010" EmptyString +:+
         foldr (λ p s, "  - " +:+ p +:+ String "010" EmptyString +:+ s) EmptyString items
  end.

Definition display (r : Role) : string :=
  "parents:" +:+ display_list (parents r) +:+
  "permissions:" +:+ display_list (Permissions.display <$> permissions r).

End Roles.

(** ** Specification *)

Section Spec.
Context (rs : Roles.t).

(** [r] lists [p] as a parent. *)
Definition inherits (r p : string) : Prop :=
  ∃ role, Roles.get rs r = Some role ∧ p ∈ parents role.

(** The role [r] grants [perm] by one of its own rules. *)
Definition grants_directly (perm r : string) : Prop :=
  ∃ role rule, Roles.get rs r = Some role ∧ rule ∈ permissions role ∧
    Permissions.grants rule perm.

(** [r], or a role it inherits from over any number of parents, grants it. *)
Definition granted (perm r : string) : Prop :=
  ∃ a, rtc inherits r a ∧ grants_directly perm a.

Definition acyclic : Prop := ∀ r, ¬ tc inherits r r.

(** Enough fuel for every walk that does not meet a role twice on a path. *)
Definition depth_bound : nat := S (size (Roles.roles rs)).

End Spec.

Section RolesLemmas.
Context (rs : Roles.t).
Implicit Types (seen : gset string) (fuel : nat).

Lemma existsb_grants perm rules :
  existsb (λ rule, Permissions.match_perm rule perm) rules = true ↔
  ∃ rule, rule ∈ rules ∧ Permissions.grants rule perm.
Proof.
  rewrite existsb_exists. split; intros (r & Hin & Hm); exists r;
    (split; [by apply list_elem_of_In|]); by apply Permissions.match_perm_grants.
Qed.

Lemma granted_unfold perm r role :
  Roles.get rs r = Some role →
  granted rs perm r ↔
    (∃ rule, rule ∈ permissions role ∧ Permissions.grants rule perm) ∨
    (∃ p, p ∈ parents role ∧ granted rs perm p).
Proof.
  intros Hr. split.
  - intros (a & Hra & Hd). apply rtc_inv in Hra as [->|(p & (role' & Hr' & Hp) & Hpa)].
    + destruct Hd as (role' & rule & Hr' & ? & ?). simplify_eq. eauto.
    + simplify_eq. right. exists p. split; [done|]. by exists a.
  - intros [(rule & ? & ?)|(p & Hp & a & Hpa & Hd)].
    + exists r. split; [done|]. by exists role, rule.
    + exists a. split; [|done]. eapply rtc_l; [|done]. by exists role.
Qed.

Lemma granted_absent perm r : Roles.get rs r = None → ¬ granted rs perm r.
Proof.
  intros Hr (a & Hra & role' & rule & Ha & _).
  apply rtc_inv in Hra as [->|(p & (role & Hr' & _) & _)]; congruence.
Qed.

(** *** Partial correctness *)

Lemma permitted_tally_sound fuel seen r perm seen' b :
  (∀ s, s ∈ seen → ¬ granted rs perm s) →
  Roles.permitted_tally fuel rs seen r perm = Done (seen', b) →
  (∀ s, s ∈ seen' → ¬ granted rs perm s) ∧ (b = true ↔ granted rs perm r).
Proof.
  revert seen r seen' b. induction fuel as [|fuel IH]; intros seen r seen' b Hs; simpl; [done|].
  destruct (Roles.get rs r) as [role|] eqn:Hr; intros Heq.
  2: { inv_eqs. split; [done|]. split; [done|]. by intros ?%granted_absent. }
  case_decide as Hseen.
  { inv_eqs. split; [done|]. split; [done|]. by intros ?%Hs. }
  rewrite (granted_unfold _ _ _ Hr), <- existsb_grants.
  destruct (existsb _ _) eqn:He; [inv_eqs; tauto|].
  apply outcome_bind_Done in Heq as ([s1 b1] & Hl & Heq).
  apply (any_loop_inv (λ s, ∀ x, x ∈ s → ¬ granted rs perm x) (granted rs perm)) in Hl
    as [Hs1 Hb1]; [|by eauto|done].
  destruct b1; inv_eqs; split; [done|naive_solver| |naive_solver].
  intros s [->%elem_of_singleton|?]%elem_of_union; [|by apply Hs1].
  rewrite (granted_unfold _ _ _ Hr), <- existsb_grants. naive_solver.
Qed.

(** *** Termination

    [anc] are the roles of the calls in progress: on an acyclic parent
    relation they are distinct, so their number is bounded by the number of
    roles. *)

Lemma fuel_step (anc : gset string) r role fuel :
  Roles.get rs r = Some role → r ∉ anc →
  size (dom (Roles.roles rs) ∖ anc) < S fuel →
  size (dom (Roles.roles rs) ∖ ({[r]} ∪ anc)) < fuel.
Proof.
  intros Hr Hna Hf.
  assert (r ∈ dom (Roles.roles rs) ∖ anc) as Hin.
  { apply elem_of_difference. split; [by apply elem_of_dom|done]. }
  assert (dom (Roles.roles rs) ∖ ({[r]} ∪ anc) ⊂ dom (Roles.roles rs) ∖ anc) as Hsub
    by (split; set_solver).
  apply subset_size in Hsub. lia.
Qed.

Lemma anc_step (anc : gset string) r role p :
  acyclic rs → Roles.get rs r = Some role → p ∈ parents role →
  (∀ a, a ∈ anc → tc (inherits rs) a r) →
  (r ∉ anc) ∧ (∀ a, a ∈ {[r]} ∪ anc → tc (inherits rs) a p).
Proof.
  intros Hac Hr Hp Hanc. assert (inherits rs r p) by (by exists role).
  split; [by intros ?%Hanc%Hac|].
  intros a [->%elem_of_singleton|Ha]%elem_of_union; [by apply tc_once|].
  eapply tc_r; [by apply Hanc|done].
Qed.

Lemma permitted_tally_total_aux fuel (anc : gset string) seen r perm :
  acyclic rs → (∀ a, a ∈ anc → tc (inherits rs) a r) →
  size (dom (Roles.roles rs) ∖ anc) < fuel →
  ∃ seen' b, Roles.permitted_tally fuel rs seen r perm = Done (seen', b).
Proof.
  intros Hac. revert anc seen r. induction fuel as [|fuel IH]; intros anc seen r Hanc Hf; [lia|].
  simpl. destruct (Roles.get rs r) as [role|] eqn:Hr; [|by eauto].
  case_decide; [by eauto|]. case_match; [by eauto|].
  destruct (any_loop_total (λ _, True)
    (λ s parent, Roles.permitted_tally fuel rs s parent perm) (parents role) seen)
    as (s1 & b1 & -> & _); [|done|destruct b1; simpl; by eauto].
  intros s p Hp _. destruct (anc_step anc r role p) as [Hna Hanc']; [done..|].
  destruct (IH ({[r]} ∪ anc) s p) as (s' & b & ->); [done|by eapply fuel_step|eauto].
Qed.

Lemma permitted_tally_total fuel seen r perm :
  acyclic rs → depth_bound rs ≤ fuel →
  ∃ seen' b, Roles.permitted_tally fuel rs seen r perm = Done (seen', b).
Proof.
  intros Hac Hf. apply (permitted_tally_total_aux fuel ∅); [done|set_solver|].
  unfold depth_bound in Hf. rewrite difference_empty_L, size_dom. lia.
Qed.

Lemma is_permitted_correct fuel user_roles perm b :
  Roles.is_permitted fuel rs user_roles perm = Done b →
  b = true ↔ ∃ r, r ∈ user_roles ∧ granted rs perm r.
Proof.
  unfold Roles.is_permitted. intros ([s b'] & Hl & Heq)%outcome_bind_Done. inv_eqs.
  apply (any_loop_inv (λ s, ∀ x, x ∈ s → ¬ granted rs perm x) (granted rs perm)) in Hl
    as [_ Hb]; [done| |set_solver].
  intros. by eapply permitted_tally_sound.
Qed.

Lemma is_permitted_total fuel user_roles perm :
  acyclic rs → depth_bound rs ≤ fuel →
  ∃ b, Roles.is_permitted fuel rs user_roles perm = Done b.
Proof.
  intros Hac Hf. unfold Roles.is_permitted.
  destruct (any_loop_total (λ _, True)
    (λ s r, Roles.permitted_tally fuel rs s r perm) user_roles ∅) as (s & b & -> & _);
    [|done|simpl; by eauto].
  intros s r _ _. destruct (permitted_tally_total fuel s r perm) as (s' & b & ->); eauto.
Qed.

(** *** Cycles *)

(** A role from which a cycle of parents can be reached. *)
Definition reaches_cycle (r : string) : Prop :=
  ∃ c, rtc (inherits rs) r c ∧ tc (inherits rs) c c.

Lemma reaches_cycle_parent r :
  reaches_cycle r → ∃ p, inherits rs r p ∧ reaches_cycle p.
Proof.
  intros (c & Hrc & Hcc). apply rtc_inv in Hrc as [->|(p & Hrp & Hpc)].
  - pose proof Hcc as Hcc'. inversion Hcc as [? ? Hstep|? p ? Hstep Hpc]; subst.
    + exists c. split; [done|]. by exists c.
    + exists p. split; [done|]. exists c. split; [by apply tc_rtc|done].
  - exists p. split; [done|]. by exists c.
Qed.

Lemma any_loop_diverges {St A} (I : St → Prop) f (l : list A) a st :
  (∀ s x s', x ∈ l → I s → f s x ≠ Done (s', true)) →
  (∀ s x s', x ∈ l → I s → f s x = Done (s', false) → I s') →
  (∀ s r, I s → f s a ≠ Done r) →
  a ∈ l → I st → ∀ r, any_loop f st l ≠ Done r.
Proof.
  revert st. induction l as [|x l IH]; intros st Ht Hf Ha Hin Hi r; [by apply not_elem_of_nil in Hin|].
  simpl. intros ([s b] & Hx & Hr)%outcome_bind_Done. destruct b.
  { by apply (Ht st x s) in Hx; [|left|]. }
  apply elem_of_cons in Hin as [->|Hin]; [by apply (Ha st (s, false)) in Hx|].
  eapply (IH s); [..|done|by eapply Hf; [left|..]|exact Hr].
  - intros s0 y s' Hy. apply Ht. by right.
  - intros s0 y s' Hy. apply Hf. by right.
  - done.
Qed.

Lemma permitted_tally_cycle fuel seen r perm :
  (∀ s, s ∈ seen → ¬ granted rs perm s) → ¬ granted rs perm r →
  (∀ s, s ∈ seen → ¬ reaches_cycle s) →
  (∀ seen' b, Roles.permitted_tally fuel rs seen r perm = Done (seen', b) →
     ¬ reaches_cycle r ∧ ∀ s, s ∈ seen' → ¬ reaches_cycle s).
Proof.
  revert seen r. induction fuel as [|fuel IH]; intros seen r Hs Hr Hc seen' b; simpl; [done|].
  destruct (Roles.get rs r) as [role|] eqn:Hrole; intros Heq.
  2: { inv_eqs. split; [|done]. intros (p & (role & ? & _) & _)%reaches_cycle_parent. congruence. }
  case_decide as Hseen; [inv_eqs; split; [by apply Hc|done]|].
  rewrite (granted_unfold _ _ _ Hrole), <- existsb_grants in Hr.
  destruct (existsb _ _) eqn:He; [naive_solver|].
  assert (∀ p, p ∈ parents role → ¬ granted rs perm p) as Hp by (intros p ??; eauto).
  apply outcome_bind_Done in Heq as ([s1 b1] & Hl & Heq).
  set (I := λ s : gset string, (∀ x, x ∈ s → ¬ granted rs perm x) ∧ ∀ x, x ∈ s → ¬ reaches_cycle x).
  assert (∀ s x s' b, x ∈ parents role → I s →
    Roles.permitted_tally fuel rs s x perm = Done (s', b) → I s' ∧ b = false ∧ ¬ reaches_cycle x) as Hstep.
  { intros s x s' b' Hx [Hg Hcy] Hd.
    destruct (permitted_tally_sound _ _ _ _ _ _ Hg Hd) as [Hg' Hb].
    destruct (IH s x Hg (Hp x Hx) Hcy s' b' Hd) as [Hcx Hcy']. split; [done|].
    split; [|done]. destruct b'; [|done]. exfalso. apply (Hp x Hx). tauto. }
  assert (¬ reaches_cycle r) as Hnr.
  { intros (p & (role' & ? & Hpr) & Hpc)%reaches_cycle_parent. simplify_eq.
    eapply (any_loop_diverges I); [..|exact Hpr|exact (conj Hs Hc)|exact Hl].
    - intros s x s' Hx Hi Hd. by destruct (Hstep _ _ _ _ Hx Hi Hd) as (_ & ? & _).
    - intros s x s' Hx Hi Hd. by apply (Hstep _ _ _ _ Hx Hi Hd).
    - intros s [s' b'] Hi Hd. by destruct (Hstep _ _ _ _ Hpr Hi Hd) as (_ & _ & ?). }
  split; [done|].
  apply (any_loop_inv I (λ _, False)) in Hl as [[_ Hcy1] Hb1]; [| |by split].
  2: { intros s x s' b' Hx Hi Hd. destruct (Hstep _ _ _ _ Hx Hi Hd) as (? & -> & _). done. }
  destruct b1; inv_eqs; [done|].
  intros s [->%elem_of_singleton|?]%elem_of_union; [done|by apply Hcy1].
Qed.

Lemma any_loop_no_panic {St A} (f : St → A → outcome (St * bool)) (l : list A) st :
  (∀ s a, f s a ≠ Panic) → any_loop f st l ≠ Panic.
Proof.
  intros Hf. revert st. induction l as [|a l IH]; intros st; simpl; [done|].
  destruct (f st a) as [[s b]| |] eqn:E; simpl; [|by apply Hf in E|done].
  destruct b; [done|apply IH].
Qed.

Lemma permitted_tally_no_panic fuel seen r perm :
  Roles.permitted_tally fuel rs seen r perm ≠ Panic.
Proof.
  revert seen r. induction fuel as [|fuel IH]; intros seen r; simpl; [done|].
  repeat case_match; try done.
  destruct (any_loop _ _ _) as [[s b]| |] eqn:E; simpl; [by destruct b| |done].
  apply any_loop_no_panic in E; [done|]. intros. apply IH.
Qed.

(** *** Collecting the rules *)

(** A tally holds roles of [rs] with everything they inherit from. *)
Definition tally_closed (acc : gmap string Role) : Prop :=
  ∀ r role, acc !! r = Some role →
    Roles.get rs r = Some role ∧
    ∀ p, p ∈ parents role → is_Some (Roles.get rs p) → is_Some (acc !! p).

Lemma tally_role_sound fuel acc r acc' :
  tally_closed acc → Roles.tally_role fuel rs acc r = Done acc' →
  tally_closed acc' ∧ acc ⊆ acc' ∧
  (is_Some (Roles.get rs r) → is_Some (acc' !! r)) ∧
  (∀ k, is_Some (acc' !! k) → is_Some (acc !! k) ∨ rtc (inherits rs) r k).
Proof.
  revert acc r acc'. induction fuel as [|fuel IH]; intros acc r acc' Hcl; simpl; [done|].
  destruct (Roles.get rs r) as [role|] eqn:Hr; intros Heq.
  2: { inv_eqs. split_and!; [done..|by intros [? ?]|by left]. }
  case_decide as Hin; [inv_eqs; split_and!; [done..|by left]|].
  apply outcome_bind_Done in Heq as (a1 & Hl & Heq). inv_eqs.
  apply (for_loop_each
    (λ a, tally_closed a ∧ acc ⊆ a ∧
       ∀ k, is_Some (a !! k) → is_Some (acc !! k) ∨ ∃ p, p ∈ parents role ∧ rtc (inherits rs) p k)
    (λ p a, is_Some (Roles.get rs p) → is_Some (a !! p))) in Hl
    as ((Hcl1 & Hsub & Hreach) & Heach & _).
  - split; [|split; [|split]].
    + intros k rk. destruct (decide (k = r)) as [->|Hne].
      * rewrite lookup_insert_eq. intros; simplify_eq. split; [done|].
        intros p Hp Hsome. apply lookup_insert_is_Some'. right. by apply Heach.
      * rewrite lookup_insert_ne by done. intros [? Hp]%Hcl1. split; [done|].
        intros p Hp' Hsome. apply lookup_insert_is_Some'. right. by apply Hp.
    + etrans; [exact Hsub|]. destruct (a1 !! r) as [role'|] eqn:Ha1; [|by apply insert_subseteq].
      destruct (Hcl1 _ _ Ha1) as [Hr1 _]. simplify_eq. by rewrite insert_id.
    + intros _. rewrite lookup_insert_eq. eauto.
    + intros k. destruct (decide (k = r)) as [->|Hne]; [by right|].
      rewrite lookup_insert_ne by done. intros [?|(p & Hp & Hpk)]%Hreach; [by left|right].
      eapply rtc_l; [by exists role|done].
  - intros s p s' Hp (Hcs & Hsubs & Hrs) Hd. destruct (IH _ _ _ Hcs Hd) as (Hcs' & Hss' & Hps & Hrs').
    split_and!; [done|by etrans| |done|].
    + intros k [[?|?]%Hrs|?]%Hrs'; eauto.
    + intros q Hq Hsome. by eapply lookup_weaken_is_Some; [apply Hq|].
  - split; [done|]. split; [done|]. by left.
Qed.

Lemma tally_role_total_aux fuel (anc : gset string) acc r :
  acyclic rs → (∀ a, a ∈ anc → tc (inherits rs) a r) →
  size (dom (Roles.roles rs) ∖ anc) < fuel →
  ∃ acc', Roles.tally_role fuel rs acc r = Done acc'.
Proof.
  intros Hac. revert anc acc r. induction fuel as [|fuel IH]; intros anc acc r Hanc Hf; [lia|].
  simpl. destruct (Roles.get rs r) as [role|] eqn:Hr; [|by eauto].
  case_decide; [by eauto|].
  destruct (for_loop_total (λ _, True) (Roles.tally_role fuel rs) (parents role) acc)
    as (a1 & -> & _); [|done|simpl; by eauto].
  intros s p Hp _. destruct (anc_step anc r role p) as [Hna Hanc']; [done..|].
  destruct (IH ({[r]} ∪ anc) s p) as (s' & ->); [done|by eapply fuel_step|eauto].
Qed.

Lemma collect_permrules_total fuel user_roles :
  acyclic rs → depth_bound rs ≤ fuel →
  ∃ rules, Roles.collect_permrules fuel rs user_roles = Done rules.
Proof.
  intros Hac Hf. unfold Roles.collect_permrules.
  destruct (for_loop_total (λ _, True) (Roles.tally_role fuel rs) user_roles ∅)
    as (acc & -> & _); [|done|simpl; by eauto].
  intros s r _ _. destruct (tally_role_total_aux fuel ∅ s r) as (s' & ->);
    [done|set_solver| |eauto].
  unfold depth_bound in Hf. rewrite difference_empty_L, size_dom. lia.
Qed.

(** A closed tally holds what its roles reach. *)
Lemma tally_closed_reach acc r a :
  tally_closed acc → is_Some (acc !! r) → rtc (inherits rs) r a →
  is_Some (Roles.get rs a) → is_Some (acc !! a).
Proof.
  intros Hcl Hr Hra Ha. revert Hr. induction Hra as [a|r p a Hrp Hpa IH]; [done|].
  intros [role Hr]. destruct (Hcl _ _ Hr) as [Hget Hpar].
  destruct Hrp as (role' & Hget' & Hp). simplify_eq.
  apply IH; [done|]. apply Hpar; [done|].
  apply rtc_inv in Hpa as [->|(q & (rq & ? & _) & _)]; [done|eauto].
Qed.

Lemma collect_permrules_correct fuel user_roles rules rule :
  Roles.collect_permrules fuel rs user_roles = Done rules →
  rule ∈ rules ↔
  ∃ r a role, r ∈ user_roles ∧ rtc (inherits rs) r a ∧ Roles.get rs a = Some role ∧
    rule ∈ permissions role.
Proof.
  unfold Roles.collect_permrules. intros (acc & Hl & Heq)%outcome_bind_Done. inv_eqs.
  apply (for_loop_each
    (λ a, tally_closed a ∧
       ∀ k, is_Some (a !! k) → ∃ r, r ∈ user_roles ∧ rtc (inherits rs) r k)
    (λ r a, is_Some (Roles.get rs r) → is_Some (a !! r))) in Hl
    as ((Hcl & Hreach) & Heach & _).
  - rewrite list_elem_of_In, in_concat. split.
    + intros (x & Hx & Hin). apply list_elem_of_In in Hx, Hin.
      apply list_elem_of_fmap in Hx as ([k role] & -> & Hk%elem_of_map_to_list).
      destruct (Hreach k) as (r & Hr & Hrk); [by eauto|].
      exists r, k, role. split_and!; [done..|by apply (Hcl k)|done].
    + intros (r & a & role & Hr & Hra & Ha & Hin). exists (permissions role).
      split; apply list_elem_of_In; [|done]. apply list_elem_of_fmap.
      assert (is_Some (acc !! r)) as Hacc.
      { apply Heach; [done|]. apply rtc_inv in Hra as [->|(q & (rq & ? & _) & _)]; eauto. }
      destruct (tally_closed_reach acc r a) as [role' Ha']; [by eauto..|].
      exists (a, role). split; [done|]. apply elem_of_map_to_list.
      destruct (Hcl _ _ Ha') as [Ha'' _]. by simplify_eq.
  - intros s r s' Hr (Hcs & Hrs) Hd.
    destruct (tally_role_sound _ _ _ _ Hcs Hd) as (Hcs' & Hss' & Hps & Hrs').
    split_and!; [done| |done|].
    + intros k [?%Hrs|?]%Hrs'; eauto.
    + intros q Hq Hsome. by eapply lookup_weaken_is_Some; [apply Hq|].
  - split; [by intros ??|]. intros k [? ?%lookup_empty_Some]; done.
Qed.

End RolesLemmas.

(** ** Properties *)

(** C7: on an acyclic parent relation the permission check returns,
    and says yes exactly when one of the user's roles grants the permission
    itself or through a chain of existing parents. *)
Theorem is_permitted_spec rs user_roles perm fuel :
  acyclic rs → depth_bound rs ≤ fuel →
  ∃ b, Roles.is_permitted fuel rs user_roles perm = Done b ∧
    (b = true ↔ ∃ r, r ∈ user_roles ∧ granted rs perm r).
Proof.
  intros Hac Hf. destruct (is_permitted_total rs fuel user_roles perm) as [b Hb]; [done..|].
  exists b. split; [done|]. by eapply is_permitted_correct.
Qed.

(** on an acyclic parent relation the early-returning check and the
    collection of every rule of the user's roles both return, and the check
    says what matching the permission against all collected rules says. *)
Theorem is_permitted_collect_agree rs user_roles perm fuel :
  acyclic rs → depth_bound rs ≤ fuel →
  ∃ rules, Roles.collect_permrules fuel rs user_roles = Done rules ∧
    Roles.is_permitted fuel rs user_roles perm =
      Done (existsb (λ rule, Permissions.match_perm rule perm) rules).
Proof.
  intros Hac Hf. destruct (collect_permrules_total rs fuel user_roles) as [rules Hc]; [done..|].
  destruct (is_permitted_total rs fuel user_roles perm) as [b Hb]; [done..|].
  exists rules. split; [done|]. rewrite Hb. f_equal.
  apply is_permitted_correct in Hb. apply eq_bool_prop_intro.
  rewrite !Is_true_true, Hb, existsb_grants. split.
  - intros (r & Hr & a & Hra & role & rule & Ha & Hin & Hg). exists rule.
    split; [|done]. eapply collect_permrules_correct; [done|]. by exists r, a, role.
  - intros (rule & Hin & Hg). eapply collect_permrules_correct in Hin as (r & a & role & ? & ? & ? & ?); [|done].
    exists r. split; [done|]. exists a. split; [done|]. by exists role, rule.
Qed.

(** a role is marked as seen only after its parents were
    walked, so when a permission is not granted and the first role of the user
    reaches a cycle of parents, the check never returns, whatever the fuel. *)
Theorem is_permitted_cycle_diverges rs r user_roles perm fuel :
  ¬ granted rs perm r → reaches_cycle rs r →
  Roles.is_permitted fuel rs (r :: user_roles) perm = OutOfFuel.
Proof.
  intros Hg Hc. unfold Roles.is_permitted. simpl.
  pose proof (permitted_tally_no_panic rs fuel ∅ r perm).
  destruct (Roles.permitted_tally fuel rs ∅ r perm) as [[s b]| |] eqn:E; [|done..].
  apply permitted_tally_cycle in E as [? _]; [done|set_solver|done|set_solver].
Qed.

Section Witnesses.

(** "manager" inherits from "user"; "loop" inherits from itself. *)
Definition demo_roles : Roles.t := Roles.mk
  {[ "manager" := mkRole ["user"] [Permissions.Subtree (Permissions.mkPermissionBuf "lab.manage")];
     "user" := mkRole [] [Permissions.Children (Permissions.mkPermissionBuf "lab.use")] ]}.

Definition loop_roles : Roles.t := Roles.mk
  {[ "loop" := mkRole ["loop"] [] ]}.

Lemma demo_inherits r p : inherits demo_roles r p → r = "manager" ∧ p = "user".
Proof.
  intros (role & Hr & Hp). unfold Roles.get, demo_roles in Hr. simpl in Hr.
  apply lookup_insert_Some in Hr as [[<- <-]|[_ Hr]].
  - apply list_elem_of_singleton in Hp. done.
  - apply lookup_singleton_Some in Hr as [_ <-]. by apply not_elem_of_nil in Hp.
Qed.

Lemma demo_acyclic : acyclic demo_roles.
Proof.
  intros r Hr. inversion Hr as [? ? Hs|? y ? Hs Hy]; subst.
  - by apply demo_inherits in Hs as [-> ?].
  - apply demo_inherits in Hs as [-> ->]. inversion Hy as [? ? Hs|? z ? Hs Hz]; subst;
      by apply demo_inherits in Hs as [? ?].
Qed.

Lemma is_permitted_spec_witness :
  ∃ b, Roles.is_permitted 3 demo_roles ["manager"] "lab.use.lathe" = Done b ∧
    (b = true ↔ ∃ r, r ∈ ["manager"] ∧ granted demo_roles "lab.use.lathe" r).
Proof. apply is_permitted_spec; [apply demo_acyclic|vm_compute; lia]. Defined.

Lemma is_permitted_collect_agree_witness :
  ∃ rules, Roles.collect_permrules 3 demo_roles ["manager"] = Done rules ∧
    existsb (λ rule, Permissions.match_perm rule "lab.use.lathe") rules = true.
Proof.
  destruct (is_permitted_collect_agree demo_roles ["manager"] "lab.use.lathe" 3) as (rules & Hc & Hp).
  - apply demo_acyclic.
  - vm_compute. lia.
  - exists rules. split; [exact Hc|]. vm_compute in Hc. inv_eqs. reflexivity.
Defined.

Lemma is_permitted_cycle_diverges_witness :
  Roles.is_permitted 100 loop_roles ["loop"] "lab.use" = OutOfFuel.
Proof.
  apply is_permitted_cycle_diverges.
  - intros (a & _ & role & rule & Ha & Hin & _). unfold Roles.get, loop_roles in Ha. simpl in Ha.
    apply lookup_singleton_Some in Ha as [_ <-]. by apply not_elem_of_nil in Hin.
  - assert (inherits loop_roles "loop" "loop") as Hl.
    { exists (mkRole ["loop"] []). split; [done|]. left. }
    exists "loop". split; [done|by apply tc_once].
Defined.

End Witnesses.
