(* ===== verification/Db.v ===== *)
(** * Databases over LMDB (bffhd/db/mod.rs, raw.rs, typed.rs)

    LMDB and rkyv are outside the repository: [Lmdb] lists the calls the code
    makes of LMDB with the contents a transaction or environment has, and
    [LmdbLaws] the documented behaviour the code relies on; [LmdbHealthy]
    adds that no call fails for another reason than the key (a missing key, or
    one LMDB does not take).  [Rkyv] is the (de)serializer derived for a type.
    [MapLmdb] is an instance by finite maps. *)

From S2P Require Import Prelude.

(** ** LMDB *)

Inductive lmdb_error :=
| KeyExist | NotFound | PageNotFound | Corrupted | LmdbPanic | VersionMismatch
| Invalid | MapFull | DbsFull | ReadersFull | TlsFull | TxnFull | CursorFull
| PageFull | MapResized | Incompatible | BadRslot | BadTxn | BadValSize | BadDbi
| Other (n : Z).

#[export] Instance lmdb_error_eq_dec : EqDecision lmdb_error.
Proof. solve_decision. Defined.

(** Keys LMDB takes: between 1 and 511 bytes (its default maximum). *)
Definition valid_key (k : string) : Prop :=
  0 < String.length k ∧ String.length k ≤ 511.
#[export] Instance valid_key_dec k : Decision (valid_key k).
Proof. unfold valid_key. apply _. Defined.

Class Lmdb := {
  Env : Type;
  Txn : Type;
  Dbi : Type;
  begin_ro_txn : Env → result Txn lmdb_error;
  begin_rw_txn : Env → result Txn lmdb_error;
  txn_get : Txn → Dbi → string → result (list N) lmdb_error;
  (** the length of the reserved buffer, and the transaction once the buffer
      has been written *)
  txn_reserve : Txn → Dbi → string → nat → result (nat * (list N → Txn)) lmdb_error;
  txn_del : Txn → Dbi → string → result Txn lmdb_error;
  txn_clear_db : Txn → Dbi → result Txn lmdb_error;
  (** a read cursor over the whole database *)
  txn_iter : Txn → Dbi → result (list (result (string * list N) lmdb_error)) lmdb_error;
  txn_commit : Env → Txn → result Env lmdb_error;
  env_contents : Env → Dbi → gmap string (list N);
  txn_contents : Txn → Dbi → gmap string (list N);
}.

Class LmdbLaws `{Lmdb} : Prop := {
  begin_ro_contents e t :
    begin_ro_txn e = Ok t → ∀ d, txn_contents t d = env_contents e d;
  begin_rw_contents e t :
    begin_rw_txn e = Ok t → ∀ d, txn_contents t d = env_contents e d;
  txn_get_ok t d k v : txn_get t d k = Ok v → txn_contents t d !! k = Some v;
  txn_get_notfound t d k : txn_get t d k = Err NotFound → txn_contents t d !! k = None;
  txn_reserve_ok t d k n len fill :
    txn_reserve t d k n = Ok (len, fill) → len = n ∧
    ∀ v, length v = n → txn_contents (fill v) d = <[k:=v]> (txn_contents t d) ∧
      ∀ d', d' ≠ d → txn_contents (fill v) d' = txn_contents t d';
  txn_del_ok t d k t' :
    txn_del t d k = Ok t' → is_Some (txn_contents t d !! k) ∧
      txn_contents t' d = delete k (txn_contents t d) ∧
      ∀ d', d' ≠ d → txn_contents t' d' = txn_contents t d';
  txn_del_notfound t d k : txn_del t d k = Err NotFound → txn_contents t d !! k = None;
  txn_clear_ok t d t' :
    txn_clear_db t d = Ok t' → txn_contents t' d = ∅ ∧
      ∀ d', d' ≠ d → txn_contents t' d' = txn_contents t d';
  txn_iter_ok t d items :
    txn_iter t d = Ok items →
    ∃ l, items = Ok <$> l ∧ l ≡ₚ map_to_list (txn_contents t d);
  txn_commit_ok e t e' :
    txn_commit e t = Ok e' → ∀ d, env_contents e' d = txn_contents t d;
}.

Class LmdbHealthy `{Lmdb} : Prop := {
  begin_ro_healthy e : ∃ t, begin_ro_txn e = Ok t;
  begin_rw_healthy e : ∃ t, begin_rw_txn e = Ok t;
  txn_get_healthy t d k :
    valid_key k → (∃ v, txn_get t d k = Ok v) ∨ txn_get t d k = Err NotFound;
  txn_reserve_healthy t d k n : valid_key k → ∃ r, txn_reserve t d k n = Ok r;
  txn_del_healthy t d k :
    valid_key k → (∃ t', txn_del t d k = Ok t') ∨ txn_del t d k = Err NotFound;
  txn_clear_healthy t d : ∃ t', txn_clear_db t d = Ok t';
  txn_iter_healthy t d : ∃ items, txn_iter t d = Ok items;
  txn_commit_healthy e t : ∃ e', txn_commit e t = Ok e';
}.

(** A key LMDB does not take is an error of its own ([MDB_BAD_VALSIZE]). *)
Class LmdbKeyLimit `{Lmdb} : Prop := {
  txn_get_bad_key t d k : ¬ valid_key k → txn_get t d k = Err BadValSize;
}.

(** Writing without reserving; [flags] are the [WriteFlags] as bits, none of them
    set in the law. *)
Class LmdbPut `{Lmdb} := {
  txn_put : Txn → Dbi → string → list N → N → result Txn lmdb_error;
}.

Class LmdbPutLaws `{LmdbPut} : Prop := {
  txn_put_ok t d k v t' :
    txn_put t d k v 0 = Ok t' → txn_contents t' d = <[k:=v]> (txn_contents t d) ∧
      ∀ d', d' ≠ d → txn_contents t' d' = txn_contents t d';
}.

(** ** rkyv *)

Class Rkyv (T : Type) := {
  (** [AllocSerializer::serialize_value] and its buffer *)
  rkyv_serialize : T → result (list N) string;
  (** [archived_root] followed by the infallible [Deserialize] *)
  archived_root : list N → T;
}.

Class RkyvLaws (T : Type) `{Rkyv T} : Prop := {
  rkyv_roundtrip x : ∃ b, rkyv_serialize x = Ok b ∧ archived_root b = x;
}.

(** ** bffhd/db/mod.rs *)

(** [struct Error(#[from] lmdb::Error)] *)
Record db_error := mkDbError { db_error_source : lmdb_error }.

#[export] Instance db_error_eq_dec : EqDecision db_error.
Proof. solve_decision. Defined.

Module DbError.

(** [Diagnostic::code] *)
Definition code (e : db_error) : string :=
  match db_error_source e with
  | KeyExist => "bffh::db::raw::key_exists"
  | NotFound => "bffh::db::raw::not_found"
  | PageNotFound => "bffh::db::raw::page_not_found"
  | Corrupted => "bffh::db::raw::corrupted"
  | LmdbPanic => "bffh::db::raw::panic"
  | VersionMismatch => "bffh::db::raw::version_mismatch"
  | Invalid => "bffh::db::raw::invalid"
  | MapFull => "bffh::db::raw::map_full"
  | DbsFull => "bffh::db::raw::dbs_full"
  | ReadersFull => "bffh::db::raw::readers_full"
  | TlsFull => "bffh::db::raw::tls_full"
  | TxnFull => "bffh::db::raw::txn_full"
  | CursorFull => "bffh::db::raw::cursor_full"
  | PageFull => "bffh::db::raw::page_full"
  | MapResized => "bffh::db::raw::map_resized"
  | Incompatible => "bffh::db::raw::incompatible"
  | BadRslot => "bffh::db::raw::bad_rslot"
  | BadTxn => "bffh::db::raw::bad_txn"
  | BadValSize => "bffh::db::raw::bad_val_size"
  | BadDbi => "bffh::db::raw::bad_dbi"
  | Other n => "bffh::db::raw::e" +:+ pretty n
  end.

(** [Diagnostic::help] *)
Definition help (e : db_error) : option string :=
  match db_error_source e with
  | KeyExist => Some "The provided key already exists in the database"
  | NotFound => Some "The requested key was not found in the database"
  | PageNotFound =>
      Some "The requested page was not found. This usually indicates corruption."
  | BadRslot =>
      Some "This usually indicates that the operation can't complete because an incompatible transaction is still open."
  | _ => None
  end.

End DbError.

(** ** bffhd/db/raw.rs *)

Module RawDB.
Section RawDB.
Context `{Lmdb}.

Record t := mk { db : Dbi }.

Definition get (self : t) (txn : Txn) (key : string)
  : result (option (list N)) lmdb_error :=
  match txn_get txn (db self) key with
  | Ok buf => Ok (Some buf)
  | Err NotFound => Ok None
  | Err e => Err e
  end.

Definition reserve (self : t) (txn : Txn) (key : string) (size : nat)
  : result (nat * (list N → Txn)) lmdb_error :=
  txn_reserve txn (db self) key size.

Definition put `{!LmdbPut} (self : t) (txn : Txn) (key : string) (value : list N) (flags : N)
  : result Txn lmdb_error :=
  txn_put txn (db self) key value flags.

Definition del (self : t) (txn : Txn) (key : string) : result Txn lmdb_error :=
  txn_del txn (db self) key.

Definition clear (self : t) (txn : Txn) : result Txn lmdb_error :=
  txn_clear_db txn (db self).

(** [open_ro_cursor] and [iter_start] *)
Definition iter (self : t) (txn : Txn)
  : result (list (result (string * list N) lmdb_error)) lmdb_error :=
  txn_iter txn (db self).

End RawDB.
End RawDB.

(** ** bffhd/db/typed.rs *)

(** [ArchivedValue<T>]: serialized bytes, tagged with the type they encode. *)
Record ArchivedValue (T : Type) := mkArchivedValue { data : list N }.
Arguments mkArchivedValue {T} data.
Arguments data {T} a.

#[export] Instance ArchivedValue_eq_dec T : EqDecision (ArchivedValue T).
Proof. solve_decision. Defined.

Module ArchivedVal.

Definition new {T} (d : list N) : ArchivedValue T := mkArchivedValue d.

(** [ArchivedValue::build] copies the bytes. *)
Definition build {T} (d : list N) : ArchivedValue T := new ([] ++ d).

Definition as_slice {T} (v : ArchivedValue T) : list N := data v.

(** [AsRef<Archived<T>>] *)
Definition as_ref {T} `{Rkyv T} (v : ArchivedValue T) : T := archived_root (as_slice v).

End ArchivedVal.

(** [AlignedAdapter] *)
Module Adapter.

Definition decode {T} (d : list N) : ArchivedValue T := ArchivedVal.build d.

Definition encoded_len {T} (v : ArchivedValue T) : nat := length (ArchivedVal.as_slice v).

(** [buf.copy_from_slice(item.as_slice())]: panics when the lengths differ. *)
Definition encode_into {T} (v : ArchivedValue T) (buf_len : nat) : outcome (list N) :=
  if decide (buf_len = length (ArchivedVal.as_slice v)) then Done (ArchivedVal.as_slice v)
  else Panic.

End Adapter.

(** [DB<AlignedAdapter<T>>] *)
Module DB.
Section DB.
Context `{Lmdb}.

Record t (T : Type) := mk { db : RawDB.t }.
Arguments mk {T} db.
Arguments db {T} t.

Context {T : Type}.

Definition get (self : t T) (txn : Txn) (key : string)
  : result (option (ArchivedValue T)) db_error :=
  let? o := map_err mkDbError (RawDB.get (db self) txn key) in
  Ok (Adapter.decode <$> o).

Definition put (self : t T) (txn : Txn) (key : string) (value : ArchivedValue T)
  : outcome (result Txn db_error) :=
  let len := Adapter.encoded_len value in
  match RawDB.reserve (db self) txn key len with
  | Err e => Done (Err (mkDbError e))
  | Ok (buf_len, fill) =>
      if decide (buf_len = len) then
        let! bs := Adapter.encode_into value buf_len in
        Done (Ok (fill bs))
      else Panic
  end.

Definition del (self : t T) (txn : Txn) (key : string) : result Txn db_error :=
  map_err mkDbError (RawDB.del (db self) txn key).

Definition clear (self : t T) (txn : Txn) : result Txn db_error :=
  map_err mkDbError (RawDB.clear (db self) txn).

(** [get_all]: items the cursor fails to read are skipped. *)
Definition get_all (self : t T) (txn : Txn)
  : result (list (string * ArchivedValue T)) db_error :=
  let? it := map_err mkDbError (RawDB.iter (db self) txn) in
  Ok (omap (λ buf, (λ kv, (kv.1, Adapter.decode kv.2)) <$> ok buf) it).

End DB.
Arguments mk {_ T} db.
Arguments db {_ T} t.
End DB.

(** ** Lemmas on the typed layer *)
Section Typed.
Context `{LmdbLaws} `{!LmdbHealthy} {T : Type}.
Implicit Types (d : DB.t T) (txn : Txn).

(** The contents of a typed database in a transaction. *)
Definition db_of (d : DB.t T) : Dbi := RawDB.db (DB.db d).

Lemma DB_get_spec d txn k :
  valid_key k →
  DB.get d txn k = Ok (mkArchivedValue <$> txn_contents txn (db_of d) !! k).
Proof.
  intros Hk. unfold DB.get, RawDB.get, db_of.
  destruct (txn_get_healthy txn (RawDB.db (DB.db d)) k Hk) as [[v Hv]|Hv]; rewrite Hv; simpl.
  - by rewrite (txn_get_ok _ _ _ _ Hv).
  - by rewrite (txn_get_notfound _ _ _ Hv).
Qed.

(** What is written raw is read back raw, and through the typed layer. *)
Lemma raw_put_get `{!LmdbPut, !LmdbPutLaws} d txn k v txn' :
  valid_key k → RawDB.put (DB.db d) txn k v 0 = Ok txn' →
  RawDB.get (DB.db d) txn' k = Ok (Some v) ∧ DB.get d txn' k = Ok (Some (mkArchivedValue v)).
Proof.
  intros Hk Hp. destruct (txn_put_ok _ _ _ _ _ Hp) as [Hc _]. split.
  - unfold RawDB.get. destruct (txn_get_healthy txn' (RawDB.db (DB.db d)) k Hk) as [[x Hx]|Hx];
      rewrite Hx; [apply txn_get_ok in Hx|apply txn_get_notfound in Hx];
      rewrite Hc, lookup_insert_eq in Hx; by inv_eqs.
  - rewrite DB_get_spec by done. unfold db_of. by rewrite Hc, lookup_insert_eq.
Qed.

(** A successful [put] stores the value under the key and nothing else
    changes. *)
Lemma DB_put_ok d txn k v txn' :
  DB.put d txn k v = Done (Ok txn') →
  txn_contents txn' (db_of d) = <[k:=data v]> (txn_contents txn (db_of d)) ∧
  ∀ i, i ≠ db_of d → txn_contents txn' i = txn_contents txn i.
Proof.
  unfold DB.put, RawDB.reserve, db_of. intros Hput.
  destruct (txn_reserve _ _ _ _) as [[len fill]|e] eqn:Hr; [|done].
  case_decide as Hl; [|done]. apply outcome_bind_Done in Hput as (bs & Hbs & Hf). inv_eqs.
  unfold Adapter.encode_into in Hbs. case_decide; [|done]. inv_eqs.
  destruct (txn_reserve_ok _ _ _ _ _ _ Hr) as [_ Hspec]. by apply Hspec.
Qed.

Lemma DB_put_healthy d txn k v :
  valid_key k → ∃ txn', DB.put d txn k v = Done (Ok txn').
Proof.
  intros Hk. unfold DB.put, RawDB.reserve.
  destruct (txn_reserve_healthy txn (RawDB.db (DB.db d)) k (Adapter.encoded_len v) Hk)
    as [[len fill] Hr].
  destruct (txn_reserve_ok _ _ _ _ _ _ Hr) as [-> _]. rewrite Hr, decide_True by done.
  unfold Adapter.encode_into, Adapter.encoded_len. rewrite decide_True by done.
  simpl. eauto.
Qed.

(** [put] never panics: the reserved buffer has the requested length. *)
Lemma DB_put_no_panic d txn k v : DB.put d txn k v ≠ Panic.
Proof.
  unfold DB.put, RawDB.reserve. destruct (txn_reserve _ _ _ _) as [[len fill]|e] eqn:Hr; [|done].
  destruct (txn_reserve_ok _ _ _ _ _ _ Hr) as [-> _]. rewrite decide_True by done.
  unfold Adapter.encode_into, Adapter.encoded_len. by rewrite decide_True.
Qed.

Lemma DB_get_all_spec d txn :
  ∃ l, DB.get_all d txn = Ok l ∧
    l ≡ₚ map_to_list (mkArchivedValue <$> txn_contents txn (db_of d)).
Proof.
  unfold DB.get_all, RawDB.iter, db_of.
  destruct (txn_iter_healthy txn (RawDB.db (DB.db d))) as [items Hi]. rewrite Hi. simpl.
  destruct (txn_iter_ok _ _ _ Hi) as (l & -> & Hl). eexists. split; [done|].
  rewrite map_to_list_fmap, <- Hl. clear.
  induction l as [|[k v] l IH]; [done|]. simpl. by rewrite IH.
Qed.

End Typed.

(** ** An LMDB of finite maps *)

(** The environment maps database names to contents; a transaction works on a
    private copy until it is committed. *)
Abbreviation mapenv := (gmap string (gmap string (list N))).

Definition mapenv_contents (e : mapenv) (d : string) : gmap string (list N) :=
  default ∅ (e !! d).

#[export] Instance MapLmdb : Lmdb := {|
  Env := mapenv;
  Txn := mapenv;
  Dbi := string;
  begin_ro_txn := Ok;
  begin_rw_txn := Ok;
  txn_get t d k :=
    if decide (valid_key k) then ok_or (mapenv_contents t d !! k) NotFound
    else Err BadValSize;
  txn_reserve t d k n :=
    if decide (valid_key k) then
      Ok (n, λ v, <[d := <[k := v]> (mapenv_contents t d)]> t)
    else Err BadValSize;
  txn_del t d k :=
    if decide (valid_key k) then
      match mapenv_contents t d !! k with
      | Some _ => Ok (<[d := delete k (mapenv_contents t d)]> t)
      | None => Err NotFound
      end
    else Err BadValSize;
  txn_clear_db t d := Ok (<[d := ∅]> t);
  txn_iter t d := Ok (Ok <$> map_to_list (mapenv_contents t d));
  txn_commit _ t := Ok t;
  env_contents := mapenv_contents;
  txn_contents := mapenv_contents;
|}.

Lemma mapenv_contents_insert e d m :
  mapenv_contents (<[d:=m]> e) d = m ∧
  ∀ d', d' ≠ d → mapenv_contents (<[d:=m]> e) d' = mapenv_contents e d'.
Proof.
  unfold mapenv_contents. split; [by rewrite lookup_insert_eq|].
  intros d' Hd. by rewrite lookup_insert_ne.
Qed.

#[export] Instance MapLmdb_laws : LmdbLaws.
Proof.
  split; simpl; intros *.
  - by intros [= ->].
  - by intros [= ->].
  - case_decide; [|done]. destruct (mapenv_contents t d !! k); simpl; congruence.
  - case_decide; [|done]. by destruct (mapenv_contents t d !! k).
  - case_decide; [|done]. intros [= <- <-]. split; [done|].
    intros v _. apply mapenv_contents_insert.
  - case_decide; [|done]. destruct (mapenv_contents t d !! k) eqn:E; [|done].
    intros ?; inv_eqs. split; [by eauto|]. apply mapenv_contents_insert.
  - case_decide; [|done]. by destruct (mapenv_contents t d !! k).
  - intros ?; inv_eqs. apply mapenv_contents_insert.
  - intros ?; inv_eqs. eauto.
  - intros _ t e ?; by inv_eqs.
Qed.

#[export] Instance MapLmdb_healthy : LmdbHealthy.
Proof.
  split; simpl; intros *; eauto.
  - intros Hk. rewrite decide_True by done.
    destruct (mapenv_contents t d !! k); simpl; eauto.
  - intros Hk. rewrite decide_True by done. eauto.
  - intros Hk. rewrite decide_True by done.
    destruct (mapenv_contents t d !! k); eauto.
Qed.

#[export] Instance MapLmdb_put : LmdbPut := {|
  txn_put t d k v _ :=
    if decide (valid_key k) then Ok (<[d := <[k := v]> (mapenv_contents t d)]> t)
    else Err BadValSize : result mapenv lmdb_error;
|}.

#[export] Instance MapLmdb_put_laws : LmdbPutLaws.
Proof.
  split. simpl. intros t d k v t'. case_decide; [|done]. intros [= <-]. apply mapenv_contents_insert.
Qed.

#[export] Instance MapLmdb_key_limit : LmdbKeyLimit.
Proof. split. intros t d k Hk. simpl. by rewrite decide_False. Qed.

(** An rkyv for any countable type: the encoding is one number. *)
Definition countable_rkyv {T} `{Countable T} (dflt : T) : Rkyv T := {|
  rkyv_serialize x := Ok [N.pos (encode x)];
  archived_root b :=
    match b with
    | [N.pos p] => default dflt (decode p)
    | _ => dflt
    end;
|}.

Lemma countable_rkyv_laws {T} `{Countable T} (dflt : T) :
  @RkyvLaws T (countable_rkyv dflt).
Proof. split. intros x. eexists. split; [done|]. simpl. by rewrite decode_encode. Qed.
