(* ===== verification/Users.v ===== *)
(** * Users and the user database (bffhd/users/mod.rs, bffhd/users/db.rs)

    [User] and [UserData] with the serde derives of the latter, the LMDB-backed
    [UserDB], and the [Users] handle with [load_file] and [dump_file].  argon2,
    the random salts, the file system and the [toml] crate are parameters. *)

From S2P Require Import Prelude Toml Db.

(** ** Data *)

Record UserRef := mkUserRef { ref_id : string }.

#[export] Instance UserRef_eq_dec : EqDecision UserRef.
Proof. solve_decision. Defined.

Record UserData := mkUserData {
  roles : list string;
  passwd : option string;
  kv : gmap string string;
}.

#[export] Instance UserData_eq_dec : EqDecision UserData.
Proof. solve_decision. Defined.

Record User := mkUser {
  id : string;
  userdata : UserData;
}.

#[export] Instance User_eq_dec : EqDecision User.
Proof. solve_decision. Defined.

(** [UserData::default], [new], [new_with_kv] *)
Definition UserData_default : UserData := mkUserData [] None ∅.
Definition UserData_new (rs : list string) : UserData := mkUserData rs None ∅.
Definition UserData_new_with_kv (rs : list string) (m : gmap string string) : UserData :=
  mkUserData rs None m.

(** [UserRef::new], [get_username], and the equality with [ArchivedUserRef] *)
Definition UserRef_new (i : string) : UserRef := mkUserRef i.
Definition get_username (u : UserRef) : string := ref_id u.

(** Field updates of the source's assignments. *)
Definition set_passwd (p : option string) (d : UserData) : UserData :=
  mkUserData (roles d) p (kv d).
Definition set_roles (rs : list string) (d : UserData) : UserData :=
  mkUserData rs (passwd d) (kv d).
Definition set_kv (m : gmap string string) (d : UserData) : UserData :=
  mkUserData (roles d) (passwd d) m.
Definition map_userdata (f : UserData → UserData) (u : User) : User :=
  mkUser (id u) (f (userdata u)).

(** ** [Serialize] and [Deserialize] of [UserData]

    What the derives make of the field attributes: [passwd] is left out when there
    is none, and the entries of [kv] stand beside the other fields
    ([#[serde(flatten)]]). *)

Module UserDataSerde.

Definition serialize (self : UserData) : TomlTable :=
  ("roles", TArray (TString <$> roles self)) ::
  match passwd self with
  | Some pw => [("passwd", TString pw)]
  | None => []
  end ++ ((λ p, (p.1, TString p.2)) <$> map_to_list (kv self)).

(** The fields read so far; [rest] is what is neither [roles] nor [passwd]. *)
Record fields := mkFields {
  f_roles : option (list string);
  f_passwd : option (option string);
  f_rest : TomlTable;
}.

Definition no_fields : fields := mkFields None None [].

Definition visit_entry (f : fields) (k : string) (v : TomlValue) : result fields SerdeError :=
  if decide (k = "roles") then
    match f_roles f with
    | Some _ => Err (DuplicateField "roles")
    | None => let? rs := as_strings v in Ok (mkFields (Some rs) (f_passwd f) (f_rest f))
    end
  else if decide (k = "passwd") then
    match f_passwd f with
    | Some _ => Err (DuplicateField "passwd")
    | None => let? pw := as_string v in Ok (mkFields (f_roles f) (Some (Some pw)) (f_rest f))
    end
  else Ok (mkFields (f_roles f) (f_passwd f) (f_rest f ++ [(k, v)])).

Fixpoint visit_map (f : fields) (l : TomlTable) : result fields SerdeError :=
  match l with
  | [] => Ok f
  | (k, v) :: l => let? f := visit_entry f k v in visit_map f l
  end.

Definition deserialize (v : TomlValue) : result UserData SerdeError :=
  match v with
  | TTable l =>
      let? f := visit_map no_fields l in
      let? rs := ok_or (f_roles f) (MissingField "roles") in
      let? m := as_map as_string ∅ (f_rest f) in
      Ok (mkUserData rs (default None (f_passwd f)) m)
  | _ => Err InvalidType
  end.

(** [HashMap<String, UserData>] *)
Definition serialize_users (users : gmap string UserData) : TomlTable :=
  (λ p, (p.1, TTable (serialize p.2))) <$> map_to_list users.

Definition deserialize_users (doc : TomlTable) : result (gmap string UserData) SerdeError :=
  as_map deserialize ∅ doc.

End UserDataSerde.

(** ** argon2 *)

Definition hash_prefix : string := "$argon2".

Class Argon2 := {
  argon2_error : Type;
  argon2_hash_encoded : string → list N → result string argon2_error;
  argon2_verify_encoded : string → string → result bool argon2_error;
}.

(** With a salt of 16 bytes hashing succeeds, the encoding starts with the
    algorithm name and the password verifies against it. *)
Class Argon2Laws `{Argon2} : Prop := {
  argon2_hash_ok pw salt :
    length salt = 16 →
    ∃ h, argon2_hash_encoded pw salt = Ok h ∧ starts_with hash_prefix h = true ∧
      argon2_verify_encoded h pw = Ok true;
}.

Module UserOps.
Section UserOps.
Context `{Argon2}.

(** [hash_pw]: the salt is [rand::random()]. *)
Definition hash_pw (pw : string) (salt : list N) : result string argon2_error :=
  argon2_hash_encoded pw salt.

Definition check_password (self : User) (pwd : string) : result bool argon2_error :=
  match passwd (userdata self) with
  | Some encoded => argon2_verify_encoded encoded pwd
  | None => Ok false
  end.

Definition new_with_plain_pw (username password : string) (salt : list N) : outcome User :=
  let! hash := unwrap_ok (hash_pw password salt) in
  Done (mkUser username (set_passwd (Some hash) UserData_default)).

Definition set_pw (self : User) (password : string) (salt : list N) : outcome User :=
  let! hash := unwrap_ok (hash_pw password salt) in
  Done (map_userdata (set_passwd (Some hash)) self).

End UserOps.
End UserOps.

(** ** [UserDB] *)

Module UserDB.
Section UserDB.
Context `{Lmdb} `{Rkyv User}.

(** The environment ([Arc<Environment>]) is the state; the record keeps the
    database handle. *)
Record t := mk { db : DB.t User }.

(** [serialize_value(user).expect("rkyv error")] into an [ArchivedValue]. *)
Definition archive (user : User) : outcome (ArchivedValue User) :=
  let! v := unwrap_ok (rkyv_serialize user) in
  Done (ArchivedVal.new v).

Definition get (self : t) (env : Env) (uid : string)
  : result (option (ArchivedValue User)) db_error :=
  let? txn := map_err mkDbError (begin_ro_txn env) in
  DB.get (db self) txn uid.

Definition put_txn (self : t) (txn : Txn) (uid : string) (user : User)
  : outcome (result Txn db_error) :=
  let! value := archive user in
  DB.put (db self) txn uid value.

Definition put (self : t) (env : Env) (uid : string) (user : User)
  : outcome (result Env db_error) :=
  let! value := archive user in
  match begin_rw_txn env with
  | Err e => Done (Err (mkDbError e))
  | Ok txn =>
      let! r := DB.put (db self) txn uid value in
      match r with
      | Err e => Done (Err e)
      | Ok txn' => Done (map_err mkDbError (txn_commit env txn'))
      end
  end.

Definition delete (self : t) (env : Env) (uid : string) : result Env db_error :=
  let? txn := map_err mkDbError (begin_rw_txn env) in
  let? txn' := DB.del (db self) txn uid in
  map_err mkDbError (txn_commit env txn').

Definition clear_txn (self : t) (txn : Txn) : result Txn db_error :=
  DB.clear (db self) txn.

(** [get_all]: a map from the key to the user's data. *)
Definition get_all (self : t) (env : Env) : result (gmap string UserData) db_error :=
  let? txn := map_err mkDbError (begin_ro_txn env) in
  let? iter := DB.get_all (db self) txn in
  Ok (foldl (λ out p, <[p.1 := userdata (ArchivedVal.as_ref p.2)]> out) ∅ iter).

End UserDB.
End UserDB.

(** ** [Users] *)

(** The file system and TOML calls of [load_file] and [dump_file]. *)
Class UserFiles := {
  io_error : Type;
  fs : Type;
  fs_is_dir : fs → string → bool;
  fs_exists : fs → string → bool;
  fs_read : fs → string → result (list N) io_error;
  (** [File::create]: the file is there and empty. *)
  fs_create : fs → string → result fs io_error;
  (** [write_all]: when it fails, part of the bytes may have been written. *)
  fs_write_all : fs → string → list N → fs * result () io_error;
  toml_from_slice : list N → result TomlTable io_error;
  toml_to_vec : TomlTable → result (list N) io_error;
}.

Inductive users_error `{UserFiles} :=
| LoadIsDir
| DumpFileExists
| IoError (e : io_error)
| TomlError (e : io_error)
| TomlSerde (e : SerdeError)
| UsersDb (e : db_error).

Module Users.
Section Users.
Context `{Lmdb} `{Rkyv User} `{Argon2} `{UserFiles}.

Record t := mk { userdb : UserDB.t }.

(** [get_user]: a database error is unwrapped. *)
Definition get_user (self : t) (env : Env) (uid : string) : outcome (option User) :=
  let! o := unwrap_ok (UserDB.get (userdb self) env uid) in
  Done (ArchivedVal.as_ref <$> o).

Definition put_user (self : t) (env : Env) (uid : string) (user : User)
  : outcome (result Env db_error) :=
  UserDB.put (userdb self) env uid user.

Definition del_user (self : t) (env : Env) (uid : string) : result Env db_error :=
  UserDB.delete (userdb self) env uid.

(** The password of a loaded user: hashed unless it already is a hash. *)
Definition load_passwd (salt : list N) (pw : option string) : outcome (option string) :=
  match pw with
  | None => Done None
  | Some pw =>
      if starts_with hash_prefix pw then Done (Some pw)
      else
        let! hash := unwrap_ok (argon2_hash_encoded pw salt) in
        Done (Some hash)
  end.

(** The loop over the entries of the file; a user that cannot be stored is
    skipped with a warning. *)
Fixpoint load_users (self : t) (salts : string → list N)
  (entries : list (string * UserData)) (txn : Txn) : outcome Txn :=
  match entries with
  | [] => Done txn
  | (uid, ud) :: rest =>
      let! pw := load_passwd (salts uid) (passwd ud) in
      let user := mkUser uid (set_passwd pw ud) in
      let! r := UserDB.put_txn (userdb self) txn uid user in
      match r with
      | Ok txn' => load_users self salts rest txn'
      | Err _ => load_users self salts rest txn
      end
  end.

(** [toml::from_slice] at the type [HashMap<String, UserData>] *)
Definition read_users (f : list N) : result (gmap string UserData) users_error :=
  let? doc := map_err TomlError (toml_from_slice f) in
  map_err TomlSerde (UserDataSerde.deserialize_users doc).

(** [load_file]: replace the database by the users of a TOML file, in one
    transaction. *)
Definition load_file (self : t) (salts : string → list N) (files : fs) (env : Env)
  (path : string) : outcome (result Env users_error) :=
  if fs_is_dir files path then Done (Err LoadIsDir)
  else
    match fs_read files path with
    | Err e => Done (Err (IoError e))
    | Ok f =>
        match read_users f with
        | Err e => Done (Err e)
        | Ok m =>
            match begin_rw_txn env with
            | Err e => Done (Err (UsersDb (mkDbError e)))
            | Ok txn =>
                match UserDB.clear_txn (userdb self) txn with
                | Err e => Done (Err (UsersDb e))
                | Ok txn =>
                    let! txn := load_users self salts (map_to_list m) txn in
                    Done (map_err (λ e, UsersDb (mkDbError e)) (txn_commit env txn))
                end
            end
        end
    end.

(** [dump_file]: the file system it leaves, and the count the code reports.  The
    file is created, and what it held is lost, before the users are read. *)
Definition dump_file (self : t) (files : fs) (env : Env) (path : string) (force : bool)
  : fs * result N users_error :=
  if fs_exists files path && negb force then (files, Err DumpFileExists)
  else
    match fs_create files path with
    | Err e => (files, Err (IoError e))
    | Ok files =>
        match UserDB.get_all (userdb self) env with
        | Err e => (files, Err (UsersDb e))
        | Ok users =>
            match toml_to_vec (UserDataSerde.serialize_users users) with
            | Err e => (files, Err (TomlError e))
            | Ok encoded =>
                let (files, r) := fs_write_all files path encoded in
                (files, match r with
                        | Err e => Err (IoError e)
                        | Ok _ => Ok 0%N
                        end)
            end
        end
    end.

End Users.
End Users.

(** ** Lemmas *)

(** *** The derives *)

Lemma map_of_entries {A} (l : list (string * A)) (m : gmap string A) :
  NoDup l.*1 → (∀ k x, (k, x) ∈ l ↔ m !! k = Some x) → list_to_map l = m.
Proof.
  intros Hnd Hl. apply map_eq. intros k. apply option_eq. intros x.
  by rewrite <- elem_of_list_to_map, Hl.
Qed.

Section SerdeLemmas.
Import UserDataSerde.
Implicit Types (d : UserData) (l : TomlTable).

(** No entry of [kv] has the name of a field. *)
Definition kv_plain d : Prop := kv d !! "roles" = None ∧ kv d !! "passwd" = None.

Abbreviation other p := (p.1 ≠ "roles" ∧ p.1 ≠ "passwd").

Lemma elem_of_serialize d k v :
  (k, v) ∈ serialize d ↔
  (k = "roles" ∧ v = TArray (TString <$> roles d)) ∨
  (k = "passwd" ∧ ∃ pw, passwd d = Some pw ∧ v = TString pw) ∨
  (∃ s, kv d !! k = Some s ∧ v = TString s).
Proof.
  unfold serialize. rewrite elem_of_cons, elem_of_app.
  assert ((k, v) ∈ ((λ p, (p.1, TString p.2)) <$> map_to_list (kv d)) ↔
    ∃ s, kv d !! k = Some s ∧ v = TString s) as ->.
  { rewrite list_elem_of_fmap. split.
    - intros ([k' s] & [= -> ->] & Hin%elem_of_map_to_list). eauto.
    - intros (s & Hs & ->). exists (k, s). split; [done|]. by apply elem_of_map_to_list. }
  assert ((k, v) ∈ (match passwd d with Some pw => [("passwd", TString pw)] | None => [] end) ↔
    k = "passwd" ∧ ∃ pw, passwd d = Some pw ∧ v = TString pw) as ->; [|naive_solver].
  destruct (passwd d) as [pw|]; [rewrite list_elem_of_singleton|rewrite elem_of_nil]; naive_solver.
Qed.

Lemma serialize_keys d :
  (serialize d).*1 = "roles" :: match passwd d with Some _ => ["passwd"] | None => [] end ++
    (map_to_list (kv d)).*1.
Proof.
  unfold serialize. simpl. f_equal. rewrite fmap_app, <- list_fmap_compose.
  by destruct (passwd d).
Qed.

Lemma kv_key d k : k ∈ (map_to_list (kv d)).*1 ↔ is_Some (kv d !! k).
Proof.
  rewrite list_elem_of_fmap. split.
  - intros ([k' s] & -> & Hin%elem_of_map_to_list). by exists s.
  - intros [s Hs]. exists (k, s). split; [done|]. by apply elem_of_map_to_list.
Qed.

Lemma serialize_unique d : kv_plain d → keys_unique (TTable (serialize d)).
Proof.
  intros [Hr Hp]. constructor.
  - rewrite serialize_keys. apply NoDup_cons. split.
    + rewrite elem_of_app, kv_key, Hr. destruct (passwd d); [|by intros [?%elem_of_nil|[? ?]]].
      intros [?%list_elem_of_singleton|[? ?]]; done.
    + apply NoDup_app. split; [destruct (passwd d); repeat constructor; apply not_elem_of_nil|].
      split; [|apply NoDup_fst_map_to_list]. intros k Hk. rewrite kv_key.
      destruct (passwd d); [apply list_elem_of_singleton in Hk as ->; rewrite Hp; by intros [? ?]|].
      by apply elem_of_nil in Hk.
  - apply Forall_forall. intros [k v] Hin. simpl.
    apply elem_of_serialize in Hin as [[_ ->]|[(_ & ? & _ & ->)|(? & _ & ->)]];
      constructor; apply Forall_fmap, Forall_true; constructor.
Qed.

Lemma visit_map_spec f l rs pw :
  NoDup l.*1 →
  (∀ v, ("roles", v) ∈ l → f_roles f = None ∧ as_strings v = Ok rs) →
  (∀ v, ("passwd", v) ∈ l → f_passwd f = None ∧ as_string v = Ok pw) →
  visit_map f l = Ok (mkFields (if decide ("roles" ∈ l.*1) then Some rs else f_roles f)
    (if decide ("passwd" ∈ l.*1) then Some (Some pw) else f_passwd f)
    (f_rest f ++ filter (λ p, other p) l)).
Proof.
  revert f. induction l as [|[k v] l IH]; intros f Hnd Hr Hp.
  { simpl. rewrite app_nil_r. by destruct f. }
  rewrite fmap_cons in *. apply NoDup_cons in Hnd as [Hk Hnd]. cbn [visit_map fst] in *.
  assert (∀ x, x ∉ l.*1 → ∀ v, (x, v) ∉ l) as Hno.
  { intros x Hx v' Hv. apply Hx. apply list_elem_of_fmap. by exists (x, v'). }
  unfold visit_entry. rewrite filter_cons. destruct (decide (k = "roles")) as [->|Hnr].
  - destruct (Hr v) as [-> ->]; [left|]. cbn [result_bind]. rewrite IH; cbn [f_roles f_passwd f_rest]; [|done|..].
    + rewrite (decide_False (P := "roles" ∈ l.*1)), (decide_True (P := "roles" ∈ "roles" :: l.*1)) by (done || left).
      rewrite (decide_False (P := other _)) by (simpl; tauto).
      by rewrite (decide_ext ("passwd" ∈ "roles" :: l.*1) ("passwd" ∈ l.*1)) by (rewrite elem_of_cons; naive_solver).
    + intros v' Hv'. by apply Hno in Hv'.
    + intros v' Hv'. apply Hp. by right.
  - destruct (decide (k = "passwd")) as [->|Hnp].
    + destruct (Hp v) as [-> ->]; [left|]. cbn [result_bind]. rewrite IH; cbn [f_roles f_passwd f_rest]; [|done|..].
      * rewrite (decide_False (P := "passwd" ∈ l.*1)), (decide_True (P := "passwd" ∈ "passwd" :: l.*1)) by (done || left).
        rewrite (decide_False (P := other _)) by (simpl; tauto).
        by rewrite (decide_ext ("roles" ∈ "passwd" :: l.*1) ("roles" ∈ l.*1)) by (rewrite elem_of_cons; naive_solver).
      * intros v' Hv'. apply Hr. by right.
      * intros v' Hv'. by apply Hno in Hv'.
    + cbn [result_bind]. rewrite IH; cbn [f_roles f_passwd f_rest]; [|done|..].
      * rewrite (decide_True (P := other _)) by done. rewrite <- app_assoc.
        rewrite (decide_ext ("roles" ∈ k :: l.*1) ("roles" ∈ l.*1)) by (rewrite elem_of_cons; naive_solver).
        by rewrite (decide_ext ("passwd" ∈ k :: l.*1) ("passwd" ∈ l.*1)) by (rewrite elem_of_cons; naive_solver).
      * intros v' Hv'. apply Hr. by right.
      * intros v' Hv'. apply Hp. by right.
Qed.

(** Values of user data come back as they were, whatever the order. *)
Lemma serialize_back d v :
  toml_equiv (TTable (serialize d)) v →
  ∃ l, v = TTable l ∧ l.*1 ≡ₚ (serialize d).*1 ∧ ∀ k x, (k, x) ∈ l ↔ (k, x) ∈ serialize d.
Proof.
  intros (l & -> & Hk & H1 & H2)%toml_equiv_table. exists l. split; [done|]. split; [done|].
  assert (∀ k x x', (k, x) ∈ serialize d → toml_equiv x x' → x' = x) as Hsame.
  { intros k x x' Hx Hxx'. apply elem_of_serialize in Hx as [[_ ->]|[(_ & ? & _ & ->)|(? & _ & ->)]];
      [by apply toml_equiv_strings|by apply toml_equiv_string..]. }
  intros k x. split.
  - intros Hx. destruct (H1 k x Hx) as (x' & Hx' & He). by rewrite (Hsame _ _ _ Hx' He).
  - intros Hx. destruct (H2 k x Hx) as (x' & Hx' & He). by rewrite <- (Hsame _ _ _ Hx He).
Qed.

Definition string_of (v : TomlValue) : string := match v with TString s => s | _ => EmptyString end.

Lemma deserialize_serialize d v :
  kv_plain d → toml_equiv (TTable (serialize d)) v → deserialize v = Ok d.
Proof.
  intros Hpl (l & -> & Hk & Hl)%serialize_back. pose proof Hpl as [Hr Hp].
  assert (NoDup l.*1) as Hnd.
  { rewrite Hk. by apply serialize_unique in Hpl; inversion Hpl. }
  cbn [deserialize]. rewrite (visit_map_spec no_fields l (roles d) (default EmptyString (passwd d)) Hnd).
  2: { intros v Hv. split; [done|]. apply Hl, elem_of_serialize in Hv as [[_ ->]|[[? _]|(? & ? & _)]];
         [apply as_string_each|done|congruence]. }
  2: { intros v Hv. split; [done|]. apply Hl, elem_of_serialize in Hv as [[? _]|[(_ & pw & -> & ->)|(? & ? & _)]];
         [done|done|congruence]. }
  cbn [result_bind f_roles f_passwd f_rest no_fields app].
  rewrite decide_True by (rewrite Hk, serialize_keys; left). cbn [ok_or result_bind].
  rewrite (as_map_spec as_string string_of).
  2: { intros k v [[Hne _] Hin]%list_elem_of_filter. simpl in Hne.
       apply Hl, elem_of_serialize in Hin as [[? _]|[(_ & ? & _ & ->)|(? & _ & ->)]]; done. }
  2: { eapply sublist_NoDup; [exact Hnd|]. apply fmap_sublist, sublist_filter. }
  cbn [result_bind]. rewrite map_union_empty.
  assert ((if decide ("passwd" ∈ l.*1) then Some (Some (default EmptyString (passwd d))) else None) = Some <$> passwd d)
    as ->.
  { rewrite (decide_ext _ (is_Some (passwd d))).
    - destruct (passwd d); [by rewrite decide_True|by rewrite decide_False by (by intros [? ?])].
    - rewrite Hk, serialize_keys, elem_of_cons, elem_of_app, kv_key, Hp. destruct (passwd d).
      + rewrite list_elem_of_singleton. naive_solver.
      + rewrite elem_of_nil. split; [intros [|[|[? ?]]]; done|intros [? ?]; done]. }
  f_equal. destruct d as [rs pw m]. cbn [roles passwd kv] in *. f_equal; [by destruct pw|].
  apply map_of_entries.
  - rewrite <- list_fmap_compose. eapply sublist_NoDup; [exact Hnd|]. apply fmap_sublist, sublist_filter.
  - intros k x. rewrite list_elem_of_fmap. split.
    + intros ([k' v] & [= -> ->] & [[Hnr Hnp] Hin]%list_elem_of_filter). simpl in *.
      apply Hl, elem_of_serialize in Hin as [[? _]|[[? _]|(x & Hx & ->)]]; done.
    + intros Hx. exists (k, TString x). split; [done|]. apply list_elem_of_filter. simpl.
      split; [split; intros ->; congruence|]. apply Hl, elem_of_serialize. right. right. by exists x.
Qed.

Definition read_back (v : TomlValue) : UserData :=
  match deserialize v with
  | Ok d => d
  | Err _ => UserData_default
  end.

Lemma elem_of_serialize_users (us : gmap string UserData) k v :
  (k, v) ∈ serialize_users us ↔ ∃ d, us !! k = Some d ∧ v = TTable (serialize d).
Proof.
  unfold serialize_users. rewrite list_elem_of_fmap. split.
  - intros ([k' d] & [= -> ->] & Hin%elem_of_map_to_list). eauto.
  - intros (d & Hd & ->). exists (k, d). split; [done|]. by apply elem_of_map_to_list.
Qed.

Lemma serialize_users_keys (us : gmap string UserData) : (serialize_users us).*1 = (map_to_list us).*1.
Proof. unfold serialize_users. by rewrite <- list_fmap_compose. Qed.

Lemma serialize_users_unique (us : gmap string UserData) :
  map_Forall (λ _ d, kv_plain d) us → keys_unique (TTable (serialize_users us)).
Proof.
  intros Hpl. constructor.
  - rewrite serialize_users_keys. apply NoDup_fst_map_to_list.
  - apply Forall_forall. intros [k v] (d & Hd & ->)%elem_of_serialize_users.
    apply serialize_unique. by apply (Hpl k d).
Qed.

(** A field [roles] in [kv] makes the document invalid. *)
Lemma serialize_users_clash (us : gmap string UserData) uid d :
  us !! uid = Some d → is_Some (kv d !! "roles") → ¬ keys_unique (TTable (serialize_users us)).
Proof.
  intros Hd Hr Hu. inversion Hu as [| |? _ Hall|]; subst.
  rewrite Forall_forall in Hall.
  assert (keys_unique (TTable (serialize d))) as Hone.
  { apply (Hall (uid, TTable (serialize d))), elem_of_serialize_users. eauto. }
  inversion Hone as [| |? Hnd _|]; subst. rewrite serialize_keys in Hnd.
  apply NoDup_cons in Hnd as [Hnot _]. apply Hnot. apply elem_of_app. right. by apply kv_key.
Qed.

Lemma users_back (us : gmap string UserData) doc :
  map_Forall (λ _ d, kv_plain d) us → toml_equiv (TTable (serialize_users us)) (TTable doc) →
  deserialize_users doc = Ok us.
Proof.
  intros Hpl (l & [= <-] & Hk & H1 & H2)%toml_equiv_table.
  assert (NoDup doc.*1) as Hnd.
  { rewrite <- Hk, serialize_users_keys. apply NoDup_fst_map_to_list. }
  assert (∀ k v, (k, v) ∈ doc → ∃ d, us !! k = Some d ∧ deserialize v = Ok d) as Hread.
  { intros k v Hv. destruct (H1 k v Hv) as (x & (d & Hd & ->)%elem_of_serialize_users & He).
    exists d. split; [done|]. eapply deserialize_serialize; [|done]. by apply (Hpl k d). }
  unfold deserialize_users. rewrite (as_map_spec deserialize read_back).
  - f_equal. rewrite map_union_empty. apply map_of_entries; [by rewrite <- list_fmap_compose|].
    intros k d. rewrite list_elem_of_fmap. split.
    + intros ([k' v] & [= -> ->] & Hv). destruct (Hread k' v Hv) as (d' & Hd' & Hx). simpl.
      unfold read_back. by rewrite Hx.
    + intros Hd. destruct (H2 k (TTable (serialize d))) as (x & Hx & _).
      { apply elem_of_serialize_users. eauto. }
      exists (k, x). split; [|done]. simpl. f_equal. destruct (Hread k x Hx) as (d' & Hd' & Hdes).
      unfold read_back. rewrite Hdes. congruence.
  - intros k v Hv. destruct (Hread k v Hv) as (d & _ & Hd). unfold read_back. by rewrite Hd.
  - done.
Qed.

End SerdeLemmas.

Section UserDBLemmas.
Context `{LmdbLaws} `{!LmdbHealthy} `{RkyvLaws User}.
Implicit Types (udb : UserDB.t) (env : Env).

Definition user_dbi (udb : UserDB.t) : Dbi := db_of (UserDB.db udb).

(** The users an environment holds. *)
Definition users_in (udb : UserDB.t) (c : Dbi → gmap string (list N)) : gmap string User :=
  archived_root <$> c (user_dbi udb).

Lemma archive_spec user :
  ∃ v, UserDB.archive user = Done v ∧ archived_root (data v) = user.
Proof.
  unfold UserDB.archive. destruct (rkyv_roundtrip user) as (b & -> & Hb).
  simpl. eauto.
Qed.

Lemma put_txn_spec udb txn uid user :
  valid_key uid →
  ∃ txn', UserDB.put_txn udb txn uid user = Done (Ok txn') ∧
    users_in udb (txn_contents txn') = <[uid:=user]> (users_in udb (txn_contents txn)) ∧
    ∀ d, d ≠ user_dbi udb → txn_contents txn' d = txn_contents txn d.
Proof.
  intros Hk. unfold UserDB.put_txn. destruct (archive_spec user) as (v & -> & Hv). simpl.
  destruct (DB_put_healthy (UserDB.db udb) txn uid v Hk) as [txn' Hput]. rewrite Hput.
  destruct (DB_put_ok _ _ _ _ _ Hput) as [Hc Hf]. exists txn'. split; [done|].
  split; [|done]. unfold users_in, user_dbi. by rewrite Hc, fmap_insert, Hv.
Qed.

Lemma UserDB_get_spec udb env uid :
  valid_key uid →
  UserDB.get udb env uid = Ok (mkArchivedValue <$> env_contents env (user_dbi udb) !! uid).
Proof.
  intros Hk. unfold UserDB.get. destruct (begin_ro_healthy env) as [txn Ht]. rewrite Ht. simpl.
  rewrite DB_get_spec by done. by rewrite (begin_ro_contents _ _ Ht).
Qed.

Lemma UserDB_put_spec udb env uid user :
  valid_key uid →
  ∃ env', UserDB.put udb env uid user = Done (Ok env') ∧
    users_in udb (env_contents env') = <[uid:=user]> (users_in udb (env_contents env)) ∧
    ∀ d, d ≠ user_dbi udb → env_contents env' d = env_contents env d.
Proof.
  intros Hk. unfold UserDB.put. destruct (archive_spec user) as (v & -> & Hv). simpl.
  destruct (begin_rw_healthy env) as [txn Ht]. rewrite Ht.
  destruct (DB_put_healthy (UserDB.db udb) txn uid v Hk) as [txn' Hput]. rewrite Hput. simpl.
  destruct (DB_put_ok _ _ _ _ _ Hput) as [Hc Hf].
  destruct (txn_commit_healthy env txn') as [env' He]. rewrite He. exists env'. split; [done|].
  pose proof (txn_commit_ok _ _ _ He) as Hce. pose proof (begin_rw_contents _ _ Ht) as Hct.
  unfold users_in, user_dbi. split.
  - by rewrite Hce, Hc, fmap_insert, Hv, Hct.
  - intros d Hd. rewrite Hce, Hf by done. apply Hct.
Qed.

Lemma UserDB_delete_spec udb env uid :
  valid_key uid →
  match UserDB.delete udb env uid with
  | Ok env' =>
      is_Some (users_in udb (env_contents env) !! uid) ∧
      users_in udb (env_contents env') = delete uid (users_in udb (env_contents env)) ∧
      ∀ d, d ≠ user_dbi udb → env_contents env' d = env_contents env d
  | Err e => e = mkDbError NotFound ∧ users_in udb (env_contents env) !! uid = None
  end.
Proof.
  intros Hk. unfold UserDB.delete. destruct (begin_rw_healthy env) as [txn Ht]. rewrite Ht. simpl.
  pose proof (begin_rw_contents _ _ Ht) as Hct.
  unfold DB.del, RawDB.del, users_in, user_dbi, db_of.
  set (d := RawDB.db (DB.db (UserDB.db udb))).
  destruct (txn_del_healthy txn d uid Hk) as [[txn' Hd]|Hd]; rewrite Hd; simpl.
  - destruct (txn_del_ok _ _ _ _ Hd) as (Hs & Hc & Hf).
    destruct (txn_commit_healthy env txn') as [env' He]. rewrite He. simpl.
    pose proof (txn_commit_ok _ _ _ He) as Hce. rewrite Hct in Hs, Hc. split.
    + rewrite lookup_fmap. by apply fmap_is_Some.
    + split; [by rewrite Hce, Hc, fmap_delete|].
      intros d' Hd'. rewrite Hce, Hf by done. apply Hct.
  - split; [done|]. rewrite lookup_fmap, <- Hct. by rewrite (txn_del_notfound _ _ _ Hd).
Qed.

Lemma foldl_insert_list_to_map {A} (l : list (string * A)) (m : gmap string A) :
  NoDup l.*1 → foldl (λ out p, <[p.1 := p.2]> out) m l = list_to_map l ∪ m.
Proof.
  revert m. induction l as [|[k v] l IH]; intros m Hnd; simpl; [by rewrite map_empty_union|].
  apply NoDup_cons in Hnd as [Hk Hnd]. rewrite IH by done.
  rewrite <- insert_union_r by (by apply not_elem_of_list_to_map_1).
  by rewrite insert_union_l.
Qed.

Lemma UserDB_get_all_spec udb env :
  UserDB.get_all udb env = Ok (userdata <$> users_in udb (env_contents env)).
Proof.
  unfold UserDB.get_all. destruct (begin_ro_healthy env) as [txn Ht]. rewrite Ht. simpl.
  destruct (DB_get_all_spec (UserDB.db udb) txn) as (l & -> & Hl). simpl. f_equal.
  rewrite (begin_ro_contents _ _ Ht) in Hl. unfold users_in. 
  set (m := env_contents env (user_dbi udb)) in *.
  set (f := λ v : ArchivedValue User, userdata (ArchivedVal.as_ref v)).
  transitivity (list_to_map (M := gmap string UserData) (prod_map (λ k, k) f <$> l)).
  - rewrite <- (map_union_empty (list_to_map _)), <- foldl_insert_list_to_map.
    + generalize (∅ : gmap string UserData). clear.
      induction l as [|[k v] l IH]; intros m; simpl; [done|]. apply IH.
    + rewrite <- list_fmap_compose.
      change (NoDup (fst <$> l)). rewrite Hl. apply NoDup_fst_map_to_list.
  - rewrite <- map_fmap_compose. rewrite <- (list_to_map_to_list (userdata ∘ archived_root <$> m)).
    apply list_to_map_proper.
    + rewrite <- list_fmap_compose. change (NoDup (fst <$> l)). rewrite Hl.
      apply NoDup_fst_map_to_list.
    + rewrite Hl. rewrite <- !map_to_list_fmap. by rewrite <- map_fmap_compose.
Qed.

End UserDBLemmas.

(** ** Instances of the parameters *)

#[export] Instance UserRef_countable : Countable UserRef.
Proof. apply (inj_countable' ref_id mkUserRef). by intros []. Defined.

#[export] Instance UserData_countable : Countable UserData.
Proof.
  apply (inj_countable' (λ d, (roles d, passwd d, kv d))
           (λ '(r, p, k), mkUserData r p k)). by intros [].
Defined.

#[export] Instance User_countable : Countable User.
Proof. apply (inj_countable' (λ u, (id u, userdata u)) (λ '(i, d), mkUser i d)). by intros []. Defined.

#[export] Instance User_rkyv : Rkyv User := countable_rkyv (mkUser EmptyString UserData_default).
#[export] Instance User_rkyv_laws : RkyvLaws User := countable_rkyv_laws _.

(** A transparent "hash" with the prefix argon2 uses. *)
#[export] Instance PlainArgon2 : Argon2 := {|
  argon2_error := unit;
  argon2_hash_encoded pw _ := Ok (hash_prefix +:+ pw);
  argon2_verify_encoded enc pw := Ok (bool_decide (enc = hash_prefix +:+ pw));
|}.

#[export] Instance PlainArgon2_laws : Argon2Laws.
Proof.
  split. intros pw salt _. eexists. split; [done|]. split; [apply starts_with_app|].
  simpl. by rewrite bool_decide_true.
Qed.

(** What the code relies on of the file system and of TOML: a file reads back as it
    was written; a document in which no table has a key twice parses back to what
    it was, up to the order of the entries, and one with a repeated key does not
    parse. *)
Class UserFilesLaws `{UserFiles} : Prop := {
  fs_create_file files path files' :
    fs_create files path = Ok files' → fs_is_dir files' path = false ∧ fs_read files' path = Ok [];
  fs_write_all_ok files path bs files' :
    fs_is_dir files path = false → fs_read files path = Ok [] →
    fs_write_all files path bs = (files', Ok ()) →
    fs_is_dir files' path = false ∧ fs_read files' path = Ok bs;
  toml_roundtrip doc bs :
    keys_unique (TTable doc) → toml_to_vec doc = Ok bs →
    ∃ doc', toml_from_slice bs = Ok doc' ∧ toml_equiv (TTable doc) (TTable doc');
  toml_repeated_key doc bs :
    ¬ keys_unique (TTable doc) → toml_to_vec doc = Ok bs → ∃ e, toml_from_slice bs = Err e;
}.

#[export] Instance MapFiles : UserFiles := {|
  io_error := unit;
  fs := gmap string (list N);
  fs_is_dir _ _ := false;
  fs_exists f p := bool_decide (is_Some (f !! p));
  fs_read f p := ok_or (f !! p) tt;
  fs_create f p := Ok (<[p:=[]]> f);
  fs_write_all f p bs := (<[p:=default [] (f !! p) ++ bs]> f, Ok tt);
  toml_from_slice bs :=
    match bs with
    | [N.pos p] =>
        match decode p with
        | Some doc => if toml_unique (TTable doc) then Ok doc else Err tt
        | None => Err tt
        end
    | _ => Err tt
    end;
  toml_to_vec doc := Ok [N.pos (encode doc)];
|}.

#[export] Instance MapFiles_laws : UserFilesLaws.
Proof.
  split; cbn -[toml_unique encode decode].
  - intros files path files' ?. inv_eqs. split; [done|]. by rewrite lookup_insert_eq.
  - intros files path bs files' _ Hf ?. inv_eqs. split; [done|]. rewrite lookup_insert_eq.
    destruct (files !! path); simpl in *; by inv_eqs.
  - intros doc bs Hu ?. inv_eqs. rewrite decode_encode. apply toml_unique_iff in Hu. rewrite Hu.
    eexists. split; [done|]. apply toml_equiv_refl.
  - intros doc bs Hu ?. inv_eqs. rewrite decode_encode.
    destruct (toml_unique (TTable doc)) eqn:E; [by apply toml_unique_iff in E|]. by eexists.
Qed.

(** ** Loading and dumping *)

Section LoadDump.
Context `{LmdbLaws} `{!LmdbHealthy} `{RkyvLaws User} `{Argon2Laws} `{UserFilesLaws}.
Implicit Types (us : Users.t) (env : Env).

Abbreviation users_of us env := (users_in (Users.userdb us) (env_contents env)).

(** A stored password is an argon2 encoding. *)
Definition passwd_hashed (d : UserData) : Prop :=
  ∀ pw, passwd d = Some pw → starts_with hash_prefix pw = true.

Lemma load_passwd_spec salt pw :
  length salt = 16 →
  ∃ pw', Users.load_passwd salt pw = Done pw' ∧
    (∀ h, pw' = Some h → starts_with hash_prefix h = true) ∧
    (∀ p, pw = Some p → starts_with hash_prefix p = true → pw' = pw) ∧
    (∀ p, pw = Some p → starts_with hash_prefix p = false →
       ∃ h, pw' = Some h ∧ argon2_verify_encoded h p = Ok true) ∧
    (pw = None → pw' = None).
Proof.
  intros Hs. destruct pw as [p|]; simpl.
  - destruct (starts_with hash_prefix p) eqn:Hp.
    + exists (Some p). repeat split; intros; simplify_eq; try done; congruence.
    + destruct (argon2_hash_ok p salt Hs) as (h & -> & Hh & Hv). simpl.
      exists (Some h). repeat split; intros; simplify_eq; eauto; congruence.
  - exists None. by repeat split.
Qed.

(** What [load_users] stores for one entry. *)
Definition loads_to (salts : string → list N) (uid : string) (ud : UserData) (u : User) : Prop :=
  ∃ pw, Users.load_passwd (salts uid) (passwd ud) = Done pw ∧
        u = mkUser uid (set_passwd pw ud).

Lemma load_users_spec us salts entries txn :
  (∀ uid, length (salts uid) = 16) →
  NoDup entries.*1 → Forall (λ p, valid_key p.1) entries →
  ∃ txn', Users.load_users us salts entries txn = Done txn' ∧
    (∀ uid ud, (uid, ud) ∈ entries →
       ∃ u, users_in (Users.userdb us) (txn_contents txn') !! uid = Some u ∧
            loads_to salts uid ud u) ∧
    (∀ uid, uid ∉ entries.*1 →
       users_in (Users.userdb us) (txn_contents txn') !! uid =
       users_in (Users.userdb us) (txn_contents txn) !! uid) ∧
    ∀ d, d ≠ user_dbi (Users.userdb us) → txn_contents txn' d = txn_contents txn d.
Proof.
  intros Hsalt. revert txn. induction entries as [|[uid ud] es IH]; intros txn Hnd Hv; simpl.
  { exists txn. split; [done|]. split; [|by split]. intros ?? Hin. by apply not_elem_of_nil in Hin. }
  apply NoDup_cons in Hnd as [Hni Hnd]. apply Forall_cons in Hv as [Hk Hv]. simpl in *.
  destruct (load_passwd_spec (salts uid) (passwd ud) (Hsalt uid)) as (pw & Hpw & _).
  rewrite Hpw. simpl. set (user := mkUser uid (set_passwd pw ud)).
  destruct (put_txn_spec (Users.userdb us) txn uid user Hk) as (txn1 & -> & Hc1 & Hf1). simpl.
  destruct (IH txn1 Hnd Hv) as (txn2 & Hl & Hin & Hout & Hf2).
  exists txn2. split; [done|]. split; [|split].
  - intros uid' ud' [Heq|Hin']%elem_of_cons; [|by apply Hin]. simplify_eq.
    exists user. rewrite Hout by done. rewrite Hc1, lookup_insert_eq.
    split; [done|]. by exists pw.
  - intros uid' [Hne Hni']%not_elem_of_cons. rewrite Hout by done.
    by rewrite Hc1, lookup_insert_ne.
  - intros d Hd. by rewrite Hf2, Hf1.
Qed.

Lemma load_file_spec us salts files env path f m :
  (∀ uid, length (salts uid) = 16) → (∀ uid, is_Some (m !! uid) → valid_key uid) →
  fs_is_dir files path = false → fs_read files path = Ok f → Users.read_users f = Ok m →
  ∃ env', Users.load_file us salts files env path = Done (Ok env') ∧
    (∀ uid, match m !! uid with
            | Some ud => ∃ u, users_of us env' !! uid = Some u ∧ loads_to salts uid ud u
            | None => users_of us env' !! uid = None
            end) ∧
    ∀ d, d ≠ user_dbi (Users.userdb us) → env_contents env' d = env_contents env d.
Proof.
  intros Hsalt Hkeys Hdir Hread Htoml. unfold Users.load_file. rewrite Hdir, Hread, Htoml.
  destruct (begin_rw_healthy env) as [txn Ht]. rewrite Ht.
  pose proof (begin_rw_contents _ _ Ht) as Hct.
  unfold UserDB.clear_txn, DB.clear, RawDB.clear.
  set (d := RawDB.db (DB.db (UserDB.db (Users.userdb us)))) in *.
  destruct (txn_clear_healthy txn d) as [txn1 Hcl]. rewrite Hcl. simpl.
  destruct (txn_clear_ok _ _ _ Hcl) as [Hclr Hf1].
  destruct (load_users_spec us salts (map_to_list m) txn1)
    as (txn2 & -> & Hin & Hout & Hf2);
    [done|apply NoDup_fst_map_to_list| |].
  { apply Forall_forall. intros [uid ud] Hel%elem_of_map_to_list. simpl. by apply Hkeys; eauto. }
  simpl. destruct (txn_commit_healthy env txn2) as [env' He]. rewrite He.
  pose proof (txn_commit_ok _ _ _ He) as Hce. exists env'. split; [done|]. split.
  - intros uid. unfold users_in. rewrite Hce. destruct (m !! uid) as [ud|] eqn:Hm.
    + apply Hin. by apply elem_of_map_to_list.
    + specialize (Hout uid). unfold users_in in Hout. rewrite Hout.
      * unfold user_dbi, db_of. fold d. by rewrite Hclr, fmap_empty, lookup_empty.
      * intros ([k v] & -> & Hel%elem_of_map_to_list)%list_elem_of_fmap. simpl in Hm. congruence.
  - intros d' Hd'. rewrite Hce, Hf2 by done. rewrite Hf1 by done. apply Hct.
Qed.


(** A dump that succeeds has written the users as a document. *)
Lemma dump_file_ok us files files' env path force n :
  Users.dump_file us files env path force = (files', Ok n) →
  ∃ bs, toml_to_vec (UserDataSerde.serialize_users (userdata <$> users_of us env)) = Ok bs ∧
    fs_is_dir files' path = false ∧ fs_read files' path = Ok bs.
Proof.
  unfold Users.dump_file. case_match; [done|]. rewrite UserDB_get_all_spec.
  destruct (fs_create files path) as [f1|e] eqn:Hc; [|done].
  destruct (toml_to_vec _) as [bs|e] eqn:Ht; [|done].
  destruct (fs_write_all f1 path bs) as [f2 [[]|e]] eqn:Hw; [|done]. intros [= <- _].
  exists bs. split; [done|]. apply fs_create_file in Hc as [Hd Hr]. by apply (fs_write_all_ok f1).
Qed.

(** A user with an entry [roles] in its [kv] makes a dump that cannot be loaded. *)
Theorem dump_clash_unreadable us salts files files' env env0 path force n uid u :
  users_of us env !! uid = Some u → is_Some (kv (userdata u) !! "roles") →
  Users.dump_file us files env path force = (files', Ok n) →
  ∃ e, Users.load_file us salts files' env0 path = Done (Err (TomlError e)).
Proof.
  intros Hu Hr (bs & Hbs & Hdir & Hread)%dump_file_ok.
  destruct (toml_repeated_key (UserDataSerde.serialize_users (userdata <$> users_of us env)) bs) as [e He];
    [|done|].
  { eapply serialize_users_clash; [|exact Hr]. by rewrite lookup_fmap, Hu. }
  exists e. unfold Users.load_file, Users.read_users. by rewrite Hdir, Hread, He.
Qed.

(** C34: dumping the users and loading the dump restores the same users, if each
    user is stored under its own id (a valid key) with a hashed password, and has
    no entry named [roles] or [passwd] in its additional data, which stand beside
    the fields of these names in the file; the salts are of the length argon2
    wants. *)
Theorem dump_load_roundtrip us salts files files' env env0 path force n :
  (∀ uid, length (salts uid) = 16) →
  (∀ uid u, users_of us env !! uid = Some u →
     valid_key uid ∧ id u = uid ∧ passwd_hashed (userdata u) ∧ kv_plain (userdata u)) →
  Users.dump_file us files env path force = (files', Ok n) →
  ∃ env', Users.load_file us salts files' env0 path = Done (Ok env') ∧
    users_of us env' = users_of us env.
Proof.
  intros Hsalt Hwf (bs & Ht & Hdir & Hread)%dump_file_ok.
  assert (map_Forall (λ _ d, kv_plain d) (userdata <$> users_of us env)) as Hpl.
  { intros uid d. rewrite lookup_fmap. intros (u & Hu & ->)%fmap_Some. by apply (Hwf uid u). }
  destruct (toml_roundtrip _ _ (serialize_users_unique _ Hpl) Ht) as (doc & Hdoc & Heq).
  destruct (load_file_spec us salts files' env0 path bs (userdata <$> users_of us env))
    as (env' & Hl & Hu & _); [done| |done..| |].
  { intros uid [ud Hud]. rewrite lookup_fmap in Hud. apply fmap_Some in Hud as (u & Hu & _).
    by apply (Hwf uid u). }
  { unfold Users.read_users. rewrite Hdoc. simpl. by rewrite (users_back _ _ Hpl Heq). }
  exists env'. split; [done|]. apply map_eq. intros uid. specialize (Hu uid).
  rewrite lookup_fmap in Hu. destruct (users_of us env !! uid) as [u|] eqn:Huid; simpl in Hu; [|done].
  destruct Hu as (u' & -> & pw & Hpw & ->). f_equal.
  destruct (Hwf uid u Huid) as (_ & Hid & Hh & _).
  destruct (load_passwd_spec (salts uid) (passwd (userdata u)) (Hsalt uid))
    as (pw' & Hpw' & _ & Hkeep & _ & Hnone). rewrite Hpw in Hpw'. inv_eqs.
  destruct u as [i [r [p|] k]]; simpl in *; [|by rewrite Hnone].
  by rewrite (Hkeep p) by auto.
Qed.

End LoadDump.

Section LoadDumpWitnesses.

Definition demo_users : Users.t := Users.mk (UserDB.mk (DB.mk (RawDB.mk "user"))).
Definition demo_salts (_ : string) : list N := replicate 16 0%N.
Definition demo_file : gmap string UserData :=
  {[ "alice" := mkUserData ["admin"] (Some "secret") ∅ ]}.
Definition demo_fs : @fs MapFiles :=
  {[ "users.toml" := [N.pos (encode (UserDataSerde.serialize_users demo_file))] ]} : gmap string (list N).
Definition no_files : @fs MapFiles := (∅ : gmap string (list N)).
Definition no_env : @Env MapLmdb := (∅ : mapenv).


Definition demo_user : User :=
  mkUser "bob" (mkUserData ["lathe"] (Some "$argon2id$x") {[ "cardkey" := "00" ]}).
Definition demo_env : @Env MapLmdb :=
  ({[ "user" := {[ "bob" := [N.pos (encode demo_user)] ]} ]} : mapenv).

Lemma demo_env_users uid u :
  users_in (Users.userdb demo_users) (env_contents demo_env) !! uid = Some u →
  uid = "bob" ∧ u = demo_user.
Proof.
  unfold users_in. rewrite lookup_fmap.
  change (env_contents demo_env (user_dbi (Users.userdb demo_users)))
    with ({[ "bob" := [N.pos (encode demo_user)] ]} : gmap string (list N)).
  intros (b & [<- <-]%lookup_singleton_Some & ->)%fmap_Some. simpl. by rewrite decode_encode.
Qed.

Lemma dump_load_roundtrip_witness :
  ∃ files' n env',
    Users.dump_file demo_users no_files demo_env "out.toml" false = (files', Ok n) ∧
    Users.load_file demo_users demo_salts files' no_env "out.toml" = Done (Ok env') ∧
    users_in (Users.userdb demo_users) (env_contents env') =
    users_in (Users.userdb demo_users) (env_contents demo_env).
Proof.
  destruct (Users.dump_file demo_users no_files demo_env "out.toml" false) as [files' [n|e]] eqn:Hd.
  2: { exfalso. unfold Users.dump_file in Hd.
       change (fs_exists no_files "out.toml" && negb false) with false in Hd.
       rewrite UserDB_get_all_spec in Hd. discriminate Hd. }
  destruct (dump_load_roundtrip demo_users demo_salts no_files files' demo_env no_env "out.toml" false n)
    as (env' & Hl & Hu).
  - done.
  - intros uid u [-> ->]%demo_env_users. split; [vm_compute; split; lia|]. split; [done|].
    split; [by intros pw [= <-]|done].
  - exact Hd.
  - exists files', n, env'. auto.
Defined.

End LoadDumpWitnesses.
