(* ===== verification/Machine.v ===== *)
(** * Machine state, its database and the audit log
    (bffhd/resources/modules/fabaccess.rs, bffhd/resources/state/mod.rs,
    bffhd/resources/state/db.rs, bffhd/audit.rs, bffhd/config/dhall.rs)

    The data of a machine, the LMDB-backed [StateDB], the audit log, and the
    [World] every request handler runs in: the LMDB environment users and
    states share, the audit log, and the in-memory signal of each resource. *)

From S2P Require Import Prelude Permissions Db Users.

(** ** Data *)

Inductive Status :=
| Free
| InUse (user : UserRef)
| ToCheck (user : UserRef)
| Blocked (user : UserRef)
| Disabled
| Reserved (user : UserRef).

#[export] Instance Status_eq_dec : EqDecision Status.
Proof. solve_decision. Defined.

Record MachineState := mkMachineState {
  state : Status;
  previous : option UserRef;
}.

#[export] Instance MachineState_eq_dec : EqDecision MachineState.
Proof. solve_decision. Defined.

(** [State]: the record the database holds, one field around [MachineState]. *)
Record State := mkState { inner : MachineState }.

#[export] Instance State_eq_dec : EqDecision State.
Proof. solve_decision. Defined.

Module MState.

Definition new : MachineState := mkMachineState Free None.
Definition from (dbstate : State) : MachineState := inner dbstate.
Definition to_state (self : MachineState) : State := mkState self.
Definition free (prev : option UserRef) : MachineState := mkMachineState Free prev.
Definition used (user : UserRef) (prev : option UserRef) : MachineState :=
  mkMachineState (InUse user) prev.
Definition blocked (user : UserRef) (prev : option UserRef) : MachineState :=
  mkMachineState (Blocked user) prev.
Definition disabled (prev : option UserRef) : MachineState := mkMachineState Disabled prev.
Definition reserved (user : UserRef) (prev : option UserRef) : MachineState :=
  mkMachineState (Reserved user) prev.
Definition check (user : UserRef) : MachineState := mkMachineState (ToCheck user) (Some user).

(** [Display for ArchivedMachineState] (and for [ArchivedState]) *)
Definition display (self : MachineState) : string :=
  match state self with
  | Free => "free"
  | InUse user => "inuse " +:+ ref_id user
  | ToCheck user => "tocheck " +:+ ref_id user
  | Blocked user => "blocked " +:+ ref_id user
  | Disabled => "disabled"
  | Reserved user => "reserved " +:+ ref_id user
  end.

End MState.

(** [config::MachineDescription] *)
Record MachineDescription := mkMachineDescription {
  name : string;
  description : option string;
  wiki : option string;
  category : option string;
  privs : Permissions.PrivilegesBuf;
}.

(** [config::ModuleConfig] *)
Record ModuleConfig := mkModuleConfig { mod_name : string; mod_params : gmap string string }.

(** ** Serialized states

    [Resource::set_state] archives a [MachineState] and reads the bytes back as
    an archived [State]. *)
Class RkyvMachine `{Rkyv State} `{Rkyv MachineState} : Prop := {
  rkyv_State :: RkyvLaws State;
  rkyv_MachineState :: RkyvLaws MachineState;
  (** A [State] is laid out as its only field. *)
  rkyv_state_layout (ms : MachineState) b :
    rkyv_serialize ms = Ok b → archived_root (T := State) b = mkState ms;
}.

(** ** [StateDB] *)

Module StateDB.
Section StateDB.
Context `{Lmdb}.

Record t := mk { db : DB.t State }.

Definition get (self : t) (env : Env) (key : string)
  : result (option (ArchivedValue State)) db_error :=
  let? txn := map_err mkDbError (begin_ro_txn env) in
  DB.get (db self) txn key.

Definition get_all (self : t) (txn : Txn)
  : result (list (string * ArchivedValue State)) db_error :=
  DB.get_all (db self) txn.

Definition put (self : t) (env : Env) (key : string) (val : ArchivedValue State)
  : outcome (result Env db_error) :=
  match begin_rw_txn env with
  | Err e => Done (Err (mkDbError e))
  | Ok txn =>
      let! r := DB.put (db self) txn key val in
      match r with
      | Err e => Done (Err e)
      | Ok txn' => Done (map_err mkDbError (txn_commit env txn'))
      end
  end.

End StateDB.
End StateDB.

(** ** The audit log *)

Record AuditLogLine := mkAuditLogLine {
  timestamp : Z;
  machine : string;
  line_state : string;
}.

(** The line-buffered file behind the log's mutex: writing the JSON of a line
    and writing the newline, each of which can fail. *)
Class AuditIo := {
  LineWriter : Type;
  write_json : LineWriter → AuditLogLine → LineWriter * bool;
  write_newline : LineWriter → LineWriter * bool;
  (** the complete lines of the file *)
  audit_lines : LineWriter → list AuditLogLine;
}.

Class AuditIoLaws `{AuditIo} : Prop := {
  audit_append w l w1 w2 :
    write_json w l = (w1, true) → write_newline w1 = (w2, true) →
    audit_lines w2 = audit_lines w ++ [l];
}.

(** A disk that takes what is written. *)
Class AuditIoHealthy `{AuditIo} : Prop := {
  write_json_healthy w l : (write_json w l).2 = true;
  write_newline_healthy w : (write_newline w).2 = true;
}.

Module AuditLog.
Section AuditLog.
Context `{AuditIo}.

(** [AuditLog::log] at time [now]: the serializer's error is [expect]ed, the
    newline's is returned. *)
Definition log (w : LineWriter) (now : Z) (m st : string) : outcome (LineWriter * result () ()) :=
  let line := mkAuditLogLine now m st in
  let (w1, ok1) := write_json w line in
  if ok1 then
    let (w2, ok2) := write_newline w1 in
    Done (w2, if ok2 then Ok () else Err ())
  else Panic.

End AuditLog.
End AuditLog.

(** ** The world *)

Section World.
Context `{Lmdb} `{AuditIo}.

(** [env]: the shared LMDB environment; [audit]: the global [AUDIT] cell;
    [signals]: the [Mutable] of each resource, by resource id; [clock]: the
    time in seconds. *)
Record World := mkWorld {
  env : Env;
  audit : option LineWriter;
  signals : gmap string (ArchivedValue State);
  clock : Z;
}.

Definition set_env (w : World) (e : Env) : World := mkWorld e (audit w) (signals w) (clock w).
Definition set_audit (w : World) (a : LineWriter) : World :=
  mkWorld (env w) (Some a) (signals w) (clock w).
Definition set_signal (w : World) (i : string) (v : ArchivedValue State) : World :=
  mkWorld (env w) (audit w) (<[i := v]> (signals w)) (clock w).

End World.

(** ** Lemmas *)

Section StateDBLemmas.
Context `{LmdbLaws} `{!LmdbHealthy}.
Implicit Types (sdb : StateDB.t) (e : Env).

Definition state_dbi (sdb : StateDB.t) : Dbi := db_of (StateDB.db sdb).

Lemma StateDB_get_spec sdb e k :
  valid_key k →
  StateDB.get sdb e k = Ok (mkArchivedValue <$> env_contents e (state_dbi sdb) !! k).
Proof.
  intros Hk. unfold StateDB.get. destruct (begin_ro_healthy e) as [txn Ht]. rewrite Ht. simpl.
  rewrite DB_get_spec by done. by rewrite (begin_ro_contents _ _ Ht).
Qed.

Lemma StateDB_put_spec sdb e k v :
  valid_key k →
  ∃ e', StateDB.put sdb e k v = Done (Ok e') ∧
    env_contents e' (state_dbi sdb) = <[k := data v]> (env_contents e (state_dbi sdb)) ∧
    ∀ d, d ≠ state_dbi sdb → env_contents e' d = env_contents e d.
Proof.
  intros Hk. unfold StateDB.put. destruct (begin_rw_healthy e) as [txn Ht]. rewrite Ht.
  destruct (DB_put_healthy (StateDB.db sdb) txn k v Hk) as [txn' Hput]. rewrite Hput. simpl.
  destruct (DB_put_ok _ _ _ _ _ Hput) as [Hc Hf].
  destruct (txn_commit_healthy e txn') as [e' He]. rewrite He. exists e'. split; [done|].
  pose proof (txn_commit_ok _ _ _ He) as Hce. pose proof (begin_rw_contents _ _ Ht) as Hct.
  unfold state_dbi. split; [by rewrite Hce, Hc, Hct|].
  intros d Hd. rewrite Hce, Hf by done. apply Hct.
Qed.

End StateDBLemmas.

Section AuditLemmas.
Context `{AuditIoLaws} `{!AuditIoHealthy}.

Lemma audit_log_spec w now m st :
  ∃ w', AuditLog.log w now m st = Done (w', Ok ()) ∧
    audit_lines w' = audit_lines w ++ [mkAuditLogLine now m st].
Proof.
  unfold AuditLog.log. destruct (write_json w _) as [w1 ok1] eqn:E1.
  pose proof (write_json_healthy w (mkAuditLogLine now m st)) as Hj. rewrite E1 in Hj. simpl in Hj.
  subst. destruct (write_newline w1) as [w2 ok2] eqn:E2.
  pose proof (write_newline_healthy w1) as Hn. rewrite E2 in Hn. simpl in Hn. subst.
  exists w2. split; [done|]. by eapply audit_append.
Qed.

End AuditLemmas.

(** ** Instances *)

#[export] Instance Status_countable : Countable Status.
Proof.
  apply (inj_countable'
    (λ s, match s with
          | Free => (0, None) | InUse u => (1, Some u) | ToCheck u => (2, Some u)
          | Blocked u => (3, Some u) | Disabled => (4, None) | Reserved u => (5, Some u)
          end)
    (λ p, match p with
          | (0, _) => Free | (1, Some u) => InUse u | (2, Some u) => ToCheck u
          | (3, Some u) => Blocked u | (4, _) => Disabled | (_, Some u) => Reserved u
          | _ => Free
          end)). by intros [].
Defined.

#[export] Instance MachineState_countable : Countable MachineState.
Proof.
  apply (inj_countable' (λ m, (state m, previous m)) (λ '(s, p), mkMachineState s p)). by intros [].
Defined.

#[export] Instance MachineState_rkyv : Rkyv MachineState := countable_rkyv MState.new.

#[export] Instance State_rkyv : Rkyv State := {|
  rkyv_serialize s := rkyv_serialize (inner s);
  archived_root b := mkState (archived_root b);
|}.

#[export] Instance MachineState_rkyv_laws : RkyvMachine.
Proof.
  split.
  - split. intros [ms]. simpl. eexists. split; [done|]. simpl. by rewrite decode_encode.
  - apply countable_rkyv_laws.
  - intros ms b. simpl. intros ?; inv_eqs. simpl. by rewrite decode_encode.
Qed.

(** A log kept as the list of its lines; the half-written line waits for its
    newline. *)
#[export] Instance ListAudit : AuditIo := {|
  LineWriter := list AuditLogLine * list AuditLogLine;
  write_json w l := ((w.1, w.2 ++ [l]), true);
  write_newline w := ((w.1 ++ w.2, []), true);
  audit_lines w := w.1 ++ w.2;
|}.

#[export] Instance ListAudit_laws : AuditIoLaws.
Proof.
  split. simpl. intros [a b] l w1 w2 ??. inv_eqs. simpl. by rewrite app_nil_r, app_assoc.
Qed.

#[export] Instance ListAudit_healthy : AuditIoHealthy.
Proof. by split. Qed.
