(* ===== verification/Session.v ===== *)
(** * Sessions (bffhd/session/mod.rs) and the authorization interface

    A [SessionHandle] names a user; every permission check looks the user up
    again and asks [Roles.is_permitted].  What the resources and the API need
    of a session is the class [Authorizer]; [session_authorizer] is the
    instance the code uses, and [SessionLaws] discharges its contract. *)

From S2P Require Import Prelude Permissions Roles Db Users Machine.

(** ** The interface *)

(** [session_user]: whom the session acts for; [permits]: whether that user
    has a permission in the current world.  [authorized w s p] is the property
    [permits] decides. *)
Class Authorizer (World Session : Type) := {
  session_user : Session → UserRef;
  permits : World → Session → string → outcome bool;
  (** the sessions whose checks return in that world *)
  session_valid : World → Session → Prop;
  authorized : World → Session → string → Prop;
}.

Class AuthorizerLaws (World Session : Type) `{Authorizer World Session} : Prop := {
  permits_decides w s p :
    session_valid w s → ∃ b, permits w s p = Done b ∧ (b = true ↔ authorized w s p);
}.

(** ** [SessionManager] and [SessionHandle] *)

Module Session.
Section Session.
Context `{Lmdb} `{Rkyv User} `{AuditIo}.

Record SessionManager := mkSessionManager {
  m_users : Users.t;
  m_roles : Roles.t;
}.

Record SessionHandle := mkSessionHandle {
  users : Users.t;
  roles : Roles.t;
  user : UserRef;
}.

(** [SessionManager::open] *)
Definition open (self : SessionManager) (u : User) : SessionHandle :=
  mkSessionHandle (m_users self) (m_roles self) (UserRef_new (id u)).

Definition try_open (self : SessionManager) (w : World) (uid : string)
  : outcome (option SessionHandle) :=
  let! o := Users.get_user (m_users self) (env w) uid in
  Done (open self <$> o).

Definition get_user_ref (self : SessionHandle) : UserRef := user self.

Definition get_user (self : SessionHandle) (w : World) : outcome User :=
  let! o := Users.get_user (users self) (env w) (get_username (user self)) in
  unwrap o.

(** [SessionHandle::has_perm]; the recursion over the roles gets the stack
    depth [fuel]. *)
Definition has_perm (fuel : nat) (self : SessionHandle) (w : World) (perm : string)
  : outcome bool :=
  let! o := Users.get_user (users self) (env w) (get_username (user self)) in
  match o with
  | Some u => Roles.is_permitted fuel (roles self) (Users.roles (userdata u)) perm
  | None => Done false
  end.

End Session.
End Session.

(** [AuthorizationHandle] (authorization/mod.rs) *)
Module AuthorizationHandle.
Section AuthorizationHandle.
Context `{Lmdb} `{Rkyv User} `{AuditIo}.

Record t := mk { users : Users.t; roles : Roles.t }.

Definition new (users : Users.t) (roles : Roles.t) : t := mk users roles.

Definition get_user_roles (self : t) (w : World) (uid : string) : outcome (option (list string)) :=
  let! o := Users.get_user (users self) (env w) uid in
  Done ((λ u, Users.roles (userdata u)) <$> o).

End AuthorizationHandle.
End AuthorizationHandle.

(** ** The instance *)

Section Instance_.
Context `{LmdbLaws} `{!LmdbHealthy} `{RkyvLaws User} `{AuditIo}.

(** The user a session acts for, as the world has it now. *)
Definition session_account (w : World) (s : Session.SessionHandle) : option User :=
  users_in (Users.userdb (Session.users s)) (env_contents (env w))
    !! ref_id (Session.user s).

(** The user still exists and one of its roles grants the permission. *)
Definition session_authorized (w : World) (s : Session.SessionHandle) (p : string) : Prop :=
  ∃ u r, session_account w s = Some u ∧ r ∈ Users.roles (userdata u) ∧
    granted (Session.roles s) p r.

#[export] Instance session_authorizer : Authorizer World Session.SessionHandle := {|
  session_user := Session.get_user_ref;
  permits w s p := Session.has_perm (depth_bound (Session.roles s)) s w p;
  session_valid w s := valid_key (ref_id (Session.user s)) ∧ acyclic (Session.roles s);
  authorized := session_authorized;
|}.

Lemma get_user_spec us e uid :
  valid_key uid →
  Users.get_user us e uid = Done (users_in (Users.userdb us) (env_contents e) !! uid).
Proof.
  intros Hk. unfold Users.get_user. rewrite UserDB_get_spec by done. simpl.
  unfold users_in. rewrite lookup_fmap. by destruct (_ !! uid).
Qed.

(** The roles of an account are those its sessions are judged by. *)
Lemma user_roles_judged w s p rs :
  valid_key (ref_id (Session.user s)) →
  AuthorizationHandle.get_user_roles
    (AuthorizationHandle.new (Session.users s) (Session.roles s)) w (ref_id (Session.user s))
    = Done (Some rs) →
  session_authorized w s p ↔ ∃ r, r ∈ rs ∧ granted (Session.roles s) p r.
Proof.
  intros Hk. unfold AuthorizationHandle.get_user_roles. cbn [AuthorizationHandle.users AuthorizationHandle.new].
  rewrite get_user_spec by done. cbn [outcome_bind]. fold (session_account w s).
  unfold session_authorized. destruct (session_account w s) as [u|]; [|done].
  intros [= <-]. naive_solver.
Qed.

#[export] Instance session_authorizer_laws : AuthorizerLaws World Session.SessionHandle.
Proof.
  split. intros w s p [Hk Hac]. simpl. unfold Session.has_perm, session_authorized, get_username.
  rewrite get_user_spec by done. simpl. fold (session_account w s).
  destruct (session_account w s) as [u|] eqn:Hu.
  - destruct (is_permitted_total (Session.roles s) (depth_bound (Session.roles s))
      (Users.roles (userdata u)) p) as [b Hb]; [done..|].
    exists b. split; [done|]. rewrite (is_permitted_correct _ _ _ _ _ Hb). naive_solver.
  - exists false. split; [done|]. naive_solver.
Qed.

End Instance_.

(** ** Properties *)

Section Properties.
Context `{LmdbLaws} `{!LmdbHealthy} `{RkyvLaws User} `{AuditIo}.

(** C8: a permission check of a session answers for the roles its user has in the
    database now, not for those it had when the session was opened.  If no
    configured role inherits from itself, the user's name is a valid key and the
    database can be read, it returns, and says yes exactly when the user exists
    and one of its present roles grants the permission, directly or through
    parents. *)
Theorem session_checks_current_roles w s p fuel :
  valid_key (ref_id (Session.user s)) → acyclic (Session.roles s) →
  depth_bound (Session.roles s) ≤ fuel →
  ∃ b, Session.has_perm fuel s w p = Done b ∧ (b = true ↔ session_authorized w s p).
Proof.
  intros Hk Hac Hf. unfold Session.has_perm, session_authorized, get_username.
  rewrite get_user_spec by done. simpl. fold (session_account w s).
  destruct (session_account w s) as [u|] eqn:Hu.
  - destruct (is_permitted_total (Session.roles s) fuel (Users.roles (userdata u)) p)
      as [b Hb]; [done..|].
    exists b. split; [done|]. rewrite (is_permitted_correct _ _ _ _ _ Hb). naive_solver.
  - exists false. split; [done|]. naive_solver.
Qed.

(** once a user is deleted, every session already opened for it has
    no permission at all, at any stack depth. *)
Theorem deleted_user_session_powerless w s e p fuel :
  valid_key (ref_id (Session.user s)) →
  Users.del_user (Session.users s) (env w) (ref_id (Session.user s)) = Ok e →
  Session.has_perm fuel s (set_env w e) p = Done false.
Proof.
  intros Hk Hdel. unfold Users.del_user in Hdel.
  pose proof (UserDB_delete_spec (Users.userdb (Session.users s)) (env w) _ Hk) as Hspec.
  rewrite Hdel in Hspec. destruct Hspec as (_ & Husers & _).
  unfold Session.has_perm, get_username. rewrite get_user_spec by done. simpl.
  by rewrite Husers, lookup_delete_eq.
Qed.

End Properties.

Section Witnesses.

Definition demo_world : World := mkWorld demo_env (Some (([], []) : LineWriter)) ∅ 0.
Definition demo_session : Session.SessionHandle :=
  Session.mkSessionHandle demo_users demo_roles (mkUserRef "bob").

Lemma demo_key : valid_key "bob".
Proof. vm_compute. split; lia. Qed.

Lemma session_checks_current_roles_witness :
  ∃ b, Session.has_perm 3 demo_session demo_world "lab.use.lathe" = Done b ∧
    (b = true ↔ session_authorized demo_world demo_session "lab.use.lathe").
Proof.
  apply session_checks_current_roles; [apply demo_key|apply demo_acyclic|vm_compute; lia].
Defined.

Lemma deleted_user_session_powerless_witness :
  ∃ e, Users.del_user demo_users demo_env "bob" = Ok e ∧
    Session.has_perm 3 demo_session (set_env demo_world e) "lab.use.lathe" = Done false.
Proof.
  destruct (Users.del_user demo_users demo_env "bob") as [e|er] eqn:Hd; [|by vm_compute in Hd].
  exists e. split; [done|].
  apply deleted_user_session_powerless; [apply demo_key|exact Hd].
Defined.

End Witnesses.
