(* ===== verification/Resources.v ===== *)
(** * Resources (bffhd/resources/mod.rs, bffhd/resources/search.rs, and their
    creation in bffhd/lib.rs)

    A [Resource] is a machine with its id and description; its state lives in
    the state database and, as the last value written, in its in-memory
    signal.  The operations are proved against the [Authorizer] interface of
    sessions. *)

From S2P Require Import Prelude Permissions Roles Db Users Machine Session.

(** [resources::Inner]: the signal is kept in the world under the id. *)
Section Data.
Context `{Lmdb}.

Record Resource := mkResource {
  r_id : string;
  r_db : StateDB.t;
  r_desc : MachineDescription;
}.

End Data.

(** ** Operations *)

Module Resource.
Section Resource.
Context `{Lmdb} `{Rkyv State} `{Rkyv MachineState} `{AuditIo}.
Context {Session : Type} `{!Authorizer World Session}.
Implicit Types (w : World) (self : Resource).

(** [Inner::new]: adopt the state the database has, or store the default. *)
Definition new w (i : string) (db : StateDB.t) (desc : MachineDescription)
  : outcome (World * Resource) :=
  let! o := unwrap_ok (StateDB.get db (env w) i) in
  match o with
  | Some prev => Done (set_signal w i prev, mkResource i db desc)
  | None =>
      let! bytes := unwrap_ok (rkyv_serialize (MState.to_state (MState.free None))) in
      let val := ArchivedVal.new bytes in
      let! r := StateDB.put db (env w) i val in
      let! e := unwrap_ok r in
      Done (set_signal (set_env w e) i val, mkResource i db desc)
  end.

(** [get_state]: from the database, both errors [expect]ed away. *)
Definition get_state w self : outcome State :=
  let! o := unwrap_ok (StateDB.get (r_db self) (env w) (r_id self)) in
  let! v := unwrap o in
  Done (ArchivedVal.as_ref v).

(** [get_state_ref]: the value of the signal. *)
Definition get_state_ref w self : outcome State :=
  let! v := unwrap (signals w !! r_id self) in
  Done (ArchivedVal.as_ref v).

(** [Inner::set_state]: database, audit log, signal; an error of the audit log
    is only reported. *)
Definition inner_set_state w self (val : ArchivedValue State) : outcome World :=
  let! r := StateDB.put (r_db self) (env w) (r_id self) val in
  let! e := unwrap_ok r in
  let w := set_env w e in
  let! log := unwrap (audit w) in
  let! (log', _) :=
    AuditLog.log log (clock w) (r_id self) (MState.display (inner (ArchivedVal.as_ref val))) in
  Done (set_signal (set_audit w log') (r_id self) val).

(** [Resource::set_state]: the bytes of a [MachineState]. *)
Definition set_state w self (ms : MachineState) : outcome World :=
  let! bytes := unwrap_ok (rkyv_serialize ms) in
  inner_set_state w self (ArchivedVal.new bytes).

Definition get_id self : string := r_id self.
Definition get_name self : string := name (r_desc self).
Definition get_required_privs self : Permissions.PrivilegesBuf := privs (r_desc self).

Definition get_current_user w self : outcome (option UserRef) :=
  let! st := get_state_ref w self in
  Done (match state (inner st) with
        | Blocked user | InUse user | Reserved user | ToCheck user => Some user
        | _ => None
        end).

Definition get_previous_user w self : outcome (option UserRef) :=
  let! st := get_state_ref w self in
  Done (previous (inner st)).

(** The permissions of a resource, asked of the session. *)
Definition has_disclose w (session : Session) self : outcome bool :=
  permits w session (Permissions.as_permission (Permissions.disclose (get_required_privs self))).
Definition has_read w (session : Session) self : outcome bool :=
  permits w session (Permissions.as_permission (Permissions.read (get_required_privs self))).
Definition has_write w (session : Session) self : outcome bool :=
  permits w session (Permissions.as_permission (Permissions.write (get_required_privs self))).
Definition has_manage w (session : Session) self : outcome bool :=
  permits w session (Permissions.as_permission (Permissions.manage (get_required_privs self))).

(** [set_status]: the previous user stays. *)
Definition set_status w self (new : Status) : outcome World :=
  let! old := get_state w self in
  set_state w self (mkMachineState new (previous (inner old))).

(** The decision tree for writers. *)
Definition writer_may (user : UserRef) (old new : Status) : bool :=
  match old, new with
  | Free, InUse who => bool_decide (who = user)
  | Free, Reserved whom => bool_decide (user = whom)
  | InUse who, (Free | ToCheck _) => bool_decide (who = user)
  | Reserved whom, Free => bool_decide (whom = user)
  | Reserved whom, InUse who => bool_decide (whom = user) && bool_decide (who = whom)
  | _, _ => false
  end.

(** What everybody may do. *)
Definition everyone_may (user : UserRef) (old new : Status) : bool :=
  match old, new with
  | InUse who, (Free | ToCheck _) => bool_decide (who = user)
  | Reserved whom, Free => bool_decide (whom = user)
  | _, _ => false
  end.

(** The guard of [try_update], with its short circuits. *)
Definition update_allowed w self (session : Session) (old new : Status) : outcome bool :=
  let user := session_user session in
  let! manage := has_manage w session self in
  if manage then Done true
  else
    let! write := has_write w session self in
    if write && writer_may user old new then Done true
    else Done (everyone_may user old new).

Definition try_update w self (session : Session) (new : Status) : outcome World :=
  let! old := get_state w self in
  let! allowed := update_allowed w self session (state (inner old)) new in
  if allowed then set_status w self new else Done w.

Definition give_back w self (session : Session) : outcome World :=
  let! st := get_state w self in
  match state (inner st) with
  | InUse user =>
      let current := session_user session in
      if decide (user = current) then set_state w self (MState.free (Some current))
      else Done w
  | _ => Done w
  end.

Definition force_set w self (new : Status) : outcome World := set_status w self new.

Definition is_owned_by w self (owner : UserRef) : outcome bool :=
  let! st := get_state w self in
  Done (match state (inner st) with
        | Free | Disabled => false
        | InUse user | ToCheck user | Blocked user | Reserved user => bool_decide (user = owner)
        end).

Definition visible w self (session : Session) : outcome bool :=
  let! d := has_disclose w session self in
  if d then Done true else is_owned_by w self (session_user session).

End Resource.
End Resource.

(** [search::ResourcesHandle] *)
Module Search.
Section Search.
Context `{Lmdb}.

Record ResourcesHandle := mk { by_id : gmap string Resource }.

(** [Inner::new]: asserts that no id was there before. *)
Fixpoint insert_all (m : gmap string Resource) (l : list Resource)
  : outcome (gmap string Resource) :=
  match l with
  | [] => Done m
  | r :: l' =>
      match m !! r_id r with
      | Some _ => Panic
      | None => insert_all (<[r_id r := r]> m) l'
      end
  end.

Definition new (l : list Resource) : outcome ResourcesHandle :=
  let! m := insert_all ∅ l in Done (mk m).

Definition list_all (self : ResourcesHandle) : list Resource := (map_to_list (by_id self)).*2.

Definition get_by_id (self : ResourcesHandle) (i : string) : option Resource := by_id self !! i.

Definition get_by_urn (self : ResourcesHandle) (urn : string) : option Resource :=
  let parts := split_terminator ":" urn in
  let part_is (i : nat) (s : string) := bool_decide (parts !! i = Some s) in
  if part_is 0 "urn" && part_is 1 "fabaccess" && part_is 2 "resource" then
    match parts !! 3 with
    | Some i => get_by_id self i
    | None => None
    end
  else None.

End Search.
End Search.

(** The resources of [Difluoroborane::new]: one per configured machine. *)
Module Boot.
Section Boot.
Context `{Lmdb} `{Rkyv State} `{Rkyv MachineState} `{AuditIo}.

Definition create (db : StateDB.t) (acc : World * list Resource)
  (m : string * MachineDescription) : outcome (World * list Resource) :=
  let! (w, r) := Resource.new acc.1 m.1 db m.2 in
  Done (w, acc.2 ++ [r]).

Definition resources (w : World) (db : StateDB.t) (machines : gmap string MachineDescription)
  : outcome (World * Search.ResourcesHandle) :=
  let! (w', l) := for_loop (create db) (w, []) (map_to_list machines) in
  let! h := Search.new l in
  Done (w', h).

End Boot.
End Boot.

(** ** Specification *)

Section Spec.
Context `{Lmdb} `{Rkyv State} `{Rkyv MachineState} `{AuditIo}.
Implicit Types (w : World) (r : Resource).

(** The state of a machine: what the database has for it. *)
Definition stored w r : option (list N) :=
  env_contents (env w) (state_dbi (r_db r)) !! r_id r.

Definition machine_of w r : option MachineState :=
  (λ b, inner (archived_root b)) <$> stored w r.

(** A resource in working order: its key is one the database takes, its
    signal shows what the database stores, and the audit log is open. *)
Record coherent w r : Prop := mkCoherent {
  coh_key : valid_key (r_id r);
  coh_signal : ∃ v, signals w !! r_id r = Some v ∧ stored w r = Some (data v);
  coh_audit : is_Some (audit w);
}.

(** The lines of the audit log. *)
Definition audit_of w : list AuditLogLine :=
  match audit w with Some l => audit_lines l | None => [] end.

(** [w'] is [w] with the state of [r] replaced by [ms], which was logged; no
    other machine and no other database changed. *)
Record updated w r (ms : MachineState) w' : Prop := mkUpdated {
  upd_state : machine_of w' r = Some ms;
  upd_coherent : coherent w' r;
  upd_audit : audit_of w' = audit_of w ++ [mkAuditLogLine (clock w) (r_id r) (MState.display ms)];
  upd_other : ∀ k, k ≠ r_id r →
    env_contents (env w') (state_dbi (r_db r)) !! k =
      env_contents (env w) (state_dbi (r_db r)) !! k ∧
    signals w' !! k = signals w !! k;
  upd_dbs : ∀ d, d ≠ state_dbi (r_db r) → env_contents (env w') d = env_contents (env w) d;
}.

End Spec.

(** Who may change a machine from one status to another: [manager] and
    [writer] say which privilege the acting user holds on the machine. *)
Inductive may_update (manager writer : Prop) (user : UserRef) : Status → Status → Prop :=
| may_manage old new : manager → may_update manager writer user old new
| may_take : writer → may_update manager writer user Free (InUse user)
| may_reserve : writer → may_update manager writer user Free (Reserved user)
| may_claim : writer → may_update manager writer user (Reserved user) (InUse user)
| may_return : may_update manager writer user (InUse user) Free
| may_hand_in u : may_update manager writer user (InUse user) (ToCheck u)
| may_unreserve : may_update manager writer user (Reserved user) Free.

Lemma may_update_mono (P Q P' Q' : Prop) u a b :
  (P → P') → (Q → Q') → may_update P Q u a b → may_update P' Q' u a b.
Proof. intros HP HQ []; constructor; tauto. Qed.

Lemma may_update_iff (P Q P' Q' : Prop) u a b :
  (P ↔ P') → (Q ↔ Q') → may_update P Q u a b ↔ may_update P' Q' u a b.
Proof. intros HP HQ. split; apply may_update_mono; tauto. Qed.

(** ** Lemmas *)

Section Lemmas.
Context `{LmdbLaws} `{!LmdbHealthy} `{HS : Rkyv State} `{HM : Rkyv MachineState} `{!RkyvMachine}.
Context `{AuditIoLaws} `{!AuditIoHealthy}.
Context {Session : Type} `{AuthorizerLaws World Session}.
Implicit Types (w : World) (r : Resource) (s : Session).

Lemma get_state_stored w r ms :
  valid_key (r_id r) → machine_of w r = Some ms → Resource.get_state w r = Done (mkState ms).
Proof.
  intros Hk Hm. unfold Resource.get_state. rewrite StateDB_get_spec by done. simpl.
  fold (stored w r). unfold machine_of in Hm. destruct (stored w r) as [b|]; [|done].
  simpl in *. inv_eqs. unfold ArchivedVal.as_ref, ArchivedVal.as_slice. simpl.
  by destruct (archived_root b).
Qed.

Lemma get_state_spec w r ms :
  coherent w r → machine_of w r = Some ms → Resource.get_state w r = Done (mkState ms).
Proof. intros [Hk _ _]. by apply get_state_stored. Qed.

(** The signal shows the same state as the database. *)
Lemma get_state_ref_spec w r ms :
  coherent w r → machine_of w r = Some ms → Resource.get_state_ref w r = Done (mkState ms).
Proof.
  intros [_ (v & Hv & Hs) _] Hm. unfold Resource.get_state_ref. rewrite Hv. simpl.
  unfold machine_of in Hm. rewrite Hs in Hm. simpl in Hm. inv_eqs.
  unfold ArchivedVal.as_ref, ArchivedVal.as_slice. by destruct (archived_root (data v)).
Qed.

Lemma coherent_machine w r : coherent w r → ∃ ms, machine_of w r = Some ms.
Proof. intros [_ (v & _ & Hs) _]. unfold machine_of. rewrite Hs. simpl. eauto. Qed.

Lemma set_state_spec w r ms :
  valid_key (r_id r) → is_Some (audit w) →
  ∃ w', Resource.set_state w r ms = Done w' ∧ updated w r ms w'.
Proof.
  intros Hk [log Hlog]. unfold Resource.set_state.
  destruct (rkyv_roundtrip (T := MachineState) ms) as (b & Hb & _). rewrite Hb. simpl.
  pose proof (rkyv_state_layout ms b Hb) as Hroot. unfold Resource.inner_set_state, ArchivedVal.new.
  destruct (StateDB_put_spec (r_db r) (env w) (r_id r) (mkArchivedValue b) Hk)
    as (e & -> & Hc & Hd). simpl. rewrite Hlog. simpl.
  unfold ArchivedVal.as_ref. simpl. rewrite Hroot. simpl.
  destruct (audit_log_spec log (clock w) (r_id r) (MState.display ms)) as (log' & -> & Hl).
  simpl. eexists. split; [done|].
  assert (stored (set_signal (set_audit (set_env w e) log') (r_id r) (mkArchivedValue b)) r = Some b)
    as Hst. { unfold stored. simpl. by rewrite Hc, lookup_insert_eq. }
  split.
  - unfold machine_of. rewrite Hst. simpl. by rewrite Hroot.
  - split; [done| |by eexists]. exists (mkArchivedValue b). simpl.
    by rewrite lookup_insert_eq.
  - unfold audit_of. simpl. by rewrite Hl, Hlog.
  - intros k Hne. simpl. by rewrite Hc, !lookup_insert_ne.
  - intros d Hdd. simpl. by apply Hd.
Qed.

Lemma set_status_spec w r ms new :
  coherent w r → machine_of w r = Some ms →
  ∃ w', Resource.set_status w r new = Done w' ∧
    updated w r (mkMachineState new (previous ms)) w'.
Proof.
  intros Hc Hm. unfold Resource.set_status. rewrite (get_state_spec w r ms) by done. simpl.
  apply set_state_spec; apply Hc.
Qed.

(** The writers' table and everybody's table together are [may_update]. *)
Lemma may_update_tables (manager writer : bool) user old new :
  (manager || (writer && Resource.writer_may user old new) ||
     Resource.everyone_may user old new) = true ↔
  may_update (manager = true) (writer = true) user old new.
Proof.
  split.
  - destruct manager; [intros; by apply may_manage|].
    destruct old, new; simpl; rewrite ?andb_false_r; try done;
      repeat case_bool_decide; subst; simpl; rewrite ?andb_false_r; try done; intros Hb;
      (constructor; by destruct writer).
  - intros [? ? Hm|Hw|Hw|Hw| |?|]; try rewrite Hm; try rewrite Hw; simpl; rewrite ?bool_decide_true by done; simpl;
      by rewrite ?orb_true_r.
Qed.

Lemma update_allowed_spec w r s old new :
  session_valid w s →
  ∃ b, Resource.update_allowed w r s old new = Done b ∧
    (b = true ↔ may_update
       (authorized w s (Permissions.as_permission (Permissions.manage (privs (r_desc r)))))
       (authorized w s (Permissions.as_permission (Permissions.write (privs (r_desc r)))))
       (session_user s) old new).
Proof.
  intros Hv. unfold Resource.update_allowed, Resource.has_manage, Resource.has_write.
  destruct (permits_decides w s (Permissions.as_permission
    (Permissions.manage (Resource.get_required_privs r))) Hv) as (m & -> & Hm).
  destruct (permits_decides w s (Permissions.as_permission
    (Permissions.write (Resource.get_required_privs r))) Hv) as (wr & -> & Hw). simpl.
  pose proof (may_update_tables m wr (session_user s) old new) as Ht.
  rewrite (may_update_iff _ _ _ _ _ _ _ Hm Hw) in Ht.
  destruct m; [by exists true|].
  destruct (wr && Resource.writer_may (session_user s) old new) eqn:E; simpl in *; [by exists true|].
  eexists. split; [done|]. exact Ht.
Qed.

(** *** Requests over time *)

(** What can be asked of a machine through the API and by initiators. *)
Inductive request :=
| ReqUpdate (s : Session) (new : Status)
| ReqGiveBack (s : Session)
| ReqForce (new : Status).

Definition handle w r (q : request) : outcome World :=
  match q with
  | ReqUpdate s new => Resource.try_update w r s new
  | ReqGiveBack s => Resource.give_back w r s
  | ReqForce new => Resource.force_set w r new
  end.

Definition request_valid w (q : request) : Prop :=
  match q with
  | ReqUpdate s _ => session_valid w s
  | _ => True
  end.

(** The machines of a server: distinct ids on one database, all in working
    order. *)
Definition registry (db : StateDB.t) (h : Search.ResourcesHandle) w : Prop :=
  ∀ i r, Search.get_by_id h i = Some r → r_id r = i ∧ r_db r = db ∧ coherent w r.

(** Requests, one after the other, each handled to its end and each
    satisfying [P] when it arrives. *)
Inductive run (P : World → string → request → Prop) (h : Search.ResourcesHandle)
  : World → World → Prop :=
| run_nil w : run P h w w
| run_cons w i r q w1 w2 :
    Search.get_by_id h i = Some r → request_valid w q → P w i q →
    handle w r q = Done w1 → run P h w1 w2 → run P h w w2.

(** One request leaves the world alone or updates its machine to [next]. *)
Definition next_state w r (q : request) (old : MachineState) (ms : MachineState) : Prop :=
  match q with
  | ReqUpdate s new =>
      ms = mkMachineState new (previous old) ∧
      may_update
        (authorized w s (Permissions.as_permission (Permissions.manage (privs (r_desc r)))))
        (authorized w s (Permissions.as_permission (Permissions.write (privs (r_desc r)))))
        (session_user s) (state old) new
  | ReqGiveBack s =>
      state old = InUse (session_user s) ∧ ms = MState.free (Some (session_user s))
  | ReqForce new => ms = mkMachineState new (previous old)
  end.

Lemma handle_spec w r q old :
  coherent w r → machine_of w r = Some old → request_valid w q →
  ∃ w', handle w r q = Done w' ∧
    ((∃ ms, next_state w r q old ms ∧ updated w r ms w') ∨
     (w' = w ∧ ∀ ms, ¬ next_state w r q old ms)).
Proof.
  intros Hc Hm Hv. destruct q as [s new|s|new]; simpl in *.
  - unfold Resource.try_update. rewrite (get_state_spec w r old) by done. simpl.
    destruct (update_allowed_spec w r s (state old) new Hv) as (b & -> & Hb). simpl.
    destruct b.
    + destruct (set_status_spec w r old new Hc Hm) as (w' & -> & Hu). exists w'.
      split; [done|]. left. exists (mkMachineState new (previous old)). split; [|done].
      split; [done|]. tauto.
    + exists w. split; [done|]. right. split; [done|]. intros ms [_ Hmay].
      by apply Hb in Hmay.
  - unfold Resource.give_back. rewrite (get_state_spec w r old) by done. simpl.
    destruct (state old) as [|u|u|u| |u];
      try (exists w; split; [done|]; right; split; [done|]; by intros ms [? _]).
    case_decide as Hu; simpl.
    + subst. destruct (set_state_spec w r (MState.free (Some (session_user s)))) as (w' & -> & Hu);
        [apply Hc..|]. eauto 10.
    + exists w. split; [done|]. right. split; [done|]. intros ms [? _]. congruence.
  - unfold Resource.force_set.
    destruct (set_status_spec w r old new Hc Hm) as (w' & -> & Hu). eauto 10.
Qed.

(** An update of one machine keeps the others. *)
Lemma updated_frame w r ms w' r2 :
  updated w r ms w' → r_id r2 ≠ r_id r → r_db r2 = r_db r → coherent w r2 →
  coherent w' r2 ∧ machine_of w' r2 = machine_of w r2.
Proof.
  intros Hu Hne Hdb [Hk (v & Hv & Hs) _]. destruct (upd_other _ _ _ _ Hu _ Hne) as [Ho Hsig].
  assert (stored w' r2 = stored w r2) as Hst.
  { unfold stored. by rewrite Hdb, Ho. }
  split; [|by unfold machine_of; rewrite Hst].
  split; [done| |apply (upd_coherent _ _ _ _ Hu)]. exists v. by rewrite Hsig, Hst.
Qed.

Lemma registry_step db h w i r q w' :
  registry db h w → Search.get_by_id h i = Some r → request_valid w q →
  handle w r q = Done w' → registry db h w'.
Proof.
  intros Hreg Hi Hv Hh. destruct (Hreg i r Hi) as (Hid & Hdb & Hc).
  destruct (coherent_machine w r Hc) as [old Hold].
  destruct (handle_spec w r q old Hc Hold Hv) as (w1 & Hh1 & Hcase).
  rewrite Hh in Hh1. inv_eqs. destruct Hcase as [(ms & _ & Hu)|[-> _]]; [|done].
  intros j r2 Hj. destruct (Hreg j r2 Hj) as (Hid2 & Hdb2 & Hc2). split_and!; [done..|].
  destruct (decide (r_id r2 = r_id r)) as [Heq|Hne].
  - assert (r2 = r) as -> by congruence. apply Hu.
  - eapply updated_frame; [done..|congruence|done].
Qed.

Lemma registry_run P db h w w' : registry db h w → run P h w w' → registry db h w'.
Proof. intros Hreg Hrun. induction Hrun; [done|]. eauto using registry_step. Qed.

End Lemmas.

(** ** Searching and booting *)

Section SearchLemmas.
Context `{Lmdb}.

Lemma insert_all_spec (m : gmap string Resource) l :
  NoDup (r_id <$> l) → (∀ r, r ∈ l → m !! r_id r = None) →
  ∃ m', Search.insert_all m l = Done m' ∧
    ∀ i r, m' !! i = Some r ↔ m !! i = Some r ∨ (r ∈ l ∧ r_id r = i).
Proof.
  revert m. induction l as [|x l IH]; intros m Hnd Hm; simpl.
  { exists m. split; [done|]. intros i r. split; [by left|].
    intros [?|[?%not_elem_of_nil _]]; done. }
  rewrite (Hm x) by left. apply NoDup_cons in Hnd as [Hx Hnd].
  destruct (IH (<[r_id x := x]> m)) as (m' & -> & Hm'); [done| |].
  { intros r Hr. rewrite lookup_insert_ne; [apply Hm; by right|].
    intros Heq. apply Hx. rewrite Heq. by apply list_elem_of_fmap_2. }
  exists m'. split; [done|]. intros i r. rewrite Hm', lookup_insert_Some, elem_of_cons.
  destruct (decide (r_id x = i)) as [<-|Hne]; [|naive_solver].
  rewrite (Hm x) by left. naive_solver.
Qed.

End SearchLemmas.

Section BootLemmas.
Context `{LmdbLaws} `{!LmdbHealthy} `{HS : Rkyv State} `{HM : Rkyv MachineState} `{!RkyvMachine}.
Context `{AuditIo}.
Implicit Types (w : World).

(** A machine after [Resource.new]: as stored before, or the default. *)
Lemma resource_new_spec w i db desc :
  valid_key i → is_Some (audit w) →
  ∃ w', Resource.new w i db desc = Done (w', mkResource i db desc) ∧
    coherent w' (mkResource i db desc) ∧
    machine_of w' (mkResource i db desc) =
      Some (default MState.new (machine_of w (mkResource i db desc))) ∧
    audit w' = audit w ∧
    (∀ k, k ≠ i → signals w' !! k = signals w !! k ∧
       env_contents (env w') (state_dbi db) !! k = env_contents (env w) (state_dbi db) !! k) ∧
    (∀ d, d ≠ state_dbi db → env_contents (env w') d = env_contents (env w) d).
Proof.
  intros Hk Ha. unfold Resource.new. rewrite StateDB_get_spec by done. simpl.
  unfold machine_of, stored. simpl.
  destruct (env_contents (env w) (state_dbi db) !! i) as [b|] eqn:Hb; simpl.
  - eexists. split; [done|]. split_and!; [|simpl; by rewrite Hb|done| |done].
    + split; simpl; [done| |done]. exists (mkArchivedValue b).
      unfold stored. simpl. by rewrite lookup_insert_eq, Hb.
    + intros k Hne. simpl. by rewrite lookup_insert_ne.
  - destruct (rkyv_roundtrip (T := State) (MState.to_state (MState.free None))) as (b & -> & Hroot).
    simpl. destruct (StateDB_put_spec db (env w) i (ArchivedVal.new b) Hk) as (e & -> & Hc & Hd).
    simpl in *. eexists. split; [done|]. split_and!; [| |done| |done].
    + split; simpl; [done| |done]. exists (mkArchivedValue b).
      unfold stored. simpl. by rewrite Hc, !lookup_insert_eq.
    + simpl. rewrite Hc, lookup_insert_eq. simpl. by rewrite Hroot.
    + intros k Hne. simpl. by rewrite Hc, !lookup_insert_ne.
Qed.

Abbreviation resource_of db := (λ m : string * MachineDescription, mkResource m.1 db m.2).

(** What a creation leaves alone: the entries of the keys outside [ks]. *)
Definition outside (ks : list string) db w w' : Prop :=
  audit w' = audit w ∧
  (∀ k, k ∉ ks → signals w' !! k = signals w !! k ∧
     env_contents (env w') (state_dbi db) !! k = env_contents (env w) (state_dbi db) !! k) ∧
  (∀ d, d ≠ state_dbi db → env_contents (env w') d = env_contents (env w) d).

Lemma outside_machine ks db w w' r :
  outside ks db w w' → r_id r ∉ ks → r_db r = db → machine_of w' r = machine_of w r.
Proof. intros (_ & Hk & _) Hr <-. unfold machine_of, stored. by rewrite (proj2 (Hk _ Hr)). Qed.

Lemma outside_coherent ks db w w' r :
  outside ks db w w' → r_id r ∉ ks → r_db r = db → coherent w r → coherent w' r.
Proof.
  intros (Ha & Hk & _) Hr <- [Hkey (v & Hv & Hs) Haud]. destruct (Hk _ Hr) as [Hsig Hst].
  split; [done| |by rewrite Ha]. exists v. unfold stored. by rewrite Hsig, Hst.
Qed.

Lemma boot_loop_spec db ms w l :
  NoDup ms.*1 → Forall (λ m, valid_key m.1) ms → is_Some (audit w) →
  ∃ w', for_loop (Boot.create db) (w, l) ms = Done (w', l ++ (resource_of db <$> ms)) ∧
    outside ms.*1 db w w' ∧
    ∀ m, m ∈ ms → coherent w' (resource_of db m) ∧
      machine_of w' (resource_of db m) = Some (default MState.new (machine_of w (resource_of db m))).
Proof.
  revert w l. induction ms as [|[i d] ms IH]; intros w l Hnd Hk Ha; simpl.
  { exists w. rewrite app_nil_r. split; [done|]. split; [by split_and!|].
    by intros m ?%not_elem_of_nil. }
  apply NoDup_cons in Hnd as [Hi Hnd]. apply Forall_cons in Hk as [Hki Hk]. simpl in *.
  unfold Boot.create at 1. simpl.
  destruct (resource_new_spec w i db d Hki Ha) as (w1 & -> & Hc1 & Hm1 & Ha1 & Hf1 & Hd1). simpl.
  destruct (IH w1 (l ++ [mkResource i db d])) as (w2 & -> & Hout & Heach); [done..|by rewrite Ha1|].
  destruct Hout as (Ha2 & Hf2 & Hd2).
  exists w2. split; [by rewrite <- app_assoc|]. split.
  { split_and!; [congruence| |].
    - intros k [Hne Hkk]%not_elem_of_cons. destruct (Hf2 k Hkk), (Hf1 k Hne). split; congruence.
    - intros d' Hd'. by rewrite Hd2, Hd1. }
  intros m [->|Hm]%elem_of_cons; simpl.
  - split; [by eapply (outside_coherent ms.*1)|].
    rewrite <- Hm1. by eapply (outside_machine ms.*1).
  - destruct (Heach m Hm) as [Hcm Hmm]. split; [done|]. rewrite Hmm. do 2 f_equal.
    assert (m.1 ≠ i) as Hne. { intros <-. apply Hi. by apply list_elem_of_fmap_2. }
    unfold machine_of, stored. simpl. by rewrite (proj2 (Hf1 _ Hne)).
Qed.

Lemma boot_spec w db machines :
  (∀ i, is_Some (machines !! i) → valid_key i) → is_Some (audit w) →
  ∃ w' h, Boot.resources w db machines = Done (w', h) ∧
    (∀ i r, Search.get_by_id h i = Some r ↔
       ∃ d, machines !! i = Some d ∧ r = mkResource i db d) ∧
    (∀ i r, Search.get_by_id h i = Some r →
       coherent w' r ∧ machine_of w' r = Some (default MState.new (machine_of w r))) ∧
    (∀ d, d ≠ state_dbi db → env_contents (env w') d = env_contents (env w) d).
Proof.
  intros Hk Ha. unfold Boot.resources.
  destruct (boot_loop_spec db (map_to_list machines) w []) as (w' & -> & (_ & _ & Hd) & Heach);
    [apply NoDup_fst_map_to_list| |done|].
  { apply Forall_forall. intros [i d] Hin%elem_of_map_to_list. simpl. eauto. }
  simpl. unfold Search.new.
  destruct (insert_all_spec ∅ (resource_of db <$> map_to_list machines)) as (m & -> & Hm).
  { rewrite <- list_fmap_compose. apply NoDup_fst_map_to_list. }
  { intros. apply lookup_empty. }
  simpl. exists w', (Search.mk m). split; [done|].
  assert (∀ i r, Search.get_by_id (Search.mk m) i = Some r ↔
       ∃ d, machines !! i = Some d ∧ r = mkResource i db d) as Hget.
  { intros i r. unfold Search.get_by_id. simpl. rewrite Hm, lookup_empty, list_elem_of_fmap. split.
    - intros [?|[([k d] & -> & Hin%elem_of_map_to_list) <-]]; [done|]. simpl in *. eauto.
    - intros (d & Hd' & ->). right. split; [|done]. exists (i, d).
      by rewrite elem_of_map_to_list. }
  split; [done|]. split; [|done].
  intros i r (d & Hin & ->)%Hget. apply (Heach (i, d)). by apply elem_of_map_to_list.
Qed.

End BootLemmas.

(** ** Properties *)

Section Properties.
Context `{LmdbLaws} `{!LmdbHealthy} `{HS : Rkyv State} `{HM : Rkyv MachineState} `{!RkyvMachine}.
Context `{AuditIoLaws} `{!AuditIoHealthy}.
Context {Session : Type} `{AuthorizerLaws World Session}.
Implicit Types (w : World) (r : Resource) (s : Session).

Abbreviation manager w s r :=
  (authorized w s (Permissions.as_permission (Permissions.manage (privs (r_desc r))))).
Abbreviation writer w s r :=
  (authorized w s (Permissions.as_permission (Permissions.write (privs (r_desc r))))).

(** C1: a status change is carried out exactly when the transition table
    allows it: managers may do anything; writers may take or reserve a free
    machine for themselves and take the one they reserved; everybody may give
    back or hand in what they use and drop their own reservation.  When it is
    carried out the new status is stored, shown by the signal and logged, the
    previous user stays, and no other machine changes; otherwise nothing
    changes. *)
Theorem try_update_follows_table w r s old new :
  coherent w r → machine_of w r = Some old → session_valid w s →
  ∃ w', Resource.try_update w r s new = Done w' ∧
    (may_update (manager w s r) (writer w s r) (session_user s) (state old) new ∧
       updated w r (mkMachineState new (previous old)) w' ∨
     ¬ may_update (manager w s r) (writer w s r) (session_user s) (state old) new ∧ w' = w).
Proof.
  intros Hc Hm Hv. destruct (handle_spec w r (ReqUpdate s new) old Hc Hm Hv)
    as (w' & Hh & [(ms & [-> Hmay] & Hu)|[-> Hno]]); simpl in Hh.
  - exists w'. split; [done|]. by left.
  - exists w. split; [done|]. right. split; [|done]. intros Hmay.
    by apply (Hno (mkMachineState new (previous old))).
Qed.

(** giving back frees the machine and records its user as the previous
    one when the session's user is the one using it, and changes nothing
    otherwise. *)
Theorem give_back_frees_own w r s old :
  coherent w r → machine_of w r = Some old →
  ∃ w', Resource.give_back w r s = Done w' ∧
    (state old = InUse (session_user s) ∧
       updated w r (mkMachineState Free (Some (session_user s))) w' ∨
     state old ≠ InUse (session_user s) ∧ w' = w).
Proof.
  intros Hc Hm. destruct (handle_spec w r (ReqGiveBack s) old Hc Hm I)
    as (w' & Hh & [(ms & [Hst ->] & Hu)|[-> Hno]]); simpl in Hh.
  - exists w'. split; [done|]. by left.
  - exists w. split; [done|]. right. split; [|done]. intros Hst. by eapply Hno.
Qed.

(** A request by somebody who neither uses the machine nor manages it. *)
Definition bystander r (u : UserRef) w (i : string) (q : request) : Prop :=
  i ≠ r_id r ∨
  match q with
  | ReqUpdate s _ => session_user s ≠ u ∧ ¬ manager w s r
  | ReqGiveBack s => session_user s ≠ u
  | ReqForce _ => False
  end.

(** a machine in use by somebody stays in use by that person through
    any sequence of requests, to it or to other machines, by people who do not
    manage it and are not its user. *)
Theorem in_use_protected db h w w' r u p :
  registry db h w → Search.get_by_id h (r_id r) = Some r →
  machine_of w r = Some (mkMachineState (InUse u) p) →
  run (bystander r u) h w w' →
  machine_of w' r = Some (mkMachineState (InUse u) p).
Proof.
  intros Hreg Hget Hm Hrun. induction Hrun as [w|w i r' q w1 w2 Hi Hv HP Hh Hrun IH]; [done|].
  destruct (Hreg _ _ Hi) as (Hid & Hdb & Hc). destruct (Hreg _ _ Hget) as (_ & Hdbr & Hcr).
  destruct (coherent_machine w r' Hc) as [old Hold].
  destruct (handle_spec w r' q old Hc Hold Hv) as (w1' & Hh1 & Hcase).
  rewrite Hh in Hh1. inv_eqs. apply IH; [by eapply registry_step|].
  destruct Hcase as [(ms & Hnext & Hu)|[-> _]]; [|done].
  destruct (decide (r_id r = r_id r')) as [Heq|Hne].
  2: { destruct (updated_frame _ _ _ _ r Hu Hne) as [_ ->]; [congruence|done..]. }
  assert (r' = r) as -> by congruence. rewrite Hm in Hold. inv_eqs.
  destruct HP as [?|HP]; [done|]. exfalso. destruct q as [s new|s|new]; simpl in *.
  - destruct HP as [Hs Hman], Hnext as [_ Hmay]. inversion Hmay; congruence.
  - destruct Hnext. congruence.
  - done.
Qed.

(** C5: if the machines' names are valid keys and the audit log is open, booting
    succeeds and registers every configured machine; and after any sequence of
    requests, each handled to its end before the next (and each by a session whose
    privilege checks return), every machine's signal shows the state the database
    has, and another such request is handled without a panic. *)
Theorem signal_shows_database w0 db machines P :
  (∀ i, is_Some (machines !! i) → valid_key i) → is_Some (audit w0) →
  ∃ w h, Boot.resources w0 db machines = Done (w, h) ∧
    (∀ i, is_Some (Search.get_by_id h i) ↔ is_Some (machines !! i)) ∧
    ∀ w' i r, run (Session := Session) P h w w' → Search.get_by_id h i = Some r →
      (∃ ms, Resource.get_state w' r = Done (mkState ms) ∧
         Resource.get_state_ref w' r = Done (mkState ms)) ∧
      ∀ q : request, request_valid w' q → ∃ w'', handle w' r q = Done w''.
Proof.
  intros Hk Ha. destruct (boot_spec w0 db machines Hk Ha) as (w1 & h1 & Hb & Hget & Hst & _).
  assert (registry db h1 w1) as Hreg.
  { intros j r' Hj. destruct (proj1 (Hget j r') Hj) as (d & _ & ->). split_and!; [done..|].
    by apply (Hst j). }
  exists w1, h1. split_and!; [done| |].
  { intros i. split; intros [x Hx]; [|eexists; apply Hget; eauto].
    apply Hget in Hx as (d & Hd & _). by exists d. }
  intros w' i r Hrun Hi.
  destruct (registry_run _ _ _ _ _ Hreg Hrun i r Hi) as (_ & _ & Hc).
  destruct (coherent_machine _ _ Hc) as [ms Hms]. split.
  - exists ms. split; [by apply get_state_spec|by apply get_state_ref_spec].
  - intros q Hq. destruct (handle_spec _ _ q _ Hc Hms Hq) as (w'' & Hh & _). by exists w''.
Qed.

(** C32: after a restart (a new process on the same database, with no
    signals) every configured machine has the state it had before, or the
    default state if the database had none, and the users are untouched. *)
Theorem restart_keeps_states w log now db machines udb :
  (∀ i, is_Some (machines !! i) → valid_key i) →
  user_dbi udb ≠ state_dbi db →
  ∃ w' h, Boot.resources (mkWorld (env w) (Some log) ∅ now) db machines = Done (w', h) ∧
    (∀ i, is_Some (Search.get_by_id h i) ↔ is_Some (machines !! i)) ∧
    (∀ i r, Search.get_by_id h i = Some r →
       machine_of w' r = Some (default MState.new (machine_of w r))) ∧
    users_in udb (env_contents (env w')) = users_in udb (env_contents (env w)).
Proof.
  intros Hk Hudb.
  destruct (boot_spec (mkWorld (env w) (Some log) ∅ now) db machines Hk)
    as (w' & h & Hb & Hget & Hst & Hd); [by eauto|].
  exists w', h. split; [done|]. split_and!.
  - intros i. split; intros [x Hx].
    + apply Hget in Hx as (d & -> & _). eauto.
    + exists (mkResource i db x). apply Hget. eauto.
  - intros i r Hi. by apply (Hst i).
  - unfold users_in. by rewrite (Hd _ Hudb).
Qed.

End Properties.

(** looking a machine up by the URN the API prints for it finds the
    same machine as its id does, when the id is not empty and has no colon. *)
Theorem urn_lookup_roundtrip `{Lmdb} (h : Search.ResourcesHandle) i :
  i ≠ EmptyString → no_char ":" i = true →
  Search.get_by_urn h ("urn:fabaccess:resource:" +:+ i) = Search.get_by_id h i.
Proof.
  intros Hne Hi. unfold Search.get_by_urn.
  assert (split_terminator ":" ("urn:fabaccess:resource:" +:+ i)
          = ["urn"; "fabaccess"; "resource"; i]) as ->; [|done].
  unfold split_terminator.
  assert (split ":" ("urn:fabaccess:resource:" +:+ i)
          = ["urn"; "fabaccess"; "resource"; i]) as ->.
  { rewrite <- (split_join ":" ["urn"; "fabaccess"; "resource"; i]); [done..|].
    repeat constructor; done. }
  simpl. by destruct i.
Qed.

(** ** Witnesses: a lathe, its manager alice and its user bob *)

Section Witnesses.

Definition alice : UserRef := mkUserRef "alice".
Definition bob : UserRef := mkUserRef "bob".

Definition shop_env : @Env MapLmdb :=
  ({[ "user" :=
        {[ "alice" := [N.pos (encode (mkUser "alice" (mkUserData ["manager"] None ∅)))];
           "bob" := [N.pos (encode (mkUser "bob" (mkUserData ["user"] None ∅)))] ]};
      "state" := {[ "lathe" := [N.pos (encode MState.new)] ]} ]} : mapenv).

Definition state_db : StateDB.t := StateDB.mk (DB.mk (RawDB.mk "state")).

Definition lathe_desc : MachineDescription :=
  mkMachineDescription "Lathe" None None None
    (Permissions.mkPrivilegesBuf
       (Permissions.mkPermissionBuf "lab.use.lathe") (Permissions.mkPermissionBuf "lab.use.lathe")
       (Permissions.mkPermissionBuf "lab.use.lathe") (Permissions.mkPermissionBuf "lab.manage.lathe")).

Definition lathe : Resource := mkResource "lathe" state_db lathe_desc.

Definition shop_log : @LineWriter ListAudit := ([], []).

(** The shop with the lathe in status [st]. *)
Definition shop (st : MachineState) : World :=
  mkWorld (<["state" := {[ "lathe" := [N.pos (encode st)] ]}]> shop_env : mapenv)
    (Some shop_log) {[ "lathe" := mkArchivedValue [N.pos (encode st)] ]} 0.

Definition session_of (u : UserRef) : Session.SessionHandle :=
  Session.mkSessionHandle demo_users demo_roles u.

Definition shop_handle : Search.ResourcesHandle := Search.mk {[ "lathe" := lathe ]}.

Lemma shop_coherent st : coherent (shop st) lathe.
Proof.
  split; [vm_compute; split; lia| |by eexists].
  exists (mkArchivedValue [N.pos (encode st)]). split; [done|].
  unfold stored, shop. simpl. unfold mapenv_contents. by rewrite lookup_insert_eq.
Qed.

Lemma shop_machine st : machine_of (shop st) lathe = Some st.
Proof.
  unfold machine_of. destruct (shop_coherent st) as [_ (v & Hv & ->) _].
  simpl in Hv. rewrite lookup_singleton_eq in Hv. inv_eqs. simpl. by rewrite decode_encode.
Qed.

Lemma shop_session_valid w u :
  valid_key (ref_id u) → session_valid w (session_of u).
Proof. intros Hk. split; [done|apply demo_acyclic]. Qed.

Lemma shop_registry st : registry state_db shop_handle (shop st).
Proof.
  intros i r Hi. unfold Search.get_by_id, shop_handle in Hi. simpl in Hi.
  apply lookup_singleton_Some in Hi as [<- <-]. split_and!; [done..|apply shop_coherent].
Qed.

Lemma try_update_follows_table_witness :
  ∃ w', Resource.try_update (shop MState.new) lathe (session_of bob) (InUse bob) = Done w' ∧
    w' ≠ shop MState.new ∧ machine_of w' lathe = Some (mkMachineState (InUse bob) None).
Proof.
  destruct (try_update_follows_table (shop MState.new) lathe (session_of bob) MState.new (InUse bob))
    as (w' & Hw & [[_ Hu]|[Hno _]]).
  - apply shop_coherent.
  - apply shop_machine.
  - apply shop_session_valid. vm_compute. split; lia.
  - exists w'. split; [done|]. pose proof (upd_state _ _ _ _ Hu) as Hst. split; [|done].
    intros ->. rewrite shop_machine in Hst. done.
  - exfalso. apply Hno. apply may_take. simpl.
    exists (mkUser "bob" (mkUserData ["user"] None ∅)), "user".
    split; [vm_compute; reflexivity|]. split; [left|]. exists "user". split; [done|].
    eexists _, (Permissions.Children (Permissions.mkPermissionBuf "lab.use")).
    split; [reflexivity|]. split; [left|]. by exists "lathe".
Defined.

Lemma give_back_frees_own_witness :
  ∃ w', Resource.give_back (shop (mkMachineState (InUse bob) None)) lathe (session_of bob) = Done w' ∧
    machine_of w' lathe = Some (mkMachineState Free (Some bob)).
Proof.
  destruct (give_back_frees_own (shop (mkMachineState (InUse bob) None)) lathe (session_of bob)
              (mkMachineState (InUse bob) None)) as (w' & Hw & [[_ Hu]|[Hno _]]).
  - apply shop_coherent.
  - apply shop_machine.
  - exists w'. split; [done|]. apply Hu.
  - by exfalso.
Defined.

(** alice is using the lathe; bob, who does not manage it, tries to free it. *)
Lemma in_use_protected_witness :
  let w := shop (mkMachineState (InUse alice) None) in
  ∃ w', handle w lathe (ReqUpdate (session_of bob) Free) = Done w' ∧
    machine_of w' lathe = Some (mkMachineState (InUse alice) None).
Proof.
  intros w. assert (session_valid w (session_of bob)) as Hv.
  { apply shop_session_valid. vm_compute. split; lia. }
  destruct (handle_spec w lathe (ReqUpdate (session_of bob) Free) _
              (shop_coherent _) (shop_machine _) Hv) as (w' & Hh & _).
  exists w'. split; [done|].
  apply (in_use_protected (Session := Session.SessionHandle) state_db shop_handle w w' lathe alice None);
    [apply shop_registry|done|apply shop_machine|].
  eapply (run_cons _ _ _ "lathe" lathe (ReqUpdate (session_of bob) Free)); [done|exact Hv| |exact Hh|apply run_nil].
  right. split; [done|]. intros Hman.
  destruct (permits_decides w (session_of bob) "lab.manage.lathe" Hv) as (b & Hb & Hdec).
  apply Hdec in Hman. subst b. revert Hb. vm_compute. done.
Defined.

Lemma lathe_keys (i : string) :
  is_Some (({[ "lathe" := lathe_desc ]} : gmap string MachineDescription) !! i) → valid_key i.
Proof.
  intros [d Hd]. apply lookup_singleton_Some in Hd as [<- _]. vm_compute. split; lia.
Qed.

(** The shop is opened, and bob asks to use the lathe. *)
Lemma signal_shows_database_witness :
  ∃ w h r w' ms,
    Boot.resources (shop MState.new) state_db {[ "lathe" := lathe_desc ]} = Done (w, h) ∧
    Search.get_by_id h "lathe" = Some r ∧
    handle w r (ReqUpdate (session_of bob) (InUse bob)) = Done w' ∧
    Resource.get_state w' r = Done (mkState ms) ∧
    Resource.get_state_ref w' r = Done (mkState ms).
Proof.
  destruct (signal_shows_database (Session := Session.SessionHandle) (shop MState.new) state_db
    {[ "lathe" := lathe_desc ]} (λ _ _ _, True) lathe_keys) as (w & h & Hb & Hget & Hsig).
  - by eexists.
  - destruct (proj2 (Hget "lathe")) as [r Hr]; [by eexists; apply lookup_singleton_eq|].
    assert (session_valid w (session_of bob)) as Hv.
    { apply shop_session_valid. vm_compute. split; lia. }
    destruct (Hsig w "lathe" r (run_nil _ _ _) Hr) as [_ Hnext].
    destruct (Hnext (ReqUpdate (session_of bob) (InUse bob)) Hv) as [w' Hw'].
    destruct (Hsig w' "lathe" r) as [(ms & Hms) _]; [|done|].
    { apply (run_cons _ _ w "lathe" r (ReqUpdate (session_of bob) (InUse bob)) w' w');
        [exact Hr|exact Hv|exact I|exact Hw'|apply run_nil]. }
    exists w, h, r, w', ms. exact (conj Hb (conj Hr (conj Hw' Hms))).
Defined.

Lemma restart_keeps_states_witness :
  ∃ w' h, Boot.resources (mkWorld (env (shop (MState.blocked bob None))) (Some shop_log) ∅ 5)
            state_db {[ "lathe" := lathe_desc ]} = Done (w', h) ∧
    machine_of w' lathe = Some (MState.blocked bob None).
Proof.
  destruct (restart_keeps_states (shop (MState.blocked bob None)) shop_log 5 state_db
    {[ "lathe" := lathe_desc ]} (Users.userdb demo_users) lathe_keys)
    as (w' & h & Hb & Hdom & Hst & _); [done|].
  exists w', h. split; [exact Hb|].
  destruct (boot_spec (mkWorld (env (shop (MState.blocked bob None))) (Some shop_log) ∅ 5)
    state_db {[ "lathe" := lathe_desc ]} lathe_keys) as (w2 & h2 & Hb2 & Hget & _); [by eexists|].
  rewrite Hb in Hb2. inv_eqs.
  rewrite (Hst "lathe" lathe).
  - by rewrite shop_machine.
  - apply Hget. exists lathe_desc. split; [apply lookup_singleton_eq|reflexivity].
Defined.

Lemma urn_lookup_roundtrip_witness :
  Search.get_by_urn shop_handle "urn:fabaccess:resource:lathe" = Search.get_by_id shop_handle "lathe".
Proof. apply (urn_lookup_roundtrip shop_handle "lathe"); done. Defined.

End Witnesses.
