(* ===== verification/Race.v ===== *)
(** * Requests to machines on several threads (bffhd/resources/mod.rs)

    The connections of the API are spawned on whichever worker thread accepts
    them, and the initiators on any of them, so [try_update], [give_back] and
    [force_set] of one machine can overlap.  No lock is held between their
    accesses to the state database, the user database, the audit log and the
    signal.  [step] is these functions cut at each access; [next] interleaves any
    number of requests, and whatever else the server does to the user database
    and the clock. *)

From S2P Require Import Prelude Permissions Roles Db Users Machine Session Resources.

(** ** The requests, one access at a time *)

Section Steps.
Context `{Lmdb} `{Rkyv State} `{Rkyv MachineState} `{AuditIo}.
Context {Session : Type} `{!Authorizer World Session}.
Implicit Types (w : World) (r : Resource).

(** Where a request is: about to read the state; in [try_update] with the status
    read, about to ask for the manage privilege or the write privilege; in
    [set_status], about to read the previous user; in [Inner::set_state], about to
    put the state, to take the time stamp of the log line, to write the line, to
    set the signal. *)
Inductive pc :=
| Begin (q : request (Session := Session))
| CheckManage (s : Session) (new old : Status)
| CheckWrite (s : Session) (new old : Status)
| ReadPrevious (new : Status)
| Put (val : ArchivedValue State)
| Stamp (val : ArchivedValue State)
| Log (val : ArchivedValue State) (now : Z)
| Signal (val : ArchivedValue State)
| Finished.

(** [Resource::set_state] up to its first access. *)
Definition put_state (ms : MachineState) : outcome pc :=
  let! bytes := unwrap_ok (rkyv_serialize ms) in Done (Put (ArchivedVal.new bytes)).

(** [set_status] up to the put. *)
Definition read_previous w r (new : Status) : outcome pc :=
  let! old := Resource.get_state w r in
  put_state (mkMachineState new (previous (inner old))).

(** The accesses of [Inner::set_state]: to the database and to the audit log. *)
Definition store w r (val : ArchivedValue State) : outcome World :=
  let! res := StateDB.put (r_db r) (env w) (r_id r) val in
  let! e := unwrap_ok res in
  Done (set_env w e).

Definition report w r (val : ArchivedValue State) (now : Z) : outcome World :=
  let! log := unwrap (audit w) in
  let! (log', _) :=
    AuditLog.log log now (r_id r) (MState.display (inner (ArchivedVal.as_ref val))) in
  Done (set_audit w log').

Definition step w r (c : pc) : outcome (World * pc) :=
  match c with
  | Begin (ReqUpdate s new) =>
      let! old := Resource.get_state w r in
      Done (w, CheckManage s new (state (inner old)))
  | Begin (ReqGiveBack s) =>
      let! st := Resource.get_state w r in
      match state (inner st) with
      | InUse user =>
          if decide (user = session_user s) then
            let! c := put_state (MState.free (Some (session_user s))) in Done (w, c)
          else Done (w, Finished)
      | _ => Done (w, Finished)
      end
  | Begin (ReqForce new) | ReadPrevious new =>
      let! c := read_previous w r new in Done (w, c)
  | CheckManage s new old =>
      let! manage := Resource.has_manage w s r in
      Done (w, if manage then ReadPrevious new else CheckWrite s new old)
  | CheckWrite s new old =>
      let! write := Resource.has_write w s r in
      let user := session_user s in
      Done (w, if write && Resource.writer_may user old new
                 || Resource.everyone_may user old new then ReadPrevious new else Finished)
  | Put val => let! w' := store w r val in Done (w', Stamp val)
  | Stamp val => Done (w, Log val (clock w))
  | Log val now => let! w' := report w r val now in Done (w', Signal val)
  | Signal val => Done (set_signal w (r_id r) val, Finished)
  | Finished => Done (w, Finished)
  end.

(** A request run to its end with nothing in between. *)
Fixpoint alone (fuel : nat) w r (c : pc) : outcome World :=
  match c with
  | Finished => Done w
  | _ =>
      match fuel with
      | O => OutOfFuel
      | S fuel' => let! (w', c') := step w r c in alone fuel' w' r c'
      end
  end.

(** ** All of them *)

Record op := mkOp { on : Resource; asked : request (Session := Session); at_ : pc }.

Record sys := mkSys { world : World; ops : list op }.

Definition resume (o : op) (c : pc) : op := mkOp (on o) (asked o) c.

(** What the rest of the server does: the machines' states, their signals and
    the audit log are changed by requests only. *)
Record elsewhere (db : StateDB.t) w w' : Prop := {
  else_states : env_contents (env w') (state_dbi db) = env_contents (env w) (state_dbi db);
  else_signals : signals w' = signals w;
  else_audit : audit w' = audit w;
}.

Inductive next (db : StateDB.t) (h : Search.ResourcesHandle) : sys → sys → Prop :=
| next_ask w l i r q :
    Search.get_by_id h i = Some r → (∀ w', request_valid w' q) →
    next db h (mkSys w l) (mkSys w (l ++ [mkOp r q (Begin q)]))
| next_go w l n o w' c :
    l !! n = Some o → step w (on o) (at_ o) = Done (w', c) →
    next db h (mkSys w l) (mkSys w' (<[n := resume o c]> l))
| next_elsewhere w l w' :
    elsewhere db w w' → next db h (mkSys w l) (mkSys w' l).

(** An execution, with the worlds it passed through, the last one first. *)
Inductive steps (db : StateDB.t) (h : Search.ResourcesHandle) (s0 : sys) : list World → sys → Prop :=
| steps_nil : steps db h s0 [world s0] s0
| steps_snoc ws s s' : steps db h s0 ws s → next db h s s' → steps db h s0 (world s' :: ws) s'.

(** An execution from [s0], with the numbers of requests that took a step in it, the
    last one first; it may have other steps too. *)
Inductive went (db : StateDB.t) (h : Search.ResourcesHandle) (s0 : sys) : list nat → sys → Prop :=
| went_nil : went db h s0 [] s0
| went_go turns w l n o w' c :
    went db h s0 turns (mkSys w l) → l !! n = Some o → step w (on o) (at_ o) = Done (w', c) →
    went db h s0 (n :: turns) (mkSys w' (<[n := resume o c]> l))
| went_other turns s s' : went db h s0 turns s → next db h s s' → went db h s0 turns s'.

(** The requests with these numbers take a step each, in this order. *)
Fixpoint schedule (l : list nat) (s : sys) : outcome sys :=
  match l with
  | [] => Done s
  | n :: l' =>
      match ops s !! n with
      | Some o =>
          let! (w', c) := step (world s) (on o) (at_ o) in
          schedule l' (mkSys w' (<[n := resume o c]> (ops s)))
      | None => schedule l' s
      end
  end.

End Steps.

(** ** Specification *)

Section Spec.
Context `{Lmdb} `{Rkyv State} `{Rkyv MachineState} `{AuditIo}.
Context {Session : Type} `{!Authorizer World Session}.
Implicit Types (w : World) (r : Resource) (ws : list World) (s : Session).

(** The machine had this state at some time. *)
Definition was ws r (ms : MachineState) : Prop := ∃ w, w ∈ ws ∧ machine_of w r = Some ms.

(** The session had the privilege at some time. *)
Definition held ws s (p : Permissions.PermissionBuf) : Prop :=
  ∃ w, w ∈ ws ∧ authorized w s (Permissions.as_permission p).

(** The request [q] accounts for the state [ms] of its machine: the transition is
    one of the table, from a status the machine had, with privileges the user had;
    the previous user is one the machine showed. *)
Definition accounts ws r (q : request (Session := Session)) (ms : MachineState) : Prop :=
  match q with
  | ReqUpdate s new =>
      state ms = new ∧
      (∃ old, was ws r old ∧
        may_update (held ws s (Permissions.manage (privs (r_desc r))))
                   (held ws s (Permissions.write (privs (r_desc r))))
                   (session_user s) (state old) new) ∧
      ∃ before, was ws r before ∧ previous ms = previous before
  | ReqGiveBack s =>
      ms = MState.free (Some (session_user s)) ∧
      ∃ old, was ws r old ∧ state old = InUse (session_user s)
  | ReqForce new =>
      state ms = new ∧ ∃ before, was ws r before ∧ previous ms = previous before
  end.

(** The steps of a request, at least until it is finished. *)
Definition remaining (c : pc (Session := Session)) : nat :=
  match c with
  | Begin _ => 8 | CheckManage _ _ _ => 7 | CheckWrite _ _ _ => 6 | ReadPrevious _ => 5
  | Put _ => 4 | Stamp _ => 3 | Log _ _ => 2 | Signal _ => 1 | Finished => 0
  end.

(** [val] was put for [r]: only the state of [r] changed. *)
Record put_in w r (val : ArchivedValue State) w' : Prop := {
  put_stored : stored w' r = Some (data val);
  put_others : ∀ k, k ≠ r_id r →
    env_contents (env w') (state_dbi (r_db r)) !! k = env_contents (env w) (state_dbi (r_db r)) !! k;
  put_signals : signals w' = signals w;
  put_audit : audit w' = audit w;
}.

Abbreviation encodes val ms := (archived_root (data val) = mkState ms).

(** What a step does to a machine in order. *)
Inductive moves w r : pc (Session := Session) → World → pc (Session := Session) → Prop :=
| mv_update s new old :
    machine_of w r = Some old → moves w r (Begin (ReqUpdate s new)) w (CheckManage s new (state old))
| mv_give_back s old val :
    machine_of w r = Some old → state old = InUse (session_user s) →
    encodes val (MState.free (Some (session_user s))) →
    moves w r (Begin (ReqGiveBack s)) w (Put val)
| mv_keep s old :
    machine_of w r = Some old → state old ≠ InUse (session_user s) →
    moves w r (Begin (ReqGiveBack s)) w Finished
| mv_force new old val :
    machine_of w r = Some old → encodes val (mkMachineState new (previous old)) →
    moves w r (Begin (ReqForce new)) w (Put val)
| mv_previous new old val :
    machine_of w r = Some old → encodes val (mkMachineState new (previous old)) →
    moves w r (ReadPrevious new) w (Put val)
| mv_manager s new old :
    authorized w s (Permissions.as_permission (Permissions.manage (privs (r_desc r)))) →
    moves w r (CheckManage s new old) w (ReadPrevious new)
| mv_no_manager s new old :
    ¬ authorized w s (Permissions.as_permission (Permissions.manage (privs (r_desc r)))) →
    moves w r (CheckManage s new old) w (CheckWrite s new old)
| mv_allowed s new old :
    may_update False
      (authorized w s (Permissions.as_permission (Permissions.write (privs (r_desc r)))))
      (session_user s) old new →
    moves w r (CheckWrite s new old) w (ReadPrevious new)
| mv_denied s new old :
    ¬ may_update False
      (authorized w s (Permissions.as_permission (Permissions.write (privs (r_desc r)))))
      (session_user s) old new →
    moves w r (CheckWrite s new old) w Finished
| mv_put val w' : put_in w r val w' → moves w r (Put val) w' (Stamp val)
| mv_stamp val : moves w r (Stamp val) w (Log val (clock w))
| mv_log val now log log' :
    audit w = Some log →
    audit_lines log' = audit_lines log ++
      [mkAuditLogLine now (r_id r) (MState.display (inner (archived_root (data val))))] →
    moves w r (Log val now) (set_audit w log') (Signal val)
| mv_signal val : moves w r (Signal val) (set_signal w (r_id r) val) Finished.

(** The session of a request in progress. *)
Definition pc_valid (c : pc (Session := Session)) : Prop :=
  match c with
  | Begin q => ∀ w, request_valid w q
  | CheckManage s _ _ | CheckWrite s _ _ => ∀ w, session_valid w s
  | _ => True
  end.

Definition op_valid (h : Search.ResourcesHandle) (o : op) : Prop :=
  Search.get_by_id h (r_id (on o)) = Some (on o) ∧ pc_valid (at_ o).

(** The machines of a server at work: every one has a state and a signal. *)
Record working (db : StateDB.t) (h : Search.ResourcesHandle) w : Prop := {
  work_reg i r : Search.get_by_id h i = Some r → r_id r = i ∧ r_db r = db ∧ valid_key i;
  work_state i r : Search.get_by_id h i = Some r → is_Some (machine_of w r);
  work_audit : is_Some (audit w);
}.

Record healthy (db : StateDB.t) (h : Search.ResourcesHandle) (s : sys (Session := Session)) : Prop := {
  healthy_world : working db h (world s);
  healthy_ops : Forall (op_valid h) (ops s);
}.

(** What a request in progress has learnt. *)
Definition knows ws (o : op (Session := Session)) : Prop :=
  let r := on o in
  match at_ o with
  | Begin q => q = asked o
  | CheckManage s new old | CheckWrite s new old =>
      asked o = ReqUpdate s new ∧ ∃ ms, was ws r ms ∧ state ms = old
  | ReadPrevious new =>
      ∃ s, asked o = ReqUpdate s new ∧ ∃ old, was ws r old ∧
        may_update (held ws s (Permissions.manage (privs (r_desc r))))
                   (held ws s (Permissions.write (privs (r_desc r))))
                   (session_user s) (state old) new
  | Put val => ∃ ms, encodes val ms ∧ accounts ws r (asked o) ms
  | Stamp val | Log val _ | Signal val => ∃ w, w ∈ ws ∧ stored w r = Some (data val)
  | Finished => True
  end.

(** Every state a machine had is accounted for, and so is what its signal
    shows. *)
Record accounted (h : Search.ResourcesHandle) w0 ws (s : sys (Session := Session)) : Prop := {
  acc_states i r ms : Search.get_by_id h i = Some r → was ws r ms →
    machine_of w0 r = Some ms ∨ ∃ o, o ∈ ops s ∧ on o = r ∧ accounts ws r (asked o) ms;
  acc_signals i r : Search.get_by_id h i = Some r →
    ∃ v w, signals (world s) !! i = Some v ∧ w ∈ ws ∧ stored w r = Some (data v);
  acc_ops : Forall (knows ws) (ops s);
}.

End Spec.

(** ** Lemmas *)

Lemma bool_false_False : false = true ↔ False.
Proof. done. Qed.

Section Alone.
Context `{Lmdb} `{Rkyv State} `{Rkyv MachineState} `{AuditIo}.
Context {Session : Type} `{!Authorizer World Session}.
Implicit Types (w : World) (r : Resource).

Lemma alone_S fuel w r (c : pc (Session := Session)) :
  alone (S fuel) w r c = let! (w', c') := step w r c in alone fuel w' r c'.
Proof. destruct c; try done. by destruct fuel. Qed.

Lemma alone_finished fuel w r : alone (Session := Session) fuel w r Finished = Done w.
Proof. by destruct fuel. Qed.

Lemma alone_put w r ms fuel :
  (4 ≤ fuel)%nat →
  outcome_bind (put_state (Session := Session) ms) (λ c, alone fuel w r c) = Resource.set_state w r ms.
Proof.
  intros Hf. do 4 (destruct fuel as [|fuel]; [lia|]). unfold put_state, Resource.set_state.
  destruct (unwrap_ok (rkyv_serialize ms)); [|done..]. simpl. unfold Resource.inner_set_state, store.
  destruct (StateDB.put _ _ _ _) as [res| |]; [|done..]. simpl.
  destruct (unwrap_ok res) as [e| |]; [|done..]. simpl. unfold report. simpl.
  destruct (unwrap (audit w)) as [log| |]; [|done..]. simpl.
  destruct (AuditLog.log _ _ _ _) as [[log' ?]| |]; [|done..]. simpl. by destruct fuel.
Qed.

Lemma alone_previous w r new fuel :
  (4 ≤ fuel)%nat →
  outcome_bind (read_previous (Session := Session) w r new) (λ c, alone fuel w r c) =
  Resource.set_status w r new.
Proof.
  intros Hf. unfold read_previous, Resource.set_status.
  destruct (Resource.get_state w r) as [old| |]; [|done..]. simpl. by apply alone_put.
Qed.

End Alone.

Section Lemmas.
Context `{LmdbLaws} `{!LmdbHealthy} `{HS : Rkyv State} `{HM : Rkyv MachineState} `{!RkyvMachine}.
Context `{AuditIoLaws} `{!AuditIoHealthy}.
Context {Session : Type} `{AuthorizerLaws World Session}.
Implicit Types (w : World) (r : Resource) (ws : list World) (s : sys (Session := Session))
  (c : pc (Session := Session)) (o : op (Session := Session)).

Lemma put_state_spec ms :
  ∃ val, put_state (Session := Session) ms = Done (Put val) ∧ archived_root (data val) = mkState ms.
Proof.
  unfold put_state. destruct (rkyv_roundtrip (T := MachineState) ms) as (b & Hb & _). rewrite Hb.
  simpl. eexists. split; [done|]. simpl. by apply rkyv_state_layout.
Qed.

Lemma read_previous_spec w r new old :
  valid_key (r_id r) → machine_of w r = Some old →
  ∃ val, read_previous (Session := Session) w r new = Done (Put val) ∧
    archived_root (data val) = mkState (mkMachineState new (previous old)).
Proof.
  intros Hk Hm. unfold read_previous. rewrite (get_state_stored w r old) by done. simpl.
  apply put_state_spec.
Qed.

(** A step of a request on a machine in order returns, and is one of [moves]. *)
Lemma step_moves w r c :
  valid_key (r_id r) → is_Some (machine_of w r) → is_Some (audit w) → pc_valid c → c ≠ Finished →
  ∃ w' c', step w r c = Done (w', c') ∧ moves w r c w' c'.
Proof.
  intros Hk [old Hold] [log Hlog] Hv Hc. unfold step, store, report.
  destruct c as [[s new|s|new]|s new o|s new o|new|val|val|val now|val|]; simpl in *; try done.
  - rewrite (get_state_stored w r old) by done. simpl. eauto using moves.
  - rewrite (get_state_stored w r old) by done. simpl.
    destruct (put_state_spec (MState.free (Some (session_user s)))) as (val & -> & Hval).
    destruct (state old) eqn:E; simpl;
      try (eexists _, _; split; [done|eapply mv_keep; [done|by rewrite E]]).
    case_decide; subst; simpl; eexists _, _; (split; [done|]).
    + by eapply mv_give_back.
    + eapply mv_keep; [done|congruence].
  - destruct (read_previous_spec w r new old) as (val & -> & Hval); [done..|]. simpl. eauto using moves.
  - destruct (permits_decides w s (Permissions.as_permission
      (Permissions.manage (privs (r_desc r)))) (Hv w)) as (b & Hb & Hd).
    unfold Resource.has_manage, Resource.get_required_privs. rewrite Hb. simpl.
    destruct b; eexists _, _; (split; [done|]); constructor; naive_solver.
  - destruct (permits_decides w s (Permissions.as_permission
      (Permissions.write (privs (r_desc r)))) (Hv w)) as (b & Hb & Hd).
    unfold Resource.has_write, Resource.get_required_privs. rewrite Hb. simpl.
    pose proof (may_update_tables false b (session_user s) o new) as Ht. simpl in Ht.
    rewrite (may_update_iff _ _ _ _ _ _ _ bool_false_False Hd) in Ht.
    destruct (_ || _); eexists _, _; (split; [done|]); constructor; naive_solver.
  - destruct (read_previous_spec w r new old) as (val & -> & Hval); [done..|]. simpl. eauto using moves.
  - destruct (StateDB_put_spec (r_db r) (env w) (r_id r) val Hk) as (e & -> & He & _). simpl.
    eexists _, _. split; [done|]. constructor. split; [|by intros; simpl; rewrite He, lookup_insert_ne|done..].
    unfold stored. simpl. by rewrite He, lookup_insert_eq.
  - eauto using moves.
  - rewrite Hlog. simpl.
    destruct (audit_log_spec log now (r_id r) (MState.display (inner (archived_root (data val)))))
      as (log' & Hl & Hlines). unfold ArchivedVal.as_ref, ArchivedVal.as_slice.
    rewrite Hl. simpl. eauto using moves.
  - eauto using moves.
Qed.

(** *** What a step changes *)

Lemma moves_decreases w r c w' c' : moves w r c w' c' → (remaining c' < remaining c)%nat.
Proof. destruct 1; simpl; lia. Qed.

Lemma moves_valid w r c w' c' : moves w r c w' c' → pc_valid c → pc_valid c'.
Proof. by destruct 1. Qed.

Lemma moves_audit w r c w' c' : moves w r c w' c' → is_Some (audit w) → is_Some (audit w').
Proof. destruct 1 as [| | | | | | | | |? ? Hp| | |]; try done. by rewrite (put_audit _ _ _ _ Hp). Qed.

Lemma moves_frame w r c w' c' r2 :
  moves w r c w' c' → r_db r2 = r_db r → r_id r2 ≠ r_id r →
  stored w' r2 = stored w r2 ∧ signals w' !! r_id r2 = signals w !! r_id r2.
Proof.
  intros Hm Hdb Hne. destruct Hm as [| | | | | | | | |? ? Hp| | |]; try done.
  - unfold stored. by rewrite Hdb, (put_others _ _ _ _ Hp), (put_signals _ _ _ _ Hp).
  - simpl. by rewrite lookup_insert_ne.
Qed.

Lemma moves_stored w r c w' c' :
  moves w r c w' c' → stored w' r = stored w r ∨ ∃ val, c = Put val ∧ stored w' r = Some (data val).
Proof. destruct 1 as [| | | | | | | | |? ? Hp| | |]; try (by left). right. eauto using put_stored. Qed.

Lemma moves_signals w r c w' c' :
  moves w r c w' c' →
  signals w' = signals w ∨ ∃ val, c = Signal val ∧ signals w' = <[r_id r := val]> (signals w).
Proof.
  destruct 1 as [| | | | | | | | |? ? Hp| | |]; try (by left); [|right; eauto].
  left. apply (put_signals _ _ _ _ Hp).
Qed.

Lemma machine_of_stored w w' r : stored w' r = stored w r → machine_of w' r = machine_of w r.
Proof. unfold machine_of. by intros ->. Qed.

Lemma elsewhere_stored db w w' r : elsewhere db w w' → r_db r = db → stored w' r = stored w r.
Proof. intros He <-. unfold stored. by rewrite (else_states _ _ _ He). Qed.

(** *** The server keeps working *)

Lemma go_moves db h s n o w' c' :
  healthy db h s → ops s !! n = Some o → step (world s) (on o) (at_ o) = Done (w', c') →
  (w' = world s ∧ c' = at_ o) ∨ moves (world s) (on o) (at_ o) w' c'.
Proof.
  intros [Hw Ho] Hn Hs. rewrite Forall_lookup in Ho. destruct (Ho n o Hn) as [Hg Hv].
  destruct (work_reg _ _ _ Hw _ _ Hg) as (_ & _ & Hk).
  assert (at_ o = Finished ∨ at_ o ≠ Finished) as [Hf|Hf] by (destruct (at_ o); auto).
  { left. rewrite Hf in Hs |- *. simpl in Hs. by inv_eqs. }
  right. destruct (step_moves (world s) (on o) (at_ o)) as (w1 & c1 & Hs1 & Hm);
    [done|by eapply work_state|apply Hw|done..|].
  rewrite Hs in Hs1. by inv_eqs.
Qed.

Lemma working_kept db h w w' :
  working db h w → is_Some (audit w') →
  (∀ i r, Search.get_by_id h i = Some r → is_Some (machine_of w' r)) → working db h w'.
Proof. intros [Hr Hs Ha] Ha' Hs'. by split. Qed.

Lemma working_moves db h w r c w' c' :
  working db h w → Search.get_by_id h (r_id r) = Some r → moves w r c w' c' → working db h w'.
Proof.
  intros Hw Hg Hm. apply (working_kept db h w); [done|eapply moves_audit; [done|apply Hw]|].
  intros i r2 Hi. destruct (work_reg _ _ _ Hw _ _ Hi) as (Hid & Hdb & _).
  destruct (work_state _ _ _ Hw _ _ Hi) as [ms Hms].
  destruct (decide (r_id r2 = r_id r)) as [Heq|Hne].
  - assert (r2 = r) as -> by congruence. destruct (moves_stored _ _ _ _ _ Hm) as [Hs|(val & _ & Hs)].
    + rewrite (machine_of_stored _ _ _ Hs). eauto.
    + unfold machine_of. rewrite Hs. simpl. eauto.
  - destruct (moves_frame _ _ _ _ _ r2 Hm) as [Hs _]; [|done|].
    { destruct (work_reg _ _ _ Hw _ _ Hg) as (_ & -> & _). done. }
    rewrite (machine_of_stored _ _ _ Hs). eauto.
Qed.

Lemma healthy_next db h s s' : healthy db h s → next db h s s' → healthy db h s'.
Proof.
  intros Hh Hn. pose proof Hh as [Hw Ho].
  destruct Hn as [w l i r q Hi Hq|w l n o w' c Hl Hs|w l w' He]; simpl in *.
  - split; [done|]. simpl. apply Forall_app. split; [done|]. constructor; [|done].
    split; [|done]. simpl. by destruct (work_reg _ _ _ Hw _ _ Hi) as (-> & _).
  - pose proof (proj1 (Forall_lookup _ _) Ho n o Hl) as [Hg Hv].
    destruct (go_moves _ _ _ _ _ _ _ Hh Hl Hs) as [[-> ->]|Hm]; simpl in *.
    + split; [done|]. simpl. apply Forall_insert; [done|]. by split.
    + split; simpl; [by eapply working_moves|]. apply Forall_insert; [done|].
      split; [done|]. by eapply moves_valid.
  - split; [|done]. simpl. apply (working_kept db h w); [done| |].
    + rewrite (else_audit _ _ _ He). apply Hw.
    + intros i r Hi. rewrite (machine_of_stored w w'); [by eapply work_state|].
      eapply elsewhere_stored; [done|]. by eapply work_reg.
Qed.

Lemma healthy_start db h w :
  registry db h w → is_Some (audit w) → healthy db h (mkSys (Session := Session) w []).
Proof.
  intros Hreg Ha. split; [|constructor]. simpl. split; [| |done].
  - intros i r Hi. destruct (Hreg i r Hi) as (<- & ? & Hc). by destruct Hc.
  - intros i r Hi. destruct (Hreg i r Hi) as (_ & _ & Hc).
    destruct (coherent_machine w r Hc) as [ms ->]. eauto.
Qed.

Lemma healthy_steps db h s0 ws s : healthy db h s0 → steps db h s0 ws s → healthy db h s.
Proof. intros Hh Hs. induction Hs; [done|]. by eapply healthy_next. Qed.

Lemma steps_head db h s0 ws s : steps db h s0 ws s → world s ∈ ws.
Proof. destruct 1; left. Qed.

(** A request in progress ends within the steps it has left. *)
Lemma alone_total db h s n o fuel :
  healthy db h s → ops s !! n = Some o → (remaining (at_ o) ≤ fuel)%nat →
  ∃ w', alone fuel (world s) (on o) (at_ o) = Done w'.
Proof.
  revert s o. induction fuel as [|fuel IH]; intros s o Hh Hn Hf.
  { exists (world s). destruct (at_ o); simpl in *; (lia || done). }
  rewrite alone_S. pose proof Hh as [Hw Ho].
  destruct (proj1 (Forall_lookup _ _) Ho n o Hn) as [Hg Hv].
  destruct (decide (remaining (at_ o) = 0%nat)) as [Hz|Hnz].
  { assert (at_ o = Finished) as -> by (by destruct (at_ o)). simpl. rewrite alone_finished. eauto. }
  destruct (step_moves (world s) (on o) (at_ o)) as (w' & c' & Hs & Hm).
  { by eapply work_reg. } { by eapply work_state. } { apply Hw. } { done. }
  { intros Hfin. by rewrite Hfin in Hnz. }
  rewrite Hs. simpl. pose proof (moves_decreases _ _ _ _ _ Hm).
  apply (IH (mkSys w' (<[n := resume o c']> (ops s))) (resume o c')); simpl; [|..|lia].
  - eapply healthy_next; [exact Hh|]. destruct s. by eapply next_go.
  - apply list_lookup_insert_eq. by eapply lookup_lt_Some.
Qed.

(** A step of a request in progress returns and leaves it fewer steps. *)
Lemma step_returns db h s n o :
  healthy db h s → ops s !! n = Some o →
  ∃ w' c, step (world s) (on o) (at_ o) = Done (w', c) ∧ (remaining c ≤ remaining (at_ o) - 1)%nat.
Proof.
  intros [Hw Ho] Hn. destruct (proj1 (Forall_lookup _ _) Ho n o Hn) as [Hg Hv].
  assert (at_ o = Finished ∨ at_ o ≠ Finished) as [Hf|Hf] by (destruct (at_ o); auto).
  { rewrite Hf. exists (world s), Finished. split; [done|]. simpl. lia. }
  destruct (step_moves (world s) (on o) (at_ o)) as (w' & c' & Hs & Hm);
    [by eapply work_reg|by eapply work_state|apply Hw|done..|].
  exists w', c'. split; [done|]. pose proof (moves_decreases _ _ _ _ _ Hm). lia.
Qed.

Lemma next_remaining db h s s' n o :
  healthy db h s → next db h s s' → ops s !! n = Some o →
  ∃ o', ops s' !! n = Some o' ∧ (remaining (at_ o') ≤ remaining (at_ o))%nat.
Proof.
  intros Hh Hn Ho. destruct Hn as [w l i r q Hi Hq|w l m o1 w' c Hl Hs|w l w' He]; simpl in *.
  - exists o. split; [|done]. rewrite lookup_app_l; [done|]. by eapply lookup_lt_Some.
  - destruct (decide (m = n)) as [->|Hne]; [|exists o; split; [by rewrite list_lookup_insert_ne|done]].
    rewrite list_lookup_insert_eq by (by eapply lookup_lt_Some). eexists. split; [done|].
    destruct (step_returns _ _ _ _ _ Hh Hl) as (w1 & c1 & Hs1 & Hle). simpl in Hs1.
    rewrite Hs in Hs1. rewrite Hl in Ho. inv_eqs. simpl. lia.
  - eauto.
Qed.

Lemma went_healthy db h s turns s' : healthy db h s → went db h s turns s' → healthy db h s'.
Proof.
  intros Hh Hw. induction Hw as [|turns w l n o w' c Hw IH Hl Hs|turns s1 s2 Hw IH Hn]; [done| |].
  - eapply healthy_next; [exact IH|by eapply next_go].
  - by eapply healthy_next.
Qed.

(** Each step of its own brings a request nearer to its end, and no other takes it
    back. *)
Lemma went_remaining db h s turns s' n o :
  healthy db h s → went db h s turns s' → ops s !! n = Some o →
  ∃ o', ops s' !! n = Some o' ∧
    (remaining (at_ o') ≤ remaining (at_ o) - length (filter (n =.) turns))%nat.
Proof.
  intros Hh Hw Ho. induction Hw as [|turns w l m o1 w' c Hw IH Hl Hs|turns s1 s2 Hw IH Hn].
  - exists o. split; [done|]. simpl. lia.
  - pose proof (went_healthy _ _ _ _ _ Hh Hw) as Hh1. destruct IH as (o' & Ho' & Hle). simpl in *.
    rewrite filter_cons. case_decide as Hmn.
    + subst m. rewrite list_lookup_insert_eq by (by eapply lookup_lt_Some). eexists. split; [done|].
      destruct (step_returns _ _ _ _ _ Hh1 Hl) as (w1 & c1 & Hs1 & Hle1). simpl in Hs1.
      rewrite Hs in Hs1. rewrite Hl in Ho'. inv_eqs. simpl. lia.
    + exists o'. split; [|done]. rewrite list_lookup_insert_ne; [done|]. congruence.
  - pose proof (went_healthy _ _ _ _ _ Hh Hw) as Hh1. destruct IH as (o' & Ho' & Hle).
    destruct (next_remaining _ _ _ _ _ _ Hh1 Hn Ho') as (o2 & Ho2 & Hle2). exists o2. split; [done|]. lia.
Qed.

(** *** Accounting for the states *)

Lemma was_mono ws ws' r ms : ws ⊆ ws' → was ws r ms → was ws' r ms.
Proof. intros Hs (w & Hw & Hm). exists w. auto. Qed.

Lemma held_mono ws ws' (x : Session) p : ws ⊆ ws' → held ws x p → held ws' x p.
Proof. intros Hs (w & Hw & Hm). exists w. auto. Qed.

#[local] Hint Resolve was_mono held_mono : core.

Lemma accounts_mono ws ws' r (q : request (Session := Session)) ms :
  ws ⊆ ws' → accounts ws r q ms → accounts ws' r q ms.
Proof.
  intros Hs. destruct q as [x new|x|new]; simpl; [|naive_solver eauto..].
  intros (Hn & (old & Hold & Hmay) & b & Hb & Hp). split; [done|]. split; [|eauto].
  exists old. split; [eauto|]. revert Hmay. apply may_update_mono; eauto.
Qed.

Lemma knows_mono ws ws' o : ws ⊆ ws' → knows ws o → knows ws' o.
Proof.
  intros Hs. unfold knows. destruct (at_ o) as [| | |new|val| | | |]; try naive_solver eauto.
  - intros (x & Ha & old & Hold & Hmay). exists x. split; [done|]. exists old. split; [eauto|].
    revert Hmay. apply may_update_mono; eauto.
  - intros (ms & Hms & Ha). exists ms. eauto using accounts_mono.
Qed.

(** A step keeps what the request knows up to date. *)
Lemma knows_moves w ws o w' c' :
  w ∈ ws → moves w (on o) (at_ o) w' c' → knows ws o → knows (w' :: ws) (resume o c').
Proof.
  intros Hw Hm Hk. assert (ws ⊆ w' :: ws) as Hsub by (intros x ?; by right).
  assert (∀ ms, machine_of w (on o) = Some ms → was (w' :: ws) (on o) ms) as Hwas.
  { intros ms ?. exists w. split; [by right|done]. }
  destruct o as [r q c]; simpl in *. unfold knows in *. simpl in *.
  destruct Hm as [x new old Hs|x old val Hs Hu Hv|x old Hs Hu|new old val Hs Hv|new old val Hs Hv|
    x new old Hau|x new old Hau|x new old Hmay|x new old Hmay|val w1 Hp|val|val now|val]; simpl in *;
    try naive_solver.
  - destruct Hk as (x & -> & old' & Hold & Hmay). eexists. split; [exact Hv|]. simpl.
    split; [done|]. split; [|eauto]. exists old'. split; [eauto|].
    revert Hmay. apply may_update_mono; eauto.
  - destruct Hk as (-> & ms & Hms & <-). exists x. split; [done|]. exists ms. split; [eauto|].
    apply may_manage. exists w. split; [by right|done].
  - destruct Hk as (-> & ms & Hms & <-). exists x. split; [done|]. exists ms. split; [eauto|].
    revert Hmay. apply may_update_mono; [done|]. intros Hau. exists w. split; [by right|done].
  - exists w1. split; [left|]. apply (put_stored _ _ _ _ Hp).
Qed.

(** The requests that were made, whatever they did since. *)
Lemma resume_asked (l : list (op (Session := Session))) n o c o1 :
  l !! n = Some o → o1 ∈ l → ∃ o2, o2 ∈ <[n := resume o c]> l ∧ on o2 = on o1 ∧ asked o2 = asked o1.
Proof.
  intros Hn [m Hm]%list_elem_of_lookup. destruct (decide (n = m)) as [->|Hne].
  - exists (resume o c). rewrite Hn in Hm. inv_eqs. split; [|done].
    apply list_elem_of_lookup. exists m. apply list_lookup_insert_eq. by eapply lookup_lt_Some.
  - exists o1. split; [|done]. apply list_elem_of_lookup. exists m. by rewrite list_lookup_insert_ne.
Qed.

(** Accounting for a new world: its states are old ones or those of a request,
    and its signals show states that were stored. *)
Lemma accounted_snoc h w0 ws s s' :
  accounted h w0 ws s →
  (∀ i r ms, Search.get_by_id h i = Some r → machine_of (world s') r = Some ms →
     was ws r ms ∨ ∃ o, o ∈ ops s ∧ on o = r ∧ accounts ws r (asked o) ms) →
  (∀ i r, Search.get_by_id h i = Some r →
     ∃ v w, signals (world s') !! i = Some v ∧ w ∈ ws ∧ stored w r = Some (data v)) →
  (∀ o, o ∈ ops s → ∃ o', o' ∈ ops s' ∧ on o' = on o ∧ asked o' = asked o) →
  Forall (knows (world s' :: ws)) (ops s') →
  accounted h w0 (world s' :: ws) s'.
Proof.
  intros Ha Hst Hsig Hops Hk. assert (ws ⊆ world s' :: ws) as Hsub by (intros x ?; by right).
  assert (∀ i r ms, Search.get_by_id h i = Some r → was (world s' :: ws) r ms →
    machine_of w0 r = Some ms ∨ ∃ o, o ∈ ops s ∧ on o = r ∧ accounts ws r (asked o) ms) as Hold.
  { intros i r ms Hi (w & [->|Hw]%elem_of_cons & Hm).
    - destruct (Hst i r ms Hi Hm) as [Hwas|Ho]; [by eapply acc_states|by right].
    - eapply acc_states; [done..|by exists w]. }
  split; [| |done].
  - intros i r ms Hi Hwas. destruct (Hold i r ms Hi Hwas) as [?|(o & Ho & Hon & Hacc)]; [by left|right].
    destruct (Hops o Ho) as (o' & Ho' & Hon' & Has'). exists o'. rewrite Hon', Has'.
    eauto using accounts_mono.
  - intros i r Hi. destruct (Hsig i r Hi) as (v & w & Hv & Hw & Hs). eauto 10.
Qed.

(** What a step of a request stores and shows. *)
Lemma moves_accounted db h w0 ws s n o w' c' :
  healthy db h s → accounted h w0 ws s → world s ∈ ws → ops s !! n = Some o →
  moves (world s) (on o) (at_ o) w' c' →
  (∀ i r ms, Search.get_by_id h i = Some r → machine_of w' r = Some ms →
     was ws r ms ∨ ∃ o, o ∈ ops s ∧ on o = r ∧ accounts ws r (asked o) ms) ∧
  (∀ i r, Search.get_by_id h i = Some r →
     ∃ v w, signals w' !! i = Some v ∧ w ∈ ws ∧ stored w r = Some (data v)).
Proof.
  intros [Hw Ho] Ha Hin Hn Hm. destruct (proj1 (Forall_lookup _ _) Ho n o Hn) as [Hg _].
  pose proof (proj1 (Forall_lookup _ _) (acc_ops _ _ _ _ Ha) n o Hn) as Hk.
  assert (∀ i r, Search.get_by_id h i = Some r → r = on o ∨
    stored w' r = stored (world s) r ∧ signals w' !! i = signals (world s) !! i) as Hother.
  { intros i r Hi. destruct (work_reg _ _ _ Hw _ _ Hi) as (Hid & Hdb & _).
    destruct (work_reg _ _ _ Hw _ _ Hg) as (_ & Hdbo & _).
    destruct (decide (r_id r = r_id (on o))) as [Heq|Hne]; [left; congruence|right].
    rewrite <- Hid. eapply moves_frame; [done|congruence|done]. }
  split.
  - intros i r ms Hi Hms.
    assert (stored w' r = stored (world s) r → was ws r ms) as Hsame.
    { intros Hs. exists (world s). split; [done|]. by rewrite <- (machine_of_stored _ _ _ Hs). }
    destruct (Hother i r Hi) as [->|[Hs _]]; [|by auto].
    destruct (moves_stored _ _ _ _ _ Hm) as [?|(val & Hc & Hs)]; [by auto|right].
    unfold knows in Hk. rewrite Hc in Hk. destruct Hk as (ms' & Henc & Hacc).
    unfold machine_of in Hms. rewrite Hs in Hms. simpl in Hms. rewrite Henc in Hms. simpl in Hms.
    inv_eqs. exists o. split; [by eapply list_elem_of_lookup_2|done].
  - intros i r Hi. destruct (acc_signals _ _ _ _ Ha i r Hi) as (v & w & Hv & Hrest).
    destruct (Hother i r Hi) as [->|[_ ->]]; [|by eauto 10].
    destruct (moves_signals _ _ _ _ _ Hm) as [->|(val & Hc & ->)]; [by eauto 10|].
    destruct (work_reg _ _ _ Hw _ _ Hi) as (<- & _). rewrite lookup_insert_eq.
    unfold knows in Hk. rewrite Hc in Hk. destruct Hk as (w1 & ? & ?). eauto 10.
Qed.

Lemma accounted_next db h w0 ws s s' :
  healthy db h s → accounted h w0 ws s → world s ∈ ws → next db h s s' →
  accounted h w0 (world s' :: ws) s'.
Proof.
  intros Hh Ha Hin Hn. pose proof (acc_ops _ _ _ _ Ha) as Hops.
  assert (∀ w', Forall (knows (w' :: ws)) (ops s)) as Hmono.
  { intros w'. eapply Forall_impl; [exact Hops|]. intros o. apply knows_mono. intros x ?. by right. }
  assert (∀ w', (∀ i r, Search.get_by_id h i = Some r → stored w' r = stored (world s) r) →
    ∀ i r ms, Search.get_by_id h i = Some r → machine_of w' r = Some ms →
    was ws r ms ∨ ∃ o, o ∈ ops s ∧ on o = r ∧ accounts ws r (asked o) ms) as Hsame.
  { intros w' Hst i r ms Hi Hms. left. exists (world s). split; [done|].
    by rewrite <- (machine_of_stored _ _ _ (Hst i r Hi)). }
  destruct Hn as [w l i r q Hi Hq|w l n o w' c Hl Hs|w l w' He]; simpl in Hin, Hops, Hmono, Hsame.
  - apply (accounted_snoc _ _ _ _ _ Ha); simpl; [by apply Hsame|exact (acc_signals _ _ _ _ Ha)| |].
    + intros o Ho. exists o. split; [|done]. apply elem_of_app. by left.
    + apply Forall_app. split; [done|]. constructor; [done|constructor].
  - pose proof (proj1 (Forall_lookup _ _) Hops n o Hl) as Hk.
    destruct (go_moves _ _ _ _ _ _ _ Hh Hl Hs) as [[-> ->]|Hm].
    + apply (accounted_snoc _ _ _ _ _ Ha); simpl; [by apply Hsame|exact (acc_signals _ _ _ _ Ha)| |].
      * intros o1. by apply resume_asked.
      * apply Forall_insert; [done|]. destruct o. by eapply (Forall_lookup_1 _ _ n), Hl.
    + destruct (moves_accounted _ _ _ _ _ _ _ _ _ Hh Ha Hin Hl Hm) as [Hst Hsig].
      apply (accounted_snoc _ _ _ _ _ Ha); simpl; [done..|intros o1; by apply resume_asked|].
      apply Forall_insert; [done|]. by eapply knows_moves.
  - apply (accounted_snoc _ _ _ _ _ Ha); simpl; [| |by eauto|done].
    + apply Hsame. intros i r Hi. eapply elsewhere_stored; [done|].
      by eapply work_reg; [apply Hh|].
    + rewrite (else_signals _ _ _ He). exact (acc_signals _ _ _ _ Ha).
Qed.

Lemma accounted_start db h w :
  registry db h w → accounted h w [w] (mkSys (Session := Session) w []).
Proof.
  intros Hreg. split; [| |constructor].
  - intros i r ms _ (w' & ->%list_elem_of_singleton & Hm). by left.
  - intros i r Hi. destruct (Hreg i r Hi) as (<- & _ & [_ (v & Hv & Hs) _]). exists v, w.
    split; [done|]. split; [by apply list_elem_of_singleton|done].
Qed.

Lemma accounted_steps db h w ws s :
  registry db h w → is_Some (audit w) → steps db h (mkSys w []) ws s → accounted h w ws s.
Proof.
  intros Hreg Ha Hs. induction Hs as [|ws s s' Hs IH Hn]; [by eapply accounted_start|].
  eapply accounted_next; [|done|by eapply steps_head|done].
  eapply healthy_steps; [|done]. by apply healthy_start.
Qed.

(** *** Waiting while somebody else uses the machine *)

(** A request for [q] that has seen [u] use the machine, or nothing yet. *)
Definition waiting (u : UserRef) (q : request (Session := Session)) c : Prop :=
  match c with
  | Begin q' => q' = q
  | CheckManage x new old | CheckWrite x new old => q = ReqUpdate x new ∧ old = InUse u
  | _ => False
  end.

Lemma waiting_moves w r u p q c w' c' :
  moves w r c w' c' → machine_of w r = Some (mkMachineState (InUse u) p) →
  waiting u q c → bystander r u w (r_id r) q → w' = w ∧ (c' = Finished ∨ waiting u q c').
Proof.
  intros Hm Hst Hwait [?|Hby]; [done|].
  destruct Hm as [x new old Hs|x old val Hs Hu Hv|x old Hs Hu|new old val Hs Hv|new old val Hs Hv|
    x new old Hau|x new old Hau|x new old Hmay|x new old Hmay|val w1 Hp|val|val now|val];
    simpl in *; try done; try (rewrite Hst in Hs; inv_eqs; simpl in *); subst; simpl in *; try by auto.
  - inv_eqs. naive_solver.
  - destruct Hwait as [-> ->]. by destruct Hby.
  - destruct Hwait as [-> ->]. destruct Hby. inversion Hmay; (done || congruence).
Qed.

Lemma next_ops_kept db h s s' n o :
  next db h s s' → ops s !! n = Some o →
  ∃ o', ops s' !! n = Some o' ∧ on o' = on o ∧ asked o' = asked o.
Proof.
  intros Hn Ho. destruct Hn as [w l i r q Hi Hq|w l m o1 w' c Hl Hs|w l w' He]; simpl in *.
  - exists o. split; [|done]. rewrite lookup_app_l; [done|]. by eapply lookup_lt_Some.
  - destruct (decide (m = n)) as [->|Hne].
    + rewrite list_lookup_insert_eq by (by eapply lookup_lt_Some). eexists. split; [done|].
      rewrite Hl in Ho. by inv_eqs.
    + rewrite list_lookup_insert_ne by done. eauto.
  - eauto.
Qed.

Lemma next_ops_length db h s s' : next db h s s' → (length (ops s) ≤ length (ops s'))%nat.
Proof. destruct 1; simpl; rewrite ?length_app, ?length_insert; simpl; lia. Qed.

(** The requests on [r] made before number [k] are finished, the later ones are
    waiting or finished. *)
Definition waiting_ops (k : nat) r u s : Prop :=
  ∀ n o, ops s !! n = Some o → on o = r →
    at_ o = Finished ∨ (k ≤ n)%nat ∧ waiting u (asked o) (at_ o).

Lemma waiting_next db h k s s' r u p :
  healthy db h s → Search.get_by_id h (r_id r) = Some r → (k ≤ length (ops s))%nat →
  machine_of (world s) r = Some (mkMachineState (InUse u) p) → waiting_ops k r u s →
  (∀ n o, (k ≤ n)%nat → ops s !! n = Some o → bystander r u (world s) (r_id (on o)) (asked o)) →
  next db h s s' →
  machine_of (world s') r = Some (mkMachineState (InUse u) p) ∧ waiting_ops k r u s'.
Proof.
  intros Hh Hg Hlen Hm Hwait Hby Hn. pose proof Hh as [Hw _].
  destruct Hn as [w l i r' q Hi Hq|w l m o w' c Hl Hs|w l w' He]; simpl in *.
  - split; [done|]. intros n o Hno Hon. simpl in Hno.
    apply lookup_app_Some in Hno as [Hno|[Hge Hno]]; [by eapply Hwait|].
    apply list_lookup_singleton_Some in Hno as [Heq <-]. right. split; [lia|done].
  - assert (machine_of w' r = Some (mkMachineState (InUse u) p) ∧
      (on o = r → c = Finished ∨ (k ≤ m)%nat ∧ waiting u (asked o) c)) as [Hm' Hc].
    { destruct (go_moves _ _ _ _ _ _ _ Hh Hl Hs) as [[-> ->]|Hmv]; simpl in *.
      { split; [done|]. by eapply Hwait. }
      destruct (proj1 (Forall_lookup _ _) (healthy_ops _ _ _ Hh) m o Hl) as [Hgo _].
      destruct (decide (r_id r = r_id (on o))) as [Heq|Hne].
      - assert (on o = r) as Hor by congruence.
        destruct (Hwait m o Hl Hor) as [Hf|[Hge Hwt]]; [rewrite Hf in Hmv; by inversion Hmv|].
        rewrite Hor in Hmv. pose proof (Hby m o Hge Hl) as Hb. rewrite Hor in Hb.
        destruct (waiting_moves _ _ _ _ _ _ _ _ Hmv Hm Hwt Hb) as [-> Hc]. tauto.
      - split; [|congruence]. rewrite <- Hm. apply machine_of_stored.
        eapply moves_frame; [done| |done].
        by rewrite (proj1 (proj2 (work_reg _ _ _ Hw _ _ Hg))), (proj1 (proj2 (work_reg _ _ _ Hw _ _ Hgo))). }
    split; [done|]. intros n o' Hno Hon. simpl in Hno.
    apply list_lookup_insert_Some in Hno as [(<- & <- & _)|[_ Hno]]; [by apply Hc|by eapply Hwait].
  - split; [|done]. rewrite <- Hm. apply machine_of_stored.
    eapply elsewhere_stored; [done|]. by eapply work_reg.
Qed.

(** *** Requests that do not overlap *)

(** At most one request to each machine is in progress. *)
Definition serial (l : list (op (Session := Session))) : Prop :=
  ∀ m n o o', l !! m = Some o → l !! n = Some o' → on o = on o' →
    at_ o ≠ Finished → at_ o' ≠ Finished → m = n.

Definition next_serial db h s s' : Prop := next db h s s' ∧ serial (ops s').

(** The value a request has stored and not yet shown. *)
Definition reporting c : option (ArchivedValue State) :=
  match c with
  | Stamp val | Log val _ | Signal val => Some val
  | _ => None
  end.

(** The signal of [r] shows what is stored, or a request is about to see to it. *)
Record in_sync r s : Prop := {
  sync_reporting n o val :
    ops s !! n = Some o → on o = r → reporting (at_ o) = Some val → stored (world s) r = Some (data val);
  sync_signal :
    (∃ v, signals (world s) !! r_id r = Some v ∧ stored (world s) r = Some (data v)) ∨
    ∃ n o, ops s !! n = Some o ∧ on o = r ∧ is_Some (reporting (at_ o));
}.

Lemma reporting_unfinished c val : reporting c = Some val → c ≠ Finished.
Proof. by intros ? ->. Qed.

(** A step on the machine itself, when nobody else is at work on it. *)
Lemma in_sync_own r s n o w' c' :
  in_sync r s → serial (ops s) → ops s !! n = Some o → on o = r → moves (world s) r (at_ o) w' c' →
  in_sync r (mkSys w' (<[n := resume o c']> (ops s))).
Proof.
  destruct o as [r' q c]. cbn [on at_]. intros [Hrep Hsig] Hser Hn -> Hm.
  assert (n < length (ops s))%nat as Hlen by (by eapply lookup_lt_Some).
  assert (c ≠ Finished) as Hunf by (intros ->; by inversion Hm).
  assert (∀ m o', ops s !! m = Some o' → on o' = r → m ≠ n → reporting (at_ o') = None) as Hquiet.
  { intros m o' Hm' Hr' Hne. destruct (reporting (at_ o')) eqn:E; [|done]. destruct Hne.
    eapply Hser; [done..|by eapply reporting_unfinished|done]. }
  pose proof (λ val, Hrep n _ val Hn eq_refl) as Hown. cbn [at_] in Hown.
  assert (∀ val, reporting c' = Some val → stored w' r = Some (data val)) as Hnew.
  { destruct Hm as [| | | | | | | | |val' w1 Hp| | |]; simpl in *; intros ? [= <-]; auto.
    apply (put_stored _ _ _ _ Hp). }
  split; cbn [world ops].
  - intros m o' val [(-> & <- & _)|[Hne Hm']]%list_lookup_insert_Some Hr' Hv; [by apply Hnew|].
    rewrite (Hquiet m o') in Hv by auto. done.
  - destruct (reporting c') as [v|] eqn:E.
    { right. exists n, (mkOp r q c'). rewrite list_lookup_insert_eq by done. simpl. rewrite E. eauto. }
    left. destruct (reporting c) as [v|] eqn:Ec.
    + destruct Hm; simpl in *; try done. inv_eqs. eexists. rewrite lookup_insert_eq. auto.
    + destruct Hsig as [Hs|(m & o' & Hm' & Hr' & [v Hv])]; [|exfalso].
      * destruct Hm; simpl in *; done.
      * destruct (decide (m = n)) as [->|Hne]; [rewrite Hn in Hm'; inv_eqs; simpl in Hv; congruence|].
        by rewrite (Hquiet m o') in Hv.
Qed.

(** A step that has nothing to do with the machine. *)
Lemma in_sync_frame r s s' :
  in_sync r s → stored (world s') r = stored (world s) r →
  signals (world s') !! r_id r = signals (world s) !! r_id r →
  (∀ n o, on o = r → is_Some (reporting (at_ o)) → ops s' !! n = Some o ↔ ops s !! n = Some o) →
  in_sync r s'.
Proof.
  intros [Hrep Hsig] Hst Hsi Hops. split; rewrite Hst, ?Hsi.
  - intros n o val Hn Hr Hv. eapply Hrep; [|done..]. apply Hops; eauto.
  - destruct Hsig as [?|(n & o & Hn & Hr & Hv)]; [by left|right]. exists n, o. split; [|done].
    by apply Hops.
Qed.

Lemma in_sync_next db h r s s' :
  healthy db h s → Search.get_by_id h (r_id r) = Some r → serial (ops s) → in_sync r s →
  next db h s s' → in_sync r s'.
Proof.
  intros Hh Hg Hser Hs Hn. pose proof Hh as [Hw Hops].
  destruct Hn as [w l i r' q Hi Hq|w l n o w' c Hl Hstep|w l w' He]; simpl in Hw.
  - eapply in_sync_frame; [exact Hs|done..|]. intros n o Hr [v Hv]. simpl.
    destruct (decide (n < length l)) as [?|Hge]; [by rewrite lookup_app_l|].
    split; [|by intros ?%lookup_lt_Some]. rewrite lookup_app_r by lia.
    intros [_ <-]%list_lookup_singleton_Some. discriminate Hv.
  - destruct (go_moves _ _ _ _ _ _ _ Hh Hl Hstep) as [[-> ->]|Hm].
    { simpl. replace (<[n := resume o (at_ o)]> l) with l; [done|]. symmetry.
      destruct o. by apply list_insert_id. }
    destruct (proj1 (Forall_lookup _ _) Hops n o Hl) as [Hgo _]. simpl in Hm.
    destruct (decide (r_id r = r_id (on o))) as [Heq|Hne].
    + assert (on o = r) as Hr by congruence. rewrite Hr in Hm.
      exact (in_sync_own r (mkSys w l) n o w' c Hs Hser Hl Hr Hm).
    + destruct (moves_frame _ _ _ _ _ r Hm) as [Hst Hsi]; [|done|].
      { by rewrite (proj1 (proj2 (work_reg _ _ _ Hw _ _ Hg))), (proj1 (proj2 (work_reg _ _ _ Hw _ _ Hgo))). }
      eapply in_sync_frame; [exact Hs|done..|]. intros m o' Hr _. simpl.
      destruct (decide (n = m)) as [->|?]; [|by rewrite list_lookup_insert_ne].
      rewrite list_lookup_insert_eq by (by eapply lookup_lt_Some). rewrite Hl.
      split; intros [= <-]; simpl in Hr; congruence.
  - eapply in_sync_frame; [exact Hs| | |done]; simpl.
    + eapply elsewhere_stored; [done|]. by eapply work_reg.
    + by rewrite (else_signals _ _ _ He).
Qed.

Lemma serial_steps db h w s :
  registry db h w → is_Some (audit w) → rtc (next_serial db h) (mkSys w []) s →
  healthy db h s ∧ serial (ops s) ∧
  ∀ r, Search.get_by_id h (r_id r) = Some r → in_sync r s.
Proof.
  intros Hreg Ha Hs. revert s Hs. refine (rtc_ind_r _ _ _ _).
  - split; [by apply healthy_start|]. split; [intros m n o o' Hm; discriminate Hm|].
    intros r Hr. destruct (Hreg _ _ Hr) as (_ & _ & [_ (v & Hv & Hst) _]).
    split; [intros n o val Hn; discriminate Hn|]. left. eauto.
  - intros s1 s2 _ [Hn Hser] (Hh & Hser1 & Hsync). split; [by eapply healthy_next|]. split; [done|].
    intros r Hr. eapply in_sync_next; eauto.
Qed.

(** *** Schedules *)

Lemma schedule_app l1 l2 s : schedule (l1 ++ l2) s = let! s1 := schedule l1 s in schedule l2 s1.
Proof.
  revert s. induction l1 as [|n l1 IH]; intros s; simpl; [done|].
  destruct (ops s !! n) as [o|]; [|done]. destruct (step _ _ _) as [[w' c]| |]; [|done..]. apply IH.
Qed.

Lemma schedule_steps db h s0 ws s l s' :
  steps db h s0 ws s → schedule l s = Done s' → ∃ ws', steps db h s0 ws' s'.
Proof.
  revert ws s. induction l as [|n l IH]; intros ws s Hs Hl; simpl in Hl; [inv_eqs; eauto|].
  destruct (ops s !! n) as [o|] eqn:Ho; [|eauto].
  apply outcome_bind_Done in Hl as ([w' c] & Hst & Hl).
  eapply IH, Hl. eapply steps_snoc; [exact Hs|]. destruct s. by eapply next_go.
Qed.

(** A request that is given all its steps at once. *)
Lemma schedule_alone n i o w l w' :
  l !! i = Some o → alone n w (on o) (at_ o) = Done w' →
  schedule (replicate n i) (mkSys w l) = Done (mkSys w' (<[i := resume o Finished]> l)).
Proof.
  revert o w l. induction n as [|n IH]; intros o w l Hi Ha.
  { destruct o as [r q c]. destruct c; simpl in *; try done. inv_eqs. by rewrite list_insert_id. }
  rewrite alone_S in Ha. apply outcome_bind_Done in Ha as ([w1 c] & Hs & Ha).
  simpl. rewrite Hi. simpl. rewrite Hs. simpl.
  rewrite (IH (resume o c)); [by rewrite list_insert_insert_eq| |done].
  apply list_lookup_insert_eq. by eapply lookup_lt_Some.
Qed.

Lemma alone_from_previous w r new fuel :
  (4 ≤ fuel)%nat →
  alone (Session := Session) (S fuel) w r (ReadPrevious new) = Resource.set_status w r new.
Proof.
  intros Hf. rewrite alone_S, <- (alone_previous (Session := Session) w r new fuel) by done.
  cbn [step]. by destruct (read_previous w r new).
Qed.

(** The three accesses of a taking that the table allows to a writer. *)
Lemma take_checked w r (x : Session) p :
  valid_key (r_id r) → machine_of w r = Some (mkMachineState Free p) → session_valid w x →
  ¬ authorized w x (Permissions.as_permission (Permissions.manage (privs (r_desc r)))) →
  authorized w x (Permissions.as_permission (Permissions.write (privs (r_desc r)))) →
  let new := InUse (session_user x) in
  step w r (Begin (ReqUpdate x new)) = Done (w, CheckManage x new Free) ∧
  step w r (CheckManage x new Free) = Done (w, CheckWrite x new Free) ∧
  step w r (CheckWrite x new Free) = Done (w, ReadPrevious new).
Proof.
  intros Hk Hm Hv Hman Hwr new. cbn [step]. rewrite (get_state_stored w r _ Hk Hm).
  unfold Resource.has_manage, Resource.has_write, Resource.get_required_privs.
  destruct (permits_decides w x (Permissions.as_permission (Permissions.manage (privs (r_desc r)))) Hv)
    as (b1 & -> & Hb1).
  destruct (permits_decides w x (Permissions.as_permission (Permissions.write (privs (r_desc r)))) Hv)
    as (b2 & -> & Hb2).
  destruct b1; [naive_solver|]. destruct b2; [|naive_solver]. simpl.
  by rewrite bool_decide_true.
Qed.

Lemma step_force w r new ms :
  valid_key (r_id r) → machine_of w r = Some ms →
  ∃ val, step (Session := Session) w r (Begin (ReqForce new)) = Done (w, Put val) ∧
    archived_root (data val) = mkState (mkMachineState new (previous ms)).
Proof.
  intros Hk Hm. destruct (read_previous_spec w r new ms Hk Hm) as (val & Hr & Hv).
  exists val. split; [|done]. cbn [step]. by rewrite Hr.
Qed.

(** Storing a value, then reporting it. *)
Lemma step_put w r val :
  valid_key (r_id r) →
  ∃ w', step (Session := Session) w r (Put val) = Done (w', Stamp val) ∧ put_in w r val w'.
Proof.
  intros Hk. cbn [step]. unfold store.
  destruct (StateDB_put_spec (r_db r) (env w) (r_id r) val Hk) as (e & -> & He & _). simpl.
  eexists. split; [done|]. split; [|by intros; simpl; rewrite He, lookup_insert_ne|done..].
  unfold stored. simpl. by rewrite He, lookup_insert_eq.
Qed.

Lemma alone_reports w r val :
  is_Some (audit w) →
  ∃ w', alone (Session := Session) 3 w r (Stamp val) = Done w' ∧
    env w' = env w ∧ signals w' = <[r_id r := val]> (signals w) ∧ is_Some (audit w').
Proof.
  intros [log Hlog]. cbn [alone step outcome_bind]. unfold report. rewrite Hlog. cbn [unwrap outcome_bind].
  destruct (audit_log_spec log (clock w) (r_id r) (MState.display (inner (ArchivedVal.as_ref val))))
    as (log' & -> & _). simpl. eexists. split; [done|]. simpl. eauto.
Qed.

(** ** Properties *)

(** C2: however requests to the machines overlap, and whatever happens to the users
    meanwhile, if each is made by a session whose privilege checks return (no
    configured role inherits from itself, and the user's name is a valid key):
    every state a machine gets is accounted for by a request, with a transition
    of the table from a status the machine had, by privileges its user had; the
    signal shows a state the machine had; a step of a request in progress never
    panics; and once a request has taken eight steps of its own, it has returned,
    whatever steps the others took between them. *)
Theorem overlapping_requests_accounted db h w0 ws s i r :
  registry db h w0 → is_Some (audit w0) → steps db h (mkSys w0 []) ws s →
  Search.get_by_id h i = Some r →
  (∃ ms, Resource.get_state (world s) r = Done (mkState ms) ∧
     (machine_of w0 r = Some ms ∨ ∃ o, o ∈ ops s ∧ on o = r ∧ accounts ws r (asked o) ms)) ∧
  (∃ shown, Resource.get_state_ref (world s) r = Done (mkState shown) ∧ was ws r shown) ∧
  (∀ n o, ops s !! n = Some o →
     (∃ w' c, step (world s) (on o) (at_ o) = Done (w', c)) ∧
     ∀ turns s', went db h s turns s' → (8 ≤ length (filter (n =.) turns))%nat →
       at_ <$> ops s' !! n = Some Finished).
Proof.
  intros Hreg Hau Hs Hi. pose proof (accounted_steps _ _ _ _ _ Hreg Hau Hs) as Hacc.
  assert (healthy db h s) as Hh.
  { eapply healthy_steps; [|exact Hs]. by apply healthy_start. }
  pose proof Hh as [Hw _]. destruct (work_reg _ _ _ Hw _ _ Hi) as (Hid & _ & Hk). subst i.
  split_and!.
  - destruct (work_state _ _ _ Hw _ _ Hi) as [ms Hms]. exists ms.
    split; [by apply get_state_stored|].
    eapply acc_states; [done..|]. exists (world s). split; [by eapply steps_head|done].
  - destruct (acc_signals _ _ _ _ Hacc _ _ Hi) as (v & w & Hv & Hin & Hst).
    exists (inner (archived_root (data v))). split.
    + unfold Resource.get_state_ref. rewrite Hv. simpl. unfold ArchivedVal.as_ref, ArchivedVal.as_slice.
      by destruct (archived_root (data v)).
    + exists w. split; [done|]. unfold machine_of. by rewrite Hst.
  - intros n o Ho. split.
    { destruct (step_returns _ _ _ _ _ Hh Ho) as (w' & c & Hst & _). by exists w', c. }
    intros turns s' Hgo Hlen. destruct (went_remaining _ _ _ _ _ _ _ Hh Hgo Ho) as (o' & Ho' & Hle).
    rewrite Ho'. simpl. f_equal.
    assert (remaining (at_ o') = 0)%nat by (destruct (at_ o) in Hle; simpl in Hle; lia).
    by destruct (at_ o').
Qed.

(** C3: once no request to a machine in use is in progress, it stays in use
    by that person however the requests that follow overlap, as long as they are
    made by people who do not manage it and are not its user. *)
Theorem in_use_protected_at_rest db h w0 ws1 s1 ws2 s2 r u p :
  registry db h w0 → is_Some (audit w0) → Search.get_by_id h (r_id r) = Some r →
  steps db h (mkSys w0 []) ws1 s1 →
  (∀ o, o ∈ ops s1 → on o = r → at_ o = Finished) →
  machine_of (world s1) r = Some (mkMachineState (InUse u) p) →
  steps db h s1 ws2 s2 →
  (∀ n o w, (length (ops s1) ≤ n)%nat → ops s2 !! n = Some o → w ∈ ws2 →
     bystander r u w (r_id (on o)) (asked o)) →
  machine_of (world s2) r = Some (mkMachineState (InUse u) p).
Proof.
  intros Hreg Hau Hg Hs1 Hrest Hm Hs2 Hby.
  assert (healthy db h s1) as Hh1.
  { eapply healthy_steps; [|exact Hs1]. by apply healthy_start. }
  enough (machine_of (world s2) r = Some (mkMachineState (InUse u) p) ∧
    waiting_ops (length (ops s1)) r u s2 ∧ (length (ops s1) ≤ length (ops s2))%nat) by tauto.
  induction Hs2 as [|ws s s' Hs IH Hn].
  { split_and!; [done| |lia]. intros n o Ho Hon. left. by eapply Hrest, Hon; eapply list_elem_of_lookup_2. }
  assert (∀ n o w, (length (ops s1) ≤ n)%nat → ops s !! n = Some o → w ∈ ws →
    bystander r u w (r_id (on o)) (asked o)) as Hby'.
  { intros n o w Hle Ho Hw. destruct (next_ops_kept _ _ _ _ _ _ Hn Ho) as (o' & Ho' & <- & <-).
    eapply Hby; [done..|by right]. }
  destruct (IH Hby') as (Hms & Hwait & Hlen).
  destruct (waiting_next db h (length (ops s1)) s s' r u p) as [Hm' Hwait']; try done.
  - by eapply healthy_steps.
  - intros n o Hle Ho. eapply Hby'; [done..|by eapply steps_head].
  - split_and!; [done..|]. pose proof (next_ops_length _ _ _ _ Hn). lia.
Qed.

(** C4: if no two requests to the same machine overlap, however those to
    different machines do, then the signal of a machine shows the state the
    database has whenever no request to it is in progress. *)
Theorem serial_requests_coherent db h w0 s i r :
  registry db h w0 → is_Some (audit w0) → rtc (next_serial db h) (mkSys w0 []) s →
  Search.get_by_id h i = Some r → (∀ o, o ∈ ops s → on o = r → at_ o = Finished) →
  ∃ ms, Resource.get_state (world s) r = Done (mkState ms) ∧
    Resource.get_state_ref (world s) r = Done (mkState ms).
Proof.
  intros Hreg Ha Hs Hi Hrest. destruct (serial_steps _ _ _ _ Hreg Ha Hs) as ([Hw _] & _ & Hsync).
  destruct (work_reg _ _ _ Hw _ _ Hi) as (<- & _ & Hk).
  destruct (sync_signal _ _ (Hsync r Hi)) as [(v & Hv & Hst)|(n & o & Hn & Hr & [val Hv])].
  - destruct (work_state _ _ _ Hw _ _ Hi) as [ms Hms]. exists ms.
    assert (coherent (world s) r) as Hc by (split; [done|by eauto|apply Hw]).
    split; [by apply get_state_spec|by apply get_state_ref_spec].
  - apply list_elem_of_lookup_2 in Hn. rewrite (Hrest o Hn Hr) in Hv. discriminate Hv.
Qed.

(** [try_update] decides on the status it read first and writes later: two users
    who both find a machine free both take it, and the second one, who does not
    manage it, takes it from the first. *)
Theorem machine_taken_twice w r (x1 x2 : Session) p :
  coherent w r → machine_of w r = Some (mkMachineState Free p) →
  (∀ x, x ∈ [x1; x2] → session_valid w x ∧
     ¬ authorized w x (Permissions.as_permission (Permissions.manage (privs (r_desc r)))) ∧
     authorized w x (Permissions.as_permission (Permissions.write (privs (r_desc r))))) →
  let take x := ReqUpdate x (InUse (session_user x)) in
  let asks x := mkOp r (take x) (Begin (take x)) in
  ∃ s1 s2,
    schedule [0; 0; 0; 1; 1; 1; 0; 0; 0; 0; 0]%nat (mkSys w [asks x1; asks x2]) = Done s1 ∧
    ops s1 = [mkOp r (take x1) Finished; mkOp r (take x2) (ReadPrevious (InUse (session_user x2)))] ∧
    machine_of (world s1) r = Some (mkMachineState (InUse (session_user x1)) p) ∧
    schedule [1; 1; 1; 1; 1]%nat s1 = Done s2 ∧
    machine_of (world s2) r = Some (mkMachineState (InUse (session_user x2)) p).
Proof.
  intros Hc Hm Hx take asks. pose proof Hc as [Hk _ _].
  destruct (Hx x1) as (Hv1 & Hn1 & Hw1); [set_solver|].
  destruct (Hx x2) as (Hv2 & Hn2 & Hw2); [set_solver|].
  destruct (take_checked w r x1 p Hk Hm Hv1 Hn1 Hw1) as (E1 & E2 & E3).
  destruct (take_checked w r x2 p Hk Hm Hv2 Hn2 Hw2) as (F1 & F2 & F3).
  set (o1 := mkOp r (take x1) (ReadPrevious (InUse (session_user x1)))).
  set (o2 := mkOp r (take x2) (ReadPrevious (InUse (session_user x2)))).
  assert (schedule [0; 0; 0; 1; 1; 1]%nat (mkSys w [asks x1; asks x2]) = Done (mkSys w [o1; o2])) as Hchk.
  { unfold o1, o2, asks, take. cbn -[step]. rewrite E1. cbn -[step]. rewrite E2. cbn -[step]. rewrite E3. cbn -[step].
    rewrite F1. cbn -[step]. rewrite F2. cbn -[step]. by rewrite F3. }
  destruct (set_status_spec w r _ (InUse (session_user x1)) Hc Hm) as (w1 & Hs1 & Hu1).
  destruct (set_status_spec w1 r _ (InUse (session_user x2))
    (upd_coherent _ _ _ _ Hu1) (upd_state _ _ _ _ Hu1)) as (w2 & Hs2 & Hu2).
  exists (mkSys w1 [resume o1 Finished; o2]), (mkSys w2 [resume o1 Finished; resume o2 Finished]).
  split_and!; [|done|apply Hu1| |apply Hu2].
  - change [0; 0; 0; 1; 1; 1; 0; 0; 0; 0; 0]%nat with ([0; 0; 0; 1; 1; 1]%nat ++ replicate 5 0%nat).
    rewrite schedule_app, Hchk. cbn [outcome_bind].
    apply (schedule_alone 5 0 o1 w [o1; o2] w1); [done|]. rewrite <- Hs1. by apply alone_from_previous.
  - change [1; 1; 1; 1; 1]%nat with (replicate 5 1%nat).
    apply (schedule_alone 5 1 o2 w1 [resume o1 Finished; o2] w2); [done|].
    rewrite <- Hs2. by apply alone_from_previous.
Qed.

(** [Inner::set_state] stores the state and sets the signal without a lock around
    both: two overlapping changes can store one state last and show the other
    from then on. *)
Theorem signal_left_behind w r ms (a b : Status) :
  coherent w r → machine_of w r = Some ms →
  ∃ s, schedule [0; 1; 0; 1; 1; 1; 1; 0; 0; 0]%nat
         (mkSys w [mkOp (Session := Session) r (ReqForce a) (Begin (ReqForce a));
                   mkOp r (ReqForce b) (Begin (ReqForce b))]) = Done s ∧
    Forall (λ o, at_ o = Finished) (ops s) ∧
    Resource.get_state (world s) r = Done (mkState (mkMachineState b (previous ms))) ∧
    Resource.get_state_ref (world s) r = Done (mkState (mkMachineState a (previous ms))).
Proof.
  intros Hc Hm. pose proof Hc as [Hk _ Hau].
  destruct (step_force w r a ms Hk Hm) as (va & Ea & Hva).
  destruct (step_force w r b ms Hk Hm) as (vb & Eb & Hvb).
  destruct (step_put w r va Hk) as (w1 & Hp1 & Hi1).
  destruct (step_put w1 r vb Hk) as (w2 & Hp2 & Hi2).
  destruct (alone_reports w2 r vb) as (w3 & Hr3 & He3 & _ & Ha3).
  { by rewrite (put_audit _ _ _ _ Hi2), (put_audit _ _ _ _ Hi1). }
  destruct (alone_reports w3 r va Ha3) as (w4 & Hr4 & He4 & Hs4 & _).
  set (o1 c := mkOp (Session := Session) r (ReqForce a) c).
  set (o2 c := mkOp (Session := Session) r (ReqForce b) c).
  exists (mkSys w4 [o1 Finished; o2 Finished]). split_and!.
  - change [0; 1; 0; 1; 1; 1; 1; 0; 0; 0]%nat
      with (([0; 1; 0]%nat ++ replicate 4 1%nat) ++ replicate 3 0%nat).
    rewrite !schedule_app.
    assert (schedule [0; 1; 0]%nat (mkSys w [o1 (Begin (ReqForce a)); o2 (Begin (ReqForce b))])
      = Done (mkSys w1 [o1 (Stamp va); o2 (Put vb)])) as Hpre.
    { unfold o1, o2. cbn -[step]. rewrite Ea. cbn -[step]. rewrite Eb. cbn -[step]. by rewrite Hp1. }
    unfold o1, o2 in *. rewrite Hpre. cbn [outcome_bind].
    rewrite (schedule_alone 4 1 (o2 (Put vb)) w1 _ w3); [cbn [outcome_bind]|done|].
    + by rewrite (schedule_alone 3 0 (o1 (Stamp va)) w3 _ w4).
    + rewrite alone_S. cbn [on at_ o2]. by rewrite Hp2.
  - by repeat constructor.
  - apply get_state_stored; [done|]. unfold machine_of, stored. cbn [world]. rewrite He4, He3.
    fold (stored w2 r). rewrite (put_stored _ _ _ _ Hi2). simpl. by rewrite Hvb.
  - unfold Resource.get_state_ref. cbn [world]. rewrite Hs4, lookup_insert_eq. simpl.
    unfold ArchivedVal.as_ref, ArchivedVal.as_slice. by rewrite Hva.
Qed.

End Lemmas.

(** ** Witnesses *)

Section Witnesses.

Definition carol : UserRef := mkUserRef "carol".

(** The shop with bob and carol, who may use the lathe, in status [st]. *)
Definition busy_shop (st : MachineState) : World :=
  mkWorld
    ({[ "user" :=
          {[ "bob" := [N.pos (encode (mkUser "bob" (mkUserData ["user"] None ∅)))];
             "carol" := [N.pos (encode (mkUser "carol" (mkUserData ["user"] None ∅)))] ]};
        "state" := {[ "lathe" := [N.pos (encode st)] ]} ]} : mapenv)
    (Some shop_log) {[ "lathe" := mkArchivedValue [N.pos (encode st)] ]} 0.

Lemma busy_shop_coherent st : coherent (busy_shop st) lathe.
Proof.
  split; [vm_compute; split; lia| |by eexists].
  exists (mkArchivedValue [N.pos (encode st)]). split; [done|].
  unfold stored, busy_shop. simpl. unfold mapenv_contents.
  by rewrite lookup_insert_ne, lookup_singleton_eq.
Qed.

Lemma busy_shop_machine st : machine_of (busy_shop st) lathe = Some st.
Proof.
  unfold machine_of. destruct (busy_shop_coherent st) as [_ (v & Hv & ->) _].
  simpl in Hv. rewrite lookup_singleton_eq in Hv. inv_eqs. simpl. by rewrite decode_encode.
Qed.

(** bob has asked for something and the request has run to its end. *)
Lemma asked_alone st q :
  (∀ w, request_valid w q) →
  ∃ ws s, steps state_db shop_handle (mkSys (shop st) []) ws s ∧
    ops s = [mkOp (Session := Session.SessionHandle) lathe q Finished].
Proof.
  intros Hq. pose proof (healthy_start (Session := Session.SessionHandle) _ _ _ (shop_registry st))
    as Hh. specialize (Hh ltac:(by eexists)).
  assert (next state_db shop_handle (mkSys (shop st) []) (mkSys (shop st) [mkOp lathe q (Begin q)])) as Hn.
  { by apply (next_ask _ _ _ [] "lathe"). }
  destruct (alone_total state_db shop_handle (mkSys (shop st) [mkOp lathe q (Begin q)]) 0
    (mkOp lathe q (Begin q)) 8) as [w' Hw']; [by eapply healthy_next|done|simpl; lia|].
  pose proof (schedule_alone 8 0 (mkOp lathe q (Begin q)) (shop st) [mkOp lathe q (Begin q)] w' eq_refl Hw')
    as Hsch.
  destruct (schedule_steps state_db shop_handle (mkSys (shop st) [])
    _ _ _ _ (steps_snoc _ _ _ _ _ _ (steps_nil _ _ _) Hn) Hsch) as [ws Hs].
  exists ws. eexists. split; [exact Hs|done].
Qed.

Lemma bob_request_valid w new : request_valid w (ReqUpdate (session_of bob) new).
Proof. apply shop_session_valid. vm_compute. split; lia. Qed.

(** alice is using the lathe; bob asks to give it back. *)
Lemma in_use_protected_at_rest_witness :
  ∃ ws s, steps state_db shop_handle (mkSys (shop (mkMachineState (InUse alice) None)) []) ws s ∧
    ops s = [mkOp lathe (ReqGiveBack (session_of bob)) Finished] ∧
    machine_of (world s) lathe = Some (mkMachineState (InUse alice) None).
Proof.
  destruct (asked_alone (mkMachineState (InUse alice) None) (ReqGiveBack (session_of bob)))
    as (ws & s & Hs & Ho); [done|].
  exists ws, s. split; [exact Hs|]. split; [exact Ho|].
  eapply (in_use_protected_at_rest state_db shop_handle _ _ _ ws s lathe alice None (shop_registry _)).
  - by eexists.
  - done.
  - apply steps_nil.
  - by intros o ?%not_elem_of_nil.
  - apply shop_machine.
  - exact Hs.
  - intros n o w _ Hn Hw. rewrite Ho in Hn. apply list_lookup_singleton_Some in Hn as [_ <-].
    by right.
Defined.

Lemma busy_permits st u p :
  u ∈ ["bob"; "carol"] →
  permits (busy_shop st) (session_of (mkUserRef u)) p =
  Roles.is_permitted (depth_bound demo_roles) demo_roles ["user"] p.
Proof.
  intros Hu. simpl. unfold Session.has_perm. rewrite get_user_spec.
  - simpl. unfold users_in. rewrite lookup_fmap. unfold mapenv_contents. simpl. rewrite lookup_insert_eq. simpl.
    apply elem_of_cons in Hu as [->|Hu].
    + rewrite lookup_insert_eq. simpl. by rewrite decode_encode.
    + apply list_elem_of_singleton in Hu as ->. rewrite lookup_insert_ne, lookup_singleton_eq by done.
      simpl. by rewrite decode_encode.
  - apply elem_of_cons in Hu as [->|Hu]; [|apply list_elem_of_singleton in Hu as ->];
      vm_compute; split; lia.
Qed.

(** bob and carol may use the lathe and do not manage it. *)
Lemma busy_users st u :
  u ∈ ["bob"; "carol"] →
  let x := session_of (mkUserRef u) in
  session_valid (busy_shop st) x ∧
  ¬ authorized (busy_shop st) x "lab.manage.lathe" ∧ authorized (busy_shop st) x "lab.use.lathe".
Proof.
  intros Hu x.
  assert (session_valid (busy_shop st) x) as Hv.
  { apply shop_session_valid. apply elem_of_cons in Hu as [->|Hu];
      [|apply list_elem_of_singleton in Hu as ->]; vm_compute; split; lia. }
  split; [done|].
  destruct (permits_decides _ _ "lab.manage.lathe" Hv) as (b1 & Hb1 & <-).
  destruct (permits_decides _ _ "lab.use.lathe" Hv) as (b2 & Hb2 & <-).
  unfold x in Hb1, Hb2. rewrite busy_permits in Hb1, Hb2 by done.
  split; [intros ->; revert Hb1|destruct b2; [done|revert Hb2]]; by vm_compute.
Qed.

Lemma busy_shop_registry st : registry state_db shop_handle (busy_shop st).
Proof.
  intros i r Hi. destruct (shop_registry st i r Hi) as (Hid & Hdb & _). split; [done|]. split; [done|].
  assert (r = lathe) as ->; [|apply busy_shop_coherent].
  revert Hi. unfold Search.get_by_id. simpl. intros [_ <-]%lookup_singleton_Some. done.
Qed.

(** bob has taken the lathe, and carol's request, which found it free, is still in
    progress. *)
Lemma overlapping_requests_accounted_witness :
  ∃ ws s ms, steps state_db shop_handle (mkSys (busy_shop MState.new) []) ws s ∧
    ops s = [mkOp lathe (ReqUpdate (session_of bob) (InUse bob)) Finished;
             mkOp lathe (ReqUpdate (session_of carol) (InUse carol)) (ReadPrevious (InUse carol))] ∧
    Resource.get_state (world s) lathe = Done (mkState ms) ∧
    ∃ w' c, step (world s) lathe (ReadPrevious (Session := Session.SessionHandle) (InUse carol)) = Done (w', c).
Proof.
  destruct (machine_taken_twice (busy_shop MState.new) lathe (session_of bob) (session_of carol) None)
    as (s & _ & Hsch & Hops & _).
  - apply busy_shop_coherent.
  - apply busy_shop_machine.
  - intros x Hx. apply elem_of_cons in Hx as [->|Hx]; [apply busy_users; left|].
    apply list_elem_of_singleton in Hx as ->. apply busy_users. right. left.
  - assert (∃ ws, steps state_db shop_handle (mkSys (busy_shop MState.new) []) ws s) as [ws Hs].
    { eapply schedule_steps; [|exact Hsch]. eapply (steps_snoc _ _ _ [_; _] (mkSys _ [_]));
        [eapply (steps_snoc _ _ _ [_] (mkSys _ [])); [apply steps_nil|]|].
      - apply (next_ask _ _ _ [] "lathe"); [done|]. intros w. apply bob_request_valid.
      - apply (next_ask _ _ _ [_] "lathe"); [done|]. intros w. apply shop_session_valid. vm_compute. split; lia. }
    destruct (overlapping_requests_accounted state_db shop_handle (busy_shop MState.new) ws s "lathe" lathe)
      as ((ms & Hms & _) & _ & Hgo).
    + apply busy_shop_registry.
    + by eexists.
    + exact Hs.
    + done.
    + destruct (Hgo 1%nat (mkOp lathe (ReqUpdate (session_of carol) (InUse carol)) (ReadPrevious (InUse carol))))
        as [Hstep _]; [by rewrite Hops|].
      exists ws, s, ms. exact (conj Hs (conj Hops (conj Hms Hstep))).
Defined.

Lemma machine_taken_twice_witness :
  ∃ s1 s2,
    schedule [1; 1; 1; 1; 1]%nat s1 = Done s2 ∧
    machine_of (world s1) lathe = Some (mkMachineState (InUse bob) None) ∧
    machine_of (world s2) lathe = Some (mkMachineState (InUse carol) None).
Proof.
  destruct (machine_taken_twice (busy_shop MState.new) lathe (session_of bob) (session_of carol) None)
    as (s1 & s2 & _ & _ & H1 & Hs & H2).
  - apply busy_shop_coherent.
  - apply busy_shop_machine.
  - intros x Hx. apply elem_of_cons in Hx as [->|Hx]; [apply busy_users; left|].
    apply list_elem_of_singleton in Hx as ->. apply busy_users. right. left.
  - exists s1, s2. exact (conj Hs (conj H1 H2)).
Defined.

Lemma signal_left_behind_witness :
  ∃ w, Resource.get_state w lathe = Done (mkState (mkMachineState Disabled None)) ∧
    Resource.get_state_ref w lathe = Done (mkState (mkMachineState Free None)).
Proof.
  destruct (signal_left_behind (Session := Session.SessionHandle) (shop MState.new) lathe MState.new
    Free Disabled) as (s & _ & _ & Hdb & Hsig).
  - apply shop_coherent.
  - apply shop_machine.
  - exists (world s). exact (conj Hdb Hsig).
Defined.

(** bob's request has been made. *)
Lemma serial_requests_coherent_witness :
  ∃ s, ops s = [mkOp lathe (ReqGiveBack (session_of bob)) Finished] ∧
    ∃ ms, Resource.get_state (world s) lathe = Done (mkState ms) ∧
      Resource.get_state_ref (world s) lathe = Done (mkState ms).
Proof.
  set (q := ReqGiveBack (session_of bob)). set (w := shop MState.new).
  assert (step w lathe (Begin q) = Done (w, Finished)) as Hstep.
  { cbn [step q]. rewrite (get_state_spec w lathe MState.new (shop_coherent _) (shop_machine _)). done. }
  exists (mkSys w [mkOp lathe q Finished]). split; [done|].
  apply (serial_requests_coherent (Session := Session.SessionHandle) state_db shop_handle w _ "lathe").
  - apply shop_registry.
  - by eexists.
  - eapply rtc_l; [|eapply rtc_l; [|apply rtc_refl]]; split.
    + apply (next_ask _ _ w [] "lathe" lathe q); [reflexivity|intros; exact I].
    + intros [|m] [|n] o o' Hm Hn; simpl in *; try discriminate; done.
    + apply (next_go _ _ w [mkOp lathe q (Begin q)] 0 (mkOp lathe q (Begin q)) w Finished);
        [reflexivity|exact Hstep].
    + intros [|m] [|n] o o' Hm Hn; simpl in *; try discriminate; done.
  - done.
  - intros o ->%list_elem_of_singleton _. done.
Defined.

End Witnesses.
