(* ===== verification/UserApi.v ===== *)
(** * User and user-system capabilities (bffhd/capnp/user.rs,
    bffhd/capnp/user_system.rs, bffhd/capnp/session.rs,
    bffhd/capnp/permissionsystem.rs)

    The handlers of the Cap'n Proto interfaces on users.  A capability is the
    server object behind it; what a handler puts into its result is a record
    of the fields and capabilities that are set.  The hex codec and fresh
    salts are parameters. *)

From S2P Require Import Prelude Permissions Roles Db Users Machine Session.

(** ** Parameters *)

Class Hex := {
  hex_encode : list N → string;
  hex_decode : string → option (list N);
}.

Definition is_hex_digit (c : ascii) : bool :=
  let n := N_of_ascii c in
  in_range 48 57 n || in_range 65 70 n || in_range 97 102 n.

Class HexLaws `{Hex} : Prop := {
  hex_roundtrip b : Forall (fits 8) b → hex_decode (hex_encode b) = Some b;
  hex_decode_digits s b :
    hex_decode s = Some b → sall is_hex_digit s = true ∧ String.length s = 2 * length b;
}.

Inductive capnp_error :=
| CapnpFailed (msg : string)
| CapnpUnimplemented (msg : string)
| CapnpDb (e : db_error).

Definition not_implemented : capnp_error := CapnpUnimplemented "method not implemented".

(** The part of the configuration the handlers read ([CONFIG]). *)
Record SpaceConfig := mkSpaceConfig { spacename : string; instanceurl : string }.

(** ** The [User] server object *)

Section Data.
Context `{Lmdb}.

Record UserCap := mkUserCap {
  uc_session : Session.SessionHandle;
  uc_user : UserRef;
}.

(** A filled-in user: which capabilities are set. *)
Record UserView := mkUserView {
  uv_username : string;
  uv_info : option UserCap;
  uv_manage : option UserCap;
  uv_admin : option UserCap;
  uv_card : option UserCap;
}.

End Data.

Module UserApi.
Section UserApi.
Context `{Lmdb} `{Rkyv User} `{AuditIo} `{Argon2} `{Hex}.
Implicit Types (w : World) (session : Session.SessionHandle) (self : UserCap).

(** What a handler returns: the world and the reply or an error. *)
Abbreviation reply A := (outcome (World * result A capnp_error)).

Definition new session (user : UserRef) : UserCap := mkUserCap session user.
Definition new_self session : UserCap := new session (Session.get_user_ref session).

(** [session.users.get_user] *)
Definition lookup_user w session (uid : string) : outcome (option User) :=
  Users.get_user (Session.users session) (env w) uid.

(** [pry!(session.users.put_user(..))] followed by [Promise::ok] *)
Definition store_user w session (uid : string) (user : User) : reply () :=
  let! r := Users.put_user (Session.users session) (env w) uid user in
  Done (match r with
        | Ok e => (set_env w e, Ok ())
        | Err e => (w, Err (CapnpDb e))
        end).

Definition fill w session (user : User) : outcome UserView :=
  let is_me := bool_decide (ref_id (Session.get_user_ref session) = id user) in
  let client := new session (UserRef_new (id user)) in
  let! info := if is_me then Done true else permits w session "bffh.users.info" in
  let! admin := permits w session "bffh.users.admin" in
  let set (b : bool) := if b then Some client else None in
  Done (mkUserView (id user) (set info) (set is_me) (set admin) (set admin)).

Definition build_optional w session (user : option UserRef) : outcome (option UserView) :=
  match user with
  | None => Done None
  | Some u =>
      let! o := lookup_user w session (get_username u) in
      match o with
      | None => Done None
      | Some user => let! v := fill w session user in Done (Some v)
      end
  end.

Definition build w session : outcome UserView :=
  let this := new_self session in
  let! user := Session.get_user (uc_session this) w in
  fill w (uc_session this) user.

(** *** info, manage, admin *)

Definition list_roles w self : outcome (list string) :=
  let! o := lookup_user w (uc_session self) (get_username (uc_user self)) in
  Done (match o with Some user => Users.roles (userdata user) | None => [] end).

Definition manage_pwd w self (salt : list N) (old_pw new_pw : string) : reply () :=
  let uid := get_username (uc_user self) in
  let! o := lookup_user w (uc_session self) uid in
  match o with
  | None => Done (w, Ok ())
  | Some user =>
      match UserOps.check_password user old_pw with
      | Ok true =>
          let! user' := UserOps.set_pw user new_pw salt in
          store_user w (uc_session self) uid user'
      | _ => Done (w, Ok ())
      end
  end.

Definition add_role w self (rolename : string) : reply () :=
  match Roles.get (Session.roles (uc_session self)) rolename with
  | None => Done (w, Ok ())
  | Some _ =>
      let uid := get_username (uc_user self) in
      let! o := lookup_user w (uc_session self) uid in
      let! target := unwrap o in
      let rs := Users.roles (userdata target) in
      if existsb (λ r, bool_decide (r = rolename)) rs then Done (w, Ok ())
      else store_user w (uc_session self) uid
             (map_userdata (set_roles (rs ++ [rolename])) target)
  end.

Definition remove_role w self (rolename : string) : reply () :=
  match Roles.get (Session.roles (uc_session self)) rolename with
  | None => Done (w, Ok ())
  | Some _ =>
      let uid := get_username (uc_user self) in
      let! o := lookup_user w (uc_session self) uid in
      let! target := unwrap o in
      let rs := Users.roles (userdata target) in
      if existsb (λ r, bool_decide (r = rolename)) rs then
        store_user w (uc_session self) uid
          (map_userdata (set_roles (List.filter (λ r, negb (bool_decide (r = rolename))) rs)) target)
      else Done (w, Ok ())
  end.

Definition admin_pwd w self (salt : list N) (new_pw : string) : reply () :=
  let uid := get_username (uc_user self) in
  let! o := lookup_user w (uc_session self) uid in
  match o with
  | None => Done (w, Ok ())
  | Some user =>
      let! user' := UserOps.set_pw user new_pw salt in
      store_user w (uc_session self) uid user'
  end.

Definition get_user_info_extended w self : reply () := Done (w, Err not_implemented).

(** *** DESFire cards *)

Definition nonexisting (uid : string) : capnp_error :=
  CapnpFailed ("User API object with nonexisting user " +:+
    String "034" (uid +:+ String "034" EmptyString)).

(** The token as text: UTF-8 as it is, anything else in hex. *)
Definition token_text (token : list N) : string :=
  match from_utf8 token with
  | Some url => url
  | None => hex_encode token
  end.

Definition get_token_list w self : outcome (result (list (list N)) capnp_error) :=
  let uid := get_username (uc_user self) in
  let! o := lookup_user w (uc_session self) uid in
  match o with
  | None => Done (Err (nonexisting uid))
  | Some user =>
      let tk := default [] (kv (userdata user) !! "cardtoken" ≫= hex_decode) in
      Done (Ok (if decide (tk = []) then [] else [tk]))
  end.

Definition bind w self (token auth_key : list N) : reply () :=
  let token := token_text token in
  let card_key := hex_encode auth_key in
  let uid := get_username (uc_user self) in
  let! o := lookup_user w (uc_session self) uid in
  match o with
  | None => Done (w, Err (nonexisting uid))
  | Some user =>
      let m := kv (userdata user) in
      let store :=
        store_user w (uc_session self) uid
          (map_userdata (set_kv (<["cardkey" := card_key]> (<["cardtoken" := token]> m))) user) in
      match m !! "cardtoken", m !! "cardkey" with
      | Some prev_token, Some prev_cardk =>
          if decide (prev_token = token ∧ prev_cardk = card_key) then Done (w, Ok ())
          else if decide (prev_token = token) then Done (w, Ok ())
          else store
      | _, _ => store
      end
  end.

Definition unbind w self (token : list N) : reply () :=
  let token := token_text token in
  let uid := get_username (uc_user self) in
  let! o := lookup_user w (uc_session self) uid in
  match o with
  | None => Done (w, Err (nonexisting uid))
  | Some user =>
      let m := kv (userdata user) in
      let m' :=
        match m !! "cardtoken" with
        | Some prev_token =>
            if decide (token = prev_token) then delete "cardkey" (delete "cardtoken" m) else m
        | None => m
        end in
      store_user w (uc_session self) uid (map_userdata (set_kv m') user)
  end.

(** [gen_card_token]: the 16 bytes of a fresh UUID. *)
Definition gen_card_token (uuid : list N) : result (list N) capnp_error := Ok uuid.

Definition get_meta_info : result (list N) capnp_error :=
  Ok (bytes_of_string ("FABACCESS" +:+ String "000" ("DESFIRE" +:+
        String "000" ("1.0" +:+ String "000" EmptyString)))).

Definition get_space_info (config : option SpaceConfig) : result (list N) capnp_error :=
  match spacename <$> config with
  | None => Err (CapnpFailed "No space name configured")
  | Some space =>
      match instanceurl <$> config with
      | None => Err (CapnpFailed "No instance url configured")
      | Some url =>
          Ok (bytes_of_string ("urn:fabaccess:lab:" +:+ space +:+ String "000" url))
      end
  end.

End UserApi.
End UserApi.

(** ** The user system *)

Inductive add_user_error := AlreadyExists | UsernameInvalid | PasswordInvalid.

Module UserSystem.
Section UserSystem.
Context `{Lmdb} `{Rkyv User} `{AuditIo} `{Argon2}.
Implicit Types (w : World) (session : Session.SessionHandle).

Definition get_user_self w session : outcome UserView := UserApi.build w session.

(** [get_user_list]: every user of the database, filled in; [debug] is the [Debug]
    form of an error of the lmdb crate. *)
Fixpoint fill_all w session (l : list (string * UserData)) : outcome (list UserView) :=
  match l with
  | [] => Done []
  | (i, ud) :: l' =>
      let! v := UserApi.fill w session (mkUser i ud) in
      let! vs := fill_all w session l' in
      Done (v :: vs)
  end.

Definition get_user_list (debug : lmdb_error → string) w session
  : outcome (result (list UserView) capnp_error) :=
  match UserDB.get_all (Users.userdb (Session.users session)) (env w) with
  | Err (mkDbError e) => Done (Err (CapnpFailed ("UserDB error: Error(" +:+ debug e +:+ ")")))
  | Ok us => let! vs := fill_all w session (map_to_list us) in Done (Ok vs)
  end.

Definition add_user_fallible w session (salt : list N) (username password : string)
  : outcome (World * result (result UserView add_user_error) capnp_error) :=
  if decide (username ≠ EmptyString ∧ password ≠ EmptyString) then
    let! o := UserApi.lookup_user w session username in
    match o with
    | None =>
        let! user := UserOps.new_with_plain_pw username password salt in
        let! (w', r) := UserApi.store_user w session username user in
        match r with
        | Err e => Done (w', Err e)
        | Ok () => let! v := UserApi.fill w' session user in Done (w', Ok (Ok v))
        end
    | Some _ => Done (w, Ok (Err AlreadyExists))
    end
  else if decide (username = EmptyString) then Done (w, Ok (Err UsernameInvalid))
  else Done (w, Ok (Err PasswordInvalid)).

(** [remove_user]: a failure is only logged. *)
Definition remove_user w session (who : string) : World :=
  match Users.del_user (Session.users session) (env w) who with
  | Ok e => set_env w e
  | Err _ => w
  end.

Definition get_user_by_name w session (username : string) : outcome (option UserView) :=
  UserApi.build_optional w session (Some (UserRef_new username)).

End UserSystem.
End UserSystem.

(** ** The session object and the permission system *)

Section ApiSession.
Context `{Lmdb}.

Record SessionView := mkSessionView {
  sv_machines : Session.SessionHandle;
  sv_user_info : Session.SessionHandle;
  sv_user_manage : option Session.SessionHandle;
  sv_user_search : option Session.SessionHandle;
  sv_permissions : Roles.t;
}.

End ApiSession.

Module ApiSession.
Section ApiSession.
Context `{Lmdb} `{Rkyv User} `{AuditIo}.

(** [APISession::build]; [Machines::new] needs the global resources. *)
Definition build (w : World) (resources_set : bool) (session : Session.SessionHandle)
  : outcome SessionView :=
  if resources_set then
    let! m := permits w session "bffh.users.manage" in
    let set (b : bool) := if b then Some session else None in
    Done (mkSessionView session session (set m) (set m) (Session.roles session))
  else Panic.

(** [Permissions::get_role_list] *)
Definition get_role_list (roles : Roles.t) : list string := Roles.list_roles roles.

End ApiSession.
End ApiSession.

(** ** Lemmas *)

Section Lemmas.
Context `{LmdbLaws} `{!LmdbHealthy} `{RkyvLaws User} `{AuditIo} `{Argon2Laws} `{HexLaws}.
Implicit Types (w : World) (session : Session.SessionHandle).

(** The accounts a session sees. *)
Definition accounts w session : gmap string User :=
  users_in (Users.userdb (Session.users session)) (env_contents (env w)).

(** [w'] is [w] with the account [uid] set to [user]; nothing else changed. *)
Record account_set w session uid (user : User) w' : Prop := mkAccountSet {
  as_accounts : accounts w' session = <[uid := user]> (accounts w session);
  as_dbs : ∀ d, d ≠ user_dbi (Users.userdb (Session.users session)) →
    env_contents (env w') d = env_contents (env w) d;
  as_signals : signals w' = signals w;
  as_audit : audit w' = audit w;
}.

Lemma lookup_user_spec w session uid :
  valid_key uid → UserApi.lookup_user w session uid = Done (accounts w session !! uid).
Proof. intros Hk. by apply get_user_spec. Qed.

Lemma store_user_spec w session uid user :
  valid_key uid →
  ∃ w', UserApi.store_user w session uid user = Done (w', Ok ()) ∧
    account_set w session uid user w'.
Proof.
  intros Hk. unfold UserApi.store_user, Users.put_user.
  destruct (UserDB_put_spec (Users.userdb (Session.users session)) (env w) uid user Hk)
    as (e & -> & Hu & Hd). simpl. by eexists.
Qed.

Lemma set_pw_spec user pw salt :
  length salt = 16 →
  ∃ h, UserOps.set_pw user pw salt = Done (map_userdata (set_passwd (Some h)) user) ∧
    UserOps.check_password (map_userdata (set_passwd (Some h)) user) pw = Ok true.
Proof.
  intros Hs. unfold UserOps.set_pw, UserOps.hash_pw.
  destruct (argon2_hash_ok pw salt Hs) as (h & -> & _ & Hv). simpl. eauto.
Qed.

Lemma has_role_spec rolename (rs : list string) :
  existsb (λ r, bool_decide (r = rolename)) rs = bool_decide (rolename ∈ rs).
Proof.
  apply eq_bool_prop_intro. rewrite !Is_true_true, existsb_exists, bool_decide_eq_true. split.
  - intros (r & Hin & Hr%bool_decide_eq_true). subst. by apply list_elem_of_In.
  - intros Hin. exists rolename. split; [by apply list_elem_of_In|]. by apply bool_decide_eq_true.
Qed.

End Lemmas.

(** ** Properties *)

Section Properties.
Context `{LmdbLaws} `{!LmdbHealthy} `{RkyvLaws User} `{AuditIo} `{Argon2Laws} `{HexLaws}.
Implicit Types (w : World) (session : Session.SessionHandle) (self : UserCap).

(** a user object carries exactly the capabilities its viewer may
    use: [info] for oneself or with the permission "bffh.users.info", [manage]
    for oneself only, [admin] and the card interface with "bffh.users.admin";
    each capability acts on the viewed user with the viewer's session. *)
Theorem user_view_capabilities w session user :
  session_valid w session →
  ∃ v, UserApi.fill w session user = Done v ∧ uv_username v = id user ∧
    let client := mkUserCap session (mkUserRef (id user)) in
    let me := ref_id (Session.user session) = id user in
    (uv_info v = Some client ↔ me ∨ session_authorized w session "bffh.users.info") ∧
    (uv_manage v = Some client ↔ me) ∧
    (uv_admin v = Some client ↔ session_authorized w session "bffh.users.admin") ∧
    uv_card v = uv_admin v ∧
    ∀ c, c ∈ [uv_info v; uv_manage v; uv_admin v; uv_card v] → c = None ∨ c = Some client.
Proof.
  intros Hv. unfold UserApi.fill, Session.get_user_ref.
  destruct (permits_decides w session "bffh.users.admin" Hv) as (a & -> & Ha).
  destruct (permits_decides w session "bffh.users.info" Hv) as (i & Hi & Hib).
  case_bool_decide as Hme; rewrite ?Hi; simpl; eexists; (split; [reflexivity|]);
    destruct a, i; simpl in *;
    (split_and!; [done| | | |done|intros c Hc; set_solver]); intuition congruence.
Qed.

(** binding a card sets the token (as text) and the key (in hex) of the
    user, except that a token that is already bound with a key is left as it
    is, with its old key. *)
Theorem bind_sets_card w self token auth_key user :
  let uid := ref_id (uc_user self) in
  let text := UserApi.token_text token in
  let m := kv (userdata user) in
  valid_key uid → accounts w (uc_session self) !! uid = Some user →
  ∃ w', UserApi.bind w self token auth_key = Done (w', Ok ()) ∧
    (m !! "cardtoken" = Some text ∧ is_Some (m !! "cardkey") ∧ w' = w ∨
     (m !! "cardtoken" ≠ Some text ∨ m !! "cardkey" = None) ∧
       account_set w (uc_session self) uid
         (map_userdata (set_kv (<["cardkey" := hex_encode auth_key]>
            (<["cardtoken" := text]> m))) user) w').
Proof.
  intros uid text m Hk Hu. unfold UserApi.bind, get_username.
  rewrite lookup_user_spec by done. fold uid. rewrite Hu. simpl. fold text m.
  destruct (store_user_spec w (uc_session self) uid (map_userdata
    (set_kv (<["cardkey":=hex_encode auth_key]> (<["cardtoken":=text]> m))) user) Hk)
    as (w' & -> & Hset).
  destruct (m !! "cardtoken") as [t|] eqn:Ht, (m !! "cardkey") as [k|] eqn:Hck;
    try (exists w'; split; [done|]; right; split; [|done]; tauto || (left; congruence)).
  repeat case_decide; try (exists w; split; [done|]; left; naive_solver).
  exists w'. split; [done|]. right. split; [left; congruence|done].
Qed.

(** the token list decodes the stored token as hex although a token
    that is UTF-8 was stored as it is: after binding such a token that is not
    a string of hex digits, the list of tokens is empty. *)
Theorem bound_text_token_not_listed w self token auth_key user text :
  let uid := ref_id (uc_user self) in
  valid_key uid → accounts w (uc_session self) !! uid = Some user →
  kv (userdata user) !! "cardtoken" = None →
  from_utf8 token = Some text → sall is_hex_digit text = false →
  ∃ w', UserApi.bind w self token auth_key = Done (w', Ok ()) ∧
    UserApi.get_token_list w' self = Done (Ok []).
Proof.
  intros uid Hk Hu Hnone Hutf Hhex. unfold UserApi.bind, get_username, UserApi.token_text.
  rewrite Hutf, lookup_user_spec by done. fold uid. rewrite Hu. simpl. rewrite Hnone.
  destruct (store_user_spec w (uc_session self) uid (map_userdata
    (set_kv (<["cardkey":=hex_encode auth_key]> (<["cardtoken":=text]> (kv (userdata user))))) user) Hk)
    as (w' & -> & Hset). exists w'. split; [done|].
  unfold UserApi.get_token_list, get_username. rewrite lookup_user_spec by done.
  rewrite (as_accounts _ _ _ _ _ Hset). fold uid. rewrite lookup_insert_eq. simpl.
  rewrite lookup_insert_ne, lookup_insert_eq by done. simpl.
  destruct (hex_decode text) as [b|] eqn:Hd; [|done].
  apply hex_decode_digits in Hd as [Hd _]. congruence.
Qed.

(** unbinding the bound token removes token and key and leaves the
    rest of the user; another token changes nothing of any user. *)
Theorem unbind_removes_card w self token user :
  let uid := ref_id (uc_user self) in
  let m := kv (userdata user) in
  valid_key uid → accounts w (uc_session self) !! uid = Some user →
  ∃ w', UserApi.unbind w self token = Done (w', Ok ()) ∧
    (m !! "cardtoken" = Some (UserApi.token_text token) →
       accounts w' (uc_session self) =
       <[uid := map_userdata (set_kv (delete "cardkey" (delete "cardtoken" m))) user]>
         (accounts w (uc_session self))) ∧
    (m !! "cardtoken" ≠ Some (UserApi.token_text token) →
       accounts w' (uc_session self) = accounts w (uc_session self)).
Proof.
  intros uid m Hk Hu. unfold UserApi.unbind, get_username.
  rewrite lookup_user_spec by done. fold uid. rewrite Hu. simpl. fold m.
  match goal with |- context [UserApi.store_user _ _ _ ?u] =>
    destruct (store_user_spec w (uc_session self) uid u Hk) as (w' & -> & Hset) end.
  exists w'. split; [done|]. rewrite (as_accounts _ _ _ _ _ Hset). split.
  - intros Ht. rewrite Ht. by rewrite decide_True.
  - intros Ht. apply insert_id. rewrite Hu. f_equal.
    assert (user = map_userdata (set_kv m) user) as Hid by (by destruct user as [? []]).
    rewrite Hid at 1. f_equal. destruct (m !! "cardtoken") as [t|]; [|done].
    by rewrite decide_False by congruence.
Qed.

(** C33: changing one's own password stores a new one exactly when the old
    one was right; the new one then verifies, and nothing else about any user
    changes. *)
Theorem pwd_requires_old_password w self salt old_pw new_pw user :
  let uid := ref_id (uc_user self) in
  valid_key uid → length salt = 16 → accounts w (uc_session self) !! uid = Some user →
  ∃ w', UserApi.manage_pwd w self salt old_pw new_pw = Done (w', Ok ()) ∧
    (UserOps.check_password user old_pw = Ok true ∧
       (∃ h, let user' := map_userdata (set_passwd (Some h)) user in
          account_set w (uc_session self) uid user' w' ∧
          UserOps.check_password user' new_pw = Ok true) ∨
     UserOps.check_password user old_pw ≠ Ok true ∧ w' = w).
Proof.
  intros uid Hk Hs Hu. unfold UserApi.manage_pwd, get_username.
  rewrite lookup_user_spec by done. fold uid. rewrite Hu. simpl.
  destruct (set_pw_spec user new_pw salt Hs) as (h & Hset & Hcheck).
  destruct (UserOps.check_password user old_pw) as [[]|e];
    [|exists w; split; [done|]; by right..].
  rewrite Hset. simpl.
  destruct (store_user_spec w (uc_session self) uid (map_userdata (set_passwd (Some h)) user) Hk)
    as (w' & -> & Hst). eauto 10.
Qed.

(** adding a user with an empty name or password, or with a name
    that is taken, changes nothing and says why; otherwise the new account has
    no roles, and the password verifies. *)
Theorem add_user_fallible_spec w session salt username password :
  session_valid w session → length salt = 16 →
  (username ≠ EmptyString → valid_key username) →
  ∃ w' r, UserSystem.add_user_fallible w session salt username password = Done (w', Ok r) ∧
    match r with
    | Err e => w' = w ∧
        match e with
        | UsernameInvalid => username = EmptyString
        | PasswordInvalid => password = EmptyString ∧ username ≠ EmptyString
        | AlreadyExists => is_Some (accounts w session !! username)
        end
    | Ok v => username ≠ EmptyString ∧ password ≠ EmptyString ∧
        accounts w session !! username = None ∧ uv_username v = username ∧
        ∃ u, account_set w session username u w' ∧ id u = username ∧
          Users.roles (userdata u) = [] ∧ kv (userdata u) = ∅ ∧
          UserOps.check_password u password = Ok true
    end.
Proof.
  intros Hv Hs Hkey. unfold UserSystem.add_user_fallible.
  case_decide as Hne.
  2: { case_decide as Hu; [by exists w, (Err UsernameInvalid)|].
       exists w, (Err PasswordInvalid). split_and!; [done..| |done].
       destruct (decide (password = EmptyString)); [done|tauto]. }
  destruct Hne as [Hun Hpw]. specialize (Hkey Hun). rewrite lookup_user_spec by done. simpl.
  destruct (accounts w session !! username) as [u|] eqn:Hacc.
  { exists w, (Err AlreadyExists). eauto. }
  unfold UserOps.new_with_plain_pw, UserOps.hash_pw.
  destruct (argon2_hash_ok password salt Hs) as (h & -> & _ & Hver). simpl.
  set (user := mkUser username _).
  destruct (store_user_spec w session username user Hkey) as (w' & -> & Hst). simpl.
  assert (session_valid w' session) as Hv' by exact Hv.
  unfold UserApi.fill.
  destruct (permits_decides w' session "bffh.users.admin" Hv') as (a & -> & _).
  destruct (permits_decides w' session "bffh.users.info" Hv') as (i & -> & _).
  destruct (bool_decide (ref_id (Session.get_user_ref session) = id user));
  simpl; eexists w', (Ok _); (split; [reflexivity|]); split_and!; try done; by exists user.
Qed.

(** giving a user a role makes the permissions of that role and
    of all its parents effective for every session of that user at once, in
    running sessions too; asking for a role that is not configured changes
    nothing. *)
Theorem add_role_takes_effect w self rolename user session p fuel :
  let uid := ref_id (uc_user self) in
  valid_key uid → accounts w (uc_session self) !! uid = Some user →
  is_Some (Roles.get (Session.roles (uc_session self)) rolename) →
  Session.users session = Session.users (uc_session self) → ref_id (Session.user session) = uid →
  acyclic (Session.roles session) → depth_bound (Session.roles session) ≤ fuel →
  granted (Session.roles session) p rolename →
  (∃ w', UserApi.add_role w self rolename = Done (w', Ok ()) ∧
     Session.has_perm fuel session w' p = Done true) ∧
  ∀ other, Roles.get (Session.roles (uc_session self)) other = None →
    UserApi.add_role w self other = Done (w, Ok ()).
Proof.
  intros uid Hk Hu [role Hrole] Hus Huid Hac Hf Hg.
  split; [|intros other Ho; unfold UserApi.add_role; by rewrite Ho].
  assert (∀ w' u, accounts w' (uc_session self) !! uid = Some u →
    rolename ∈ Users.roles (userdata u) → Session.has_perm fuel session w' p = Done true) as Heff.
  { intros w' u Hu' Hin. unfold Session.has_perm, get_username.
    rewrite Hus, Huid. rewrite get_user_spec by done. simpl.
    unfold accounts in Hu'. rewrite Hu'.
    destruct (is_permitted_total (Session.roles session) fuel (Users.roles (userdata u)) p)
      as [b Hb]; [done..|]. rewrite Hb. f_equal. apply (is_permitted_correct _ _ _ _ _ Hb). eauto. }
  unfold UserApi.add_role, get_username. rewrite Hrole, lookup_user_spec by done.
  fold uid. rewrite Hu. simpl. rewrite has_role_spec. case_bool_decide as Hin.
  - exists w. split; [done|]. by eapply Heff.
  - match goal with |- context [UserApi.store_user _ _ _ ?u] =>
      destruct (store_user_spec w (uc_session self) uid u Hk) as (w' & -> & Hst) end.
    exists w'. split; [done|]. eapply Heff.
    + rewrite (as_accounts _ _ _ _ _ Hst). apply lookup_insert_eq.
    + simpl. apply elem_of_app. right. left.
Qed.

End Properties.

(** ** A hex codec *)

Definition hex_digit (n : N) : ascii := ascii_of_N (if (n <? 10)%N then 48 + n else 87 + n)%N.

Definition hex_value (c : ascii) : option N :=
  let n := N_of_ascii c in
  if in_range 48 57 n then Some (n - 48)%N
  else if in_range 65 70 n then Some (n - 55)%N
  else if in_range 97 102 n then Some (n - 87)%N
  else None.

Fixpoint hex_encode_bytes (l : list N) : string :=
  match l with
  | [] => EmptyString
  | b :: l' => String (hex_digit (b / 16)) (String (hex_digit (b mod 16)) (hex_encode_bytes l'))
  end.

Fixpoint hex_decode_string (s : string) : option (list N) :=
  match s with
  | EmptyString => Some []
  | String c (String d s') =>
      h ← hex_value c; l ← hex_value d; rest ← hex_decode_string s';
      Some ((h * 16 + l)%N :: rest)
  | _ => None
  end.

#[export] Instance PlainHex : Hex := {|
  hex_encode := hex_encode_bytes;
  hex_decode := hex_decode_string;
|}.

Lemma hex_value_digit n : (n < 16)%N → hex_value (hex_digit n) = Some n.
Proof.
  intros Hn. destruct n as [|p]; [done|]. do 4 (destruct p as [p|p|]; try done; try lia).
Qed.

Lemma hex_value_is_digit c n : hex_value c = Some n → is_hex_digit c = true.
Proof.
  unfold hex_value, is_hex_digit. cbv zeta. generalize (N_of_ascii c). intros m.
  destruct (in_range 48 57 m), (in_range 65 70 m), (in_range 97 102 m); done.
Qed.

#[export] Instance PlainHex_laws : HexLaws.
Proof.
  split; simpl.
  - induction 1 as [|b l Hb _ IH]; simpl; [done|].
    assert (b < 256)%N as Hb' by exact Hb.
    rewrite !hex_value_digit by (first [by apply N.mod_lt | apply N.Div0.div_lt_upper_bound; lia]).
    rewrite IH. simpl. do 2 f_equal. pose proof (N.div_mod b 16 ltac:(done)). lia.
  - fix IH 1. intros [|c [|d s]] b; simpl.
    + intros [= <-]. done.
    + done.
    + destruct (hex_value c) eqn:Hc, (hex_value d) eqn:Hd; simpl; try done.
      destruct (hex_decode_string s) as [r|] eqn:Hr; [|done]. intros [= <-].
      apply hex_value_is_digit in Hc, Hd. destruct (IH s r Hr) as [Hall Hlen].
      rewrite Hc, Hd, Hall. simpl. split; [done|]. lia.
Qed.

(** ** Witnesses *)

Section Witnesses.

(** "bob" of the demonstration world, seen by his own session. *)
Definition demo_cap : UserCap := mkUserCap demo_session (mkUserRef "bob").
Definition demo_salt : list N := replicate 16 0%N.

Lemma demo_session_valid w : session_valid w demo_session.
Proof. split; [apply demo_key|apply demo_acyclic]. Qed.

Lemma demo_account : accounts demo_world demo_session !! "bob" = Some demo_user.
Proof. vm_compute. reflexivity. Qed.

Lemma user_view_capabilities_witness :
  ∃ v, UserApi.fill demo_world demo_session demo_user = Done v ∧ uv_username v = "bob" ∧
    uv_manage v = Some demo_cap.
Proof.
  destruct (user_view_capabilities demo_world demo_session demo_user) as (v & Hf & Hn & _ & Hm & _);
    [apply demo_session_valid|]. exists v. split; [exact Hf|]. split; [exact Hn|]. by apply Hm.
Defined.

Lemma bind_sets_card_witness :
  ∃ w', UserApi.bind demo_world demo_cap [255%N] (replicate 16 7%N) = Done (w', Ok ()).
Proof.
  destruct (bind_sets_card demo_world demo_cap [255%N] (replicate 16 7%N) demo_user)
    as (w' & Hb & _); [apply demo_key|apply demo_account|].
  exists w'. exact Hb.
Defined.

Lemma bound_text_token_not_listed_witness :
  ∃ w', UserApi.bind demo_world demo_cap (bytes_of_string "my-token") (replicate 16 7%N) = Done (w', Ok ()) ∧
    UserApi.get_token_list w' demo_cap = Done (Ok []).
Proof.
  apply (bound_text_token_not_listed demo_world demo_cap _ _ demo_user "my-token");
    [apply demo_key|apply demo_account|done|done|done].
Defined.

Lemma unbind_removes_card_witness :
  ∃ w', UserApi.unbind demo_world demo_cap [1%N] = Done (w', Ok ()) ∧
    accounts w' demo_session = accounts demo_world demo_session.
Proof.
  destruct (unbind_removes_card demo_world demo_cap [1%N] demo_user) as (w' & Hu & _ & Hsame);
    [apply demo_key|apply demo_account|].
  exists w'. split; [exact Hu|]. by apply Hsame.
Defined.

Lemma pwd_requires_old_password_witness :
  ∃ w', UserApi.manage_pwd demo_world demo_cap demo_salt "old" "new" = Done (w', Ok ()) ∧
    w' = demo_world.
Proof.
  destruct (pwd_requires_old_password demo_world demo_cap demo_salt "old" "new" demo_user)
    as (w' & Hp & [[Hok _]|[_ Hw]]); [apply demo_key|done|apply demo_account| |].
  - by vm_compute in Hok.
  - exists w'. exact (conj Hp Hw).
Defined.

Lemma add_user_fallible_spec_witness :
  ∃ w', UserSystem.add_user_fallible demo_world demo_session demo_salt "bob" "pw"
          = Done (w', Ok (Err AlreadyExists)) ∧ w' = demo_world.
Proof.
  destruct (add_user_fallible_spec demo_world demo_session demo_salt "bob" "pw")
    as (w' & r & Hadd & Hr); [apply demo_session_valid|done|intros _; apply demo_key|].
  destruct r as [v|e].
  - exfalso. destruct Hr as (_ & _ & Hnone & _). by rewrite demo_account in Hnone.
  - destruct Hr as [Hw He]. destruct e; [exists w'; exact (conj Hadd Hw)|by destruct He..].
Defined.

Lemma add_role_takes_effect_witness :
  ∃ w', UserApi.add_role demo_world demo_cap "user" = Done (w', Ok ()) ∧
    Session.has_perm 3 demo_session w' "lab.use.lathe" = Done true.
Proof.
  apply (add_role_takes_effect demo_world demo_cap "user" demo_user demo_session "lab.use.lathe" 3);
    [apply demo_key|apply demo_account|by eexists|done|done|apply demo_acyclic|vm_compute; lia|].
  exists "user". split; [done|].
  eexists _, (Permissions.Children (Permissions.mkPermissionBuf "lab.use")).
  split; [reflexivity|]. split; [left|]. by exists "lathe".
Defined.

End Witnesses.
