(* ===== verification/MachineApi.v ===== *)
(** * Machine capabilities (bffhd/capnp/machine.rs, bffhd/capnp/machinesystem.rs)

    What the API shows of a machine to a session, and the handlers of its
    interfaces.  A capability that is set carries the [Machine] server object
    (session and resource). *)

From S2P Require Import Prelude Permissions Roles Db Users Machine Session Resources UserApi.

(** [machine::MachineState] of the schema *)
Inductive ApiState :=
| ApiFree | ApiBlocked | ApiDisabled | ApiInUse | ApiReserved | ApiToCheck | ApiTotakeover.

#[export] Instance ApiState_eq_dec : EqDecision ApiState.
Proof. solve_decision. Defined.

Section Data.
Context `{Lmdb}.

Record MachineCap := mkMachineCap {
  mc_session : Session.SessionHandle;
  mc_resource : Resource;
}.

(** A filled-in machine; [mv_state] is [None] when the field is not set. *)
Record MachineView := mkMachineView {
  mv_id : string;
  mv_name : string;
  mv_description : option string;
  mv_wiki : option string;
  mv_category : option string;
  mv_urn : string;
  mv_use : option MachineCap;
  mv_manage : option MachineCap;
  mv_inuse : option MachineCap;
  mv_state : option ApiState;
  mv_info : MachineCap;
}.

End Data.

Module MachineApi.
Section MachineApi.
Context `{Lmdb} `{Rkyv User} `{Rkyv State} `{Rkyv MachineState} `{AuditIo}.
Implicit Types (w : World) (session : Session.SessionHandle) (self : MachineCap).

Definition new session (resource : Resource) : MachineCap := mkMachineCap session resource.

(** The status the schema has for a machine status. *)
Definition api_state (s : Status) : ApiState :=
  match s with
  | Free => ApiFree
  | Disabled => ApiDisabled
  | Blocked _ => ApiBlocked
  | InUse _ => ApiInUse
  | Reserved _ => ApiReserved
  | ToCheck _ => ApiToCheck
  end.

Definition build_into w self : outcome MachineView :=
  let r := mc_resource self in
  let set (b : bool) := if b then Some self else None in
  let user := Session.get_user_ref (mc_session self) in
  let! st := Resource.get_state_ref w r in
  let st := state (inner st) in
  let! write := Resource.has_write w (mc_session self) r in
  let use := write && match st with
                      | Free => true
                      | Reserved reserver => bool_decide (reserver = user)
                      | _ => false
                      end in
  let! manage := Resource.has_manage w (mc_session self) r in
  let inuse := match st with InUse owner => bool_decide (owner = user) | _ => false end in
  let! read := Resource.has_read w (mc_session self) r in
  Done (mkMachineView (Resource.get_id r) (Resource.get_name r)
          (description (r_desc r)) (wiki (r_desc r)) (category (r_desc r))
          ("urn:fabaccess:resource:" +:+ Resource.get_id r)
          (set use) (set manage) (set inuse)
          (if read then Some (api_state st) else None) self).

Definition build w session (resource : Resource) : outcome MachineView :=
  build_into w (new session resource).

Definition optional_build w session (resource : Resource) : outcome (option MachineView) :=
  let this := new session resource in
  let! visible := Resource.visible w resource session in
  let! show := if visible then Done true else Resource.has_read w session resource in
  if show then let! v := build_into w this in Done (Some v) else Done None.

(** *** Handlers

    Methods of one interface; [reply] is the world and the result. *)
Abbreviation reply A := (outcome (World * result A capnp_error)).

Definition done w : reply () := Done (w, Ok ()).
Definition unimplemented {A} w : reply A := Done (w, Err not_implemented).
Definition after (o : outcome World) : reply () := let! w := o in done w.

Inductive InfoMethod := GetPropertyList | GetReservationList.
Definition info_server w self (m : InfoMethod) : reply () :=
  match m with GetPropertyList | GetReservationList => unimplemented w end.

Inductive UseMethod := Use | Reserve | Reserveto.
Definition use_server w self (m : UseMethod) : reply () :=
  let user := Session.get_user_ref (mc_session self) in
  match m with
  | Use => after (Resource.try_update w (mc_resource self) (mc_session self) (InUse user))
  | Reserve => after (Resource.try_update w (mc_resource self) (mc_session self) (Reserved user))
  | Reserveto => unimplemented w
  end.

Inductive InUseMethod := GiveBack | SendRawData.
Definition inuse_server w self (m : InUseMethod) : reply () :=
  match m with
  | GiveBack => after (Resource.give_back w (mc_resource self) (mc_session self))
  | SendRawData => unimplemented w
  end.

Inductive CheckMethod := Check_ | Reject.
Definition check_server w self (m : CheckMethod) : reply () :=
  match m with Check_ | Reject => unimplemented w end.

(** [get_machine_info_extended]: the current and the previous user. *)
Definition get_machine_info_extended w self
  : outcome (option UserView * option UserView) :=
  let! current := Resource.get_current_user w (mc_resource self) in
  let! cv := UserApi.build_optional w (mc_session self) current in
  let! prev := Resource.get_previous_user w (mc_resource self) in
  let! pv := UserApi.build_optional w (mc_session self) prev in
  Done (cv, pv).

Inductive ManageMethod :=
| SetProperty | RemoveProperty | ForceUse | ForceFree | ForceTransfer | Block | DisabledMethod.
Definition manage_server w self (m : ManageMethod) : reply () :=
  let user := Session.get_user_ref (mc_session self) in
  let force st := after (Resource.force_set w (mc_resource self) st) in
  match m with
  | SetProperty | RemoveProperty | ForceTransfer => unimplemented w
  | ForceUse => force (InUse user)
  | ForceFree => force Free
  | Block => force (Blocked user)
  | DisabledMethod => force Disabled
  end.

Inductive AdminMethod :=
| ForceSetState (st : ApiState) | ForceSetUser | GetAdminPropertyList
| SetAdminProperty | RemoveAdminProperty.
Definition admin_server w self (m : AdminMethod) : reply () :=
  let user := Session.get_user_ref (mc_session self) in
  let force st := after (Resource.force_set w (mc_resource self) st) in
  match m with
  | ForceSetState ApiFree => force Free
  | ForceSetState ApiBlocked => force (Blocked user)
  | ForceSetState ApiDisabled => force Disabled
  | ForceSetState ApiInUse => force (InUse user)
  | ForceSetState ApiReserved => force (Reserved user)
  | ForceSetState ApiToCheck => force (ToCheck user)
  | ForceSetState ApiTotakeover =>
      Done (w, Err (CapnpUnimplemented "totakeover not implemented"))
  | ForceSetUser | GetAdminPropertyList | SetAdminProperty | RemoveAdminProperty =>
      unimplemented w
  end.

End MachineApi.
End MachineApi.

(** [machinesystem::Machines] *)
Module MachineSystem.
Section MachineSystem.
Context `{Lmdb} `{Rkyv User} `{Rkyv State} `{Rkyv MachineState} `{AuditIo}.

Record Machines := mkMachines {
  ms_session : Session.SessionHandle;
  ms_resources : Search.ResourcesHandle;
}.

(** [Machines::new]: the global cell must be set. *)
Definition new (session : Session.SessionHandle) (RESOURCES : option Search.ResourcesHandle)
  : outcome Machines :=
  let! h := unwrap RESOURCES in Done (mkMachines session h).

(** The visible resources of a list. *)
Fixpoint filter_visible (w : World) (session : Session.SessionHandle) (l : list Resource)
  : outcome (list Resource) :=
  match l with
  | [] => Done []
  | r :: l' =>
      let! v := Resource.visible w r session in
      let! rest := filter_visible w session l' in
      Done (if v then r :: rest else rest)
  end.

Fixpoint build_all (w : World) (session : Session.SessionHandle) (l : list Resource)
  : outcome (list MachineView) :=
  match l with
  | [] => Done []
  | r :: l' =>
      let! v := MachineApi.build w session r in
      let! rest := build_all w session l' in
      Done (v :: rest)
  end.

Definition get_machine_list (w : World) (self : Machines) : outcome (list MachineView) :=
  let! l := filter_visible w (ms_session self) (Search.list_all (ms_resources self)) in
  build_all w (ms_session self) l.

Definition get_machine (w : World) (self : Machines) (i : string)
  : outcome (option MachineView) :=
  match Search.get_by_id (ms_resources self) i with
  | Some r => MachineApi.optional_build w (ms_session self) r
  | None => Done None
  end.

Definition get_machine_urn (w : World) (self : Machines) (urn : string)
  : outcome (option MachineView) :=
  match Search.get_by_urn (ms_resources self) urn with
  | Some r => MachineApi.optional_build w (ms_session self) r
  | None => Done None
  end.

End MachineSystem.
End MachineSystem.

(** ** Lemmas *)

(** The four privileges of a session on a machine. *)
Abbreviation may_disclose w s r :=
  (authorized w s (Permissions.as_permission (Permissions.disclose (privs (r_desc r))))).
Abbreviation may_read w s r :=
  (authorized w s (Permissions.as_permission (Permissions.read (privs (r_desc r))))).
Abbreviation may_write w s r :=
  (authorized w s (Permissions.as_permission (Permissions.write (privs (r_desc r))))).
Abbreviation may_manage_ w s r :=
  (authorized w s (Permissions.as_permission (Permissions.manage (privs (r_desc r))))).

Section Lemmas.
Context `{LmdbLaws} `{!LmdbHealthy} `{HU : Rkyv User} `{!RkyvLaws User}.
Context `{HS : Rkyv State} `{HM : Rkyv MachineState} `{!RkyvMachine}.
Context `{AuditIoLaws} `{!AuditIoHealthy}.
Implicit Types (w : World) (r : Resource) (s : Session.SessionHandle).

(** The person a status names. *)
Definition holder (st : Status) : option UserRef :=
  match st with
  | Free | Disabled => None
  | InUse u | ToCheck u | Blocked u | Reserved u => Some u
  end.

Lemma visible_spec w r s ms :
  coherent w r → machine_of w r = Some ms → session_valid w s →
  ∃ b, Resource.visible w r s = Done b ∧
    (b = true ↔ may_disclose w s r ∨ holder (state ms) = Some (Session.user s)).
Proof.
  intros Hc Hm Hv. unfold Resource.visible, Resource.has_disclose, Resource.get_required_privs.
  destruct (permits_decides w s (Permissions.as_permission
    (Permissions.disclose (privs (r_desc r)))) Hv) as (d & -> & Hd). simpl.
  destruct d; [exists true; simpl in Hd; intuition|]. unfold Resource.is_owned_by.
  rewrite (get_state_spec w r ms) by done. simpl. eexists. split; [done|].
  simpl in Hd. unfold holder, Session.get_user_ref.
  destruct (state ms); rewrite ?bool_decide_eq_true; intuition congruence.
Qed.

(** What a session is shown of a machine in state [ms]. *)
Record view_of w s r (ms : MachineState) (v : MachineView) : Prop := mkViewOf {
  vo_id : mv_id v = r_id r;
  vo_urn : mv_urn v = "urn:fabaccess:resource:" +:+ r_id r;
  vo_use : mv_use v = Some (mkMachineCap s r) ↔
    may_write w s r ∧ (state ms = Free ∨ state ms = Reserved (Session.user s));
  vo_manage : mv_manage v = Some (mkMachineCap s r) ↔ may_manage_ w s r;
  vo_inuse : mv_inuse v = Some (mkMachineCap s r) ↔ state ms = InUse (Session.user s);
  vo_caps : ∀ c, c ∈ [mv_use v; mv_manage v; mv_inuse v] → c = None ∨ c = Some (mkMachineCap s r);
  vo_state_shown : may_read w s r → mv_state v = Some (MachineApi.api_state (state ms));
  vo_state_hidden : ¬ may_read w s r → mv_state v = None;
}.

Lemma set_cap_iff {A} (b : bool) (c : A) (P : Prop) :
  (b = true ↔ P) → (if b then Some c else None) = Some c ↔ P.
Proof. intros <-. by destruct b. Qed.

Lemma set_cap_cases {A} (b : bool) (c : A) :
  (if b then Some c else None) = None ∨ (if b then Some c else None) = Some c.
Proof. destruct b; auto. Qed.

Lemma build_spec w s r ms :
  coherent w r → machine_of w r = Some ms → session_valid w s →
  ∃ v, MachineApi.build w s r = Done v ∧ view_of w s r ms v.
Proof.
  intros Hc Hm Hv. unfold MachineApi.build, MachineApi.build_into, MachineApi.new. cbn [mc_resource mc_session].
  rewrite (get_state_ref_spec w r ms) by done. cbn [outcome_bind inner].
  unfold Resource.has_write, Resource.has_manage, Resource.has_read, Resource.get_required_privs.
  destruct (permits_decides w s (Permissions.as_permission
    (Permissions.write (privs (r_desc r)))) Hv) as (wr & -> & Hw).
  destruct (permits_decides w s (Permissions.as_permission
    (Permissions.manage (privs (r_desc r)))) Hv) as (m & -> & Hma).
  destruct (permits_decides w s (Permissions.as_permission
    (Permissions.read (privs (r_desc r)))) Hv) as (rd & -> & Hr).
  cbn [outcome_bind]. eexists. split; [done|]. split; cbn [mv_id mv_urn mv_use mv_manage mv_inuse mv_state]; try done.
  - apply set_cap_iff. rewrite andb_true_iff, Hw. unfold Session.get_user_ref.
    destruct (state ms); rewrite ?bool_decide_eq_true; intuition congruence.
  - by apply set_cap_iff.
  - apply set_cap_iff. unfold Session.get_user_ref.
    destruct (state ms); rewrite ?bool_decide_eq_true; intuition congruence.
  - intros c Hc'. rewrite !elem_of_cons in Hc'.
    destruct Hc' as [->|[->|[->|[]%not_elem_of_nil]]]; apply set_cap_cases.
  - intros Hr'. by rewrite (proj2 Hr Hr').
  - intros Hr'. destruct rd; [|done]. exfalso. by apply Hr', Hr.
Qed.

(** A machine of the registry as a session finds it. *)
Definition shown_to w s r : Prop :=
  ∃ ms, machine_of w r = Some ms ∧
    (may_disclose w s r ∨ holder (state ms) = Some (Session.user s)).

Lemma filter_visible_spec w s l :
  session_valid w s → (∀ r, r ∈ l → coherent w r) →
  ∃ l', MachineSystem.filter_visible w s l = Done l' ∧
    ∀ r, r ∈ l' ↔ r ∈ l ∧ shown_to w s r.
Proof.
  intros Hv. induction l as [|r l IH]; intros Hc; simpl.
  { exists []. split; [done|]. intros r. split; [by intros ?%not_elem_of_nil|].
    by intros [?%not_elem_of_nil _]. }
  destruct (coherent_machine w r) as [ms Hm]; [apply Hc; left|].
  destruct (visible_spec w r s ms) as (b & -> & Hb); [apply Hc; left|done..|].
  destruct IH as (l' & -> & Hl'); [intros; apply Hc; by right|]. cbn [outcome_bind].
  eexists. split; [done|]. intros r'.
  assert (shown_to w s r ↔ b = true) as Hr.
  { rewrite Hb. unfold shown_to. split; [|by eauto]. intros (ms' & Hm' & Hs). by simplify_eq. }
  destruct b; rewrite ?elem_of_cons, Hl'; [naive_solver|].
  split; [naive_solver|]. intros [[->|Hin] Hs]; [|done]. by apply Hr in Hs.
Qed.

Lemma build_all_spec w s l :
  session_valid w s → (∀ r, r ∈ l → coherent w r) →
  ∃ vs, MachineSystem.build_all w s l = Done vs ∧
    Forall2 (λ r v, ∃ ms, machine_of w r = Some ms ∧ view_of w s r ms v) l vs.
Proof.
  intros Hv. induction l as [|r l IH]; intros Hc; simpl; [by exists []|].
  destruct (coherent_machine w r) as [ms Hm]; [apply Hc; left|].
  destruct (build_spec w s r ms) as (v & -> & Hview); [apply Hc; left|done..|].
  destruct IH as (vs & -> & Hvs); [intros; apply Hc; by right|]. cbn [outcome_bind].
  eexists. split; [done|]. constructor; eauto.
Qed.

Lemma use_handler_spec w s r ms new :
  coherent w r → machine_of w r = Some ms → session_valid w s →
  may_update (may_manage_ w s r) (may_write w s r) (Session.user s) (state ms) new →
  ∃ w', MachineApi.after (Resource.try_update w r s new) = Done (w', Ok ()) ∧
    updated w r (mkMachineState new (previous ms)) w'.
Proof.
  intros Hc Hm Hv Hmay.
  destruct (handle_spec w r (ReqUpdate s new) ms Hc Hm Hv)
    as (w' & Hh & [(ms' & [-> _] & Hu)|[-> Hno]]); unfold handle in Hh; rewrite Hh.
  - exists w'. done.
  - exfalso. eapply Hno. by split.
Qed.

Lemma force_handler_spec w r ms new :
  coherent w r → machine_of w r = Some ms →
  ∃ w', MachineApi.after (Resource.force_set w r new) = Done (w', Ok ()) ∧
    updated w r (mkMachineState new (previous ms)) w'.
Proof.
  intros Hc Hm. unfold Resource.force_set.
  destruct (set_status_spec w r ms new Hc Hm) as (w' & -> & Hu). by exists w'.
Qed.

End Lemmas.

(** ** Properties *)

Section Properties.
Context `{LmdbLaws} `{!LmdbHealthy} `{HU : Rkyv User} `{!RkyvLaws User}.
Context `{HS : Rkyv State} `{HM : Rkyv MachineState} `{!RkyvMachine}.
Context `{AuditIoLaws} `{!AuditIoHealthy}.
Implicit Types (w : World) (r : Resource) (s : Session.SessionHandle).

(** C15: the machine object a session gets carries [use] when it may write
    and the machine is free or reserved by its user, [manage] when it may
    manage, [inuse] when its user is using the machine, and the state only if
    it may read; and the capabilities work: calling [use] makes the session's
    user the user of the machine, and [giveBack] of [inuse] frees it. *)
Theorem machine_view_capabilities_work w s r ms :
  coherent w r → machine_of w r = Some ms → session_valid w s →
  ∃ v, MachineApi.build w s r = Done v ∧ view_of w s r ms v ∧
    (∀ c, mv_use v = Some c → ∃ w', MachineApi.use_server w c MachineApi.Use = Done (w', Ok ()) ∧
       updated w r (mkMachineState (InUse (Session.user s)) (previous ms)) w') ∧
    (∀ c, mv_inuse v = Some c → ∃ w',
       MachineApi.inuse_server w c MachineApi.GiveBack = Done (w', Ok ()) ∧
       updated w r (mkMachineState Free (Some (Session.user s))) w').
Proof.
  intros Hc Hm Hv. destruct (build_spec w s r ms Hc Hm Hv) as (v & Hb & Hview).
  exists v. split; [done|]. split; [done|]. split; intros c Hcap.
  - destruct (vo_caps _ _ _ _ _ Hview (mv_use v)) as [?|Heq]; [left|congruence|].
    rewrite Heq in Hcap. inv_eqs. apply (vo_use _ _ _ _ _ Hview) in Heq as [Hw Hst].
    apply use_handler_spec; [done..|]. destruct Hst as [->| ->]; by constructor.
  - destruct (vo_caps _ _ _ _ _ Hview (mv_inuse v)) as [?|Heq]; [right; right; left|congruence|].
    rewrite Heq in Hcap. inv_eqs. apply (vo_inuse _ _ _ _ _ Hview) in Heq as Hst.
    simpl. destruct (handle_spec w r (ReqGiveBack s) ms Hc Hm I)
      as (w' & Hh & [(ms' & [_ ->] & Hu)|[-> Hno]]); unfold handle in Hh; rewrite Hh.
    + by exists w'.
    + exfalso. by eapply Hno.
Qed.

(** the machine list shows a session exactly the machines it may see:
    those it has the disclose permission for, and those its own user uses,
    reserved, blocked or has to have checked; each as [view_of] says. *)
Theorem machine_list_exact db w m :
  registry db (MachineSystem.ms_resources m) w → session_valid w (MachineSystem.ms_session m) →
  ∃ l vs, MachineSystem.get_machine_list w m = Done vs ∧
    Forall2 (λ r v, ∃ ms, machine_of w r = Some ms ∧
                      view_of w (MachineSystem.ms_session m) r ms v) l vs ∧
    ∀ r, r ∈ l ↔ (∃ i, Search.get_by_id (MachineSystem.ms_resources m) i = Some r) ∧
                  shown_to w (MachineSystem.ms_session m) r.
Proof.
  intros Hreg Hv. unfold MachineSystem.get_machine_list.
  assert (∀ r, r ∈ Search.list_all (MachineSystem.ms_resources m) ↔
    ∃ i, Search.get_by_id (MachineSystem.ms_resources m) i = Some r) as Hall.
  { intros r. unfold Search.list_all. rewrite list_elem_of_fmap. split.
    - intros ([i r'] & -> & Hin%elem_of_map_to_list). by exists i.
    - intros [i Hi]. exists (i, r). by rewrite elem_of_map_to_list. }
  assert (∀ r, r ∈ Search.list_all (MachineSystem.ms_resources m) → coherent w r) as Hcoh.
  { intros r [i Hi]%Hall. by apply (Hreg i r). }
  destruct (filter_visible_spec w (MachineSystem.ms_session m) _ Hv Hcoh) as (l & -> & Hl).
  destruct (build_all_spec w (MachineSystem.ms_session m) l Hv) as (vs & Hvs & Hviews).
  { intros r [Hin _]%Hl. by apply Hcoh. }
  cbn [outcome_bind]. exists l, vs. split_and!; [done..|]. intros r. by rewrite Hl, Hall.
Qed.

(** whoever holds the manage capability sets the status at once,
    whatever the machine's status and without another permission check; the
    previous user stays, and the status names the acting user. *)
Theorem manage_capability_forces w s r ms m st :
  coherent w r → machine_of w r = Some ms →
  (m, st) ∈ [(MachineApi.ForceUse, InUse (Session.user s)); (MachineApi.ForceFree, Free);
             (MachineApi.Block, Blocked (Session.user s)); (MachineApi.DisabledMethod, Disabled)] →
  ∃ w', MachineApi.manage_server w (mkMachineCap s r) m = Done (w', Ok ()) ∧
    updated w r (mkMachineState st (previous ms)) w'.
Proof.
  intros Hc Hm Hin. rewrite !elem_of_cons in Hin.
  destruct Hin as [[= -> ->]|[[= -> ->]|[[= -> ->]|[[= -> ->]|[]%not_elem_of_nil]]]];
    by apply force_handler_spec.
Qed.

End Properties.

Section Witnesses.

Lemma bob_valid w : session_valid w (session_of bob).
Proof. apply shop_session_valid. vm_compute. split; lia. Qed.

Lemma machine_view_capabilities_work_witness :
  ∃ v, MachineApi.build (shop (mkMachineState (InUse bob) None)) (session_of bob) lathe = Done v ∧
    mv_inuse v = Some (mkMachineCap (session_of bob) lathe).
Proof.
  destruct (machine_view_capabilities_work (shop (mkMachineState (InUse bob) None))
    (session_of bob) lathe (mkMachineState (InUse bob) None)) as (v & Hb & Hv & _);
    [apply shop_coherent|apply shop_machine|apply bob_valid|].
  exists v. split; [exact Hb|]. by apply (vo_inuse _ _ _ _ _ Hv).
Defined.

Lemma machine_list_exact_witness :
  ∃ l vs, MachineSystem.get_machine_list (shop (mkMachineState (InUse bob) None))
            (MachineSystem.mkMachines (session_of bob) shop_handle) = Done vs ∧
    lathe ∈ l ∧ length vs = length l.
Proof.
  destruct (machine_list_exact state_db (shop (mkMachineState (InUse bob) None))
    (MachineSystem.mkMachines (session_of bob) shop_handle)) as (l & vs & Hg & Hall & Hl);
    [apply shop_registry|apply bob_valid|].
  exists l, vs. split; [exact Hg|]. split; [|by apply Forall2_length in Hall].
  apply Hl. split; [by exists "lathe"|]. eexists. split; [apply shop_machine|]. by right.
Defined.

Lemma manage_capability_forces_witness :
  ∃ w', MachineApi.manage_server (shop (mkMachineState (InUse bob) None))
          (mkMachineCap (session_of alice) lathe) MachineApi.Block = Done (w', Ok ()) ∧
    machine_of w' lathe = Some (mkMachineState (Blocked alice) None).
Proof.
  destruct (manage_capability_forces (shop (mkMachineState (InUse bob) None)) (session_of alice)
    lathe (mkMachineState (InUse bob) None) MachineApi.Block (Blocked alice)) as (w' & Hw & Hu);
    [apply shop_coherent|apply shop_machine|by do 2 right; left|].
  exists w'. split; [exact Hw|]. apply Hu.
Defined.

End Witnesses.
