(* ===== verification/FabFire.v ===== *)
(** * The FabFire card mechanisms (bffhd/authentication/fabfire/server.rs and
    bffhd/authentication/fabfire_bin/server.rs)

    Two SASL mechanisms that authenticate a DESFire card in seven steps; the
    first one talks JSON with the reader, the second one raw APDUs.  The
    DESFire and JSON libraries, the SASL callbacks and the writer are
    parameters.  A step runs in a small monad over the mechanism's state and
    the output, in which a failing call keeps the changes made before it. *)

From S2P Require Import Prelude.

(** ** Data *)

Record CardInfo := mkCardInfo {
  uid : list N;
  key_old : option (list N);
  key_new : option (list N);
}.

Record KeyInfo := mkKeyInfo {
  authid : string;
  key_id : N;
  key : list N;
}.

Record AuthInfo := mkAuthInfo {
  rnd_a : list N;
  rnd_b : list N;
  iv : list N;
}.

Inductive CardCommand :=
| message (msg_id : option N) (clr_txt : option string) (addn_txt : option string)
| sendPICC (data : list N)
| readPICC (data : list N)
| haltPICC
| Key (data : string)
| ConfirmUser.

Inductive Step :=
| New | SelectApp | VerifyMagic | GetURN | GetToken | Authenticate1 | Authenticate2.

#[export] Instance Step_eq_dec : EqDecision Step.
Proof. solve_decision. Defined.

(** ** Parameters *)

Class Desfire := {
  DesfireSt : Type;
  DesfireError : Type;
  APDUCommand : Type;
  APDUResponse : Type;
  desfire_init : DesfireSt;
  select_application_cmd : DesfireSt → N → result APDUCommand DesfireError;
  read_data_chunk_cmd : DesfireSt → N → N → nat → result APDUCommand DesfireError;
  authenticate_iso_aes_challenge_cmd : DesfireSt → N → result APDUCommand DesfireError;
  (** challenge, key and random number to the command, the card's random
      number and the initialization vector *)
  authenticate_iso_aes_response_cmd :
    DesfireSt → list N → list N → list N → result (APDUCommand * list N * list N) DesfireError;
  (** response, both random numbers, key and initialization vector *)
  authenticate_iso_aes_verify :
    DesfireSt → list N → list N → list N → list N → list N → DesfireSt * result () DesfireError;
  apdu_to_vec : APDUCommand → result (list N) DesfireError;
  apdu_new : list N → APDUResponse;
  apdu_check : APDUResponse → result () DesfireError;
  apdu_body : APDUResponse → option (list N);
  apdu_display : APDUResponse → string;
  max_bytes_per_transaction : nat;
}.

Class Json := {
  JsonError : Type;
  parse_card_info : list N → result CardInfo JsonError;
  parse_command : list N → result CardCommand JsonError;
  command_to_vec : CardCommand → result (list N) JsonError;
}.

(** [impl Write]: what has been written, and a write that can fail. *)
Class Writer := {
  IoError : Type;
  write_all : list N → list N → result (list N) IoError;
}.

Section Errors.
Context `{Desfire} `{Json} `{Writer}.

Inductive FabFireError :=
| ParseError
| SerializationError
| DeserializationError (e : JsonError)
| CardError (e : DesfireError)
| InvalidMagic (s : string)
| InvalidToken (s : string)
| InvalidURN (s : string)
| InvalidCredentials (s : string)
| Session (e : SessionError)
with SessionError :=
| InputDataRequired
| Io (e : IoError)
| MechanismError (e : FabFireError)
| CallbackError.

(** [MechanismError::kind] *)
Inductive ErrorKind := KindParse | KindProtocol.
Definition kind (e : FabFireError) : ErrorKind :=
  match e with
  | ParseError | DeserializationError _ => KindParse
  | _ => KindProtocol
  end.

(** The SASL session as the mechanism sees it: asking the callback for the key
    of an authid, and having the callback validate an authid. *)
Record SaslCallbacks := mkSaslCallbacks {
  need_card_key : string → outcome (result (list N) SessionError);
  sasl_validate : string → outcome (result () SessionError);
}.

End Errors.

(** [State] of a SASL step; [Finished true] is [Finished(MessageSent::Yes)]. *)
Inductive SaslState := Running | Finished (sent : bool).

Section State.
Context `{Desfire}.

Record FabFire := mkFabFire {
  step : Step;
  card_info : option CardInfo;
  key_info : option KeyInfo;
  auth_info : option AuthInfo;
  app_id : N;
  local_urn : string;
  desfire : DesfireSt;
}.

Definition set_step (s : Step) (f : FabFire) : FabFire :=
  mkFabFire s (card_info f) (key_info f) (auth_info f) (app_id f) (local_urn f) (desfire f).
Definition set_card_info (c : CardInfo) (f : FabFire) : FabFire :=
  mkFabFire (step f) (Some c) (key_info f) (auth_info f) (app_id f) (local_urn f) (desfire f).
Definition set_key_info (k : KeyInfo) (f : FabFire) : FabFire :=
  mkFabFire (step f) (card_info f) (Some k) (auth_info f) (app_id f) (local_urn f) (desfire f).
Definition set_auth_info (a : AuthInfo) (f : FabFire) : FabFire :=
  mkFabFire (step f) (card_info f) (key_info f) (Some a) (app_id f) (local_urn f) (desfire f).
Definition set_desfire (d : DesfireSt) (f : FabFire) : FabFire :=
  mkFabFire (step f) (card_info f) (key_info f) (auth_info f) (app_id f) (local_urn f) d.

End State.

(** ** The monad of a step *)

Section Monad.
Context `{Desfire} `{Json} `{Writer}.

Definition M (A : Type) : Type :=
  FabFire * list N → outcome ((FabFire * list N) * result A SessionError).

Definition mret {A} (a : A) : M A := λ st, Done (st, Ok a).
Definition mbind_ {A B} (m : M A) (k : A → M B) : M B := λ st,
  let! (st', r) := m st in
  match r with
  | Ok a => k a st'
  | Err e => Done (st', Err e)
  end.
Definition mthrow {A} (e : SessionError) : M A := λ st, Done (st, Err e).
Definition mfail {A} (e : FabFireError) : M A := mthrow (MechanismError e).
Definition mget : M FabFire := λ st, Done (st, Ok st.1).
Definition mmodify (f : FabFire → FabFire) : M () := λ st, Done ((f st.1, st.2), Ok ()).
Definition mwrite (bs : list N) : M () := λ st,
  match write_all st.2 bs with
  | Ok out => Done ((st.1, out), Ok ())
  | Err e => Done (st, Err (Io e))
  end.
(** a panicking [unwrap] *)
Definition munwrap {A} (o : option A) : M A := λ st, let! a := unwrap o in Done (st, Ok a).
Definition mlift {A} (r : result A SessionError) : M A := λ st, Done (st, r).
Definition mcall {A} (o : outcome (result A SessionError)) : M A := λ st,
  let! r := o in Done (st, r).

End Monad.

Notation "'let*' x ':=' e 'in' k" := (mbind_ e (λ x, k))
  (at level 10, x pattern, e at level 200, k at level 200,
   format "'let*'  x  ':='  e  'in' '//' k") : rust_scope.

Definition MAGIC : string :=
  "FABACCESS" +:+ String "000" ("DESFIRE" +:+ String "000" ("1.0" +:+ String "000" EmptyString)).

(** [trim_matches(char::from(0))]: leading and trailing NULs removed. *)
Fixpoint trim_start (c : ascii) (s : string) : string :=
  match s with
  | EmptyString => EmptyString
  | String d s' => if decide (d = c) then trim_start c s' else s
  end.
Fixpoint trim_end (c : ascii) (s : string) : string :=
  match s with
  | EmptyString => EmptyString
  | String d s' =>
      match trim_end c s' with
      | EmptyString => if decide (d = c) then EmptyString else String d EmptyString
      | t => String d t
      end
  end.
Definition trim_matches (c : ascii) (s : string) : string := trim_end c (trim_start c s).

(** ** Parts the steps of both mechanisms share *)

Section Shared.
Context `{Desfire} `{Json} `{Writer}.

(** A command that was generated and converted to bytes. *)
Definition to_bytes (r : result APDUCommand DesfireError) : M (list N) :=
  match r with
  | Ok c => match apdu_to_vec c with
            | Ok d => mret d
            | Err _ => mfail SerializationError
            end
  | Err _ => mfail SerializationError
  end.

(** The body of a response that checks. *)
Definition checked_body (r : APDUResponse) : M (list N) :=
  match apdu_check r with
  | Ok _ => match apdu_body r with
            | Some d => mret d
            | None => mfail ParseError
            end
  | Err _ => mfail ParseError
  end.

(** [String::from_utf8(data).unwrap()] *)
Definition utf8_unwrap (d : list N) : M string := munwrap (from_utf8 d).

(** The URN file must hold the local URN. *)
Definition check_urn (d : list N) : M () :=
  let* received_urn := utf8_unwrap d in
  let* self := mget in
  if decide (received_urn = local_urn self) then mret () else mfail ParseError.

(** The token file names the user; the callback has its card key. *)
Definition take_token (cb : SaslCallbacks) (d : list N) : M () :=
  let* s := utf8_unwrap d in
  let authid := trim_matches "000" s in
  let* k := mcall (need_card_key cb authid) in
  mmodify (set_key_info (mkKeyInfo authid 1 k)).

(** The answer to the card's challenge, with our own random number. *)
Definition answer_challenge (rnd_a rnd_b_enc : list N) : M APDUCommand :=
  let* self := mget in
  let* ki := munwrap (key_info self) in
  let* r := munwrap (ok (authenticate_iso_aes_response_cmd (desfire self) rnd_b_enc (key ki) rnd_a)) in
  let '(cmd, rnd_b, iv) := r in
  let* _ := mmodify (set_auth_info (mkAuthInfo rnd_a rnd_b iv)) in
  mret cmd.

(** [authenticate_iso_aes_verify(..).is_ok()]; [None]: no challenge was sent. *)
Definition verify_response (d : list N) : M (option bool) :=
  let* self := mget in
  match auth_info self with
  | None => mret None
  | Some ai =>
      let* ki := munwrap (key_info self) in
      let (d', r) := authenticate_iso_aes_verify (desfire self) d (rnd_a ai) (rnd_b ai) (key ki) (iv ai) in
      let* _ := mmodify (set_desfire d') in
      mret (Some (match r with Ok _ => true | Err _ => false end))
  end.

End Shared.

(** ** X-FABFIRE: JSON *)

Module FabFireJson.
Section FabFireJson.
Context `{Desfire} `{Json} `{Writer}.

(** [Display for FabFireError], which [Debug] repeats; [show_json], [show_card] and
    [show_session] are the [Display] of the wrapped errors. *)
Definition display (show_json : JsonError → string) (show_card : DesfireError → string)
  (show_session : SessionError → string) (e : FabFireError) : string :=
  match e with
  | ParseError => "ParseError"
  | SerializationError => "SerializationError"
  | DeserializationError e => "DeserializationError: " +:+ show_json e
  | CardError err => "CardError: " +:+ show_card err
  | InvalidMagic magic => "InvalidMagic: " +:+ magic
  | InvalidToken token => "InvalidToken: " +:+ token
  | InvalidURN urn => "InvalidURN: " +:+ urn
  | InvalidCredentials credentials => "InvalidCredentials: " +:+ credentials
  | Session err => "Session: " +:+ show_session err
  end.
Implicit Types (input : option (list N)).

Definition new_server : FabFire :=
  mkFabFire New None None None 4604226 "urn:fabaccess:lab:innovisionlab" desfire_init.

Definition response input : M APDUResponse :=
  match input with
  | None => mthrow InputDataRequired
  | Some buf =>
      match parse_command buf with
      | Err e => mfail (DeserializationError e)
      | Ok (readPICC data) => mret (apdu_new data)
      | Ok _ => mfail ParseError
      end
  end.

(** Wrap the command, advance to [next], and only then write. *)
Definition send (data : list N) (next : Step) : M SaslState :=
  match command_to_vec (sendPICC data) with
  | Err _ => mfail SerializationError
  | Ok send_buf =>
      let* _ := mmodify (set_step next) in
      let* _ := mwrite send_buf in
      mret Running
  end.

Definition step_new input : M SaslState :=
  match input with
  | None => mthrow InputDataRequired
  | Some cardinfo =>
      match parse_card_info cardinfo with
      | Err e => mfail (DeserializationError e)
      | Ok ci =>
          let* _ := mmodify (set_card_info ci) in
          let* self := mget in
          let* buf := to_bytes (select_application_cmd (desfire self) (app_id self)) in
          send buf SelectApp
      end
  end.

Definition step_select_app input : M SaslState :=
  let* r := response input in
  match apdu_check r with
  | Err e => mfail (CardError e)
  | Ok _ =>
      let* self := mget in
      let* buf := to_bytes (read_data_chunk_cmd (desfire self) 1 0 (String.length MAGIC)) in
      send buf VerifyMagic
  end.

Definition step_verify_magic input : M SaslState :=
  let* r := response input in
  let* data := checked_body r in
  if decide (from_utf8 data = Some MAGIC) then
    let* self := mget in
    let* buf := to_bytes (read_data_chunk_cmd (desfire self) 2 0 (String.length (local_urn self))) in
    send buf GetURN
  else mfail ParseError.

Definition step_get_urn input : M SaslState :=
  let* r := response input in
  let* data := checked_body r in
  let* _ := check_urn data in
  let* self := mget in
  let* buf := to_bytes (read_data_chunk_cmd (desfire self) 3 0 max_bytes_per_transaction) in
  send buf GetToken.

Definition step_get_token (cb : SaslCallbacks) input : M SaslState :=
  let* r := response input in
  let* data := checked_body r in
  let* _ := take_token cb data in
  let* self := mget in
  let* ki := munwrap (key_info self) in
  let* buf := to_bytes (authenticate_iso_aes_challenge_cmd (desfire self) (key_id ki)) in
  send buf Authenticate1.

Definition step_authenticate1 (rnd_a : list N) input : M SaslState :=
  let* r := response input in
  let* data := checked_body r in
  let* cmd := answer_challenge rnd_a data in
  let* buf := to_bytes (Ok cmd) in
  send buf Authenticate2.

Definition step_authenticate2 (cb : SaslCallbacks) input : M SaslState :=
  let* r := response input in
  match apdu_check r with
  | Err _ => mfail (InvalidCredentials (apdu_display r))
  | Ok _ =>
      match apdu_body r with
      | None => mfail ParseError
      | Some data =>
          let* v := verify_response data in
          match v with
          | None => mfail ParseError
          | Some false => mret (Finished false)
          | Some true =>
              match command_to_vec (message (Some 4%N) None (Some EmptyString)) with
              | Err _ => mfail SerializationError
              | Ok send_buf =>
                  let* _ := mmodify (set_step Authenticate1) in
                  let* _ := mwrite send_buf in
                  let* self := mget in
                  let* ki := munwrap (key_info self) in
                  let* _ := mcall (sasl_validate cb (authid ki)) in
                  mret (Finished true)
              end
          end
      end
  end.

Definition do_step (cb : SaslCallbacks) (rnd_a : list N) input : M SaslState :=
  let* self := mget in
  match step self with
  | New => step_new input
  | SelectApp => step_select_app input
  | VerifyMagic => step_verify_magic input
  | GetURN => step_get_urn input
  | GetToken => step_get_token cb input
  | Authenticate1 => step_authenticate1 rnd_a input
  | Authenticate2 => step_authenticate2 cb input
  end.

End FabFireJson.
End FabFireJson.

(** ** X-FABFIRE-BIN: raw APDUs *)

Module FabFireBin.
Section FabFireBin.
Context `{Desfire} `{Json} `{Writer}.

(** [Display for FabFireError], which [Debug] repeats; [show_json], [show_card] and
    [show_session] are the [Display] of the wrapped errors. *)
Definition display (show_json : JsonError → string) (show_card : DesfireError → string)
  (show_session : SessionError → string) (e : FabFireError) : string :=
  match e with
  | ParseError => "ParseError"
  | SerializationError => "SerializationError"
  | DeserializationError e => "DeserializationError: " +:+ show_json e
  | CardError err => "CardError: " +:+ show_card err
  | InvalidMagic magic => "InvalidMagic: " +:+ magic
  | InvalidToken token => "InvalidToken: " +:+ token
  | InvalidURN urn => "InvalidURN: " +:+ urn
  | InvalidCredentials credentials => "InvalidCredentials: " +:+ credentials
  | Session err => "Session: " +:+ show_session err
  end.
Implicit Types (input : option (list N)).

(** [space]: the space name of the configuration, if there is one. *)
Definition new_server (space : option string) : FabFire :=
  mkFabFire New None None None 4604226
    ("urn:fabaccess:lab:" +:+ default "generic" space) desfire_init.

Definition response input : M APDUResponse :=
  match input with
  | None => mthrow InputDataRequired
  | Some data => mret (apdu_new data)
  end.

Definition send (data : list N) (next : Step) : M SaslState :=
  let* _ := mmodify (set_step next) in
  let* _ := mwrite data in
  mret Running.

Definition step_new input : M SaslState :=
  match input with
  | None => mthrow InputDataRequired
  | Some _ =>
      let* self := mget in
      let* buf := to_bytes (select_application_cmd (desfire self) (app_id self)) in
      send buf SelectApp
  end.

Definition step_select_app input : M SaslState :=
  let* r := response input in
  match apdu_check r with
  | Err e => mfail (CardError e)
  | Ok _ =>
      let* self := mget in
      let* buf := to_bytes (read_data_chunk_cmd (desfire self) 1 0 (String.length MAGIC)) in
      send buf VerifyMagic
  end.

Definition step_verify_magic input : M SaslState :=
  let* r := response input in
  let* data := checked_body r in
  if decide (from_utf8 data = Some MAGIC) then
    let* self := mget in
    let* buf := to_bytes (read_data_chunk_cmd (desfire self) 2 0 (String.length (local_urn self))) in
    send buf GetURN
  else mfail ParseError.

Definition step_get_urn input : M SaslState :=
  let* r := response input in
  let* data := checked_body r in
  let* _ := check_urn data in
  let* self := mget in
  let* buf := to_bytes (read_data_chunk_cmd (desfire self) 3 0 max_bytes_per_transaction) in
  send buf GetToken.

Definition step_get_token (cb : SaslCallbacks) input : M SaslState :=
  let* r := response input in
  let* data := checked_body r in
  let* _ := take_token cb data in
  let* self := mget in
  let* ki := munwrap (key_info self) in
  let* buf := to_bytes (authenticate_iso_aes_challenge_cmd (desfire self) (key_id ki)) in
  send buf Authenticate1.

Definition step_authenticate1 (rnd_a : list N) input : M SaslState :=
  let* r := response input in
  let* data := checked_body r in
  let* cmd := answer_challenge rnd_a data in
  let* buf := to_bytes (Ok cmd) in
  send buf Authenticate2.

Definition step_authenticate2 (cb : SaslCallbacks) input : M SaslState :=
  let* r := response input in
  match apdu_check r with
  | Err _ => mfail (InvalidCredentials (apdu_display r))
  | Ok _ =>
      match apdu_body r with
      | None => mfail ParseError
      | Some data =>
          let* v := verify_response data in
          match v with
          | None => mfail ParseError
          | Some false => mret (Finished false)
          | Some true =>
              let* self := mget in
              let* ki := munwrap (key_info self) in
              let* _ := mcall (sasl_validate cb (authid ki)) in
              mret (Finished true)
          end
      end
  end.

Definition do_step (cb : SaslCallbacks) (rnd_a : list N) input : M SaslState :=
  let* self := mget in
  match step self with
  | New => step_new input
  | SelectApp => step_select_app input
  | VerifyMagic => step_verify_magic input
  | GetURN => step_get_urn input
  | GetToken => step_get_token cb input
  | Authenticate1 => step_authenticate1 rnd_a input
  | Authenticate2 => step_authenticate2 cb input
  end.

End FabFireBin.
End FabFireBin.

(** ** Reasoning about steps

    [wp m st Q P]: running [m] from [st] either returns with a state and a
    result that satisfy [Q], or does not return and then [P] holds. *)

Section Wp.
Context `{Desfire} `{Json} `{Writer}.

Definition apdu_data (r : APDUResponse) : option (list N) :=
  match apdu_check r with Ok _ => apdu_body r | Err _ => None end.

Definition wp {A} (m : M A) (st : FabFire * list N)
  (Q : FabFire * list N → result A SessionError → Prop) (P : Prop) : Prop :=
  match m st with
  | Done (st', r) => Q st' r
  | _ => P
  end.

Lemma wp_bind {A B} (m : M A) (k : A → M B) st Q P :
  wp m st (λ st' r, match r with Ok a => wp (k a) st' Q P | Err e => Q st' (Err e) end) P →
  wp (mbind_ m k) st Q P.
Proof.
  unfold wp, mbind_. destruct (m st) as [[st' r]| |]; simpl; [|done..]. by destruct r.
Qed.

Lemma wp_ret {A} (a : A) st (Q : FabFire * list N → result A SessionError → Prop) P :
  Q st (Ok a) → wp (mret a) st Q P.
Proof. done. Qed.

Lemma wp_throw {A} e st (Q : FabFire * list N → result A SessionError → Prop) P :
  Q st (Err e) → wp (mthrow e) st Q P.
Proof. done. Qed.

Lemma wp_fail {A} e st (Q : FabFire * list N → result A SessionError → Prop) P :
  Q st (Err (MechanismError e)) → wp (mfail e) st Q P.
Proof. done. Qed.

Lemma wp_get st (Q : FabFire * list N → result FabFire SessionError → Prop) P :
  Q st (Ok st.1) → wp mget st Q P.
Proof. done. Qed.

Lemma wp_modify g st (Q : FabFire * list N → result () SessionError → Prop) P :
  Q (g st.1, st.2) (Ok ()) → wp (mmodify g) st Q P.
Proof. done. Qed.

Lemma wp_write bs st Q P :
  (∀ out, write_all st.2 bs = Ok out → Q (st.1, out) (Ok ())) →
  (∀ e, write_all st.2 bs = Err e → Q st (Err (Io e))) → wp (mwrite bs) st Q P.
Proof. intros Ho He. unfold wp, mwrite. destruct (write_all st.2 bs); eauto. Qed.

Lemma wp_unwrap {A} (o : option A) st Q (P : Prop) :
  (∀ a, o = Some a → Q st (Ok a)) → (o = None → P) → wp (munwrap o) st Q P.
Proof. unfold wp, munwrap. destruct o; simpl; eauto. Qed.

Lemma wp_call {A} (o : outcome (result A SessionError)) st Q (P : Prop) :
  (∀ r, o = Done r → Q st r) → ((∀ r, o ≠ Done r) → P) → wp (mcall o) st Q P.
Proof. unfold wp, mcall. intros Hd Hp. destruct o; simpl; [by apply Hd|apply Hp; by intros..]. Qed.

Lemma wp_to_bytes r st Q P :
  (∀ d, Q st (Ok d)) → Q st (Err (MechanismError SerializationError)) → wp (to_bytes r) st Q P.
Proof.
  intros Hd He. unfold wp, to_bytes. destruct r as [c|]; [|done].
  destruct (apdu_to_vec c); [apply Hd|done].
Qed.

Lemma wp_checked_body r st Q P :
  (∀ d, apdu_check r = Ok () → apdu_body r = Some d → Q st (Ok d)) →
  (apdu_data r = None → Q st (Err (MechanismError ParseError))) → wp (checked_body r) st Q P.
Proof.
  intros Hd. unfold wp, checked_body, apdu_data. destruct (apdu_check r) as [[]|] eqn:Hc; [|by intros He; apply He].
  destruct (apdu_body r) eqn:Hb; [intros _; by apply Hd|intros He; by apply He].
Qed.

End Wp.

(** One rule of the monad; what it leaves is about data. *)
Ltac wp_step :=
  match goal with
  | |- wp (mbind_ _ _) _ _ _ => apply wp_bind; cbv beta
  | |- wp (mret _) _ _ _ => apply wp_ret; cbn [fst snd]
  | |- wp (mthrow _) _ _ _ => apply wp_throw; cbn [fst snd]
  | |- wp (mfail _) _ _ _ => apply wp_fail; cbn [fst snd]
  | |- wp mget _ _ _ => apply wp_get; cbn [fst snd]
  | |- wp (mmodify _) _ _ _ => apply wp_modify; cbn [fst snd]
  | |- wp (mwrite _) _ _ _ => apply wp_write; [intros ? ?|intros ? ?]; cbn [fst snd]
  | |- wp (munwrap _) _ _ _ => apply wp_unwrap; [intros ? ?|intros ?]; cbn [fst snd]
  | |- wp (mcall _) _ _ _ => apply wp_call; [intros [?|?] ?|intros ?]; cbn [fst snd]
  | |- wp (to_bytes _) _ _ _ => apply wp_to_bytes; [intros ?|]; cbn [fst snd]
  | |- wp (checked_body _) _ _ _ => apply wp_checked_body; [intros ? ? ?|intros ?]; cbn [fst snd]
  | |- wp (if decide _ then _ else _) _ _ _ => case_decide
  | |- wp (match ?x with _ => _ end) _ _ _ => destruct x eqn:?
  | |- match ?x with _ => _ end => destruct x eqn:?
  end.

(** ** Specification *)

Section Spec.
Context `{Desfire} `{Json} `{Writer}.

(** [known a k]: some callback gave [k] as the card key of [a]. *)
Context (known : string → list N → Prop).

Definition honest (cb : SaslCallbacks) : Prop :=
  ∀ a k, need_card_key cb a = Done (Ok k) → known a k.

(** The invariant of a run: the key kept is the one the callback has for the
    authid kept, from [Authenticate1] on there is one, and the random numbers
    kept are those of a challenge answered with that key. *)
Record phase_inv (f : FabFire) : Prop := mkPhaseInv {
  pi_key : ∀ ki, key_info f = Some ki → known (authid ki) (key ki);
  pi_auth1 : step f = Authenticate1 ∨ step f = Authenticate2 → is_Some (key_info f);
  pi_auth2 : step f = Authenticate2 → is_Some (auth_info f);
  pi_challenge : ∀ ai, auth_info f = Some ai →
    (step f = Authenticate1 ∨ step f = Authenticate2) ∧
    ∃ ki d enc cmd, key_info f = Some ki ∧
      authenticate_iso_aes_response_cmd d enc (key ki) (rnd_a ai) = Ok (cmd, rnd_b ai, iv ai);
}.

Definition next (s : Step) : Step :=
  match s with
  | New => SelectApp | SelectApp => VerifyMagic | VerifyMagic => GetURN
  | GetURN => GetToken | GetToken => Authenticate1
  | Authenticate1 => Authenticate2 | Authenticate2 => Authenticate2
  end.

(** What a successful end says: the card answered the challenge made with the
    key the callback has for the authid, and the callback validated it. *)
Definition authenticated (cb : SaslCallbacks) (f : FabFire) : Prop :=
  step f = Authenticate2 ∧
  ∃ ki ai data d', key_info f = Some ki ∧ auth_info f = Some ai ∧
    known (authid ki) (key ki) ∧
    authenticate_iso_aes_verify (desfire f) data (rnd_a ai) (rnd_b ai) (key ki) (iv ai) = (d', Ok ()) ∧
    sasl_validate cb (authid ki) = Done (Ok ()).

(** What one step from [f] establishes. *)
Definition step_post (cb : SaslCallbacks) (f : FabFire)
  (st' : FabFire * list N) (r : result SaslState SessionError) : Prop :=
  phase_inv st'.1 ∧
  (r = Ok Running → step f ≠ Authenticate2 ∧ step st'.1 = next (step f)) ∧
  (r = Ok (Finished true) → authenticated cb f).

(** The ways for a step not to return, with the card's data [body] and the random
    number [rnd]: the card's URN or token is not UTF-8; the callback asked for the
    key of the name in the token does not return; the library refuses the card's
    challenge; or the card's answer is right and the callback asked to validate
    the name does not return ([sends]: the message before it could be sent). *)
Inductive stuck (cb : SaslCallbacks) (f : FabFire) (rnd : list N) (body : option (list N))
  (sends : Prop) : Prop :=
| stuck_utf8 d :
    step f = GetURN ∨ step f = GetToken → body = Some d → from_utf8 d = None →
    stuck cb f rnd body sends
| stuck_key d s :
    step f = GetToken → body = Some d → from_utf8 d = Some s →
    (∀ r, need_card_key cb (trim_matches "000" s) ≠ Done r) → stuck cb f rnd body sends
| stuck_challenge d ki e :
    step f = Authenticate1 → body = Some d → key_info f = Some ki →
    authenticate_iso_aes_response_cmd (desfire f) d (key ki) rnd = Err e → stuck cb f rnd body sends
| stuck_validate d ki ai d' :
    step f = Authenticate2 → body = Some d → key_info f = Some ki → auth_info f = Some ai →
    authenticate_iso_aes_verify (desfire f) d (rnd_a ai) (rnd_b ai) (key ki) (iv ai) = (d', Ok ()) →
    sends → (∀ r, sasl_validate cb (authid ki) ≠ Done r) → stuck cb f rnd body sends.

(** The JSON mechanism writes its last message before it asks. *)
Definition confirms (out : list N) : Prop :=
  ∃ buf out', command_to_vec (message (Some 4%N) None (Some EmptyString)) = Ok buf ∧
    write_all out buf = Ok out'.

(** The card data in an input. *)
Definition json_body (input : option (list N)) : option (list N) :=
  match input with
  | Some buf => match parse_command buf with
                | Ok (readPICC d) => apdu_data (apdu_new d)
                | _ => None
                end
  | None => None
  end.

Definition bin_body (input : option (list N)) : option (list N) :=
  match input with Some d => apdu_data (apdu_new d) | None => None end.

End Spec.

(** ** The invariant, assignment by assignment *)

Section Invariant.
Context `{Desfire} `{Json} `{Writer}.
Context (known : string → list N → Prop).
Implicit Types (f : FabFire).

Definition early (s : Step) : Prop := s ≠ Authenticate1 ∧ s ≠ Authenticate2.

Lemma inv_early f s : phase_inv known f → early (step f) → early s → phase_inv known (set_step s f).
Proof.
  intros [Hk Ha1 Ha2 Hc] [Hn1 Hn2] [Hs1 Hs2]. split; simpl; [done|tauto|tauto|].
  intros ai Hai. destruct (Hc ai Hai) as [? _]. tauto.
Qed.

Lemma inv_card c f : phase_inv known f → phase_inv known (set_card_info c f).
Proof. by intros []. Qed.

Lemma inv_desfire d f : phase_inv known f → phase_inv known (set_desfire d f).
Proof. by intros []. Qed.

Lemma inv_token a i k f :
  phase_inv known f → early (step f) → known a k →
  phase_inv known (set_key_info (mkKeyInfo a i k) f).
Proof.
  intros [Hk Ha1 Ha2 Hc] [Hn1 Hn2] Hknown. split; simpl.
  - intros ki [= <-]. done.
  - eauto.
  - done.
  - intros ai Hai. destruct (Hc ai Hai) as [? _]. tauto.
Qed.

Lemma inv_auth1 f :
  phase_inv known f → is_Some (key_info f) → phase_inv known (set_step Authenticate1 f).
Proof.
  intros [Hk Ha1 Ha2 Hc] Hki. split; simpl; [done|done|done|].
  intros ai Hai. destruct (Hc ai Hai) as [_ ?]. auto.
Qed.

Lemma inv_challenge f ki d enc cmd ra rb v :
  phase_inv known f → step f = Authenticate1 → key_info f = Some ki →
  ok (authenticate_iso_aes_response_cmd d enc (key ki) ra) = Some (cmd, rb, v) →
  phase_inv known (set_auth_info (mkAuthInfo ra rb v) f).
Proof.
  intros [Hk Ha1 Ha2 Hc] Hs Hki Hresp. split; simpl; [done|eauto|eauto|].
  intros ai [= <-]. split; [auto|]. exists ki, d, enc, cmd. split; [done|]. simpl.
  destruct (authenticate_iso_aes_response_cmd d enc (key ki) ra); simpl in Hresp; congruence.
Qed.

Lemma inv_auth2 f :
  phase_inv known f → is_Some (key_info f) → is_Some (auth_info f) →
  phase_inv known (set_step Authenticate2 f).
Proof.
  intros [Hk Ha1 Ha2 Hc] Hki Hai. split; simpl; [done..|].
  intros ai Hai'. destruct (Hc ai Hai') as [_ ?]. auto.
Qed.

End Invariant.

Lemma apdu_data_ok `{Desfire} r d :
  apdu_check r = Ok () → apdu_body r = Some d → apdu_data r = Some d.
Proof. unfold apdu_data. by intros -> ->. Qed.

Lemma ok_None {A E} (r : result A E) : ok r = None → ∃ e, r = Err e.
Proof. destruct r; [done|eauto]. Qed.

#[export] Hint Resolve inv_early inv_card inv_desfire inv_token inv_auth1 inv_challenge inv_auth2 : fab.
#[export] Hint Extern 1 (early _) => (split; simpl; congruence) : fab.
#[export] Hint Extern 1 (is_Some _) => (simpl; by eauto) : fab.

Lemma authenticated_intro `{Desfire} `{Json} `{Writer} known cb f ki ki' ai data d' r u :
  phase_inv known f → step f = Authenticate2 → auth_info f = Some ai →
  key_info f = Some ki → key_info f = Some ki' →
  authenticate_iso_aes_verify (desfire f) data (rnd_a ai) (rnd_b ai) (key ki) (iv ai) = (d', r) →
  match r with Ok _ => true | Err _ => false end = true →
  sasl_validate cb (authid ki') = Done (Ok u) →
  authenticated known cb f.
Proof.
  intros Hinv Hs Hai Hki Hki' Hver Hr Hval. rewrite Hki in Hki'. inv_eqs.
  split; [done|]. exists ki', ai, data, d'. destruct u, r as [[]|]; [|done].
  split_and!; [done..|by apply (pi_key _ _ Hinv)|done|done].
Qed.

#[export] Hint Resolve authenticated_intro : fab.

(** Close a leaf of a step: the invariant by the hints, the rest by the shape
    of the result. *)
Ltac step_leaf :=
  unfold step_post; cbn [fst snd step key_info auth_info set_step set_desfire set_card_info
    set_key_info set_auth_info] in *;
  split_and!;
    [eauto 6 with fab
    |first [congruence
           |intros _; match goal with Hs : step _ = _ |- _ => rewrite Hs end; by split
           |idtac]
    |first [congruence|intros _; simplify_eq; eapply authenticated_intro; eassumption]].

(** The card data of an input that was read. *)
Ltac body_leaf :=
  cbn [bin_body json_body];
  try match goal with E : parse_command _ = _ |- _ => rewrite E end;
  by apply apdu_data_ok.

Lemma stuck_validate_intro `{Desfire} `{Json} `{Writer} cb f rnd body (sends : Prop) d ki ki' ai d' r :
  step f = Authenticate2 → (∀ r, sasl_validate cb (authid ki') ≠ Done r) →
  authenticate_iso_aes_verify (desfire f) d (rnd_a ai) (rnd_b ai) (key ki) (iv ai) = (d', r) →
  body = Some d → match r with Ok _ => true | Err _ => false end = true →
  auth_info f = Some ai → key_info f = Some ki → key_info f = Some ki' → sends →
  stuck cb f rnd body sends.
Proof.
  intros Hs Hval Hver Hb Hr Hai Hki Hki' Hsend. rewrite Hki in Hki'. inv_eqs.
  destruct r as [[]|]; [|done]. by eapply stuck_validate.
Qed.

(** Close a leaf that did not return. *)
Ltac stuck_leaf :=
  cbn [key_info set_key_info set_desfire set_step fst snd] in *;
  match goal with
  | E : Some _ = None |- _ => discriminate E
  | E : from_utf8 _ = None |- _ => eapply stuck_utf8; [tauto|body_leaf|exact E]
  | E : ok _ = None |- _ =>
      apply ok_None in E as [? E]; eapply stuck_challenge; [done|body_leaf|done|exact E]
  | E : ∀ r, need_card_key _ _ ≠ Done r |- _ => eapply stuck_key; [done|body_leaf|done|exact E]
  | E : ∀ r, sasl_validate _ _ ≠ Done r |- _ =>
      repeat match goal with x : () |- _ => destruct x end;
      eapply stuck_validate_intro;
        [done|exact E|eassumption|body_leaf|eassumption..|first [exact I|by do 2 eexists]]
  | Hinv : phase_inv _ ?f, E : key_info ?f = None |- _ =>
      exfalso; destruct (pi_auth1 _ f Hinv) as [? ?]; [tauto|congruence]
  end.

Section Steps.
Context `{Desfire} `{Json} `{Writer}.
Context (known : string → list N → Prop) (cb : SaslCallbacks).
Hypothesis cb_honest : honest known cb.
Implicit Types (f : FabFire).

Lemma bin_early_steps f out rnd input :
  phase_inv known f →
  (step f = New → wp (FabFireBin.step_new input) (f, out)
     (step_post known cb f) (stuck cb f rnd (bin_body input) True)) ∧
  (step f = SelectApp → wp (FabFireBin.step_select_app input) (f, out)
     (step_post known cb f) (stuck cb f rnd (bin_body input) True)) ∧
  (step f = VerifyMagic → wp (FabFireBin.step_verify_magic input) (f, out)
     (step_post known cb f) (stuck cb f rnd (bin_body input) True)).
Proof.
  intros Hinv. split_and!; intros Hs;
    unfold FabFireBin.step_new, FabFireBin.step_select_app, FabFireBin.step_verify_magic,
      FabFireBin.response, FabFireBin.send;
    repeat wp_step; step_leaf.
Qed.

Lemma bin_late_steps f out rnd input :
  phase_inv known f →
  (step f = GetURN → wp (FabFireBin.step_get_urn input) (f, out)
     (step_post known cb f) (stuck cb f rnd (bin_body input) True)) ∧
  (step f = GetToken → wp (FabFireBin.step_get_token cb input) (f, out)
     (step_post known cb f) (stuck cb f rnd (bin_body input) True)) ∧
  (step f = Authenticate1 → wp (FabFireBin.step_authenticate1 rnd input) (f, out)
     (step_post known cb f) (stuck cb f rnd (bin_body input) True)).
Proof.
  intros Hinv. split_and!; intros Hs;
    unfold FabFireBin.step_get_urn, FabFireBin.step_get_token, FabFireBin.step_authenticate1,
      FabFireBin.response, FabFireBin.send, check_urn, take_token, answer_challenge, utf8_unwrap;
    repeat wp_step; first [stuck_leaf|step_leaf].
Qed.

Lemma bin_final_step f out rnd input :
  phase_inv known f → step f = Authenticate2 →
  wp (FabFireBin.step_authenticate2 cb input) (f, out)
    (step_post known cb f) (stuck cb f rnd (bin_body input) True).
Proof.
  intros Hinv Hs. unfold FabFireBin.step_authenticate2, FabFireBin.response, verify_response.
  repeat wp_step; first [stuck_leaf|step_leaf].
Qed.

Lemma bin_step_spec f out rnd input :
  phase_inv known f →
  wp (FabFireBin.do_step cb rnd input) (f, out)
    (step_post known cb f) (stuck cb f rnd (bin_body input) True).
Proof.
  intros Hinv. unfold FabFireBin.do_step. do 2 wp_step.
  destruct (bin_early_steps f out rnd input Hinv) as (Hn & Hsel & Hm).
  destruct (bin_late_steps f out rnd input Hinv) as (Hu & Ht & Ha1).
  destruct (step f) eqn:Hs; auto using bin_final_step.
Qed.

(** The same for the JSON mechanism. *)
Lemma json_early_steps f out rnd input :
  phase_inv known f →
  (step f = New → wp (FabFireJson.step_new input) (f, out)
     (step_post known cb f) (stuck cb f rnd (json_body input) (confirms out))) ∧
  (step f = SelectApp → wp (FabFireJson.step_select_app input) (f, out)
     (step_post known cb f) (stuck cb f rnd (json_body input) (confirms out))) ∧
  (step f = VerifyMagic → wp (FabFireJson.step_verify_magic input) (f, out)
     (step_post known cb f) (stuck cb f rnd (json_body input) (confirms out))).
Proof.
  intros Hinv. split_and!; intros Hs;
    unfold FabFireJson.step_new, FabFireJson.step_select_app, FabFireJson.step_verify_magic,
      FabFireJson.response, FabFireJson.send;
    repeat wp_step; step_leaf.
Qed.

Lemma json_late_steps f out rnd input :
  phase_inv known f →
  (step f = GetURN → wp (FabFireJson.step_get_urn input) (f, out)
     (step_post known cb f) (stuck cb f rnd (json_body input) (confirms out))) ∧
  (step f = GetToken → wp (FabFireJson.step_get_token cb input) (f, out)
     (step_post known cb f) (stuck cb f rnd (json_body input) (confirms out))) ∧
  (step f = Authenticate1 → wp (FabFireJson.step_authenticate1 rnd input) (f, out)
     (step_post known cb f) (stuck cb f rnd (json_body input) (confirms out))).
Proof.
  intros Hinv. split_and!; intros Hs;
    unfold FabFireJson.step_get_urn, FabFireJson.step_get_token, FabFireJson.step_authenticate1,
      FabFireJson.response, FabFireJson.send, check_urn, take_token, answer_challenge, utf8_unwrap;
    repeat wp_step; first [stuck_leaf|step_leaf].
Qed.

Lemma json_final_step f out rnd input :
  phase_inv known f → step f = Authenticate2 →
  wp (FabFireJson.step_authenticate2 cb input) (f, out)
    (step_post known cb f) (stuck cb f rnd (json_body input) (confirms out)).
Proof.
  intros Hinv Hs. unfold FabFireJson.step_authenticate2, FabFireJson.response, verify_response.
  repeat wp_step; first [stuck_leaf|step_leaf].
Qed.

Lemma json_step_spec f out rnd input :
  phase_inv known f →
  wp (FabFireJson.do_step cb rnd input) (f, out)
    (step_post known cb f) (stuck cb f rnd (json_body input) (confirms out)).
Proof.
  intros Hinv. unfold FabFireJson.do_step. do 2 wp_step.
  destruct (json_early_steps f out rnd input Hinv) as (Hn & Hsel & Hm).
  destruct (json_late_steps f out rnd input Hinv) as (Hu & Ht & Ha1).
  destruct (step f) eqn:Hs; auto using json_final_step.
Qed.

End Steps.

(** A step that is stuck does not return. *)
Section Stuck.
Context `{Desfire} `{Json} `{Writer}.
Context (cb : SaslCallbacks).
Implicit Types (f : FabFire).

Ltac no_return :=
  cbn [bin_body json_body key_info auth_info set_desfire set_step fst snd] in *;
  repeat match goal with
  | E : parse_command _ = _, B : context[parse_command _] |- _ => rewrite E in B
  | E : apdu_check ?r = _, B : context[apdu_data ?r] |- _ => unfold apdu_data in B
  | E : apdu_check ?r = _, B : context[apdu_check ?r] |- _ => rewrite E in B
  end; simplify_eq; try done; try congruence;
  try match goal with
  | E : authenticate_iso_aes_response_cmd _ _ _ _ = _, B : ok _ = _ |- _ => by rewrite E in B
  | E : authenticate_iso_aes_verify _ _ _ _ _ _ = (_, Ok _),
    B : authenticate_iso_aes_verify _ _ _ _ _ _ = _ |- _ => rewrite E in B; by simplify_eq
  | E : ∀ r, ?o ≠ Done r, B : ?o = Done _ |- _ => by apply E in B
  end.

Lemma bin_stuck_spec f out rnd input :
  stuck cb f rnd (bin_body input) True →
  wp (FabFireBin.do_step cb rnd input) (f, out) (λ _ _, False) True.
Proof.
  intros Hst. unfold FabFireBin.do_step. do 2 wp_step.
  destruct Hst as [d [Hs|Hs] Hb Hu|d s Hs Hb Hu Hk|d ki e Hs Hb Hki Hc|d ki ai d' Hs Hb Hki Hai Hv Hsend Hval];
    rewrite Hs;
    unfold FabFireBin.step_get_urn, FabFireBin.step_get_token, FabFireBin.step_authenticate1,
      FabFireBin.step_authenticate2, FabFireBin.response, FabFireBin.send, check_urn, take_token,
      answer_challenge, verify_response, utf8_unwrap;
    repeat wp_step; no_return.
Qed.

Lemma json_stuck_spec f out rnd input :
  stuck cb f rnd (json_body input) (confirms out) →
  wp (FabFireJson.do_step cb rnd input) (f, out) (λ _ _, False) True.
Proof.
  intros Hst. unfold FabFireJson.do_step. do 2 wp_step.
  destruct Hst as [d [Hs|Hs] Hb Hu|d s Hs Hb Hu Hk|d ki e Hs Hb Hki Hc
    |d ki ai d' Hs Hb Hki Hai Hv (buf & out' & Hbuf & Hout) Hval];
    rewrite Hs;
    unfold FabFireJson.step_get_urn, FabFireJson.step_get_token, FabFireJson.step_authenticate1,
      FabFireJson.step_authenticate2, FabFireJson.response, FabFireJson.send, check_urn, take_token,
      answer_challenge, verify_response, utf8_unwrap;
    repeat wp_step; no_return.
Qed.

End Stuck.

(** ** Runs of a mechanism *)

Inductive mechanism := X_FABFIRE | X_FABFIRE_BIN (space : option string).

Section Runs.
Context `{Desfire} `{Json} `{Writer}.
Context (known : string → list N → Prop).

Definition mech_new (m : mechanism) : FabFire :=
  match m with
  | X_FABFIRE => FabFireJson.new_server
  | X_FABFIRE_BIN space => FabFireBin.new_server space
  end.

Definition mech_step (m : mechanism) (cb : SaslCallbacks) (rnd : list N) (input : option (list N))
  : M SaslState :=
  match m with
  | X_FABFIRE => FabFireJson.do_step cb rnd input
  | X_FABFIRE_BIN _ => FabFireBin.do_step cb rnd input
  end.

Definition mech_body (m : mechanism) (input : option (list N)) : option (list N) :=
  match m with
  | X_FABFIRE => json_body input
  | X_FABFIRE_BIN _ => bin_body input
  end.

Definition mech_stuck (m : mechanism) (cb : SaslCallbacks) (f : FabFire) (rnd : list N)
    (input : option (list N)) (out : list N) : Prop :=
  stuck cb f rnd (mech_body m input)
    match m with
    | X_FABFIRE => confirms out
    | X_FABFIRE_BIN _ => True
    end.

(** The states a client can drive a mechanism into, with any input, any
    random numbers and whatever the steps answer. *)
Inductive reached (m : mechanism) : FabFire → Prop :=
| reached_new : reached m (mech_new m)
| reached_step f cb rnd input out f' out' r :
    reached m f → honest known cb →
    mech_step m cb rnd input (f, out) = Done ((f', out'), r) → reached m f'.

Lemma mech_step_spec m cb f out rnd input :
  honest known cb → phase_inv known f →
  wp (mech_step m cb rnd input) (f, out)
    (step_post known cb f) (mech_stuck m cb f rnd input out).
Proof. intros Hcb Hinv. destruct m; [by apply json_step_spec|by apply bin_step_spec]. Qed.

Lemma reached_inv m f : reached m f → phase_inv known f.
Proof.
  induction 1 as [|f cb rnd input out f' out' r _ IH Hcb Hstep].
  - destruct m; split; simpl; naive_solver.
  - pose proof (mech_step_spec m cb f out rnd input Hcb IH) as Hwp.
    unfold wp in Hwp. rewrite Hstep in Hwp. apply Hwp.
Qed.

Lemma mech_stuck_spec m cb f out rnd input :
  mech_stuck m cb f rnd input out → wp (mech_step m cb rnd input) (f, out) (λ _ _, False) True.
Proof. destruct m; [apply json_stuck_spec|apply bin_stuck_spec]. Qed.

(** C11: whatever a client sends, a card mechanism only reports success
    with a message when it is in its last step, the DESFire library verified
    the card's answer against the key the user database has for the authid the
    card named, and the callback validated that authid; a running answer moves
    to the next step and to no other. *)
Theorem fabfire_success_authenticated m f cb rnd input out st' r :
  reached m f → honest known cb →
  mech_step m cb rnd input (f, out) = Done (st', r) →
  (r = Ok (Finished true) → authenticated known cb f) ∧
  (r = Ok Running → step f ≠ Authenticate2 ∧ step st'.1 = next (step f)).
Proof.
  intros Hr%reached_inv Hcb Hstep.
  pose proof (mech_step_spec m cb f out rnd input Hcb Hr) as Hwp.
  unfold wp in Hwp. rewrite Hstep in Hwp. destruct Hwp as (_ & ? & ?). auto.
Qed.

(** C36: a step fails to return exactly if the card's URN or token is not UTF-8, the
    callback does not return the key of the name in this token, the library refuses
    this challenge of the card, or the card's answer verifies (and, for the JSON
    mechanism, the last message is written) and the callback does not return from
    validating the name of the token: no other [unwrap] can fail. *)
Theorem fabfire_step_returns m f cb rnd input out :
  reached m f → honest known cb →
  (∀ res, mech_step m cb rnd input (f, out) ≠ Done res) ↔ mech_stuck m cb f rnd input out.
Proof.
  intros Hr%reached_inv Hcb. split.
  - pose proof (mech_step_spec m cb f out rnd input Hcb Hr) as Hwp. unfold wp in Hwp.
    destruct (mech_step m cb rnd input (f, out)) as [[st' r]| |]; [|done..].
    intros Hno. by destruct (Hno (st', r)).
  - intros Hst [st' r] Hd. pose proof (mech_stuck_spec m cb f out rnd input Hst) as Hwp.
    unfold wp in Hwp. by rewrite Hd in Hwp.
Qed.

(** a card whose URN file is not UTF-8 makes the server
    panic. *)
Theorem fabfire_bad_utf8_panics space f cb rnd input out d :
  step f = GetURN → bin_body input = Some d → from_utf8 d = None →
  mech_step (X_FABFIRE_BIN space) cb rnd input (f, out) = Panic.
Proof.
  intros Hs Hb Hd. simpl. unfold FabFireBin.do_step, mbind_, mget. simpl. rewrite Hs.
  unfold FabFireBin.step_get_urn, FabFireBin.response, mbind_, mret.
  destruct input as [l|]; [|done]. simpl in Hb. unfold apdu_data in Hb.
  unfold checked_body. simpl. destruct (apdu_check (apdu_new l)) as [[]|]; [|done].
  rewrite Hb. simpl. unfold check_urn, utf8_unwrap, mbind_, munwrap. by rewrite Hd.
Qed.

End Runs.

(** ** Witnesses: a card that answers with the key *)

Section Witnesses.

Definition toy_desfire : Desfire := {|
  DesfireSt := (); DesfireError := (); APDUCommand := list N; APDUResponse := list N;
  desfire_init := ();
  select_application_cmd _ i := Ok [i];
  read_data_chunk_cmd _ i _ _ := Ok [i];
  authenticate_iso_aes_challenge_cmd _ i := Ok [i];
  authenticate_iso_aes_response_cmd _ enc k ra := Ok (ra ++ k, enc, k);
  authenticate_iso_aes_verify _ d _ _ k _ := ((), if decide (d = k) then Ok () else Err ());
  apdu_to_vec c := Ok c;
  apdu_new l := l;
  apdu_check _ := Ok ();
  apdu_body r := Some r;
  apdu_display _ := EmptyString;
  max_bytes_per_transaction := 47;
|}.
#[local] Existing Instance toy_desfire.

Definition toy_json : Json := {|
  JsonError := ();
  parse_card_info _ := Err ();
  parse_command _ := Err ();
  command_to_vec _ := Err ();
|}.
#[local] Existing Instance toy_json.

Definition toy_writer : Writer := {| IoError := (); write_all out bs := Ok (out ++ bs) |}.
#[local] Existing Instance toy_writer.

Definition toy_callbacks : SaslCallbacks := {|
  need_card_key a := Done (if decide (a = "bob") then Ok [7%N] else Err CallbackError);
  sasl_validate _ := Done (Ok ());
|}.

Definition toy_known (a : string) (k : list N) : Prop := a = "bob" ∧ k = [7%N].

Lemma toy_honest : honest toy_known toy_callbacks.
Proof. intros a k. simpl. case_decide; intros; by simplify_eq. Qed.

Definition toy_mech : mechanism := X_FABFIRE_BIN (Some "lab").

(** The inputs a card of bob's sends. *)
Definition toy_inputs : list (list N) :=
  [[]; []; bytes_of_string MAGIC; bytes_of_string "urn:fabaccess:lab:lab";
   bytes_of_string "bob"; [1%N]].

Fixpoint toy_run (st : FabFire * list N) (l : list (list N)) : FabFire * list N :=
  match l with
  | [] => st
  | i :: l' =>
      match mech_step toy_mech toy_callbacks [9%N] (Some i) st with
      | Done (st', _) => toy_run st' l'
      | _ => st
      end
  end.

Lemma toy_run_reached st l :
  reached toy_known toy_mech st.1 → reached toy_known toy_mech (toy_run st l).1.
Proof.
  revert st. induction l as [|i l IH]; intros [f out] Hst; cbn [toy_run]; [done|].
  destruct (mech_step toy_mech toy_callbacks [9%N] (Some i) (f, out)) as [[[f' out'] r]| |] eqn:E;
    [|done..]. apply IH. eapply reached_step; [exact Hst|apply toy_honest|exact E].
Qed.

Lemma fabfire_success_authenticated_witness :
  let st := toy_run (mech_new toy_mech, []) toy_inputs in
  ∃ st', mech_step toy_mech toy_callbacks [9%N] (Some [7%N]) st = Done (st', Ok (Finished true)) ∧
    authenticated toy_known toy_callbacks st.1.
Proof.
  intros st. eexists. split; [vm_compute; reflexivity|].
  destruct st as [f out] eqn:Est.
  eapply (fabfire_success_authenticated toy_known toy_mech f toy_callbacks [9%N] (Some [7%N]) out).
  - change f with (f, out).1. rewrite <- Est. apply toy_run_reached, reached_new.
  - apply toy_honest.
  - rewrite <- Est. vm_compute. reflexivity.
  - reflexivity.
Defined.

(** Callbacks that panic when asked for a name that is not a user's. *)
Definition strict_callbacks : SaslCallbacks := {|
  need_card_key a := if decide (a = "bob") then Done (Ok [7%N]) else Panic;
  sasl_validate _ := Done (Ok ());
|}.

Lemma strict_honest : honest toy_known strict_callbacks.
Proof. intros a k. simpl. case_decide; intros; by simplify_eq. Qed.

(** The token of bob is taken; that of eve makes the step panic. *)
Lemma fabfire_step_returns_witness :
  let st := toy_run (mech_new toy_mech, []) (take 4 toy_inputs) in
  step st.1 = GetToken ∧
  (¬ mech_stuck toy_mech strict_callbacks st.1 [9%N] (Some (bytes_of_string "bob")) st.2) ∧
  ∀ res, mech_step toy_mech strict_callbacks [9%N] (Some (bytes_of_string "eve")) st ≠ Done res.
Proof.
  intros st. assert (reached toy_known toy_mech st.1) as Hreach by apply toy_run_reached, reached_new.
  split; [vm_compute; reflexivity|]. split.
  - intros Hst. revert Hst.
    rewrite <- (fabfire_step_returns toy_known toy_mech st.1 strict_callbacks [9%N]
      (Some (bytes_of_string "bob")) st.2 Hreach strict_honest).
    intros Hno. eapply Hno. vm_compute. reflexivity.
  - destruct st as [f out] eqn:Est. apply (fabfire_step_returns toy_known); [exact Hreach|apply strict_honest|].
    assert (f = st.1) as -> by (by rewrite Est).
    eapply stuck_key; [vm_compute; reflexivity|reflexivity|vm_compute; reflexivity|].
    intros r. vm_compute. discriminate.
Defined.

Lemma fabfire_bad_utf8_panics_witness :
  let st := toy_run (mech_new toy_mech, []) (take 3 toy_inputs) in
  mech_step toy_mech toy_callbacks [9%N] (Some [255%N]) st = Panic.
Proof.
  intros st. destruct st as [f out] eqn:Est.
  apply (fabfire_bad_utf8_panics (Some "lab") f toy_callbacks [9%N] (Some [255%N]) out [255%N]);
    [|reflexivity|reflexivity].
  change f with (f, out).1. rewrite <- Est. vm_compute. reflexivity.
Defined.

End Witnesses.
