(* ===== verification/Auth.v ===== *)
(** * Authentication (bffhd/authentication/mod.rs,
    bffhd/capnp/authenticationsystem.rs, bffhd/capnp/connection.rs)

    The SASL callback that finds card keys and validates users, and the
    authentication object of the API that drives a SASL session and hands out
    the session object.  The SASL library is a parameter. *)

From S2P Require Import Prelude Permissions Roles Db Users Machine Session UserApi FabFire.

(** ** The callback *)

(** The properties a mechanism provides. *)
Record SaslContext := mkSaslContext {
  ctx_authid : option string;
  ctx_authzid : option string;
  ctx_password : option string;
}.

Inductive validation_error := MissingRequiredProperty.

(** [CallbackError::NoValue] *)
Inductive callback_error := NoValue.

Module Callback.
Section Callback.
Context `{Lmdb} `{Rkyv User} `{Argon2} `{Hex}.

(** [Callback::callback]: the card key of the authid, 16 bytes of hex in the
    user's "cardkey"; without an authid nothing is answered. *)
Definition callback (users : Users.t) (e : Env) (ctx : SaslContext)
  : outcome (option (result (list N) callback_error)) :=
  match ctx_authid ctx with
  | None => Done None
  | Some authid =>
      let! o := Users.get_user users e authid in
      Done (Some (
        let? user := ok_or o NoValue in
        let? v := ok_or (kv (userdata user) !! "cardkey") NoValue in
        let? card_key := ok_or (hex_decode v) NoValue in
        if decide (length card_key = 16) then Ok card_key else Err NoValue))
  end.

(** [Callback::validate]: the user the validation is finalized with, if any. *)
Definition validate (users : Users.t) (e : Env) (mechanism : string) (ctx : SaslContext)
  (is_v : bool) : outcome (option User * result () validation_error) :=
  if is_v then
    if decide (mechanism = "PLAIN") then
      match ctx_authid ctx with
      | None => Done (None, Err MissingRequiredProperty)
      | Some authcid =>
          match ctx_authzid ctx with
          | None => Done (None, Err MissingRequiredProperty)
          | Some authzid =>
              match ctx_password ctx with
              | None => Done (None, Err MissingRequiredProperty)
              | Some password =>
                  if decide (authzid ≠ EmptyString) then Done (None, Ok ())
                  else
                    let! o := Users.get_user users e authcid in
                    Done (match o with
                          | Some user =>
                              match UserOps.check_password user password with
                              | Ok true => (Some user, Ok ())
                              | _ => (None, Ok ())
                              end
                          | None => (None, Ok ())
                          end)
              end
          end
      end
    else if decide (mechanism = "X-FABFIRE" ∨ mechanism = "X-FABFIRE-BIN") then
      match ctx_authid ctx with
      | None => Done (None, Err MissingRequiredProperty)
      | Some authcid =>
          let! o := Users.get_user users e authcid in
          Done (o, Ok ())
      end
    else Done (None, Ok ())
  else Done (None, Ok ()).

End Callback.
End Callback.

(** ** The authentication object *)

Inductive ErrorCode := Aborted_ | BadMechanism | InvalidCredentials_.

Section Response.
Context `{Lmdb}.

(** The reply to [step]; [NoReply]: nothing was set. *)
Inductive Response :=
| Successful (additional : option (list N)) (session : SessionView)
| Failed (code : ErrorCode)
| Challenge (data : list N)
| NoReply.

End Response.

(** A SASL session: a step takes the client's data and gives the new session,
    the output and the state or an error; [validation] is the user it was
    finalized with. *)
Class Sasl := {
  SaslSession : Type;
  sasl_step : SaslSession → list N → SaslSession * list N * result SaslState ();
  validation : SaslSession → option User;
  (** [Mechname::parse] and [start_suggested] *)
  mechname_parse : string → option string;
  sasl_start : string → option SaslSession;
  (** [get_available]: the names of the mechanisms that can be offered *)
  sasl_available : list string;
}.

(** A mechanism that can be offered has a well-formed name and can be started. *)
Class SaslLaws `{Sasl} : Prop := {
  available_starts m : m ∈ sasl_available → mechname_parse m = Some m ∧ is_Some (sasl_start m);
}.

Module Authentication.
Section Authentication.
Context `{Lmdb} `{Rkyv User} `{AuditIo} `{Sasl}.

Inductive State :=
| InvalidMechanism
| Finished_
| Aborted
| Running_ (session : SaslSession) (manager : Session.SessionManager).

Definition new (session : SaslSession) (manager : Session.SessionManager) : State :=
  Running_ session manager.
Definition invalid_mechanism : State := InvalidMechanism.

Definition build_error (self : State) : Response :=
  match self with
  | Running_ _ _ => NoReply
  | InvalidMechanism => Failed BadMechanism
  | Finished_ => Failed Aborted_
  | Aborted => Failed Aborted_
  end.

(** [Display for Authentication] *)
Definition display (self : State) : string :=
  "Authentication(" +:+
  match self with
  | InvalidMechanism => "invalid mechanism"
  | Finished_ => "finished"
  | Aborted => "aborted"
  | Running_ _ _ => "running"
  end +:+ ")".

(** [step]: the state is taken out first, leaving [Aborted] in its place.
    [params] is the request's data, or the error of decoding it. *)
Definition step (w : World) (resources_set : bool) (self : State)
  (params : result (list N) capnp_error)
  : outcome (State * result Response capnp_error) :=
  let taken := self in
  let self := Aborted in
  match taken with
  | Running_ session manager =>
      match params with
      | Err e => Done (self, Err e)
      | Ok data =>
          let '(session, out, r) := sasl_step session data in
          match r with
          | Ok (Finished sent) =>
              let self := Finished_ in
              match validation session with
              | Some user =>
                  let sess := Session.open manager user in
                  let! view := ApiSession.build w resources_set sess in
                  Done (self, Ok (Successful (if sent then Some out else None) view))
              | None => Done (self, Ok (Failed InvalidCredentials_))
              end
          | Ok Running => Done (Running_ session manager, Ok (Challenge out))
          | Err _ => Done (Aborted, Ok (build_error Aborted))
          end
      end
  | _ => Done (self, Ok (build_error self))
  end.

Definition abort (self : State) : State := Aborted.

End Authentication.
End Authentication.

(** [AuthenticationHandle]: the configuration of the SASL library, with the
    callback, is the instance of [Sasl]. *)
Module AuthenticationHandle.
Section AuthenticationHandle.
Context `{Sasl}.

Definition start (mechanism : string) : option SaslSession := sasl_start mechanism.

(** [sess().get_available()], by name *)
Definition sess : list string := sasl_available.

End AuthenticationHandle.
End AuthenticationHandle.

(** [connection::BootCap] *)
Module BootCap.
Section BootCap.
Context `{Lmdb} `{Rkyv User} `{AuditIo} `{Sasl}.

(** The bootstrap object of a connection: its peer, and what it opens sessions
    with.  The authentication handle is the configuration of the SASL library. *)
Record t (Peer : Type) := mk {
  peer_addr : Peer;
  sessionmanager : Session.SessionManager;
}.

Definition new {Peer} (peer : Peer) (manager : Session.SessionManager) : t Peer := mk Peer peer manager.

(** [mechanisms], and how its reply is logged *)
Definition mechanisms : list string := AuthenticationHandle.sess.

Definition display_mechs (l : list string) : string :=
  "[" +:+ match l with
          | [] => EmptyString
          | m :: rest => m +:+ foldr (λ m s, " ," +:+ m +:+ s) EmptyString rest
          end +:+ "]".

Definition create_session (manager : Session.SessionManager) (mechanism : string)
  : Authentication.State :=
  match mechname_parse mechanism with
  | Some mechname =>
      match AuthenticationHandle.start mechname with
      | Some session => Authentication.new session manager
      | None => Authentication.invalid_mechanism
      end
  | None => Authentication.invalid_mechanism
  end.

(** [get_api_version] *)
Definition get_api_version : () := ().

(** [get_server_release] *)
Definition get_server_release (version : string) : string * string := ("bffhd", version).

End BootCap.
End BootCap.

(** ** The callback behind the card mechanisms *)

Section CardCallbacks.
Context `{Lmdb} `{Rkyv User} `{Argon2} `{Hex} `{Desfire} `{Json} `{Writer}.

(** What a mechanism's [need_with] and [validate] reach through the SASL
    library: the callback with the authid the mechanism provides. *)
Definition card_callbacks (users : Users.t) (e : Env) (mechanism : string) : SaslCallbacks := {|
  need_card_key a :=
    let! r := Callback.callback users e (mkSaslContext (Some a) None None) in
    Done (match r with Some (Ok k) => Ok k | _ => Err CallbackError end);
  sasl_validate a :=
    let! r := Callback.validate users e mechanism (mkSaslContext (Some a) None None) true in
    Done (match r.2 with Ok _ => Ok () | Err _ => Err CallbackError end);
|}.

End CardCallbacks.

(** ** Lemmas *)

Abbreviation users_of us e := (users_in (Users.userdb us) (env_contents e)).

Section CallbackLemmas.
Context `{LmdbLaws} `{!LmdbHealthy} `{RkyvLaws User} `{Argon2} `{Hex}.
Implicit Types (us : Users.t) (e : Env).

(** The database has [k] as the card key of [a]. *)
Definition card_key_of us e (a : string) (k : list N) : Prop :=
  ∃ user v, users_of us e !! a = Some user ∧ kv (userdata user) !! "cardkey" = Some v ∧
    hex_decode v = Some k ∧ length k = 16.

Lemma callback_spec us e a :
  valid_key a →
  ∃ r, Callback.callback us e (mkSaslContext (Some a) None None) = Done (Some r) ∧
    ∀ k, r = Ok k ↔ card_key_of us e a k.
Proof.
  intros Hk. unfold Callback.callback. simpl. rewrite get_user_spec by done. simpl.
  eexists. split; [done|]. intros k. unfold card_key_of.
  destruct (users_of us e !! a) as [user|]; simpl; [|split; [done|naive_solver]].
  destruct (kv (userdata user) !! "cardkey") as [v|] eqn:Hv; simpl; [|split; [done|naive_solver]].
  destruct (hex_decode v) as [b|] eqn:Hb; simpl; [|split; [done|naive_solver]].
  case_decide; split; intros Hr.
  - inv_eqs. by exists user, v.
  - destruct Hr as (u & v' & ? & ? & ? & ?). by simplify_eq.
  - done.
  - destruct Hr as (u & v' & ? & ? & ? & ?). by simplify_eq.
Qed.

Lemma validate_plain_spec us e ctx authcid authzid password :
  ctx = mkSaslContext (Some authcid) (Some authzid) (Some password) → valid_key authcid →
  ∃ o, Callback.validate us e "PLAIN" ctx true = Done (o, Ok ()) ∧
    ∀ user, o = Some user ↔
      authzid = EmptyString ∧ users_of us e !! authcid = Some user ∧
      UserOps.check_password user password = Ok true.
Proof.
  intros -> Hk. unfold Callback.validate. simpl. rewrite get_user_spec by done.
  destruct (decide (authzid = EmptyString)) as [->|Hz].
  - rewrite decide_False by tauto. simpl. destruct (users_of us e !! authcid) as [u|].
    + destruct (UserOps.check_password u password) as [[]|] eqn:Hc; eexists; (split; [done|]);
        intros user; (split; [intros ?; by simplify_eq|]); intros (_ & ? & ?); congruence.
    + eexists. split; [done|]. intros user. split; [done|]. by intros (_ & ? & _).
  - rewrite decide_True by done. eexists. split; [done|]. intros user.
    split; [done|]. by intros (? & _).
Qed.

Lemma validate_card_spec us e mech a :
  mech = "X-FABFIRE" ∨ mech = "X-FABFIRE-BIN" → valid_key a →
  Callback.validate us e mech (mkSaslContext (Some a) None None) true =
    Done (users_of us e !! a, Ok ()).
Proof.
  intros Hm Hk. unfold Callback.validate. simpl.
  rewrite decide_False by (by destruct Hm as [->| ->]). rewrite decide_True by done.
  by rewrite get_user_spec by done.
Qed.

End CallbackLemmas.

Section CardLemmas.
Context `{LmdbLaws} `{!LmdbHealthy} `{!LmdbKeyLimit} `{RkyvLaws User} `{Argon2} `{Hex}.
Context `{Desfire} `{Json} `{Writer}.

Lemma get_user_bad_key us (e : Env) uid :
  ¬ valid_key uid → Users.get_user us e uid = Panic.
Proof.
  intros Hk. unfold Users.get_user, UserDB.get. destruct (begin_ro_healthy e) as [txn ->]. simpl.
  unfold DB.get, RawDB.get. by rewrite txn_get_bad_key.
Qed.

Lemma card_callbacks_honest us (e : Env) mech :
  honest (card_key_of us e) (card_callbacks us e mech).
Proof.
  intros a k. simpl. destruct (decide (valid_key a)) as [Hk|Hk].
  - destruct (callback_spec us e a Hk) as (r & -> & Hr). simpl. destruct r as [k'|]; [|done].
    intros [= ->]. by apply Hr.
  - unfold Callback.callback. simpl. by rewrite get_user_bad_key.
Qed.

End CardLemmas.

(** ** Properties *)

Section Properties.
Context `{LmdbLaws} `{!LmdbHealthy} `{!LmdbKeyLimit} `{RkyvLaws User} `{Argon2} `{Hex}.

(** C14: PLAIN logs somebody in as the named user exactly when that user
    exists, the password is the user's, and no other authorization identity
    was asked for. *)
Theorem plain_validates_password us (e : Env) authcid authzid password :
  valid_key authcid →
  ∃ o, Callback.validate us e "PLAIN"
         (mkSaslContext (Some authcid) (Some authzid) (Some password)) true = Done (o, Ok ()) ∧
    ∀ user, o = Some user ↔
      authzid = EmptyString ∧ users_of us e !! authcid = Some user ∧
      UserOps.check_password user password = Ok true.
Proof. intros Hk. by apply validate_plain_spec. Qed.

(** a login with a name the database takes no key of (empty, or
    longer than 511 bytes) panics, since the lookup unwraps the database
    error. *)
Theorem plain_bad_name_panics us (e : Env) authcid password :
  ¬ valid_key authcid →
  Callback.validate us e "PLAIN"
    (mkSaslContext (Some authcid) (Some EmptyString) (Some password)) true = Panic.
Proof.
  intros Hk. unfold Callback.validate. simpl. by rewrite get_user_bad_key.
Qed.

End Properties.

Section CardLogin.
Context `{LmdbLaws} `{!LmdbHealthy} `{!LmdbKeyLimit} `{RkyvLaws User} `{Argon2} `{Hex}.
Context `{Desfire} `{Json} `{Writer}.

(** The SASL names of the card mechanisms. *)
Definition mech_name (m : mechanism) : string :=
  match m with X_FABFIRE => "X-FABFIRE" | X_FABFIRE_BIN _ => "X-FABFIRE-BIN" end.

(** C12: a card login that ends in success is for a user of the database
    who has a 16-byte card key stored, the card's answer was verified against
    that key, and that user is the one the login is validated for. *)
Theorem card_login_end_to_end m us (e : Env) f rnd input out st' :
  reached (card_key_of us e) m f →
  mech_step m (card_callbacks us e (mech_name m)) rnd input (f, out) = Done (st', Ok (Finished true)) →
  ∃ user ki ai data d', key_info f = Some ki ∧ auth_info f = Some ai ∧
    users_of us e !! authid ki = Some user ∧ card_key_of us e (authid ki) (key ki) ∧
    authenticate_iso_aes_verify (desfire f) data (rnd_a ai) (rnd_b ai) (key ki) (iv ai) = (d', Ok ()) ∧
    Callback.validate us e (mech_name m) (mkSaslContext (Some (authid ki)) None None) true
      = Done (Some user, Ok ()).
Proof.
  intros Hr Hstep. pose proof (card_callbacks_honest us e (mech_name m)) as Hcb.
  pose proof (mech_step_spec _ m _ f out rnd input Hcb (reached_inv _ _ _ Hr)) as Hwp.
  unfold wp in Hwp. rewrite Hstep in Hwp. destruct Hwp as (_ & _ & Hauth).
  destruct (Hauth eq_refl) as (_ & ki & ai & data & d' & Hki & Hai & Hkey & Hver & _).
  pose proof Hkey as (user & v & Hu & _ & _ & Hlen).
  exists user, ki, ai, data, d'. split_and!; [done..|].
  rewrite validate_card_spec; [by rewrite Hu|destruct m; simpl; auto|].
  destruct (decide (valid_key (authid ki))) as [|Hbad]; [done|]. exfalso.
  assert (sasl_validate (card_callbacks us e (mech_name m)) (authid ki) = Panic) as Hp.
  { simpl. unfold Callback.validate. simpl. rewrite decide_False by (by destruct m).
    rewrite decide_True by (destruct m; simpl; auto). by rewrite get_user_bad_key. }
  destruct (Hauth eq_refl) as (_ & ki' & ? & ? & ? & Hki' & _ & _ & _ & Hval).
  rewrite Hki in Hki'. inv_eqs. by rewrite Hp in Hval.
Qed.

End CardLogin.

(** ** Starting *)

Section Starting.
Context `{Lmdb} `{Rkyv User} `{AuditIo} `{SaslLaws}.

(** Whatever mechanism of the list a client asks for, it gets an exchange that
    runs with the sessions of the connection. *)
Lemma advertised_runs manager m :
  m ∈ BootCap.mechanisms →
  ∃ s, sasl_start m = Some s ∧ BootCap.create_session manager m = Authentication.Running_ s manager.
Proof.
  intros (Hp & s & Hs)%available_starts. exists s. split; [done|].
  unfold BootCap.create_session, AuthenticationHandle.start. by rewrite Hp, Hs.
Qed.

End Starting.

(** ** The authentication object over time *)

Section AuthRuns.
Context `{Lmdb} `{Rkyv User} `{AuditIo} `{Sasl}.
Implicit Types (st : Authentication.State).

(** What a client does with the object. *)
Inductive auth_event :=
| EvStep (w : World) (params : result (list N) capnp_error)
| EvAbort.

Inductive auth_run : Authentication.State → list auth_event → list Response → Prop :=
| auth_nil st : auth_run st [] []
| auth_abort st evs rs :
    auth_run (Authentication.abort st) evs rs → auth_run st (EvAbort :: evs) rs
| auth_step st w params st' r evs rs :
    Authentication.step w true st params = Done (st', Ok r) →
    auth_run st' evs rs → auth_run st (EvStep w params :: evs) (r :: rs)
| auth_error st w params st' e evs rs :
    Authentication.step w true st params = Done (st', Err e) →
    auth_run st' evs rs → auth_run st (EvStep w params :: evs) rs.

Definition is_success (r : Response) : bool :=
  match r with Successful _ _ => true | _ => false end.

Definition running st : Prop :=
  match st with Authentication.Running_ _ _ => True | _ => False end.

(** A session was opened for a user the SASL library validated. *)
Definition opened_for (manager : Session.SessionManager) (r : Response) : Prop :=
  ∀ additional view, r = Successful additional view →
    ∃ s user, validation s = Some user ∧
      sv_machines view = Session.open manager user ∧ sv_user_info view = Session.open manager user.

Lemma step_not_running w st params st' r :
  ¬ running st → Authentication.step w true st params = Done (st', r) →
  st' = Authentication.Aborted ∧ r = Ok (Failed Aborted_).
Proof. intros Hnr. destruct st; simpl; [intros; by inv_eqs..|by destruct Hnr]. Qed.

Lemma step_running w s m params st' r :
  Authentication.step w true (Authentication.Running_ s m) params = Done (st', r) →
  (∃ s' out, st' = Authentication.Running_ s' m ∧ r = Ok (Challenge out)) ∨
  (¬ running st' ∧ ∀ resp, r = Ok resp → opened_for m resp ∧ resp ≠ Failed BadMechanism).
Proof.
  unfold Authentication.step. destruct params as [data|e]; [|intros; inv_eqs; right; split; [tauto|done]].
  destruct (sasl_step s data) as [[s' out] [[|sent]|[]]].
  - intros; inv_eqs. left. eauto.
  - destruct (validation s') as [user|] eqn:Hval.
    + unfold ApiSession.build. intros (view & Hv & Hd)%outcome_bind_Done. inv_eqs.
      apply outcome_bind_Done in Hv as (b & _ & Hv). inv_eqs.
      right. split; [tauto|]. intros resp [= <-]. split; [|done].
      intros additional view [= <- <-]. by exists s', user.
    + intros; inv_eqs. right. split; [tauto|]. intros resp [= <-]. split; [by intros ??|done].
  - intros; inv_eqs. right. split; [tauto|]. intros resp [= <-]. split; [by intros ??|done].
Qed.

Lemma auth_run_not_running st evs rs :
  ¬ running st → auth_run st evs rs → Forall (λ r, r = Failed Aborted_) rs.
Proof.
  intros Hnr Hrun. induction Hrun as [|st evs rs _ IH|st w p st' r evs rs Hs _ IH|st w p st' e evs rs Hs _ IH].
  - constructor.
  - apply IH. tauto.
  - apply step_not_running in Hs as [-> Hr]; [|done]. inv_eqs. constructor; [done|]. apply IH. tauto.
  - apply step_not_running in Hs as [-> Hr]; [|done]. done.
Qed.

Lemma no_success rs : Forall (λ r, r = Failed Aborted_) rs → List.filter is_success rs = [].
Proof. induction 1 as [|r rs -> _ IH]; [done|exact IH]. Qed.

Lemma failed_opened m rs :
  Forall (λ r, r = Failed Aborted_) rs → Forall (λ r, opened_for m r ∧ r ≠ Failed BadMechanism) rs.
Proof. intros Hall. eapply Forall_impl; [exact Hall|]. intros r ->. split; [by intros ??|done]. Qed.

(** C13: over any sequence of steps and aborts an authentication object
    hands out at most one session, and only for a user the SASL library
    validated. *)
Theorem auth_at_most_one_session manager mechanism evs rs :
  auth_run (BootCap.create_session manager mechanism) evs rs →
  length (List.filter is_success rs) ≤ 1 ∧ Forall (opened_for manager) rs.
Proof.
  intros Hrun.
  assert (∀ s, auth_run (Authentication.Running_ s manager) evs rs →
    length (List.filter is_success rs) ≤ 1 ∧
    Forall (λ r, opened_for manager r ∧ r ≠ Failed BadMechanism) rs) as Hmain.
  { clear Hrun. intros s Hrun. remember (Authentication.Running_ s manager) as st eqn:Hst.
    revert s Hst. induction Hrun as [|st evs rs Hr _|st w p st' r evs rs Hs Hr IH|st w p st' e evs rs Hs Hr IH];
      intros s ->; [simpl; split; [lia|constructor]| | |].
    - apply auth_run_not_running in Hr; [|tauto]. rewrite no_success by done.
      split; [simpl; lia|by apply failed_opened].
    - apply step_running in Hs as [(s' & out & -> & Hrr)|[Hnr Hok]]; inv_eqs.
      + destruct (IH s' eq_refl) as [Hlen Hall]. split; [exact Hlen|].
        constructor; [|done]. split; [by intros ??|done].
      + apply auth_run_not_running in Hr; [|done]. specialize (Hok r eq_refl).
        split; [|constructor; [done|by apply failed_opened]].
        simpl. destruct (is_success r); simpl; rewrite no_success by done; simpl; lia.
    - apply step_running in Hs as [(s' & out & -> & Hrr)|[Hnr _]]; [done|].
      apply auth_run_not_running in Hr; [|done]. rewrite no_success by done.
      split; [simpl; lia|by apply failed_opened]. }
  assert (∀ st, ¬ running st → auth_run st evs rs →
    length (List.filter is_success rs) ≤ 1 ∧ Forall (opened_for manager) rs) as Hdead.
  { intros st Hnr Hr%auth_run_not_running; [|done]. rewrite no_success by done. split; [simpl; lia|].
    eapply Forall_impl; [by apply (failed_opened manager)|]. by intros r [? _]. }
  unfold BootCap.create_session in Hrun.
  destruct (mechname_parse mechanism) as [mn|]; [|exact (Hdead Authentication.InvalidMechanism (λ F, F) Hrun)].
  destruct (AuthenticationHandle.start mn) as [s|]; [|exact (Hdead Authentication.InvalidMechanism (λ F, F) Hrun)].
  destruct (Hmain s Hrun) as [? Hall]. split; [done|].
  eapply Forall_impl; [exact Hall|]. by intros r [? _].
Qed.

(** [step] takes the state out before it builds the error, so for a
    mechanism the server does not know every answer is "aborted", and the code
    "bad mechanism" that [build_error] has for it is never sent. *)
Theorem bad_mechanism_reported_as_aborted manager mechanism evs rs :
  mechname_parse mechanism ≫= sasl_start = None →
  auth_run (BootCap.create_session manager mechanism) evs rs →
  Authentication.build_error (BootCap.create_session manager mechanism) = Failed BadMechanism ∧
  Forall (λ r, r = Failed Aborted_) rs.
Proof.
  unfold BootCap.create_session, AuthenticationHandle.start. intros Hm Hrun.
  destruct (mechname_parse mechanism) as [mn|]; simpl in Hm;
    [rewrite Hm in *|]; (split; [done|]); eapply auth_run_not_running; [|exact Hrun| |exact Hrun]; tauto.
Qed.

End AuthRuns.

(** ** Witnesses *)

Section Witnesses.

(** A SASL library whose only mechanism validates one user at once. *)
Definition toy_sasl : Sasl := {|
  SaslSession := option User;
  sasl_step s data := (Some demo_user, [], Ok (Finished false));
  validation s := s;
  mechname_parse s := Some s;
  sasl_start m := if decide (m = "PLAIN") then Some None else None;
  sasl_available := ["PLAIN"];
|}.
#[local] Existing Instance toy_sasl.

Definition demo_manager : Session.SessionManager := Session.mkSessionManager demo_users demo_roles.

Lemma auth_at_most_one_session_witness :
  let st := BootCap.create_session demo_manager "PLAIN" in
  ∃ r, Authentication.step demo_world true st (Ok []) = Done (Authentication.Finished_, Ok r) ∧
    is_success r = true ∧ length (List.filter is_success [r; Failed Aborted_]) ≤ 1.
Proof.
  intros st.
  destruct (permits_decides demo_world (Session.open demo_manager demo_user) "bffh.users.manage")
    as (b & Hb & _); [split; [apply demo_key|apply demo_acyclic]|].
  assert (∃ r, Authentication.step demo_world true st (Ok []) = Done (Authentication.Finished_, Ok r) ∧
    is_success r = true) as (r & Hr & Hsucc).
  { subst st. unfold Authentication.step, BootCap.create_session, Authentication.new.
    cbn [mechname_parse AuthenticationHandle.start sasl_start toy_sasl]. rewrite decide_True by done.
    cbn [sasl_step validation toy_sasl]. unfold ApiSession.build. rewrite Hb.
    cbn [outcome_bind]. eauto. }
  exists r. split; [exact Hr|]. split; [exact Hsucc|].
  apply (auth_at_most_one_session demo_manager "PLAIN" [EvStep demo_world (Ok []); EvStep demo_world (Ok [])]).
  eapply auth_step; [exact Hr|].
  eapply auth_step; [reflexivity|apply auth_nil].
Defined.

Lemma bad_mechanism_reported_as_aborted_witness :
  Authentication.build_error (BootCap.create_session demo_manager "LOGIN") = Failed BadMechanism ∧
  Forall (λ r, r = Failed Aborted_) [Failed Aborted_].
Proof.
  apply (bad_mechanism_reported_as_aborted demo_manager "LOGIN" [EvStep demo_world (Ok [])]);
    [reflexivity|].
  eapply auth_step; [reflexivity|apply auth_nil].
Defined.

Lemma plain_validates_password_witness :
  ∃ o, Callback.validate demo_users demo_env "PLAIN"
         (mkSaslContext (Some "bob") (Some EmptyString) (Some "pw")) true = Done (o, Ok ()) ∧ o = None.
Proof.
  destruct (plain_validates_password demo_users demo_env "bob" EmptyString "pw" demo_key)
    as (o & Ho & Huser).
  exists o. split; [exact Ho|]. destruct o as [user|]; [|reflexivity].
  exfalso. destruct (proj1 (Huser user) eq_refl) as (_ & Hu & Hc).
  vm_compute in Hu. injection Hu as <-. by vm_compute in Hc.
Defined.

Lemma plain_bad_name_panics_witness :
  Callback.validate demo_users demo_env "PLAIN"
    (mkSaslContext (Some EmptyString) (Some EmptyString) (Some "pw")) true = Panic.
Proof.
  apply plain_bad_name_panics. intros [Hlen _]. simpl in Hlen. lia.
Defined.

#[local] Existing Instance toy_desfire.
#[local] Existing Instance toy_json.
#[local] Existing Instance toy_writer.

(** A user database in which bob has a card. *)
Definition card_key : list N := replicate 16 7%N.
Definition card_user : User :=
  mkUser "bob" (mkUserData [] None {[ "cardkey" := hex_encode card_key ]}).
Definition card_env : @Env MapLmdb :=
  ({[ "user" := {[ "bob" := [N.pos (encode card_user)] ]} ]} : mapenv).

Definition card_cb : SaslCallbacks := card_callbacks demo_users card_env "X-FABFIRE-BIN".

Fixpoint card_run (st : FabFire * list N) (l : list (list N)) : FabFire * list N :=
  match l with
  | [] => st
  | i :: l' =>
      match mech_step toy_mech card_cb [9%N] (Some i) st with
      | Done (st', _) => card_run st' l'
      | _ => st
      end
  end.

Lemma card_run_reached st l :
  reached (card_key_of demo_users card_env) toy_mech st.1 →
  reached (card_key_of demo_users card_env) toy_mech (card_run st l).1.
Proof.
  revert st. induction l as [|i l IH]; intros [f out] Hst; cbn [card_run]; [done|].
  destruct (mech_step toy_mech card_cb [9%N] (Some i) (f, out)) as [[[f' out'] r]| |] eqn:E;
    [|done..]. apply IH. eapply reached_step; [exact Hst|apply card_callbacks_honest|exact E].
Qed.

Lemma card_login_end_to_end_witness :
  let st := card_run (mech_new toy_mech, []) toy_inputs in
  ∃ user ki, key_info st.1 = Some ki ∧
    users_of demo_users card_env !! authid ki = Some user.
Proof.
  intros st. destruct st as [f out] eqn:Est.
  destruct (mech_step toy_mech card_cb [9%N] (Some card_key) (f, out)) as [[st' r]| |] eqn:E;
    [|rewrite <- Est in E; by vm_compute in E..].
  assert (r = Ok (Finished true)) as ->.
  { rewrite <- Est in E. vm_compute in E. injection E as _ <-. reflexivity. }
  destruct (card_login_end_to_end toy_mech demo_users card_env f [9%N] (Some card_key) out st')
    as (user & ki & ai & data & d' & Hki & _ & Hu & _).
  - change f with (f, out).1. rewrite <- Est. apply card_run_reached, reached_new.
  - exact E.
  - exists user, ki. exact (conj Hki Hu).
Defined.

End Witnesses.
