(* ===== verification/Initiators.v ===== *)
(** * Initiators (bffhd/initiators/mod.rs, process.rs, dummy.rs) and their line
    buffer (bffhd/utils/linebuffer.rs)

    An initiator sets the status of a machine from outside: [Process] reads
    status messages line by line from a child process, [Dummy] flips a machine
    on a timer.  The child process, the JSON decoder and the timer are
    parameters; loops are driven by fuel. *)

From S2P Require Import Prelude Permissions Roles Db Users Machine Session Resources.

Definition nl : N := 10.

(** ** [LineBuffer] *)

(** [capacity] is the capacity of the [Vec]; [grow cap len n] the capacity
    [Vec::reserve(n)] leaves, and [junk n] the [n] bytes [set_len] uncovers. *)
Class VecAlloc := {
  grow : nat → nat → nat → nat;
  junk : nat → list N;
}.

Class VecAllocLaws `{VecAlloc} : Prop := {
  grow_enough cap len n : len + n ≤ grow cap len n ∧ cap ≤ grow cap len n;
  junk_length n : length (junk n) = n;
}.

Module LineBuffer.
Section LineBuffer.
Context `{VecAlloc}.

Record t := mk { buffer : list N; capacity : nat; valid : nat }.

Definition new : t := mk [] 0 0.

(** [set_len(capacity)] *)
Definition resize (self : t) : t :=
  mk (buffer self ++ junk (capacity self - length (buffer self))) (capacity self) (valid self).

(** A vector is at most [isize::MAX] bytes long. *)
Definition fits_vec (n : nat) : bool := (N.of_nat n <=? 2 ^ 63 - 1)%N.

(** [Vec::reserve], which panics when the capacity would overflow. *)
Definition reserve (self : t) (additional : nat) : outcome t :=
  if fits_vec (length (buffer self) + additional) then
    Done (mk (buffer self) (grow (capacity self) (length (buffer self)) additional) (valid self))
  else Panic.

(** [get_mut_write]: the buffer, and the length of the slice handed out. *)
Definition get_mut_write (self : t) (atleast : nat) : outcome (t * nat) :=
  if decide (valid self ≤ length (buffer self)) then
    let avail := length (buffer self) - valid self in
    let! self :=
      if decide (avail < atleast) then
        let! self := reserve self (atleast - avail) in Done (resize self)
      else Done self in
    Done (self, length (buffer self) - valid self)
  else Panic.

(** What a reader leaves in the slice handed out. *)
Definition write_slice (self : t) (data : list N) : t :=
  mk (take (valid self) (buffer self) ++ data ++ drop (valid self + length data) (buffer self))
     (capacity self) (valid self).

Definition advance_valid (self : t) (amount : nat) : t :=
  mk (buffer self) (capacity self) (valid self + amount).

Definition consume (self : t) (amount : nat) : outcome t :=
  if decide (amount ≤ valid self) then
    let moved := drop amount (take (valid self) (buffer self)) in
    let b :=
      if decide (amount < valid self) then moved ++ drop (length moved) (buffer self)
      else buffer self in
    Done (mk b (capacity self) (valid self - amount))
  else Panic.

(** [Deref] *)
Definition deref (self : t) : list N := take (valid self) (buffer self).

(** The buffer's invariant. *)
Definition wf (self : t) : Prop :=
  valid self ≤ length (buffer self) ≤ capacity self.

End LineBuffer.
End LineBuffer.

(** ** Callbacks *)

Section CallbackData.
Context `{Lmdb}.

Record InitiatorCallbacks := mkInitiatorCallbacks {
  ic_resource : Resource;
  ic_sessions : Session.SessionManager;
}.

End CallbackData.

Module InitiatorCallbacks.
Section InitiatorCallbacks.
Context `{Lmdb} `{Rkyv User} `{Rkyv State} `{Rkyv MachineState} `{AuditIo}.

Definition try_update (w : World) (self : InitiatorCallbacks) (session : Session.SessionHandle)
  (status : Status) : outcome World :=
  Resource.try_update w (ic_resource self) session status.

Definition set_status (w : World) (self : InitiatorCallbacks) (status : Status) : outcome World :=
  Resource.set_status w (ic_resource self) status.

Definition open_session (w : World) (self : InitiatorCallbacks) (uid : string)
  : outcome (option Session.SessionHandle) :=
  Session.try_open (ic_sessions self) w uid.

End InitiatorCallbacks.
End InitiatorCallbacks.

(** ** [Process] *)

Inductive InputMessage := SetState (status : Status).

Class InputJson := { parse_input : string → option InputMessage }.

(** Starting a child process with piped output. *)
Class Spawn := {
  SpawnError : Type;
  spawn_error_text : SpawnError → string;
  spawn_child : string → list string → result () SpawnError;
}.

(** [iter().position(|b| *b == b'\n')] *)
Fixpoint position_nl (l : list N) : option nat :=
  match l with
  | [] => None
  | b :: l' => if decide (b = nl) then Some 0 else S <$> position_nl l'
  end.

(** One answer of a non-blocking read. *)
Inductive poll_read := ReadPending | ReadOk (data : list N) | ReadErr.

(** [Child::try_status] *)
Inductive child_status := StatusErr | StatusExited | StatusRunning.

Inductive Poll := PollReady | PollPending.

Module Process.
Section Process.
Context `{Lmdb} `{Rkyv User} `{Rkyv State} `{Rkyv MachineState} `{AuditIo}.
Context `{VecAlloc} `{InputJson} `{Spawn}.
Implicit Types (w : World) (callbacks : InitiatorCallbacks).

Definition process_line w callbacks (line : list N) : outcome World :=
  match line with
  | [] => Done w
  | _ =>
      match from_utf8 line with
      | None => Done w
      | Some s =>
          if blank line then Done w
          else
            match parse_input s with
            | Some (SetState status) => InitiatorCallbacks.set_status w callbacks status
            | None => Done w
            end
      end
  end.

(** The loop of [try_process], with its [end]. *)
Fixpoint process_loop (fuel : nat) w callbacks (buffer : list N) (end_ : nat)
  : outcome (World * nat) :=
  match fuel with
  | O => OutOfFuel
  | S fuel =>
      match position_nl (drop end_ buffer) with
      | None => Done (w, end_)
      | Some O => process_loop fuel w callbacks buffer (end_ + 1)
      | Some idx =>
          let line := take idx (drop end_ buffer) in
          let! w' := process_line w callbacks line in
          process_loop fuel w' callbacks buffer idx
      end
  end.

Definition try_process (fuel : nat) w callbacks (buffer : list N) : outcome (World * nat) :=
  process_loop fuel w callbacks buffer 0.

(** The [loop] around [poll_read]: [input i] is the answer of the i-th read.
    [inr]: the loop ended on an error. *)
Fixpoint read_loop (fuel : nat) (buf : LineBuffer.t) (input : nat → poll_read) (i : nat)
  : outcome (LineBuffer.t + LineBuffer.t) :=
  match fuel with
  | O => OutOfFuel
  | S fuel =>
      let! (buf, avail) := LineBuffer.get_mut_write buf 512 in
      match input i with
      | ReadPending => Done (inl buf)
      | ReadOk data =>
          let data := take avail data in
          read_loop fuel (LineBuffer.advance_valid (LineBuffer.write_slice buf data) (length data))
            input (i + 1)
      | ReadErr => Done (inr buf)
      end
  end.

(** The loop over the lines "of stderr": it scans [buffer] and returns how much
    to consume. *)
Fixpoint stderr_loop (fuel : nat) (buffer : list N) (consumed : nat) : outcome nat :=
  match fuel with
  | O => OutOfFuel
  | S fuel =>
      match position_nl (drop consumed buffer) with
      | None => Done consumed
      | Some O => stderr_loop fuel buffer (consumed + 1)
      | Some idx => stderr_loop fuel buffer idx
      end
  end.

(** What is kept of the running child; the child itself, and its pipes, are the
    arguments [status], [stdout] and [stderr] of [poll]. *)
Record ProcessState := mkProcessState { stderr_closed : bool }.

Record t := mk {
  cmd : string;
  args : list string;
  state : option ProcessState;
  buffer : LineBuffer.t;
  err_buffer : LineBuffer.t;
  callbacks : InitiatorCallbacks;
}.

Definition set_buffers (self : t) (st : ProcessState) (b eb : LineBuffer.t) : t :=
  mk (cmd self) (args self) (Some st) b eb (callbacks self).

Definition poll (fuel : nat) w (self : t) (status : child_status)
  (stdout stderr : nat → poll_read) : outcome (World * t * Poll) :=
  match state self with
  | None => Done (w, self, PollReady)
  | Some st =>
      match status with
      | StatusErr | StatusExited => Done (w, self, PollReady)
      | StatusRunning =>
          let! r := read_loop fuel (buffer self) stdout 0 in
          match r with
          | inr b => Done (w, set_buffers self st b (err_buffer self), PollReady)
          | inl b =>
              let! (w, processed) := try_process fuel w (callbacks self) (LineBuffer.deref b) in
              let! b := LineBuffer.consume b processed in
              let! (eb, closed) :=
                (if stderr_closed st then Done (err_buffer self, true)
                 else
                   let! r := read_loop fuel (err_buffer self) stderr 0 in
                   Done (match r with inl eb => (eb, false) | inr eb => (eb, true) end)) in
              let! consumed := stderr_loop fuel (LineBuffer.deref b) 0 in
              let! eb := LineBuffer.consume eb consumed in
              Done (w, set_buffers self (mkProcessState closed) b eb, PollPending)
          end
      end
  end.

(** [spawn] *)
Definition spawn (self : t) : result t SpawnError :=
  match spawn_child (cmd self) (args self) with
  | Err e => Err e
  | Ok tt => Ok (mk (cmd self) (args self) (Some (mkProcessState false))
                    (buffer self) (err_buffer self) (callbacks self))
  end.

Definition new (params : gmap string string) (cb : InitiatorCallbacks) : result t string :=
  match params !! "cmd" with
  | None => Err "Process initiator requires a `cmd` parameter."
  | Some c =>
      let argv := match params !! "args" with
                  | Some a => split_whitespace a
                  | None => []
                  end in
      match spawn (mk c argv None LineBuffer.new LineBuffer.new cb) with
      | Ok this => Ok this
      | Err e => Err (spawn_error_text e)
      end
  end.

End Process.
End Process.

(** ** [Dummy] *)

(** [Updating status]: the future made by [flip] for that status. *)
Inductive DummyState := Empty | Sleeping (next : option Status) | Updating (status : Status).

Module Dummy.
Section Dummy.
Context `{Lmdb} `{Rkyv User} `{Rkyv State} `{Rkyv MachineState} `{AuditIo}.

Record t := mk {
  callbacks : InitiatorCallbacks;
  session : Session.SessionHandle;
  st : DummyState;
}.

(** [flip]: ask for [status], and say what comes next. *)
Definition flip (w : World) (self : t) (status : Status) : outcome (World * Status) :=
  let next := match status with
              | Free => InUse (Session.get_user_ref (session self))
              | InUse _ => Free
              | _ => Free
              end in
  let! w' := InitiatorCallbacks.try_update w (callbacks self) (session self) status in
  Done (w', next).

Definition set_st (self : t) (s : DummyState) : t := mk (callbacks self) (session self) s.

(** [poll]: [fired] says whether the current timer has fired; a timer made
    during the poll has not. *)
Fixpoint poll (fuel : nat) (w : World) (self : t) (fired : bool) : outcome (World * t) :=
  match fuel with
  | O => OutOfFuel
  | S fuel =>
      match st self with
      | Empty => poll fuel w (set_st self (Sleeping (Some Free))) false
      | Sleeping next =>
          if fired then
            let! status := unwrap next in
            poll fuel w (set_st self (Updating status)) fired
          else Done (w, self)
      | Updating status =>
          let! (w', next) := flip w self status in
          poll fuel w' (set_st self (Sleeping (Some next))) false
      end
  end.

Definition new (w : World) (params : gmap string string) (cb : InitiatorCallbacks)
  : outcome (result t string) :=
  match params !! "uid" with
  | None => Done (Err "Dummy initiator configured without an UID")
  | Some uid =>
      let! o := InitiatorCallbacks.open_session w cb uid in
      Done (match o with
            | Some session => Ok (mk cb session Empty)
            | None => Err "The configured user for the dummy initiator does not exist"
            end)
  end.

End Dummy.
End Dummy.

(** ** Loading *)

(** The two initiator modules behind [Box<dyn Initiator>], and the driver. *)
Section Drivers.
Context `{Lmdb}.

Inductive Initiator :=
| InitDummy (d : Dummy.t)
| InitProcess (p : Process.t).

Record InitiatorDriver := mkInitiatorDriver { drv_name : string; drv_initiator : Initiator }.

End Drivers.

Module InitiatorLoad.
Section InitiatorLoad.
Context `{Lmdb} `{Rkyv User} `{Rkyv State} `{Rkyv MachineState} `{AuditIo}.
Context `{VecAlloc} `{InputJson} `{Spawn}.
Implicit Types (w : World) (sessions : Session.SessionManager).

(** [load_single] with [InitiatorDriver::new] for either module; what goes
    wrong is logged and there is no driver. *)
Definition load_single w sessions (name module_name : string) (params : gmap string string)
  (resource : Resource) : outcome (option InitiatorDriver) :=
  let callbacks := mkInitiatorCallbacks resource sessions in
  if decide (module_name = "Dummy") then
    let! r := Dummy.new w params callbacks in
    Done (match r with
          | Ok d => Some (mkInitiatorDriver name (InitDummy d))
          | Err _ => None
          end)
  else if decide (module_name = "Process") then
    Done (match Process.new params callbacks with
          | Ok p => Some (mkInitiatorDriver name (InitProcess p))
          | Err _ => None
          end)
  else Done None.

(** [load]: [config.init_connections] is a list, [config.initiators] a map;
    the drivers handed to the executor. *)
Definition load w sessions (resources : Search.ResourcesHandle)
  (connections : list (string * string)) (initiators : gmap string ModuleConfig)
  : outcome (list InitiatorDriver) :=
  load_modules (λ name cfg resource,
      load_single w sessions name (mod_name cfg) (mod_params cfg) resource)
    (connect (Search.get_by_id resources) connections) (map_to_list initiators).

(** [poll] of a driver: the module's own poll. A driver is over when its module is,
    which a [Dummy] never is. [fired] is what its timer would answer, [status],
    [stdout] and [stderr] what its child would. *)
Definition driver_poll (fuel : nat) w (self : InitiatorDriver) (fired : bool)
  (status : child_status) (stdout stderr : nat → poll_read)
  : outcome (World * InitiatorDriver * Poll) :=
  match drv_initiator self with
  | InitDummy d =>
      let! (w', d') := Dummy.poll fuel w d fired in
      Done (w', mkInitiatorDriver (drv_name self) (InitDummy d'), PollPending)
  | InitProcess p =>
      let! (w', p', r) := Process.poll fuel w p status stdout stderr in
      Done (w', mkInitiatorDriver (drv_name self) (InitProcess p'), r)
  end.

End InitiatorLoad.
End InitiatorLoad.

(** ** Lemmas *)

Section LineBufferLemmas.
Context `{VecAllocLaws}.
Implicit Types (b : LineBuffer.t).

(** There is room for [n] more bytes, or they would overflow the vector. *)
Lemma get_mut_write_cases b n :
  LineBuffer.wf b →
  (∃ b' avail, LineBuffer.get_mut_write b n = Done (b', avail) ∧ n ≤ avail ∧
    avail = length (LineBuffer.buffer b') - LineBuffer.valid b' ∧
    LineBuffer.wf b' ∧ LineBuffer.deref b' = LineBuffer.deref b ∧
    LineBuffer.valid b' = LineBuffer.valid b) ∧
    (length (LineBuffer.buffer b) - LineBuffer.valid b < n →
     LineBuffer.fits_vec (LineBuffer.valid b + n) = true) ∨
  LineBuffer.get_mut_write b n = Panic ∧ LineBuffer.fits_vec (LineBuffer.valid b + n) = false ∧
    length (LineBuffer.buffer b) - LineBuffer.valid b < n.
Proof.
  intros [Hv Hc]. unfold LineBuffer.get_mut_write, LineBuffer.reserve. rewrite decide_True by done.
  case_decide as Ha.
  - replace (length (LineBuffer.buffer b) + (n - (length (LineBuffer.buffer b) - LineBuffer.valid b)))
      with (LineBuffer.valid b + n) by lia.
    destruct (LineBuffer.fits_vec (LineBuffer.valid b + n)); [left|by right].
    split; [|done]. eexists _, _. split; [done|]. simpl. set (g := grow _ _ _).
    destruct (grow_enough (LineBuffer.capacity b) (length (LineBuffer.buffer b))
      (n - (length (LineBuffer.buffer b) - LineBuffer.valid b))) as [Hg1 Hg2]. fold g in Hg1, Hg2.
    rewrite length_app, junk_length. split_and!; [lia|done| | |done].
    + split; simpl; rewrite length_app, junk_length; lia.
    + unfold LineBuffer.deref. simpl. by rewrite take_app_le.
  - left. split; [|done]. eexists _, _. split; [done|]. split_and!; [lia|done|by split|done|done].
Qed.

Lemma get_mut_write_spec b n :
  LineBuffer.wf b → LineBuffer.fits_vec (LineBuffer.valid b + n) = true →
  ∃ b' avail, LineBuffer.get_mut_write b n = Done (b', avail) ∧ n ≤ avail ∧
    avail = length (LineBuffer.buffer b') - LineBuffer.valid b' ∧
    LineBuffer.wf b' ∧ LineBuffer.deref b' = LineBuffer.deref b ∧
    LineBuffer.valid b' = LineBuffer.valid b.
Proof. intros Hwf Hf. destruct (get_mut_write_cases b n Hwf) as [[? _]|(_ & ? & _)]; [done|congruence]. Qed.

Lemma write_advance_spec b data :
  LineBuffer.wf b → length data ≤ length (LineBuffer.buffer b) - LineBuffer.valid b →
  let b' := LineBuffer.advance_valid (LineBuffer.write_slice b data) (length data) in
  LineBuffer.wf b' ∧ LineBuffer.deref b' = LineBuffer.deref b ++ data.
Proof.
  intros [Hv Hc] Hd. unfold LineBuffer.wf, LineBuffer.deref. simpl.
  assert (length (take (LineBuffer.valid b) (LineBuffer.buffer b)) = LineBuffer.valid b) as Hlt
    by (rewrite length_take; lia).
  rewrite !length_app, Hlt, length_drop. split; [lia|].
  rewrite app_assoc, take_app_le by (rewrite length_app; lia).
  apply take_ge. rewrite length_app. lia.
Qed.

Lemma consume_spec b amount :
  LineBuffer.wf b → amount ≤ length (LineBuffer.deref b) →
  ∃ b', LineBuffer.consume b amount = Done b' ∧ LineBuffer.wf b' ∧
    LineBuffer.deref b' = drop amount (LineBuffer.deref b).
Proof.
  intros [Hv Hc]. unfold LineBuffer.deref, LineBuffer.consume. rewrite length_take. intros Ha.
  rewrite decide_True by lia. eexists. split; [done|]. unfold LineBuffer.wf. simpl.
  set (moved := drop amount (take (LineBuffer.valid b) (LineBuffer.buffer b))).
  assert (length moved = LineBuffer.valid b - amount) as Hm.
  { subst moved. rewrite length_drop, length_take. lia. }
  case_decide as Hlt.
  - rewrite length_app, length_drop, Hm. split; [lia|].
    rewrite take_app_le by lia. apply take_ge. lia.
  - assert (LineBuffer.valid b - amount = 0) as -> by lia. split; [lia|].
    symmetry. apply length_zero_iff_nil. lia.
Qed.

End LineBufferLemmas.

Section PositionLemmas.

Definition no_nl (l : list N) : Prop := nl ∉ l.

Lemma position_nl_None l : position_nl l = None ↔ no_nl l.
Proof.
  unfold no_nl. induction l as [|b l IH]; simpl; [split; [intros _; apply not_elem_of_nil|done]|].
  case_decide as Hb.
  - split; [done|]. intros Hn. exfalso. apply Hn. subst. left.
  - rewrite fmap_None, IH, not_elem_of_cons. naive_solver.
Qed.

Lemma position_nl_app l k : no_nl l → position_nl (l ++ nl :: k) = Some (length l).
Proof.
  unfold no_nl. induction l as [|b l IH]; intros Hn; simpl; [done|].
  apply not_elem_of_cons in Hn as [Hb Hn]. rewrite decide_False by congruence. by rewrite IH.
Qed.

(** A newline ahead is found, no later than there, and exactly at a newline. *)
Lemma position_nl_Some l i :
  l !! i = Some nl → ∃ j, position_nl l = Some j ∧ j ≤ i ∧ (l !! 0 ≠ Some nl → 0 < j) ∧ (l !! 0 = Some nl → j = 0).
Proof.
  revert i. induction l as [|b l IH]; intros i Hi; [done|]. simpl.
  case_decide as Hb; [exists 0; split_and!; [done|lia|by subst|done]|].
  destruct i as [|i]; simpl in Hi; [by inv_eqs|].
  destruct (IH i Hi) as (j & -> & Hj & _). exists (S j). simpl.
  split_and!; [done|lia|lia|]. intros ?. by inv_eqs.
Qed.

End PositionLemmas.

Section ProcessLemmas.
Context `{LmdbLaws} `{!LmdbHealthy} `{HU : Rkyv User} `{!RkyvLaws User}.
Context `{HS : Rkyv State} `{HM : Rkyv MachineState} `{!RkyvMachine}.
Context `{AuditIoLaws} `{!AuditIoHealthy} `{VecAllocLaws} `{InputJson}.
Implicit Types (w : World) (cb : InitiatorCallbacks).

(** The status a line asks for. *)
Definition line_status (line : list N) : option Status :=
  s ← from_utf8 line;
  if blank line then None else (λ m, match m with SetState st => st end) <$> parse_input s.

Lemma process_line_spec w cb line :
  coherent w (ic_resource cb) →
  ∃ w', Process.process_line w cb line = Done w' ∧ coherent w' (ic_resource cb) ∧
    match line_status line with
    | Some st => ∀ old, machine_of w (ic_resource cb) = Some old →
        updated w (ic_resource cb) (mkMachineState st (previous old)) w'
    | None => w' = w
    end.
Proof.
  intros Hc. unfold Process.process_line, line_status. destruct line as [|b l]; [by exists w|].
  destruct (from_utf8 (b :: l)) as [s|]; simpl; [|by exists w].
  destruct (if in_range 9 13 b || (b =? 32)%N then _ else _); [by exists w|].
  destruct (parse_input s) as [[st]|]; simpl; [|by exists w].
  destruct (coherent_machine w _ Hc) as [old Hold].
  destruct (set_status_spec w (ic_resource cb) old st Hc Hold) as (w' & Hs & Hu).
  exists w'. split; [done|]. split; [apply Hu|]. intros old' Hold'. by simplify_eq.
Qed.

Lemma process_loop_newlines w cb (pre rest : list N) n fuel :
  no_nl rest → n < fuel →
  Process.process_loop fuel w cb (pre ++ replicate n nl ++ rest) (length pre) =
    Done (w, length pre + n).
Proof.
  intros Hr. revert pre fuel. induction n as [|n IH]; intros pre fuel Hf;
    (destruct fuel as [|fuel]; [lia|]); cbn [Process.process_loop]; rewrite drop_app_length; simpl.
  - rewrite (proj2 (position_nl_None rest)) by done. by rewrite Nat.add_0_r.
  - specialize (IH (pre ++ [nl]) fuel). rewrite length_app, <- app_assoc in IH. simpl in IH.
    rewrite IH by lia. do 2 f_equal. lia.
Qed.

(** The loop never leaves the text before a newline at [q] that ends a line
    starting after some other newline. *)
Lemma process_loop_stuck fuel w cb buf e q f :
  coherent w (ic_resource cb) →
  buf !! q = Some nl → 0 < q → buf !! (q - 1) ≠ Some nl →
  buf !! f = Some nl → f < q → e < q →
  Process.process_loop fuel w cb buf e = OutOfFuel.
Proof.
  intros Hc Hq Hq0 Hq1 Hf Hfq. revert w e Hc.
  induction fuel as [|fuel IH]; intros w e Hc He; [done|].
  cbn [Process.process_loop].
  destruct (position_nl_Some (drop e buf) (q - e)) as (j & Hj & Hle & Hpos & Hzero).
  { rewrite lookup_drop. by replace (e + (q - e)) with q by lia. }
  rewrite Hj. rewrite lookup_drop, Nat.add_0_r in Hpos, Hzero. destruct j as [|j].
  - apply IH; [done|]. destruct (decide (e + 1 = q)) as [Heq|]; [|lia]. exfalso.
    replace (q - 1) with e in Hq1 by lia. destruct (decide (buf !! e = Some nl)) as [?|Hn]; [done|].
    specialize (Hpos Hn). lia.
  - destruct (process_line_spec w cb (take (S j) (drop e buf)) Hc) as (w' & -> & Hc' & _).
    apply IH; [done|]. destruct (decide (e = 0)) as [->|]; [|lia].
    destruct (position_nl_Some (drop 0 buf) f) as (j' & Hj' & Hle' & _); [by rewrite lookup_drop|].
    simplify_eq. lia.
Qed.

Lemma process_loop_final fuel w cb buf e w' e' :
  Process.process_loop fuel w cb buf e = Done (w', e') → no_nl (drop e' buf).
Proof.
  revert w e. induction fuel as [|fuel IH]; intros w e; [done|]. cbn [Process.process_loop].
  destruct (position_nl (drop e buf)) as [[|j]|] eqn:Hp; [apply IH| |].
  - intros (w1 & _ & Hd)%outcome_bind_Done. by eapply IH.
  - intros; inv_eqs. by apply position_nl_None.
Qed.

Lemma read_loop_appends fuel b input i r :
  LineBuffer.wf b → Process.read_loop fuel b input i = Done r →
  let b' := match r with inl b' | inr b' => b' end in
  LineBuffer.wf b' ∧ LineBuffer.deref b `prefix_of` LineBuffer.deref b'.
Proof.
  revert b i. induction fuel as [|fuel IH]; intros b i Hwf; [done|]. cbn [Process.read_loop].
  destruct (get_mut_write_cases b 512 Hwf) as [[(b1 & avail & -> & _ & -> & Hwf1 & Hd1 & _) _]|[-> _]]; [|done].
  cbn [outcome_bind]. rewrite <- Hd1. destruct (input i) as [|data|]; [intros; by inv_eqs| |intros; by inv_eqs].
  intros Hl. set (d := take _ data) in Hl.
  destruct (write_advance_spec b1 d Hwf1) as [Hwf2 Hd2]; [subst d; rewrite length_take; lia|].
  destruct (IH _ _ Hwf2 Hl) as [? Hpre]. split; [done|]. etrans; [|exact Hpre].
  rewrite Hd2. by apply prefix_app_r.
Qed.

End ProcessLemmas.

Section LoadLemmas.
Context `{LmdbLaws} `{!LmdbHealthy} `{HU : Rkyv User} `{!RkyvLaws User}.
Context `{HS : Rkyv State} `{HM : Rkyv MachineState}.
Context `{AuditIo} `{VecAlloc} `{InputJson} `{Spawn}.
Implicit Types (w : World) (sessions : Session.SessionManager).

(** The driver a configured initiator gets on a machine. *)
Inductive driver_for w sessions (name : string) (cfg : ModuleConfig) (r : Resource)
  : InitiatorDriver → Prop :=
| DriverDummy uid u :
    mod_name cfg = "Dummy" → mod_params cfg !! "uid" = Some uid →
    users_in (Users.userdb (Session.m_users sessions)) (env_contents (env w)) !! uid = Some u →
    driver_for w sessions name cfg r (mkInitiatorDriver name (InitDummy
      (Dummy.mk (mkInitiatorCallbacks r sessions) (Session.open sessions u) Empty)))
| DriverProcess c :
    mod_name cfg = "Process" → mod_params cfg !! "cmd" = Some c →
    spawn_child c (from_option split_whitespace [] (mod_params cfg !! "args")) = Ok () →
    driver_for w sessions name cfg r (mkInitiatorDriver name (InitProcess
      (Process.mk c (from_option split_whitespace [] (mod_params cfg !! "args"))
         (Some (Process.mkProcessState false)) LineBuffer.new LineBuffer.new
         (mkInitiatorCallbacks r sessions)))).

(** A dummy's user name is one the database takes. *)
Definition dummy_uid_ok (cfg : ModuleConfig) : Prop :=
  mod_name cfg = "Dummy" → ∀ uid, mod_params cfg !! "uid" = Some uid → valid_key uid.

Lemma load_single_spec w sessions name cfg r :
  dummy_uid_ok cfg →
  ∃ o, InitiatorLoad.load_single w sessions name (mod_name cfg) (mod_params cfg) r = Done o ∧
    ∀ d, o = Some d ↔ driver_for w sessions name cfg r d.
Proof.
  intros Huid. unfold InitiatorLoad.load_single. case_decide as Hd; [|case_decide as Hp].
  - unfold Dummy.new. destruct (mod_params cfg !! "uid") as [uid|] eqn:Hu; simpl.
    + unfold InitiatorCallbacks.open_session, Session.try_open. simpl.
      rewrite get_user_spec by auto. simpl.
      destruct (users_in _ _ !! uid) as [u|] eqn:Hin; simpl; eexists; (split; [reflexivity|]);
        intros d; (split; [intros; simplify_eq; by econstructor|]);
        inversion 1; simplify_eq; congruence.
    + eexists; (split; [reflexivity|]). intros d. split; [done|]. inversion 1; congruence.
  - unfold Process.new. destruct (mod_params cfg !! "cmd") as [c|] eqn:Hc; simpl.
    + unfold Process.spawn. simpl.
      change (match mod_params cfg !! "args" with Some a => split_whitespace a | None => [] end)
        with (from_option split_whitespace [] (mod_params cfg !! "args")).
      destruct (spawn_child _ _) as [[]|e] eqn:Hs; simpl; eexists; (split; [reflexivity|]);
        intros d; (split; [intros; simplify_eq; by econstructor|]);
        inversion 1; simplify_eq; congruence.
    + eexists; (split; [reflexivity|]). intros d. split; [done|]. inversion 1; congruence.
  - eexists; (split; [reflexivity|]). intros d. split; [done|]. inversion 1; congruence.
Qed.

End LoadLemmas.

(** ** Properties *)

(** C37: a line buffer is a queue of bytes: it hands out room for as many bytes as
    asked for without losing what is in it, unless that needs a vector longer than
    [isize::MAX], and then it panics; what is read into that room is appended, and
    consuming drops from the front; the lengths stay consistent throughout. *)
Theorem linebuffer_queue `{VecAllocLaws} b n :
  LineBuffer.wf b →
  (LineBuffer.get_mut_write b n = Panic ↔
     length (LineBuffer.buffer b) < LineBuffer.valid b + n ∧
     LineBuffer.fits_vec (LineBuffer.valid b + n) = false) ∧
  (LineBuffer.get_mut_write b n ≠ Panic →
   ∃ b1 avail, LineBuffer.get_mut_write b n = Done (b1, avail) ∧ n ≤ avail ∧
    LineBuffer.wf b1 ∧ LineBuffer.deref b1 = LineBuffer.deref b ∧
    ∀ data, length data ≤ avail →
      let b2 := LineBuffer.advance_valid (LineBuffer.write_slice b1 data) (length data) in
      LineBuffer.wf b2 ∧ LineBuffer.deref b2 = LineBuffer.deref b ++ data ∧
      ∀ k, k ≤ length (LineBuffer.deref b ++ data) →
        ∃ b3, LineBuffer.consume b2 k = Done b3 ∧ LineBuffer.wf b3 ∧
          LineBuffer.deref b3 = drop k (LineBuffer.deref b ++ data)).
Proof.
  intros Hwf. pose proof Hwf as [Hv _].
  destruct (get_mut_write_cases b n Hwf) as [[(b1 & avail & Hg & Hn & Hav & Hwf1 & Hd1 & _) Hroom]|(Hp & Hf & Hn)].
  2: { split; [|by intros []]. split; [intros _; split; [lia|done]|done]. }
  split.
  { rewrite Hg. split; [done|]. intros [Hl Hf]. rewrite Hroom in Hf by lia. done. }
  intros _. exists b1, avail. split_and!; [done..|]. intros data Hlen b2.
  destruct (write_advance_spec b1 data Hwf1) as [Hwf2 Hd2]; [lia|].
  rewrite <- Hd1, <- Hd2. split_and!; [done..|]. intros k Hk. by apply consume_spec.
Qed.

Section Properties.
Context `{LmdbLaws} `{!LmdbHealthy} `{HU : Rkyv User} `{!RkyvLaws User}.
Context `{HS : Rkyv State} `{HM : Rkyv MachineState} `{!RkyvMachine}.
Context `{AuditIoLaws} `{!AuditIoHealthy} `{VecAllocLaws} `{InputJson} `{Spawn}.
Implicit Types (w : World) (cb : InitiatorCallbacks).

(** when what was read is one line at the start, with its newlines
    and an incomplete rest, the line is processed once, its status is set if
    it is a valid message, and exactly the line and its newlines are consumed:
    the rest waits. *)
Theorem try_process_one_line w cb line n rest fuel :
  coherent w (ic_resource cb) →
  no_nl line → line ≠ [] → no_nl rest → n + 3 ≤ fuel →
  ∃ w', Process.try_process fuel w cb (line ++ replicate (S n) nl ++ rest) =
          Done (w', length line + S n) ∧
    match line_status line with
    | Some st => ∀ old, machine_of w (ic_resource cb) = Some old →
        updated w (ic_resource cb) (mkMachineState st (previous old)) w'
    | None => w' = w
    end.
Proof.
  intros Hc Hline Hne Hrest Hf. destruct fuel as [|fuel]; [lia|].
  unfold Process.try_process. cbn [Process.process_loop]. rewrite drop_0.
  change (replicate (S n) nl ++ rest) with (nl :: (replicate n nl ++ rest)).
  rewrite position_nl_app by done. destruct (length line) as [|k] eqn:Hlen.
  { by apply length_zero_iff_nil in Hlen. }
  rewrite <- Hlen, take_app_length.
  destruct (process_line_spec w cb line Hc) as (w' & -> & _ & Hst). simpl.
  exists w'. split; [|done].
  apply (process_loop_newlines w' cb line rest (S n)); [done|lia].
Qed.

(** [end = idx] forgets where the line started: as soon as the
    buffer has a complete non-empty line after another newline, processing
    never returns. *)
Theorem try_process_second_line_diverges w cb buf f q fuel :
  coherent w (ic_resource cb) →
  buf !! f = Some nl → f < q → buf !! (q - 1) ≠ Some nl → buf !! q = Some nl →
  Process.try_process fuel w cb buf = OutOfFuel.
Proof.
  intros Hc Hf Hfq Hq1 Hq. eapply process_loop_stuck; [done|exact Hq|lia|done|exact Hf|done|lia].
Qed.

(** A driver is over only when its module is a [Process] with no child, whose child
    has exited or whose stdout cannot be read. *)
Theorem driver_over fuel (w w' : World) self self' fired status stdout stderr :
  InitiatorLoad.driver_poll fuel w self fired status stdout stderr = Done (w', self', PollReady) →
  drv_name self' = drv_name self ∧
  ∃ p, drv_initiator self = InitProcess p ∧
    (Process.state p = None ∨ status ≠ StatusRunning ∨
     ∃ b, Process.read_loop fuel (Process.buffer p) stdout 0 = Done (inr b)).
Proof.
  unfold InitiatorLoad.driver_poll. destruct (drv_initiator self) as [d|p].
  { intros ([??] & _ & E)%outcome_bind_Done. by inv_eqs. }
  intros ([[w1 p1] r] & Hpoll & E)%outcome_bind_Done. inv_eqs. split; [done|]. exists p.
  split; [done|]. unfold Process.poll in Hpoll.
  destruct (Process.state p) as [pst|]; [right|by left].
  destruct status; [by left|by left|]. right.
  apply outcome_bind_Done in Hpoll as ([b|b] & Hr & Hpoll); [|by exists b].
  apply outcome_bind_Done in Hpoll as ([w2 n] & _ & Hpoll).
  apply outcome_bind_Done in Hpoll as (b1 & _ & Hpoll).
  apply outcome_bind_Done in Hpoll as ([eb c] & _ & Hpoll).
  apply outcome_bind_Done in Hpoll as (k & _ & Hpoll).
  apply outcome_bind_Done in Hpoll as (eb' & _ & Hpoll). by inv_eqs.
Qed.

(** a closed stdout reads as zero bytes for ever, and the read
    loop then never ends. *)
Theorem read_loop_eof_diverges (b : LineBuffer.t) input i fuel :
  LineBuffer.wf b → LineBuffer.fits_vec (LineBuffer.valid b + 512) = true →
  (∀ j, i ≤ j → input j = ReadOk []) →
  Process.read_loop fuel b input i = OutOfFuel.
Proof.
  intros Hwf Hf Hin. revert b i Hwf Hf Hin. induction fuel as [|fuel IH]; intros b i Hwf Hf Hin; [done|].
  cbn [Process.read_loop].
  destruct (get_mut_write_spec b 512 Hwf Hf) as (b1 & avail & -> & _ & -> & Hwf1 & _ & Hv1).
  cbn [outcome_bind]. rewrite Hin by done. rewrite take_nil. apply IH; [| |intros; apply Hin; lia].
  - apply (write_advance_spec b1 []); [done|simpl; lia].
  - cbn [LineBuffer.valid LineBuffer.advance_valid LineBuffer.write_slice length]. by rewrite Hv1, Nat.add_0_r.
Qed.

(** the stderr lines are looked for in the stdout buffer, in
    which no newline is left, so a poll never consumes anything of what was
    read from stderr. *)
Theorem stderr_never_consumed fuel w self status stdout stderr w' self' p :
  LineBuffer.wf (Process.buffer self) → LineBuffer.wf (Process.err_buffer self) →
  Process.poll fuel w self status stdout stderr = Done (w', self', p) →
  LineBuffer.deref (Process.err_buffer self) `prefix_of` LineBuffer.deref (Process.err_buffer self').
Proof.
  intros Hb Heb. unfold Process.poll. destruct (Process.state self) as [pst|]; [|intros; by inv_eqs].
  destruct status; [intros; by inv_eqs..|].
  intros (r & Hr & Hpoll)%outcome_bind_Done.
  destruct (read_loop_appends _ _ _ _ _ Hb Hr) as [Hwf _].
  destruct r as [b|b]; [|by inv_eqs]. simpl in Hwf.
  apply outcome_bind_Done in Hpoll as ([w1 processed] & Hp & Hpoll).
  pose proof (process_loop_final _ _ _ _ _ _ _ Hp) as Hno.
  apply outcome_bind_Done in Hpoll as (b1 & Hcons & Hpoll).
  assert (LineBuffer.deref b1 = drop processed (LineBuffer.deref b)) as Hd1.
  { destruct (decide (processed ≤ length (LineBuffer.deref b))) as [Hle|Hgt].
    - destruct (consume_spec b processed Hwf Hle) as (b1' & Hc' & _ & Hd'). congruence.
    - unfold LineBuffer.consume in Hcons. case_decide as Hv; [|done].
      exfalso. apply Hgt. unfold LineBuffer.deref. rewrite length_take. destruct Hwf. lia. }
  apply outcome_bind_Done in Hpoll as ([eb closed] & Heb' & Hpoll).
  assert (LineBuffer.wf eb ∧ LineBuffer.deref (Process.err_buffer self) `prefix_of` LineBuffer.deref eb)
    as [Hwfe Hpre].
  { destruct (Process.stderr_closed pst); [by inv_eqs|].
    apply outcome_bind_Done in Heb' as (re & Hre & Heq).
    pose proof (read_loop_appends _ _ _ _ _ Heb Hre) as Happ. destruct re; by inv_eqs. }
  apply outcome_bind_Done in Hpoll as (consumed & Hst & Hpoll).
  assert (consumed = 0) as ->.
  { destruct fuel; [done|]. simpl in Hst. rewrite drop_0, Hd1 in Hst.
    by rewrite (proj2 (position_nl_None _) Hno) in Hst; inv_eqs. }
  apply outcome_bind_Done in Hpoll as (eb' & Hce & Hpoll). inv_eqs. simpl.
  destruct (consume_spec eb 0 Hwfe) as (e2 & He2 & _ & Hde); [lia|].
  rewrite He2 in Hce. inv_eqs. by rewrite Hde, drop_0.
Qed.

(** loading returns and starts a driver for exactly the configured
    initiators that are connected to an existing machine (the last such
    connection counts) and whose module can be set up: a [Dummy] whose user
    exists, a [Process] whose command starts. *)
Theorem load_starts_connected_initiators w sessions h connections initiators :
  map_Forall (λ _ cfg, dummy_uid_ok cfg) initiators →
  ∃ ds, InitiatorLoad.load w sessions h connections initiators = Done ds ∧
    ∀ d, d ∈ ds ↔ ∃ name cfg r, initiators !! name = Some cfg ∧ connected (Search.get_by_id h) connections name r ∧
      driver_for w sessions name cfg r d.
Proof.
  intros Hok. unfold InitiatorLoad.load.
  destruct (load_modules_spec (λ name cfg resource,
      InitiatorLoad.load_single w sessions name (mod_name cfg) (mod_params cfg) resource)
    (driver_for w sessions) (connect (Search.get_by_id h) connections) (map_to_list initiators))
    as (ds & -> & Hds).
  - apply NoDup_fst_map_to_list.
  - intros name cfg r Hin%elem_of_map_to_list. apply load_single_spec. by apply (Hok name).
  - exists ds. split; [done|]. intros d. rewrite Hds.
    setoid_rewrite elem_of_map_to_list. by setoid_rewrite connect_spec.
Qed.

End Properties.

(** ** Witnesses *)

Section Witnesses.

#[local] Instance exact_alloc : VecAlloc := {|
  grow cap len n := Nat.max cap (len + n);
  junk n := replicate n 0%N;
|}.
#[local] Instance exact_alloc_laws : VecAllocLaws.
Proof. split; simpl; [intros; lia|intros; apply length_replicate]. Qed.

(** A decoder that knows one message. *)
#[local] Instance toy_input : InputJson := {|
  parse_input s := if decide (s = "free") then Some (SetState Free) else None;
|}.

Definition lathe_callbacks : InitiatorCallbacks :=
  mkInitiatorCallbacks lathe (Session.mkSessionManager demo_users demo_roles).

Lemma linebuffer_queue_witness :
  ∃ b1 avail, LineBuffer.get_mut_write LineBuffer.new 512 = Done (b1, avail) ∧ 512 ≤ avail.
Proof.
  destruct (linebuffer_queue LineBuffer.new 512) as [Hp Hd]; [split; simpl; lia|].
  destruct Hd as (b1 & avail & Hg & Hn & _); [|exists b1, avail; exact (conj Hg Hn)].
  rewrite Hp. intros [_ [=]].
Defined.

Lemma try_process_one_line_witness :
  ∃ w', Process.try_process 5 (shop (MState.used bob None)) lathe_callbacks
          (bytes_of_string "free" ++ replicate 1 nl ++ bytes_of_string "fr") = Done (w', 5) ∧
    machine_of w' lathe = Some (mkMachineState Free None).
Proof.
  destruct (try_process_one_line (shop (MState.used bob None)) lathe_callbacks
    (bytes_of_string "free") 0 (bytes_of_string "fr") 5) as (w' & Hp & Hst).
  - apply shop_coherent.
  - vm_compute. intros ?. set_solver.
  - done.
  - vm_compute. intros ?. set_solver.
  - lia.
  - exists w'. split; [exact Hp|].
    apply (upd_state _ _ _ _ (Hst (MState.used bob None) (shop_machine _))).
Defined.

Lemma try_process_second_line_diverges_witness :
  Process.try_process 1000 (shop MState.new) lathe_callbacks
    (bytes_of_string "a" ++ [nl] ++ bytes_of_string "b" ++ [nl]) = OutOfFuel.
Proof.
  apply (try_process_second_line_diverges _ _ _ 1 3);
    [apply shop_coherent|reflexivity|lia|done|reflexivity].
Defined.

Lemma read_loop_eof_diverges_witness :
  Process.read_loop 1000 LineBuffer.new (λ _, ReadOk []) 0 = OutOfFuel.
Proof. apply read_loop_eof_diverges; [split; simpl; lia|reflexivity|reflexivity]. Defined.

#[local] Instance toy_spawn : Spawn := {|
  SpawnError := ();
  spawn_error_text _ := "cannot start";
  spawn_child c _ := if decide (c = "/bin/door") then Ok () else Err ();
|}.

Definition toy_process : Process.t :=
  Process.mk "/bin/door" [] (Some (Process.mkProcessState false)) LineBuffer.new LineBuffer.new
    lathe_callbacks.
Definition toy_stderr (i : nat) : poll_read :=
  match i with 0 => ReadOk (bytes_of_string "oops" ++ [nl]) | _ => ReadPending end.

Lemma stderr_never_consumed_witness :
  ∃ self', Process.poll 9 (shop MState.new) toy_process StatusRunning
             (λ _, ReadPending) toy_stderr = Done (shop MState.new, self', PollPending) ∧
    LineBuffer.deref (Process.err_buffer toy_process) `prefix_of`
      LineBuffer.deref (Process.err_buffer self').
Proof.
  assert (∀ w, ∃ self', Process.poll 9 w toy_process StatusRunning
    (λ _, ReadPending) toy_stderr = Done (w, self', PollPending)) as Hpoll.
  { intros w. unfold Process.poll. cbn [Process.state toy_process].
    destruct (get_mut_write_spec LineBuffer.new 512) as (b1 & av & Hg & Hav & Hav' & Hwf1 & Hd1 & Hv1);
      [split; simpl; lia|done|].
    assert (∀ i, Process.read_loop 9 LineBuffer.new (λ _, ReadPending) i = Done (inl b1)) as Hout.
    { intros i. cbn [Process.read_loop]. by rewrite Hg. }
    assert (∃ e, Process.read_loop 9 LineBuffer.new toy_stderr 0 = Done (inl e) ∧ LineBuffer.wf e)
      as (e & Herr & Hwfe).
    { cbn [Process.read_loop]. rewrite Hg. cbn [outcome_bind toy_stderr].
      set (d := take av _).
      destruct (write_advance_spec b1 d Hwf1) as [Hw _]; [subst d; rewrite length_take; lia|].
      destruct (get_mut_write_spec _ 512 Hw) as (b2 & av2 & Hg2 & _ & _ & Hwf2 & _).
      { cbn [LineBuffer.valid LineBuffer.advance_valid LineBuffer.write_slice]. rewrite Hv1.
        subst d. rewrite length_take. cbn [LineBuffer.valid LineBuffer.new bytes_of_string length app].
        unfold LineBuffer.fits_vec. apply N.leb_le. lia. }
      rewrite Hg2. exists b2. split; [reflexivity|done]. }
    cbn [Process.buffer Process.err_buffer Process.stderr_closed toy_process Process.callbacks].
    rewrite Hout, Herr. cbn [outcome_bind]. unfold Process.try_process. rewrite Hd1.
    change (LineBuffer.deref LineBuffer.new) with ([] : list N).
    cbn [Process.process_loop drop position_nl outcome_bind].
    destruct (consume_spec b1 0 Hwf1) as (b2 & -> & _ & Hd2); [lia|]. cbn [outcome_bind].
    rewrite Hd2, Hd1. cbn [Process.stderr_loop drop position_nl outcome_bind].
    change (LineBuffer.deref LineBuffer.new) with ([] : list N).
    cbn [drop position_nl outcome_bind].
    destruct (consume_spec e 0 Hwfe) as (e2 & -> & _); [lia|]. eexists. reflexivity. }
  destruct (Hpoll (shop MState.new)) as [self' E].
  exists self'. split; [exact E|].
  eapply (stderr_never_consumed 9 (shop MState.new) toy_process StatusRunning);
    [split; simpl; lia|split; simpl; lia|exact E].
Defined.

Definition toy_initiators : gmap string ModuleConfig :=
  {[ "flipper" := mkModuleConfig "Dummy" {[ "uid" := "bob" ]};
     "door" := mkModuleConfig "Process" {[ "cmd" := "/bin/door" ]} ]}.

Lemma load_starts_connected_initiators_witness :
  ∃ ds, InitiatorLoad.load demo_world (Session.mkSessionManager demo_users demo_roles) shop_handle
          [("flipper", "lathe"); ("door", "missing")] toy_initiators = Done ds ∧
    ∃ d, d ∈ ds ∧ drv_name d = "flipper".
Proof.
  destruct (load_starts_connected_initiators demo_world
    (Session.mkSessionManager demo_users demo_roles) shop_handle
    [("flipper", "lathe"); ("door", "missing")] toy_initiators) as (ds & Hl & Hds).
  - apply map_Forall_insert; [reflexivity|]. split.
    + intros _ uid Hu. cbn [mod_params] in Hu. apply lookup_singleton_Some in Hu as [_ <-]. exact demo_key.
    + intros ? ? Hi. apply lookup_singleton_Some in Hi as [<- <-]. intros [=].
  - exists ds. split; [exact Hl|]. eexists. split.
    + apply Hds. exists "flipper". do 2 eexists. split_and!; [reflexivity| |].
      * exists [], "lathe", [("door", "missing")]. split_and!; [reflexivity..|].
        intros i' Hi. apply list_elem_of_singleton in Hi. simplify_eq.
      * eapply (DriverDummy _ _ _ _ _ "bob" demo_user); [reflexivity..|].
        vm_compute. reflexivity.
    + reflexivity.
Defined.

End Witnesses.
