(* ===== verification/Actors.v ===== *)
(** * Actors (bffhd/actors/mod.rs, process.rs, shelly.rs, dummy.rs)

    An actor carries the status of a machine to the outside: [Process] runs a
    command, [Shelly] switches a relay over MQTT.  An [ActorDriver] listens to
    the signal of the machine and applies one state after the other.  The
    signal library, the URL parser and the MQTT client are parameters; the
    interleaving with the rest of the server shows as the answers the signal
    and the running update give to each poll. *)

From S2P Require Import Prelude Permissions Db Users Machine Session Resources.

(** What an actor tries to do to the outside world, once; whether it succeeds is only
    logged. *)
Inductive effect :=
| RunCommand (cmd : string) (argv : list string)
| Publish (topic payload : string).

#[export] Instance effect_eq_dec : EqDecision effect.
Proof. solve_decision. Defined.

(** ** The actors *)

Inductive Actor :=
| ActDummy (name : string) (params : gmap string string)
| ActProcess (name cmd : string) (args : list string)
| ActShelly (name topic : string).

Module Actors.

(** [Process::new] *)
Definition process_new (name : string) (params : gmap string string) : option Actor :=
  cmd ← params !! "cmd";
  Some (ActProcess name cmd (from_option split_whitespace [] (params !! "args"))).

(** [Shelly::new] *)
Definition shelly_new (name : string) (params : gmap string string) : Actor :=
  let topic := match params !! "topic" with
               | Some topic => "shellies/" +:+ topic +:+ "/relay/0/command"
               | None => "shellies/" +:+ name +:+ "/relay/0/command"
               end in
  ActShelly name topic.

(** [Shelly::set_name] *)
Definition set_name (a : Actor) (new_name : string) : Actor :=
  match a with
  | ActShelly _ topic => ActShelly new_name topic
  | _ => a
  end.

(** The arguments [Process::apply] gives its command for a status. *)
Definition status_args (s : Status) : list string :=
  match s with
  | Free => ["free"]
  | InUse by_ => ["inuse"; ref_id by_]
  | ToCheck by_ => ["tocheck"; ref_id by_]
  | Blocked by_ => ["blocked"; ref_id by_]
  | Disabled => ["disabled"]
  | Reserved by_ => ["reserved"; ref_id by_]
  end.

(** [Process::apply]: what the future it returns tries, one run of the command with
    the actor's name and the status as last arguments.  What comes of it, also
    that the command could not be run, is only logged and changes nothing: the
    update is over either way. *)
Definition process_apply (name cmd : string) (args : list string) (st : State) : option effect :=
  Some (RunCommand cmd (args ++ [name] ++ status_args (state (inner st)))).

(** [Shelly::apply]: the message the future tries to publish; a failure is only
    logged. *)
Definition shelly_apply (topic : string) (st : State) : option effect :=
  Some (Publish topic (match state (inner st) with InUse _ => "on" | _ => "off" end)).

(** [Dummy::apply] only logs. *)
Definition dummy_apply (st : State) : option effect := None.

(** [Actor::apply] *)
Definition apply (a : Actor) (st : State) : option effect :=
  match a with
  | ActDummy _ _ => dummy_apply st
  | ActProcess name cmd args => process_apply name cmd args st
  | ActShelly _ topic => shelly_apply topic st
  end.

(** [load_single] *)
Definition load_single (name module_name : string) (params : gmap string string)
  : option Actor :=
  if decide (module_name = "Dummy") then Some (ActDummy name params)
  else if decide (module_name = "Process") then process_new name params
  else if decide (module_name = "Shelly") then Some (shelly_new name params)
  else None.

End Actors.

(** ** Signals

    A [Mutable] as a subscriber sees it: how often it was set, and its value;
    [None] once it is gone. *)
Record cell := mkCell { version : nat; value : ArchivedValue State }.

Inductive change := ChangePending | ChangeDone | Changed (v : ArchivedValue State).

(** [futures_signals]: a subscriber, and [Signal::poll_change].  [sub_seen] is
    the version the subscriber was last given. *)
Class Signals := {
  Sub : Type;
  sub_new : Sub;
  sub_seen : Sub → option nat;
  poll_change : Sub → option cell → Sub * change;
}.

(** A new subscriber is given the present value, afterwards the value of the
    moment whenever it was set since. *)
Class SignalsLaws `{Signals} : Prop := {
  sub_new_seen : sub_seen sub_new = None;
  poll_change_fresh s c : sub_seen s ≠ Some (version c) →
    ∃ s', poll_change s (Some c) = (s', Changed (value c)) ∧ sub_seen s' = Some (version c);
  poll_change_stale s c : sub_seen s = Some (version c) →
    ∃ s', poll_change s (Some c) = (s', ChangePending) ∧ sub_seen s' = Some (version c);
  poll_change_gone s : ∃ s', poll_change s None = (s', ChangeDone) ∧ sub_seen s' = sub_seen s;
}.

Inductive driver_poll := DriverReady | DriverPending.

(** What a driver does, in order: [apply] is called, its future completes. *)
Inductive event := Start (s : State) | Finish (s : State).

Module ActorDriver.
Section ActorDriver.
Context `{Signals} `{Rkyv State}.

(** [future]: the state whose [apply] is under way. *)
Record t := mk {
  signal : Sub;
  actor : Actor;
  future : option State;
}.

Definition new (s : Sub) (a : Actor) : t := mk s a None.

(** Does the future complete at this poll?  Running a command blocks and the
    dummy is ready at once; only publishing may wait. *)
Definition completes (a : Actor) (answer : bool) : bool :=
  match a with ActShelly _ _ => answer | _ => true end.

(** [ActorDriver::poll]: in the i-th round the future answers [ready i] and the
    signal is polled at the cell [cells i]. *)
Fixpoint poll (fuel : nat) (cells : nat → option cell) (ready : nat → bool) (i : nat) (self : t)
  : outcome (t * driver_poll * list event) :=
  match fuel with
  | O => OutOfFuel
  | S fuel =>
      let next (fin : list event) :=
        match poll_change (signal self) (cells i) with
        | (sub, ChangePending) => Done (mk sub (actor self) None, DriverPending, fin)
        | (sub, ChangeDone) => Done (mk sub (actor self) None, DriverReady, fin)
        | (sub, Changed v) =>
            let st := ArchivedVal.as_ref v in
            let! (self', p, evs) :=
              poll fuel cells ready (S i) (mk sub (actor self) (Some st)) in
            Done (self', p, fin ++ Start st :: evs)
        end in
      match future self with
      | None => next []
      | Some st =>
          if completes (actor self) (ready i) then next [Finish st]
          else Done (self, DriverPending, [])
      end
  end.

End ActorDriver.
End ActorDriver.

(** ** The MQTT client and loading *)

(** [Url] of the url crate, as far as it is asked. *)
Record Url := mkUrl {
  scheme : string;
  host_str : option string;
  url_port : option N;
  username : string;
  password : option string;
}.

Inductive Transport := TransportTls | TransportTcp.

Record MqttOptions := mkMqttOptions {
  mq_host : string;
  mq_port : N;
  transport : Transport;
  credentials : option (string * string);
}.

(** [rumqttc::ConnectionError], by what the event loop tells apart. *)
Inductive ConnectionError :=
| ErrCancel | ErrStreamDone | ErrRequestsDone | ErrTimeout | ErrIo | ErrOther.

(** The URL parser, and the first poll of the event loop, which connects. *)
Class Mqtt := {
  UrlError : Type;
  url_parse : string → result Url UrlError;
  mqtt_connect : MqttOptions → result () ConnectionError;
}.

Inductive ActorError `{Mqtt} :=
| UrlParseError (e : UrlError)
| InvalidConfig
| MqttConnectionError (e : ConnectionError).

(** The task that keeps the connection: running with its [fault] flag, or
    returned. *)
Inductive client := Looping (fault : bool) | Stopped.

Module ActorLoad.

(** One round of the loop. *)
Definition mqtt_round (fault : bool) (r : result () ConnectionError) : client :=
  match r with
  | Ok _ => Looping false
  | Err (ErrCancel | ErrStreamDone | ErrRequestsDone) => Stopped
  | Err ErrTimeout => Looping fault
  | Err ErrIo => if fault then Stopped else Looping true
  | Err ErrOther => Stopped
  end.

(** The loop, on the answers of [eventloop.poll()]. *)
Fixpoint mqtt_loop (fault : bool) (answers : list (result () ConnectionError)) : client :=
  match answers with
  | [] => Looping fault
  | r :: rest =>
      match mqtt_round fault r with
      | Looping fault' => mqtt_loop fault' rest
      | Stopped => Stopped
      end
  end.

Section ActorLoad.
Context `{Lmdb} `{Rkyv State} `{Signals} `{Mqtt}.

Definition mqtt_options (url : Url) : result MqttOptions ActorError :=
  let? (transport, default_port) :=
    (if decide (scheme url = "mqtts" ∨ scheme url = "ssl") then Ok (TransportTls, 8883%N)
     else if decide (scheme url = "mqtt" ∨ scheme url = "tcp") then Ok (TransportTcp, 1883%N)
     else Err InvalidConfig) in
  let? host := match host_str url with Some h => Ok h | None => Err InvalidConfig end in
  let port := default default_port (url_port url) in
  let credentials := if decide (username url = EmptyString) then None
                     else Some (username url, default EmptyString (password url)) in
  Ok (mkMqttOptions host port transport credentials).

(** [load]: connects, then the drivers handed to the executor, each with the
    machine whose signal it listens to. *)
Definition load (resources : Search.ResourcesHandle) (mqtt_url : string)
  (connections : list (string * string)) (actors : gmap string ModuleConfig)
  : outcome (result (list (ActorDriver.t * Resource)) ActorError) :=
  match url_parse mqtt_url with
  | Err e => Done (Err (UrlParseError e))
  | Ok url =>
      match mqtt_options url with
      | Err e => Done (Err e)
      | Ok options =>
          match mqtt_connect options with
          | Err e => Done (Err (MqttConnectionError e))
          | Ok _ =>
              let! ds := load_modules (λ name cfg resource,
                  Done ((λ a, (ActorDriver.new sub_new a, resource)) <$>
                        Actors.load_single name (mod_name cfg) (mod_params cfg)))
                (connect (Search.get_by_id resources) connections) (map_to_list actors) in
              Done (Ok ds)
          end
      end
  end.

End ActorLoad.
End ActorLoad.

(** ** Specification *)

Section Spec.
Context `{Signals} `{Rkyv State}.

(** The value the signal was given by its n-th update. *)
Variable history : nat → ArchivedValue State.

Definition at_version (v : option nat) : option cell := (λ n, mkCell n (history n)) <$> v.

(** A driver with everything it has done, over any number of polls. *)
Inductive driven (a : Actor) : ActorDriver.t → list event → Prop :=
| DrivenNew : driven a (ActorDriver.new sub_new a) []
| DrivenPoll d evs fuel versions ready d' p evs' :
    driven a d evs →
    ActorDriver.poll fuel (λ i, at_version (versions i)) ready 0 d = Done (d', p, evs') →
    driven a d' (evs ++ evs').

(** Each update is finished before the next one starts. *)
Definition one_by_one (finished : list State) (current : option State) : list event :=
  flat_map (λ s, [Start s; Finish s]) finished ++ from_option (λ s, [Start s]) [] current.

Definition started (evs : list event) : list State :=
  omap (λ e, match e with Start s => Some s | Finish _ => None end) evs.

(** The effects of the finished updates. *)
Definition effects (a : Actor) (evs : list event) : list effect :=
  omap (λ e, match e with Finish s => Actors.apply a s | Start _ => None end) evs.

End Spec.

Section Lemmas.
Context `{SignalsLaws} `{Rkyv State}.
Variable history : nat → ArchivedValue State.
Implicit Types (d : ActorDriver.t) (evs : list event).

Definition shown (n : nat) : State := ArchivedVal.as_ref (history n).

(** What a driver and its doings always satisfy. *)
Record sound (a : Actor) d evs : Prop := mkSound {
  sound_actor : ActorDriver.actor d = a;
  sound_order : ∃ finished, evs = one_by_one finished (ActorDriver.future d);
  sound_last : last (started evs) = shown <$> sub_seen (ActorDriver.signal d);
  sound_given : Forall (λ s, ∃ n, s = shown n) (started evs);
}.

Lemma one_by_one_finish finished s :
  one_by_one finished (Some s) ++ [Finish s] = one_by_one (finished ++ [s]) None.
Proof. unfold one_by_one. by rewrite flat_map_app, <- !app_assoc. Qed.

Lemma one_by_one_start finished s :
  one_by_one finished None ++ [Start s] = one_by_one finished (Some s).
Proof. unfold one_by_one. by rewrite <- app_assoc. Qed.

Lemma started_app evs evs' : started (evs ++ evs') = started evs ++ started evs'.
Proof. apply omap_app. Qed.

Lemma sound_finish a d evs s :
  sound a d evs → ActorDriver.future d = Some s →
  sound a (ActorDriver.mk (ActorDriver.signal d) (ActorDriver.actor d) None) (evs ++ [Finish s]).
Proof.
  intros [Ha [fin ->] Hl Hg] Hf. rewrite Hf in *.
  split; simpl; [done| |rewrite started_app; simpl; by rewrite app_nil_r..].
  exists (fin ++ [s]). apply one_by_one_finish.
Qed.

Lemma sound_sub a d evs sub :
  sound a d evs → sub_seen sub = sub_seen (ActorDriver.signal d) →
  sound a (ActorDriver.mk sub (ActorDriver.actor d) (ActorDriver.future d)) evs.
Proof. intros [Ha Ho Hl Hg] Hs. split; simpl; [done..| |done]. by rewrite Hl, Hs. Qed.

Lemma sound_start a d evs sub n :
  sound a d evs → ActorDriver.future d = None → sub_seen sub = Some n →
  sound a (ActorDriver.mk sub (ActorDriver.actor d) (Some (shown n))) (evs ++ [Start (shown n)]).
Proof.
  intros [Ha [fin ->] Hl Hg] Hf Hs. rewrite Hf in *. split; simpl; [done| | |].
  - exists fin. apply one_by_one_start.
  - rewrite started_app. simpl. by rewrite last_snoc, Hs.
  - rewrite started_app. apply Forall_app. split; [done|]. simpl. constructor; [by exists n|done].
Qed.

(** What happens after the future was looked at: the driver is idle. *)
Definition round fuel versions ready i d : outcome (ActorDriver.t * driver_poll * list event) :=
  match poll_change (ActorDriver.signal d) (at_version history (versions i)) with
  | (sub, ChangePending) =>
      Done (ActorDriver.mk sub (ActorDriver.actor d) None, DriverPending, [])
  | (sub, ChangeDone) =>
      Done (ActorDriver.mk sub (ActorDriver.actor d) None, DriverReady, [])
  | (sub, Changed v) =>
      let! (d', p, evs) := ActorDriver.poll fuel (λ i, at_version history (versions i)) ready (S i)
        (ActorDriver.mk sub (ActorDriver.actor d) (Some (ArchivedVal.as_ref v))) in
      Done (d', p, Start (ArchivedVal.as_ref v) :: evs)
  end.

Lemma poll_unfold fuel versions ready i d :
  ActorDriver.poll (S fuel) (λ i, at_version history (versions i)) ready i d =
  match ActorDriver.future d with
  | Some s =>
      if ActorDriver.completes (ActorDriver.actor d) (ready i) then
        let! (d', p, evs) := round fuel versions ready i
          (ActorDriver.mk (ActorDriver.signal d) (ActorDriver.actor d) None) in
        Done (d', p, Finish s :: evs)
      else Done (d, DriverPending, [])
  | None => round fuel versions ready i d
  end.
Proof.
  cbn [ActorDriver.poll]. unfold round. destruct (ActorDriver.future d) as [s|].
  - destruct (ActorDriver.completes _ _); [|done]. cbn [ActorDriver.signal ActorDriver.actor].
    destruct (poll_change _ _) as [sub [| |v]]; simpl; [done..|].
    by destruct (ActorDriver.poll _ _ _ _ _) as [[[??]?]| |].
  - destruct (poll_change _ _) as [sub [| |v]]; [done..|].
    by destruct (ActorDriver.poll _ _ _ _ _) as [[[??]?]| |].
Qed.

Lemma poll_change_cases s v :
  ∃ s', (poll_change s (at_version history v) = (s', ChangePending) ∧ sub_seen s' = sub_seen s ∧
           v = sub_seen s) ∨
        (poll_change s (at_version history v) = (s', ChangeDone) ∧ sub_seen s' = sub_seen s ∧
           v = None) ∨
        (∃ n, v = Some n ∧ sub_seen s ≠ Some n ∧
           poll_change s (at_version history v) = (s', Changed (history n)) ∧ sub_seen s' = Some n).
Proof.
  destruct v as [n|]; simpl.
  - destruct (decide (sub_seen s = Some n)) as [Hs|Hs].
    + destruct (poll_change_stale s (mkCell n (history n)) Hs) as (s' & Hp & Hs').
      exists s'. left. simpl in *. by rewrite Hs.
    + destruct (poll_change_fresh s (mkCell n (history n)) Hs) as (s' & Hp & Hs').
      exists s'. right. right. exists n. done.
  - destruct (poll_change_gone s) as (s' & Hp & Hs'). exists s'. right. by left.
Qed.

(** A poll keeps the invariant; an idle driver that waits has seen the version
    of some round, the last one it looked at. *)
Lemma poll_sound a fuel versions ready i d evs d' p evs' :
  sound a d evs →
  ActorDriver.poll fuel (λ i, at_version history (versions i)) ready i d = Done (d', p, evs') →
  sound a d' (evs ++ evs').
Proof.
  revert i d evs d' p evs'. induction fuel as [|fuel IH]; intros i d evs d' p evs' Hs; [done|].
  assert (∀ d evs d' p evs', sound a d evs → ActorDriver.future d = None →
    round fuel versions ready i d = Done (d', p, evs') → sound a d' (evs ++ evs')) as Hround.
  { clear d evs d' p evs' Hs. intros d evs d' p evs' Hs Hf. unfold round.
    destruct (poll_change_cases (ActorDriver.signal d) (versions i))
      as (sub & [(-> & Hseen & _)|[(-> & Hseen & _)|(n & _ & _ & -> & Hseen)]]).
    - intros; inv_eqs. rewrite app_nil_r. rewrite <- Hf. by apply sound_sub.
    - intros; inv_eqs. rewrite app_nil_r. rewrite <- Hf. by apply sound_sub.
    - intros ([[d1 p1] evs1] & Hp & Hr)%outcome_bind_Done. inv_eqs.
      rewrite cons_middle, app_assoc. eapply IH; [|exact Hp]. by apply sound_start. }
  rewrite poll_unfold. destruct (ActorDriver.future d) as [s|] eqn:Hf; [|by apply Hround].
  destruct (ActorDriver.completes _ _); [|intros; inv_eqs; by rewrite app_nil_r].
  intros ([[d1 p1] evs1] & Hr & Heq)%outcome_bind_Done. inv_eqs.
  rewrite cons_middle, app_assoc. exact (Hround _ _ _ _ _ (sound_finish _ _ _ _ Hs Hf) eq_refl Hr).
Qed.

Lemma driven_sound a d evs : driven history a d evs → sound a d evs.
Proof.
  induction 1 as [|d evs fuel versions ready d' p evs' _ IH Hp].
  - split; simpl; [done|by exists []| |done]. by rewrite sub_new_seen.
  - by eapply poll_sound.
Qed.

(** At a machine at rest two rounds are enough. *)
Lemma poll_rest d n :
  ∃ d' evs, ActorDriver.poll 2 (λ _, at_version history (Some n)) (λ _, true) 0 d =
      Done (d', DriverPending, evs) ∧
    ActorDriver.future d' = None ∧ sub_seen (ActorDriver.signal d') = Some n.
Proof.
  assert (∀ b, ActorDriver.completes (ActorDriver.actor d) b = false → b = false) as Hc.
  { intros b. by destruct (ActorDriver.actor d). }
  assert (∀ d, ∃ d' evs, round 1 (λ _, Some n) (λ _, true) 0 d = Done (d', DriverPending, evs) ∧
    ActorDriver.future d' = None ∧ sub_seen (ActorDriver.signal d') = Some n) as Hround.
  { clear d Hc. intros d. unfold round.
    destruct (poll_change_cases (ActorDriver.signal d) (Some n))
      as (sub & [(-> & Hseen & Hn)|[(_ & _ & [=])|(m & [= <-] & _ & -> & Hseen)]]).
    - do 2 eexists. split_and!; [reflexivity..|]. simpl. congruence.
    - rewrite (poll_unfold 0 (λ _, Some n)). cbn [ActorDriver.future ActorDriver.actor].
      replace (ActorDriver.completes _ _) with true by (by destruct (ActorDriver.actor d)).
      unfold round. cbn [ActorDriver.signal].
      destruct (poll_change_cases sub (Some n))
        as (sub' & [(-> & Hseen' & _)|[(_ & _ & [=])|(m & [= <-] & Hne & _)]]); [|congruence].
      do 2 eexists. split_and!; [reflexivity..|]. simpl. congruence. }
  rewrite (poll_unfold 1 (λ _, Some n)). destruct (ActorDriver.future d) as [s|]; [|apply Hround].
  destruct (ActorDriver.completes _ _) eqn:Hcomp; [|by apply Hc in Hcomp].
  destruct (Hround (ActorDriver.mk (ActorDriver.signal d) (ActorDriver.actor d) None))
    as (d' & evs & -> & ?). simpl. eauto.
Qed.

Lemma started_one_by_one fin : started (one_by_one fin None) = fin.
Proof.
  unfold one_by_one. simpl. rewrite app_nil_r. induction fin as [|s fin IH]; [done|].
  simpl. unfold started in *. simpl. by rewrite IH.
Qed.

Lemma effects_snoc a fin s : last (effects a (one_by_one (fin ++ [s]) None)) = Actors.apply a s.
Proof.
  rewrite <- one_by_one_finish. unfold effects. rewrite omap_app. simpl.
  destruct (Actors.apply a s) as [e|] eqn:Ha; simpl; [by rewrite last_snoc|].
  rewrite app_nil_r. destruct a as [n ps| |]; [|done..].
  generalize (one_by_one fin (Some s)). intros l. by induction l as [|[] l IH].
Qed.

(** The last state an idle driver was shown is the last one it applied. *)
Lemma driver_settles a d evs n :
  driven history a d evs →
  ∃ d' evs', ActorDriver.poll 2 (λ _, at_version history (Some n)) (λ _, true) 0 d =
      Done (d', DriverPending, evs') ∧
    driven history a d' (evs ++ evs') ∧ ActorDriver.future d' = None ∧
    last (started (evs ++ evs')) = Some (shown n) ∧
    last (effects a (evs ++ evs')) = Actors.apply a (shown n).
Proof.
  intros Hd. destruct (poll_rest d n) as (d' & evs' & Hp & Hf & Hseen).
  exists d', evs'. split; [done|]. split.
  { exact (DrivenPoll _ _ _ _ 2 (λ _, Some n) (λ _, true) _ DriverPending _ Hd Hp). }
  split; [done|].
  destruct (poll_sound a 2 (λ _, Some n) _ 0 d evs _ _ _ (driven_sound _ _ _ Hd) Hp)
    as [_ [fin Hev] Hl _].
  rewrite Hseen in Hl. split; [done|]. rewrite Hev, Hf in Hl |- *. rewrite started_one_by_one in Hl.
  apply last_Some in Hl as [fin' ->]. apply effects_snoc.
Qed.

End Lemmas.

(** ** Properties *)

Section Properties.
Context `{SignalsLaws} `{LmdbLaws} `{!LmdbHealthy}.
Context `{HS : Rkyv State} `{HM : Rkyv MachineState} `{!RkyvMachine} `{AuditIoLaws}.

(** What the signal of a machine in order shows. *)
Lemma signal_state w r ms v :
  coherent w r → machine_of w r = Some ms → signals w !! r_id r = Some v →
  ArchivedVal.as_ref v = mkState ms.
Proof.
  intros Hc Hm Hsig. pose proof (get_state_ref_spec w r ms Hc Hm) as Href.
  unfold Resource.get_state_ref in Href. rewrite Hsig in Href. simpl in Href. congruence.
Qed.

(** over any number of polls, with any interleaving of machine
    updates, an actor applies one state after the other: an update is finished
    before the next one starts, and every state it starts is one the machine
    was given. *)
Theorem actor_one_at_a_time history a d evs :
  driven history a d evs →
  (∃ finished, evs = one_by_one finished (ActorDriver.future d)) ∧
  Forall (λ s, ∃ n, s = ArchivedVal.as_ref (history n)) (started evs).
Proof. intros [_ Ho _ Hg]%driven_sound. done. Qed.

(** C6: whatever a driver has seen before, once it is polled with its
    machine at rest and its update not held up, the poll returns and the last
    state the actor applied is the machine's: the last command it tried to run or
    message it tried to publish is the one for the status in the database. *)
Theorem actor_follows_machine history a d evs w r ms n :
  driven history a d evs →
  coherent w r → machine_of w r = Some ms → signals w !! r_id r = Some (history n) →
  ∃ d' evs', ActorDriver.poll 2 (λ _, at_version history (Some n)) (λ _, true) 0 d =
      Done (d', DriverPending, evs') ∧
    ActorDriver.future d' = None ∧
    last (started (evs ++ evs')) = Some (mkState ms) ∧
    last (effects a (evs ++ evs')) = Actors.apply a (mkState ms).
Proof.
  intros Hd Hc Hm Hsig. destruct (driver_settles history a d evs n Hd) as (d' & evs' & Hp & _ & Hf & Hl & He).
  unfold shown in Hl, He. rewrite (signal_state w r ms _ Hc Hm Hsig) in Hl, He. by exists d', evs'.
Qed.

End Properties.

Section LoadProperties.

(** The errors that end the MQTT client at once. *)
Definition closing (r : result () ConnectionError) : bool :=
  match r with
  | Err (ErrCancel | ErrStreamDone | ErrRequestsDone | ErrOther) => true
  | _ => false
  end.

(** Two I/O errors with nothing but timeouts in between. *)
Definition repeated_io (before : list (result () ConnectionError)) : Prop :=
  ∃ a b, before = a ++ Err ErrIo :: b ∧ Forall (λ r, r = Err ErrTimeout) b.

Lemma mqtt_loop_spec fault answers :
  ActorLoad.mqtt_loop fault answers = Stopped ↔
  ∃ before r after, answers = before ++ r :: after ∧
    (closing r = true ∨
     r = Err ErrIo ∧
       ((fault = true ∧ Forall (λ r, r = Err ErrTimeout) before) ∨ repeated_io before)).
Proof.
  revert fault. induction answers as [|x l IH]; intros fault; simpl.
  { split; [done|]. intros ([|??] & ? & ? & ? & _); simplify_eq. }
  assert (∀ f, ActorLoad.mqtt_round fault x = Looping f →
    (ActorLoad.mqtt_loop f l = Stopped ↔ ∃ before r after, x :: l = before ++ r :: after ∧
      (closing r = true ∨ r = Err ErrIo ∧
       ((fault = true ∧ Forall (λ r, r = Err ErrTimeout) before) ∨ repeated_io before)))) as Hl.
  { intros f Hf. rewrite IH. split.
    - intros (bf & r & af & -> & Hcase). exists (x :: bf), r, af. split; [done|].
      destruct Hcase as [?|[-> [[-> Hto]|(a & b & -> & Hto)]]]; [by left| |].
      + right. split; [done|]. destruct x as [[]|[]]; try done; simpl in Hf.
        * left. split; [congruence|]. by constructor.
        * right. exists [], bf. done.
      + right. split; [done|]. right. by exists (x :: a), b.
    - intros ([|y bf] & r & af & Heq & Hcase); simplify_eq/=.
      + destruct Hcase as [Hc|[-> [[-> _]|([|??] & ? & ? & _)]]]; try done.
        by destruct r as [|[]].
      + exists bf, r, af. split; [done|].
        destruct Hcase as [?|[-> [[-> Hto]|(a & b & Hab & Hto)]]]; [by left| |].
        * apply Forall_cons in Hto as [-> Hto]. simplify_eq/=. right. auto.
        * right. split; [done|]. destruct a as [|z a]; simplify_eq/=.
          -- destruct fault; simplify_eq/=. by left.
          -- right. by exists a, b. }
  destruct (ActorLoad.mqtt_round fault x) as [f|] eqn:Hround; [by apply Hl|].
  split; [|done]. intros _. exists [], x, l. split; [done|].
  destruct x as [[]|[]]; simpl in Hround; try done; auto.
  right. split; [done|]. left. destruct fault; [done|done].
Qed.

(** the client stops exactly when its queue closes, on an error it does
    not know, or when an I/O error repeats with no success in between; a
    timeout neither stops it nor counts as success. *)
Theorem mqtt_client_stops_iff answers :
  ActorLoad.mqtt_loop false answers = Stopped ↔
  ∃ before r after, answers = before ++ r :: after ∧
    (closing r = true ∨ (r = Err ErrIo ∧ repeated_io before)).
Proof. rewrite mqtt_loop_spec. naive_solver. Qed.

(** renaming a Shelly changes its name only: it still publishes on
    the topic it was created with. *)
Theorem shelly_rename_keeps_relay name params new_name st :
  Actors.apply (Actors.set_name (Actors.shelly_new name params) new_name) st =
  Actors.apply (Actors.shelly_new name params) st.
Proof. done. Qed.

(** with a broker that can be reached, loading starts a driver for
    exactly the configured actors that are connected to an existing machine
    and whose module is known and set up, each on the signal of its machine. *)
Theorem load_starts_connected_actors `{Lmdb} `{Rkyv State} `{Signals} `{Mqtt}
  h mqtt_url url options connections actors :
  url_parse mqtt_url = Ok url → ActorLoad.mqtt_options url = Ok options →
  mqtt_connect options = Ok () →
  ∃ ds, ActorLoad.load h mqtt_url connections actors = Done (Ok ds) ∧
    ∀ d r, (d, r) ∈ ds ↔ ∃ name cfg a, actors !! name = Some cfg ∧
      connected (Search.get_by_id h) connections name r ∧
      Actors.load_single name (mod_name cfg) (mod_params cfg) = Some a ∧
      d = ActorDriver.new sub_new a.
Proof.
  intros Hurl Hopt Hconn. unfold ActorLoad.load. rewrite Hurl, Hopt, Hconn.
  match goal with |- context [load_modules ?f ?m ?l] =>
    destruct (load_modules_spec f (λ name cfg r p,
      ∃ a, Actors.load_single name (mod_name cfg) (mod_params cfg) = Some a ∧
        p = (ActorDriver.new sub_new a, r)) m l) as (ds & -> & Hds) end.
  - apply NoDup_fst_map_to_list.
  - intros name cfg r _. eexists. split; [done|]. intros p. rewrite fmap_Some. done.
  - exists ds. split; [done|]. intros d r. rewrite Hds.
    setoid_rewrite elem_of_map_to_list. setoid_rewrite connect_spec. naive_solver.
Qed.

End LoadProperties.

(** ** Witnesses *)

Section Witnesses.

(** A subscriber that remembers the version it saw. *)
#[export] Instance plain_signals : Signals := {|
  Sub := option nat;
  sub_new := None;
  sub_seen s := s;
  poll_change s c :=
    match c with
    | None => (s, ChangeDone)
    | Some c => if decide (s = Some (version c)) then (s, ChangePending)
                else (Some (version c), Changed (value c))
    end;
|}.

#[export] Instance plain_signals_laws : SignalsLaws.
Proof.
  split; simpl; [done| | |eauto]; intros s c Hs; [rewrite decide_False by done; eauto|].
  rewrite decide_True by done. eauto.
Qed.

(** The lathe was free, is now used by bob; its relay saw the first. *)
Definition lathe_history (n : nat) : ArchivedValue State :=
  mkArchivedValue [N.pos (encode (match n with O => MState.new | _ => MState.used bob None end))].

Definition relay : Actor := Actors.shelly_new "lathe" ∅.

Lemma relay_driven :
  driven lathe_history relay (ActorDriver.mk (Some 0) relay (Some (mkState MState.new)))
    [Start (mkState MState.new)].
Proof.
  apply (DrivenPoll _ _ _ [] 2 (λ _, Some 0) (λ _, false) _ DriverPending _ (DrivenNew _ _)).
  vm_compute. reflexivity.
Qed.

Lemma actor_one_at_a_time_witness :
  ∃ finished, [Start (mkState MState.new)] = one_by_one finished (Some (mkState MState.new)).
Proof. exact (proj1 (actor_one_at_a_time _ _ _ _ relay_driven)). Defined.

Lemma actor_follows_machine_witness :
  ∃ d' evs', ActorDriver.poll 2 (λ _, at_version lathe_history (Some 1)) (λ _, true) 0
      (ActorDriver.mk (Some 0) relay (Some (mkState MState.new))) = Done (d', DriverPending, evs') ∧
    last (effects relay (Start (mkState MState.new) :: evs')) =
      Some (Publish "shellies/lathe/relay/0/command" "on").
Proof.
  destruct (actor_follows_machine lathe_history relay _ _ (shop (MState.used bob None)) lathe
    (MState.used bob None) 1 relay_driven) as (d' & evs' & Hp & _ & _ & He).
  - apply shop_coherent.
  - apply shop_machine.
  - reflexivity.
  - exists d', evs'. split; [exact Hp|exact He].
Defined.

#[local] Instance toy_mqtt : Mqtt := {|
  UrlError := ();
  url_parse s := if decide (s = "mqtt://broker") then
      Ok (mkUrl "mqtt" (Some "broker") None EmptyString None) else Err ();
  mqtt_connect _ := Ok ();
|}.

Lemma load_starts_connected_actors_witness :
  ∃ ds, ActorLoad.load shop_handle "mqtt://broker" [("relay", "lathe")]
          {[ "relay" := mkModuleConfig "Shelly" ∅ ]} = Done (Ok ds) ∧
    (ActorDriver.new sub_new (Actors.shelly_new "relay" ∅), lathe) ∈ ds.
Proof.
  destruct (load_starts_connected_actors shop_handle "mqtt://broker"
    (mkUrl "mqtt" (Some "broker") None EmptyString None)
    (mkMqttOptions "broker" 1883 TransportTcp None) [("relay", "lathe")]
    {[ "relay" := mkModuleConfig "Shelly" ∅ ]}) as (ds & Hl & Hds).
  - reflexivity.
  - reflexivity.
  - reflexivity.
  - exists ds. split; [exact Hl|]. apply Hds.
    exists "relay", (mkModuleConfig "Shelly" ∅), (Actors.shelly_new "relay" ∅).
    split_and!; [reflexivity| |reflexivity..].
    exists [], "lathe", []. split_and!; [reflexivity..|]. intros i' Hi.
    apply elem_of_nil in Hi. destruct Hi.
Defined.

End Witnesses.
