(* ===== verification/LightProc.v ===== *)
(** * Light-weight processes (runtime/lightproc)

    A proc is a heap block with an atomic state word, an awaiter, and a union
    of the future and its output.  It is referred to by [LightProc]s (handed to
    the executor), by wakers, both counted in the state word, and by one
    [ProcHandle], which a flag tracks.  [State] is the state word
    (state.rs), [ProcData], [RawProc], [ProcHandle] and [LightProc] the
    operations (proc_data.rs, raw_proc.rs, proc_handle.rs, lightproc.rs), and
    [ProcSystem] runs any sequence of operations their owners may carry out.
    Each operation runs here without interference between its atomic accesses,
    except that everything may happen while the future of a running proc is
    polled; ProcThreads takes them apart and lets them interleave.  An operation
    that is at fault (freed memory, a future dropped twice, a missing output) ends
    the execution.  Words are little-endian. *)

From S2P Require Import Prelude.

Local Open Scope N_scope.

(** ** The state word *)

Module State.

(** [u32::to_ne_bytes], [u64::to_ne_bytes] and back. *)
Fixpoint to_bytes (n : nat) (x : N) : list N :=
  match n with
  | O => []
  | S n => N.land x 255 :: to_bytes n (N.shiftr x 8)
  end.

Fixpoint of_bytes (l : list N) : N :=
  match l with
  | [] => 0
  | b :: l => b + 256 * of_bytes l
  end.

(** [StateFlags] *)
Definition SCHEDULED : N := N.shiftl 1 0.
Definition RUNNING : N := N.shiftl 1 1.
Definition COMPLETED : N := N.shiftl 1 2.
Definition CLOSED : N := N.shiftl 1 3.
Definition HANDLE : N := N.shiftl 1 4.
Definition AWAITER : N := N.shiftl 1 5.
Definition LOCKED : N := N.shiftl 1 6.

(** [bitflags]: [contains], [intersects], and the complement, which stays within
    the declared flags. *)
Definition contains (f g : N) : bool := N.land f g =? g.
Definition intersects (f g : N) : bool := negb (N.land f g =? 0).
Definition flag_not (f : N) : N := N.ldiff 127 f.

Record t := mk { bytes : list N }.

#[export] Instance t_eq_dec : EqDecision t.
Proof. solve_decision. Defined.

Definition new (flags references : N) : t := mk (to_bytes 4 references ++ to_bytes 4 flags).

Definition parts (self : t) : N * N :=
  (of_bytes (drop 4 (bytes self)), of_bytes (take 4 (bytes self))).

Definition get_refcount (self : t) : N := of_bytes (take 4 (bytes self)).

Definition set_refcount (self : t) (refcount : N) : t :=
  mk (to_bytes 4 refcount ++ drop 4 (bytes self)).

Definition get_flags (self : t) : N := of_bytes (drop 4 (bytes self)).

Definition into_u64 (self : t) : N := of_bytes (bytes self).
Definition from_u64 (value : N) : t := mk (to_bytes 8 value).

Definition is_awaiter (self : t) : bool := contains (get_flags self) AWAITER.
Definition is_closed (self : t) : bool := contains (get_flags self) CLOSED.
Definition is_locked (self : t) : bool := contains (get_flags self) LOCKED.
Definition is_scheduled (self : t) : bool := contains (get_flags self) SCHEDULED.
Definition is_completed (self : t) : bool := contains (get_flags self) COMPLETED.
Definition is_handle (self : t) : bool := contains (get_flags self) HANDLE.
Definition is_running (self : t) : bool := contains (get_flags self) RUNNING.

(** *** [AtomicState]: what the word becomes; each returns the old word *)

Definition fetch_or (self : t) (val : N) : t :=
  let store := of_bytes (replicate 4 0 ++ to_bytes 4 val) in
  from_u64 (N.lor (into_u64 self) store).

Definition fetch_and (self : t) (val : N) : t :=
  let store := of_bytes (replicate 4 255 ++ to_bytes 4 val) in
  from_u64 (N.land (into_u64 self) store).

Definition fetch_add (self : t) (val : N) : t :=
  let store := of_bytes (to_bytes 4 val ++ replicate 4 0) in
  from_u64 ((into_u64 self + store) mod 2 ^ 64).

Definition fetch_sub (self : t) (val : N) : t :=
  let store := of_bytes (to_bytes 4 val ++ replicate 4 0) in
  from_u64 ((into_u64 self + (2 ^ 64 - store)) mod 2 ^ 64).

(** [compare_exchange(_weak)]: the word afterwards, and the word found. *)
Definition compare_exchange (self current new : t) : t * result t t :=
  if decide (into_u64 self = into_u64 current) then (new, Ok self) else (self, Err self).

End State.

(** ** Procs *)

(** [future]: whether the union holds the future; [output]: the output it holds;
    [queue]: how many [LightProc]s there are, with the executor or elsewhere,
    that were neither run nor dropped; [woken]: the awaiters woken so far (wakers of other procs,
    known by an id); [freed]: the block was deallocated. *)
Record proc (R : Type) := mkProc {
  word : State.t;
  awaiter : option nat;
  future : bool;
  output : option R;
  queue : nat;
  woken : list nat;
  freed : bool;
}.
Arguments mkProc {R}.
Arguments word {R}.
Arguments awaiter {R}.
Arguments future {R}.
Arguments output {R}.
Arguments queue {R}.
Arguments woken {R}.
Arguments freed {R}.

(** What an operation does wrong: it leaves the span in the block after the block
    was freed ([LateSpan]), uses the unparker that a schedule function keeps there
    after that ([LateUnpark]), or is wrong in any other way ([Misuse]): it uses the
    block after it was freed, drops the future twice, or reads an output that is
    not there. *)
Inductive fault := LateSpan | LateUnpark | Misuse.

#[export] Instance fault_eq_dec : EqDecision fault.
Proof. solve_decision. Defined.

(** An operation on a proc returns, aborts the process, or does what must never
    happen, after which nothing is known. *)
Inductive run (R A : Type) :=
| Ret (a : A) (p : proc R)
| Abort_
| Undefined (f : fault)
| NoFuel.
Arguments Ret {R A}.
Arguments Abort_ {R A}.
Arguments Undefined {R A}.
Arguments NoFuel {R A}.

Definition M (R A : Type) : Type := proc R → run R A.

Definition ret {R A} (a : A) : M R A := λ p, Ret a p.

Definition bind {R A B} (m : M R A) (k : A → M R B) : M R B := λ p,
  match m p with
  | Ret a p' => k a p'
  | Abort_ => Abort_
  | Undefined f => Undefined f
  | NoFuel => NoFuel
  end.

Notation "'let%' x ':=' e 'in' k" := (bind e (λ x, k))
  (at level 10, x pattern, e at level 200, k at level 200) : rust_scope.
Notation "e ';%' k" := (bind e (λ _, k)) (at level 199, right associativity) : rust_scope.

(** *** Memory accesses *)

(** An access to the block, at fault if it was freed. *)
Definition access {R A} (f : fault) (m : M R A) : M R A := λ p, if freed p then Undefined f else m p.

Definition guarded {R A} (m : M R A) : M R A := access Misuse m.

Definition load {R} : M R State.t := guarded (λ p, Ret (word p) p).

Definition set_word {R} (w : State.t) (p : proc R) : proc R :=
  mkProc w (awaiter p) (future p) (output p) (queue p) (woken p) (freed p).

Definition fetch {R} (f : State.t → State.t) : M R State.t :=
  guarded (λ p, Ret (word p) (set_word (f (word p)) p)).

Definition cas {R} (current new : State.t) : M R (result State.t State.t) :=
  guarded (λ p, let (w, r) := State.compare_exchange (word p) current new in
                Ret r (set_word w p)).

Definition replace_awaiter {R} (new : option nat) : M R (option nat) :=
  guarded (λ p, Ret (awaiter p)
    (mkProc (word p) new (future p) (output p) (queue p) (woken p) (freed p))).

(** [Waker::wake] on the waker of another proc. *)
Definition wake_other {R} (w : nat) : M R () := λ p,
  Ret () (mkProc (word p) (awaiter p) (future p) (output p) (queue p) (woken p ++ [w]) (freed p)).

Definition write_output {R} (o : R) : M R () :=
  guarded (λ p, Ret ()
    (mkProc (word p) (awaiter p) (future p) (Some o) (queue p) (woken p) (freed p))).

(** Reading moves the output out of the block. *)
Definition read_output {R} : M R R :=
  guarded (λ p, match output p with
                | Some o => Ret o
                    (mkProc (word p) (awaiter p) (future p) None (queue p) (woken p) (freed p))
                | None => Undefined Misuse
                end).

(** The guard of [Span::enter] is dropped: it leaves the span, which is stored in
    the block. *)
Definition exit_span {R} : M R () := access LateSpan (ret ()).

(** [loop]: a round ends with [inl s] to go on with the state [s] (after
    [Err(s) => state = s]) or with [inr a] to leave the loop. *)
Fixpoint retry {R S A} (fuel : nat) (round : S → M R (S + A)) (state : S) : M R A :=
  match fuel with
  | O => λ _, NoFuel
  | Datatypes.S fuel =>
      let% x := round state in
      match x with
      | inl state => retry fuel round state
      | inr a => ret a
      end
  end.

(** Leave a loop after [m]. *)
Definition leave {R S A} (m : M R A) : M R (S + A) := let% a := m in ret (inr a).

(** Do [m] if the condition holds. *)
Definition when {R} (b : bool) (m : M R ()) : M R () := if b then m else ret ().

(** The rounds a loop gets; two are enough. *)
Definition spins : nat := 2.

Module ProcData.
Section ProcData.
Context {R : Type}.
Import State.

Definition is_none {A} (o : option A) : bool := match o with None => true | Some _ => false end.

(** The loop of [swap_awaiter] that takes the lock: it ends when the word it
    found was locked already. *)
Definition lock_round (new_is_none : bool) (_ : ()) : M R (() + ()) :=
  let% state := fetch (λ w, fetch_or w (if new_is_none then LOCKED else N.lor LOCKED AWAITER)) in
  if is_locked state then ret (inr ()) else ret (inl ()).

Definition swap_awaiter (new : option nat) : M R (option nat) :=
  retry spins (lock_round (is_none new)) () ;%
  let% old := replace_awaiter new in
  fetch (λ w, fetch_and w (if is_none new then N.land (flag_not LOCKED) (flag_not AWAITER)
                           else flag_not LOCKED)) ;%
  ret old.

Definition notify : M R () :=
  let% o := swap_awaiter None in
  match o with Some waker => wake_other waker | None => ret () end.

Definition notify_unless (current : nat) : M R () :=
  let% o := swap_awaiter None in
  match o with
  | Some waker => when (negb (Nat.eqb waker current)) (wake_other waker)
  | None => ret ()
  end.

Definition cancel_round (state : t) : M R (t + ()) :=
  if intersects (get_flags state) (N.lor COMPLETED CLOSED) then ret (inr ())
  else
    let (flags, references) := parts state in
    let% r := cas state (State.new (N.lor flags CLOSED) references) in
    match r with
    | Ok _ => leave (when (is_awaiter state) notify)
    | Err s => ret (inl s)
    end.

Definition cancel : M R () := let% state := load in retry spins cancel_round state.

End ProcData.
End ProcData.

Module RawProc.
Section RawProc.
Context {R : Type}.
Import State.

(** [allocate], with the [LightProc] that [build] makes of it. *)
Definition allocate : proc R :=
  mkProc (State.new (N.lor SCHEDULED HANDLE) 1) None true None 1 [] false.

(** [schedule]: make a [LightProc] and hand it to the schedule function. *)
Definition schedule : M R () :=
  guarded (λ p, Ret ()
    (mkProc (word p) (awaiter p) (future p) (output p) (S (queue p)) (woken p) (freed p))).

Definition drop_future : M R () :=
  guarded (λ p, if future p then Ret ()
      (mkProc (word p) (awaiter p) false (output p) (queue p) (woken p) (freed p))
    else Undefined Misuse).

(** [destroy]: the schedule function and the proc data (with its awaiter) are
    dropped, the future or output are not. *)
Definition destroy : M R () :=
  guarded (λ p, Ret ()
    (mkProc (word p) None (future p) (output p) (queue p) (woken p) true)).

Definition decrement : M R () :=
  let% new := fetch (λ w, fetch_sub w 1) in
  let new := set_refcount new (get_refcount new - 1) in
  when ((get_refcount new =? 0) && negb (is_handle new)) destroy.

Definition wake_round (state : t) : M R (t + ()) :=
  if intersects (get_flags state) (N.lor COMPLETED CLOSED) then leave decrement
  else if is_scheduled state then
    let% r := cas state state in
    match r with Ok _ => leave decrement | Err s => ret (inl s) end
  else
    let (flags, references) := parts state in
    let% r := cas state (State.new (N.lor flags SCHEDULED) references) in
    match r with
    | Ok _ => leave (if negb (is_running state) then schedule else decrement)
    | Err s => ret (inl s)
    end.

Definition wake : M R () := let% state := load in retry spins wake_round state.

Definition wake_by_ref_round (state : t) : M R (t + ()) :=
  if intersects (get_flags state) (N.lor COMPLETED CLOSED) then ret (inr ())
  else if is_scheduled state then
    let% r := cas state state in
    match r with Ok _ => ret (inr ()) | Err s => ret (inl s) end
  else
    let (flags, references) := parts state in
    let idle := negb (intersects (get_flags state) (N.lor SCHEDULED RUNNING)) in
    let new := if idle then State.new (N.lor flags SCHEDULED) (references + 1)
               else State.new (N.lor flags SCHEDULED) references in
    let% r := cas state new in
    match r with
    | Ok _ => leave (when idle schedule)
    | Err s => ret (inl s)
    end.

Definition wake_by_ref : M R () := let% state := load in retry spins wake_by_ref_round state.

Definition clone_waker : M R () :=
  let% state := fetch (λ w, fetch_add w 1) in
  if 2147483647 <? get_refcount state then λ _, Abort_ else ret ().

(** [tick], up to the poll of the future: the local copy of the state if there
    is something to poll. *)
Definition tick_enter_round (state : t) : M R (t + option t) :=
  if is_closed state then
    when (is_awaiter state) ProcData.notify ;%
    drop_future ;%
    decrement ;%
    exit_span ;%
    ret (inr None)
  else
    let (flags, references) := parts state in
    let new := State.new (N.lor (N.land flags (flag_not SCHEDULED)) RUNNING) references in
    let% r := cas state new in
    match r with
    | Ok _ => ret (inr (Some new))
    | Err s => ret (inl s)
    end.

Definition tick_enter : M R (option t) := let% state := load in retry spins tick_enter_round state.

(** [tick] after [Poll::Ready]. *)
Definition tick_ready_round (state : t) : M R (t + ()) :=
  let (flags, references) := parts state in
  let kept := N.land flags (flag_not (N.land RUNNING SCHEDULED)) in
  let new_flags := if negb (is_handle state) then N.lor (N.lor kept COMPLETED) CLOSED
                   else N.lor kept COMPLETED in
  let% r := cas state (State.new new_flags references) in
  match r with
  | Ok _ =>
      when (negb (is_handle state) || is_closed state) (let% _ := read_output in ret ()) ;%
      when (is_awaiter state) ProcData.notify ;%
      exit_span ;%
      leave decrement
  | Err s => ret (inl s)
  end.

Definition tick_ready (state : t) (out : R) : M R () :=
  drop_future ;% write_output out ;% retry spins tick_ready_round state.

(** [tick] after [Poll::Pending]. *)
Definition tick_pending_round (state : t) : M R (t + ()) :=
  let (flags, references) := parts state in
  let flags := if is_closed state then N.land flags (flag_not (N.lor RUNNING SCHEDULED))
               else N.land flags (flag_not RUNNING) in
  let% r := cas state (State.new flags references) in
  match r with
  | Ok state =>
      leave (if is_closed state then drop_future ;% decrement
             else if is_scheduled state then schedule
             else decrement)
  | Err s => ret (inl s)
  end.

Definition tick_pending (state : t) : M R () :=
  retry spins tick_pending_round state ;% exit_span.

(** [Guard::drop]: the poll panicked. *)
Definition guard_drop_round (state : t) : M R (t + ()) :=
  if is_closed state then
    let% _ := fetch (λ w, fetch_and w (flag_not SCHEDULED)) in
    drop_future ;% leave decrement
  else
    let (flags, references) := parts state in
    let kept := N.land flags (flag_not (N.land RUNNING SCHEDULED)) in
    let% r := cas state (State.new (N.lor kept CLOSED) references) in
    match r with
    | Ok state =>
        drop_future ;%
        when (is_awaiter state) ProcData.notify ;%
        leave decrement
    | Err s => ret (inl s)
    end.

Definition guard_drop : M R () := let% state := load in retry spins guard_drop_round state.

(** [tick] unwinds: its locals are dropped, the span's guard last. *)
Definition tick_panic : M R () := guard_drop ;% exit_span.

End RawProc.
End RawProc.

Inductive handle_poll (R : Type) := HandlePending | HandleReady (o : option R).
Arguments HandlePending {R}.
Arguments HandleReady {R}.

Module ProcHandle.
Section ProcHandle.
Context {R : Type}.
Import State.

Definition cancel_round (state : t) : M R (t + ()) :=
  if intersects (get_flags state) (N.lor COMPLETED CLOSED) then ret (inr ())
  else
    let (flags, references) := parts state in
    let new := if intersects flags (N.lor SCHEDULED RUNNING)
               then State.new (N.lor (N.lor flags SCHEDULED) CLOSED) (references + 1)
               else State.new (N.lor flags CLOSED) references in
    let% r := cas state new in
    match r with
    | Ok _ =>
        when (negb (intersects (get_flags state) (N.lor SCHEDULED RUNNING))) RawProc.schedule ;%
        leave (when (is_awaiter state) ProcData.notify)
    | Err s => ret (inl s)
    end.

Definition cancel : M R () := let% state := load in retry spins cancel_round state.

(** [poll] for a task with the waker [cx]. *)
Definition take_round (cx : nat) (state : t) : M R (t + handle_poll R) :=
  let (flags, references) := parts state in
  let% r := cas state (State.new (N.lor flags CLOSED) references) in
  match r with
  | Ok _ =>
      when (is_awaiter state) (ProcData.notify_unless cx) ;%
      let% o := read_output in
      ret (inr (HandleReady (Some o)))
  | Err s => ret (inl s)
  end.

Definition poll_round (cx : nat) (state : t) : M R (t + handle_poll R) :=
  if is_closed state then ProcData.notify_unless cx ;% ret (inr (HandleReady None))
  else if negb (is_completed state) then
    let% _ := ProcData.swap_awaiter (Some cx) in
    let% state := load in
    if is_closed state then ProcData.notify_unless cx ;% ret (inr (HandleReady None))
    else if negb (is_completed state) then ret (inr HandlePending)
    else take_round cx state
  else take_round cx state.

Definition poll (cx : nat) : M R (handle_poll R) :=
  let% state := load in retry spins (poll_round cx) state.

Definition drop_round (state : t) : M R (t + ()) :=
  if is_completed state && negb (is_closed state) then
    let (flags, references) := parts state in
    let% r := cas state (State.new (N.lor flags CLOSED) references) in
    match r with
    | Ok _ =>
        let% _ := read_output in
        ret (inl (State.new (N.lor flags CLOSED) references))
    | Err s => ret (inl s)
    end
  else
    let new := if (get_refcount state =? 0) && negb (is_closed state)
               then State.new (N.lor SCHEDULED CLOSED) 1
               else let (flags, references) := parts state in
                    State.new (N.land flags (flag_not HANDLE)) references in
    let% r := cas state new in
    match r with
    | Ok _ =>
        leave (when (get_refcount state =? 0)
                 (if negb (is_closed state) then RawProc.schedule else RawProc.destroy))
    | Err s => ret (inl s)
    end.

Definition drop : M R () :=
  let% r := cas (State.new (N.lor SCHEDULED HANDLE) 1) (State.new SCHEDULED 1) in
  match r with
  | Ok _ => ret ()
  | Err state => retry spins drop_round state
  end.

End ProcHandle.
End ProcHandle.

(** [RecoverableHandle]: the handle of a proc whose output says whether its
    future panicked ([Err e]); [panicked]: a callback is set.  The poll returns
    what the callback is called with, if it is. *)
Module RecoverableHandle.
Section RecoverableHandle.
Context {A E : Type}.

Record t := mk { panicked : bool }.

Definition new : t := mk false.

Definition on_panic (self : t) : t := mk true.

Definition cancel (self : t) : M (result A E) () := ProcHandle.cancel.

Definition poll (self : t) (cx : nat)
  : M (result A E) (handle_poll A * t * option E) :=
  let% r := ProcHandle.poll cx in
  match r with
  | HandlePending => ret (HandlePending, self, None)
  | HandleReady None => ret (HandleReady None, self, None)
  | HandleReady (Some (Ok val)) => ret (HandleReady (Some val), self, None)
  | HandleReady (Some (Err e)) =>
      if panicked self then ret (HandleReady None, mk false, Some e)
      else ret (HandleReady None, self, None)
  end.

End RecoverableHandle.
End RecoverableHandle.

Module LightProc.
Section LightProc.
Context {R : Type}.

(** [Drop for LightProc] *)
Definition drop : M R () := ProcData.cancel ;% RawProc.drop_future ;% RawProc.decrement.

Definition cancel : M R () := ProcData.cancel.

End LightProc.
End LightProc.

(** ** Sequences of operations *)

(** What the owners of the references to a proc may do: whoever has a waker, a
    [LightProc] or the handle uses or gives it up; while the future is polled it
    has a waker to clone and to wake by reference. *)
Inductive event (R : Type) :=
| EvClone | EvWake | EvWakeByRef | EvDropWaker
| EvSchedule | EvRun | EvCancelProc | EvDropProc
| EvReady (out : R) | EvPending | EvPanic
| EvPoll (cx : nat) | EvCancel | EvDropHandle.
Arguments EvClone {R}.
Arguments EvWake {R}.
Arguments EvWakeByRef {R}.
Arguments EvDropWaker {R}.
Arguments EvSchedule {R}.
Arguments EvRun {R}.
Arguments EvCancelProc {R}.
Arguments EvDropProc {R}.
Arguments EvReady {R}.
Arguments EvPending {R}.
Arguments EvPanic {R}.
Arguments EvPoll {R}.
Arguments EvCancel {R}.
Arguments EvDropHandle {R}.

(** [wakers]: how many there are; [held]: the handle exists; [ticking]: the
    future is being polled, with the local state of [tick]; [answers]: what the
    handle's polls returned. *)
Record sys (R : Type) := mkSys {
  blk : proc R;
  wakers : nat;
  held : bool;
  ticking : option State.t;
  answers : list (handle_poll R);
}.
Arguments mkSys {R}.
Arguments blk {R}.
Arguments wakers {R}.
Arguments held {R}.
Arguments ticking {R}.
Arguments answers {R}.

(** [Unowned]: nobody has what the event needs. *)
Inductive verdict (R : Type) := Next (s : sys R) | Unowned | Aborts | Broken (f : fault) | Spins.
Arguments Next {R}.
Arguments Unowned {R}.
Arguments Aborts {R}.
Arguments Broken {R}.
Arguments Spins {R}.

Module ProcSystem.
Section ProcSystem.
Context {R : Type}.
Implicit Types (s : sys R) (e : event R).

Definition start : sys R := mkSys RawProc.allocate 0 true None [].

(** Run an operation on the block, then note what became of the references. *)
Definition after {A} (m : M R A) (p : proc R) (k : A → proc R → sys R) : verdict R :=
  match m p with
  | Ret a p' => Next (k a p')
  | Abort_ => Aborts
  | Undefined f => Broken f
  | NoFuel => Spins
  end.

(** One [LightProc] less. *)
Definition unqueue (p : proc R) : proc R :=
  mkProc (word p) (awaiter p) (future p) (output p) (pred (queue p)) (woken p) (freed p).

Definition exec e s : verdict R :=
  let p := blk s in
  match e with
  | EvClone =>
      if (0 <? wakers s)%nat || bool_decide (is_Some (ticking s))
      then after RawProc.clone_waker p (λ _ p, mkSys p (S (wakers s)) (held s) (ticking s) (answers s))
      else Unowned
  | EvWake =>
      if (0 <? wakers s)%nat
      then after RawProc.wake p (λ _ p, mkSys p (pred (wakers s)) (held s) (ticking s) (answers s))
      else Unowned
  | EvWakeByRef =>
      if (0 <? wakers s)%nat || bool_decide (is_Some (ticking s))
      then after RawProc.wake_by_ref p (λ _ p, mkSys p (wakers s) (held s) (ticking s) (answers s))
      else Unowned
  | EvDropWaker =>
      if (0 <? wakers s)%nat
      then after RawProc.decrement p (λ _ p, mkSys p (pred (wakers s)) (held s) (ticking s) (answers s))
      else Unowned
  | EvSchedule =>
      if (0 <? queue p)%nat
      then after RawProc.schedule (unqueue p)
             (λ _ p, mkSys p (wakers s) (held s) (ticking s) (answers s))
      else Unowned
  | EvRun =>
      if (0 <? queue p)%nat
      then match ticking s with
           | None => after RawProc.tick_enter (unqueue p)
                       (λ local p, mkSys p (wakers s) (held s) local (answers s))
           | Some _ => Unowned
           end
      else Unowned
  | EvCancelProc =>
      if (0 <? queue p)%nat
      then after LightProc.cancel p (λ _ p, mkSys p (wakers s) (held s) (ticking s) (answers s))
      else Unowned
  | EvDropProc =>
      if (0 <? queue p)%nat
      then after LightProc.drop (unqueue p)
             (λ _ p, mkSys p (wakers s) (held s) (ticking s) (answers s))
      else Unowned
  | EvReady out =>
      match ticking s with
      | Some local => after (RawProc.tick_ready local out) p
                        (λ _ p, mkSys p (wakers s) (held s) None (answers s))
      | None => Unowned
      end
  | EvPending =>
      match ticking s with
      | Some local => after (RawProc.tick_pending local) p
                        (λ _ p, mkSys p (wakers s) (held s) None (answers s))
      | None => Unowned
      end
  | EvPanic =>
      match ticking s with
      | Some _ => after RawProc.tick_panic p
                    (λ _ p, mkSys p (wakers s) (held s) None (answers s))
      | None => Unowned
      end
  | EvPoll cx =>
      if held s
      then after (ProcHandle.poll cx) p
             (λ a p, mkSys p (wakers s) (held s) (ticking s) (answers s ++ [a]))
      else Unowned
  | EvCancel =>
      if held s
      then after ProcHandle.cancel p (λ _ p, mkSys p (wakers s) (held s) (ticking s) (answers s))
      else Unowned
  | EvDropHandle =>
      if held s
      then after ProcHandle.drop p (λ _ p, mkSys p (wakers s) false (ticking s) (answers s))
      else Unowned
  end.

Fixpoint exec_all (l : list (event R)) s : verdict R :=
  match l with
  | [] => Next s
  | e :: l =>
      match exec e s with
      | Next s' => exec_all l s'
      | v => v
      end
  end.

End ProcSystem.
End ProcSystem.

(** ** The state word is a pair *)

Section StateLemmas.
Import State.

Lemma of_bytes_app l k : of_bytes (l ++ k) = of_bytes l + 2 ^ (8 * N.of_nat (length l)) * of_bytes k.
Proof.
  induction l as [|b l IH]; simpl length; cbn [app of_bytes]; [simpl; lia|].
  rewrite IH. replace (8 * N.of_nat (S (length l))) with (8 + 8 * N.of_nat (length l)) by lia.
  rewrite N.pow_add_r. change (2 ^ 8) with 256. lia.
Qed.

Lemma to_bytes_length n x : length (to_bytes n x) = n.
Proof. revert x. induction n as [|n IH]; intros x; simpl; [done|]. by rewrite IH. Qed.

Lemma of_to_bytes n x : x < 2 ^ (8 * N.of_nat n) → of_bytes (to_bytes n x) = x.
Proof.
  revert x. induction n as [|n IH]; intros x Hx; cbn [to_bytes of_bytes].
  { simpl in Hx. lia. }
  replace (8 * N.of_nat (S n)) with (8 + 8 * N.of_nat n) in Hx by lia.
  rewrite N.pow_add_r in Hx. change (2 ^ 8) with 256 in Hx.
  rewrite IH; [|rewrite N.shiftr_div_pow2; apply N.Div0.div_lt_upper_bound; exact Hx].
  change 255 with (N.ones 8). rewrite N.land_ones, N.shiftr_div_pow2. change (2 ^ 8) with 256.
  pose proof (N.div_mod x 256). lia.
Qed.

Lemma to_bytes_split n m x :
  to_bytes (n + m) x = to_bytes n x ++ to_bytes m (N.shiftr x (8 * N.of_nat n)).
Proof.
  revert x. induction n as [|n IH]; intros x; [by rewrite N.shiftr_0_r|]. simpl to_bytes.
  rewrite IH, N.shiftr_shiftr. simpl. do 3 f_equal. f_equal. lia.
Qed.

Lemma to_bytes_low n x y : to_bytes n (x + 2 ^ (8 * N.of_nat n) * y) = to_bytes n x.
Proof.
  revert x y. induction n as [|n IH]; intros x y; [done|]. cbn [to_bytes].
  replace (2 ^ (8 * N.of_nat (S n)) * y) with (2 ^ (8 * N.of_nat n) * y * 256).
  2: { replace (8 * N.of_nat (S n)) with (8 * N.of_nat n + 8) by lia.
       rewrite N.pow_add_r. change (2 ^ 8) with 256. lia. }
  change 255 with (N.ones 8). rewrite !N.land_ones, !N.shiftr_div_pow2. change (2 ^ 8) with 256.
  by rewrite N.Div0.mod_add, N.div_add, IH.
Qed.

Lemma into_u64_new f r : f < 2 ^ 32 → r < 2 ^ 32 → into_u64 (State.new f r) = r + 2 ^ 32 * f.
Proof.
  intros Hf Hr. unfold into_u64, State.new. cbn [bytes].
  rewrite of_bytes_app, to_bytes_length, !of_to_bytes by done. done.
Qed.

Lemma from_u64_pair f r : r < 2 ^ 32 → from_u64 (r + 2 ^ 32 * f) = State.new f r.
Proof.
  intros Hr. unfold from_u64, State.new. f_equal. rewrite (to_bytes_split 4 4).
  change (2 ^ 32) with (2 ^ (8 * N.of_nat 4)). rewrite to_bytes_low. do 2 f_equal.
  rewrite N.shiftr_div_pow2, N.mul_comm, N.div_add by done.
  rewrite N.div_small by done. done.
Qed.

Lemma new_inj f r f' r' :
  f < 2 ^ 32 → r < 2 ^ 32 → f' < 2 ^ 32 → r' < 2 ^ 32 →
  into_u64 (State.new f r) = into_u64 (State.new f' r') → f = f' ∧ r = r'.
Proof. intros ????. rewrite !into_u64_new by done. lia. Qed.

Lemma bytes_new f r :
  take 4 (bytes (State.new f r)) = to_bytes 4 r ∧ List.skipn 4 (bytes (State.new f r)) = to_bytes 4 f.
Proof. done. Qed.

Lemma get_flags_new f r : f < 2 ^ 32 → get_flags (State.new f r) = f.
Proof. intros Hf. unfold get_flags. rewrite (proj2 (bytes_new f r)). by apply of_to_bytes. Qed.

Lemma get_refcount_new f r : r < 2 ^ 32 → get_refcount (State.new f r) = r.
Proof. intros Hr. unfold get_refcount. rewrite (proj1 (bytes_new f r)). by apply of_to_bytes. Qed.

Lemma parts_new f r : f < 2 ^ 32 → r < 2 ^ 32 → parts (State.new f r) = (f, r).
Proof.
  intros Hf Hr.
  change (parts (State.new f r)) with (get_flags (State.new f r), get_refcount (State.new f r)).
  by rewrite get_flags_new, get_refcount_new.
Qed.

Lemma set_refcount_new f r k : set_refcount (State.new f r) k = State.new f k.
Proof. done. Qed.

Lemma high_bit_clear r i : r < 2 ^ 32 → 32 <= i → N.testbit r i = false.
Proof.
  intros Hr Hi. apply N.bits_above_log2. destruct (decide (r = 0)) as [->|]; [simpl; lia|].
  assert (N.log2 r < 32) by (apply N.log2_lt_pow2; lia). lia.
Qed.

(** A pair as a disjoint union of bits. *)
Lemma pair_bits f r : r < 2 ^ 32 → r + 2 ^ 32 * f = N.lor r (N.shiftl f 32).
Proof.
  intros Hr. rewrite N.shiftl_mul_pow2, (N.mul_comm (2 ^ 32)). rewrite N.add_nocarry_lxor.
  - apply N.bits_inj. intros i. rewrite N.lxor_spec, N.lor_spec.
    destruct (N.lt_ge_cases i 32) as [Hi|Hi].
    + rewrite (N.mul_pow2_bits_low f) by done. by destruct (N.testbit r i).
    + rewrite high_bit_clear by done. by destruct (N.testbit _ i).
  - apply N.bits_inj. intros i. rewrite N.land_spec, N.bits_0.
    destruct (N.lt_ge_cases i 32) as [Hi|Hi].
    + rewrite (N.mul_pow2_bits_low f) by done. apply andb_false_r.
    + by rewrite high_bit_clear.
Qed.

Lemma lor_bound n a b : a < 2 ^ n → b < 2 ^ n → N.lor a b < 2 ^ n.
Proof.
  intros Ha Hb. destruct (decide (N.lor a b = 0)) as [->|Hne]; [lia|].
  apply N.log2_lt_pow2; [lia|]. rewrite N.log2_lor.
  assert (∀ x, x ≠ 0 → x < 2 ^ n → N.log2 x < n) as Hlog by (intros; apply N.log2_lt_pow2; lia).
  destruct (decide (a = 0)) as [->|], (decide (b = 0)) as [->|]; [done|..].
  - rewrite N.max_r by (simpl; lia). auto.
  - rewrite N.max_l by (simpl; lia). auto.
  - apply N.max_lub_lt; auto.
Qed.

Lemma land_bound n a b : a < 2 ^ n → N.land a b < 2 ^ n.
Proof.
  intros Ha. rewrite <- (N.mod_small a (2 ^ n)) by done. rewrite <- N.land_ones.
  rewrite <- N.land_assoc, (N.land_comm _ b), N.land_assoc, N.land_ones.
  apply N.mod_lt. by apply N.pow_nonzero.
Qed.

Lemma fetch_or_new f r g :
  f < 2 ^ 32 → g < 2 ^ 32 → r < 2 ^ 32 → fetch_or (State.new f r) g = State.new (N.lor f g) r.
Proof.
  intros Hf Hg Hr. unfold fetch_or. rewrite into_u64_new by done.
  rewrite of_bytes_app, of_to_bytes by done. change (of_bytes (replicate 4 0)) with 0.
  change (2 ^ (8 * N.of_nat (length (replicate 4 0)))) with (2 ^ 32). rewrite N.add_0_l.
  rewrite pair_bits by done. change (2 ^ 32 * g) with (0 + 2 ^ 32 * g).
  rewrite (pair_bits g 0), N.lor_0_l by done. rewrite <- N.lor_assoc, <- N.shiftl_lor.
  rewrite <- pair_bits by done. by apply from_u64_pair.
Qed.

Lemma fetch_and_new f r g :
  f < 2 ^ 32 → g < 2 ^ 32 → r < 2 ^ 32 → fetch_and (State.new f r) g = State.new (N.land f g) r.
Proof.
  intros Hf Hg Hr. unfold fetch_and. rewrite into_u64_new by done.
  rewrite of_bytes_app, of_to_bytes by done. change (of_bytes (replicate 4 255)) with (N.ones 32).
  change (2 ^ (8 * N.of_nat (length (replicate 4 255)))) with (2 ^ 32).
  rewrite !pair_bits by done.
  assert (N.land (N.lor r (N.shiftl f 32)) (N.lor (N.ones 32) (N.shiftl g 32)) =
          N.lor r (N.shiftl (N.land f g) 32)) as ->.
  { apply N.bits_inj. intros i. rewrite !N.land_spec, !N.lor_spec.
    destruct (N.lt_ge_cases i 32) as [Hi|Hi].
    - rewrite !N.shiftl_spec_low, N.ones_spec_low by done. by rewrite !orb_false_r, andb_true_r.
    - rewrite !N.shiftl_spec_high', N.ones_spec_high by done. rewrite N.land_spec.
      by rewrite high_bit_clear. }
  rewrite <- pair_bits by done. by apply from_u64_pair.
Qed.

Lemma count_store k : k < 2 ^ 32 → of_bytes (to_bytes 4 k ++ replicate 4 0) = k.
Proof.
  intros Hk. rewrite of_bytes_app, of_to_bytes by done.
  change (of_bytes (replicate 4 0)) with 0. lia.
Qed.

Lemma fetch_add_new f r k :
  f < 2 ^ 32 → r + k < 2 ^ 32 → fetch_add (State.new f r) k = State.new f (r + k).
Proof.
  intros Hf Hr. unfold fetch_add. rewrite into_u64_new, count_store by lia.
  rewrite N.mod_small by lia. rewrite <- (from_u64_pair f (r + k)) by done. f_equal. lia.
Qed.

Lemma fetch_sub_new f r k :
  f < 2 ^ 32 → r < 2 ^ 32 → k <= r → fetch_sub (State.new f r) k = State.new f (r - k).
Proof.
  intros Hf Hr Hk. unfold fetch_sub. rewrite into_u64_new, count_store by lia.
  replace (r + 2 ^ 32 * f + (2 ^ 64 - k)) with (r - k + 2 ^ 32 * f + 1 * 2 ^ 64) by lia.
  rewrite N.Div0.mod_add, N.mod_small by lia. apply from_u64_pair. lia.
Qed.

End StateLemmas.

(** ** The invariant *)

Section Invariant.
Context {R : Type}.
Implicit Types (s : sys R) (p : proc R).

Definition fl (sc ru co cl ha aw : bool) : N :=
  N.b2n sc + 2 * N.b2n ru + 4 * N.b2n co + 8 * N.b2n cl + 16 * N.b2n ha + 32 * N.b2n aw.

Definition count (b : bool) : nat := if b then 1 else 0.

(** Where a proc is in its life. *)
Inductive phase (sc ru co cl ha : bool) (fu : bool) (out : option R) (q : nat)
  : option State.t → Prop :=
| PhTicking f r :
    f < 2 ^ 32 → r < 2 ^ 32 → ru = true → co = false → cl = false → fu = true → out = None →
    q = 0%nat → phase sc ru co cl ha fu out q (Some (State.new f r))
| PhWaiting :
    ru = false → co = false → cl = false → fu = true → out = None → q = count sc →
    phase sc ru co cl ha fu out q None
| PhClosing :
    sc = true → ru = false → co = false → cl = true → fu = true → out = None → q = 1%nat →
    phase sc ru co cl ha fu out q None
| PhClosed :
    cl = true → fu = false → out = None → q = 0%nat → phase sc ru co cl ha fu out q None
| PhCompleted o :
    co = true → cl = false → ha = true → fu = false → out = Some o → q = 0%nat →
    phase sc ru co cl ha fu out q None.

Inductive inv : sys R → Prop :=
| InvFreed p ans :
    freed p = true → queue p = 0%nat → inv (mkSys p 0 false None ans)
| InvAlive f sc ru co cl aw r aws fu out q wo n ha tick ans :
    f = fl sc ru co cl ha aw →
    (ha = true → aw = bool_decide (is_Some aws)) →
    r = N.of_nat n + N.of_nat q + N.b2n (bool_decide (is_Some tick)) →
    N.of_nat n <= 2147483648 →
    (ha = false → r ≠ 0) →
    phase sc ru co cl ha fu out q tick →
    inv (mkSys (mkProc (State.new f r) aws fu out q wo false) n ha tick ans).

End Invariant.


(** *** Evaluating operations *)

Section Wp.
Context {R : Type}.

(** [m] run on [p] returns in a state that satisfies [Q], or has one of the
    [faults]. *)
Definition wp {A} (faults : fault → Prop) (m : M R A) (p : proc R) (Q : A → proc R → Prop) : Prop :=
  match m p with
  | Ret a p' => Q a p'
  | Undefined f => faults f
  | Abort_ | NoFuel => False
  end.

(** No faults, and only that of leaving the span late. *)
Definition none (_ : fault) : Prop := False.
Definition late_span (f : fault) : Prop := f = LateSpan.

Context {F : fault → Prop}.

Lemma wp_done {A} (a : A) p Q : Q a p → wp F (ret a) p Q.
Proof. done. Qed.

Lemma wp_intro {A} (m : M R A) p a p' (Q : A → proc R → Prop) : m p = Ret a p' → Q a p' → wp F m p Q.
Proof. unfold wp. by intros ->. Qed.

Lemma wp_fault {A} (m : M R A) p f (Q : A → proc R → Prop) : m p = Undefined f → F f → wp F m p Q.
Proof. unfold wp. by intros ->. Qed.

Lemma wp_then {A B} (m : M R A) (k : A → M R B) p Q :
  wp F m p (λ a p', wp F (k a) p' Q) → wp F (bind m k) p Q.
Proof. unfold wp, bind. by destruct (m p). Qed.

Lemma wp_retry {S A} n (round : S → M R (S + A)) st p Q :
  wp F (round st) p (λ x p', match x with
                             | inl st' => wp F (retry n round st') p' Q
                             | inr a => Q a p'
                             end) →
  wp F (retry (Datatypes.S n) round st) p Q.
Proof.
  intros Hw. cbn [retry]. apply wp_then. unfold wp in *. destruct (round st p) as [[] | | |]; done.
Qed.

Lemma wp_leave {S A} (m : M R A) p Q : wp F m p (λ a p', Q (inr a) p') → wp F (leave (S := S) m) p Q.
Proof. intros Hw. apply wp_then. exact Hw. Qed.

Lemma wp_when (b : bool) (m : M R ()) p Q :
  (if b then wp F m p Q else Q () p) → wp F (when b m) p Q.
Proof. by destruct b. Qed.

(** Accesses to a block that is there. *)
Lemma wp_guarded {A} (m : M R A) p Q : freed p = false → wp F m p Q → wp F (guarded m) p Q.
Proof. unfold wp, guarded, access. by intros ->. Qed.

Lemma wp_cas p current new Q :
  freed p = false →
  (State.into_u64 (word p) = State.into_u64 current → Q (Ok (word p)) (set_word new p)) →
  (State.into_u64 (word p) ≠ State.into_u64 current → Q (Err (word p)) (set_word (word p) p)) →
  wp F (cas current new) p Q.
Proof.
  intros Hf Ho He. apply wp_guarded; [done|]. unfold wp, State.compare_exchange.
  case_decide; auto.
Qed.

Lemma wp_cas_same p current new Q :
  freed p = false → word p = current → Q (Ok current) (set_word new p) → wp F (cas current new) p Q.
Proof. intros Hf <- HQ. apply wp_cas; [done|done|]. intros Hn. by destruct Hn. Qed.

(** An event goes well: it is not for the taking, or it leaves a good state, but
    for the faults. *)
Definition good (P : sys R → Prop) (v : verdict R) : Prop :=
  match v with
  | Next s => P s
  | Unowned | Aborts => True
  | Broken f => F f
  | Spins => False
  end.

Lemma good_after {A} (m : M R A) p k P :
  wp F m p (λ a p', P (k a p')) → good P (ProcSystem.after m p k).
Proof. unfold wp, ProcSystem.after. by destruct (m p). Qed.

Lemma after_cases {A} (m : M R A) p k P :
  wp F m p (λ a p', P (k a p')) →
  (∃ s, ProcSystem.after m p k = Next s ∧ P s) ∨ ∃ f, ProcSystem.after m p k = Broken f ∧ F f.
Proof. unfold wp, ProcSystem.after. destruct (m p); naive_solver. Qed.

(** Only cloning a waker may abort. *)
Lemma good_clone f r aws fu out q wo k P :
  f < 2 ^ 32 → r + 1 < 2 ^ 32 →
  (r <= 2147483647 → P (k () (mkProc (State.new f (r + 1)) aws fu out q wo false))) →
  good P (ProcSystem.after RawProc.clone_waker (mkProc (State.new f r) aws fu out q wo false) k).
Proof.
  intros Hf Hr HP. unfold ProcSystem.after, RawProc.clone_waker, bind, fetch, guarded, access, set_word.
  cbn [freed word awaiter future output queue woken].
  rewrite get_refcount_new, fetch_add_new by lia.
  destruct (2147483647 <? r) eqn:Hlt; [done|]. apply N.ltb_ge in Hlt. by apply HP.
Qed.

End Wp.

Arguments good {R} F P v.

Lemma after_next {R A} (m : M R A) p k P :
  wp none m p (λ a p', P (k a p')) → ∃ s, ProcSystem.after m p k = Next s ∧ P s.
Proof. intros [?|(f & _ & [])]%after_cases. done. Qed.

Lemma after_late {R A} (m : M R A) p k P :
  wp late_span m p (λ a p', P (k a p')) →
  (∃ s, ProcSystem.after m p k = Next s ∧ P s) ∨ ProcSystem.after m p k = Broken LateSpan.
Proof. intros [?|(f & Hb & ->)]%after_cases; [by left|by right]. Qed.

#[local] Arguments State.new : simpl never.
#[local] Arguments State.get_flags : simpl never.
#[local] Arguments State.get_refcount : simpl never.
#[local] Arguments State.set_refcount : simpl never.
#[local] Arguments State.parts : simpl never.
#[local] Arguments State.fetch_or : simpl never.
#[local] Arguments State.fetch_and : simpl never.
#[local] Arguments State.fetch_add : simpl never.
#[local] Arguments State.fetch_sub : simpl never.
#[local] Arguments State.into_u64 : simpl never.
#[local] Arguments wp : simpl never.
#[local] Arguments good : simpl never.
#[local] Arguments ProcSystem.after : simpl never.
#[local] Arguments retry : simpl never.
#[local] Arguments leave : simpl never.
#[local] Arguments when : simpl never.
#[local] Arguments bind : simpl never.
#[local] Arguments cas : simpl never.
#[local] Arguments fl : simpl never.
#[local] Arguments N.add : simpl never.
#[local] Arguments N.sub : simpl never.
#[local] Arguments N.of_nat : simpl never.

Ltac bound := first [done | lia].

(** Compute with flags that are known. *)
Ltac eval_state :=
  cbv beta;
  repeat first
    [ rewrite parts_new by bound
    | rewrite get_flags_new by bound
    | rewrite get_refcount_new by bound
    | rewrite set_refcount_new
    | rewrite fetch_or_new by bound
    | rewrite fetch_and_new by bound
    | rewrite fetch_add_new by bound
    | rewrite fetch_sub_new by bound
    | progress unfold State.is_awaiter, State.is_closed, State.is_locked, State.is_scheduled,
        State.is_completed, State.is_handle, State.is_running
    | progress simpl ].

Ltac head_of t := lazymatch t with ?f _ => head_of f | _ => t end.

Ltac prim := eapply wp_intro; [reflexivity|]; unfold set_word.

Ltac wp_step :=
  lazymatch goal with
  | |- wp _ (retry spins _ _) _ _ => change spins with 2%nat; apply wp_retry
  | |- wp _ (bind _ _) _ _ => apply wp_then
  | |- wp _ (ret _) _ _ => apply wp_done
  | |- wp _ (retry (S _) _ _) _ _ => apply wp_retry
  | |- wp _ (leave _) _ _ => apply wp_leave
  | |- wp _ (when _ _) _ _ => apply wp_when
  | |- wp _ (cas (State.new ?f ?r) _) (mkProc (State.new ?f ?r) _ _ _ _ _ _) _ =>
      eapply wp_cas_same; [reflexivity|reflexivity|]; unfold set_word
  | |- wp _ (cas _ _) _ _ =>
      eapply wp_cas; [reflexivity| |]; unfold set_word; simpl; intros Hcas;
      [apply new_inj in Hcas as [? ?]; [try discriminate|bound..]|clear Hcas]
  | |- wp _ (if ?b then _ else _) _ _ => let Hb := fresh "Hb" in destruct b eqn:Hb
  | |- if ?b then _ else _ => let Hb := fresh "Hb" in destruct b eqn:Hb
  | |- wp _ (match ?o with Some _ => _ | None => _ end) _ _ => destruct o
  | |- wp _ ?m _ _ =>
      let h := head_of m in
      lazymatch h with
      | @load => prim
      | @fetch => prim
      | @replace_awaiter => prim
      | @wake_other => prim
      | @write_output => prim
      | @read_output => prim
      | @exit_span => first [prim | eapply wp_fault; [reflexivity|]]
      | @RawProc.schedule => prim
      | @RawProc.drop_future => prim
      | @RawProc.destroy => prim
      | _ => unfold h at 1
      end
  end; eval_state.

(** What the conditions met on the way say. *)
Ltac use_conditions :=
  repeat match goal with
  | Hb : _ && _ = true |- _ => apply andb_prop in Hb as [? ?]
  | Hb : _ && true = false |- _ => rewrite andb_true_r in Hb
  | Hb : _ && false = false |- _ => clear Hb
  | Hb : (_ =? _) = true |- _ => apply N.eqb_eq in Hb
  | Hb : (_ =? _) = false |- _ => apply N.eqb_neq in Hb
  | Hb : (_ <? _) = false |- _ => apply N.ltb_ge in Hb
  | Hb : false = true |- _ => discriminate Hb
  | Hb : true = false |- _ => discriminate Hb
  | Hb : false = true → _ |- _ => clear Hb
  | Hb : true = false → _ |- _ => clear Hb
  | Hb : ?x = ?x → _ |- _ => specialize (Hb eq_refl)
  end.

Ltac solve_phase :=
  first
    [ eapply PhTicking; first [reflexivity | eassumption | bound]
    | apply PhWaiting; reflexivity
    | apply PhClosing; reflexivity
    | apply PhClosed; reflexivity
    | eapply PhCompleted; reflexivity ].

Lemma inv_freed {R} (p : proc R) n ha tick ans :
  freed p = true → queue p = 0%nat → n = 0%nat → ha = false → tick = None →
  inv (mkSys p n ha tick ans).
Proof. intros ?? -> -> ->. by constructor. Qed.

Ltac solve_inv :=
  use_conditions;
  lazymatch goal with
  | |- _ LateSpan => first [assumption | reflexivity | exfalso; lia]
  | |- inv (mkSys (mkProc (State.new ?F _) _ _ _ _ _ false) _ _ _ _) =>
      let sc := eval vm_compute in (N.testbit F 0) in
      let ru := eval vm_compute in (N.testbit F 1) in
      let co := eval vm_compute in (N.testbit F 2) in
      let cl := eval vm_compute in (N.testbit F 3) in
      let aw := eval vm_compute in (N.testbit F 5) in
      first
        [ exfalso; lia
        | apply (InvAlive F sc ru co cl aw);
          [reflexivity|intros; first [reflexivity|discriminate]|simpl; lia|simpl; lia
          |intros; first [discriminate|lia]|solve_phase] ]
  | |- inv (mkSys (mkProc _ _ _ _ _ _ true) _ _ _ _) =>
      first [ apply inv_freed; first [reflexivity|lia] | exfalso; lia ]
  end.

Ltac know_flags :=
  repeat match goal with
  | |- context [fl ?a ?b ?c ?d ?e ?f] =>
      let v := eval vm_compute in (fl a b c d e f) in change (fl a b c d e f) with v
  end.

(** All proc states, with their flags known. *)
Ltac cases_inv Hs :=
  inversion Hs; subst; clear Hs; [|
    match goal with Hp : phase _ _ _ _ _ _ _ _ _ |- _ => inversion Hp; subst; clear Hp end;
    repeat match goal with b : bool |- _ => destruct b end;
    match goal with aws : option nat |- _ => destruct aws end; simpl in *;
    try match goal with Ha : true = true → _ = _ |- _ => specialize (Ha eq_refl); discriminate Ha end;
    know_flags ].

Ltac freed_case := simpl; try match goal with Hq : queue _ = 0%nat |- _ => rewrite Hq end; done.

Ltac run_event :=
  simpl;
  lazymatch goal with
  | |- good _ _ Unowned => exact I
  | |- good _ _ (ProcSystem.after _ _ _) =>
      apply good_after; unfold ProcSystem.unqueue; simpl; repeat wp_step; solve_inv
  end.

(** [tick] goes on with the state it finds when its local copy is stale. *)
Section Stale.
Context {R : Type} {F : fault → Prop}.
Implicit Types (p : proc R).

Lemma set_word_same p : set_word (word p) p = p.
Proof. by destruct p. Qed.

Lemma tick_ready_stale st p Q :
  freed p = false → State.into_u64 (word p) ≠ State.into_u64 st →
  Q (inl (word p)) p → wp F (RawProc.tick_ready_round st) p Q.
Proof.
  intros Hf Hne HQ. unfold RawProc.tick_ready_round. destruct (State.parts st).
  apply wp_then, wp_cas; [done|done|]. intros _. rewrite set_word_same. by apply wp_done.
Qed.

Lemma tick_pending_stale st p Q :
  freed p = false → State.into_u64 (word p) ≠ State.into_u64 st →
  Q (inl (word p)) p → wp F (RawProc.tick_pending_round st) p Q.
Proof.
  intros Hf Hne HQ. unfold RawProc.tick_pending_round. destruct (State.parts st).
  apply wp_then, wp_cas; [done|done|]. intros _. rewrite set_word_same. by apply wp_done.
Qed.

(** So the local copy does not matter. *)
Lemma retry_settled (round : State.t → M R (State.t + ())) f r f' r' p Q :
  (∀ st Q, State.into_u64 (word p) ≠ State.into_u64 st → Q (inl (word p)) p → wp F (round st) p Q) →
  f < 2 ^ 32 → r < 2 ^ 32 → f' < 2 ^ 32 → r' < 2 ^ 32 → word p = State.new f r →
  wp F (retry 1 round (State.new f r)) p Q → wp F (retry 2 round (State.new f' r')) p Q.
Proof.
  intros Hstale Hf Hr Hf' Hr' Hw Hq. apply wp_retry.
  destruct (decide (State.into_u64 (word p) = State.into_u64 (State.new f' r'))) as [He|He].
  - rewrite Hw in He. apply new_inj in He as [-> ->]; [|done..].
    unfold wp, retry in Hq. unfold wp. unfold bind in Hq.
    destruct (round _ p) as [[?|?]?| | |]; done.
  - apply Hstale; [done|]. by rewrite Hw.
Qed.

End Stale.

(** ** Every event keeps the invariant *)

Section Events.
Context {R : Type} (F : fault → Prop).
Implicit Types (s : sys R).

Lemma exec_wake s : inv s → good F inv (ProcSystem.exec EvWake s).
Proof. intros Hs. cases_inv Hs; [done|..]; (destruct n as [|n]; run_event). Qed.

Lemma exec_drop_waker s : inv s → good F inv (ProcSystem.exec EvDropWaker s).
Proof. intros Hs. cases_inv Hs; [done|..]; (destruct n as [|n]; run_event). Qed.

Lemma exec_clone s : inv s → good F inv (ProcSystem.exec EvClone s).
Proof.
  intros Hs. cases_inv Hs; [freed_case|..]; destruct n as [|n]; simpl;
    try exact I; (apply good_clone; [bound..|]; intros; solve_inv).
Qed.

Lemma exec_wake_by_ref s : inv s → good F inv (ProcSystem.exec EvWakeByRef s).
Proof.
  intros Hs. cases_inv Hs; [done|..]; destruct n as [|n]; run_event.
Qed.

Lemma exec_schedule s : inv s → good F inv (ProcSystem.exec EvSchedule s).
Proof. intros Hs. cases_inv Hs; [freed_case|..]; run_event. Qed.

Lemma exec_run s : (held s = false → F LateSpan) → inv s → good F inv (ProcSystem.exec EvRun s).
Proof. intros Hsp Hs. cases_inv Hs; [freed_case|..]; run_event. Qed.

Lemma exec_cancel_proc s : inv s → good F inv (ProcSystem.exec EvCancelProc s).
Proof. intros Hs. cases_inv Hs; [freed_case|..]; run_event. Qed.

Lemma exec_drop_proc s : inv s → good F inv (ProcSystem.exec EvDropProc s).
Proof. intros Hs. cases_inv Hs; [freed_case|..]; run_event. Qed.

Lemma exec_panic s : (held s = false → F LateSpan) → inv s → good F inv (ProcSystem.exec EvPanic s).
Proof. intros Hsp Hs. cases_inv Hs; [freed_case|..]; run_event. Qed.

Lemma exec_poll cx s : inv s → good F inv (ProcSystem.exec (EvPoll cx) s).
Proof. intros Hs. cases_inv Hs; [freed_case|..]; run_event. Qed.

Lemma exec_pending s : (held s = false → F LateSpan) → inv s → good F inv (ProcSystem.exec EvPending s).
Proof.
  intros Hsp Hs. cases_inv Hs; [freed_case|..]; try exact I; apply good_after, wp_then;
    (eapply retry_settled;
      [intros; by apply tick_pending_stale|..|reflexivity|]; [bound..|]; repeat wp_step; solve_inv).
Qed.

Lemma exec_ready out s : inv s → good F inv (ProcSystem.exec (EvReady out) s).
Proof.
  intros Hs. cases_inv Hs; [freed_case|..]; try exact I; apply good_after;
    do 5 wp_step; change spins with 2%nat;
    (eapply retry_settled;
      [intros; by apply tick_ready_stale|..|reflexivity|]; [bound..|]; repeat wp_step; solve_inv).
Qed.

Lemma exec_drop_handle s : inv s → good F inv (ProcSystem.exec EvDropHandle s).
Proof. intros Hs. cases_inv Hs; [freed_case|..]; run_event. Qed.

Lemma exec_inv e s :
  e ≠ EvCancel → (held s = false → F LateSpan) → inv s → good F inv (ProcSystem.exec e s).
Proof.
  intros He Hsp Hs. destruct e; try done.
  - by apply exec_clone.
  - by apply exec_wake.
  - by apply exec_wake_by_ref.
  - by apply exec_drop_waker.
  - by apply exec_schedule.
  - by apply exec_run.
  - by apply exec_cancel_proc.
  - by apply exec_drop_proc.
  - by apply exec_ready.
  - by apply exec_pending.
  - by apply exec_panic.
  - by apply exec_poll.
  - by apply exec_drop_handle.
Qed.

Lemma start_inv : inv (ProcSystem.start (R := R)).
Proof.
  unfold ProcSystem.start, RawProc.allocate. apply (InvAlive _ true false false false false);
    [reflexivity|reflexivity|reflexivity|done|done|]. by apply PhWaiting.
Qed.

End Events.

Section Reached.
Context {R : Type}.
Implicit Types (s : sys R).

Lemma exec_all_inv l s : EvCancel ∉ l → inv s → good late_span inv (ProcSystem.exec_all l s).
Proof.
  revert s. induction l as [|e l IH]; intros s Hl Hs; [done|].
  apply not_elem_of_cons in Hl as [He Hl]. pose proof (exec_inv late_span e s (not_eq_sym He) (λ _, eq_refl) Hs) as Hg.
  cbn [ProcSystem.exec_all]. destruct (ProcSystem.exec e s); try done. by apply IH.
Qed.

Lemma proc_reached_inv l s : EvCancel ∉ l → ProcSystem.exec_all l ProcSystem.start = Next s → inv s.
Proof. intros Hl Hs. pose proof (exec_all_inv l _ Hl start_inv) as Hg. by rewrite Hs in Hg. Qed.

(** A poll that returns [Pending] hands a proc woken meanwhile back. *)
Lemma pending_reschedules r aws wo n ha f' r' ans aw :
  r < 2 ^ 32 → f' < 2 ^ 32 → r' < 2 ^ 32 →
  ∃ s, ProcSystem.exec EvPending
      (mkSys (mkProc (State.new (fl true true false false ha aw) r) aws true (None : option R) 0 wo false)
         n ha (Some (State.new f' r')) ans) = Next s ∧
    queue (blk s) = 1%nat.
Proof.
  intros Hr Hf' Hr'. simpl. apply after_next, wp_then.
  destruct ha, aw; know_flags;
    (eapply retry_settled;
      [intros; by apply tick_pending_stale|..|reflexivity|]; [bound..|]; repeat wp_step; reflexivity).
Qed.

End Reached.

Ltac pending_again :=
  first [ apply (pending_reschedules _ _ _ _ true _ _ _ true); bound
        | apply (pending_reschedules _ _ _ _ true _ _ _ false); bound
        | apply (pending_reschedules _ _ _ _ false _ _ _ true); bound
        | apply (pending_reschedules _ _ _ _ false _ _ _ false); bound ].

(** ** Properties *)

(** the state word is a pair of flags and a reference count: both come
    back out, and each atomic update changes its half and leaves the other
    alone, as long as the count neither overflows nor goes below zero. *)
Theorem state_word_is_a_pair f r g k :
  f < 2 ^ 32 → r < 2 ^ 32 → g < 2 ^ 32 → r + k < 2 ^ 32 →
  State.parts (State.new f r) = (f, r) ∧
  State.parts (State.fetch_or (State.new f r) g) = (N.lor f g, r) ∧
  State.parts (State.fetch_and (State.new f r) g) = (N.land f g, r) ∧
  State.parts (State.fetch_add (State.new f r) k) = (f, r + k) ∧
  (k <= r → State.parts (State.fetch_sub (State.new f r) k) = (f, r - k)) ∧
  State.parts (State.set_refcount (State.new f r) k) = (f, k).
Proof.
  intros Hf Hr Hg Hk. rewrite fetch_or_new, fetch_and_new, fetch_add_new, set_refcount_new by done.
  split_and!; try (by apply parts_new; lia).
  - apply parts_new; [|done]. by apply lor_bound.
  - apply parts_new; [|done]. by apply land_bound.
  - intros Hle. rewrite fetch_sub_new by done. apply parts_new; lia.
Qed.

Section Properties.
Context {R : Type}.
Implicit Types (s : sys R) (l : list (event R)).

(** How many references the word has to count. *)
Definition references s : N :=
  N.of_nat (wakers s) + N.of_nat (queue (blk s)) + N.b2n (bool_decide (is_Some (ticking s))).

Lemma inv_count s : inv s → freed (blk s) = false → State.get_refcount (word (blk s)) = references s.
Proof.
  intros [p ans Hf Hq|f sc ru co cl aw r aws fu out q wo n ha tick ans Hfl _ Hr Hn Hha Hph]; unfold references;
    cbn [blk freed word queue wakers ticking]; [by rewrite Hf|]. intros _. rewrite <- Hr.
  apply get_refcount_new.
  assert (q <= 1)%nat by (inversion Hph; subst; [lia|destruct sc; simpl; lia|lia..]).
  rewrite Hr. destruct (bool_decide _); simpl; lia.
Qed.

Lemma inv_freed_iff s : inv s → freed (blk s) = true ↔ references s = 0 ∧ held s = false.
Proof.
  intros [p ans Hf Hq|f sc ru co cl aw r aws fu out q wo n ha tick ans Hfl _ Hr Hn Hha Hph]; unfold references;
    cbn [blk freed word queue wakers ticking held]; [by rewrite Hf, Hq|]. rewrite <- Hr.
  split; [done|]. intros [Hr0 ->]. by destruct (Hha eq_refl).
Qed.

(** whatever the owners of wakers, of [LightProc]s and of the handle do,
    one operation after the other but anything during the poll of the future,
    as long as the handle is not used to cancel, no operation touches freed
    memory, drops the future twice or reads an output that is not there, but for
    the tracing span that [tick] may leave late, and never while the handle is
    there; none loops, and the count in the state word is exact: the
    block is freed with its last reference and not before. *)
Theorem proc_memory_safe l :
  EvCancel ∉ l →
  (∀ f, ProcSystem.exec_all l ProcSystem.start = Broken f → f = LateSpan) ∧
  ProcSystem.exec_all l ProcSystem.start ≠ Spins ∧
  ∀ s, ProcSystem.exec_all l ProcSystem.start = Next s →
    (freed (blk s) = true ↔ references s = 0 ∧ held s = false) ∧
    (freed (blk s) = false → State.get_refcount (word (blk s)) = references s) ∧
    (held s = true → ∀ e f, e ≠ EvCancel → ProcSystem.exec e s ≠ Broken f).
Proof.
  intros Hl. pose proof (exec_all_inv l _ Hl start_inv) as Hg.
  destruct (ProcSystem.exec_all l ProcSystem.start) as [s| | |f|]; split_and!; try done.
  2: { by intros ? [= <-]. }
  intros ? [= <-]. change (inv s) in Hg. split_and!.
  - by apply inv_freed_iff.
  - by apply inv_count.
  - intros Hh e f He Hb. pose proof (exec_inv none e s He) as Hn. rewrite Hb, Hh in Hn. by apply Hn.
Qed.

Lemma wake_keeps_proc s :
  inv s → (0 < wakers s)%nat →
  State.is_completed (word (blk s)) = false → State.is_closed (word (blk s)) = false →
  ∃ s', ProcSystem.exec EvWake s = Next s' ∧
    (ticking s' = None → queue (blk s') = 1%nat) ∧
    (is_Some (ticking s') →
      ∃ s'', ProcSystem.exec EvPending s' = Next s'' ∧ queue (blk s'') = 1%nat).
Proof.
  intros Hs Hw Hco Hcl.
  unfold State.is_completed in Hco. unfold State.is_closed in Hcl. revert Hw Hco Hcl.
  cases_inv Hs; [simpl; lia|..]; intros Hw Hco Hcl; rewrite get_flags_new in Hco, Hcl by bound;
    try discriminate; (destruct n as [|n]; [lia|]); apply after_next; repeat wp_step; use_conditions;
    first [ exfalso; lia | split; [done|by intros [? [=]]] | split; [done|intros _]; pending_again ].
Qed.

(** Marked as scheduled. *)
Definition marked s : Prop := State.is_scheduled (word (blk s)) = true.

(** The proc will be polled: it is with the executor, or it is being polled and
    marked, and will be handed back. *)
Definition due s : Prop := queue (blk s) = 1%nat ∨ is_Some (ticking s) ∧ marked s.

Ltac solve_marked :=
  unfold marked; simpl; unfold State.is_scheduled; rewrite get_flags_new by bound; reflexivity.

Lemma wake_makes_due s :
  inv s → (0 < wakers s)%nat →
  State.is_completed (word (blk s)) = false → State.is_closed (word (blk s)) = false →
  ∃ s', ProcSystem.exec EvWake s = Next s' ∧ due s'.
Proof.
  intros Hs Hw Hco Hcl.
  unfold State.is_completed in Hco. unfold State.is_closed in Hcl. revert Hw Hco Hcl.
  cases_inv Hs; [simpl; lia|..]; intros Hw Hco Hcl; rewrite get_flags_new in Hco, Hcl by bound;
    try discriminate; (destruct n as [|n]; [lia|]); apply after_next; repeat wp_step; use_conditions;
    first [ exfalso; lia | by left | right; split; [by eexists|solve_marked] ].
Qed.

(** The owners leave the mark of a proc that is being polled. *)
Lemma owners_keep_mark e s :
  match e with
  | EvClone | EvWake | EvWakeByRef | EvDropWaker | EvPoll _ | EvDropHandle => True
  | _ => False
  end →
  inv s → is_Some (ticking s) → marked s → good late_span marked (ProcSystem.exec e s).
Proof.
  intros He Hs Ht Hm. unfold marked, State.is_scheduled in Hm. revert Ht Hm.
  cases_inv Hs; [by intros [? [=]]|..]; intros Ht Hm; try (by destruct Ht as [? [=]]);
    rewrite get_flags_new in Hm by bound; try discriminate Hm; clear Ht Hm;
    destruct e; try destruct He;
    (destruct n as [|n]; simpl;
     lazymatch goal with
     | |- good _ _ Unowned => exact I
     | |- good _ _ (ProcSystem.after RawProc.clone_waker _ _) =>
         apply good_clone; [bound..|]; intros _; solve_marked
     | |- good _ _ (ProcSystem.after _ _ _) =>
         apply good_after; repeat wp_step; use_conditions; first [exfalso; lia | solve_marked]
     end).
Qed.

Lemma marked_handed_back s :
  inv s → is_Some (ticking s) → marked s →
  ∃ s', ProcSystem.exec EvPending s = Next s' ∧ queue (blk s') = 1%nat.
Proof.
  intros Hs Ht Hm. unfold marked, State.is_scheduled in Hm. revert Ht Hm.
  cases_inv Hs; [by intros [? [=]]|..]; intros Ht Hm; try (by destruct Ht as [? [=]]);
    rewrite get_flags_new in Hm by bound; try discriminate Hm; pending_again.
Qed.

(** a wake-up is not lost: waking a proc that is neither completed
    nor closed leaves it with the executor, or, if its future is being polled
    just then, it goes back to the executor when the poll returns
    [Pending]. *)
Theorem wakeup_not_lost l s :
  EvCancel ∉ l → ProcSystem.exec_all l ProcSystem.start = Next s → (0 < wakers s)%nat →
  State.is_completed (word (blk s)) = false → State.is_closed (word (blk s)) = false →
  ∃ s', ProcSystem.exec EvWake s = Next s' ∧
    (ticking s' = None → queue (blk s') = 1%nat) ∧
    (is_Some (ticking s') →
      ∃ s'', ProcSystem.exec EvPending s' = Next s'' ∧ queue (blk s'') = 1%nat).
Proof. intros Hl Hs. apply wake_keeps_proc. by eapply proc_reached_inv. Qed.

(** C21: when the poll of the future returns its output while the handle is
    there, whatever operations were carried out before, one after the other (but
    for cancelling through the handle), the task that awaits the handle is woken; the handle's next poll gives the
    output, once: a poll right after it gives nothing. *)
Theorem handle_gets_output l s out cx cx' :
  EvCancel ∉ l → ProcSystem.exec_all l ProcSystem.start = Next s →
  is_Some (ticking s) → held s = true →
  ∃ s1, ProcSystem.exec (EvReady out) s = Next s1 ∧
    woken (blk s1) = woken (blk s) ++ option_list (awaiter (blk s)) ∧
    ∃ s2, ProcSystem.exec (EvPoll cx) s1 = Next s2 ∧
    ∃ s3, ProcSystem.exec (EvPoll cx') s2 = Next s3 ∧
      answers s3 = answers s ++ [HandleReady (Some out); HandleReady None].
Proof.
  intros Hl Hs Ht Hh. apply proc_reached_inv in Hs; [|done]. revert Ht Hh.
  cases_inv Hs; [by intros [? [=]]|..]; intros Ht Hh; try (by destruct Ht as [? [=]]); try discriminate;
    apply after_next; do 5 wp_step; change spins with 2%nat;
    (eapply retry_settled;
      [intros; by apply tick_ready_stale|..|reflexivity|]; [bound..|]); repeat wp_step; use_conditions;
    (split; [first [reflexivity | by rewrite app_nil_r]|]); apply after_next; repeat wp_step;
    apply after_next; repeat wp_step; by rewrite <- app_assoc.
Qed.

(** cancelling through the handle while the proc waits hands the
    executor a [LightProc] that was not counted: the block is freed while a
    waker is left, and dropping that waker touches freed memory. *)
Theorem handle_cancel_use_after_free :
  ProcSystem.exec_all (R := R)
    [EvRun; EvClone; EvPending; EvCancel; EvRun; EvDropHandle; EvDropWaker] ProcSystem.start =
  Broken Misuse.
Proof. vm_compute. reflexivity. Qed.

(** [tick] leaves the span of the proc after it gave up its reference,
    except when the future returned: a proc that nobody else refers to is freed
    by then, and leaving the span touches freed memory, whether the future is
    pending, panicked, or is only dropped because the proc was closed. *)
Theorem span_left_after_free :
  Forall (λ l, ProcSystem.exec_all (R := R) l ProcSystem.start = Broken LateSpan)
    [ [EvDropHandle; EvRun; EvPending]; [EvDropHandle; EvRun; EvPanic];
      [EvCancelProc; EvDropHandle; EvRun] ].
Proof. repeat constructor. Qed.

(** the lock of the awaiter excludes nobody: a thread leaves the loop
    when it finds the lock set, no matter by whom, so of two threads that take
    turns both enter before either releases it. *)
Theorem awaiter_lock_admits_two none1 none2 :
  ∃ p1 p2 p3, ProcData.lock_round (R := R) none1 () RawProc.allocate = Ret (inl ()) p1 ∧
    ProcData.lock_round none2 () p1 = Ret (inr ()) p2 ∧
    ProcData.lock_round none1 () p2 = Ret (inr ()) p3.
Proof. destruct none1, none2; do 3 eexists; vm_compute; done. Qed.

(** the last waker of a waiting proc whose handle is gone frees the
    block with the future in it: the future is never dropped. *)
Theorem last_waker_leaks_future :
  ∃ s, ProcSystem.exec_all (R := R) [EvRun; EvClone; EvPending; EvDropHandle; EvDropWaker]
         ProcSystem.start = Next s ∧ freed (blk s) = true ∧ future (blk s) = true.
Proof. eexists. vm_compute. done. Qed.

End Properties.

(** ** Witnesses *)

Section Witnesses.

Ltac not_there :=
  intros Hin; repeat (apply elem_of_cons in Hin as [Hin|Hin]; [discriminate Hin|]);
  apply elem_of_nil in Hin; destruct Hin.

Lemma state_word_is_a_pair_witness :
  State.parts (State.fetch_or (State.new 17 3) State.CLOSED) = (25, 3) ∧
  State.parts (State.fetch_sub (State.new 17 3) 1) = (17, 2).
Proof.
  destruct (state_word_is_a_pair 17 3 State.CLOSED 1) as (_ & Hor & _ & _ & Hsub & _);
    [done|done|done|done|]. split; [exact Hor|apply Hsub; lia].
Defined.

Lemma proc_memory_safe_witness :
  ProcSystem.exec_all (R := nat) [EvRun; EvClone; EvPending; EvWake; EvRun; EvReady 7%nat; EvPoll 0]
    ProcSystem.start ≠ Broken Misuse.
Proof.
  intros Hb. destruct (proc_memory_safe (R := nat)
    [EvRun; EvClone; EvPending; EvWake; EvRun; EvReady 7%nat; EvPoll 0]) as [Hs _]; [not_there|].
  discriminate (Hs _ Hb).
Defined.

(** A proc that waits with one waker. *)
Definition waiting_proc : sys nat :=
  match ProcSystem.exec_all [EvRun; EvClone; EvPending] ProcSystem.start with
  | Next s => s
  | _ => ProcSystem.start
  end.

Lemma wakeup_not_lost_witness :
  ∃ s', ProcSystem.exec EvWake waiting_proc = Next s' ∧
    (ticking s' = None → queue (blk s') = 1%nat).
Proof.
  destruct (wakeup_not_lost [EvRun; EvClone; EvPending] waiting_proc) as (s' & He & Hq & _).
  - not_there.
  - reflexivity.
  - apply Nat.ltb_lt. reflexivity.
  - reflexivity.
  - reflexivity.
  - exists s'. split; [exact He|exact Hq].
Defined.

(** A proc whose future is being polled, awaited by the task 5. *)
Definition polled_proc : sys nat :=
  match ProcSystem.exec_all [EvPoll 5; EvRun] ProcSystem.start with
  | Next s => s
  | _ => ProcSystem.start
  end.

Lemma handle_gets_output_witness :
  ∃ s1, ProcSystem.exec (EvReady 42%nat) polled_proc = Next s1 ∧ woken (blk s1) = [5%nat].
Proof.
  destruct (handle_gets_output [EvPoll 5; EvRun] polled_proc 42%nat 5 5) as (s1 & He & Hw & _).
  - not_there.
  - reflexivity.
  - eexists. reflexivity.
  - reflexivity.
  - exists s1. split; [exact He|exact Hw].
Defined.

End Witnesses.
