(* ===== verification/ProcThreads.v ===== *)
(** * Procs shared by several threads (runtime/lightproc)

    LightProc runs each operation on a proc from beginning to end.  Here an
    operation in progress is a program counter ([pc]) with what it has in its
    local variables, and every access to the block is a step of its own:
    [Threads.step] is one step of one operation, and [Threads.exec] starts an
    operation, lets one go on, or lets a poll of the future return.  A schedule
    is any list of such moves, so all interleavings are covered, with any number
    of operations on any number of threads, and a weak compare-exchange may fail
    for no reason.  Accesses are sequentially consistent.  The schedule function is
    in the block: the closure of [schedule_local] (pool.rs) pushes the [LightProc]
    and then uses the unparker it keeps there ([Unpark]), that of
    [Executor::schedule] only pushes.

    Two accesses can come too late, when the block is gone: leaving the span at the
    end of [tick] and that use of the unparker.  They are faults of their own
    ([LateSpan], [LateUnpark]) that end an execution; everything else is shown not
    to happen.

    Not covered are cancelling through the handle, which LightProc shows to be
    wrong, and polling the handle, where the lock of the awaiter does not exclude
    anybody.  Without polls no awaiter is ever registered. *)

From S2P Require Import Prelude LightProc.

Local Open Scope N_scope.

(** ** Operations in progress *)

(** A [bool] [exit] says that the operation is [tick], which leaves the span in
    the end; [notify] that the awaiter is notified next. *)
Inductive pc (R : Type) :=
| WakeLoad | WakeLoop (state : State.t)
| WakeRefLoad | WakeRefLoop (state : State.t)
| CloneAdd | CloneCheck (state : State.t)
| Schedule (exit : bool) | Unpark (exit : bool)
| Decrement (exit : bool) | Destroy (exit : bool) | ExitSpan
| TickLoad | TickEnter (state : State.t) | Polling (state : State.t)
| ReadyDrop (state : State.t) (out : R) | ReadyWrite (state : State.t) (out : R)
| ReadyLoop (state : State.t) | ReadyTake (notify : bool) | ReadyExit
| PendingLoop (state : State.t)
| GuardLoad | GuardLoop (state : State.t) | GuardUnschedule
| DropFuture (notify exit : bool)
| CancelLoad (drop : bool) | CancelLoop (drop : bool) (state : State.t) | GiveBack
| HandleFirst | HandleLoop (state : State.t) | HandleTake (state : State.t)
| Notify (next : pc R)
| Returned.
Arguments WakeLoad {R}.
Arguments WakeLoop {R}.
Arguments WakeRefLoad {R}.
Arguments WakeRefLoop {R}.
Arguments CloneAdd {R}.
Arguments CloneCheck {R}.
Arguments Schedule {R}.
Arguments Unpark {R}.
Arguments Decrement {R}.
Arguments Destroy {R}.
Arguments ExitSpan {R}.
Arguments TickLoad {R}.
Arguments TickEnter {R}.
Arguments Polling {R}.
Arguments ReadyDrop {R}.
Arguments ReadyWrite {R}.
Arguments ReadyLoop {R}.
Arguments ReadyTake {R}.
Arguments ReadyExit {R}.
Arguments PendingLoop {R}.
Arguments GuardLoad {R}.
Arguments GuardLoop {R}.
Arguments GuardUnschedule {R}.
Arguments DropFuture {R}.
Arguments CancelLoad {R}.
Arguments CancelLoop {R}.
Arguments GiveBack {R}.
Arguments HandleFirst {R}.
Arguments HandleLoop {R}.
Arguments HandleTake {R}.
Arguments Notify {R}.
Arguments Returned {R}.

(** What a step leaves the operation with: where it goes on, or that it is over
    and its caller has a new waker. *)
Inductive next (R : Type) := At (c : pc R) | GiveWaker.
Arguments At {R}.
Arguments GiveWaker {R}.

(** What a poll of the future returns. *)
Inductive polled (R : Type) := PollReady (out : R) | PollPending | PollPanic.
Arguments PollReady {R}.
Arguments PollPending {R}.
Arguments PollPanic {R}.

(** The operations that owners may start. *)
Inductive op :=
| OpWake | OpWakeByRef | OpClone | OpDropWaker
| OpSchedule | OpRun | OpCancelProc | OpDropProc
| OpDropHandle.

(** [Begin]: start an operation; [Go]: one step of the operation [i], where a
    weak compare-exchange may fail for no reason; [Answer]: the poll that [i]
    is in returns. *)
Inductive move (R : Type) :=
| Begin (o : op)
| Go (i : nat) (spurious : bool)
| Answer (i : nat) (a : polled R).
Arguments Begin {R}.
Arguments Go {R}.
Arguments Answer {R}.

Module Threads.

(** [wakers]: how many there are that no operation has taken; [held]: the handle
    is with its owner; [ops]: all operations started; [polls]: how often a poll
    of the future began. *)
Record sys (R : Type) := mkSys {
  blk : proc R;
  wakers : nat;
  held : bool;
  ops : list (pc R);
  polls : nat;
}.
Arguments mkSys {R}.
Arguments blk {R}.
Arguments wakers {R}.
Arguments held {R}.
Arguments ops {R}.
Arguments polls {R}.

Inductive verdict (R : Type) := Next (s : sys R) | Unowned | Aborts | Broken (f : fault) | Spins.
Arguments Next {R}.
Arguments Unowned {R}.
Arguments Aborts {R}.
Arguments Broken {R}.
Arguments Spins {R}.

Section Step.
Context {R : Type}.
Import State.

(** Whether the schedule function of the proc is the closure that [schedule_local]
    makes, which unparks the worker after it has pushed the [LightProc]; that of
    [Executor::schedule] only pushes. *)
Context (local : bool).

Definition cas_weak (spurious : bool) (current new : t) : M R (result t t) :=
  if spurious then guarded (λ p, Ret (Err (word p)) p) else cas current new.

Definition goto (c : pc R) : M R (next R) := ret (At c).

(** Notify the awaiter first, if there is one. *)
Definition notified (b : bool) (c : pc R) : pc R := if b then Notify c else c.

(** What [ProcData::cancel] returns to: [LightProc::drop], or the owner of the
    [LightProc]. *)
Definition cancelled (drop : bool) : pc R := if drop then DropFuture false false else GiveBack.

(** What the schedule function has left to do when it has pushed the [LightProc]. *)
Definition pushed (exit : bool) : pc R :=
  if local then Unpark exit else if exit then ExitSpan else Returned.

Definition step (spurious : bool) (c : pc R) : M R (next R) :=
  match c with
  | WakeLoad => let% state := load in goto (WakeLoop state)
  | WakeLoop state =>
      if intersects (get_flags state) (N.lor COMPLETED CLOSED) then goto (Decrement false)
      else if is_scheduled state then
        let% r := cas_weak spurious state state in
        match r with Ok _ => goto (Decrement false) | Err s => goto (WakeLoop s) end
      else
        let (flags, references) := parts state in
        let% r := cas_weak spurious state (State.new (N.lor flags SCHEDULED) references) in
        match r with
        | Ok _ => goto (if negb (is_running state) then Schedule false else Decrement false)
        | Err s => goto (WakeLoop s)
        end
  | WakeRefLoad => let% state := load in goto (WakeRefLoop state)
  | WakeRefLoop state =>
      if intersects (get_flags state) (N.lor COMPLETED CLOSED) then goto Returned
      else if is_scheduled state then
        let% r := cas_weak spurious state state in
        match r with Ok _ => goto Returned | Err s => goto (WakeRefLoop s) end
      else
        let (flags, references) := parts state in
        let idle := negb (intersects (get_flags state) (N.lor SCHEDULED RUNNING)) in
        let new := if idle then State.new (N.lor flags SCHEDULED) (references + 1)
                   else State.new (N.lor flags SCHEDULED) references in
        let% r := cas_weak spurious state new in
        match r with
        | Ok _ => goto (if idle then Schedule false else Returned)
        | Err s => goto (WakeRefLoop s)
        end
  | CloneAdd => let% state := fetch (λ w, fetch_add w 1) in goto (CloneCheck state)
  | CloneCheck state =>
      if 2147483647 <? get_refcount state then λ _, Abort_ else ret GiveWaker
  | Schedule exit =>
      RawProc.schedule ;% goto (pushed exit)
  | Unpark exit => access LateUnpark (ret ()) ;% goto (if exit then ExitSpan else Returned)
  | Decrement exit =>
      let% new := fetch (λ w, fetch_sub w 1) in
      let new := set_refcount new (get_refcount new - 1) in
      goto (if (get_refcount new =? 0) && negb (is_handle new) then Destroy exit
            else if exit then ExitSpan else Returned)
  | Destroy exit => RawProc.destroy ;% goto (if exit then ExitSpan else Returned)
  | ExitSpan => exit_span ;% goto Returned
  | TickLoad => let% state := load in goto (TickEnter state)
  | TickEnter state =>
      if is_closed state then goto (notified (is_awaiter state) (DropFuture false true))
      else
        let (flags, references) := parts state in
        let new := State.new (N.lor (N.land flags (flag_not SCHEDULED)) RUNNING) references in
        let% r := cas_weak spurious state new in
        match r with
        | Ok _ => goto (Polling new)
        | Err s => goto (TickEnter s)
        end
  | Polling state => goto (Polling state)
  | ReadyDrop state out => RawProc.drop_future ;% goto (ReadyWrite state out)
  | ReadyWrite state out => write_output out ;% goto (ReadyLoop state)
  | ReadyLoop state =>
      let (flags, references) := parts state in
      let kept := N.land flags (flag_not (N.land RUNNING SCHEDULED)) in
      let new_flags := if negb (is_handle state) then N.lor (N.lor kept COMPLETED) CLOSED
                       else N.lor kept COMPLETED in
      let% r := cas_weak spurious state (State.new new_flags references) in
      match r with
      | Ok _ => goto (if negb (is_handle state) || is_closed state
                      then ReadyTake (is_awaiter state)
                      else notified (is_awaiter state) ReadyExit)
      | Err s => goto (ReadyLoop s)
      end
  | ReadyTake notify => let% _ := read_output in goto (notified notify ReadyExit)
  | ReadyExit => exit_span ;% goto (Decrement false)
  | PendingLoop state =>
      let (flags, references) := parts state in
      let flags := if is_closed state then N.land flags (flag_not (N.lor RUNNING SCHEDULED))
                   else N.land flags (flag_not RUNNING) in
      let% r := cas_weak spurious state (State.new flags references) in
      match r with
      | Ok state =>
          goto (if is_closed state then DropFuture false true
                else if is_scheduled state then Schedule true
                else Decrement true)
      | Err s => goto (PendingLoop s)
      end
  | GuardLoad => let% state := load in goto (GuardLoop state)
  | GuardLoop state =>
      if is_closed state then goto GuardUnschedule
      else
        let (flags, references) := parts state in
        let kept := N.land flags (flag_not (N.land RUNNING SCHEDULED)) in
        let% r := cas_weak spurious state (State.new (N.lor kept CLOSED) references) in
        match r with
        | Ok state => goto (DropFuture (is_awaiter state) true)
        | Err s => goto (GuardLoop s)
        end
  | GuardUnschedule =>
      let% _ := fetch (λ w, fetch_and w (flag_not SCHEDULED)) in goto (DropFuture false true)
  | DropFuture notify exit => RawProc.drop_future ;% goto (notified notify (Decrement exit))
  | CancelLoad drop => let% state := load in goto (CancelLoop drop state)
  | CancelLoop drop state =>
      if intersects (get_flags state) (N.lor COMPLETED CLOSED) then goto (cancelled drop)
      else
        let (flags, references) := parts state in
        let% r := cas_weak spurious state (State.new (N.lor flags CLOSED) references) in
        match r with
        | Ok _ => goto (notified (is_awaiter state) (cancelled drop))
        | Err s => goto (CancelLoop drop s)
        end
  | GiveBack => λ p, Ret (At Returned)
      (mkProc (word p) (awaiter p) (future p) (output p) (S (queue p)) (woken p) (freed p))
  | HandleFirst =>
      let% r := cas_weak spurious (State.new (N.lor SCHEDULED HANDLE) 1) (State.new SCHEDULED 1) in
      match r with Ok _ => goto Returned | Err state => goto (HandleLoop state) end
  | HandleLoop state =>
      if is_completed state && negb (is_closed state) then
        let (flags, references) := parts state in
        let% r := cas_weak spurious state (State.new (N.lor flags CLOSED) references) in
        match r with
        | Ok _ => goto (HandleTake (State.new (N.lor flags CLOSED) references))
        | Err s => goto (HandleLoop s)
        end
      else
        let new := if (get_refcount state =? 0) && negb (is_closed state)
                   then State.new (N.lor SCHEDULED CLOSED) 1
                   else let (flags, references) := parts state in
                        State.new (N.land flags (flag_not HANDLE)) references in
        let% r := cas_weak spurious state new in
        match r with
        | Ok _ => goto (if get_refcount state =? 0
                        then if negb (is_closed state) then Schedule false else Destroy false
                        else Returned)
        | Err s => goto (HandleLoop s)
        end
  | HandleTake state => let% _ := read_output in goto (HandleLoop state)
  | Notify next => ProcData.notify ;% goto next
  | Returned => goto Returned
  end.

(** *** Who may do what *)

Fixpoint total (f : pc R → N) (l : list (pc R)) : N :=
  match l with
  | [] => 0
  | c :: l => f c + total f l
  end.

(** Operations that use a waker they do not own: somebody else's, or the one the
    poll has. *)
Definition borrowing (c : pc R) : N :=
  match c with
  | WakeRefLoad | WakeRefLoop _ | CloneAdd => 1
  | _ => 0
  end.

Definition polling (c : pc R) : N := match c with Polling _ => 1 | _ => 0 end.

Definition in_progress (c : pc R) : N := match c with Returned => 0 | _ => 1 end.

(** How many operations may be in progress at a time. *)
Definition max_ops : N := 2 ^ 30.

Definition start : sys R := mkSys RawProc.allocate 0 true [] 0.

Definition push (c : pc R) (s : sys R) : verdict R :=
  if total in_progress (ops s) <? max_ops
  then Next (mkSys (blk s) (wakers s) (held s) (ops s ++ [c]) (polls s))
  else Unowned.

Definition with_wakers (n : nat) (s : sys R) : sys R := mkSys (blk s) n (held s) (ops s) (polls s).
Definition with_blk (p : proc R) (s : sys R) : sys R := mkSys p (wakers s) (held s) (ops s) (polls s).
Definition without_handle (s : sys R) : sys R := mkSys (blk s) (wakers s) false (ops s) (polls s).

(** A waker is given away: not the last one while an operation borrows it. *)
Definition may_give (s : sys R) : bool :=
  (0 <? wakers s)%nat &&
  ((1 <? wakers s)%nat || (0 <? total polling (ops s)) || (total borrowing (ops s) =? 0)).

Definition may_borrow (s : sys R) : bool := (0 <? wakers s)%nat || (0 <? total polling (ops s)).

Definition begin (o : op) (s : sys R) : verdict R :=
  let give c := if may_give s then push c (with_wakers (pred (wakers s)) s) else Unowned in
  let borrow c := if may_borrow s then push c s else Unowned in
  let take c := if (0 <? queue (blk s))%nat
                then push c (with_blk (ProcSystem.unqueue (blk s)) s) else Unowned in
  match o with
  | OpWake => give WakeLoad
  | OpDropWaker => give (Decrement false)
  | OpWakeByRef => borrow WakeRefLoad
  | OpClone => borrow CloneAdd
  | OpSchedule => take (Schedule false)
  | OpRun => take TickLoad
  | OpCancelProc => take (CancelLoad false)
  | OpDropProc => take (CancelLoad true)
  | OpDropHandle => if held s then push HandleFirst (without_handle s) else Unowned
  end.

(** The operation [i] goes on as [n] says. *)
Definition resume (i : nat) (n : next R) (p : proc R) (s : sys R) : sys R :=
  match n with
  | At c =>
      mkSys p (wakers s) (held s) (<[i := c]> (ops s))
        (match c with Polling _ => S (polls s) | _ => polls s end)
  | GiveWaker => mkSys p (S (wakers s)) (held s) (<[i := Returned]> (ops s)) (polls s)
  end.

Definition go (i : nat) (spurious : bool) (s : sys R) : verdict R :=
  match ops s !! i with
  | None | Some (Polling _) | Some Returned => Unowned
  | Some c =>
      match step spurious c (blk s) with
      | Ret n p => Next (resume i n p s)
      | Abort_ => Aborts
      | Undefined f => Broken f
      | NoFuel => Spins
      end
  end.

Definition answer (i : nat) (a : polled R) (s : sys R) : verdict R :=
  match ops s !! i with
  | Some (Polling state) =>
      if (0 <? wakers s)%nat || (total borrowing (ops s) =? 0)
      then Next (resume i (At match a with
                              | PollReady out => ReadyDrop state out
                              | PollPending => PendingLoop state
                              | PollPanic => GuardLoad
                              end) (blk s) s)
      else Unowned
  | _ => Unowned
  end.

Definition exec (m : move R) (s : sys R) : verdict R :=
  match m with
  | Begin o => begin o s
  | Go i spurious => go i spurious s
  | Answer i a => answer i a s
  end.

Fixpoint exec_all (l : list (move R)) (s : sys R) : verdict R :=
  match l with
  | [] => Next s
  | m :: l =>
      match exec m s with
      | Next s' => exec_all l s'
      | v => v
      end
  end.

End Step.
End Threads.

Section Shared.
Context (local : bool).

(** ** What operations own *)

Section Weights.
Context {R : Type}.
Import Threads.
Implicit Types (c : pc R) (l : list (pc R)).

(** The one thing everybody else must leave alone: the [LightProc] of a waiting
    proc ([SProc]), the future while it is polled, the room for the output, the
    output, or the future of a closed proc that is to be dropped. *)
Inductive stage := SProc | SPoll | SWrite | SReady | STake | SDrop | SOut.

Fixpoint stage_of c : option stage :=
  match c with
  | Schedule _ | TickLoad | TickEnter _ | CancelLoad _ | CancelLoop _ _ | GiveBack => Some SProc
  | Polling _ | ReadyDrop _ _ | PendingLoop _ | GuardLoad | GuardLoop _ => Some SPoll
  | ReadyWrite _ _ => Some SWrite
  | ReadyLoop _ => Some SReady
  | ReadyTake _ => Some STake
  | DropFuture _ _ | GuardUnschedule => Some SDrop
  | HandleTake _ => Some SOut
  | Notify c => stage_of c
  | _ => None
  end.

Definition is_stage (k : stage) (o : option stage) : N :=
  match k, o with
  | SProc, Some SProc | SPoll, Some SPoll | SWrite, Some SWrite | SReady, Some SReady
  | STake, Some STake | SDrop, Some SDrop | SOut, Some SOut => 1
  | _, _ => 0
  end.

Definition in_stage (k : stage) c : N := is_stage k (stage_of c).

(** References the state word counts. *)
Fixpoint owned c : N :=
  match c with
  | WakeRefLoad | WakeRefLoop _ | CloneAdd | Unpark _ | Destroy _ | ExitSpan
  | HandleFirst | HandleLoop _ | HandleTake _ | Returned => 0
  | Notify c => owned c
  | _ => 1
  end.

(** The handle, while it is dropped. *)
Fixpoint handling c : N :=
  match c with
  | HandleFirst | HandleLoop _ | HandleTake _ => 1
  | Notify c => handling c
  | _ => 0
  end.

Definition destroying c : N := match c with Destroy _ => 1 | _ => 0 end.

(** A waker that will be given to the caller. *)
Definition cloned c : N :=
  match c with CloneCheck st => N.b2n (State.get_refcount st <=? 2147483647) | _ => 0 end.

(** The copy of the state word in a local variable. *)
Definition local_state c : option State.t :=
  match c with
  | WakeLoop st | WakeRefLoop st | CloneCheck st | TickEnter st | Polling st
  | ReadyDrop st _ | ReadyWrite st _ | ReadyLoop st | PendingLoop st | GuardLoop st
  | CancelLoop _ st | HandleLoop st | HandleTake st => Some st
  | _ => None
  end.

(** No awaiter is about to be notified, and nobody unparked but by the schedule
    function that does. *)
Definition quiet c : bool :=
  match c with
  | Notify _ | ReadyTake true | DropFuture true _ => false
  | Unpark _ => local
  | _ => true
  end.

(** Nothing left to do with the block, but for using the unparker or leaving the
    span. *)
Definition harmless c : bool :=
  match c with Unpark _ => local | ExitSpan | Returned => true | _ => false end.

(** *** Sums over operations *)

Lemma total_app (f : pc R → N) l k : total f (l ++ k) = total f l + total f k.
Proof. induction l as [|c l IH]; cbn [app total]; lia. Qed.

Lemma total_insert (f : pc R → N) l i c c' :
  l !! i = Some c → total f (<[i := c']> l) + f c = total f l + f c'.
Proof.
  revert i. induction l as [|d l IH]; intros [|i] Hi; try done.
  - injection Hi as ->. cbn [list_insert insert total]. simpl. lia.
  - specialize (IH i Hi). change (f d + total f (<[i := c']> l) + f c = f d + total f l + f c'). lia.
Qed.

Lemma total_elem (f : pc R → N) l i c : l !! i = Some c → f c <= total f l.
Proof.
  revert i. induction l as [|d l IH]; intros [|i] Hi; try done; cbn [total].
  - injection Hi as ->. lia.
  - specialize (IH i Hi). lia.
Qed.

Lemma total_le (f g : pc R → N) l : (∀ c, f c <= g c) → total f l <= total g l.
Proof. intros Hle. induction l as [|c l IH]; cbn [total]; [lia|]. specialize (Hle c). lia. Qed.

(** One operation at which [g] exceeds [f]. *)
Lemma total_gap (f g : pc R → N) l i c :
  (∀ c, f c <= g c) → l !! i = Some c → total f l + g c <= total g l + f c.
Proof.
  intros Hle. revert i. induction l as [|d l IH]; intros [|i] Hi; try done; cbn [total].
  - injection Hi as ->. pose proof (total_le f g l Hle). lia.
  - specialize (IH i Hi). specialize (Hle d). lia.
Qed.

Lemma total_zero (f : pc R → N) l : total f l = 0 → Forall (λ c, f c = 0) l.
Proof. induction l as [|c l IH]; cbn [total]; intros Hz; constructor; [|apply IH]; lia. Qed.

Lemma owned_in_progress c : owned c <= in_progress c.
Proof. induction c; cbn; try lia. etrans; [exact IHc|]. by destruct c. Qed.

Lemma polling_owned c : polling c <= owned c.
Proof. destruct c; cbn; lia. Qed.

Lemma stage_owned k c : k ≠ SOut → in_stage k c <= owned c.
Proof. intros Hk. unfold in_stage. induction c; destruct k; cbn; try done; lia. Qed.

Lemma out_handling c : in_stage SOut c <= handling c.
Proof. unfold in_stage. induction c; cbn; try done; lia. Qed.

End Weights.

(** ** The invariant *)

Section Invariant.
Context {R : Type}.
Import Threads.
Implicit Types (s : sys R) (c : pc R) (p : proc R).

(** Where a proc is in its life, and who may touch its future and output. *)
Inductive life (sc ru co cl ha fu : bool) (out : option R) : option stage → Prop :=
| LWaiting : ru = false → co = false → cl = false → fu = true → out = None →
    life sc ru co cl ha fu out (if sc then Some SProc else None)
| LClosing : co = false → cl = true → fu = true → out = None → life sc ru co cl ha fu out (Some SProc)
| LPolling : ru = true → co = false → cl = false → fu = true → out = None →
    life sc ru co cl ha fu out (Some SPoll)
| LWriting : ru = true → co = false → cl = false → fu = false → out = None →
    life sc ru co cl ha fu out (Some SWrite)
| LReady o : ru = true → co = false → cl = false → fu = false → out = Some o →
    life sc ru co cl ha fu out (Some SReady)
| LTaking o : cl = true → ha = false → fu = false → out = Some o →
    life sc ru co cl ha fu out (Some STake)
| LHandleTaking o : cl = true → ha = true → fu = false → out = Some o →
    life sc ru co cl ha fu out (Some SOut)
| LDropping : cl = true → fu = true → out = None → life sc ru co cl ha fu out (Some SDrop)
| LClosed : cl = true → fu = false → out = None → life sc ru co cl ha fu out None
| LCompleted o : co = true → cl = false → ha = true → fu = false → out = Some o →
    life sc ru co cl ha fu out None.

(** A word that was read: a proc stays completed and closed once it is. *)
Definition seen (co cl : bool) (st : State.t) : Prop :=
  ∃ sc' ru' co' cl' ha' r', st = State.new (fl sc' ru' co' cl' ha' false) r' ∧ r' < 2 ^ 32 ∧
    (co' = true → co = true) ∧ (cl' = true → cl = true).

Definition op_ok (co cl : bool) c : Prop :=
  quiet c = true ∧ ∀ st, local_state c = Some st → seen co cl st.

(** The [LightProc]s that no operation has count as being in [SProc]. *)
Definition in_queue (k : stage) (q : nat) : N := match k with SProc => N.of_nat q | _ => 0 end.

Definition unreferenced (r : N) (ha : bool) : N := N.b2n ((r =? 0) && negb ha).

Record alive s (sc ru co cl ha : bool) (r : N) (who : option stage) : Prop := {
  a_word : word (blk s) = State.new (fl sc ru co cl ha false) r;
  a_freed : freed (blk s) = false;
  a_awaiter : awaiter (blk s) = None;
  a_refs : r = N.of_nat (wakers s) + N.of_nat (queue (blk s)) + total owned (ops s);
  a_wakers : N.of_nat (wakers s) + total cloned (ops s) <= 2147483648;
  a_few : total in_progress (ops s) <= max_ops;
  a_handle : N.b2n (held s) + total handling (ops s) = N.b2n ha;
  a_destroy : total destroying (ops s) = unreferenced r ha;
  a_borrow : 0 < total borrowing (ops s) → 0 < N.of_nat (wakers s) + total polling (ops s);
  a_ops : Forall (op_ok co cl) (ops s);
  a_who k : total (in_stage k) (ops s) + in_queue k (queue (blk s)) = is_stage k who;
  a_life : life sc ru co cl ha (future (blk s)) (output (blk s)) who;
}.

Record gone s : Prop := {
  g_freed : freed (blk s) = true;
  g_queue : queue (blk s) = 0%nat;
  g_wakers : wakers s = 0%nat;
  g_held : held s = false;
  g_ops : Forall (λ c, harmless c = true) (ops s);
}.

Inductive inv s : Prop :=
| InvAlive sc ru co cl ha r who : alive s sc ru co cl ha r who → inv s
| InvGone : gone s → inv s.

Lemma seen_mono co cl co' cl' st :
  (co = true → co' = true) → (cl = true → cl' = true) → seen co cl st → seen co' cl' st.
Proof. intros Hco Hcl (?&?&?&?&?&?&?&?&?&?). do 6 eexists. split_and!; eauto. Qed.

Lemma op_ok_mono co cl co' cl' c :
  (co = true → co' = true) → (cl = true → cl' = true) → op_ok co cl c → op_ok co' cl' c.
Proof. intros Hco Hcl [Hq Hs]. split; [done|]. intros st Hst. eapply seen_mono; eauto. Qed.

(** The operation [i] moves from [c] to [c'], and the block changes. *)
Lemma alive_move s sc ru co cl ha r who i c c' p' w' h' n' sc' ru' co' cl' ha' r' who' :
  alive s sc ru co cl ha r who → ops s !! i = Some c →
  word p' = State.new (fl sc' ru' co' cl' ha' false) r' →
  freed p' = false → awaiter p' = None →
  r' + owned c + N.of_nat (wakers s) + N.of_nat (queue (blk s)) =
    r + owned c' + N.of_nat w' + N.of_nat (queue p') →
  N.of_nat w' + cloned c' + total cloned (ops s) <= 2147483648 + cloned c →
  total in_progress (ops s) + in_progress c' <= max_ops + in_progress c →
  N.b2n h' + N.b2n ha + handling c' = N.b2n ha' + N.b2n (held s) + handling c →
  destroying c' + unreferenced r ha = unreferenced r' ha' + destroying c →
  (0 < total borrowing (ops s) + borrowing c' - borrowing c →
   0 < N.of_nat w' + (total polling (ops s) + polling c' - polling c)) →
  (co = true → co' = true) → (cl = true → cl' = true) → op_ok co' cl' c' →
  (∀ k, is_stage k who + in_stage k c' + in_queue k (queue p') =
        is_stage k who' + in_stage k c + in_queue k (queue (blk s))) →
  life sc' ru' co' cl' ha' (future p') (output p') who' →
  alive (mkSys p' w' h' (<[i := c']> (ops s)) n') sc' ru' co' cl' ha' r' who'.
Proof.
  intros Ha Hi Hw Hf Haw Hr Hwk Hfew Hh Hd Hb Hco Hcl Hok Hwho Hlife.
  assert (Ht : ∀ f : pc R → N, total f (<[i := c']> (ops s)) + f c = total f (ops s) + f c')
    by (intros; by apply total_insert).
  assert (He : ∀ f : pc R → N, f c <= total f (ops s)) by (intros; by eapply total_elem).
  destruct Ha. constructor; cbn [Threads.blk Threads.wakers Threads.held Threads.ops]; try done.
  - pose proof (Ht owned). lia.
  - pose proof (Ht cloned). lia.
  - pose proof (Ht in_progress). lia.
  - pose proof (Ht handling). lia.
  - pose proof (Ht destroying). lia.
  - pose proof (Ht borrowing). pose proof (Ht polling). pose proof (He polling).
    pose proof (He borrowing). intros ?. lapply Hb; lia.
  - apply Forall_insert; [|done]. eapply Forall_impl; [done|]. intros. by eapply op_ok_mono.
  - intros k. pose proof (Ht (in_stage k)). specialize (a_who0 k). specialize (Hwho k). lia.
Qed.

End Invariant.

(** ** Consequences of the invariant *)

Section Facts.
Context {R : Type}.
Import Threads.
Context (s : sys R) (sc ru co cl ha : bool) (r : N) (who : option stage).
Context (Ha : alive s sc ru co cl ha r who).

Lemma alive_queue : N.of_nat (queue (blk s)) <= 1.
Proof. pose proof (a_who _ _ _ _ _ _ _ _ Ha SProc) as Hk. destruct who as [[]|]; cbn in Hk; lia. Qed.

Lemma alive_count : r + 1 < 2 ^ 32.
Proof.
  pose proof alive_queue. destruct Ha.
  pose proof (total_le owned in_progress (ops s) owned_in_progress). unfold max_ops in *.
  change (2 ^ 30) with 1073741824 in *. change (2 ^ 32) with 4294967296. lia.
Qed.

Context (i : nat) (c : pc R) (Hi : ops s !! i = Some c).

Lemma alive_stage k : stage_of c = Some k → who = Some k.
Proof.
  intros Hk. pose proof (total_elem (in_stage k) _ _ _ Hi) as Hle.
  pose proof (a_who _ _ _ _ _ _ _ _ Ha k) as Hw. unfold in_stage in Hle at 1. rewrite Hk in Hle.
  destruct k, who as [[]|]; cbn in *; try done; lia.
Qed.

Lemma alive_owned : owned c <= r.
Proof. pose proof (total_elem owned _ _ _ Hi). destruct Ha. lia. Qed.

(** A borrowed waker is somebody's. *)
Lemma alive_borrowed : borrowing c <= r.
Proof.
  pose proof (total_elem borrowing _ _ _ Hi).
  pose proof (total_le polling owned (ops s) polling_owned).
  assert (borrowing c <= 1) by (destruct c; cbn; lia). destruct Ha. lia.
Qed.

Lemma alive_op : op_ok co cl c.
Proof. destruct Ha. by eapply Forall_lookup_1. Qed.

Lemma alive_seen st : local_state c = Some st → seen co cl st.
Proof. apply alive_op. Qed.

Lemma alive_handling : handling c = 1 → ha = true ∧ held s = false.
Proof.
  intros Hh. pose proof (total_elem handling _ _ _ Hi). pose proof (a_handle _ _ _ _ _ _ _ _ Ha).
  destruct ha, (held s); cbn in *; split; try done; lia.
Qed.

(** Only the handle's own drop takes the output for it. *)
Lemma alive_not_out : handling c = 1 → stage_of c = None → who ≠ Some SOut.
Proof.
  intros Hh Hk ->. pose proof (a_who _ _ _ _ _ _ _ _ Ha SOut) as Hw.
  pose proof (total_gap (in_stage SOut) handling _ _ _ out_handling Hi) as Hgap.
  pose proof (a_handle _ _ _ _ _ _ _ _ Ha) as Hha. unfold in_stage in Hgap at 2. rewrite Hk in Hgap.
  cbn in *. destruct ha, (held s); cbn in *; lia.
Qed.

(** Whoever may touch the future or the output has a reference. *)
Lemma alive_referenced k : who = Some k → k ≠ SOut → 1 <= r.
Proof.
  intros Hw Hk. pose proof (a_who _ _ _ _ _ _ _ _ Ha k) as Ht. rewrite Hw in Ht.
  pose proof (total_le (in_stage k) owned (ops s) (λ c, stage_owned k c Hk)).
  pose proof (a_refs _ _ _ _ _ _ _ _ Ha). destruct k; cbn in *; try done; lia.
Qed.

Lemma alive_word_seen : seen co cl (word (blk s)).
Proof.
  exists sc, ru, co, cl, ha, r. pose proof alive_count. destruct Ha. split_and!; try done. lia.
Qed.

End Facts.

Lemma referenced_pos r ha : 1 <= r → unreferenced r ha = 0.
Proof. intros Hr. unfold unreferenced. by rewrite (proj2 (N.eqb_neq r 0)) by lia. Qed.

(** ** Words with known flags *)

Section Words.
Import State.
Implicit Types (sc ru co cl ha aw : bool).

Lemma fl_bound sc ru co cl ha aw : fl sc ru co cl ha aw < 2 ^ 32.
Proof. by destruct sc, ru, co, cl, ha, aw. Qed.

Lemma fl_inj sc ru co cl ha aw sc' ru' co' cl' ha' aw' :
  fl sc ru co cl ha aw = fl sc' ru' co' cl' ha' aw' →
  sc = sc' ∧ ru = ru' ∧ co = co' ∧ cl = cl' ∧ ha = ha' ∧ aw = aw'.
Proof. destruct sc, ru, co, cl, ha, aw, sc', ru', co', cl', ha', aw'; done. Qed.

Lemma get_flags_fl sc ru co cl ha aw r :
  get_flags (State.new (fl sc ru co cl ha aw) r) = fl sc ru co cl ha aw.
Proof. apply get_flags_new, fl_bound. Qed.

Lemma is_scheduled_fl sc ru co cl ha aw r : is_scheduled (State.new (fl sc ru co cl ha aw) r) = sc.
Proof. unfold is_scheduled. rewrite get_flags_fl. by destruct sc, ru, co, cl, ha, aw. Qed.

Lemma is_running_fl sc ru co cl ha aw r : is_running (State.new (fl sc ru co cl ha aw) r) = ru.
Proof. unfold is_running. rewrite get_flags_fl. by destruct sc, ru, co, cl, ha, aw. Qed.

Lemma is_completed_fl sc ru co cl ha aw r : is_completed (State.new (fl sc ru co cl ha aw) r) = co.
Proof. unfold is_completed. rewrite get_flags_fl. by destruct sc, ru, co, cl, ha, aw. Qed.

Lemma is_closed_fl sc ru co cl ha aw r : is_closed (State.new (fl sc ru co cl ha aw) r) = cl.
Proof. unfold is_closed. rewrite get_flags_fl. by destruct sc, ru, co, cl, ha, aw. Qed.

Lemma is_handle_fl sc ru co cl ha aw r : is_handle (State.new (fl sc ru co cl ha aw) r) = ha.
Proof. unfold is_handle. rewrite get_flags_fl. by destruct sc, ru, co, cl, ha, aw. Qed.

Lemma is_awaiter_fl sc ru co cl ha aw r : is_awaiter (State.new (fl sc ru co cl ha aw) r) = aw.
Proof. unfold is_awaiter. rewrite get_flags_fl. by destruct sc, ru, co, cl, ha, aw. Qed.

Lemma done_fl sc ru co cl ha aw r :
  intersects (get_flags (State.new (fl sc ru co cl ha aw) r)) (N.lor COMPLETED CLOSED) = co || cl.
Proof. rewrite get_flags_fl. by destruct sc, ru, co, cl, ha, aw. Qed.

Lemma busy_fl sc ru co cl ha aw r :
  intersects (get_flags (State.new (fl sc ru co cl ha aw) r)) (N.lor SCHEDULED RUNNING) = sc || ru.
Proof. rewrite get_flags_fl. by destruct sc, ru, co, cl, ha, aw. Qed.

Lemma parts_fl sc ru co cl ha aw r :
  r < 2 ^ 32 → parts (State.new (fl sc ru co cl ha aw) r) = (fl sc ru co cl ha aw, r).
Proof. intros Hr. apply parts_new; [apply fl_bound|done]. Qed.

Lemma fl_schedule sc ru co cl ha aw :
  N.lor (fl sc ru co cl ha aw) SCHEDULED = fl true ru co cl ha aw.
Proof. by destruct sc, ru, co, cl, ha, aw. Qed.

Lemma fl_enter sc ru co cl ha aw :
  N.lor (N.land (fl sc ru co cl ha aw) (flag_not SCHEDULED)) RUNNING = fl false true co cl ha aw.
Proof. by destruct sc, ru, co, cl, ha, aw. Qed.

Lemma fl_kept sc ru co cl ha aw :
  N.land (fl sc ru co cl ha aw) (flag_not (N.land RUNNING SCHEDULED)) = fl sc ru co cl ha aw.
Proof. by destruct sc, ru, co, cl, ha, aw. Qed.

Lemma fl_complete sc ru co cl ha aw :
  N.lor (fl sc ru co cl ha aw) COMPLETED = fl sc ru true cl ha aw.
Proof. by destruct sc, ru, co, cl, ha, aw. Qed.

Lemma fl_close sc ru co cl ha aw : N.lor (fl sc ru co cl ha aw) CLOSED = fl sc ru co true ha aw.
Proof. by destruct sc, ru, co, cl, ha, aw. Qed.

Lemma fl_stop sc ru co cl ha aw :
  N.land (fl sc ru co cl ha aw) (flag_not RUNNING) = fl sc false co cl ha aw.
Proof. by destruct sc, ru, co, cl, ha, aw. Qed.

Lemma fl_stop_closed sc ru co cl ha aw :
  N.land (fl sc ru co cl ha aw) (flag_not (N.lor RUNNING SCHEDULED)) = fl false false co cl ha aw.
Proof. by destruct sc, ru, co, cl, ha, aw. Qed.

Lemma fl_unschedule sc ru co cl ha aw :
  N.land (fl sc ru co cl ha aw) (flag_not SCHEDULED) = fl false ru co cl ha aw.
Proof. by destruct sc, ru, co, cl, ha, aw. Qed.

Lemma fl_unhandle sc ru co cl ha aw :
  N.land (fl sc ru co cl ha aw) (flag_not HANDLE) = fl sc ru co cl false aw.
Proof. by destruct sc, ru, co, cl, ha, aw. Qed.

End Words.

Create Rewrite HintDb words.

#[local] Hint Rewrite is_scheduled_fl is_running_fl is_completed_fl is_closed_fl is_handle_fl
  is_awaiter_fl done_fl busy_fl fl_schedule fl_enter fl_kept fl_complete fl_close fl_stop
  fl_stop_closed fl_unhandle : words.

#[local] Arguments State.new : simpl never.
#[local] Arguments fl : simpl never.
#[local] Arguments wp : simpl never.
#[local] Arguments N.add : simpl never.
#[local] Arguments N.sub : simpl never.
#[local] Arguments N.of_nat : simpl never.
#[local] Arguments in_stage _ _ / : simpl nomatch.
#[local] Arguments Threads.resume : simpl never.

(** ** Every step keeps the invariant *)

Section Steps.
Context {R : Type}.
Import Threads.
Implicit Types (s : sys R) (c : pc R) (p : proc R).

(** The operation goes on and the block stays as it is. *)
Lemma inv_same s sc ru co cl ha r who i c c' :
  alive s sc ru co cl ha r who → ops s !! i = Some c →
  owned c' = owned c → cloned c' = 0 → in_progress c' <= in_progress c →
  handling c' = handling c → destroying c' = destroying c → borrowing c' <= borrowing c →
  polling c = 0 → quiet c' = true → stage_of c' = stage_of c →
  (∀ st, local_state c' = Some st → seen co cl st) →
  inv (resume i (At c') (blk s) s).
Proof.
  intros Ha Hi Ho Hc Hp Hh Hd Hb Hpo Hq Hst Hl. eapply InvAlive.
  eapply alive_move; [exact Ha|exact Hi|apply Ha..| | | | | | | | | | |apply Ha]; try lia; try done.
  - pose proof (a_wakers _ _ _ _ _ _ _ _ Ha). lia.
  - pose proof (a_few _ _ _ _ _ _ _ _ Ha). lia.
  - pose proof (a_borrow _ _ _ _ _ _ _ _ Ha). pose proof (total_elem borrowing _ _ _ Hi). lia.
  - intros k. unfold in_stage. rewrite Hst. lia.
Qed.

(** It goes on with the word it has read. *)
Lemma inv_reread s sc ru co cl ha r who i c c' :
  alive s sc ru co cl ha r who → ops s !! i = Some c →
  owned c' = owned c → cloned c' = 0 → in_progress c' <= in_progress c →
  handling c' = handling c → destroying c' = destroying c → borrowing c' <= borrowing c →
  polling c = 0 → quiet c' = true → stage_of c' = stage_of c →
  local_state c' = Some (word (blk s)) →
  inv (resume i (At c') (blk s) s).
Proof.
  intros Ha Hi Ho Hc Hp Hh Hd Hb Hpo Hq Hst Hl. eapply inv_same; try done.
  rewrite Hl. intros ? [= <-]. by eapply alive_word_seen.
Qed.

Lemma wp_cas_weak sp p f r f' r' new Q :
  freed p = false → word p = State.new f r → f < 2 ^ 32 → r < 2 ^ 32 → f' < 2 ^ 32 → r' < 2 ^ 32 →
  Q (Err (word p)) p →
  (f' = f → r' = r → Q (Ok (word p)) (set_word new p)) →
  wp none (cas_weak sp (State.new f' r') new) p Q.
Proof.
  intros Hfr Hw Hf Hr Hf' Hr' Herr Hok. destruct sp; cbn [cas_weak]; [by apply wp_guarded|].
  apply wp_cas; [done| |].
  - rewrite Hw. intros He. apply new_inj in He as [-> ->]; [|done..]. rewrite <- Hw. by apply Hok.
  - intros _. destruct p. exact Herr.
Qed.

Lemma wp_load p Q : freed p = false → Q (word p) p → wp none load p Q.
Proof. intros Hf HQ. by apply wp_guarded. Qed.

Lemma set_word_id p w : word p = w → set_word w p = p.
Proof. intros <-. by destruct p. Qed.

End Steps.

(** Take a copy of the state word apart. *)
Ltac open_seen Ha Hi :=
  let Hs := fresh "Hseen" in
  pose proof (alive_seen _ _ _ _ _ _ _ _ Ha _ _ Hi _ eq_refl) as Hs;
  destruct Hs as (sc' & ru' & co' & cl' & ha' & r' & -> & Hr' & Hco' & Hcl').

(** The compare-exchange of a word that was read: what is left is its success, with
    the word unchanged since. *)
Ltac try_cas Ha Hi :=
  apply wp_then; eapply wp_cas_weak;
  [ apply Ha | apply Ha | apply fl_bound | pose proof (alive_count _ _ _ _ _ _ _ _ Ha); lia
  | apply fl_bound | lia
  | apply wp_done; eapply inv_reread; [exact Ha|exact Hi|done..]
  | let Hf := fresh "Hf" in
    intros Hf ?; apply fl_inj in Hf as (? & ? & ? & ? & ? & _); subst;
    apply wp_done ].

Ltac load_word Ha Hi :=
  apply wp_then, wp_load; [apply Ha|]; apply wp_done; eapply inv_reread; [exact Ha|exact Hi|done..].

Ltac known Ha Hi :=
  pose proof (a_wakers _ _ _ _ _ _ _ _ Ha); pose proof (a_few _ _ _ _ _ _ _ _ Ha);
  pose proof (a_borrow _ _ _ _ _ _ _ _ Ha); pose proof (total_elem Threads.borrowing _ _ _ Hi);
  pose proof (alive_count _ _ _ _ _ _ _ _ Ha); pose proof (alive_owned _ _ _ _ _ _ _ _ Ha _ _ Hi);
  pose proof (alive_borrowed _ _ _ _ _ _ _ _ Ha _ _ Hi);
  cbn [owned cloned Threads.in_progress handling destroying Threads.borrowing Threads.polling] in *.

(** The block changes to one with these flags, this count and this holder. *)
Ltac move_op Ha Hi sc ru co cl ha r who :=
  eapply InvAlive; known Ha Hi;
  eapply (alive_move _ _ _ _ _ _ _ _ _ _ _ _ _ _ _ sc ru co cl ha r who);
  [ exact Ha | exact Hi | autorewrite with words; cbn; try first [reflexivity | apply Ha]
  | apply Ha | apply Ha
  | cbn; try lia | cbn; try lia | cbn; try lia | cbn; try lia
  | cbn; try solve [lia | rewrite !referenced_pos by lia; lia] | cbn; try lia
  | try done | try done
  | split; [try done|try solve [intros ? [=]]] | intros []; cbn; try lia
  | cbn; try solve [assumption | econstructor; first [eassumption | reflexivity]] ].

(** The same holder as before. *)
Ltac move_on Ha Hi sc ru co cl ha r :=
  lazymatch type of Ha with
  | alive _ _ _ _ _ _ _ ?who => move_op Ha Hi sc ru co cl ha r who
  end.

Section WakeSteps.
Context {R : Type}.
Import Threads.
Implicit Types (s : sys R) (c : pc R) (p : proc R).

Lemma step_wake sp s sc ru co cl ha r who i st :
  alive s sc ru co cl ha r who → ops s !! i = Some (WakeLoop st) →
  wp none (step local sp (WakeLoop st)) (blk s) (λ n p', inv (resume i n p' s)).
Proof.
  intros Ha Hi. open_seen Ha Hi. cbn [step].
  rewrite parts_fl by done. autorewrite with words.
  destruct (co' || cl') eqn:Hd; [apply wp_done; eapply inv_same; [exact Ha|exact Hi|done..]|].
  apply orb_false_elim in Hd as [-> ->]. destruct sc'.
  - try_cas Ha Hi. rewrite set_word_id by apply Ha. eapply inv_same; [exact Ha|exact Hi|done..].
  - try_cas Ha Hi. pose proof (a_life _ _ _ _ _ _ _ _ Ha) as Hl.
    destruct ru; cbn [negb].
    + inversion Hl; subst; try discriminate; move_on Ha Hi true true false false ha r.
    + inversion Hl; subst; try discriminate. move_op Ha Hi true false false false ha r (Some SProc).
Qed.

Lemma step_wake_ref sp s sc ru co cl ha r who i st :
  alive s sc ru co cl ha r who → ops s !! i = Some (WakeRefLoop st) →
  wp none (step local sp (WakeRefLoop st)) (blk s) (λ n p', inv (resume i n p' s)).
Proof.
  intros Ha Hi. open_seen Ha Hi. cbn [step].
  rewrite parts_fl by done. autorewrite with words.
  destruct (co' || cl') eqn:Hd; [apply wp_done; eapply inv_same; [exact Ha|exact Hi|done..]|].
  apply orb_false_elim in Hd as [-> ->]. destruct sc'.
  - try_cas Ha Hi. rewrite set_word_id by apply Ha. eapply inv_same; [exact Ha|exact Hi|done..].
  - try_cas Ha Hi. pose proof (a_life _ _ _ _ _ _ _ _ Ha) as Hl.
    destruct ru; cbn [negb orb].
    + inversion Hl; subst; try discriminate; move_on Ha Hi true true false false ha r.
    + inversion Hl; subst; try discriminate. move_op Ha Hi true false false false ha (r + 1) (Some SProc).
Qed.

Lemma wp_fetch (f : State.t → State.t) p Q :
  freed p = false → Q (word p) (set_word (f (word p)) p) → wp none (fetch f) p Q.
Proof. intros Hf HQ. by apply wp_guarded. Qed.

Lemma cloned_owned c : cloned c <= owned c.
Proof. destruct c; cbn; try lia. by destruct (_ <=? _). Qed.

Lemma step_clone sp s sc ru co cl ha r who i :
  alive s sc ru co cl ha r who → ops s !! i = Some CloneAdd →
  wp none (step local sp CloneAdd) (blk s) (λ n p', inv (resume i n p' s)).
Proof.
  intros Ha Hi. cbn [step]. apply wp_then, wp_fetch; [apply Ha|]. apply wp_done.
  pose proof (alive_count _ _ _ _ _ _ _ _ Ha). rewrite (a_word _ _ _ _ _ _ _ _ Ha).
  rewrite fetch_add_new by (try apply fl_bound; lia).
  pose proof (total_le cloned owned (ops s) cloned_owned). pose proof (a_refs _ _ _ _ _ _ _ _ Ha).
  move_on Ha Hi sc ru co cl ha (r + 1); try (by apply Ha).
  - rewrite get_refcount_new by lia. destruct (N.leb_spec r 2147483647); cbn; lia.
  - intros ? [= <-]. exists sc, ru, co, cl, ha, r. split_and!; try done. lia.
Qed.

(** *** Giving up references *)

Lemma step_schedule sp s sc ru co cl ha r who i exit :
  alive s sc ru co cl ha r who → ops s !! i = Some (Schedule exit) →
  wp none (step local sp (Schedule exit)) (blk s) (λ n p', inv (resume i n p' s)).
Proof.
  intros Ha Hi. cbn [step]. apply wp_then, wp_guarded; [apply Ha|]. apply wp_done.
  pose proof (a_life _ _ _ _ _ _ _ _ Ha).
  unfold pushed. destruct local eqn:Hloc, exit; move_on Ha Hi sc ru co cl ha r.
Qed.

Lemma step_decrement sp s sc ru co cl ha r who i exit :
  alive s sc ru co cl ha r who → ops s !! i = Some (Decrement exit) →
  wp none (step local sp (Decrement exit)) (blk s) (λ n p', inv (resume i n p' s)).
Proof.
  intros Ha Hi. cbn [step]. apply wp_then, wp_fetch; [apply Ha|].
  pose proof (alive_count _ _ _ _ _ _ _ _ Ha). pose proof (alive_owned _ _ _ _ _ _ _ _ Ha _ _ Hi) as Hr.
  cbn in Hr. pose proof (a_life _ _ _ _ _ _ _ _ Ha).
  rewrite (a_word _ _ _ _ _ _ _ _ Ha). rewrite fetch_sub_new by (try apply fl_bound; lia).
  rewrite set_refcount_new, !get_refcount_new by (rewrite ?get_refcount_new; lia).
  autorewrite with words. apply wp_done.
  destruct ((r - 1 =? 0) && negb ha) eqn:Hz.
  - move_on Ha Hi sc ru co cl ha (r - 1). rewrite referenced_pos by lia. unfold unreferenced.
    by rewrite Hz.
  - destruct exit; move_on Ha Hi sc ru co cl ha (r - 1); rewrite referenced_pos by lia;
      unfold unreferenced; by rewrite Hz.
Qed.

(** Whoever destroys the block is alone with it. *)
Lemma destroy_alone s sc ru co cl ha r who i exit c' :
  alive s sc ru co cl ha r who → ops s !! i = Some (Destroy exit) → harmless c' = true →
  wakers s = 0%nat ∧ queue (blk s) = 0%nat ∧ held s = false ∧
  Forall (λ c, harmless c = true) (<[i := c']> (ops s)).
Proof.
  intros Ha Hi Hc'. pose proof (total_elem destroying _ _ _ Hi) as Hd. destruct Ha.
  cbn in Hd. unfold unreferenced in *. destruct (r =? 0) eqn:Hr, ha; cbn in *; try lia.
  apply N.eqb_eq in Hr as ->. pose proof (total_le polling owned (ops s) polling_owned).
  split_and!; [lia|lia|destruct (held s); cbn in *; [lia|done]|].
  set (f c := owned c + handling c + borrowing c + destroying c).
  assert (Hf : total f (ops s) = total owned (ops s) + total handling (ops s) +
            total borrowing (ops s) + total destroying (ops s)).
  { clear. induction (ops s) as [|c l IH]; cbn [total]; [done|]. unfold f in *. lia. }
  pose proof (total_insert f _ _ _ c' Hi) as Hn.
  assert (f c' = 0) by (destruct c'; done). unfold f in Hn at 2. cbn in Hn.
  assert (Hz : total f (<[i := c']> (ops s)) = 0) by lia. apply total_zero in Hz.
  assert (Hq : Forall (λ c, quiet c = true) (<[i := c']> (ops s))).
  { apply Forall_insert; [|by destruct c']. eapply Forall_impl; [done|]. by intros c []. }
  eapply Forall_impl; [exact (proj2 (Forall_and _ _) (conj Hz Hq))|].
  intros c [Hzc Hqc]. unfold f in Hzc. destruct c; cbn in *; try done; lia.
Qed.

Lemma step_destroy sp s sc ru co cl ha r who i exit :
  alive s sc ru co cl ha r who → ops s !! i = Some (Destroy exit) →
  wp none (step local sp (Destroy exit)) (blk s) (λ n p', inv (resume i n p' s)).
Proof.
  intros Ha Hi. cbn [step]. apply wp_then, wp_guarded; [apply Ha|]. apply wp_done, InvGone.
  destruct (destroy_alone s sc ru co cl ha r who i exit (if exit then ExitSpan else Returned))
    as (Hw & Hq & Hh & Hf); [done|done|by destruct exit|]. by constructor.
Qed.

Lemma step_exit sp s sc ru co cl ha r who i c :
  alive s sc ru co cl ha r who → ops s !! i = Some c →
  c = ExitSpan ∨ c = ReadyExit ∨ (∃ exit, c = Unpark exit) →
  wp none (step local sp c) (blk s) (λ n p', inv (resume i n p' s)).
Proof.
  intros Ha Hi Hc. assert (∀ f (k : () → M R (next R)) Q,
    wp none (k ()) (blk s) Q → wp none (bind (access f (ret ())) k) (blk s) Q) as Hacc.
  { intros f k Q Hk. apply wp_then. unfold wp, access. by rewrite (a_freed _ _ _ _ _ _ _ _ Ha). }
  destruct (alive_op _ _ _ _ _ _ _ _ Ha _ _ Hi) as [Hq _]. pose proof (a_life _ _ _ _ _ _ _ _ Ha).
  destruct Hc as [->|[->|[exit ->]]]; cbn [step]; apply Hacc, wp_done;
    [..|destruct exit]; move_on Ha Hi sc ru co cl ha r.
Qed.

End WakeSteps.

(** *** [tick] *)

Ltac stage_is Ha Hi :=
  let Hw := fresh "Hw" in
  pose proof (alive_stage _ _ _ _ _ _ _ _ Ha _ _ Hi _ eq_refl) as Hw; subst;
  let Hl := fresh "Hl" in
  pose proof (a_life _ _ _ _ _ _ _ _ Ha) as Hl; inversion Hl; subst;
  repeat match goal with
  | H : (if ?b then _ else _) = _ |- _ => destruct b; try discriminate H
  | H : true = true → ?b = true |- _ => specialize (H eq_refl)
  end; try congruence.

(** The copy of the word goes along. *)
Ltac keep_local Ha Hi :=
  let st := fresh "st" in
  intros st [= <-]; eapply (alive_seen _ _ _ _ _ _ _ _ Ha _ _ Hi); reflexivity.

(** The word just written becomes the copy. *)
Ltac new_local sc ru co cl ha r :=
  let st := fresh "st" in
  intros st [= <-]; exists sc, ru, co, cl, ha, r; autorewrite with words; split_and!; try done; try lia.

(** What the union holds. *)
Ltac by_future := match goal with H : future _ = _ |- _ => rewrite H end.
Ltac by_output := match goal with H : output _ = _ |- _ => rewrite H end.

Section TickSteps.
Context {R : Type}.
Import Threads.
Implicit Types (s : sys R) (c : pc R) (p : proc R).

Lemma step_tick_enter sp s sc ru co cl ha r who i st :
  alive s sc ru co cl ha r who → ops s !! i = Some (TickEnter st) →
  wp none (step local sp (TickEnter st)) (blk s) (λ n p', inv (resume i n p' s)).
Proof.
  intros Ha Hi. open_seen Ha Hi. cbn [step]. rewrite parts_fl by done. autorewrite with words.
  destruct cl'.
  - apply wp_done. stage_is Ha Hi. move_op Ha Hi sc ru false true ha r (Some SDrop).
  - try_cas Ha Hi. stage_is Ha Hi. autorewrite with words.
    move_op Ha Hi false true false false ha r (Some SPoll). new_local false true false false ha r.
Qed.

Lemma step_ready_drop sp s sc ru co cl ha r who i st out :
  alive s sc ru co cl ha r who → ops s !! i = Some (ReadyDrop st out) →
  wp none (step local sp (ReadyDrop st out)) (blk s) (λ n p', inv (resume i n p' s)).
Proof.
  intros Ha Hi. stage_is Ha Hi. cbn [step]. apply wp_then, wp_guarded; [apply Ha|].
  unfold wp. by_future. apply wp_done. move_op Ha Hi sc true false false ha r (Some SWrite).
  keep_local Ha Hi.
Qed.

Lemma step_ready_write sp s sc ru co cl ha r who i st out :
  alive s sc ru co cl ha r who → ops s !! i = Some (ReadyWrite st out) →
  wp none (step local sp (ReadyWrite st out)) (blk s) (λ n p', inv (resume i n p' s)).
Proof.
  intros Ha Hi. stage_is Ha Hi. cbn [step]. apply wp_then, wp_guarded; [apply Ha|]. apply wp_done.
  move_op Ha Hi sc true false false ha r (Some SReady). keep_local Ha Hi.
Qed.

Lemma step_ready_loop sp s sc ru co cl ha r who i st :
  alive s sc ru co cl ha r who → ops s !! i = Some (ReadyLoop st) →
  wp none (step local sp (ReadyLoop st)) (blk s) (λ n p', inv (resume i n p' s)).
Proof.
  intros Ha Hi. open_seen Ha Hi. cbn [step]. rewrite parts_fl by done. autorewrite with words.
  try_cas Ha Hi. stage_is Ha Hi. destruct ha; cbn [negb orb notified]; autorewrite with words.
  - move_op Ha Hi sc true true false true r (@None stage).
  - move_op Ha Hi sc true true true false r (Some STake).
Qed.

Lemma step_ready_take sp s sc ru co cl ha r who i b :
  alive s sc ru co cl ha r who → ops s !! i = Some (ReadyTake b) →
  wp none (step local sp (ReadyTake b)) (blk s) (λ n p', inv (resume i n p' s)).
Proof.
  intros Ha Hi. stage_is Ha Hi. cbn [step]. apply wp_then, wp_guarded; [apply Ha|].
  unfold wp. by_output. apply wp_done. destruct (alive_op _ _ _ _ _ _ _ _ Ha _ _ Hi) as [Hq _].
  destruct b; [done|]. move_op Ha Hi sc ru co true false r (@None stage).
Qed.

Lemma step_pending sp s sc ru co cl ha r who i st :
  alive s sc ru co cl ha r who → ops s !! i = Some (PendingLoop st) →
  wp none (step local sp (PendingLoop st)) (blk s) (λ n p', inv (resume i n p' s)).
Proof.
  intros Ha Hi. open_seen Ha Hi. cbn [step]. rewrite parts_fl by done. autorewrite with words.
  try_cas Ha Hi. stage_is Ha Hi. rewrite (a_word _ _ _ _ _ _ _ _ Ha). autorewrite with words.
  destruct sc.
  - move_op Ha Hi true false false false ha r (Some SProc).
  - move_op Ha Hi false false false false ha r (@None stage).
Qed.

Lemma step_guard sp s sc ru co cl ha r who i st :
  alive s sc ru co cl ha r who → ops s !! i = Some (GuardLoop st) →
  wp none (step local sp (GuardLoop st)) (blk s) (λ n p', inv (resume i n p' s)).
Proof.
  intros Ha Hi. open_seen Ha Hi. cbn [step]. rewrite parts_fl by done. autorewrite with words.
  destruct cl'; [stage_is Ha Hi|]. try_cas Ha Hi. stage_is Ha Hi.
  rewrite (a_word _ _ _ _ _ _ _ _ Ha). autorewrite with words.
  move_op Ha Hi sc true false true ha r (Some SDrop).
Qed.

Lemma step_guard_unschedule sp s sc ru co cl ha r who i :
  alive s sc ru co cl ha r who → ops s !! i = Some GuardUnschedule →
  wp none (step local sp GuardUnschedule) (blk s) (λ n p', inv (resume i n p' s)).
Proof.
  intros Ha Hi. cbn [step]. apply wp_then, wp_fetch; [apply Ha|]. apply wp_done.
  pose proof (alive_count _ _ _ _ _ _ _ _ Ha). rewrite (a_word _ _ _ _ _ _ _ _ Ha).
  rewrite fetch_and_new by (try apply fl_bound; done || lia). rewrite fl_unschedule. stage_is Ha Hi.
  move_op Ha Hi false ru co true ha r (Some SDrop).
Qed.

Lemma step_drop_future sp s sc ru co cl ha r who i b exit :
  alive s sc ru co cl ha r who → ops s !! i = Some (DropFuture b exit) →
  wp none (step local sp (DropFuture b exit)) (blk s) (λ n p', inv (resume i n p' s)).
Proof.
  intros Ha Hi. stage_is Ha Hi. cbn [step]. apply wp_then, wp_guarded; [apply Ha|].
  unfold wp. by_future. apply wp_done. destruct (alive_op _ _ _ _ _ _ _ _ Ha _ _ Hi) as [Hq _].
  destruct b; [done|]. move_op Ha Hi sc ru co true ha r (@None stage).
Qed.

End TickSteps.

(** *** Cancelling and dropping *)

Section HandleSteps.
Context {R : Type}.
Import Threads.
Implicit Types (s : sys R) (c : pc R) (p : proc R).

Lemma step_cancel sp s sc ru co cl ha r who i d st :
  alive s sc ru co cl ha r who → ops s !! i = Some (CancelLoop d st) →
  wp none (step local sp (CancelLoop d st)) (blk s) (λ n p', inv (resume i n p' s)).
Proof.
  intros Ha Hi. open_seen Ha Hi. cbn [step]. rewrite parts_fl by done. autorewrite with words.
  destruct (co' || cl') eqn:Hd.
  - apply wp_done. assert (co || cl = true) as Hdone.
    { apply orb_true_iff. apply orb_true_iff in Hd as [Hd|Hd]; auto. }
    stage_is Ha Hi; [discriminate Hdone|].
    destruct d; [move_op Ha Hi sc ru false true ha r (Some SDrop)|].
    eapply inv_same; [exact Ha|exact Hi|done..].
  - apply orb_false_elim in Hd as [-> ->]. try_cas Ha Hi. stage_is Ha Hi. cbn [notified].
    destruct d.
    + move_op Ha Hi true false false true ha r (Some SDrop).
    + move_op Ha Hi true false false true ha r (Some SProc).
Qed.

Lemma step_give_back sp s sc ru co cl ha r who i :
  alive s sc ru co cl ha r who → ops s !! i = Some GiveBack →
  wp none (step local sp GiveBack) (blk s) (λ n p', inv (resume i n p' s)).
Proof.
  intros Ha Hi. cbn [step]. eapply wp_intro; [reflexivity|]. pose proof (a_life _ _ _ _ _ _ _ _ Ha).
  move_on Ha Hi sc ru co cl ha r.
Qed.

Lemma step_handle_first sp s sc ru co cl ha r who i :
  alive s sc ru co cl ha r who → ops s !! i = Some HandleFirst →
  wp none (step local sp HandleFirst) (blk s) (λ n p', inv (resume i n p' s)).
Proof.
  intros Ha Hi. cbn [step].
  change (N.lor State.SCHEDULED State.HANDLE) with (fl true false false false true false).
  change State.SCHEDULED with (fl true false false false false false).
  destruct (alive_handling _ _ _ _ _ _ _ _ Ha _ _ Hi eq_refl) as [_ Hheld].
  try_cas Ha Hi. pose proof (a_life _ _ _ _ _ _ _ _ Ha) as Hl.
  inversion Hl; subst; try discriminate.
  move_op Ha Hi true false false false false 1 (Some SProc).
Qed.

(** The handle's drop with nobody else left. *)
Lemma nobody_left s sc ru co cl who i st :
  alive s sc ru co cl true 0 who → ops s !! i = Some (HandleLoop st) → who = None.
Proof.
  intros Ha Hi. destruct who as [k|]; [|done].
  pose proof (alive_not_out _ _ _ _ _ _ _ _ Ha _ _ Hi eq_refl eq_refl) as Hno.
  pose proof (alive_referenced _ _ _ _ _ _ _ _ Ha k eq_refl) as Hr.
  lapply Hr; [lia|]. by intros ->.
Qed.

Lemma step_handle sp s sc ru co cl ha r who i st :
  alive s sc ru co cl ha r who → ops s !! i = Some (HandleLoop st) →
  wp none (step local sp (HandleLoop st)) (blk s) (λ n p', inv (resume i n p' s)).
Proof.
  intros Ha Hi. open_seen Ha Hi. cbn [step]. rewrite parts_fl, get_refcount_new by done.
  autorewrite with words.
  destruct (alive_handling _ _ _ _ _ _ _ _ Ha _ _ Hi eq_refl) as [-> Hheld].
  destruct (co' && negb cl') eqn:Hc.
  - apply andb_prop in Hc as [-> Hc]. apply negb_true_iff in Hc as ->. try_cas Ha Hi.
    pose proof (a_life _ _ _ _ _ _ _ _ Ha) as Hl. inversion Hl; subst; try discriminate.
    move_op Ha Hi sc ru true true true r (Some SOut). new_local sc ru true true true r.
  - change (N.lor State.SCHEDULED State.CLOSED) with (fl true false false true false false).
    destruct (r' =? 0) eqn:Hr0, cl'; cbn [andb negb]; (try_cas Ha Hi);
      pose proof (a_life _ _ _ _ _ _ _ _ Ha) as Hl; autorewrite with words.
    + apply N.eqb_eq in Hr0 as ->. pose proof (nobody_left _ _ _ _ _ _ _ _ Ha Hi). subst.
      move_op Ha Hi sc ru co true false 0 (@None stage). inversion Hl; try discriminate. by constructor.
    + apply N.eqb_eq in Hr0 as ->. pose proof (nobody_left _ _ _ _ _ _ _ _ Ha Hi). subst.
      rewrite andb_true_r in Hc. subst.
      move_op Ha Hi true false false true false 1 (Some SProc).
      inversion Hl; try discriminate. by constructor.
    + pose proof (alive_not_out _ _ _ _ _ _ _ _ Ha _ _ Hi eq_refl eq_refl) as Hno.
      apply N.eqb_neq in Hr0. move_on Ha Hi sc ru co true false r.
      inversion Hl; subst; try done; econstructor; eauto.
    + pose proof (alive_not_out _ _ _ _ _ _ _ _ Ha _ _ Hi eq_refl eq_refl) as Hno.
      rewrite andb_true_r in Hc. subst.
      apply N.eqb_neq in Hr0. move_on Ha Hi sc ru false false false r.
      inversion Hl; subst; try done; econstructor; eauto.
Qed.

Lemma step_handle_take sp s sc ru co cl ha r who i st :
  alive s sc ru co cl ha r who → ops s !! i = Some (HandleTake st) →
  wp none (step local sp (HandleTake st)) (blk s) (λ n p', inv (resume i n p' s)).
Proof.
  intros Ha Hi. stage_is Ha Hi. cbn [step]. apply wp_then, wp_guarded; [apply Ha|].
  unfold wp. by_output. apply wp_done. move_op Ha Hi sc ru co true true r (@None stage).
  keep_local Ha Hi.
Qed.

End HandleSteps.

(** ** Every move keeps the invariant *)

Section Moves.
Context {R : Type}.
Import Threads.
Implicit Types (s : sys R) (c : pc R) (p : proc R).

(** A move goes well: it is not for the taking, or it leaves a good state, but for
    the faults. *)
Definition good (F : fault → Prop) (v : verdict R) : Prop :=
  match v with
  | Next s => inv s
  | Unowned | Aborts => True
  | Broken f => F f
  | Spins => False
  end.

(** What can happen to a block that was freed. *)
Definition late (f : fault) : Prop := f = LateSpan ∨ f = LateUnpark ∧ local = true.

Lemma good_late v : good none v → good late v.
Proof. by destruct v. Qed.

Lemma go_inv sp s sc ru co cl ha r who i c :
  alive s sc ru co cl ha r who → ops s !! i = Some c →
  match c with Polling _ | Returned | CloneCheck _ => False | _ => True end →
  wp none (step local sp c) (blk s) (λ n p', inv (resume i n p' s)).
Proof.
  intros Ha Hi Hc. destruct c; try destruct Hc.
  - load_word Ha Hi.
  - by eapply step_wake.
  - load_word Ha Hi.
  - by eapply step_wake_ref.
  - by eapply step_clone.
  - by eapply step_schedule.
  - eapply step_exit; eauto.
  - by eapply step_decrement.
  - by eapply step_destroy.
  - eapply step_exit; eauto.
  - load_word Ha Hi.
  - by eapply step_tick_enter.
  - by eapply step_ready_drop.
  - by eapply step_ready_write.
  - by eapply step_ready_loop.
  - by eapply step_ready_take.
  - eapply step_exit; eauto.
  - by eapply step_pending.
  - load_word Ha Hi.
  - by eapply step_guard.
  - by eapply step_guard_unschedule.
  - by eapply step_drop_future.
  - load_word Ha Hi.
  - by eapply step_cancel.
  - by eapply step_give_back.
  - by eapply step_handle_first.
  - by eapply step_handle.
  - by eapply step_handle_take.
  - by destruct (alive_op _ _ _ _ _ _ _ _ Ha _ _ Hi).
Qed.

Lemma clone_check_inv sp s sc ru co cl ha r who i st :
  alive s sc ru co cl ha r who → ops s !! i = Some (CloneCheck st) → good none (go local i sp s).
Proof.
  intros Ha Hi. unfold go. rewrite Hi. cbn [step].
  destruct (N.ltb_spec 2147483647 (State.get_refcount st)) as [Hlt|Hle]; [exact I|].
  pose proof (a_life _ _ _ _ _ _ _ _ Ha).
  change (inv (resume i GiveWaker (blk s) s)). pose proof (proj2 (N.leb_le _ _) Hle) as Hb.
  move_on Ha Hi sc ru co cl ha r; unfold resume; rewrite Hb in *; cbn in *; lia.
Qed.

Lemma go_alive i sp s sc ru co cl ha r who : alive s sc ru co cl ha r who → good none (go local i sp s).
Proof.
  intros Ha. destruct (ops s !! i) as [c|] eqn:Hi; [|unfold go; by rewrite Hi].
  pose proof (go_inv sp _ _ _ _ _ _ _ _ i c Ha Hi) as Hs.
  destruct c; try (by eapply clone_check_inv); unfold go; rewrite Hi; try exact I;
    specialize (Hs I); unfold wp in Hs; by destruct (step local sp _ _).
Qed.

Lemma answer_alive i a s sc ru co cl ha r who : alive s sc ru co cl ha r who → good none (answer i a s).
Proof.
  intros Ha. unfold answer. destruct (ops s !! i) as [c|] eqn:Hi; [|done].
  destruct c; try done. destruct (_ || _) eqn:Hb; [|done].
  assert (total borrowing (ops s) = 0 ∨ 0 < N.of_nat (wakers s)) as Hborrow.
  { apply orb_true_iff in Hb as [Hb|Hb]; [right; apply Nat.ltb_lt in Hb; lia|left; by apply N.eqb_eq]. }
  pose proof (a_life _ _ _ _ _ _ _ _ Ha). cbn [good].
  destruct a; move_on Ha Hi sc ru co cl ha r; keep_local Ha Hi.
Qed.

(** A new operation starts. *)
Lemma alive_begin s sc ru co cl ha r who c' p' w' h' :
  alive s sc ru co cl ha r who → total in_progress (ops s) < max_ops →
  word p' = word (blk s) → freed p' = false → awaiter p' = None →
  future p' = future (blk s) → output p' = output (blk s) →
  N.of_nat (wakers s) + N.of_nat (queue (blk s)) = owned c' + N.of_nat w' + N.of_nat (queue p') →
  (w' <= wakers s)%nat → cloned c' = 0 → N.b2n h' + handling c' = N.b2n (held s) → destroying c' = 0 →
  (0 < total borrowing (ops s) + borrowing c' → 0 < N.of_nat w' + total polling (ops s)) →
  polling c' = 0 → quiet c' = true → local_state c' = None →
  (∀ k, in_stage k c' + in_queue k (queue p') = in_queue k (queue (blk s))) →
  alive (mkSys p' w' h' (ops s ++ [c']) (polls s)) sc ru co cl ha r who.
Proof.
  intros Ha Hfew Hw Hf Haw Hfu Hout Hr Hwk Hc Hh Hd Hb Hp Hq Hloc Hst. destruct Ha.
  assert (in_progress c' <= 1) by (destruct c'; cbn; lia).
  constructor; cbn [Threads.blk Threads.wakers Threads.held Threads.ops];
    rewrite ?total_app; cbn [total]; try congruence; try lia.
  - apply Forall_app. split; [done|]. apply Forall_singleton. split; [done|]. by rewrite Hloc.
  - intros k. rewrite total_app. cbn [total]. specialize (Hst k). specialize (a_who0 k). lia.
Qed.

Lemma push_alive s c v :
  (total in_progress (ops s) < max_ops → inv (mkSys (blk s) (wakers s) (held s) (ops s ++ [c]) (polls s))) →
  push c s = v → good none v.
Proof.
  intros Hs <-. unfold push. destruct (N.ltb_spec (total in_progress (ops s)) max_ops); [by apply Hs|done].
Qed.

Lemma begin_alive o s sc ru co cl ha r who : alive s sc ru co cl ha r who → good none (begin o s).
Proof.
  intros Ha. pose proof (a_borrow _ _ _ _ _ _ _ _ Ha) as Hb.
  unfold begin, may_give, may_borrow, without_handle, with_wakers, with_blk.
  destruct o;
    lazymatch goal with |- good none (if ?b then _ else _) => destruct b eqn:Hg end; try done;
    (eapply push_alive; [|reflexivity]; cbn [Threads.blk Threads.wakers Threads.held Threads.ops];
     intros Hfew; eapply InvAlive, (alive_begin s); try done; try (by apply Ha); cbn).
  all: repeat match goal with
       | H : _ && _ = true |- _ => apply andb_prop in H as [? H]
       | H : _ || _ = true |- _ => apply orb_prop in H as [H|H]
       | H : (_ <? _)%nat = true |- _ => apply Nat.ltb_lt in H
       | H : (_ <? _) = true |- _ => apply N.ltb_lt in H
       | H : (_ =? _) = true |- _ => apply N.eqb_eq in H
       | H : held _ = true |- _ => rewrite H
       end; cbn; try lia; intros []; cbn; lia.
Qed.

(** *** A block that was freed *)

Lemma harmless_polling (l : list (pc R)) :
  Forall (λ c, harmless c = true) l → total polling l = 0.
Proof. induction 1 as [|c l Hc Hl IH]; [done|]. cbn [total]. by destruct c; rewrite ?IH. Qed.

Lemma begin_gone o s : gone s → good late (begin o s).
Proof.
  intros [Hf Hq Hw Hh Ho]. pose proof (harmless_polling _ Ho) as Hp.
  unfold begin, may_give, may_borrow. rewrite Hq, Hw, Hh, Hp. by destruct o.
Qed.

Lemma go_gone i sp s : gone s → good late (go local i sp s).
Proof.
  intros [Hf Hq Hw Hh Ho]. unfold go. destruct (ops s !! i) as [c|] eqn:Hi; [|done].
  pose proof (Forall_lookup_1 _ _ _ _ Ho Hi) as Hc. unfold late.
  destruct c; try done; cbn [step]; unfold bind, exit_span, access; rewrite Hf; cbn; auto.
Qed.

Lemma answer_gone i a s : gone s → good late (answer i a s).
Proof.
  intros [Hf Hq Hw Hh Ho]. unfold answer. destruct (ops s !! i) as [c|] eqn:Hi; [|done].
  pose proof (Forall_lookup_1 _ _ _ _ Ho Hi) as Hc. by destruct c.
Qed.

(** Nothing goes wrong with a block that is there. *)
Lemma move_alive m s sc ru co cl ha r who :
  alive s sc ru co cl ha r who → good none (exec local m s).
Proof.
  intros Ha. destruct m; cbn [exec]; [by eapply begin_alive|by eapply go_alive|by eapply answer_alive].
Qed.

Lemma move_inv m s : inv s → good late (exec local m s).
Proof.
  intros [sc ru co cl ha r who Ha|Hg]; [by eapply good_late, move_alive|].
  destruct m; cbn [exec].
  - by apply begin_gone.
  - by apply go_gone.
  - by apply answer_gone.
Qed.

Lemma moves_inv l s : inv s → good late (exec_all local l s).
Proof.
  revert s. induction l as [|m l IH]; intros s Hs; [done|]. pose proof (move_inv m s Hs) as Hg.
  cbn [exec_all]. destruct (exec local m s); try done. by apply IH.
Qed.

Lemma threads_start_inv : inv (start (R := R)).
Proof.
  apply (InvAlive _ true false false false true 1 (Some SProc)).
  constructor; try done. by apply (LWaiting true).
Qed.

Lemma threads_reached_inv l s : exec_all local l start = Next s → inv s.
Proof. intros Hs. pose proof (moves_inv l _ threads_start_inv) as Hg. by rewrite Hs in Hg. Qed.

End Moves.

(** ** What becomes of the flags *)

Section Flags.
Context {R : Type}.
Import Threads.
Implicit Types (s : sys R) (c : pc R) (p : proc R).

(** Completed and closed stay, and scheduled until a poll begins. *)
Definition flags_kept (w w' : State.t) (n : next R) : Prop :=
  (State.is_completed w = true → State.is_completed w' = true) ∧
  (State.is_closed w = true → State.is_closed w' = true) ∧
  (State.is_scheduled w = true →
   State.is_scheduled w' = true ∨ State.is_closed w' = true ∨ ∃ st, n = At (Polling st)).

Lemma flags_kept_refl w n : flags_kept w w n.
Proof. unfold flags_kept. tauto. Qed.

Lemma flags_kept_fl sc ru co cl ha r sc' ru' co' cl' ha' r' n :
  (co = true → co' = true) → (cl = true → cl' = true) →
  (sc = true → sc' = true ∨ cl' = true ∨ ∃ st, n = At (Polling st)) →
  flags_kept (State.new (fl sc ru co cl ha false) r) (State.new (fl sc' ru' co' cl' ha' false) r') n.
Proof. unfold flags_kept. autorewrite with words. done. Qed.

End Flags.

Ltac kept_load Ha := apply wp_then, wp_load; [apply Ha|]; apply wp_done, flags_kept_refl.

Ltac kept_access Ha := apply wp_then; unfold RawProc.schedule, RawProc.destroy, RawProc.drop_future,
  write_output, read_output, exit_span; try (apply wp_guarded; [apply Ha|]); unfold wp;
  repeat match goal with
  | |- context [match ?x with _ => _ end] => destruct x eqn:?
  end; try apply flags_kept_refl.

Ltac kept_cas Ha :=
  apply wp_then; eapply wp_cas_weak;
  [ apply Ha | apply Ha | apply fl_bound | pose proof (alive_count _ _ _ _ _ _ _ _ Ha); lia
  | apply fl_bound | lia
  | apply wp_done, flags_kept_refl
  | let Hf := fresh "Hf" in
    intros Hf ?; apply fl_inj in Hf as (? & ? & ? & ? & ? & _); subst;
    apply wp_done; rewrite (a_word _ _ _ _ _ _ _ _ Ha); unfold set_word; cbn [word];
    autorewrite with words ].

Section Kept.
Context {R : Type}.
Import Threads.
Implicit Types (s : sys R) (c : pc R) (p : proc R).

Definition keeps (sp : bool) s c : Prop :=
  wp none (step local sp c) (blk s) (λ n p', flags_kept (word (blk s)) (word p') n).

(** The loops. *)
Lemma loop_keeps_flags sp s sc ru co cl ha r who i c :
  alive s sc ru co cl ha r who → ops s !! i = Some c →
  match c with
  | WakeLoop _ | WakeRefLoop _ | TickEnter _ | ReadyLoop _ | PendingLoop _ | GuardLoop _
  | CancelLoop _ _ => True
  | _ => False
  end → keeps sp s c.
Proof.
  intros Ha Hi Hc. unfold keeps. destruct c; try destruct Hc;
    (open_seen Ha Hi; cbn [step]; rewrite ?parts_fl by done; autorewrite with words;
     repeat match goal with |- wp _ (if ?b then _ else _) _ _ => destruct b eqn:? end;
     first [apply wp_done, flags_kept_refl | kept_cas Ha];
     repeat case_match; subst; apply flags_kept_fl; try done; try discriminate; eauto).
Qed.

Lemma handle_keeps_flags sp s sc ru co cl ha r who i c :
  alive s sc ru co cl ha r who → ops s !! i = Some c →
  match c with HandleFirst | HandleLoop _ => True | _ => False end → keeps sp s c.
Proof.
  intros Ha Hi Hc. unfold keeps. destruct c; try destruct Hc.
  - cbn [step]. change (N.lor State.SCHEDULED State.HANDLE) with (fl true false false false true false).
    change State.SCHEDULED with (fl true false false false false false).
    kept_cas Ha. by apply flags_kept_fl; auto.
  - open_seen Ha Hi. cbn [step]. rewrite parts_fl, get_refcount_new by done. autorewrite with words.
    change (N.lor State.SCHEDULED State.CLOSED) with (fl true false false true false false).
    destruct (co' && negb cl') eqn:Hc; [kept_cas Ha; apply flags_kept_fl; auto|].
    destruct ((r' =? 0) && negb cl') eqn:Hz; kept_cas Ha; apply flags_kept_fl; auto.
    destruct co, cl; try done. by rewrite andb_false_r in Hz.
Qed.

(** Everything else leaves the flags alone, or the proc is closed. *)
Lemma access_keeps_flags sp s sc ru co cl ha r who i c :
  alive s sc ru co cl ha r who → ops s !! i = Some c →
  match c with
  | CloneAdd | Schedule _ | Unpark _ | Decrement _ | Destroy _ | ExitSpan | ReadyDrop _ _ | ReadyWrite _ _
  | ReadyTake _ | ReadyExit | DropFuture _ _ | HandleTake _ | GuardUnschedule | GiveBack => True
  | _ => False
  end → ∀ n p', step local sp c (blk s) = Ret n p' → flags_kept (word (blk s)) (word p') n.
Proof.
  intros Ha Hi Hc n p'. pose proof (alive_count _ _ _ _ _ _ _ _ Ha).
  pose proof (alive_owned _ _ _ _ _ _ _ _ Ha _ _ Hi) as Ho.
  pose proof (a_word _ _ _ _ _ _ _ _ Ha) as Hw. pose proof (a_freed _ _ _ _ _ _ _ _ Ha) as Hf.
  destruct c; try destruct Hc; cbn [step].
  all: unfold bind, goto, fetch, RawProc.schedule, RawProc.destroy, RawProc.drop_future,
    write_output, read_output, exit_span, guarded, access, ret; rewrite ?Hf; repeat case_match; intros; simplify_eq;
    cbn [word set_word]; try apply flags_kept_refl; rewrite Hw.
  all: try (rewrite fetch_add_new by (try apply fl_bound; lia); apply flags_kept_fl; by auto).
  all: try (rewrite fetch_sub_new by (try apply fl_bound; cbn in Ho; lia); apply flags_kept_fl; by auto).
  - stage_is Ha Hi. rewrite fetch_and_new by (try apply fl_bound; done || lia).
    rewrite fl_unschedule. apply flags_kept_fl; auto.
Qed.

End Kept.

(** ** Wake-ups *)

Section Wanted.
Context {R : Type}.
Import Threads.
Implicit Types (s : sys R) (c : pc R) (p : proc R).

(** The future will be polled again, or a poll has begun since there were [n] of
    them, or there is nothing more to poll. *)
Definition wanted (n : nat) s : Prop :=
  (n < polls s)%nat ∨ (n = polls s)%nat ∧ (freed (blk s) = true ∨ State.is_completed (word (blk s)) = true ∨
  State.is_closed (word (blk s)) = true ∨ State.is_scheduled (word (blk s)) = true).

Lemma step_keeps_flags sp s sc ru co cl ha r who i c n p' :
  alive s sc ru co cl ha r who → ops s !! i = Some c →
  step local sp c (blk s) = Ret n p' → flags_kept (word (blk s)) (word p') n.
Proof.
  intros Ha Hi Hs.
  assert (keeps sp s c → flags_kept (word (blk s)) (word p') n) as Hk.
  { intros Hk. unfold keeps, wp in Hk. by rewrite Hs in Hk. }
  destruct (alive_op _ _ _ _ _ _ _ _ Ha _ _ Hi) as [Hq _].
  destruct c;
    try (apply Hk; first [by eapply loop_keeps_flags|by eapply handle_keeps_flags]);
    try (by eapply access_keeps_flags); try discriminate Hq;
    try (apply Hk; unfold keeps; cbn [step]; solve [kept_load Ha | apply wp_done, flags_kept_refl]).
  cbn in Hs. destruct (_ <? _); [discriminate|]. injection Hs as <- <-. apply flags_kept_refl.
Qed.

Lemma resume_word i n p s : word (blk (resume i n p s)) = word p ∧ freed (blk (resume i n p s)) = freed p.
Proof. by destruct n. Qed.

Lemma push_blk c s s' : push c s = Next s' → blk s' = blk s ∧ polls s' = polls s.
Proof. unfold push. destruct (_ <? _); intros [= <-]; done. Qed.

Lemma begin_blk o s s' :
  begin o s = Next s' →
  word (blk s') = word (blk s) ∧ freed (blk s') = freed (blk s) ∧ polls s' = polls s.
Proof.
  unfold begin. destruct o; repeat case_match; intros Hp; try discriminate;
    apply push_blk in Hp as [-> ->]; done.
Qed.

Lemma answer_blk i a s s' : answer i a s = Next s' → blk s' = blk s ∧ polls s' = polls s.
Proof. unfold answer. intros Hs. repeat case_match; simplify_eq; done. Qed.

Lemma gone_move m s s' : gone s → exec local m s = Next s' → freed (blk s') = true.
Proof.
  intros Hg. destruct m; cbn [exec]; intros Hs.
  - apply begin_blk in Hs as (_ & -> & _). apply Hg.
  - unfold go in Hs. destruct (ops s !! i) as [c|] eqn:Hi; [|done].
    pose proof (Forall_lookup_1 _ _ _ _ (g_ops _ Hg) Hi) as Hc.
    destruct c; try discriminate; cbn [step] in Hs; unfold bind, exit_span, access in Hs;
      rewrite (g_freed _ Hg) in Hs; discriminate.
  - apply answer_blk in Hs as [-> _]. apply Hg.
Qed.

Lemma resume_polls i x p s :
  polls (resume i x p s) = (polls s + match x with At (Polling _) => 1 | _ => 0 end)%nat.
Proof. unfold resume. destruct x as [c|]; [destruct c; cbn; lia|cbn; lia]. Qed.

Lemma go_wanted n i sp s s' : inv s → go local i sp s = Next s' → wanted n s → wanted n s'.
Proof.
  intros Hinv Hgo Hn. pose proof Hgo as Hs. unfold go in Hs.
  destruct (ops s !! i) as [c|] eqn:Hi; [|done].
  destruct (step local sp c (blk s)) as [x p'| | |] eqn:He; [|by destruct c..].
  assert (s' = resume i x p' s) as -> by (destruct c; congruence).
  destruct (resume_word i x p' s) as [Hw Hf]. unfold wanted. rewrite resume_polls, Hw, Hf.
  destruct Hn as [Hn|[-> Hn]]; [left; lia|].
  assert ((∃ st, x = At (Polling st)) ∨ match x with At (Polling _) => 1 | _ => 0 end = 0)%nat as Hx.
  { destruct x as [[]|]; eauto. }
  destruct Hx as [[st ->]|Hx]; [left; lia|]. right. split; [lia|].
  destruct Hinv as [sc ru co cl ha r who Ha|Hg].
  2: { left. rewrite <- Hf. by apply (gone_move (Go i sp) s). }
  destruct (step_keeps_flags _ _ _ _ _ _ _ _ _ _ _ _ _ Ha Hi He) as (Hco & Hcl & Hsc).
  rewrite (a_freed _ _ _ _ _ _ _ _ Ha) in Hn.
  destruct Hn as [Hn|[Hn|[Hn|Hn]]]; [discriminate|by auto|by auto|].
  destruct (Hsc Hn) as [?|[?|[st ->]]]; [by auto..|]. cbn in Hx. lia.
Qed.

Lemma move_wanted n m s s' : inv s → exec local m s = Next s' → wanted n s → wanted n s'.
Proof.
  intros Hinv. destruct m; cbn [exec]; intros Hs.
  - apply begin_blk in Hs as (Hw & Hf & Hp). unfold wanted. by rewrite Hw, Hf, Hp.
  - by eapply go_wanted.
  - apply answer_blk in Hs as [Hb Hp]. unfold wanted. by rewrite Hb, Hp.
Qed.

Lemma moves_wanted n l s s' : inv s → exec_all local l s = Next s' → wanted n s → wanted n s'.
Proof.
  revert s. induction l as [|m l IH]; intros s Hs He Hn; [by injection He as <-|].
  cbn [exec_all] in He. pose proof (move_inv m s Hs) as Hg. destruct (exec local m s) as [s1| | | |] eqn:Hm; try done.
  eapply (IH s1); [exact Hg|done|]. by apply (move_wanted n m s).
Qed.

(** An operation that has yet to wake the proc. *)
Definition waking c : bool :=
  match c with WakeLoad | WakeLoop _ | WakeRefLoad | WakeRefLoop _ => true | _ => false end.

(** It ends with the proc scheduled, or with nothing left to wake. *)
Lemma waking_step sp s sc ru co cl ha r who i c :
  alive s sc ru co cl ha r who → ops s !! i = Some c → waking c = true →
  wp none (step local sp c) (blk s) (λ n p',
    match n with
    | At c' => waking c' = true ∨ State.is_completed (word p') = true ∨
        State.is_closed (word p') = true ∨ State.is_scheduled (word p') = true
    | GiveWaker => False
    end).
Proof.
  intros Ha Hi Hc. pose proof (a_word _ _ _ _ _ _ _ _ Ha) as Hw. destruct c; try discriminate; cbn [step].
  1,3: apply wp_then, wp_load; [apply Ha|]; by apply wp_done; left.
  all: open_seen Ha Hi; rewrite parts_fl by done; autorewrite with words;
    (destruct (co' || cl') eqn:Hd;
      [ apply wp_done; right; rewrite Hw; autorewrite with words;
        apply orb_true_iff in Hd as [Hd|Hd]; by auto | ]);
    destruct sc'; apply wp_then;
    (eapply wp_cas_weak;
      [ apply Ha | apply Ha | apply fl_bound | pose proof (alive_count _ _ _ _ _ _ _ _ Ha); lia
      | apply fl_bound | lia | by apply wp_done; left | ]);
    intros _ _; apply wp_done; right; right; right; unfold set_word; cbn [word]; repeat case_match;
    by autorewrite with words.
Qed.

(** A proc that is scheduled with no operation in progress is with the executor. *)
Lemma scheduled_queued s :
  inv s → Forall (λ c, c = Returned) (ops s) → freed (blk s) = false →
  State.is_scheduled (word (blk s)) = true → State.is_completed (word (blk s)) = false →
  State.is_closed (word (blk s)) = false → queue (blk s) = 1%nat.
Proof.
  intros [sc ru co cl ha r who Ha|Hg] Hall Hf; [|by rewrite (g_freed _ Hg) in Hf].
  rewrite (a_word _ _ _ _ _ _ _ _ Ha). autorewrite with words. intros -> -> ->.
  assert (∀ k, total (in_stage k) (ops s) = 0) as Hz.
  { intros k. clear -Hall. induction Hall as [|c l -> Hl IH]; [done|]. cbn [total]. rewrite IH. by destruct k. }
  pose proof (a_who _ _ _ _ _ _ _ _ Ha) as Hw. pose proof (a_life _ _ _ _ _ _ _ _ Ha) as Hl.
  inversion Hl; subst; try discriminate.
  - specialize (Hw SProc). rewrite Hz in Hw. cbn in Hw. lia.
  - specialize (Hw SPoll). rewrite Hz in Hw. cbn in Hw. lia.
  - specialize (Hw SWrite). rewrite Hz in Hw. cbn in Hw. lia.
  - specialize (Hw SReady). rewrite Hz in Hw. cbn in Hw. lia.
Qed.

Lemma wake_wanted sp i c s s' :
  inv s → ops s !! i = Some c → waking c = true → go local i sp s = Next s' →
  (∀ c', ops s' !! i = Some c' → waking c' = false) → wanted (polls s) s'.
Proof.
  intros [sc ru co cl ha r who Ha|Hg] Hi Hc Hgo Hend.
  2: { pose proof (Forall_lookup_1 _ _ _ _ (g_ops _ Hg) Hi) as Hh. by destruct c. }
  pose proof (waking_step sp _ _ _ _ _ _ _ _ _ _ Ha Hi Hc) as Hw. unfold wp in Hw.
  unfold go in Hgo. rewrite Hi in Hgo.
  destruct (step local sp c (blk s)) as [x p'| | |]; try done.
  assert (s' = resume i x p' s) as -> by (destruct c; congruence). destruct x as [c'|]; [|done].
  assert (ops (resume i (At c') p' s) !! i = Some c') as Hi'.
  { unfold resume. cbn. apply list_lookup_insert_eq. by eapply lookup_lt_Some. }
  rewrite (Hend c' Hi') in Hw. destruct Hw as [Hw|Hw]; [discriminate|].
  destruct (resume_word i (At c') p' s) as [Hpw Hpf]. unfold wanted. rewrite resume_polls, Hpw, Hpf.
  destruct c'; try (left; lia); right; (split; [lia|]); tauto.
Qed.

End Wanted.

(** ** Properties *)

Section Properties.
Context {R : Type}.
Import Threads.
Implicit Types (s : sys R) (l : list (move R)).

(** The references to a block that exist: wakers and [LightProc]s, and those that
    operations in progress have taken. *)
Definition references s : N :=
  N.of_nat (wakers s) + N.of_nat (queue (blk s)) + total owned (ops s).

(** No operation is in progress. *)
Definition settled s : Prop := Forall (λ c, c = Returned) (ops s).

Lemma total_settled (f : pc R → N) (l : list (pc R)) :
  f Returned = 0 → Forall (λ c, c = Returned) l → total f l = 0.
Proof. intros Hf. induction 1 as [|c k -> Hk IH]; [done|]. cbn [total]. lia. Qed.

(** C19: whatever operations on a proc are in progress at the same time and in
    whatever order their accesses to the block happen, with at most 2^30 of them in
    progress and as long as the handle is only dropped: the future is not dropped twice, no output is read that is not
    there, and only two kinds of access can be to freed memory, leaving the span at
    the end of [tick] and, for a proc bound to a worker, the use of the unparker
    after the push in its schedule function; while the handle is there no access
    is.  The count in the state word is exact at all times; and whenever no
    operation is in progress, the block has been freed if and only if nothing
    refers to it. *)
Theorem shared_memory_safe l :
  (∀ f, exec_all local l start = Broken f → f = LateSpan ∨ f = LateUnpark ∧ local = true) ∧
  exec_all local l start ≠ Spins ∧
  ∀ s, exec_all local l start = Next s →
    (held s = true → ∀ m f, exec local m s ≠ Broken f) ∧
    (freed (blk s) = false → State.get_refcount (word (blk s)) = references s) ∧
    (freed (blk s) = true → references s = 0 ∧ held s = false) ∧
    (settled s → references s = 0 → held s = false → freed (blk s) = true).
Proof.
  pose proof (moves_inv l _ (threads_start_inv (R := R))) as Hg.
  destruct (exec_all local l start) as [s| | |f|]; split_and!; try done.
  2: { by intros ? [= <-]. }
  intros ? [= <-]. unfold references. destruct Hg as [sc ru co cl ha r who Ha|Hg].
  - pose proof (alive_count _ _ _ _ _ _ _ _ Ha).
    rewrite (a_freed _ _ _ _ _ _ _ _ Ha), (a_word _ _ _ _ _ _ _ _ Ha).
    rewrite get_refcount_new by lia. split.
    { intros _ m f Hb. pose proof (move_alive m _ _ _ _ _ _ _ _ Ha) as Hm. by rewrite Hb in Hm. }
    destruct Ha. split_and!; [done|done|].
    intros Hset Hr Hh. rewrite (total_settled destroying) in a_destroy0 by done.
    rewrite (total_settled handling), Hh in a_handle0 by done.
    rewrite <- a_refs0 in Hr. subst r. rewrite Hr in a_destroy0. by destruct ha.
  - destruct Hg as [Hf Hq Hw Hh Ho]. rewrite Hf, Hq, Hw, Hh. split_and!; try done.
    intros _. split; [|done]. induction Ho as [|c k Hc Hk IH]; [done|]. cbn [total].
    destruct c; try discriminate; cbn; lia.
Qed.

(** Operations that have a [LightProc], or the future or the output to
    themselves. *)
Definition exclusive (c : pc R) : N := match stage_of c with Some _ => 1 | None => 0 end.

Lemma total_exclusive (l : list (pc R)) :
  total exclusive l = total (in_stage SProc) l + total (in_stage SPoll) l + total (in_stage SWrite) l +
    total (in_stage SReady) l + total (in_stage STake) l + total (in_stage SDrop) l +
    total (in_stage SOut) l.
Proof.
  induction l as [|c l IH]; [done|]. cbn [total]. rewrite IH.
  assert (exclusive c = in_stage SProc c + in_stage SPoll c + in_stage SWrite c + in_stage SReady c +
    in_stage STake c + in_stage SDrop c + in_stage SOut c) as ->.
  { unfold exclusive, in_stage. by destruct (stage_of c) as [[]|]. }
  lia.
Qed.

(** the future and the output are with one operation at a time: of the
    operations in progress, at most one has a [LightProc], is polling or dropping
    the future, or is writing or taking the output, and none if a [LightProc] is
    waiting to be run. *)
Theorem exclusive_access l s :
  exec_all local l start = Next s → total exclusive (ops s) + N.of_nat (queue (blk s)) <= 1.
Proof.
  intros Hs. destruct (threads_reached_inv _ _ Hs) as [sc ru co cl ha r who Ha|Hg].
  - pose proof (a_who _ _ _ _ _ _ _ _ Ha) as Hw. rewrite total_exclusive.
    pose proof (Hw SProc). pose proof (Hw SPoll). pose proof (Hw SWrite). pose proof (Hw SReady).
    pose proof (Hw STake). pose proof (Hw SDrop). pose proof (Hw SOut). clear Hw.
    destruct who as [[]|]; cbn [is_stage in_queue] in *; lia.
  - destruct Hg as [_ Hq _ _ Ho]. rewrite Hq.
    assert (total exclusive (ops s) = 0) as ->; [|done].
    induction Ho as [|c k Hc Hk IH]; [done|]. cbn [total]. rewrite IH. by destruct c.
Qed.

(** C20: a wake-up is not lost, whatever else happens meanwhile: from the step on
    by which a wake-up takes effect, until a poll begins or the proc is over, the
    proc is marked as scheduled, and whenever no operation is in progress it is
    with the executor. *)
Theorem shared_wakeup_not_lost l1 l2 s1 s2 s3 i c sp :
  exec_all local l1 start = Next s1 → ops s1 !! i = Some c → waking c = true →
  exec local (Go i sp) s1 = Next s2 → (∀ c', ops s2 !! i = Some c' → waking c' = false) →
  exec_all local l2 s2 = Next s3 →
  (polls s1 < polls s3)%nat ∨ freed (blk s3) = true ∨ State.is_completed (word (blk s3)) = true ∨
  State.is_closed (word (blk s3)) = true ∨
  State.is_scheduled (word (blk s3)) = true ∧ (settled s3 → queue (blk s3) = 1%nat).
Proof.
  intros Hs1 Hi Hc Hs2 Hend Hs3. pose proof (threads_reached_inv _ _ Hs1) as Hinv1.
  pose proof (move_inv (Go i sp) s1 Hinv1) as Hinv2. rewrite Hs2 in Hinv2. cbn [good] in Hinv2.
  pose proof (moves_inv l2 s2 Hinv2) as Hinv3. rewrite Hs3 in Hinv3. cbn [good] in Hinv3.
  pose proof (wake_wanted sp i c s1 s2 Hinv1 Hi Hc Hs2 Hend) as Hw.
  apply (moves_wanted _ l2 s2 s3 Hinv2 Hs3) in Hw as [Hw|[_ [Hw|[Hw|[Hw|Hw]]]]]; [by auto..|].
  destruct (freed (blk s3)) eqn:Hf; [by auto|].
  destruct (State.is_completed (word (blk s3))) eqn:Hco; [by auto|].
  destruct (State.is_closed (word (blk s3))) eqn:Hcl; [by auto|].
  do 4 right. split; [done|]. intros Hset. by apply scheduled_queued.
Qed.

End Properties.

End Shared.

(** ** Witnesses *)

Section Witnesses.
Import Threads.

(** The proc is run and left waiting with a waker; the handle is dropped while
    the waker wakes the proc again. *)
Definition before_wake : list (move nat) :=
  [Begin OpRun; Go 0 false; Go 0 false; Begin OpClone; Go 1 false; Go 1 false;
   Answer 0 PollPending; Go 0 false; Go 0 false; Begin OpDropHandle; Begin OpWake; Go 3 false;
   Go 2 true].

Definition after_wake : list (move nat) :=
  [Go 2 true; Go 3 false; Go 2 false; Go 3 false; Go 0 false; Go 0 false].

(** A proc bound to a worker. *)
Definition reached (l : list (move nat)) (s : sys nat) : sys nat :=
  match exec_all true l s with Next s => s | _ => start end.

Lemma exclusive_access_witness :
  total exclusive (ops (reached before_wake start)) +
    N.of_nat (queue (blk (reached before_wake start))) <= 1.
Proof. apply (exclusive_access true before_wake). vm_compute. reflexivity. Defined.

Lemma shared_wakeup_not_lost_witness :
  let s3 := reached after_wake (reached [Go 3 false] (reached before_wake start)) in
  State.is_scheduled (word (blk s3)) = true ∧ queue (blk s3) = 1%nat.
Proof.
  destruct (shared_wakeup_not_lost true (R := nat) before_wake after_wake (reached before_wake start)
    (reached [Go 3 false] (reached before_wake start))
    (reached after_wake (reached [Go 3 false] (reached before_wake start))) 3
    (WakeLoop (State.new (fl false false false false true false) 2)) false)
    as [Hp|[Hf|[Hco|[Hcl|[Hs Hq]]]]].
  - vm_compute. reflexivity.
  - vm_compute. reflexivity.
  - reflexivity.
  - vm_compute. reflexivity.
  - intros c' Hc'. vm_compute in Hc'. injection Hc' as <-. reflexivity.
  - vm_compute. reflexivity.
  - vm_compute in Hp. lia.
  - vm_compute in Hf. discriminate Hf.
  - vm_compute in Hco. discriminate Hco.
  - vm_compute in Hcl. discriminate Hcl.
  - split; [exact Hs|]. apply Hq. vm_compute. repeat constructor.
Defined.

(** The closure of [schedule_local] uses freed memory: a waker on another thread
    has pushed the proc and not yet unparked the worker, which runs the proc
    meanwhile and frees it with the closure in it. *)
Theorem unpark_after_free :
  exec_all true
    [Begin OpRun; Go 0 false; Go 0 false; Begin OpClone; Go 1 false; Go 1 false;
     Answer 0 PollPending; Go 0 false; Go 0 false; Go 0 false; Begin OpDropHandle; Go 2 false; Go 2 false;
     Begin OpWake; Go 3 false; Go 3 false; Go 3 false;
     Begin OpRun; Go 4 false; Go 4 false; Answer 4 (PollReady 7%nat);
     Go 4 false; Go 4 false; Go 4 false; Go 4 false; Go 4 false; Go 4 false; Go 4 false;
     Go 3 false] start = Broken LateUnpark.
Proof. vm_compute. reflexivity. Qed.

End Witnesses.

(** ** The lock of the awaiter *)

Module AwaiterLock.

(** Where a call of [swap_awaiter] is: taking the lock, about to replace the
    awaiter, about to release the lock. *)
Inductive at_lock := Acquiring | Replacing | Releasing | Left.

Section AwaiterLock.
Context {R : Type}.
Import State.

Definition lock_step (new : option nat) (c : at_lock) : M R at_lock :=
  match c with
  | Acquiring =>
      let% r := ProcData.lock_round (ProcData.is_none new) () in
      ret match r with inr _ => Replacing | inl _ => Acquiring end
  | Replacing => replace_awaiter new ;% ret Releasing
  | Releasing =>
      fetch (λ w, fetch_and w (if ProcData.is_none new then N.land (flag_not LOCKED) (flag_not AWAITER)
                               else flag_not LOCKED)) ;%
      ret Left
  | Left => ret Left
  end.

(** The call of [new1] takes a step where the schedule says [true]. *)
Fixpoint two_calls (new1 new2 : option nat) (l : list bool) (c1 c2 : at_lock) : M R (at_lock * at_lock) :=
  match l with
  | [] => ret (c1, c2)
  | true :: l => let% c1 := lock_step new1 c1 in two_calls new1 new2 l c1 c2
  | false :: l => let% c2 := lock_step new2 c2 in two_calls new1 new2 l c1 c2
  end.

End AwaiterLock.
End AwaiterLock.

(** The lock excludes nobody: while the first call of [swap_awaiter] spins, the
    second finds the bit the first has set and takes the lock for its own; both
    are then about to replace the awaiter. *)
Theorem awaiter_lock_excludes_nobody {R} :
  ∃ p : proc R, AwaiterLock.two_calls (Some 1%nat) None [true; false; true]
    AwaiterLock.Acquiring AwaiterLock.Acquiring (RawProc.allocate) =
  Ret (AwaiterLock.Replacing, AwaiterLock.Replacing) p.
Proof. eexists. vm_compute. reflexivity. Qed.
