(* ===== verification/ProcLayout.v ===== *)
(** * The memory of a proc (runtime/lightproc: layout_helpers.rs, proc_layout.rs,
      catch_unwind.rs and the layout part of raw_proc.rs)

    A proc is one allocation that holds its data, its schedule function and, in
    the same place one after the other, its future and its output.  [Layout] is
    [std::alloc::Layout] for 64-bit addresses; [extend] and [proc_layout] compute
    where the fields are, [from_ptr] the pointers to them, and [allocate] fills
    them.  Memory is a map from addresses to bytes, a byte that was never written
    being [None]; an access to an address that was not allocated is [Undefined].
    LightProc takes the fields of the block as given: what is shown here is that
    they do not interfere. *)

From S2P Require Import Prelude ProcThreads.

Local Open Scope N_scope.

(** ** Layouts *)

Module Layout.

Record t := mk { size : N; align : N }.

Definition is_power_of_two (n : N) : bool := n =? 2 ^ N.log2 n.

(** [Layout::from_size_align]: the size, rounded up to the alignment, is at most
    [isize::MAX]. *)
Definition from_size_align (size align : N) : option t :=
  if is_power_of_two align && (size + align <=? 2 ^ 63) then Some (mk size align) else None.

(** What holds of every layout. *)
Definition valid (l : t) : Prop := is_power_of_two (align l) = true ∧ size l + align l ≤ 2 ^ 63.

#[export] Instance valid_dec l : Decision (valid l).
Proof. unfold valid. apply _. Defined.

End Layout.

Import Layout.

Definition usize_add (a b : N) : N := wrap 64 (a + b).
Definition usize_sub (a b : N) : N := wrap 64 (a + 2 ^ 64 - b).
Definition checked_add (a b : N) : option N := if a + b <? 2 ^ 64 then Some (a + b) else None.

Definition padding_needed_for (layout : t) (align : N) : N :=
  let len := size layout in
  let len_rounded_up := N.land (usize_sub (usize_add len align) 1) (N.lnot (usize_sub align 1) 64) in
  usize_sub len_rounded_up len.

Definition extend (layout next : t) : outcome (t * N) :=
  let new_align := N.max (align layout) (align next) in
  let pad := padding_needed_for layout (align next) in
  let! offset := unwrap (checked_add (size layout) pad) in
  let! new_size := unwrap (checked_add offset (size next)) in
  let! layout := unwrap (from_size_align new_size new_align) in
  Done (layout, offset).

(** ** Where the fields of a proc are *)

Record ProcLayout := mkProcLayout {
  layout : t;
  offset_schedule : N;
  offset_future : N;
  offset_output : N;
}.

(** The layouts of [ProcData], of the schedule function, of the future, of
    [CatchUnwind<AssertUnwindSafe<F>>] and of the output. *)
Record Types := mkTypes {
  t_pdata : t;
  t_schedule : t;
  t_future : t;
  t_caught : t;
  t_output : t;
}.

Definition proc_layout (T : Types) : outcome ProcLayout :=
  let size_union := N.max (size (t_caught T)) (size (t_output T)) in
  let align_union := N.max (align (t_caught T)) (align (t_output T)) in
  let layout_union := mk size_union align_union in
  let! (layout, offset_schedule) := extend (t_pdata T) (t_schedule T) in
  let! (layout, offset_union) := extend layout layout_union in
  Done (mkProcLayout layout offset_schedule offset_union offset_union).

(** [RawProc]: the pointers to the fields. *)
Record Raw := mkRaw { pdata : N; schedule : N; future : N; output : N }.

Definition from_ptr (T : Types) (ptr : N) : outcome Raw :=
  let! l := proc_layout T in
  Done (mkRaw ptr (ptr + offset_schedule l) (ptr + offset_future l) (ptr + offset_output l)).

(** ** Memory *)

Abbreviation mem := (gmap N (option N)).

Fixpoint load (m : mem) (p : N) (n : nat) : option (list N) :=
  match n with
  | O => Some []
  | S n => b ← mjoin (m !! p); l ← load m (N.succ p) n; Some (b :: l)
  end.

(** [None]: some address is not allocated. *)
Fixpoint store (m : mem) (p : N) (bs : list N) : option mem :=
  match bs with
  | [] => Some m
  | b :: bs => if decide (is_Some (m !! p)) then store (<[p := Some b]> m) (N.succ p) bs else None
  end.

(** [alloc::alloc]. *)
Class Allocator := alloc : mem → t → option (N * mem).

(** An allocation is aligned, not null, does not wrap around, was not in use, and
    leaves everything else as it is. *)
Class AllocatorLaws `{Allocator} : Prop := {
  alloc_block m l p m' : alloc m l = Some (p, m') →
    0 < p ∧ p + size l ≤ 2 ^ 64 ∧ (align l | p);
  alloc_fresh m l p m' a : alloc m l = Some (p, m') → p ≤ a < p + size l →
    m !! a = None ∧ m' !! a = Some None;
  alloc_other m l p m' a : alloc m l = Some (p, m') → ¬ (p ≤ a < p + size l) → m' !! a = m !! a;
}.

Inductive allocation := Allocated (p : N) (m : mem) | Aborted | Undefined.

Section Allocate.
Context `{Allocator}.

(** [RawProc::allocate] with the bytes of the proc's data, of its schedule function
    and of its future. *)
Definition allocate (T : Types) (bpdata bschedule bfuture : list N) (m : mem) : outcome allocation :=
  let! l := proc_layout T in
  match alloc m (layout l) with
  | None => Done Aborted
  | Some (p, m) =>
      let! raw := from_ptr T p in
      Done match m ← store m (pdata raw) bpdata;
                 m ← store m (schedule raw) bschedule;
                 store m (future raw) bfuture with
           | Some m => Allocated p m
           | None => Undefined
           end
  end.

(** [raw.output.write(out)] of [tick]. *)
Definition write_output (T : Types) (p : N) (boutput : list N) (m : mem) : outcome (option mem) :=
  let! raw := from_ptr T p in
  Done (store m (output raw) boutput).

End Allocate.

(** ** Panics of the future *)

Module CatchUnwind.

(** [catch_unwind(..)?.map(Ok)]: the payload of a panic becomes an error. *)
Definition poll {A E} (payload : E) (inner : polled A) : polled (result A E) :=
  match inner with
  | PollPanic => PollReady (Err payload)
  | PollReady a => PollReady (Ok a)
  | PollPending => PollPending
  end.

End CatchUnwind.

(** ** Arithmetic *)

Definition round_up (n a : N) : N := (n + a - 1) / a * a.

Lemma power_of_two a : is_power_of_two a = true ↔ ∃ k, a = 2 ^ k.
Proof.
  unfold is_power_of_two. rewrite N.eqb_eq. split; [by eexists|].
  intros [k ->]. by rewrite N.log2_pow2 by lia.
Qed.

Lemma power_max a b : is_power_of_two a = true → is_power_of_two b = true → is_power_of_two (N.max a b) = true.
Proof. destruct (N.max_dec a b) as [-> | ->]; auto. Qed.

Lemma power_divides a b :
  is_power_of_two a = true → is_power_of_two b = true → a ≤ b → (a | b).
Proof.
  intros [j ->]%power_of_two [k ->]%power_of_two Hle.
  apply N.pow_le_mono_r_iff in Hle; [|lia].
  exists (2 ^ (k - j)). rewrite <- N.pow_add_r. f_equal. lia.
Qed.

Lemma power_pos a : is_power_of_two a = true → 0 < a.
Proof. intros [k ->]%power_of_two. pose proof (N.pow_nonzero 2 k). lia. Qed.

Lemma round_up_spec n a : 0 < a → n ≤ round_up n a < n + a ∧ (a | round_up n a).
Proof.
  intros Ha. unfold round_up. split; [|by exists ((n + a - 1) / a)].
  pose proof (N.div_mod' (n + a - 1) a) as Hd. pose proof (N.mod_lt (n + a - 1) a ltac:(lia)) as H.
  rewrite (N.mul_comm a) in Hd. revert Hd H. generalize ((n + a - 1) / a * a) ((n + a - 1) mod a). lia.
Qed.

(** Nothing below is a multiple. *)
Lemma round_up_least n a m : 0 < a → (a | m) → n ≤ m → round_up n a ≤ m.
Proof.
  intros Ha [q ->] Hn. unfold round_up. apply N.mul_le_mono_r.
  assert (n + a - 1 < a * (q + 1)) as Hlt by nia.
  apply N.Div0.div_lt_upper_bound in Hlt. revert Hlt. generalize ((n + a - 1) / a). lia.
Qed.

Lemma usize_sub_small a b : b ≤ a → a < 2 ^ 64 → usize_sub a b = a - b.
Proof.
  intros Hb Ha. unfold usize_sub, wrap. replace (a + 2 ^ 64 - b) with (a - b + 1 * 2 ^ 64) by lia.
  rewrite N.Div0.mod_add. apply N.mod_small. lia.
Qed.

(** Clearing the low bits rounds down. *)
Lemma mask_rounds n k : n < 2 ^ 64 → N.land n (N.lnot (2 ^ k - 1) 64) = n / 2 ^ k * 2 ^ k.
Proof.
  intros Hn. replace (2 ^ k - 1) with (N.ones k) by (rewrite N.ones_equiv; lia).
  assert (N.land n (N.lnot (N.ones k) 64) = N.ldiff n (N.ones k)) as ->.
  { destruct (decide (n = 0)) as [->|]; [done|].
    symmetry. apply N.ldiff_land_low. apply N.log2_lt_pow2; [lia|done]. }
  by rewrite N.ldiff_ones_r, N.shiftr_div_pow2, N.shiftl_mul_pow2.
Qed.

Lemma padding_round_up l a :
  size l < 2 ^ 63 → a ≤ 2 ^ 63 → is_power_of_two a = true →
  padding_needed_for l a = round_up (size l) a - size l.
Proof.
  intros Hs Ha Hp. pose proof (power_pos a Hp) as Hpos.
  destruct (proj1 (power_of_two a) Hp) as [k ->].
  destruct (round_up_spec (size l) (2 ^ k) Hpos) as [[Hlo Hhi] _].
  assert (2 ^ 64 = 2 * 2 ^ 63) as H64 by done.
  unfold padding_needed_for, usize_add, wrap. rewrite N.mod_small by lia.
  rewrite (usize_sub_small (2 ^ k)) by lia. rewrite (usize_sub_small (size l + 2 ^ k)) by lia.
  rewrite mask_rounds by lia. apply usize_sub_small; unfold round_up in *; lia.
Qed.

(** [extend] puts the next field at the first place behind that is aligned, or
    panics if the whole does not fit. *)
Lemma extend_spec l next :
  valid l → size next < 2 ^ 63 → align next ≤ 2 ^ 63 → is_power_of_two (align next) = true →
  let offset := round_up (size l) (align next) in
  let l' := mk (offset + size next) (N.max (align l) (align next)) in
  (valid l' ∧ extend l next = Done (l', offset)) ∨ (¬ valid l' ∧ extend l next = Panic).
Proof.
  intros [Hp Hs] Hn Ha Hpn offset l'.
  pose proof (power_pos _ Hp). pose proof (power_pos _ Hpn).
  destruct (round_up_spec (size l) (align next)) as [[Hlo Hhi] _]; [done|].
  assert (2 ^ 64 = 2 * 2 ^ 63) as H64 by done.
  assert (is_power_of_two (align l') = true) as Hpl by (apply power_max; done).
  unfold extend. rewrite padding_round_up by (done || lia). unfold checked_add.
  replace (size l + (round_up (size l) (align next) - size l)) with offset by lia.
  rewrite (proj2 (N.ltb_lt offset _)) by lia. cbn [unwrap outcome_bind].
  unfold from_size_align. change (N.max (align l) (align next)) with (align l'). rewrite Hpl.
  destruct (offset + size next <? 2 ^ 64) eqn:Ho; cbn [unwrap outcome_bind andb].
  - destruct (_ <=? _) eqn:Hle; cbn [unwrap outcome_bind].
    + left. split; [|done]. split; [done|]. by apply N.leb_le.
    + right. split; [|done]. intros [_ Hv]. apply N.leb_gt in Hle. cbn in Hv, Hle. lia.
  - right. split; [|done]. intros [_ Hv]. apply N.ltb_ge in Ho. cbn in Hv. lia.
Qed.

(** ** The layout of a proc *)

(** The layouts of types, where [CatchUnwind<AssertUnwindSafe<F>>] holds an [F]. *)
Record types_ok (T : Types) : Prop := {
  ok_pdata : valid (t_pdata T);
  ok_schedule : valid (t_schedule T);
  ok_future : valid (t_future T);
  ok_caught : valid (t_caught T);
  ok_output : valid (t_output T);
  caught_size : size (t_future T) ≤ size (t_caught T);
  caught_align : align (t_future T) ≤ align (t_caught T);
}.

(** The fields one behind the other, each at the first place that is aligned. *)
Definition packed (T : Types) : ProcLayout :=
  let a := N.max (align (t_caught T)) (align (t_output T)) in
  let o1 := round_up (size (t_pdata T)) (align (t_schedule T)) in
  let o2 := round_up (o1 + size (t_schedule T)) a in
  mkProcLayout
    (mk (o2 + N.max (size (t_caught T)) (size (t_output T)))
        (N.max (N.max (align (t_pdata T)) (align (t_schedule T))) a)) o1 o2 o2.

(** Where the fields may be: in order, apart from each other, aligned relative to
    the beginning, the last one for the future or the output. *)
Record placed (T : Types) (l : ProcLayout) : Prop := {
  placed_schedule : size (t_pdata T) ≤ offset_schedule l;
  placed_union : offset_schedule l + size (t_schedule T) ≤ offset_future l;
  placed_future : offset_future l + size (t_caught T) ≤ size (layout l);
  placed_output : offset_output l + size (t_output T) ≤ size (layout l);
  placed_same : offset_output l = offset_future l;
  aligned_schedule : (align (t_schedule T) | offset_schedule l);
  aligned_future : (align (t_caught T) | offset_future l);
  aligned_output : (align (t_output T) | offset_output l);
  aligned_all a : a ∈ [align (t_pdata T); align (t_schedule T); align (t_caught T); align (t_output T)] →
    (a | align (layout l));
}.

Lemma packed_placed T : types_ok T → placed T (packed T).
Proof.
  intros [[Hpp Hps] [Hsp Hss] [Hfp Hfs] [Hcp Hcs] [Hop Hos] Hsize Halign].
  set (a := N.max (align (t_caught T)) (align (t_output T))).
  assert (is_power_of_two a = true) as Hap by (by apply power_max).
  assert (is_power_of_two (align (layout (packed T))) = true) as Hlp by (cbn; auto using power_max).
  pose proof (power_pos _ Hsp). pose proof (power_pos _ Hap).
  destruct (round_up_spec (size (t_pdata T)) (align (t_schedule T))) as [[H1 _] Hd1]; [done|].
  destruct (round_up_spec (round_up (size (t_pdata T)) (align (t_schedule T)) + size (t_schedule T)) a)
    as [[H2 _] Hd2]; [done|].
  split; cbn; fold a; try done; try lia.
  - etrans; [apply power_divides; [done|exact Hap|lia]|done].
  - etrans; [apply power_divides; [done|exact Hap|lia]|done].
  - intros b Hb. cbn in Hlp. rewrite !elem_of_cons, elem_of_nil in Hb.
    apply power_divides; [naive_solver|done|naive_solver lia].
Qed.

Lemma proc_layout_packed T :
  types_ok T →
  (valid (layout (packed T)) ∧ proc_layout T = Done (packed T)) ∨
  (¬ valid (layout (packed T)) ∧ proc_layout T = Panic).
Proof.
  intros [Hpd [Hsp Hss] _ [Hcp Hcs] [Hop Hos] _ _].
  set (a := N.max (align (t_caught T)) (align (t_output T))).
  assert (is_power_of_two a = true) as Hap by (by apply power_max).
  pose proof (power_pos _ Hsp). pose proof (power_pos _ Hcp). pose proof (power_pos _ Hop).
  pose proof (power_pos _ Hap).
  unfold proc_layout. fold a.
  destruct (extend_spec (t_pdata T) (t_schedule T)) as [[Hv ->]|[Hv ->]]; try done; try lia;
    cbn [outcome_bind].
  2: { right. split; [|done]. intros [Hvp Hvs]. apply Hv. split; [by apply power_max, Hsp; apply Hpd|].
       cbn in *. fold a in Hvs.
       pose proof (round_up_spec (round_up (size (t_pdata T)) (align (t_schedule T)) + size (t_schedule T)) a). lia. }
  destruct (extend_spec _ (mk (N.max (size (t_caught T)) (size (t_output T))) a) Hv)
    as [[Hv2 ->]|[Hv2 ->]]; cbn [size align]; try done; try lia; [by left|by right].
Qed.

(** ** Reading and writing *)

Lemma load_ext m m' p n :
  (∀ a, p ≤ a < p + N.of_nat n → m !! a = m' !! a) → load m p n = load m' p n.
Proof.
  induction n as [|n IH] in p |- *; intros Ha; [done|]. cbn.
  rewrite (Ha p) by lia. rewrite (IH (N.succ p)); [done|]. intros. apply Ha. lia.
Qed.

Lemma store_spec m p bs :
  (∀ a, p ≤ a < p + N.of_nat (length bs) → is_Some (m !! a)) →
  ∃ m', store m p bs = Some m' ∧ load m' p (length bs) = Some bs ∧
    (∀ a, ¬ (p ≤ a < p + N.of_nat (length bs)) → m' !! a = m !! a) ∧
    (∀ a, is_Some (m !! a) → is_Some (m' !! a)).
Proof.
  induction bs as [|b bs IH] in m, p |- *; intros Ha; [by exists m|]. cbn.
  rewrite decide_True by (apply Ha; cbn; lia).
  destruct (IH (<[p := Some b]> m) (N.succ p)) as (m' & -> & Hl & Ho & Hs).
  { intros a Hr. destruct (decide (a = p)) as [->|]; [by rewrite lookup_insert_eq|].
    rewrite lookup_insert_ne by done. apply Ha. cbn. lia. }
  exists m'. split; [done|]. split; [|split].
  - rewrite Ho by lia. rewrite lookup_insert_eq. cbn. by rewrite Hl.
  - intros a Hr. rewrite Ho by lia. apply lookup_insert_ne. lia.
  - intros a Hin. apply Hs. destruct (decide (a = p)) as [->|]; [by rewrite lookup_insert_eq|].
    by rewrite lookup_insert_ne.
Qed.

(** *** The fields of a proc in memory *)

Section Fields.
Context `{AllocatorLaws} (T : Types) (HT : types_ok T).

Lemma from_ptr_fields p raw :
  from_ptr T p = Done raw →
  ∃ l, proc_layout T = Done l ∧ placed T l ∧
    raw = mkRaw p (p + offset_schedule l) (p + offset_future l) (p + offset_output l).
Proof.
  unfold from_ptr. intros (l & Hl & ?)%outcome_bind_Done. exists l. split; [done|]. split; [|congruence].
  destruct (proc_layout_packed T HT) as [[_ Hp]|[_ Hp]]; rewrite Hp in Hl; simplify_eq.
  by apply packed_placed.
Qed.

Lemma from_ptr_layout l p :
  proc_layout T = Done l →
  from_ptr T p = Done (mkRaw p (p + offset_schedule l) (p + offset_future l) (p + offset_output l)).
Proof. intros Hl. unfold from_ptr. by rewrite Hl. Qed.

(** Every other way to place the fields needs at least as much room. *)
Lemma packed_least l :
  placed T l → offset_schedule (packed T) ≤ offset_schedule l ∧
    offset_future (packed T) ≤ offset_future l ∧ size (layout (packed T)) ≤ size (layout l).
Proof.
  intros [Hs Hu Hf Ho He As Af Ao _]. destruct HT as [_ [Hsp _] _ [Hcp _] [Hop _] _ _].
  assert (offset_schedule (packed T) ≤ offset_schedule l) as H1.
  { apply round_up_least; [by apply power_pos|done|done]. }
  assert (offset_future (packed T) ≤ offset_future l) as H2.
  { apply round_up_least; [by apply power_pos, power_max| |cbn in H1; lia].
    destruct (N.max_dec (align (t_caught T)) (align (t_output T))) as [-> | ->]; congruence. }
  split; [done|]. split; [done|]. cbn in *. lia.
Qed.

(** C22: a proc's fields fit together: the layout has each field aligned and apart from
    the others, except that the future and the output share their place; the data
    is at the start, where every type of proc has it, then come the schedule
    function and the shared place, and of the layouts with the fields in this order
    it is the smallest (another order may need less padding); it is computed
    whenever it fits into half the address space, and is a panic otherwise; and if
    a pointer has the alignment of the whole, the pointers to the fields have
    theirs. *)
Theorem proc_layout_exact :
  proc_layout T = (if decide (valid (layout (packed T))) then Done (packed T) else Panic) ∧
  placed T (packed T) ∧
  (∀ l, placed T l → size (layout (packed T)) ≤ size (layout l)) ∧
  (∀ p raw, from_ptr T p = Done raw → (align (layout (packed T)) | p) →
     (align (t_pdata T) | pdata raw) ∧ (align (t_schedule T) | schedule raw) ∧
     (align (t_future T) | future raw) ∧ (align (t_output T) | output raw)).
Proof.
  split; [|split; [by apply packed_placed|split; [by intros l (_ & _ & ?)%packed_least|]]].
  { destruct (proc_layout_packed T HT) as [[? ->]|[? ->]]; [by rewrite decide_True|by rewrite decide_False]. }
  intros p raw (l & Hl & Hpl & ->)%from_ptr_fields Hp. cbn.
  assert (l = packed T) as -> by (destruct (proc_layout_packed T HT) as [[_ Hq]|[_ Hq]]; congruence).
  destruct Hpl as [_ _ _ _ _ As Af Ao Aall].
  assert (∀ a, a ∈ [align (t_pdata T); align (t_schedule T); align (t_caught T); align (t_output T)] → (a | p)) as Hd.
  { intros a Ha. etrans; [by apply Aall|done]. }
  assert ((align (t_future T) | align (t_caught T))) as Hf by (apply power_divides; by apply HT).
  split_and!; [apply Hd; set_solver|apply N.divide_add_r; [apply Hd; set_solver|done]| |
    apply N.divide_add_r; [apply Hd; set_solver|done]].
  etrans; [exact Hf|]. apply N.divide_add_r; [apply Hd; set_solver|done].
Qed.

(** In the block of an allocation. *)
Lemma allocated_in m p m' l a :
  alloc m l = Some (p, m') → p ≤ a < p + size l → is_Some (m' !! a).
Proof. intros Ha Hr. destruct (alloc_fresh _ _ _ _ _ Ha Hr) as [_ ->]. eauto. Qed.

(** C23: what is stored in a proc is found there again: allocating a proc never
    touches memory outside its block, its data, schedule function and future are
    then read back as they were written, and when the future is replaced by its
    output, the data and the schedule function are unchanged and the output is
    read back; and nothing else in memory has changed. *)
Theorem proc_fields_stored bpdata bschedule bfuture boutput m :
  N.of_nat (length bpdata) = size (t_pdata T) → N.of_nat (length bschedule) = size (t_schedule T) →
  N.of_nat (length bfuture) = size (t_future T) → N.of_nat (length boutput) = size (t_output T) →
  allocate T bpdata bschedule bfuture m ≠ Done Undefined ∧
  ∀ p m1, allocate T bpdata bschedule bfuture m = Done (Allocated p m1) →
    ∃ raw m2, from_ptr T p = Done raw ∧
      load m1 (pdata raw) (length bpdata) = Some bpdata ∧
      load m1 (schedule raw) (length bschedule) = Some bschedule ∧
      load m1 (future raw) (length bfuture) = Some bfuture ∧
      write_output T p boutput m1 = Done (Some m2) ∧
      load m2 (pdata raw) (length bpdata) = Some bpdata ∧
      load m2 (schedule raw) (length bschedule) = Some bschedule ∧
      load m2 (output raw) (length boutput) = Some boutput ∧
      ∀ a, is_Some (m !! a) → m1 !! a = m !! a ∧ m2 !! a = m !! a.
Proof.
  intros Lp Ls Lf Lo. unfold allocate, write_output.
  destruct (proc_layout T) as [l| |] eqn:Hl; cbn [outcome_bind]; [|split; done..].
  destruct (alloc m (layout l)) as [[p m0]|] eqn:Ha; [|split; done].
  rewrite (from_ptr_layout l p Hl). cbn [outcome_bind pdata schedule future output].
  destruct (from_ptr_fields p _ (from_ptr_layout l p Hl)) as (l' & Hl' & Hpl & _).
  assert (l = l') as -> by congruence. clear Hl'.
  destruct Hpl as [Ps Pu Pf Po Pe _ _ _ _]. pose proof (caught_size T HT) as Hc.
  assert (∀ a, p ≤ a < p + size (layout l') → is_Some (m0 !! a)) as Hin by (intros; by eapply allocated_in).
  destruct (store_spec m0 p bpdata) as (ma & -> & La & Oa & Sa); [intros; apply Hin; lia|]. cbn [mbind option_bind].
  destruct (store_spec ma (p + offset_schedule l') bschedule) as (mb & -> & Lb & Ob & Sb);
    [intros; apply Sa, Hin; lia|]. cbn [mbind option_bind].
  destruct (store_spec mb (p + offset_future l') bfuture) as (mc & -> & Lc & Oc & Sc);
    [intros; apply Sb, Sa, Hin; lia|].
  split; [done|]. intros p1 m1 Heq. simplify_eq.
  destruct (store_spec m1 (p1 + offset_output l') boutput) as (md & Hmd & Ld & Od & _);
    [intros; apply Sc, Sb, Sa, Hin; lia|].
  assert (load m1 p1 (length bpdata) = Some bpdata) as Hp1.
  { rewrite <- La. apply load_ext. intros. rewrite Oc, Ob by lia. done. }
  assert (load m1 (p1 + offset_schedule l') (length bschedule) = Some bschedule) as Hs1.
  { rewrite <- Lb. apply load_ext. intros. rewrite Oc by lia. done. }
  eexists _, md. split; [by apply from_ptr_layout|]. rewrite (from_ptr_layout l' p1 Hl).
  cbn [outcome_bind pdata schedule future output]. rewrite Hmd. split_and!; try done.
  - rewrite <- Hp1. apply load_ext. intros. by rewrite Od by lia.
  - rewrite <- Hs1. apply load_ext. intros. by rewrite Od by lia.
  - intros a Hm. assert (¬ (p1 ≤ a < p1 + size (layout l'))) as Hnot.
    { intros Hr. destruct (alloc_fresh _ _ _ _ _ Ha Hr) as [Hn _]. rewrite Hn in Hm. by destruct Hm. }
    rewrite Od, Oc, Ob, Oa, (alloc_other _ _ _ _ _ Ha) by lia. done.
Qed.

End Fields.

(** ** A proc in an empty memory *)

Section Witnesses.

Fixpoint free (m : mem) (p : N) (n : nat) : bool :=
  match n with
  | O => true
  | S n => bool_decide (m !! p = None) && free m (N.succ p) n
  end.

Fixpoint reserve (m : mem) (p : N) (n : nat) : mem :=
  match n with
  | O => m
  | S n => <[p := None]> (reserve m (N.succ p) n)
  end.

(** An allocator that has one place to offer. *)
#[local] Instance one_place : Allocator := λ m l,
  let p := align l in
  if (0 <? p) && (p + size l <=? 2 ^ 64) && free m p (N.to_nat (size l))
  then Some (p, reserve m p (N.to_nat (size l))) else None.

Lemma free_spec m p n a : free m p n = true → p ≤ a < p + N.of_nat n → m !! a = None.
Proof.
  induction n as [|n IH] in p |- *; cbn [free]; [lia|].
  intros [Hp%bool_decide_eq_true Hf]%andb_prop Ha.
  destruct (decide (a = p)) as [->|]; [done|]. apply (IH (N.succ p)); [done|lia].
Qed.

Lemma reserve_spec m p n a :
  reserve m p n !! a = if decide (p ≤ a < p + N.of_nat n) then Some None else m !! a.
Proof.
  induction n as [|n IH] in p |- *; cbn [reserve]; [rewrite decide_False by lia; done|].
  destruct (decide (a = p)) as [->|]; [rewrite lookup_insert_eq, decide_True by lia; done|].
  rewrite lookup_insert_ne by done. rewrite IH. apply decide_ext. lia.
Qed.

#[local] Instance one_place_laws : AllocatorLaws.
Proof.
  split; unfold alloc, one_place; intros m l p m'; [|intros a..]; case_match eqn:He; try done; intros [= <- <-];
    apply andb_prop in He as [[Hp%N.ltb_lt Hs%N.leb_le]%andb_prop Hf].
  - split; [done|]. split; [done|]. apply N.divide_refl.
  - intros Hr. rewrite reserve_spec, decide_True by lia. split; [|done].
    apply (free_spec _ _ _ _ Hf). lia.
  - intros Hr. rewrite reserve_spec, decide_False by lia. done.
Qed.

Definition small : Types := mkTypes (mk 16 8) (mk 3 1) (mk 8 4) (mk 8 4) (mk 16 16).

Lemma small_ok : types_ok small.
Proof. by split. Qed.

Lemma proc_layout_exact_witness :
  proc_layout small = Done (mkProcLayout (mk 48 16) 16 32 32) ∧
  ∀ p, (16 | p) → (16 | p + 32).
Proof.
  destruct (proc_layout_exact small small_ok) as (-> & _ & _ & Hf). split; [by vm_compute|].
  intros p Hp. apply (Hf p (mkRaw p (p + 16) (p + 32) (p + 32))); [by vm_compute|exact Hp].
Defined.

Lemma proc_fields_stored_witness :
  ∃ p m1 raw, allocate small (replicate 16 1) (replicate 3 2) (replicate 8 3) ∅ = Done (Allocated p m1) ∧
    from_ptr small p = Done raw ∧ load m1 (schedule raw) 3 = Some [2; 2; 2].
Proof.
  destruct (proc_fields_stored small small_ok (replicate 16 1) (replicate 3 2) (replicate 8 3)
              (replicate 16 4) ∅) as [_ Hs]; try done.
  destruct (allocate small (replicate 16 1) (replicate 3 2) (replicate 8 3) ∅) as [[p m1| |]| |] eqn:Ha;
    try (exfalso; vm_compute in Ha; discriminate).
  destruct (Hs p m1 eq_refl) as (raw & m2 & Hr & _ & Hl & _). exists p, m1, raw.
  split; [reflexivity|]. split; [exact Hr|exact Hl].
Defined.

End Witnesses.
