(* ===== verification/ConsoleStats.v ===== *)
(** * What the runtime console measures (runtime/console: stats.rs, attribute.rs,
      event.rs)

    The console is a tracing subscriber that reports the executor's tasks,
    resources and asynchronous operations to a debugging client.  This file
    holds the measured values: [TimeAnchor], [PollStats] with its [Histogram],
    [TaskStats], [Attributes], [ResourceStats] and [AsyncOpStats].  Instants,
    system times and durations are nanoseconds; the counters are 64-bit atomics
    that wrap; each operation is one step.  The histogram's buckets belong to
    the hdrhistogram crate, the interface [Hdr]. *)

From S2P Require Import Prelude.

Local Open Scope N_scope.

(** ** Time *)

Definition NANOS : N := 10 ^ 9.

(** [Duration] is 64 bits of seconds and a part of a second; adding panics on
    overflow. *)
Definition duration_max : N := 2 ^ 64 * NANOS - 1.

Definition duration_add (a b : N) : outcome N :=
  if a + b <=? duration_max then Done (a + b) else Panic.

(** [Instant::checked_duration_since] *)
Definition checked_duration_since (later earlier : N) : option N :=
  if earlier <=? later then Some (later - earlier) else None.

(** [cmp::max] on options: [None] is the least. *)
Definition option_max (a b : option N) : option N :=
  match a, b with
  | Some x, Some y => Some (N.max x y)
  | Some x, None => Some x
  | None, b => b
  end.

(** [fetch_add(1)] and [fetch_sub(1)] of an [AtomicUsize]. *)
Definition incr (n : N) : N := wrap 64 (n + 1).
Definition decr (n : N) : N := wrap 64 (n + (2 ^ 64 - 1)).

(** [prost_types::Timestamp] *)
Record Timestamp := mkTimestamp { seconds : N; nanos : N }.

Module TimeAnchor.

Record t := mk { mono : N; sys : N }.

Definition new (mono_now sys_now : N) : t := mk mono_now sys_now.

Definition to_system_time (self : t) (at_ : N) : N :=
  sys self + default 0 (checked_duration_since at_ (mono self)).

Definition to_timestamp (self : t) (at_ : N) : Timestamp :=
  let s := to_system_time self at_ in
  mkTimestamp (s / NANOS) (s `mod` NANOS).

End TimeAnchor.

(** ** The traits

    [Unsent] reads and clears the flag that says an entry has changed since it
    was last sent, [DroppedAt] when it was dropped, [ToProto] turns it into its
    message.  The laws are what the id maps rely on. *)
Class Unsent (T : Type) := {
  take_unsent : T → bool * T;
  is_unsent : T → bool;
}.

Class DroppedAt (T : Type) := dropped_at : T → option N.

Class ToProto (T O : Type) := to_proto : T → TimeAnchor.t → O.
#[global] Hint Mode ToProto ! - : typeclass_instances.

Class UnsentLaws (T O : Type) `{Unsent T, ToProto T O} : Prop := {
  take_unsent_fst x : (take_unsent x).1 = is_unsent x;
  take_unsent_clears x : is_unsent (take_unsent x).2 = false;
  take_unsent_proto x base : to_proto (take_unsent x).2 base = to_proto x base;
}.

Class RecordPoll (H : Type) := record_poll_duration : H → N → outcome H.

#[export] Instance unit_record_poll : RecordPoll unit := λ self _, Done self.

(** ** Polls in progress *)

Module PollStats.

Record PollTimestamps (H : Type) := mkTimestamps {
  first_poll : option N;
  last_poll_started : option N;
  last_poll_ended : option N;
  busy_time : N;
  histogram : H;
}.
Arguments mkTimestamps {H}.
Arguments first_poll {H}.
Arguments last_poll_started {H}.
Arguments last_poll_ended {H}.
Arguments busy_time {H}.
Arguments histogram {H}.

Record t (H : Type) := mk {
  current_polls : N;
  polls : N;
  timestamps : PollTimestamps H;
}.
Arguments mk {H}.
Arguments current_polls {H}.
Arguments polls {H}.
Arguments timestamps {H}.

Section Ops.
Context {H : Type} `{RecordPoll H}.

(** The derived [Default] (for [AsyncOpStats]) and the value [TaskStats::new]
    builds are both this one. *)
Definition new (h : H) : t H := mk 0 0 (mkTimestamps None None None 0 h).

Definition start_poll (self : t H) (at_ : N) : t H :=
  let prev := current_polls self in
  if prev =? 0 then
    let ts := timestamps self in
    let first := match first_poll ts with None => Some at_ | Some f => Some f end in
    mk (incr prev) (incr (polls self))
       (mkTimestamps first (Some at_) (last_poll_ended ts) (busy_time ts) (histogram ts))
  else mk (incr prev) (polls self) (timestamps self).

Definition end_poll (self : t H) (at_ : N) : outcome (t H) :=
  let prev := current_polls self in
  let self := mk (decr prev) (polls self) (timestamps self) in
  if 1 <? prev then Done self
  else
    let ts := timestamps self in
    match last_poll_started ts with
    | None => Done self
    | Some started =>
        let ts := mkTimestamps (first_poll ts) (last_poll_started ts) (Some at_)
                    (busy_time ts) (histogram ts) in
        match checked_duration_since at_ started with
        | None => Done (mk (current_polls self) (polls self) ts)
        | Some elapsed =>
            let! h := record_poll_duration (histogram ts) elapsed in
            let! busy := duration_add (busy_time ts) elapsed in
            Done (mk (current_polls self) (polls self)
                    (mkTimestamps (first_poll ts) (last_poll_started ts) (last_poll_ended ts)
                       busy h))
        end
    end.

End Ops.

(** [console_api::PollStats] *)
Record Proto := mkProto {
  p_polls : N;
  p_first_poll : option Timestamp;
  p_last_poll_started : option Timestamp;
  p_last_poll_ended : option Timestamp;
  p_busy_time : option N;
}.

Definition proto {H} (self : t H) (base : TimeAnchor.t) : Proto :=
  let ts := timestamps self in
  mkProto (polls self)
    (TimeAnchor.to_timestamp base <$> first_poll ts)
    (TimeAnchor.to_timestamp base <$> last_poll_started ts)
    (TimeAnchor.to_timestamp base <$> last_poll_ended ts)
    (Some (busy_time ts)).

End PollStats.

(** ** Histograms of poll durations

    [Hdr] is hdrhistogram's [Histogram<u64>] with its serializer: creating one
    needs a highest value of at least 2 and at most 5 significant figures, and
    recording a value within the highest trackable one succeeds. *)
Class Hdr := {
  hdr : Type;
  hdr_new_with_max : N → N → option hdr;
  hdr_record : hdr → N → option hdr;
  hdr_serialize : hdr → option (list N);
}.

Class HdrLaws `{Hdr} := {
  hdr_high : hdr → N;
  hdr_new_ok high sigfig : 2 ≤ high → sigfig ≤ 5 →
    ∃ h, hdr_new_with_max high sigfig = Some h ∧ high ≤ hdr_high h;
  hdr_record_ok h v : v ≤ hdr_high h →
    ∃ h', hdr_record h v = Some h' ∧ hdr_high h' = hdr_high h;
}.

Module Histogram.
Section Ops.
Context `{Hdr}.

Record t := mk {
  histogram : hdr;
  max : N;
  outliers : N;
  max_outlier : option N;
}.

Definition new (max : N) : outcome t :=
  let! histogram := unwrap (hdr_new_with_max max 2) in
  Done (mk histogram max 0 None).

(** [console_api::tasks::DurationHistogram] *)
Record Proto := mkProto {
  raw_histogram : list N;
  max_value : N;
  high_outliers : N;
  highest_outlier : option N;
}.

Definition to_proto (self : t) : outcome Proto :=
  let! raw := unwrap (hdr_serialize (histogram self)) in
  Done (mkProto raw (max self) (outliers self) (max_outlier self)).

(** [duration.as_nanos() as u64] keeps the low 64 bits; [outliers += 1] is
    checked. *)
#[global] Instance record_poll : RecordPoll t := λ self duration,
  let duration_ns := wrap 64 duration in
  let! (self, duration_ns) :=
    (if max self <? duration_ns then
       if outliers self + 1 <? 2 ^ 64 then
         Done (mk (histogram self) (max self) (outliers self + 1)
                 (option_max (max_outlier self) (Some duration_ns)), max self)
       else Panic
     else Done (self, duration_ns)) in
  let! h := unwrap (hdr_record (histogram self) duration_ns) in
  Done (mk h (max self) (outliers self) (max_outlier self)).

End Ops.
End Histogram.

(** ** Operations on wakers (event.rs) *)

Module WakeOp.

Inductive t :=
| Wake (self_wake : bool)
| WakeByRef (self_wake : bool)
| Clone
| Drop.

Definition is_wake (self : t) : bool :=
  match self with
  | Wake _ | WakeByRef _ => true
  | _ => false
  end.

Definition self_wake (self : t) (b : bool) : t :=
  match self with
  | Wake _ => Wake b
  | WakeByRef _ => WakeByRef b
  | x => x
  end.

End WakeOp.

(** ** Tasks *)

Module TaskStats.
Section Ops.
Context `{Hdr}.

Record TaskTimestamps := mkTimestamps {
  dropped_at_ : option N;
  last_wake : option N;
}.

Record t := mk {
  is_dirty : bool;
  is_dropped : bool;
  created_at : N;
  timestamps : TaskTimestamps;
  wakes : N;
  waker_clones : N;
  waker_drops : N;
  self_wakes : N;
  poll_stats : PollStats.t Histogram.t;
}.

Definition new (poll_duration_max created_at : N) : outcome t :=
  let! h := Histogram.new poll_duration_max in
  Done (mk true false created_at (mkTimestamps None None) 0 1 0 0 (PollStats.new h)).

Definition poll_duration_histogram (self : t) : outcome Histogram.Proto :=
  Histogram.to_proto (PollStats.histogram (PollStats.timestamps (poll_stats self))).

Definition make_dirty (self : t) : t :=
  mk true (is_dropped self) (created_at self) (timestamps self) (wakes self)
     (waker_clones self) (waker_drops self) (self_wakes self) (poll_stats self).

Definition set_poll_stats (self : t) (p : PollStats.t Histogram.t) : t :=
  mk (is_dirty self) (is_dropped self) (created_at self) (timestamps self) (wakes self)
     (waker_clones self) (waker_drops self) (self_wakes self) p.

(** A self-wake is counted a second time in [wakes]; [self_wakes] is not
    touched. *)
Definition wake (self : t) (at_ : N) (self_wake : bool) : t :=
  let ts := mkTimestamps (dropped_at_ (timestamps self))
              (option_max (last_wake (timestamps self)) (Some at_)) in
  let w := if self_wake then incr (wakes self) else wakes self in
  mk (is_dirty self) (is_dropped self) (created_at self) ts (incr w)
     (waker_clones self) (waker_drops self) (self_wakes self) (poll_stats self).

Definition record_wake_op (self : t) (op : WakeOp.t) (at_ : N) : t :=
  make_dirty
    match op with
    | WakeOp.Wake self_wake => wake self at_ self_wake
    | WakeOp.WakeByRef self_wake => wake self at_ self_wake
    | WakeOp.Clone =>
        mk (is_dirty self) (is_dropped self) (created_at self) (timestamps self) (wakes self)
           (incr (waker_clones self)) (waker_drops self) (self_wakes self) (poll_stats self)
    | WakeOp.Drop =>
        mk (is_dirty self) (is_dropped self) (created_at self) (timestamps self) (wakes self)
           (waker_clones self) (incr (waker_drops self)) (self_wakes self) (poll_stats self)
    end.

Definition start_poll (self : t) (at_ : N) : t :=
  make_dirty (set_poll_stats self (PollStats.start_poll (poll_stats self) at_)).

Definition end_poll (self : t) (at_ : N) : outcome t :=
  let! p := PollStats.end_poll (poll_stats self) at_ in
  Done (make_dirty (set_poll_stats self p)).

(** The [debug_assert_eq] on the previous time is a panic. *)
Definition drop_task (self : t) (at_ : N) : outcome t :=
  if is_dropped self then Done self
  else
    match dropped_at_ (timestamps self) with
    | Some _ => Panic
    | None =>
        Done (make_dirty
          (mk (is_dirty self) true (created_at self)
              (mkTimestamps (Some at_) (last_wake (timestamps self))) (wakes self)
              (waker_clones self) (waker_drops self) (self_wakes self) (poll_stats self)))
    end.

(** [console_api::tasks::Stats] *)
Record Proto := mkProto {
  p_poll_stats : option PollStats.Proto;
  p_created_at : option Timestamp;
  p_dropped_at : option Timestamp;
  p_wakes : N;
  p_waker_clones : N;
  p_self_wakes : N;
  p_waker_drops : N;
  p_last_wake : option Timestamp;
}.

#[global] Instance task_to_proto : ToProto t Proto := λ self base,
  mkProto (Some (PollStats.proto (poll_stats self) base))
    (Some (TimeAnchor.to_timestamp base (created_at self)))
    (TimeAnchor.to_timestamp base <$> dropped_at_ (timestamps self))
    (wakes self) (waker_clones self) (self_wakes self) (waker_drops self)
    (TimeAnchor.to_timestamp base <$> last_wake (timestamps self)).

#[global] Instance task_unsent : Unsent t := {|
  take_unsent self :=
    (is_dirty self,
     mk false (is_dropped self) (created_at self) (timestamps self) (wakes self)
       (waker_clones self) (waker_drops self) (self_wakes self) (poll_stats self));
  is_unsent := is_dirty;
|}.

#[global] Instance task_dropped_at : DroppedAt t := λ self,
  if is_dropped self then dropped_at_ (timestamps self) else None.

#[global] Instance task_unsent_laws : UnsentLaws t Proto.
Proof. by constructor. Qed.

End Ops.
End TaskStats.

(** ** Attributes of resources (attribute.rs)

    [console_api::field::Value]: integers are 64 bits wide, signed ones are
    [Z].  A field's name is the text tracing gives it. *)
Inductive FieldValue :=
| BoolVal (b : bool)
| StrVal (s : string)
| DebugVal (s : string)
| U64Val (n : N)
| I64Val (z : Z).

Record Field := mkField {
  name : option string;
  value : option FieldValue;
  metadata_id : option N;
}.

#[export] Instance FieldValue_eq_dec : EqDecision FieldValue.
Proof. solve_decision. Defined.
#[export] Instance Field_eq_dec : EqDecision Field.
Proof. solve_decision. Defined.

(** [saturating_add] and [saturating_sub] *)
Definition u64_saturating_add (a b : N) : N := N.min (a + b) (2 ^ 64 - 1).
Definition u64_saturating_sub (a b : N) : N := a - b.
Definition i64_clamp (z : Z) : Z := Z.max (- 2 ^ 63) (Z.min z (2 ^ 63 - 1)).
Definition i64_saturating_add (a b : Z) : Z := i64_clamp (a + b).
Definition i64_saturating_sub (a b : Z) : Z := i64_clamp (a - b).

Module Attributes.

Inductive UpdateOp := Add | Override | Sub.

Record Update := mkUpdate {
  field : Field;
  op : option UpdateOp;
  unit_ : option string;
}.

(** [console_api::Attribute] *)
Record Attribute := mkAttribute {
  a_field : option Field;
  a_unit : option string;
}.

Definition from_update (upd : Update) : Attribute := mkAttribute (Some (field upd)) (unit_ upd).

(** What an update makes of a value; [None] where the code only warns. *)
Definition updated_value (old : FieldValue) (update : Update) : option FieldValue :=
  match old, value (field update) with
  | BoolVal _, Some (BoolVal upd) => Some (BoolVal upd)
  | StrVal _, Some (StrVal upd) => Some (StrVal upd)
  | DebugVal _, Some (DebugVal upd) => Some (DebugVal upd)
  | U64Val v, Some (U64Val upd) =>
      match op update with
      | Some Add => Some (U64Val (u64_saturating_add v upd))
      | Some Sub => Some (U64Val (u64_saturating_sub v upd))
      | Some Override => Some (U64Val upd)
      | None => None
      end
  | I64Val v, Some (I64Val upd) =>
      match op update with
      | Some Add => Some (I64Val (i64_saturating_add v upd))
      | Some Sub => Some (I64Val (i64_saturating_sub v upd))
      | Some Override => Some (I64Val upd)
      | None => None
      end
  | _, _ => None
  end.

Definition update_attribute (attribute : Attribute) (update : Update) : Attribute :=
  match a_field attribute with
  | Some f =>
      match value f with
      | Some v =>
          match updated_value v update with
          | Some v' => mkAttribute (Some (mkField (name f) (Some v') (metadata_id f)))
                         (a_unit attribute)
          | None => attribute
          end
      | None => attribute
      end
  | None => attribute
  end.

(** The map from [FieldKey], the updating span and the field's name. *)
Abbreviation t := (gmap (N * string) Attribute).

Definition values (self : t) : list Attribute := (map_to_list self).*2.

Definition update (self : t) (id : N) (upd : Update) : t :=
  match name (field upd) with
  | None => self
  | Some field_name =>
      let key := (id, field_name) in
      match self !! key with
      | Some attr => <[key := update_attribute attr upd]> self
      | None => <[key := from_update upd]> self
      end
  end.

End Attributes.

(** ** Resources *)

Module ResourceStats.

Record t := mk {
  is_dirty : bool;
  is_dropped : bool;
  created_at : N;
  dropped_at_ : option N;
  attributes : Attributes.t;
  inherit_child_attributes : bool;
  parent_id : option N;
}.

Definition new (created_at : N) (inherit : bool) (parent : option N) : t :=
  mk true false created_at None ∅ inherit parent.

Definition make_dirty (self : t) : t :=
  mk true (is_dropped self) (created_at self) (dropped_at_ self) (attributes self)
     (inherit_child_attributes self) (parent_id self).

Definition update_attribute (self : t) (id : N) (upd : Attributes.Update) : t :=
  make_dirty
    (mk (is_dirty self) (is_dropped self) (created_at self) (dropped_at_ self)
        (Attributes.update (attributes self) id upd)
        (inherit_child_attributes self) (parent_id self)).

Definition drop_resource (self : t) (at_ : N) : outcome t :=
  if is_dropped self then Done self
  else
    match dropped_at_ self with
    | Some _ => Panic
    | None =>
        Done (make_dirty
          (mk (is_dirty self) true (created_at self) (Some at_) (attributes self)
              (inherit_child_attributes self) (parent_id self)))
    end.

(** [console_api::resources::Stats] *)
Record Proto := mkProto {
  p_created_at : option Timestamp;
  p_dropped_at : option Timestamp;
  p_attributes : list Attributes.Attribute;
}.

#[global] Instance resource_to_proto : ToProto t Proto := λ self base,
  mkProto (Some (TimeAnchor.to_timestamp base (created_at self)))
    (TimeAnchor.to_timestamp base <$> dropped_at_ self)
    (Attributes.values (attributes self)).

#[global] Instance resource_unsent : Unsent t := {|
  take_unsent self :=
    (is_dirty self,
     mk false (is_dropped self) (created_at self) (dropped_at_ self) (attributes self)
       (inherit_child_attributes self) (parent_id self));
  is_unsent := is_dirty;
|}.

#[global] Instance resource_dropped_at : DroppedAt t := λ self,
  if is_dropped self then dropped_at_ self else None.

#[global] Instance resource_unsent_laws : UnsentLaws t Proto.
Proof. by constructor. Qed.

End ResourceStats.

(** ** Asynchronous operations *)

Module AsyncOpStats.

Record t := mk {
  task_id_ : N;
  stats : ResourceStats.t;
  poll_stats : PollStats.t unit;
}.

Definition new (created_at : N) (inherit : bool) (parent : option N) : t :=
  mk 0 (ResourceStats.new created_at inherit parent) (PollStats.new ()).

Definition task_id (self : t) : option N :=
  if 0 <? task_id_ self then Some (task_id_ self) else None.

Definition make_dirty (self : t) : t :=
  mk (task_id_ self) (ResourceStats.make_dirty (stats self)) (poll_stats self).

Definition set_task_id (self : t) (id : N) : t :=
  make_dirty (mk id (stats self) (poll_stats self)).

Definition drop_async_op (self : t) (at_ : N) : outcome t :=
  let! s := ResourceStats.drop_resource (stats self) at_ in
  Done (mk (task_id_ self) s (poll_stats self)).

Definition start_poll (self : t) (at_ : N) : t :=
  make_dirty (mk (task_id_ self) (stats self) (PollStats.start_poll (poll_stats self) at_)).

Definition end_poll (self : t) (at_ : N) : outcome t :=
  let! p := PollStats.end_poll (poll_stats self) at_ in
  Done (make_dirty (mk (task_id_ self) (stats self) p)).

(** [console_api::async_ops::Stats] *)
Record Proto := mkProto {
  p_poll_stats : option PollStats.Proto;
  p_created_at : option Timestamp;
  p_dropped_at : option Timestamp;
  p_task_id : option N;
  p_attributes : list Attributes.Attribute;
}.

#[global] Instance async_op_to_proto : ToProto t Proto := λ self base,
  mkProto (Some (PollStats.proto (poll_stats self) base))
    (Some (TimeAnchor.to_timestamp base (ResourceStats.created_at (stats self))))
    (TimeAnchor.to_timestamp base <$> ResourceStats.dropped_at_ (stats self))
    (task_id self)
    (Attributes.values (ResourceStats.attributes (stats self))).

#[global] Instance async_op_unsent : Unsent t := {|
  take_unsent self :=
    let '(b, s) := take_unsent (stats self) in (b, mk (task_id_ self) s (poll_stats self));
  is_unsent self := is_unsent (stats self);
|}.

#[global] Instance async_op_dropped_at : DroppedAt t := λ self, dropped_at (stats self).

#[global] Instance async_op_unsent_laws : UnsentLaws t Proto.
Proof. by constructor. Qed.

End AsyncOpStats.

(** ** Theorems *)

(** *** Reference for polls

    A trace of nested polls: [covered] is how long some poll was in progress,
    [durations] how long each outermost poll took. *)
Inductive PollEvent := PStart (at_ : N) | PEnd (at_ : N).

Definition event_time (e : PollEvent) : N := match e with PStart t | PEnd t => t end.

Definition depth_step (depth : N) (e : PollEvent) : N :=
  match e with PStart _ => depth + 1 | PEnd _ => depth - 1 end.

Definition depth_after (depth : N) (l : list PollEvent) : N := foldl depth_step depth l.

Fixpoint well_nested (depth now : N) (l : list PollEvent) : bool :=
  match l with
  | [] => true
  | e :: l =>
      (now <=? event_time e)
      && match e with PStart _ => true | PEnd _ => 0 <? depth end
      && well_nested (depth_step depth e) (event_time e) l
  end.

Fixpoint covered (depth now : N) (l : list PollEvent) : N :=
  match l with
  | [] => 0
  | e :: l =>
      (if depth =? 0 then 0 else event_time e - now)
      + covered (depth_step depth e) (event_time e) l
  end.

Fixpoint durations (depth start : N) (l : list PollEvent) : list N :=
  match l with
  | [] => []
  | PStart t :: l => durations (depth + 1) (if depth =? 0 then t else start) l
  | PEnd t :: l =>
      if depth =? 1 then (t - start) :: durations 0 start l
      else durations (depth - 1) start l
  end.

Fixpoint first_starts (depth : N) (l : list PollEvent) : N :=
  match l with
  | [] => 0
  | PStart _ as e :: l => (if depth =? 0 then 1 else 0) + first_starts (depth_step depth e) l
  | e :: l => first_starts (depth_step depth e) l
  end.

Fixpoint last_time (now : N) (l : list PollEvent) : N :=
  match l with
  | [] => now
  | e :: l => last_time (event_time e) l
  end.

Definition above (max : N) (l : list N) : N := N.of_nat (length (filter (λ d, max < d) l)).

Definition exec_poll `{Hdr} (s : TaskStats.t) (e : PollEvent) : outcome TaskStats.t :=
  match e with
  | PStart t => Done (TaskStats.start_poll s t)
  | PEnd t => TaskStats.end_poll s t
  end.

Lemma incr_small n : n + 1 < 2 ^ 64 → incr n = n + 1.
Proof. intros. by apply N.mod_small. Qed.

Lemma decr_small n : 0 < n → n < 2 ^ 64 → decr n = n - 1.
Proof.
  intros. unfold decr, wrap. replace (n + (2 ^ 64 - 1)) with ((n - 1) + 1 * 2 ^ 64) by lia.
  rewrite N.Div0.mod_add. apply N.mod_small. lia.
Qed.

Lemma well_nested_mono depth now l : well_nested depth now l = true → now ≤ last_time now l.
Proof.
  revert depth now. induction l as [|e l IH]; simpl; intros depth now Hw; [lia|].
  apply andb_true_iff in Hw as [[?%N.leb_le _]%andb_true_iff Hw]. apply IH in Hw. lia.
Qed.

Lemma above_cons max d l : above max (d :: l) = (if max <? d then 1 else 0) + above max l.
Proof.
  unfold above. rewrite filter_cons.
  destruct (N.ltb_spec max d), (decide (max < d)); simpl; lia.
Qed.

#[local] Abbreviation busy s := (PollStats.busy_time (PollStats.timestamps (TaskStats.poll_stats s))).
#[local] Abbreviation outliers s :=
  (Histogram.outliers (PollStats.histogram (PollStats.timestamps (TaskStats.poll_stats s)))).
#[local] Abbreviation polls s := (PollStats.polls (TaskStats.poll_stats s)).

Section Polls.
Context `{HdrLaws}.

(** What recording needs of a histogram, after [k] samples. *)
Definition hist_ok (max k : N) (h : Histogram.t) : Prop :=
  Histogram.max h = max ∧ max ≤ hdr_high (Histogram.histogram h) ∧ Histogram.outliers h ≤ k.

Lemma histogram_new_ok max : 2 ≤ max →
  ∃ h, Histogram.new max = Done h ∧ hist_ok max 0 h ∧ Histogram.outliers h = 0.
Proof.
  intros Hm. unfold Histogram.new.
  destruct (hdr_new_ok max 2) as (h & -> & Hh); [lia..|]. simpl.
  eexists. split; [done|]. by repeat split.
Qed.

Lemma record_ok max k h d :
  hist_ok max k h → k + 1 < 2 ^ 64 →
  ∃ h', record_poll_duration h d = Done h' ∧ hist_ok max (k + 1) h' ∧
    Histogram.outliers h' =
      Histogram.outliers h + (if max <? wrap 64 d then 1 else 0).
Proof.
  intros (Hm & Hh & Ho) Hk. unfold record_poll_duration, Histogram.record_poll.
  rewrite Hm. destruct (N.ltb_spec max (wrap 64 d)) as [Hd|Hd]; simpl.
  - destruct (N.ltb_spec (Histogram.outliers h + 1) (2 ^ 64)); [|lia]. simpl.
    destruct (hdr_record_ok (Histogram.histogram h) max) as (h' & -> & Hh'); [done|]. simpl.
    eexists. split; [done|]. unfold hist_ok; simpl. rewrite Hh'. split; [|done].
    split; [done|split; [done|lia]].
  - destruct (hdr_record_ok (Histogram.histogram h) (wrap 64 d)) as (h' & -> & Hh'); [lia|].
    simpl. eexists. split; [done|]. unfold hist_ok; simpl. rewrite Hh'.
    split; [|lia]. split; [done|split; [done|lia]].
Qed.

(** The state of the stats between two events of a trace. *)
Record polls_inv (max depth now start k : N) (s : TaskStats.t) : Prop := {
  pi_current : PollStats.current_polls (TaskStats.poll_stats s) = depth;
  pi_depth : depth ≤ k;
  pi_polls : PollStats.polls (TaskStats.poll_stats s) ≤ k;
  pi_hist : hist_ok max k (PollStats.histogram (PollStats.timestamps (TaskStats.poll_stats s)));
  pi_start : start ≤ now;
  pi_busy : PollStats.busy_time (PollStats.timestamps (TaskStats.poll_stats s))
            ≤ (if depth =? 0 then now else start);
  pi_started : 0 < depth →
    PollStats.last_poll_started (PollStats.timestamps (TaskStats.poll_stats s)) = Some start;
}.

Lemma start_step max depth now start k s t :
  polls_inv max depth now start k s → now ≤ t → k + 1 < 2 ^ 64 →
  let s' := TaskStats.start_poll s t in
  polls_inv max (depth + 1) t (if depth =? 0 then t else start) (k + 1) s' ∧
  busy s' = busy s ∧ outliers s' = outliers s ∧
  polls s' = polls s + (if depth =? 0 then 1 else 0).
Proof.
  intros [Hc Hd Hp (Hm & Hh & Ho) Hs Hb Hst] Ht Hk.
  unfold TaskStats.start_poll, PollStats.start_poll; simpl. rewrite Hc.
  destruct (N.eqb_spec depth 0) as [->|Hn]; simpl.
  - rewrite !incr_small by lia. repeat split; simpl; try done; try lia.
  - repeat split; simpl; try done; try lia; rewrite ?incr_small; try done; try lia.
    + destruct (N.eqb_spec (depth + 1) 0); lia.
    + intros _. apply Hst. lia.
Qed.

Lemma end_step max depth now start k s t :
  polls_inv max depth now start k s → 0 < depth → now ≤ t → t < 2 ^ 64 → k + 1 < 2 ^ 64 →
  ∃ s', TaskStats.end_poll s t = Done s' ∧
    polls_inv max (depth - 1) t start (k + 1) s' ∧ polls s' = polls s ∧
    busy s' = busy s + (if depth =? 1 then t - start else 0) ∧
    outliers s' = outliers s + (if (depth =? 1) && (max <? t - start) then 1 else 0).
Proof.
  intros [Hc Hd Hp (Hm & Hh & Ho) Hs Hb Hst] Hpos Ht Ht64 Hk.
  unfold TaskStats.end_poll, PollStats.end_poll; simpl. rewrite Hc.
  destruct (N.eqb_spec depth 0); [lia|]. rewrite decr_small by lia.
  destruct (N.ltb_spec 1 depth) as [H1|H1]; simpl.
  - destruct (N.eqb_spec depth 1); [lia|]. simpl. eexists. split; [done|].
    repeat split; simpl; try done; try lia.
    + destruct (N.eqb_spec (depth - 1) 0); lia.
    + intros _. by apply Hst.
  - assert (depth = 1) as -> by lia. rewrite Hst by done. simpl.
    unfold checked_duration_since. destruct (N.leb_spec start t); [|lia].
    destruct (record_ok max k (PollStats.histogram (PollStats.timestamps
      (TaskStats.poll_stats s))) (t - start)) as (h' & -> & Hh' & Hout'); [done|done|]. simpl.
    unfold duration_add.
    destruct (N.leb_spec (busy s + (t - start)) duration_max) as [Hle|Hgt];
      [|unfold duration_max, NANOS in Hgt; simpl in Hb; lia].
    simpl. eexists. split; [done|]. simpl. rewrite Hout'.
    unfold wrap. rewrite N.mod_small by lia.
    repeat split; simpl; try done; try lia; apply Hh'.
Qed.

Lemma polls_run max l depth now start k s :
  polls_inv max depth now start k s →
  well_nested depth now l = true →
  last_time now l < 2 ^ 64 →
  k + N.of_nat (length l) < 2 ^ 64 →
  ∃ s', for_loop exec_poll s l = Done s' ∧
    PollStats.current_polls (TaskStats.poll_stats s') = depth_after depth l ∧
    polls s' = polls s + first_starts depth l ∧
    outliers s' = outliers s + above max (durations depth start l) ∧
    busy s' = busy s + foldr N.add 0 (durations depth start l).
Proof.
  revert depth now start k s.
  induction l as [|e l IH]; simpl; intros depth now start k s Hinv Hw Ht Hk.
  { exists s. destruct Hinv. unfold above; simpl. repeat split; try done; lia. }
  apply andb_true_iff in Hw as [[Hte%N.leb_le Hdep]%andb_true_iff Hw].
  pose proof (well_nested_mono _ _ _ Hw) as Hlast.
  destruct e as [t|t]; simpl in *.
  - destruct (start_step _ _ _ _ _ _ t Hinv) as (Hinv' & Hb & Ho & Hp); [lia..|].
    destruct (IH _ _ _ _ _ Hinv') as (s' & Hrun & Hc' & Hp' & Ho' & Hb'); [done|lia..|].
    exists s'. rewrite Hp', Ho', Hb', Hp, Ho, Hb. repeat split; try done; lia.
  - apply N.ltb_lt in Hdep.
    destruct (end_step _ _ _ _ _ _ t Hinv) as (s1 & -> & Hinv' & Hp & Hb & Ho); [lia..|]. simpl.
    destruct (IH _ _ _ _ _ Hinv') as (s' & Hrun & Hc' & Hp' & Ho' & Hb'); [done|lia..|].
    exists s'. rewrite Hp', Ho', Hb', Hp, Ho, Hb. repeat split; try done.
    + destruct (N.eqb_spec depth 1) as [->|]; cbn [andb]; [|lia].
      change (1 - 1) with 0. rewrite above_cons. destruct (max <? t - start); lia.
    + destruct (N.eqb_spec depth 1) as [->|]; simpl; [|lia]. change (1 - 1) with 0. lia.
Qed.

Lemma covered_durations l depth now start :
  well_nested depth now l = true → start ≤ now → depth_after depth l = 0 →
  foldr N.add 0 (durations depth start l)
  = covered depth now l + (if depth =? 0 then 0 else now - start).
Proof.
  revert depth now start.
  induction l as [|e l IH]; simpl; intros depth now start Hw Hs Hd; [by subst|].
  apply andb_true_iff in Hw as [[Hte%N.leb_le Hdep]%andb_true_iff Hw].
  destruct e as [t|t]; simpl in *.
  - destruct (N.eqb_spec depth 0) as [->|].
    + rewrite (IH _ t) by (done || lia). simpl. lia.
    + rewrite (IH _ t) by (done || lia). destruct (N.eqb_spec (depth + 1) 0); lia.
  - apply N.ltb_lt in Hdep. destruct (N.eqb_spec depth 0); [lia|].
    destruct (N.eqb_spec depth 1) as [->|].
    + simpl. rewrite (IH _ t) by (done || lia). simpl. change (1 - 1) with 0. lia.
    + rewrite (IH _ t) by (done || lia). destruct (N.eqb_spec (depth - 1) 0); lia.
Qed.

(** C30: For every well-nested trace of polls of a task (each end after a start,
    times not decreasing, fewer than 2^64 events within 2^64 ns of the clock's
    origin), the stats take every event without a panic; afterwards [current_polls] is the
    number of polls still running, [polls] the number of outermost polls, the
    outliers are the outermost polls longer than the histogram's maximum, and,
    with no poll running, [busy_time] is exactly the time during which some
    poll was running. *)
Theorem poll_busy_time max created (l : list PollEvent) t0 :
  2 ≤ max →
  well_nested 0 t0 l = true →
  last_time t0 l < 2 ^ 64 →
  N.of_nat (length l) < 2 ^ 64 →
  ∃ s0 s, TaskStats.new max created = Done s0 ∧
    for_loop exec_poll s0 l = Done s ∧
    PollStats.current_polls (TaskStats.poll_stats s) = depth_after 0 l ∧
    PollStats.polls (TaskStats.poll_stats s) = first_starts 0 l ∧
    outliers s = above max (durations 0 t0 l) ∧
    (depth_after 0 l = 0 → busy s = covered 0 t0 l).
Proof.
  intros Hm Hw Hl Hn. unfold TaskStats.new.
  destruct (histogram_new_ok max Hm) as (h & -> & Hh & Ho). simpl.
  match goal with |- ∃ s0 s, Done ?x = _ ∧ _ =>
    assert (polls_inv max 0 t0 t0 0 x) as Hinv by (constructor; simpl; first [done | lia]);
    destruct (polls_run max l 0 t0 t0 0 x Hinv Hw Hl) as (s & Hrun & Hc & Hp & Hout & Hb); [lia|];
    exists x, s
  end.
  split; [done|]. split; [done|]. split; [done|].
  simpl in *. rewrite Hp, Hout, Hb, Ho. repeat split; try lia.
  intros Hd. rewrite (covered_durations _ _ t0) by (done || lia). simpl. lia.
Qed.

End Polls.

(** An [Hdr] that keeps only the bound shows the laws can hold. *)
Definition bound_hdr : Hdr := {|
  hdr := N;
  hdr_new_with_max high sigfig := if (2 <=? high) && (sigfig <=? 5) then Some high else None;
  hdr_record h v := if v <=? h then Some h else None;
  hdr_serialize h := Some [h];
|}.

#[export] Instance bound_hdr_laws : @HdrLaws bound_hdr.
Proof.
  refine (@Build_HdrLaws bound_hdr (λ h : N, h) _ _).
  - intros high sigfig Hh Hs. exists high. simpl.
    apply N.leb_le in Hh as ->, Hs as ->. done.
  - intros h v Hv. exists h. simpl. by apply N.leb_le in Hv as ->.
Defined.

Lemma poll_busy_time_witness :
  ∃ s0 s, @TaskStats.new bound_hdr 10 0 = Done s0 ∧
    for_loop exec_poll s0 [PStart 5; PStart 7; PEnd 9; PEnd 20; PStart 30; PEnd 33] = Done s ∧
    PollStats.polls (TaskStats.poll_stats s) = 2 ∧ busy s = 18.
Proof.
  destruct (@poll_busy_time bound_hdr bound_hdr_laws 10 0
    [PStart 5; PStart 7; PEnd 9; PEnd 20; PStart 30; PEnd 33] 0)
    as (s0 & s & H0 & Hr & _ & Hp & _ & Hb); [done..|].
  exists s0, s. split; [exact H0|]. split; [exact Hr|]. split; [exact Hp|].
  apply Hb. reflexivity.
Defined.

(** *** Whole lives of tasks *)

Inductive TaskOp :=
| OpWake (op : WakeOp.t) (at_ : N)
| OpStart (at_ : N)
| OpEnd (at_ : N)
| OpDrop (at_ : N).

Definition op_time (o : TaskOp) : N :=
  match o with OpWake _ t | OpStart t | OpEnd t | OpDrop t => t end.

Definition exec_task `{Hdr} (s : TaskStats.t) (o : TaskOp) : outcome TaskStats.t :=
  match o with
  | OpWake op t => Done (TaskStats.record_wake_op s op t)
  | OpStart t => Done (TaskStats.start_poll s t)
  | OpEnd t => TaskStats.end_poll s t
  | OpDrop t => TaskStats.drop_task s t
  end.

Definition wake_weight (o : TaskOp) : N :=
  match o with
  | OpWake (WakeOp.Wake true) _ | OpWake (WakeOp.WakeByRef true) _ => 2
  | OpWake (WakeOp.Wake false) _ | OpWake (WakeOp.WakeByRef false) _ => 1
  | _ => 0
  end.

Definition clone_weight (o : TaskOp) : N :=
  match o with OpWake WakeOp.Clone _ => 1 | _ => 0 end.

Definition drop_weight (o : TaskOp) : N :=
  match o with OpWake WakeOp.Drop _ => 1 | _ => 0 end.

Definition total (f : TaskOp → N) (l : list TaskOp) : N := foldr (λ o n, f o + n) 0 l.

Fixpoint first_drop (l : list TaskOp) : option N :=
  match l with
  | [] => None
  | OpDrop t :: _ => Some t
  | _ :: l => first_drop l
  end.

Section Lives.
Context `{HdrLaws}.

(** The state of a task's stats after [k] operations. *)
Record task_inv (max k : N) (s : TaskStats.t) : Prop := {
  ti_dirty : TaskStats.is_dirty s = true;
  ti_drop : TaskStats.is_dropped s = bool_decide (is_Some (TaskStats.dropped_at_ (TaskStats.timestamps s)));
  ti_self : TaskStats.self_wakes s = 0;
  ti_hist : hist_ok max k (PollStats.histogram (PollStats.timestamps (TaskStats.poll_stats s)));
  ti_busy : busy s ≤ k * 2 ^ 64;
}.

Lemma task_end_poll max k s t :
  task_inv max k s → t < 2 ^ 64 → k + 1 < NANOS →
  ∃ p, PollStats.end_poll (TaskStats.poll_stats s) t = Done p ∧
    hist_ok max (k + 1) (PollStats.histogram (PollStats.timestamps p)) ∧
    PollStats.busy_time (PollStats.timestamps p) ≤ (k + 1) * 2 ^ 64.
Proof.
  intros [_ _ _ Hh Hb] Ht Hk. assert (k + 1 < 2 ^ 64) as Hk' by (unfold NANOS in Hk; lia).
  assert (hist_ok max (k + 1)
    (PollStats.histogram (PollStats.timestamps (TaskStats.poll_stats s)))) as Hh1.
  { destruct Hh as (? & ? & ?). repeat split; [done|done|lia]. }
  unfold PollStats.end_poll; simpl.
  destruct (1 <? _); [eexists; split; [done|]; simpl; split; [done|lia]|].
  destruct (PollStats.last_poll_started _) as [st|];
    [|eexists; split; [done|]; simpl; split; [done|lia]].
  unfold checked_duration_since. destruct (N.leb_spec st t);
    [|eexists; split; [done|]; simpl; split; [done|lia]].
  destruct (record_ok _ _ _ (t - st) Hh Hk') as (h' & Hr & Hh' & _). simpl. rewrite Hr. simpl.
  unfold duration_add. destruct (N.leb_spec (busy s + (t - st)) duration_max) as [|Hgt];
    [|unfold duration_max, NANOS in *; lia].
  simpl. eexists. split; [done|]. simpl. split; [done|lia].
Qed.

Lemma exec_task_ok max k s o :
  task_inv max k s → op_time o < 2 ^ 64 → k + 1 < NANOS →
  ∃ s', exec_task s o = Done s' ∧ task_inv max (k + 1) s' ∧
    TaskStats.wakes s' = match wake_weight o with
      0 => TaskStats.wakes s | 1 => incr (TaskStats.wakes s)
      | _ => incr (incr (TaskStats.wakes s)) end ∧
    TaskStats.waker_clones s' =
      (if clone_weight o =? 0 then TaskStats.waker_clones s else incr (TaskStats.waker_clones s)) ∧
    TaskStats.waker_drops s' =
      (if drop_weight o =? 0 then TaskStats.waker_drops s else incr (TaskStats.waker_drops s)) ∧
    dropped_at s' = match dropped_at s with Some t => Some t | None => first_drop [o] end.
Proof.
  intros Hinv Ht Hk. pose proof Hinv as [Hd Hdr Hs Hh Hb].
  assert (hist_ok max (k + 1)
    (PollStats.histogram (PollStats.timestamps (TaskStats.poll_stats s)))) as Hh1.
  { destruct Hh as (? & ? & ?). repeat split; [done|done|lia]. }
  destruct s as [dirty dropped created [dat lw] wk cl dr sw p]; simpl in *. subst sw dirty.
  destruct o as [op t|t|t|t]; simpl in *.
  - destruct op as [[]|[]| |]; simpl; eexists; (split; [done|]); (split; [constructor; simpl; try done; lia|]);
      repeat split; unfold dropped_at, TaskStats.task_dropped_at; simpl; by destruct dropped, dat.
  - eexists. split; [done|]. split.
    + constructor; simpl; try done; unfold PollStats.start_poll; destruct (_ =? 0); simpl;
        try done; lia.
    + repeat split; unfold dropped_at, TaskStats.task_dropped_at; simpl. by destruct dropped, dat.
  - unfold TaskStats.end_poll; simpl.
    destruct (task_end_poll _ _ _ t Hinv Ht Hk) as (p' & Hp & Hh' & Hb'). simpl in Hp. rewrite Hp.
    simpl. eexists. split; [done|]. split; [by constructor|].
    repeat split; unfold dropped_at, TaskStats.task_dropped_at; simpl. by destruct dropped, dat.
  - unfold TaskStats.drop_task; simpl. subst dropped.
    destruct dat as [t0|]; simpl; eexists; (split; [done|]); (split; [constructor; simpl; try done; lia|]);
      repeat split.
Qed.

Lemma incr_wrap n m : incr (wrap 64 n) = wrap 64 (n + 1) ∧ wrap 64 (incr n + m) = wrap 64 (n + 1 + m).
Proof.
  unfold incr, wrap. by rewrite !N.Div0.add_mod_idemp_l.
Qed.

Lemma total_cons f o l : total f (o :: l) = f o + total f l.
Proof. done. Qed.

Lemma task_run max l k s :
  task_inv max k s →
  Forall (λ o, op_time o < 2 ^ 64) l →
  k + N.of_nat (length l) < NANOS →
  ∃ s', for_loop exec_task s l = Done s' ∧ task_inv max (k + N.of_nat (length l)) s' ∧
    wrap 64 (TaskStats.wakes s') = wrap 64 (TaskStats.wakes s + total wake_weight l) ∧
    wrap 64 (TaskStats.waker_clones s') = wrap 64 (TaskStats.waker_clones s + total clone_weight l) ∧
    wrap 64 (TaskStats.waker_drops s') = wrap 64 (TaskStats.waker_drops s + total drop_weight l) ∧
    dropped_at s' = match dropped_at s with Some t => Some t | None => first_drop l end.
Proof.
  revert k s. induction l as [|o l IH]; intros k s Hinv Hl Hk.
  { exists s. simpl. rewrite !N.add_0_r. do 5 (split; [done|]). by destruct (dropped_at s). }
  apply Forall_cons in Hl as [Ho Hl]. simpl in Hk.
  destruct (exec_task_ok _ _ _ o Hinv Ho) as (s1 & Hs1 & Hinv1 & Hw & Hc & Hd & Hdr); [lia|].
  destruct (IH _ _ Hinv1 Hl) as (s' & Hrun & Hinv' & Hw' & Hc' & Hd' & Hdr'); [lia|].
  exists s'. rewrite !total_cons. cbn [for_loop length]. rewrite Hs1.
  split; [done|]. split.
  { replace (k + N.of_nat (S (length l))) with (k + 1 + N.of_nat (length l)) by lia. done. }
  rewrite Hw', Hw, Hc', Hc, Hd', Hd, Hdr', Hdr. clear.
  repeat split.
  1-3: destruct o as [[[]|[]| |]| | |];
    cbn [wake_weight clone_weight drop_weight N.eqb Pos.eqb]; rewrite ?(proj2 (incr_wrap _ _)), <-?N.add_assoc,
      ?(proj2 (incr_wrap _ _)); f_equal; lia.
  by destruct (dropped_at s), o.
Qed.

(** Whatever happens to a task (fewer than 10^9 wakes, clones, polls and drops,
    within 2^64 ns of the clock's origin, in any order), no operation panics.
    Afterwards the stats are marked unsent, the drop time is that of the first
    drop, clones and drops of wakers are counted (a new task has one waker).  A
    self-wake counts twice in [wakes] and never in [self_wakes], which stays 0. *)
Theorem task_stats_count max created l :
  2 ≤ max →
  Forall (λ o, op_time o < 2 ^ 64) l →
  N.of_nat (length l) < NANOS →
  ∃ s0 s, TaskStats.new max created = Done s0 ∧ for_loop exec_task s0 l = Done s ∧
    is_unsent s = true ∧ dropped_at s = first_drop l ∧
    wrap 64 (TaskStats.wakes s) = wrap 64 (total wake_weight l) ∧
    wrap 64 (TaskStats.waker_clones s) = wrap 64 (1 + total clone_weight l) ∧
    wrap 64 (TaskStats.waker_drops s) = wrap 64 (total drop_weight l) ∧
    TaskStats.self_wakes s = 0.
Proof.
  intros Hm Hl Hn. unfold TaskStats.new.
  destruct (histogram_new_ok max Hm) as (h & -> & Hh & _). simpl.
  match goal with |- ∃ s0 s, Done ?x = _ ∧ _ =>
    assert (task_inv max 0 x) as Hinv by (constructor; simpl; first [done | lia]);
    destruct (task_run max l 0 x Hinv Hl) as (s & Hrun & Hinv' & Hw & Hc & Hd & Hdr); [lia|];
    exists x, s
  end.
  destruct Hinv'. repeat split; done.
Qed.

End Lives.

Lemma task_stats_count_witness :
  ∃ s0 s, @TaskStats.new bound_hdr 10 0 = Done s0 ∧
    for_loop exec_task s0 [OpStart 1; OpWake (WakeOp.Wake true) 2; OpEnd 3; OpDrop 4; OpDrop 5] = Done s ∧
    dropped_at s = Some 4 ∧ wrap 64 (TaskStats.wakes s) = 2 ∧ TaskStats.self_wakes s = 0.
Proof.
  destruct (@task_stats_count bound_hdr bound_hdr_laws 10 0
    [OpStart 1; OpWake (WakeOp.Wake true) 2; OpEnd 3; OpDrop 4; OpDrop 5])
    as (s0 & s & H0 & Hr & _ & Hd & Hw & _ & _ & Hs).
  - done.
  - repeat constructor.
  - done.
  - exists s0, s. split; [exact H0|]. split; [exact Hr|]. split; [exact Hd|].
    split; [exact Hw|exact Hs].
Defined.

(** *** Attributes keep their type *)

Definition value_ok (v : FieldValue) : Prop :=
  match v with
  | U64Val n => n < 2 ^ 64
  | I64Val z => (- 2 ^ 63 ≤ z < 2 ^ 63)%Z
  | _ => True
  end.

Definition value_kind (v : FieldValue) : N :=
  match v with
  | BoolVal _ => 0 | StrVal _ => 1 | DebugVal _ => 2 | U64Val _ => 3 | I64Val _ => 4
  end.

Definition field_ok (n : string) (f : Field) : Prop :=
  name f = Some n ∧ match value f with Some v => value_ok v | None => True end.

Definition attribute_ok (key : N * string) (a : Attributes.Attribute) : Prop :=
  match Attributes.a_field a with Some f => field_ok key.2 f | None => False end.

Definition attribute_kind (a : Attributes.Attribute) : option N :=
  value_kind <$> (Attributes.a_field a ≫= value).

Definition update_ok (upd : N * Attributes.Update) : Prop :=
  match value (Attributes.field upd.2) with Some v => value_ok v | None => True end.

Lemma updated_value_ok old v upd :
  Attributes.updated_value old upd = Some v →
  value_kind v = value_kind old ∧ (value_ok old → update_ok (0, upd) → value_ok v).
Proof.
  unfold Attributes.updated_value, update_ok; simpl. intros Hu.
  destruct old, (value (Attributes.field upd)) as [[]|] eqn:E; try done;
    try (injection Hu as <-; done);
    destruct (Attributes.op upd) as [[]|]; try done; injection Hu as <-; split; try done; simpl;
    unfold u64_saturating_add, u64_saturating_sub, i64_saturating_add, i64_saturating_sub,
      i64_clamp; lia.
Qed.

Lemma update_attribute_ok key a upd :
  attribute_ok key a → update_ok (key.1, upd) →
  let a' := Attributes.update_attribute a upd in
  attribute_ok key a' ∧ attribute_kind a' = attribute_kind a ∧
  Attributes.a_unit a' = Attributes.a_unit a.
Proof.
  unfold attribute_ok, attribute_kind, Attributes.update_attribute.
  destruct (Attributes.a_field a) as [f|] eqn:Ef; [|done]. simpl.
  intros [Hn Hv] Hu.
  assert (field_ok key.2 f) as Hf by done. clear Hv.
  destruct (value f) as [v|] eqn:Ev; [|by rewrite Ef; simpl; rewrite Ev].
  destruct (Attributes.updated_value v upd) as [v'|] eqn:E.
  - destruct (updated_value_ok _ _ _ E) as [Hk Hok]. simpl. rewrite ?Ev. simpl. rewrite Hk.
    repeat split; [done|]. destruct Hf as [_ Hv]. rewrite Ev in Hv. by apply Hok.
  - rewrite Ef. simpl. by rewrite ?Ev.
Qed.

Definition exec_updates (l : list (N * Attributes.Update)) : Attributes.t :=
  foldl (λ m u, Attributes.update m u.1 u.2) ∅ l.

Definition update_keys (l : list (N * Attributes.Update)) : list (N * string) :=
  omap (λ u, pair u.1 <$> name (Attributes.field u.2)) l.

Lemma attributes_update_step m u :
  map_Forall attribute_ok m → update_ok u →
  let m' := Attributes.update m u.1 u.2 in
  map_Forall attribute_ok m' ∧
  dom m' = dom m ∪ list_to_set (update_keys [u]) ∧
  ∀ key a, m !! key = Some a →
    ∃ a', m' !! key = Some a' ∧ attribute_kind a' = attribute_kind a ∧
      Attributes.a_unit a' = Attributes.a_unit a.
Proof.
  intros Hm Hu. unfold Attributes.update, update_keys; simpl. destruct u as [id upd]; simpl in *.
  destruct (name (Attributes.field upd)) as [n|] eqn:En; simpl; [|split; [done|split; [set_solver|eauto]]].
  destruct (m !! (id, n)) as [a|] eqn:Ea.
  - destruct (update_attribute_ok (id, n) a upd) as (Hok & Hk & Hun); [by apply Hm|done|].
    split; [by apply map_Forall_insert_2|]. split.
    { rewrite dom_insert_L. set_solver. }
    intros key b Hb. destruct (decide (key = (id, n))) as [->|Hne].
    + rewrite lookup_insert_eq. simplify_eq. eauto.
    + rewrite lookup_insert_ne by done. eauto.
  - split.
    { apply map_Forall_insert_2; [|done]. by split. }
    split; [rewrite dom_insert_L; set_solver|].
    intros key b Hb. rewrite lookup_insert_ne; [eauto|]. intros <-. congruence.
Qed.

Lemma exec_updates_snoc l u :
  exec_updates (l ++ [u]) = Attributes.update (exec_updates l) u.1 u.2.
Proof. unfold exec_updates. by rewrite foldl_app. Qed.

Lemma exec_updates_ok l :
  Forall update_ok l →
  map_Forall attribute_ok (exec_updates l) ∧ dom (exec_updates l) = list_to_set (update_keys l).
Proof.
  induction l as [|u l IH] using rev_ind; intros Hl; [done|].
  apply Forall_app in Hl as [Hl Hu%Forall_inv]. destruct (IH Hl) as [Hok Hd].
  destruct (attributes_update_step _ _ Hok Hu) as (Hok' & Hd' & _).
  rewrite exec_updates_snoc. split; [done|]. rewrite Hd', Hd. unfold update_keys.
  by rewrite omap_app, list_to_set_app_L.
Qed.

(** C40: Type invariant of the attributes of a resource: after any sequence of
    updates whose own values are 64-bit, there is one attribute for every
    updated (span, name), it carries that name, and its value fits 64 bits (the
    additions saturate); and once an attribute exists, no further update changes
    the type of its value or its unit. *)
Theorem attributes_typed l l' :
  Forall update_ok (l ++ l') →
  let m := exec_updates l in
  let m' := exec_updates (l ++ l') in
  map_Forall attribute_ok m' ∧
  dom m' = list_to_set (update_keys (l ++ l')) ∧
  ∀ key a, m !! key = Some a →
    ∃ a', m' !! key = Some a' ∧ attribute_kind a' = attribute_kind a ∧
      Attributes.a_unit a' = Attributes.a_unit a.
Proof.
  intros Hl m m'. subst m m'. destruct (exec_updates_ok _ Hl) as [Hok Hd].
  split; [done|]. split; [done|]. clear Hok Hd. revert Hl.
  induction l' as [|u l' IH] using rev_ind; intros Hl key a Ha; [rewrite app_nil_r; eauto|].
  rewrite app_assoc in *. apply Forall_app in Hl as [Hl Hu%Forall_inv].
  destruct (IH Hl _ _ Ha) as (b & Hb & Hkb & Hub). rewrite exec_updates_snoc.
  destruct (exec_updates_ok _ Hl) as [Hok _].
  destruct (attributes_update_step _ _ Hok Hu) as (_ & _ & Hk').
  destruct (Hk' _ _ Hb) as (c & Hc & Hkc & Huc). exists c. split; [done|]. split; congruence.
Qed.

Lemma attributes_typed_witness :
  let upd n := (7, Attributes.mkUpdate (mkField (Some "n") (Some (U64Val n)) None)
                     (Some Attributes.Add) None) in
  map_Forall attribute_ok (exec_updates ([upd 1] ++ [upd (2 ^ 64 - 1)])) ∧
  ∃ a, exec_updates ([upd 1] ++ [upd (2 ^ 64 - 1)]) !! (7, "n") = Some a ∧
    attribute_kind a = Some 3.
Proof.
  intros upd. destruct (attributes_typed [upd 1] [upd (2 ^ 64 - 1)]) as (Hok & _ & Hk).
  - repeat constructor.
  - split; [exact Hok|].
    destruct (Hk (7, "n") (Attributes.from_update (upd 1).2)) as (a & Ha & Hka & _);
      [vm_compute; reflexivity|].
    exists a. split; [exact Ha|exact Hka].
Defined.
