(* ===== verification/ConsoleVisitors.v ===== *)
(** * Reading the fields of spans and events (runtime/console: visitors.rs)

    tracing hands the fields of a span or event to a visitor one by one, by the
    type of the value; a type the visitor does not handle itself goes to
    [record_debug] (floats, 128-bit integers and errors always do).  Each
    visitor here is its record of what it has seen, its [record_*] methods,
    [record], which is the dispatch, and its [result]. *)

From S2P Require Import Prelude ConsoleStats.

Local Open Scope N_scope.

(** A value as tracing records it. *)
Inductive Recorded :=
| RDebug (text : string)
| RI64 (z : Z)
| RU64 (n : N)
| RBool (b : bool)
| RStr (s : string).

(** [console_api::Location] (without the parts left at their default). *)
Record Location := mkLocation {
  file : option string;
  line : option N;
  column : option N;
}.

(** [str::ends_with] *)
Fixpoint ends_with (suffix s : string) : bool :=
  bool_decide (s = suffix)
  || match s with
     | EmptyString => false
     | String _ s => ends_with suffix s
     end.

(** [value as u32] *)
Definition as_u32 (n : N) : N := wrap 32 n.

Definition LOCATION_FILE : string := "loc.file".
Definition LOCATION_LINE : string := "loc.line".
Definition LOCATION_COLUMN : string := "loc.col".
Definition INHERIT_FIELD_NAME : string := "inherits_child_attrs".

(** The values [console_api] makes of recorded ones ([From] for [Value]). *)
Definition into_value (v : Recorded) : FieldValue :=
  match v with
  | RDebug s => DebugVal s
  | RI64 z => I64Val z
  | RU64 n => U64Val n
  | RBool b => BoolVal b
  | RStr s => StrVal s
  end.

Definition mk_field (meta_id : N) (name : string) (v : Recorded) : Field :=
  mkField (Some name) (Some (into_value v)) (Some meta_id).

(** A location is known when its three parts are. *)
Definition known_location (f : option string) (l c : option N) : option Location :=
  match f, l, c with
  | Some _, Some _, Some _ => Some (mkLocation f l c)
  | _, _, _ => None
  end.

(** ** Resources *)

Module ResourceVisitor.

Definition RES_SPAN_NAME : string := "runtime.resource".
Definition RES_CONCRETE_TYPE_FIELD_NAME : string := "concrete_type".
Definition RES_VIZ_FIELD_NAME : string := "is_internal".
Definition RES_KIND_FIELD_NAME : string := "kind".
Definition RES_KIND_TIMER : string := "timer".

(** [resource::kind::Kind] *)
Inductive Kind := KnownTimer | Other (s : string).

Record t := mk {
  concrete_type : option string;
  kind : option Kind;
  is_internal : bool;
  inherit_child_attrs : bool;
  line_ : option N;
  file_ : option string;
  column_ : option N;
}.

Definition default : t := mk None None false false None None None.

Record Result := mkResult {
  r_concrete_type : string;
  r_kind : Kind;
  r_location : option Location;
  r_is_internal : bool;
  r_inherit_child_attrs : bool;
}.

Definition result (self : t) : option Result :=
  match concrete_type self, kind self with
  | Some concrete_type, Some kind =>
      Some (mkResult concrete_type kind (known_location (file_ self) (line_ self) (column_ self))
              (is_internal self) (inherit_child_attrs self))
  | _, _ => None
  end.

Definition record_str (self : t) (name value : string) : t :=
  if decide (name = RES_CONCRETE_TYPE_FIELD_NAME) then
    mk (Some value) (kind self) (is_internal self) (inherit_child_attrs self)
       (line_ self) (file_ self) (column_ self)
  else if decide (name = RES_KIND_FIELD_NAME) then
    let k := if decide (value = RES_KIND_TIMER) then KnownTimer else Other value in
    mk (concrete_type self) (Some k) (is_internal self) (inherit_child_attrs self)
       (line_ self) (file_ self) (column_ self)
  else if decide (name = LOCATION_FILE) then
    mk (concrete_type self) (kind self) (is_internal self) (inherit_child_attrs self)
       (line_ self) (Some value) (column_ self)
  else self.

Definition record_bool (self : t) (name : string) (value : bool) : t :=
  if decide (name = RES_VIZ_FIELD_NAME) then
    mk (concrete_type self) (kind self) value (inherit_child_attrs self)
       (line_ self) (file_ self) (column_ self)
  else if decide (name = INHERIT_FIELD_NAME) then
    mk (concrete_type self) (kind self) (is_internal self) value
       (line_ self) (file_ self) (column_ self)
  else self.

Definition record_u64 (self : t) (name : string) (value : N) : t :=
  if decide (name = LOCATION_LINE) then
    mk (concrete_type self) (kind self) (is_internal self) (inherit_child_attrs self)
       (Some (as_u32 value)) (file_ self) (column_ self)
  else if decide (name = LOCATION_COLUMN) then
    mk (concrete_type self) (kind self) (is_internal self) (inherit_child_attrs self)
       (line_ self) (file_ self) (Some (as_u32 value))
  else self.

Definition record (self : t) (f : string * Recorded) : t :=
  match f.2 with
  | RStr s => record_str self f.1 s
  | RBool b => record_bool self f.1 b
  | RU64 n => record_u64 self f.1 n
  | RDebug _ | RI64 _ => self
  end.

End ResourceVisitor.

(** ** Tasks *)

Module FieldVisitor.

Record t := mk { fields : list Field; meta_id : N }.

Definition new (meta_id : N) : t := mk [] meta_id.
Definition result (self : t) : list Field := fields self.

(** The five [record_*] methods push the field with its value. *)
Definition record (self : t) (f : string * Recorded) : t :=
  mk (fields self ++ [mk_field (meta_id self) f.1 f.2]) (meta_id self).

End FieldVisitor.

Module TaskVisitor.

Definition SPAWN_TARGET : string := "executor::task".
Definition SPAWN_NAME : string := "runtime.spawn".

Record t := mk {
  field_visitor : FieldVisitor.t;
  line_ : option N;
  file_ : option string;
  column_ : option N;
}.

Definition new (meta_id : N) : t := mk (FieldVisitor.new meta_id) None None None.

Definition result (self : t) : list Field * option Location :=
  (FieldVisitor.result (field_visitor self),
   known_location (file_ self) (line_ self) (column_ self)).

Definition record_field (self : t) (f : string * Recorded) : t :=
  mk (FieldVisitor.record (field_visitor self) f) (line_ self) (file_ self) (column_ self).

Definition record_u64 (self : t) (name : string) (value : N) : t :=
  if decide (name = LOCATION_LINE) then
    mk (field_visitor self) (Some (as_u32 value)) (file_ self) (column_ self)
  else if decide (name = LOCATION_COLUMN) then
    mk (field_visitor self) (line_ self) (file_ self) (Some (as_u32 value))
  else record_field self (name, RU64 value).

Definition record_str (self : t) (name value : string) : t :=
  if decide (name = LOCATION_FILE) then
    mk (field_visitor self) (line_ self) (Some value) (column_ self)
  else record_field self (name, RStr value).

Definition record (self : t) (f : string * Recorded) : t :=
  match f.2 with
  | RU64 n => record_u64 self f.1 n
  | RStr s => record_str self f.1 s
  | RDebug _ | RI64 _ | RBool _ => record_field self f
  end.

End TaskVisitor.

(** ** Asynchronous operations *)

Module AsyncOpVisitor.

Definition ASYNC_OP_SPAN_NAME : string := "runtime.resource.async_op".
Definition ASYNC_OP_POLL_NAME : string := "runtime.resource.async_op.poll".
Definition ASYNC_OP_SRC_FIELD_NAME : string := "source".

Record t := mk { source : option string; inherit_child_attrs : bool }.

Definition default : t := mk None false.

Definition result (self : t) : option (string * bool) :=
  (λ s, (s, inherit_child_attrs self)) <$> source self.

Definition record_str (self : t) (name value : string) : t :=
  if decide (name = ASYNC_OP_SRC_FIELD_NAME) then mk (Some value) (inherit_child_attrs self)
  else self.

Definition record_bool (self : t) (name : string) (value : bool) : t :=
  if decide (name = INHERIT_FIELD_NAME) then mk (source self) value else self.

Definition record (self : t) (f : string * Recorded) : t :=
  match f.2 with
  | RStr s => record_str self f.1 s
  | RBool b => record_bool self f.1 b
  | _ => self
  end.

End AsyncOpVisitor.

(** ** Wakers *)

Module WakerVisitor.

Definition WAKER_EVENT_TARGET : string := "executor::waker".
Definition WAKE : string := "waker.wake".
Definition WAKE_BY_REF : string := "waker.wake_by_ref".
Definition CLONE : string := "waker.clone".
Definition DROP : string := "waker.drop".
Definition TASK_ID_FIELD_NAME : string := "task.id".

Record t := mk { id_ : option N; op_ : option WakeOp.t }.

Definition default : t := mk None None.

Definition result (self : t) : option (N * WakeOp.t) :=
  match id_ self, op_ self with
  | Some id, Some op => Some (id, op)
  | _, _ => None
  end.

(** [span::Id::from_u64] panics on 0. *)
Definition record_u64 (self : t) (name : string) (value : N) : outcome t :=
  if decide (name = TASK_ID_FIELD_NAME) then
    if value =? 0 then Panic else Done (mk (Some value) (op_ self))
  else Done self.

Definition parse_op (value : string) : option WakeOp.t :=
  if decide (value = WAKE) then Some (WakeOp.Wake false)
  else if decide (value = WAKE_BY_REF) then Some (WakeOp.WakeByRef false)
  else if decide (value = CLONE) then Some WakeOp.Clone
  else if decide (value = DROP) then Some WakeOp.Drop
  else None.

Definition record_str (self : t) (name value : string) : t :=
  if decide (name = "op") then
    match parse_op value with
    | Some op => mk (id_ self) (Some op)
    | None => self
    end
  else self.

Definition record (self : t) (f : string * Recorded) : outcome t :=
  match f.2 with
  | RU64 n => record_u64 self f.1 n
  | RStr s => Done (record_str self f.1 s)
  | _ => Done self
  end.

End WakerVisitor.

(** ** Poll operations *)

Module PollOpVisitor.

Definition POLL_OP_EVENT_TARGET : string := "runtime::resource::poll_op".
Definition OP_NAME_FIELD_NAME : string := "op_name".
Definition OP_READINESS_FIELD_NAME : string := "is_ready".

Record t := mk { op_name : option string; is_ready : option bool }.

Definition default : t := mk None None.

Definition result (self : t) : option (string * bool) :=
  match op_name self, is_ready self with
  | Some n, Some r => Some (n, r)
  | _, _ => None
  end.

Definition record_bool (self : t) (name : string) (value : bool) : t :=
  if decide (name = OP_READINESS_FIELD_NAME) then mk (op_name self) (Some value) else self.

Definition record_str (self : t) (name value : string) : t :=
  if decide (name = OP_NAME_FIELD_NAME) then mk (Some value) (is_ready self) else self.

Definition record (self : t) (f : string * Recorded) : t :=
  match f.2 with
  | RStr s => record_str self f.1 s
  | RBool b => record_bool self f.1 b
  | _ => self
  end.

End PollOpVisitor.

(** ** State updates *)

Module StateUpdateVisitor.

Definition RE_STATE_UPDATE_EVENT_TARGET : string := "runtime::resource::state_update".
Definition AO_STATE_UPDATE_EVENT_TARGET : string := "runtime::resource::async_op::state_update".
Definition STATE_OP_SUFFIX : string := ".op".
Definition STATE_UNIT_SUFFIX : string := ".unit".
Definition OP_ADD : string := "add".
Definition OP_SUB : string := "sub".
Definition OP_OVERRIDE : string := "override".

Record t := mk {
  meta_id : N;
  field_ : option Field;
  unit_ : option string;
  op_ : option Attributes.UpdateOp;
}.

Definition new (meta_id : N) : t := mk meta_id None None None.

Definition result (self : t) : option Attributes.Update :=
  (λ f, Attributes.mkUpdate f (op_ self) (unit_ self)) <$> field_ self.

Definition set_field (self : t) (name : string) (v : Recorded) : t :=
  mk (meta_id self) (Some (mk_field (meta_id self) name v)) (unit_ self) (op_ self).

Definition parse_op (value : string) : option Attributes.UpdateOp :=
  if decide (value = OP_ADD) then Some Attributes.Add
  else if decide (value = OP_SUB) then Some Attributes.Sub
  else if decide (value = OP_OVERRIDE) then Some Attributes.Override
  else None.

(** [record_debug], [record_i64], [record_u64] and [record_bool] *)
Definition record_value (self : t) (name : string) (v : Recorded) : t :=
  if negb (ends_with STATE_OP_SUFFIX name) && negb (ends_with STATE_UNIT_SUFFIX name)
  then set_field self name v
  else self.

Definition record_str (self : t) (name value : string) : t :=
  if ends_with STATE_OP_SUFFIX name then
    match parse_op value with
    | Some op => mk (meta_id self) (field_ self) (unit_ self) (Some op)
    | None => self
    end
  else if ends_with STATE_UNIT_SUFFIX name then
    mk (meta_id self) (field_ self) (Some value) (op_ self)
  else set_field self name (RStr value).

Definition record (self : t) (f : string * Recorded) : t :=
  match f.2 with
  | RStr s => record_str self f.1 s
  | v => record_value self f.1 v
  end.

End StateUpdateVisitor.

(** ** Theorems

    [seen p l] is the last thing [p] reads in the fields. *)
Definition seen {A} (p : string * Recorded → option A) (l : list (string * Recorded)) : option A :=
  last (omap p l).

Lemma seen_snoc {A} (p : string * Recorded → option A) l f :
  seen p (l ++ [f]) = match p f with Some a => Some a | None => seen p l end.
Proof.
  unfold seen. rewrite omap_app. simpl. destruct (p f) as [a|]; simpl.
  - by rewrite last_snoc.
  - by rewrite app_nil_r.
Qed.

Definition str_at (name : string) (f : string * Recorded) : option string :=
  match f.2 with RStr s => if decide (f.1 = name) then Some s else None | _ => None end.

Definition bool_at (name : string) (f : string * Recorded) : option bool :=
  match f.2 with RBool b => if decide (f.1 = name) then Some b else None | _ => None end.

Definition u32_at (name : string) (f : string * Recorded) : option N :=
  match f.2 with RU64 n => if decide (f.1 = name) then Some (as_u32 n) else None | _ => None end.

(** A field of a spawned task that says where it was spawned. *)
Definition is_location (f : string * Recorded) : bool :=
  match f.2 with
  | RStr _ => if decide (f.1 = LOCATION_FILE) then true else false
  | RU64 _ =>
      if decide (f.1 = LOCATION_LINE) then true
      else if decide (f.1 = LOCATION_COLUMN) then true else false
  | _ => false
  end.

Lemma filter_other f :
  filter (λ f, is_location f = false) [f] = if is_location f then [] else [f].
Proof. rewrite filter_cons. destruct (is_location f); by case_decide. Qed.

Lemma task_visitor_state meta l :
  foldl TaskVisitor.record (TaskVisitor.new meta) l =
  TaskVisitor.mk
    (FieldVisitor.mk ((λ f, mk_field meta f.1 f.2) <$> filter (λ f, is_location f = false) l) meta)
    (seen (u32_at LOCATION_LINE) l) (seen (str_at LOCATION_FILE) l)
    (seen (u32_at LOCATION_COLUMN) l).
Proof.
  induction l as [|[n v] l IH] using rev_ind; [done|].
  rewrite foldl_app, IH. simpl. rewrite !seen_snoc, filter_app, filter_other, fmap_app.
  unfold TaskVisitor.record, TaskVisitor.record_u64, TaskVisitor.record_str,
    TaskVisitor.record_field, FieldVisitor.record, str_at, u32_at, is_location; simpl.
  destruct v; simpl; repeat case_decide; subst; simpl; rewrite ?app_nil_r; done.
Qed.

(** What the console shows of a spawned task, whatever fields its span has: all
    fields but those of the location, in order, each with its name and value,
    and the location of the spawn (the last file, line and column given, lines
    and columns cut to 32 bits) exactly when all three are given. *)
Theorem task_visitor_result meta l :
  TaskVisitor.result (foldl TaskVisitor.record (TaskVisitor.new meta) l) =
  ((λ f, mk_field meta f.1 f.2) <$> filter (λ f, is_location f = false) l,
   match seen (str_at LOCATION_FILE) l, seen (u32_at LOCATION_LINE) l,
         seen (u32_at LOCATION_COLUMN) l with
   | Some f, Some n, Some c => Some (mkLocation (Some f) (Some n) (Some c))
   | _, _, _ => None
   end).
Proof.
  rewrite task_visitor_state. unfold TaskVisitor.result, known_location; simpl.
  f_equal. by destruct (seen (str_at _) l), (seen (u32_at LOCATION_LINE) l),
    (seen (u32_at LOCATION_COLUMN) l).
Qed.

Definition kind_at (f : string * Recorded) : option ResourceVisitor.Kind :=
  match f.2 with
  | RStr s => if decide (f.1 = ResourceVisitor.RES_KIND_FIELD_NAME) then
                Some (if decide (s = ResourceVisitor.RES_KIND_TIMER) then ResourceVisitor.KnownTimer
                      else ResourceVisitor.Other s)
              else None
  | _ => None
  end.

(** A resource is reported exactly when its span names a type and a kind; it
    then has the last of each, and flags that default to false. *)
Theorem resource_visitor_result l :
  ResourceVisitor.result (foldl ResourceVisitor.record ResourceVisitor.default l) =
  match seen (str_at ResourceVisitor.RES_CONCRETE_TYPE_FIELD_NAME) l, seen kind_at l with
  | Some ty, Some k =>
      Some (ResourceVisitor.mkResult ty k
        (known_location (seen (str_at LOCATION_FILE) l) (seen (u32_at LOCATION_LINE) l)
           (seen (u32_at LOCATION_COLUMN) l))
        (default false (seen (bool_at ResourceVisitor.RES_VIZ_FIELD_NAME) l))
        (default false (seen (bool_at INHERIT_FIELD_NAME) l)))
  | _, _ => None
  end.
Proof.
  assert (foldl ResourceVisitor.record ResourceVisitor.default l =
    ResourceVisitor.mk (seen (str_at ResourceVisitor.RES_CONCRETE_TYPE_FIELD_NAME) l)
      (seen kind_at l)
      (default false (seen (bool_at ResourceVisitor.RES_VIZ_FIELD_NAME) l))
      (default false (seen (bool_at INHERIT_FIELD_NAME) l))
      (seen (u32_at LOCATION_LINE) l) (seen (str_at LOCATION_FILE) l)
      (seen (u32_at LOCATION_COLUMN) l)) as ->; [|done].
  induction l as [|[n v] l IH] using rev_ind; [done|].
  rewrite foldl_app, IH. simpl. rewrite !seen_snoc.
  unfold ResourceVisitor.record, ResourceVisitor.record_str, ResourceVisitor.record_bool,
    ResourceVisitor.record_u64, str_at, bool_at, u32_at, kind_at; simpl.
  destruct v; simpl; repeat case_decide; subst; simpl; done.
Qed.

Lemma async_op_visitor_result l :
  AsyncOpVisitor.result (foldl AsyncOpVisitor.record AsyncOpVisitor.default l) =
  (λ s, (s, default false (seen (bool_at INHERIT_FIELD_NAME) l)))
    <$> seen (str_at AsyncOpVisitor.ASYNC_OP_SRC_FIELD_NAME) l.
Proof.
  assert (foldl AsyncOpVisitor.record AsyncOpVisitor.default l =
    AsyncOpVisitor.mk (seen (str_at AsyncOpVisitor.ASYNC_OP_SRC_FIELD_NAME) l)
      (default false (seen (bool_at INHERIT_FIELD_NAME) l))) as ->; [|done].
  induction l as [|[n v] l IH] using rev_ind; [done|].
  rewrite foldl_app, IH. simpl. rewrite !seen_snoc.
  unfold AsyncOpVisitor.record, AsyncOpVisitor.record_str, AsyncOpVisitor.record_bool,
    str_at, bool_at; simpl.
  destruct v; simpl; repeat case_decide; subst; simpl; done.
Qed.

Lemma poll_op_visitor_result l :
  PollOpVisitor.result (foldl PollOpVisitor.record PollOpVisitor.default l) =
  match seen (str_at PollOpVisitor.OP_NAME_FIELD_NAME) l,
        seen (bool_at PollOpVisitor.OP_READINESS_FIELD_NAME) l with
  | Some n, Some r => Some (n, r)
  | _, _ => None
  end.
Proof.
  assert (foldl PollOpVisitor.record PollOpVisitor.default l =
    PollOpVisitor.mk (seen (str_at PollOpVisitor.OP_NAME_FIELD_NAME) l)
      (seen (bool_at PollOpVisitor.OP_READINESS_FIELD_NAME) l)) as ->; [|done].
  induction l as [|[n v] l IH] using rev_ind; [done|].
  rewrite foldl_app, IH. simpl. rewrite !seen_snoc.
  unfold PollOpVisitor.record, PollOpVisitor.record_str, PollOpVisitor.record_bool,
    str_at, bool_at; simpl.
  destruct v; simpl; repeat case_decide; subst; simpl; done.
Qed.

(** Wakers: the events the executor sends carry a task id other than 0. *)
Definition task_id_at (f : string * Recorded) : option N :=
  match f.2 with
  | RU64 n => if decide (f.1 = WakerVisitor.TASK_ID_FIELD_NAME) then Some n else None
  | _ => None
  end.

Definition wake_op_at (f : string * Recorded) : option WakeOp.t :=
  match f.2 with
  | RStr s => if decide (f.1 = "op") then WakerVisitor.parse_op s else None
  | _ => None
  end.

Lemma for_loop_app {St A} (f : St → A → outcome St) st l l' :
  for_loop f st (l ++ l') = outcome_bind (for_loop f st l) (λ st', for_loop f st' l').
Proof.
  revert st. induction l as [|x l IH]; intros st; simpl; [done|].
  destruct (f st x); simpl; done.
Qed.

(** Reading a waker event gives the last task id and the last operation named,
    if both are there; it panics exactly when a task id 0 is recorded. *)
Theorem waker_visitor_result l :
  for_loop WakerVisitor.record WakerVisitor.default l =
  if decide (Exists (λ f, task_id_at f = Some 0) l) then Panic
  else Done (WakerVisitor.mk (seen task_id_at l) (seen wake_op_at l)).
Proof.
  induction l as [|[n v] l IH] using rev_ind; [done|].
  rewrite for_loop_app, IH, !seen_snoc.
  destruct (decide (Exists _ l)) as [He|He]; simpl.
  { rewrite decide_True; [done|]. apply Exists_app. by left. }
  assert (Exists (λ f, task_id_at f = Some 0) (l ++ [(n, v)]) ↔ task_id_at (n, v) = Some 0) as Hx.
  { rewrite Exists_app, Exists_cons, Exists_nil. naive_solver. }
  generalize (seen task_id_at l), (seen wake_op_at l). intros o1 o2.
  destruct (decide (Exists _ (l ++ _))) as [Hy|Hy]; rewrite Hx in Hy; clear Hx He IH; revert Hy;
    unfold WakerVisitor.record, WakerVisitor.record_u64, WakerVisitor.record_str, wake_op_at,
      task_id_at; simpl;
    (destruct v as [?|?|k|?|s]; simpl; try done); (case_decide; simpl; try done).
  - intros [= ->]. done.
  - intros Hk. destruct (N.eqb_spec k 0) as [->|]; done.
  - by destruct (WakerVisitor.parse_op s).
Qed.

(** State updates *)
Definition is_plain (name : string) : bool :=
  negb (ends_with StateUpdateVisitor.STATE_OP_SUFFIX name)
  && negb (ends_with StateUpdateVisitor.STATE_UNIT_SUFFIX name).

Definition plain_at (meta : N) (f : string * Recorded) : option Field :=
  if is_plain f.1 then Some (mk_field meta f.1 f.2) else None.

Definition update_op_at (f : string * Recorded) : option Attributes.UpdateOp :=
  match f.2 with
  | RStr s => if ends_with StateUpdateVisitor.STATE_OP_SUFFIX f.1 then StateUpdateVisitor.parse_op s
              else None
  | _ => None
  end.

Definition unit_at (f : string * Recorded) : option string :=
  match f.2 with
  | RStr s => if ends_with StateUpdateVisitor.STATE_OP_SUFFIX f.1 then None
              else if ends_with StateUpdateVisitor.STATE_UNIT_SUFFIX f.1 then Some s else None
  | _ => None
  end.

(** An update event yields an update exactly when it has a field that is neither
    an operation nor a unit: the last such field, with the last known operation
    and the last unit the event names. *)
Theorem state_update_result meta l :
  StateUpdateVisitor.result (foldl StateUpdateVisitor.record (StateUpdateVisitor.new meta) l) =
  (λ f, Attributes.mkUpdate f (seen update_op_at l) (seen unit_at l)) <$> seen (plain_at meta) l.
Proof.
  assert (foldl StateUpdateVisitor.record (StateUpdateVisitor.new meta) l =
    StateUpdateVisitor.mk meta (seen (plain_at meta) l) (seen unit_at l) (seen update_op_at l))
    as ->; [|done].
  induction l as [|[n v] l IH] using rev_ind; [done|].
  rewrite foldl_app, IH. simpl. rewrite !seen_snoc.
  unfold StateUpdateVisitor.record, StateUpdateVisitor.record_str, StateUpdateVisitor.record_value,
    StateUpdateVisitor.set_field, plain_at, update_op_at, unit_at, is_plain; simpl.
  destruct v; simpl;
    destruct (ends_with StateUpdateVisitor.STATE_OP_SUFFIX n),
      (ends_with StateUpdateVisitor.STATE_UNIT_SUFFIX n); simpl; try done.
  all: by destruct (StateUpdateVisitor.parse_op s).
Qed.
