(* ===== verification/ConsoleSpans.v ===== *)
(** * Entered spans and known callsites (runtime/console: stack.rs, callsites.rs)

    [SpanStack] is the stack of spans a thread has entered; [Callsites] a fixed
    array of the callsites of one kind.  The operations on an array are single
    steps, but for [insert], whose two atomic accesses ([reserve], [publish])
    are separate. *)

From stdpp Require Import gmultiset.
From S2P Require Import Prelude.

Local Open Scope N_scope.

(** ** The stack of entered spans *)

Module SpanStack.

Record ContextId := mkContextId { id_ : N; duplicate : bool }.

(** The stack grows at the end. *)
Abbreviation t := (list ContextId).

Definition push (self : t) (id : N) : t * bool :=
  let duplicate := existsb (λ i, id_ i =? id) self in
  (self ++ [mkContextId id duplicate], negb duplicate).

(** The search runs from the top; [idx] is where it finds the span. *)
Definition pop (self : t) (expected_id : N) : t * bool :=
  match list_find (λ c, id_ c = expected_id) (reverse self) with
  | Some (k, ctx) =>
      let idx := (length self - 1 - k)%nat in
      (take idx self ++ drop (S idx) self, negb (duplicate ctx))
  | None => (self, false)
  end.

Definition iter (self : t) : list N :=
  omap (λ c, if duplicate c then None else Some (id_ c)) self.

Definition stack (self : t) : t := self.

End SpanStack.

(** ** Callsites *)

(** A callsite's static metadata: its address, the identity of its callsite, its
    name and target. *)
Record Metadata := mkMetadata {
  meta_ptr : N;
  callsite : N;
  meta_name : string;
  meta_target : string;
}.

#[export] Instance Metadata_eq_dec : EqDecision Metadata.
Proof. solve_decision. Defined.

Module Callsites.

(** A slot is [None] while its pointer is null; [MAX_CALLSITES] is the length of
    the array. *)
Record t := mk { array : list (option Metadata); len : N }.

Definition MAX_CALLSITES (self : t) : N := N.of_nat (length (array self)).

Definition default (max : nat) : t := mk (replicate max None) 0.

(** The loop over a slice of the array.  Dereferencing a null slot is undefined
    behaviour; the model stops there. *)
Fixpoint scan (slots : list (option Metadata)) (m : Metadata) : outcome bool :=
  match slots with
  | [] => Done false
  | None :: _ => Panic
  | Some meta :: slots => if callsite meta =? callsite m then Done true else scan slots m
  end.

(** Rounds of the search: [idx] is where the next slice starts, [ends] what the
    loads of [len] return; the search is over when [len] has not grown.  A slice
    past the end of the array panics. *)
Fixpoint contains_from (self : t) (idx : N) (ends : list N) (m : Metadata) : outcome bool :=
  match ends with
  | [] => OutOfFuel
  | end_ :: ends =>
      if MAX_CALLSITES self <? end_ then Panic
      else
        let slice := take (N.to_nat end_ - N.to_nat idx) (drop (N.to_nat idx) (array self)) in
        let! found := scan slice m in
        if found then Done true
        else
          match ends with
          | [] => OutOfFuel
          | end' :: _ => if end_ <? end' then contains_from self end_ ends m else Done false
          end
  end.

(** With nothing happening in between, both loads see [len]. *)
Definition contains (self : t) (m : Metadata) : outcome bool :=
  contains_from self 0 [len self; len self] m.

(** [self.len.fetch_add(1)] *)
Definition reserve (self : t) : t * N := (mk (array self) (wrap 64 (len self + 1)), len self).

(** The compare-and-exchange of slot [idx] from null. *)
Definition publish (self : t) (idx : N) (m : Metadata) : t * outcome () :=
  if idx <=? MAX_CALLSITES self then
    match array self !! N.to_nat idx with
    | Some None => (mk (<[N.to_nat idx := Some m]> (array self)) (len self), Done ())
    | Some (Some _) => (self, Panic)
    | None => (self, Panic)
    end
  else (self, Panic).

Definition insert (self : t) (m : Metadata) : t * outcome () :=
  match contains self m with
  | Done true => (self, Done ())
  | Done false => let '(self, idx) := reserve self in publish self idx m
  | Panic => (self, Panic)
  | OutOfFuel => (self, OutOfFuel)
  end.

End Callsites.

(** ** Theorems *)

(** *** The stack is a bag of spans *)

Definition ids (s : SpanStack.t) : list N := SpanStack.id_ <$> s.

(** How often a span is entered. *)
Definition count (id : N) (s : SpanStack.t) : nat := length (filter (λ x, x = id) (ids s)).

(** An entry is marked as a duplicate when an earlier one has the same span. *)
Definition stack_wf (s : SpanStack.t) : Prop :=
  ∀ i c, s !! i = Some c →
    SpanStack.duplicate c = bool_decide (SpanStack.id_ c ∈ ids (take i s)).

Lemma existsb_ids s id : existsb (λ i, SpanStack.id_ i =? id) s = bool_decide (id ∈ ids s).
Proof.
  apply eq_bool_prop_intro. rewrite bool_decide_spec, Is_true_true, existsb_exists.
  unfold ids. rewrite list_elem_of_fmap. setoid_rewrite N.eqb_eq.
  setoid_rewrite <-list_elem_of_In. naive_solver.
Qed.

Lemma stack_wf_snoc s c :
  stack_wf (s ++ [c]) ↔
  stack_wf s ∧ SpanStack.duplicate c = bool_decide (SpanStack.id_ c ∈ ids s).
Proof.
  split.
  - intros Hwf. split.
    + intros i d Hd. rewrite <-(take_app_le s [c] i).
      * apply Hwf. by apply lookup_app_l_Some.
      * apply lookup_lt_Some in Hd. lia.
    + rewrite (Hwf (length s) c); [by rewrite take_app_length|].
      rewrite lookup_app_r by lia. by rewrite Nat.sub_diag.
  - intros [Hwf Hc] i d [Hd|[Hle Hd]]%lookup_app_Some.
    + rewrite take_app_le by (apply lookup_lt_Some in Hd; lia). by apply Hwf.
    + apply list_lookup_singleton_Some in Hd as [Hi <-].
      assert (i = length s) as -> by lia. by rewrite take_app_length.
Qed.

Lemma push_wf s id : stack_wf s → stack_wf (SpanStack.push s id).1.
Proof. intros Hwf. apply stack_wf_snoc. split; [done|]. simpl. apply existsb_ids. Qed.

Lemma pop_snoc s c id :
  SpanStack.pop (s ++ [c]) id =
  if decide (SpanStack.id_ c = id) then (s, negb (SpanStack.duplicate c))
  else let '(s', b) := SpanStack.pop s id in (s' ++ [c], b).
Proof.
  unfold SpanStack.pop. rewrite reverse_snoc. simpl. rewrite length_app; simpl.
  case_decide.
  - rewrite Nat.sub_0_r, Nat.add_sub, take_app_length.
    rewrite drop_ge by (rewrite length_app; simpl; lia). by rewrite app_nil_r.
  - destruct (list_find _ (reverse s)) as [[k d]|] eqn:Hf; simpl; [|done].
    apply list_find_Some in Hf as [Hk%lookup_lt_Some _]. rewrite length_reverse in Hk.
    replace (length s + 1 - 1 - S k)%nat with (length s - 1 - k)%nat by lia.
    rewrite take_app_le, drop_app_le by lia. by rewrite app_assoc.
Qed.

Lemma count_snoc x s c :
  count x (s ++ [c]) = (count x s + if decide (SpanStack.id_ c = x) then 1 else 0)%nat.
Proof.
  unfold count, ids. rewrite fmap_app, filter_app, length_app. simpl.
  rewrite filter_cons, filter_nil. by case_decide.
Qed.

Lemma count_pos x s : x ∈ ids s ↔ (0 < count x s)%nat.
Proof.
  unfold count. split.
  - intros Hx. assert (x ∈ filter (λ y, y = x) (ids s)) as Hf by (by apply list_elem_of_filter).
    destruct (filter _ _); [by apply not_elem_of_nil in Hf|simpl; lia].
  - destruct (filter _ _) as [|y l] eqn:E; simpl; [lia|]. intros _.
    assert (y ∈ filter (λ z, z = x) (ids s)) as Hy by (rewrite E; left).
    by apply list_elem_of_filter in Hy as [-> ?].
Qed.

Lemma fresh_count x s : negb (bool_decide (x ∈ ids s)) = bool_decide (count x s = 0%nat).
Proof. rewrite <-bool_decide_not. apply bool_decide_ext. rewrite count_pos. lia. Qed.

Lemma pop_spec s id :
  stack_wf s →
  stack_wf (SpanStack.pop s id).1 ∧
  (∀ x, count x (SpanStack.pop s id).1
        = (count x s - if decide (x = id) then 1 else 0)%nat) ∧
  (SpanStack.pop s id).2 = bool_decide (count id s = 1%nat).
Proof.
  induction s as [|c s IH] using rev_ind; [done|].
  intros [Hwf Hc]%stack_wf_snoc. rewrite pop_snoc, count_snoc.
  destruct (decide (SpanStack.id_ c = id)) as [Hid|Hid]; simpl.
  - split; [done|]. split.
    + intros x. rewrite count_snoc. subst.
      destruct (decide (x = _)), (decide (_ = x)); subst; try done; lia.
    + rewrite Hc, Hid, fresh_count. apply bool_decide_ext. lia.
  - destruct (IH Hwf) as (Hwf' & Hcnt & Hb).
    destruct (SpanStack.pop s id) as [s' b] eqn:E; simpl in *. split; [|split].
    + apply stack_wf_snoc. split; [done|]. rewrite Hc. apply bool_decide_ext.
      rewrite !count_pos, Hcnt. rewrite decide_False by done. lia.
    + intros x. rewrite !count_snoc, Hcnt.
      destruct (decide (x = id)), (decide (SpanStack.id_ c = x)); subst; try done; lia.
    + rewrite Hb. by rewrite Nat.add_0_r.
Qed.

Lemma push_spec s id :
  (∀ x, count x (SpanStack.push s id).1 = (count x s + if decide (id = x) then 1 else 0)%nat) ∧
  (SpanStack.push s id).2 = bool_decide (count id s = 0%nat).
Proof.
  split; [intros x; apply count_snoc|]. simpl. by rewrite existsb_ids, fresh_count.
Qed.

Lemma iter_spec s :
  stack_wf s → NoDup (SpanStack.iter s) ∧ ∀ x, x ∈ SpanStack.iter s ↔ x ∈ ids s.
Proof.
  unfold SpanStack.iter, ids.
  induction s as [|c s IH] using rev_ind; [by split; [constructor|]|].
  intros [Hwf Hc]%stack_wf_snoc. destruct (IH Hwf) as [Hnd Hin].
  rewrite omap_app, fmap_app. simpl. rewrite Hc. unfold ids in *.
  case_bool_decide as Hd; simpl.
  - rewrite app_nil_r. split; [done|]. intros x. rewrite Hin. set_solver.
  - split; [|set_solver]. apply NoDup_app. split; [done|]. split; [|apply NoDup_singleton]. set_solver.
Qed.

Inductive SpanOp := SPush (id : N) | SPop (id : N).

Definition exec_span (s : SpanStack.t) (o : SpanOp) : SpanStack.t * bool :=
  match o with SPush id => SpanStack.push s id | SPop id => SpanStack.pop s id end.

(** The specification: a bag of spans.  Entering says whether the span was not
    entered before, leaving whether it is not entered any more. *)
Definition bag_span (b : gmultiset N) (o : SpanOp) : gmultiset N * bool :=
  match o with
  | SPush id => ({[+ id +]} ⊎ b, bool_decide (multiplicity id b = 0%nat))
  | SPop id => (b ∖ {[+ id +]}, bool_decide (multiplicity id b = 1%nat))
  end.

Definition run_ops {St} (f : St → SpanOp → St * bool) (s : St) (l : list SpanOp) : St * list bool :=
  foldl (λ '(s, rs) o, let '(s, r) := f s o in (s, rs ++ [r])) (s, []) l.

Lemma run_ops_snoc {St} (f : St → SpanOp → St * bool) s l o :
  run_ops f s (l ++ [o]) =
  let '(s', rs) := run_ops f s l in let '(s'', r) := f s' o in (s'', rs ++ [r]).
Proof.
  unfold run_ops. rewrite foldl_app. destruct (foldl _ _ l) as [s' rs]. simpl. by destruct (f s' o).
Qed.

(** C31: For every sequence of entered and left spans, in whatever order (spans may be
    entered repeatedly and left out of order), the stack with its duplicate marks
    implements a bag: it answers every operation as the bag does, and iterating
    over it gives each span in the bag exactly once. *)
Theorem span_stack_is_a_bag (l : list SpanOp) :
  let '(s, rs) := run_ops exec_span [] l in
  let '(b, rs') := run_ops bag_span ∅ l in
  rs = rs' ∧ (∀ x, count x s = multiplicity x b) ∧
  NoDup (SpanStack.iter s) ∧ (∀ x, x ∈ SpanStack.iter s ↔ x ∈ b).
Proof.
  assert (let '(s, rs) := run_ops exec_span [] l in let '(b, rs') := run_ops bag_span ∅ l in
    stack_wf s ∧ rs = rs' ∧ ∀ x, count x s = multiplicity x b) as Hrun.
  { induction l as [|o l IH] using rev_ind; [done|]. rewrite !run_ops_snoc.
    destruct (run_ops exec_span [] l) as [s rs], (run_ops bag_span ∅ l) as [b rs'].
    destruct IH as (Hwf & -> & Hcnt). destruct o as [id|id].
    - pose proof (push_wf s id Hwf) as Hwf'. destruct (push_spec s id) as [Hc Hr].
      unfold exec_span, bag_span. destruct (SpanStack.push s id) as [s' r]; simpl in *.
      split; [done|]. rewrite Hr, Hcnt. split; [done|]. intros x.
      rewrite Hc, Hcnt, multiplicity_disj_union, multiplicity_singleton.
      destruct (decide (id = x)), (decide (x = id)); subst; try done; lia.
    - destruct (pop_spec s id Hwf) as (Hwf' & Hc & Hr).
      unfold exec_span, bag_span. destruct (SpanStack.pop s id) as [s' r]; simpl in *.
      split; [done|]. rewrite Hr, Hcnt. split; [done|]. intros x.
      rewrite Hc, Hcnt, multiplicity_difference, multiplicity_singleton. done. }
  destruct (run_ops exec_span [] l) as [s rs], (run_ops bag_span ∅ l) as [b rs'].
  destruct Hrun as (Hwf & -> & Hcnt). destruct (iter_spec s Hwf) as [Hnd Hin].
  split; [done|]. split; [done|]. split; [done|]. intros x.
  rewrite Hin, count_pos, Hcnt. symmetry. apply elem_of_multiplicity.
Qed.

(** *** Callsite arrays *)

(** The array holds the callsites [ms], in order. *)
Definition holds (max : nat) (s : Callsites.t) (ms : list Metadata) : Prop :=
  Callsites.array s = (Some <$> ms) ++ replicate (max - length ms) None ∧
  Callsites.len s = N.of_nat (length ms) ∧ (length ms ≤ max)%nat ∧
  NoDup (callsite <$> ms).

Lemma scan_some ms m :
  Callsites.scan (Some <$> ms) m = Done (bool_decide (callsite m ∈ callsite <$> ms)).
Proof.
  induction ms as [|m' ms IH]; csimpl; [done|].
  destruct (N.eqb_spec (callsite m') (callsite m)) as [He|He].
  - rewrite bool_decide_eq_true_2; [done|]. rewrite He. left.
  - rewrite IH. f_equal. apply bool_decide_ext. rewrite elem_of_cons.
    split; [by right|intros [?|?]; [congruence|done]].
Qed.

Lemma holds_max max s ms : holds max s ms → Callsites.MAX_CALLSITES s = N.of_nat max.
Proof.
  intros (Ha & _ & Hl & _). unfold Callsites.MAX_CALLSITES.
  rewrite Ha, length_app, length_fmap, length_replicate. f_equal. lia.
Qed.

Lemma contains_holds max s ms m :
  holds max s ms → Callsites.contains s m = Done (bool_decide (callsite m ∈ callsite <$> ms)).
Proof.
  intros Hh. pose proof (holds_max _ _ _ Hh) as Hm. destruct Hh as (Ha & Hlen & Hl & _).
  unfold Callsites.contains, Callsites.contains_from. rewrite Hm, Hlen, N.ltb_irrefl.
  destruct (N.ltb_spec (N.of_nat max) (N.of_nat (length ms))); [lia|].
  rewrite Nat2N.id, Nat.sub_0_r, drop_0, Ha, take_app_le, take_ge, scan_some
    by (rewrite length_fmap; lia).
  simpl. by destruct (bool_decide _).
Qed.

Lemma insert_holds max s ms m :
  holds max s ms → (N.of_nat max < 2 ^ 63) →
  if decide (callsite m ∈ callsite <$> ms) then Callsites.insert s m = (s, Done ())
  else if decide (length ms < max)%nat then
    ∃ s', Callsites.insert s m = (s', Done ()) ∧ holds max s' (ms ++ [m])
  else
    ∃ s', Callsites.insert s m = (s', Panic) ∧ ∀ m', Callsites.contains s' m' = Panic.
Proof.
  intros Hh Hmax. pose proof (holds_max _ _ _ Hh) as HM.
  unfold Callsites.insert. rewrite (contains_holds _ _ _ _ Hh).
  case_decide as Hin; [by rewrite bool_decide_eq_true_2|].
  rewrite bool_decide_eq_false_2 by done. destruct Hh as (Ha & Hlen & Hl & Hnd).
  unfold Callsites.reserve, Callsites.publish. unfold Callsites.MAX_CALLSITES in *; simpl.
  rewrite Hlen. destruct (N.leb_spec (N.of_nat (length ms)) (N.of_nat (length (Callsites.array s))));
    [|lia]. rewrite Nat2N.id.
  case_decide as Hlt.
  - assert (Callsites.array s !! length ms = Some None) as ->.
    { rewrite Ha, lookup_app_r by (rewrite length_fmap; lia). rewrite length_fmap, Nat.sub_diag.
      apply lookup_replicate_2. lia. }
    eexists. split; [done|]. split; [|split; [|split]]; simpl.
    + rewrite Ha, insert_app_r_alt by (rewrite length_fmap; lia).
      rewrite length_fmap, Nat.sub_diag, length_app, fmap_app, <-app_assoc. simpl. f_equal.
      destruct (max - length ms)%nat as [|k] eqn:E; [lia|]. simpl.
      f_equal. f_equal. lia.
    + unfold wrap. rewrite N.mod_small by lia. rewrite length_app. simpl. lia.
    + rewrite length_app. simpl. lia.
    + rewrite fmap_app. apply NoDup_app. split; [done|]. split; [set_solver|apply NoDup_singleton].
  - assert (length (Callsites.array s) = length ms) as Hlen' by lia.
    assert (Callsites.array s !! length ms = None) as -> by (apply lookup_ge_None; lia).
    eexists. split; [done|]. intros m'. unfold Callsites.contains; simpl.
    unfold Callsites.MAX_CALLSITES; simpl. unfold wrap. rewrite N.mod_small by lia.
    destruct (N.ltb_spec (N.of_nat (length (Callsites.array s))) (N.of_nat (length ms) + 1));
      [done|lia].
Qed.

(** Registering callsites one after the other, up to the first panic. *)
Fixpoint insert_all (s : Callsites.t) (l : list Metadata) : Callsites.t * outcome () :=
  match l with
  | [] => (s, Done ())
  | m :: l =>
      match Callsites.insert s m with
      | (s, Done ()) => insert_all s l
      | r => r
      end
  end.

Definition sites (l : list Metadata) : gset N := list_to_set (callsite <$> l).

Lemma insert_all_holds max s ms l :
  holds max s ms → (N.of_nat max < 2 ^ 63) →
  if decide (size (sites (ms ++ l)) ≤ max)%nat then
    ∃ s' ms', insert_all s l = (s', Done ()) ∧ holds max s' ms' ∧ sites ms' = sites (ms ++ l)
  else
    ∃ s', insert_all s l = (s', Panic) ∧ ∀ m, Callsites.contains s' m = Panic.
Proof.
  intros Hh Hmax. revert s ms Hh. induction l as [|m l IH]; intros s ms Hh.
  { rewrite app_nil_r. pose proof Hh as (_ & _ & Hl & Hnd).
    assert (size (sites ms) = length ms) as Hs.
    { unfold sites. rewrite size_list_to_set by done. apply length_fmap. }
    rewrite decide_True by lia. by exists s, ms. }
  pose proof (insert_holds _ _ _ m Hh Hmax) as Hi.
  case_decide as Hin; simpl.
  - rewrite Hi. assert (sites (ms ++ m :: l) = sites (ms ++ l)) as ->; [|by apply IH].
    unfold sites. rewrite !fmap_app, !list_to_set_app_L. simpl. set_solver.
  - replace (ms ++ m :: l) with ((ms ++ [m]) ++ l) by by rewrite <-app_assoc.
    case_decide as Hlt.
    + destruct Hi as (s' & -> & Hh'). by apply IH.
    + destruct Hi as (s' & -> & Hp). rewrite decide_False; [by eauto|]. intros Hsz.
      destruct Hh as (_ & _ & Hl & Hnd).
      assert (size (sites (ms ++ [m])) = S (length ms)) as Hs.
      { unfold sites. rewrite size_list_to_set, length_fmap, length_app; [simpl; lia|].
        rewrite fmap_app. apply NoDup_app. split; [done|].
        split; [set_solver|apply NoDup_singleton]. }
      assert (sites (ms ++ [m]) ⊆ sites ((ms ++ [m]) ++ l)) as Hsub%subseteq_size.
      { unfold sites. rewrite (fmap_app _ _ l), list_to_set_app_L. set_solver. }
      lia.
Qed.

(** An array for [max] callsites takes any sequence of registrations (a callsite
    may come repeatedly) with at most [max] different callsites, and then
    contains exactly the registered ones.  One callsite more makes [insert]
    panic on the array index (its bound check lets the index [max] through to
    the array), and every later [contains], for whatever callsite, panics too. *)
Theorem callsites_capacity max (l : list Metadata) :
  N.of_nat max < 2 ^ 63 →
  if decide (size (sites l) ≤ max)%nat then
    ∃ s, insert_all (Callsites.default max) l = (s, Done ()) ∧
      ∀ m, Callsites.contains s m = Done (bool_decide (callsite m ∈ sites l))
  else
    ∃ s, insert_all (Callsites.default max) l = (s, Panic) ∧
      ∀ m, Callsites.contains s m = Panic.
Proof.
  intros Hmax.
  assert (holds max (Callsites.default max) []) as Hh.
  { repeat split; simpl; [by rewrite Nat.sub_0_r|lia|constructor]. }
  pose proof (insert_all_holds _ _ _ l Hh Hmax) as Hi. simpl in Hi. case_decide; [|done].
  destruct Hi as (s' & ms' & Hr & Hh' & Hs). exists s'. split; [done|]. intros m.
  rewrite (contains_holds _ _ _ _ Hh'), <-Hs. f_equal. apply bool_decide_ext.
  unfold sites. by rewrite elem_of_list_to_set.
Qed.

Lemma callsites_capacity_witness :
  let m k := mkMetadata k k "n" "t" in
  (∃ s, insert_all (Callsites.default 2) [m 1; m 2; m 1] = (s, Done ()) ∧
     Callsites.contains s (m 2) = Done true) ∧
  ∃ s, insert_all (Callsites.default 2) [m 1; m 2; m 3] = (s, Panic) ∧
     Callsites.contains s (m 1) = Panic.
Proof.
  intros m. split.
  - destruct (callsites_capacity 2 [m 1; m 2; m 1] eq_refl) as (s & Hs & Hc).
    exists s. split; [exact Hs|]. exact (Hc (m 2)).
  - destruct (callsites_capacity 2 [m 1; m 2; m 3] eq_refl) as (s & Hs & Hc).
    exists s. split; [exact Hs|]. exact (Hc (m 1)).
Defined.

(** Between the two accesses of an [insert], a search by another thread reaches
    the slot that is still null. *)
Lemma callsites_race max m :
  (0 < max)%nat → Callsites.contains (Callsites.reserve (Callsites.default max)).1 m = Panic.
Proof.
  intros Hmax. destruct max as [|max]; [lia|]. unfold Callsites.contains; simpl.
  by destruct (_ <? _).
Qed.
