(* ===== verification/ConsoleAggregate.v ===== *)
(** * The console's aggregator and server (runtime/console: id_map.rs, event.rs,
      aggregate.rs, server.rs)

    The aggregator takes the events of the tracing layer, keeps what is known of
    every task, resource and asynchronous operation ([IdMap]), and sends updates
    to the clients that watch.  The stats of an entry are shared with the layer,
    which goes on changing them: an [Arc] is an address in the [Heap].  A client
    has the receiving end of a bounded channel ([Chan]).  Hash maps are finite
    maps, iterated in the order of [map_to_list]; [now] is the clock. *)

From S2P Require Import Prelude ConsoleStats ConsoleVisitors ConsoleSpans.

Local Open Scope N_scope.

(** ** Shared stats, channels *)

(** A bounded channel: everything ever accepted, how much of it has been taken
    out, and whether the receiver still exists. *)
Record Chan (T : Type) := mkChan {
  sent : list T;
  received : nat;
  capacity : nat;
  rx_open : bool;
}.
Arguments mkChan {T}.
Arguments sent {T}.
Arguments received {T}.
Arguments capacity {T}.
Arguments rx_open {T}.

Definition bounded {T} (capacity : nat) : Chan T := mkChan [] 0 capacity true.

Definition try_send {T} (c : Chan T) (x : T) : Chan T * bool :=
  if rx_open c && bool_decide (length (sent c) - received c < capacity c)%nat
  then (mkChan (sent c ++ [x]) (received c) (capacity c) (rx_open c), true)
  else (c, false).

Record Heap `{Hdr} := mkHeap {
  task_heap : gmap N TaskStats.t;
  resource_heap : gmap N ResourceStats.t;
  async_heap : gmap N AsyncOpStats.t;
}.

Record Shared := mkShared {
  dropped_tasks : N;
  dropped_resources : N;
  dropped_async_ops : N;
}.

Inductive Include := All | UpdatedOnly.

#[export] Instance Include_eq_dec : EqDecision Include.
Proof. solve_decision. Defined.

(** ** Maps from span ids *)

Module IdMap.

Section Owned.
Context {S O : Type} `{Unsent S, ToProto S O}.

Definition insert (self : gmap N S) (id : N) (data : S) : gmap N S := <[id := data]> self.

Definition get (self : gmap N S) (id : N) : option S := self !! id.

Definition all (self : gmap N S) : list (N * S) := map_to_list self.

(** [take_unsent] is called on every entry. *)
Definition since_last_update (self : gmap N S) : list (N * S) * gmap N S :=
  (omap (λ '(id, data),
     let '(unsent, data) := take_unsent data in
     if unsent then Some (id, data) else None) (map_to_list self),
   (λ data, (take_unsent data).2) <$> self).

Definition as_proto_list (self : gmap N S) (include : Include) (base : TimeAnchor.t)
  : list O * gmap N S :=
  match include with
  | UpdatedOnly =>
      let '(l, self) := since_last_update self in ((λ '(_, d), to_proto d base) <$> l, self)
  | All => ((λ '(_, d), to_proto d base) <$> all self, self)
  end.

End Owned.

(** Maps of [Arc]s: the entries are addresses in the heap [h]. *)
Section Arcs.
Context {T O : Type} `{Unsent T, ToProto T O}.

Definition since_last_update_arc (h : gmap N T) (self : gmap N N)
  : list (N * T) * gmap N T :=
  foldl (λ '(l, h) '(id, a),
    match h !! a with
    | Some data =>
        let '(unsent, data) := take_unsent data in
        (if unsent then l ++ [(id, data)] else l, <[a := data]> h)
    | None => (l, h)
    end) ([], h) (map_to_list self).

Definition as_proto (h : gmap N T) (self : gmap N N) (include : Include) (base : TimeAnchor.t)
  : gmap N O * gmap N T :=
  match include with
  | UpdatedOnly =>
      let '(l, h) := since_last_update_arc h self in
      (list_to_map ((λ '(id, d), (id, to_proto d base)) <$> l), h)
  | All => (omap (λ a, (λ d, to_proto d base) <$> h !! a) self, h)
  end.

(** An entry goes when it was dropped and is unsent while somebody watches, or was
    dropped longer than [retention] ago; [self] keeps what still has stats. *)
Definition drop_closed {S} `{DroppedAt T} (h : gmap N T) (self : gmap N S) (stats : gmap N N)
    (now retention : N) (has_watchers : bool) : gmap N S * gmap N N :=
  let keep a :=
    match h !! a ≫= dropped_at with
    | Some dropped_at =>
        let dropped_for := default 0 (checked_duration_since now dropped_at) in
        let dirty := match h !! a with Some d => is_unsent d | None => false end in
        let should_drop := (dirty && has_watchers) || (retention <? dropped_for) in
        negb should_drop
    | None => true
    end in
  let stats := filter (λ '(_, a), keep a = true) stats in
  (filter (λ '(id, _), is_Some (stats !! id)) self, stats).

End Arcs.
End IdMap.

(** What is unsent goes while somebody watches, however short ago it was dropped. *)
Lemma drop_closed_unsent {T O S} `{Unsent T, ToProto T O, DroppedAt T} (h : gmap N T)
    (self : gmap N S) stats now retention id a d at_ :
  stats !! id = Some a → h !! a = Some d → dropped_at d = Some at_ → is_unsent d = true →
  (IdMap.drop_closed h self stats now retention true).2 !! id = None ∧
  (IdMap.drop_closed h self stats now retention true).1 !! id = None.
Proof.
  intros Hs Hh Hd Hu. unfold IdMap.drop_closed. cbn [fst snd].
  assert (filter (λ '(_, a0),
    match h !! a0 ≫= dropped_at with
    | Some dropped_at =>
        negb ((match h !! a0 with Some d => is_unsent d | None => false end && true) ||
              (retention <? default 0 (checked_duration_since now dropped_at)))
    | None => true
    end = true) stats !! id = None) as Hn.
  { apply map_lookup_filter_None. right. intros a' Ha'. rewrite Hs in Ha'. simplify_eq.
    rewrite Hh. simpl. rewrite Hd, Hu. done. }
  split; [exact Hn|]. apply map_lookup_filter_None. right. intros y _ [x Hx].
  by rewrite Hn in Hx.
Qed.

(** ** Entries *)

Record Task := mkTask {
  t_id : N;
  t_is_dirty : bool;
  t_metadata : Metadata;
  t_fields : list Field;
  t_location : option Location;
}.

Record Resource := mkResource {
  r_id : N;
  r_is_dirty : bool;
  r_parent_id : option N;
  r_metadata : Metadata;
  r_concrete_type : string;
  r_kind : ResourceVisitor.Kind;
  r_location : option Location;
  r_is_internal : bool;
}.

Record AsyncOp := mkAsyncOp {
  a_id : N;
  a_is_dirty : bool;
  a_parent_id : option N;
  a_resource_id : N;
  a_metadata : Metadata;
  a_source : string;
}.

(** [tasks::Task] (its kind is always [Spawn], its parents none),
    [resources::Resource] and [async_ops::AsyncOp]. *)
Record TaskProto := mkTaskProto {
  tp_id : option N;
  tp_metadata : option N;
  tp_fields : list Field;
  tp_location : option Location;
}.

Record ResourceProto := mkResourceProto {
  rp_id : option N;
  rp_parent : option N;
  rp_kind : option ResourceVisitor.Kind;
  rp_metadata : option N;
  rp_concrete_type : string;
  rp_location : option Location;
  rp_is_internal : bool;
}.

Record AsyncOpProto := mkAsyncOpProto {
  ap_id : option N;
  ap_metadata : option N;
  ap_resource_id : option N;
  ap_source : string;
  ap_parent : option N;
}.

#[export] Instance entry_task_to_proto : ToProto Task TaskProto := λ self _,
  mkTaskProto (Some (t_id self)) (Some (meta_ptr (t_metadata self))) (t_fields self)
    (t_location self).

#[export] Instance entry_task_unsent : Unsent Task := {|
  take_unsent self :=
    (t_is_dirty self,
     mkTask (t_id self) false (t_metadata self) (t_fields self) (t_location self));
  is_unsent := t_is_dirty;
|}.

#[export] Instance entry_resource_to_proto : ToProto Resource ResourceProto := λ self _,
  mkResourceProto (Some (r_id self)) (r_parent_id self) (Some (r_kind self))
    (Some (meta_ptr (r_metadata self))) (r_concrete_type self) (r_location self)
    (r_is_internal self).

#[export] Instance entry_resource_unsent : Unsent Resource := {|
  take_unsent self :=
    (r_is_dirty self,
     mkResource (r_id self) false (r_parent_id self) (r_metadata self) (r_concrete_type self)
       (r_kind self) (r_location self) (r_is_internal self));
  is_unsent := r_is_dirty;
|}.

#[export] Instance entry_async_op_to_proto : ToProto AsyncOp AsyncOpProto := λ self _,
  mkAsyncOpProto (Some (a_id self)) (Some (meta_ptr (a_metadata self)))
    (Some (a_resource_id self)) (a_source self) (a_parent_id self).

#[export] Instance entry_async_op_unsent : Unsent AsyncOp := {|
  take_unsent self :=
    (a_is_dirty self,
     mkAsyncOp (a_id self) false (a_parent_id self) (a_resource_id self) (a_metadata self)
       (a_source self));
  is_unsent := a_is_dirty;
|}.

#[export] Instance entry_task_laws : UnsentLaws Task TaskProto.
Proof. by constructor. Qed.
#[export] Instance entry_resource_laws : UnsentLaws Resource ResourceProto.
Proof. by constructor. Qed.
#[export] Instance entry_async_op_laws : UnsentLaws AsyncOp AsyncOpProto.
Proof. by constructor. Qed.

(** ** Events, updates, commands *)

(** The [stats] of an event are an address. *)
Inductive Event :=
| EvMetadata (meta : Metadata)
| EvSpawn (id : N) (metadata : Metadata) (stats : N) (fields : list Field)
    (location : option Location)
| EvResource (id : N) (parent_id : option N) (metadata : Metadata) (concrete_type : string)
    (kind : ResourceVisitor.Kind) (location : option Location) (is_internal : bool) (stats : N)
| EvPollOp (metadata : Metadata) (resource_id : N) (op_name : string) (async_op_id task_id : N)
    (is_ready : bool)
| EvAsyncResourceOp (id : N) (parent_id : option N) (resource_id : N) (metadata : Metadata)
    (source : string) (stats : N).

(** [resources::PollOp] *)
Record PollOp := mkPollOp {
  po_metadata : option N;
  po_resource_id : option N;
  po_name : string;
  po_task_id : option N;
  po_async_op_id : option N;
  po_is_ready : bool;
}.

Section Messages.
Context `{Hdr}.

Record TaskUpdate := mkTaskUpdate {
  new_tasks : list TaskProto;
  task_stats_update : gmap N TaskStats.Proto;
  task_dropped_events : N;
}.

Record ResourceUpdate := mkResourceUpdate {
  new_resources : list ResourceProto;
  resource_stats_update : gmap N ResourceStats.Proto;
  new_poll_ops : list PollOp;
  resource_dropped_events : N;
}.

Record AsyncOpUpdate := mkAsyncOpUpdate {
  new_async_ops : list AsyncOpProto;
  async_op_stats_update : gmap N AsyncOpStats.Proto;
  async_op_dropped_events : N;
}.

(** [instrument::Update]; metadata is sent as its address. *)
Record Update := mkUpdate {
  task_update_ : option TaskUpdate;
  resource_update_ : option ResourceUpdate;
  async_op_update_ : option AsyncOpUpdate;
  update_now : option Timestamp;
  new_metadata_ : option (list N);
}.

(** [tasks::TaskDetails] *)
Record TaskDetails := mkTaskDetails {
  td_task_id : option N;
  td_now : option Timestamp;
  td_poll_times_histogram : option Histogram.Proto;
}.

End Messages.

(** [Watch] is the sending end of a client's channel, a name here.  A
    [WatchRequest] carries the sender of the reply to the asking client;
    [wr_alive] says whether that client still waits. *)
Record WatchRequest := mkWatchRequest {
  wr_id : N;
  wr_reply : N;
  wr_alive : bool;
  wr_buffer : nat;
}.

Inductive Command :=
| Instrument (watch : N)
| WatchTaskDetail (request : WatchRequest)
| Pause
| Resume.

(** What became of a request for task details: a channel, or its sender was
    dropped. *)
Inductive Reply := GotStream (chan : N) | SenderDropped.

(** ** The aggregator *)

Module Aggregator.
Section Ops.
Context `{Hdr}.

(** What the aggregator shares with the layer and the server. *)
Record Env := mkEnv {
  heap : Heap;
  shared : Shared;
  events : list Event;
  tx_open : bool;
  chans : gmap N (Chan Update);
  detail_chans : gmap N (Chan TaskDetails);
  replies : gmap N Reply;
  clock : N;
}.

Record t := mk {
  watchers : list N;
  details_watchers : gmap N (list N);
  all_metadata : list N;
  new_metadata : list N;
  running : bool;
  publish_interval : N;
  base_time : TimeAnchor.t;
  tasks : gmap N Task;
  task_stats : gmap N N;
  resources : gmap N Resource;
  resource_stats : gmap N N;
  async_ops : gmap N AsyncOp;
  async_op_stats : gmap N N;
  poll_ops : list PollOp;
}.

Definition new (base : TimeAnchor.t) : t :=
  mk [] ∅ [] [] true NANOS base ∅ ∅ ∅ ∅ ∅ ∅ [].

Definition set_heap (env : Env) (h : Heap) : Env :=
  mkEnv h (shared env) (events env) (tx_open env) (chans env) (detail_chans env) (replies env)
    (clock env).

Definition set_shared (env : Env) (s : Shared) : Env :=
  mkEnv (heap env) s (events env) (tx_open env) (chans env) (detail_chans env) (replies env)
    (clock env).

Definition set_chans (env : Env) (cs : gmap N (Chan Update)) : Env :=
  mkEnv (heap env) (shared env) (events env) (tx_open env) cs (detail_chans env) (replies env)
    (clock env).

Definition set_details (env : Env) (cs : gmap N (Chan TaskDetails)) (rs : gmap N Reply) : Env :=
  mkEnv (heap env) (shared env) (events env) (tx_open env) (chans env) cs rs (clock env).

Definition set_events (env : Env) (l : list Event) : Env :=
  mkEnv (heap env) (shared env) l (tx_open env) (chans env) (detail_chans env) (replies env)
    (clock env).

Definition set_watchers (self : t) (ws : list N) : t :=
  mk ws (details_watchers self) (all_metadata self) (new_metadata self) (running self)
     (publish_interval self) (base_time self) (tasks self) (task_stats self) (resources self)
     (resource_stats self) (async_ops self) (async_op_stats self) (poll_ops self).

Definition set_details_watchers (self : t) (ws : gmap N (list N)) : t :=
  mk (watchers self) ws (all_metadata self) (new_metadata self) (running self)
     (publish_interval self) (base_time self) (tasks self) (task_stats self) (resources self)
     (resource_stats self) (async_ops self) (async_op_stats self) (poll_ops self).

Definition set_metadata (self : t) (all new : list N) : t :=
  mk (watchers self) (details_watchers self) all new (running self)
     (publish_interval self) (base_time self) (tasks self) (task_stats self) (resources self)
     (resource_stats self) (async_ops self) (async_op_stats self) (poll_ops self).

Definition set_running (self : t) (b : bool) : t :=
  mk (watchers self) (details_watchers self) (all_metadata self) (new_metadata self) b
     (publish_interval self) (base_time self) (tasks self) (task_stats self) (resources self)
     (resource_stats self) (async_ops self) (async_op_stats self) (poll_ops self).

Definition set_tasks (self : t) (m : gmap N Task) (s : gmap N N) : t :=
  mk (watchers self) (details_watchers self) (all_metadata self) (new_metadata self) (running self)
     (publish_interval self) (base_time self) m s (resources self)
     (resource_stats self) (async_ops self) (async_op_stats self) (poll_ops self).

Definition set_resources (self : t) (m : gmap N Resource) (s : gmap N N) (p : list PollOp) : t :=
  mk (watchers self) (details_watchers self) (all_metadata self) (new_metadata self) (running self)
     (publish_interval self) (base_time self) (tasks self) (task_stats self) m s
     (async_ops self) (async_op_stats self) p.

Definition set_async_ops (self : t) (m : gmap N AsyncOp) (s : gmap N N) : t :=
  mk (watchers self) (details_watchers self) (all_metadata self) (new_metadata self) (running self)
     (publish_interval self) (base_time self) (tasks self) (task_stats self) (resources self)
     (resource_stats self) m s (poll_ops self).

(** [Watch::update] *)
Definition watch_update {T} (cs : gmap N (Chan T)) (w : N) (u : T) : gmap N (Chan T) * bool :=
  match cs !! w with
  | Some c => let '(c, b) := try_send c u in (<[w := c]> cs, b)
  | None => (cs, false)
  end.

(** [Vec::retain] with [watch.update]. *)
Fixpoint retain_watchers {T} (cs : gmap N (Chan T)) (ws : list N) (u : T)
  : gmap N (Chan T) * list N :=
  match ws with
  | [] => (cs, [])
  | w :: ws =>
      let '(cs, b) := watch_update cs w u in
      let '(cs, ws) := retain_watchers cs ws u in
      (cs, if b then w :: ws else ws)
  end.

Definition task_update (self : t) (env : Env) (include : Include) : TaskUpdate * t * Env :=
  let '(new, tasks) := IdMap.as_proto_list (tasks self) include (base_time self) in
  let '(stats, th) := IdMap.as_proto (task_heap (heap env)) (task_stats self) include
                        (base_time self) in
  let s := shared env in
  (mkTaskUpdate new stats (dropped_tasks s),
   set_tasks self tasks (task_stats self),
   set_shared
     (set_heap env (mkHeap _ th (resource_heap (heap env)) (async_heap (heap env))))
     (mkShared 0 (dropped_resources s) (dropped_async_ops s))).

Definition resource_update (self : t) (env : Env) (include : Include)
  : ResourceUpdate * t * Env :=
  let '(polls, rest) :=
    match include with
    | All => (poll_ops self, poll_ops self)
    | UpdatedOnly => (poll_ops self, [])
    end in
  let '(new, resources) := IdMap.as_proto_list (resources self) include (base_time self) in
  let '(stats, rh) := IdMap.as_proto (resource_heap (heap env)) (resource_stats self) include
                        (base_time self) in
  let s := shared env in
  (mkResourceUpdate new stats polls (dropped_resources s),
   set_resources self resources (resource_stats self) rest,
   set_shared
     (set_heap env (mkHeap _ (task_heap (heap env)) rh (async_heap (heap env))))
     (mkShared (dropped_tasks s) 0 (dropped_async_ops s))).

Definition async_op_update (self : t) (env : Env) (include : Include)
  : AsyncOpUpdate * t * Env :=
  let '(new, ops) := IdMap.as_proto_list (async_ops self) include (base_time self) in
  let '(stats, ah) := IdMap.as_proto (async_heap (heap env)) (async_op_stats self) include
                        (base_time self) in
  let s := shared env in
  (mkAsyncOpUpdate new stats (dropped_async_ops s),
   set_async_ops self ops (async_op_stats self),
   set_shared
     (set_heap env (mkHeap _ (task_heap (heap env)) (resource_heap (heap env)) ah))
     (mkShared (dropped_tasks s) (dropped_resources s) 0)).

Definition add_instrument_subscription (self : t) (env : Env) (subscription : N) : t * Env :=
  let '(tu, self, env) := task_update self env All in
  let '(ru, self, env) := resource_update self env All in
  let '(au, self, env) := async_op_update self env All in
  let update :=
    mkUpdate (Some tu) (Some ru) (Some au)
      (Some (TimeAnchor.to_timestamp (base_time self) (clock env)))
      (Some (all_metadata self)) in
  let '(cs, b) := watch_update (chans env) subscription update in
  (if b then set_watchers self (watchers self ++ [subscription]) else self, set_chans env cs).

Definition task_details (self : t) (env : Env) (id : N) (stats : TaskStats.t)
  : outcome TaskDetails :=
  let! h := TaskStats.poll_duration_histogram stats in
  Done (mkTaskDetails (Some id) (Some (TimeAnchor.to_timestamp (base_time self) (clock env)))
          (Some h)).

(** [async_channel::bounded] panics on an empty buffer. *)
Definition add_task_detail_subscription (self : t) (env : Env) (request : WatchRequest)
  : outcome (t * Env) :=
  let drop_sender := set_details env (detail_chans env)
                       (<[wr_reply request := SenderDropped]> (replies env)) in
  match task_stats self !! wr_id request ≫= λ a, task_heap (heap env) !! a with
  | Some stats =>
      if bool_decide (wr_buffer request = 0%nat) then Panic
      else
        let c := fresh (dom (detail_chans env)) in
        let cs := <[c := mkChan [] 0 (wr_buffer request) (wr_alive request)]> (detail_chans env) in
        if wr_alive request then
          let env := set_details env cs (<[wr_reply request := GotStream c]> (replies env)) in
          let! details := task_details self env (wr_id request) stats in
          let '(cs, b) := watch_update (detail_chans env) c details in
          let env := set_details env cs (replies env) in
          Done (if b then
                  set_details_watchers self
                    (<[wr_id request :=
                         default [] (details_watchers self !! wr_id request) ++ [c]]>
                       (details_watchers self))
                else self, env)
        else Done (self, set_details env cs (replies env))
  | None => Done (self, drop_sender)
  end.

(** The details of the watched tasks; a task without stats or without watchers
    left goes. *)
Definition publish_details (self : t) (env : Env) : outcome (t * Env) :=
  let! (kept, cs) :=
    for_loop (λ '(kept, cs) '(id, ws),
      match task_stats self !! id ≫= λ a, task_heap (heap env) !! a with
      | Some stats =>
          let! details := task_details self env id stats in
          let '(cs, ws) := retain_watchers cs ws details in
          Done (match ws with [] => kept | _ => <[id := ws]> kept end, cs)
      | None => Done (kept, cs)
      end) (∅, detail_chans env) (map_to_list (details_watchers self)) in
  Done (set_details_watchers self kept, set_details env cs (replies env)).

Definition publish (self : t) (env : Env) : outcome (t * Env) :=
  let metadata := match new_metadata self with [] => None | l => Some l end in
  let self := set_metadata self (all_metadata self) [] in
  let '(tu, self, env) := task_update self env UpdatedOnly in
  let '(ru, self, env) := resource_update self env UpdatedOnly in
  let '(au, self, env) := async_op_update self env UpdatedOnly in
  let update :=
    mkUpdate (Some tu) (Some ru) (Some au)
      (Some (TimeAnchor.to_timestamp (base_time self) (clock env))) metadata in
  let '(cs, ws) := retain_watchers (chans env) (watchers self) update in
  publish_details (set_watchers self ws) (set_chans env cs).

Definition update_state (self : t) (event : Event) : t :=
  match event with
  | EvMetadata meta =>
      set_metadata self (all_metadata self ++ [meta_ptr meta]) (new_metadata self ++ [meta_ptr meta])
  | EvSpawn id metadata stats fields location =>
      set_tasks self (IdMap.insert (tasks self) id (mkTask id true metadata fields location))
        (IdMap.insert (task_stats self) id stats)
  | EvResource id parent_id metadata concrete_type kind location is_internal stats =>
      set_resources self
        (IdMap.insert (resources self) id
           (mkResource id true parent_id metadata concrete_type kind location is_internal))
        (IdMap.insert (resource_stats self) id stats) (poll_ops self)
  | EvPollOp metadata resource_id op_name async_op_id task_id is_ready =>
      set_resources self (resources self) (resource_stats self)
        (poll_ops self ++
           [mkPollOp (Some (meta_ptr metadata)) (Some resource_id) op_name (Some task_id)
              (Some async_op_id) is_ready])
  | EvAsyncResourceOp id parent_id resource_id metadata source stats =>
      set_async_ops self
        (IdMap.insert (async_ops self) id
           (mkAsyncOp id true parent_id resource_id metadata source))
        (IdMap.insert (async_op_stats self) id stats)
  end.

(** What wakes [run]: the timer, or the command channel ([None]: closed). *)
Inductive Wakeup := TimerTick | Rpc (cmd : option Command).

(** The commands; the request for task details is dropped, and its sender with
    it. *)
Definition handle_command (self : t) (env : Env) (cmd : Command) : t * Env :=
  match cmd with
  | Instrument subscription => add_instrument_subscription self env subscription
  | WatchTaskDetail request =>
      (self, set_details env (detail_chans env)
               (<[wr_reply request := SenderDropped]> (replies env)))
  | Pause => (set_running self false, env)
  | Resume => (set_running self true, env)
  end.

(** One round of [run]; [None] when it returns. *)
Definition run_round (self : t) (env : Env) (w : Wakeup) : outcome (option (t * Env)) :=
  match w with
  | Rpc None => Done None
  | _ =>
      let '(should_send, self, env) :=
        match w with
        | Rpc (Some cmd) => let '(self, env) := handle_command self env cmd in (false, self, env)
        | _ => (running self, self, env)
        end in
      let self := foldl update_state self (events env) in
      let env := set_events env [] in
      if tx_open env then
        if negb (bool_decide (watchers self = [])) && should_send then
          let! r := publish self env in Done (Some r)
        else Done (Some (self, env))
      else Done None
  end.

End Ops.
End Aggregator.

(** ** The server *)

Module Server.
Section Ops.
Context `{Hdr}.

(** [tonic::Status] with its code. *)
Inductive Status := InvalidArgument (msg : string) | Internal (msg : string) | NotFound (msg : string).

(** The queue of commands to the aggregator; [rpc_open] while it runs. *)
Record t := mk {
  client_buffer_size : nat;
  subscribe : list Command;
  subscribe_capacity : nat;
  rpc_open : bool;
}.

Definition new (client_buffer_size subscribe_capacity : nat) : t :=
  mk client_buffer_size [] subscribe_capacity true.

Definition is_full (self : t) : bool :=
  bool_decide (subscribe_capacity self ≤ length (subscribe self))%nat.

(** [send]: [false] when the receiver is gone. *)
Definition send (self : t) (cmd : Command) : t * bool :=
  if rpc_open self then
    (mk (client_buffer_size self) (subscribe self ++ [cmd]) (subscribe_capacity self) true, true)
  else (self, false).

(** A new channel is handed out with the command; whether the command was taken
    is not looked at. *)
Definition watch_updates (self : t) (env : Aggregator.Env)
  : t * Aggregator.Env * result N Status :=
  if is_full self then
    (self, env, Err (Internal "cannot start new watch, aggregation task is not running"))
  else
    let w := fresh (dom (Aggregator.chans env)) in
    let env := Aggregator.set_chans env
                 (<[w := bounded (client_buffer_size self)]> (Aggregator.chans env)) in
    let '(self, _) := send self (Instrument w) in
    (self, env, Ok w).

(** Up to the point where the reply is awaited; [reply] names the oneshot
    channel. *)
Definition watch_task_details (self : t) (request_id : option N) (reply : N)
  : t * result N Status :=
  match request_id with
  | None => (self, Err (InvalidArgument "missing task_id"))
  | Some task_id =>
      if task_id =? 0 then (self, Err (InvalidArgument "task_id cannot be 0"))
      else if is_full self then
        (self, Err (Internal "cannot start new watch, aggregation task is not running"))
      else
        let '(self, _) :=
          send self (WatchTaskDetail (mkWatchRequest task_id reply true (client_buffer_size self)))
        in (self, Ok reply)
  end.

(** The reply is there. *)
Definition watch_task_details_reply (r : Reply) : result N Status :=
  match r with
  | GotStream rx => Ok rx
  | SenderDropped => Err (NotFound "task not found")
  end.

(** [pause] and [resume] wait while the queue is full. *)
Definition pause (self : t) : outcome (t * result () Status) :=
  if rpc_open self && is_full self then OutOfFuel
  else
    let '(self, ok) := send self Pause in
    Done (self, if ok then Ok ()
                else Err (Internal "cannot pause, aggregation task is not running")).

Definition resume (self : t) : outcome (t * result () Status) :=
  if rpc_open self && is_full self then OutOfFuel
  else
    let '(self, ok) := send self Resume in
    Done (self, if ok then Ok ()
                else Err (Internal "cannot resume, aggregation task is not running")).

End Ops.
End Server.

(** ** Theorems *)

(** *** Views of maps

    What a client has put together from updates is in step with a map when it
    has the current form of every entry that is not marked unsent, and no entry
    the map does not have; it is exact when it has the current form of all. *)
Section OwnedSync.
Context {S O : Type} `{UnsentLaws S O}.
Context (sid : S → N) (pid : O → option N).
Context (Hpid : ∀ x base, pid (to_proto x base) = Some (sid x)).
Context (Htake : ∀ x, sid (take_unsent x).2 = sid x).

Definition ids_ok (m : gmap N S) : Prop := map_Forall (λ id x, sid x = id) m.

Definition synced (base : TimeAnchor.t) (m : gmap N S) (v : gmap N O) : Prop :=
  ∀ id, match m !! id with
        | Some x => is_unsent x = true ∨ v !! id = Some (to_proto x base)
        | None => v !! id = None
        end.

Definition exact (base : TimeAnchor.t) (m : gmap N S) (v : gmap N O) : Prop :=
  v = (λ x, to_proto x base) <$> m.

(** What the client does with a list of new entries. *)
Definition apply_list (v : gmap N O) (l : list O) : gmap N O :=
  foldl (λ v p, match pid p with Some id => <[id := p]> v | None => v end) v l.

Lemma apply_list_map (base : TimeAnchor.t) (f : S → option S) (l : list (N * S)) v :
  NoDup l.*1 → Forall (λ p, sid p.2 = p.1) l →
  (∀ x y, f x = Some y → sid y = sid x) →
  ∀ id, apply_list v ((λ x, to_proto x base) <$> omap (f ∘ snd) l) !! id =
    match list_to_map (M := gmap N S) l !! id ≫= f with
    | Some y => Some (to_proto y base)
    | None => v !! id
    end.
Proof.
  intros Hnd Hid Hf. revert v. induction l as [|[k x] l IH]; intros v id; [done|].
  apply NoDup_cons in Hnd as [Hk Hnd]. apply Forall_cons in Hid as [Hx Hid]. simpl in Hx.
  csimpl. specialize (IH Hnd Hid).
  assert (list_to_map (M := gmap N S) l !! k = None) as Hnone by (by apply not_elem_of_list_to_map).
  destruct (f x) as [y|] eqn:Ef; csimpl.
  - rewrite Hpid, IH, (Hf _ _ Ef), Hx.
    destruct (decide (k = id)) as [->|Hne].
    + rewrite Hnone, !lookup_insert_eq. simpl. by rewrite Ef.
    + by rewrite !lookup_insert_ne by done.
  - rewrite IH. destruct (decide (k = id)) as [->|Hne].
    + rewrite Hnone, lookup_insert_eq. simpl. by rewrite Ef.
    + by rewrite lookup_insert_ne by done.
Qed.

Lemma map_list_ids m : ids_ok m → Forall (λ p, sid p.2 = p.1) (map_to_list m).
Proof.
  intros Hm. apply Forall_forall. intros [k x] Hkx%elem_of_map_to_list. by apply Hm.
Qed.

Lemma list_all_lookup base m v id :
  ids_ok m →
  apply_list v (IdMap.as_proto_list m All base).1 !! id =
  match m !! id with Some x => Some (to_proto x base) | None => v !! id end.
Proof.
  intros Hm. simpl. unfold IdMap.all.
  replace ((λ '(_, d), to_proto d base) <$> map_to_list m)
    with ((λ x, to_proto x base) <$> omap (Some ∘ snd) (map_to_list m)).
  - rewrite (apply_list_map base Some); [|apply NoDup_fst_map_to_list|by apply map_list_ids|congruence].
    rewrite list_to_map_to_list. by destruct (m !! id).
  - clear. induction (map_to_list m) as [|[k x] l IH]; csimpl; [done|]. by rewrite IH.
Qed.

Lemma list_updated_lookup base m v id :
  ids_ok m →
  apply_list v (IdMap.as_proto_list m UpdatedOnly base).1 !! id =
  match m !! id with
  | Some x => if is_unsent x then Some (to_proto x base) else v !! id
  | None => v !! id
  end.
Proof.
  intros Hm. simpl.
  set (f x := if is_unsent x then Some (take_unsent x).2 else None : option S).
  replace ((λ '(_, d), to_proto d base) <$> omap _ (map_to_list m))
    with ((λ x, to_proto x base) <$> omap (f ∘ snd) (map_to_list m)).
  - rewrite (apply_list_map base f); [|apply NoDup_fst_map_to_list|by apply map_list_ids|].
    + rewrite list_to_map_to_list. destruct (m !! id) as [x|]; [|done]. simpl. unfold f.
      destruct (is_unsent x); [|done]. by rewrite take_unsent_proto.
    + unfold f. intros x y. destruct (is_unsent x); [|done]. intros [= <-]. apply Htake.
  - clear -H1. induction (map_to_list m) as [|[k x] l IH]; csimpl; [done|].
    unfold f at 1. simpl. rewrite <-(take_unsent_fst x).
    destruct (take_unsent x) as [[] y]; csimpl; by rewrite IH.
Qed.

(** A new client gets everything, one that is in step becomes exact. *)
Lemma sync_all base m :
  ids_ok m → exact base m (apply_list ∅ (IdMap.as_proto_list m All base).1).
Proof.
  intros Hm. apply map_eq. intros id. rewrite list_all_lookup by done.
  rewrite lookup_fmap. by destruct (m !! id).
Qed.

Lemma sync_updated base m v :
  ids_ok m → synced base m v →
  let '(l, m') := IdMap.as_proto_list m UpdatedOnly base in
  ids_ok m' ∧ exact base m' (apply_list v l).
Proof.
  intros Hm Hv. simpl. split.
  { intros id x Hx. rewrite lookup_fmap_Some in Hx. destruct Hx as (y & <- & Hy).
    rewrite Htake. by apply Hm. }
  apply map_eq. intros id. pose proof (list_updated_lookup base m v id Hm) as Hl. simpl in Hl.
  rewrite Hl, !lookup_fmap. specialize (Hv id). destruct (m !! id) as [x|]; simpl; [|done].
  rewrite take_unsent_proto. destruct (is_unsent x); [done|]. by destruct Hv.
Qed.

Lemma exact_synced base m v : exact base m v → synced base m v.
Proof. intros -> id. rewrite lookup_fmap. destruct (m !! id); [by right|done]. Qed.

Lemma synced_insert base m v id x :
  synced base m v → is_unsent x = true → synced base (<[id := x]> m) v.
Proof.
  intros Hv Hx id'. destruct (decide (id = id')) as [->|Hne].
  - rewrite lookup_insert_eq. by left.
  - rewrite lookup_insert_ne by done. apply Hv.
Qed.

End OwnedSync.

Section ArcSync.
Context {T O : Type} `{UnsentLaws T O}.

(** No dangling [Arc]s, and none in two entries. *)
Definition arcs_ok (h : gmap N T) (m : gmap N N) : Prop :=
  map_Forall (λ _ a, is_Some (h !! a)) m ∧
  ∀ i j a, m !! i = Some a → m !! j = Some a → i = j.

Definition arcs_synced (base : TimeAnchor.t) (h : gmap N T) (m : gmap N N) (v : gmap N O) : Prop :=
  ∀ id, match m !! id with
        | Some a => ∃ x, h !! a = Some x ∧ (is_unsent x = true ∨ v !! id = Some (to_proto x base))
        | None => v !! id = None
        end.

Definition arcs_exact (base : TimeAnchor.t) (h : gmap N T) (m : gmap N N) (v : gmap N O) : Prop :=
  v = omap (λ a, (λ d, to_proto d base) <$> h !! a) m.

(** The stats may change while nobody looks, but then they are marked. *)
Definition evolves (h h' : gmap N T) : Prop :=
  ∀ a x, h !! a = Some x → ∃ x', h' !! a = Some x' ∧ (x' = x ∨ is_unsent x' = true).

Lemma since_last_update_fold (l : list (N * N)) (acc : list (N * T)) (h : gmap N T) :
  NoDup l.*2 → Forall (λ p, is_Some (h !! p.2)) l →
  let '(out, h') :=
    foldl (λ '(l, h) '(id, a),
      match h !! a with
      | Some data =>
          let '(unsent, data) := take_unsent data in
          (if unsent then l ++ [(id, data)] else l, <[a := data]> h)
      | None => (l, h)
      end) (acc, h) l in
  out = acc ++ omap (λ '(id, a), x ← h !! a; if is_unsent x then Some (id, (take_unsent x).2)
                                             else None) l ∧
  ∀ a, h' !! a = if decide (a ∈ l.*2) then (λ x, (take_unsent x).2) <$> h !! a else h !! a.
Proof.
  revert acc h. induction l as [|[id a] l IH]; intros acc h Hnd Hs.
  { cbn [foldl]. split; [by rewrite app_nil_r|]. intros a.
    by rewrite decide_False by apply not_elem_of_nil. }
  csimpl in Hnd. apply NoDup_cons in Hnd as [Ha Hnd]. apply Forall_cons in Hs as [[x Hx] Hs]. simpl in Hx.
  cbn [foldl]. rewrite Hx. pose proof (take_unsent_fst x) as Hu.
  destruct (take_unsent x) as [b y] eqn:Et. simpl in Hu.
  assert (∀ a', a' ≠ a → <[a := y]> h !! a' = h !! a') as Hins
    by (intros; by rewrite lookup_insert_ne).
  assert (∀ p : N * N, p ∈ l → p.2 ≠ a) as Hne.
  { intros [k c] Hp Hc. simpl in Hc. subst c. apply Ha. apply list_elem_of_fmap. by exists (k, a). }
  specialize (IH (if b then acc ++ [(id, y)] else acc) (<[a := y]> h) Hnd).
  destruct (foldl _ _ l) as [out h']. destruct IH as [-> Hh'].
  { apply Forall_forall. intros p Hp. rewrite Hins by (by apply Hne). rewrite Forall_forall in Hs. by apply Hs. }
  split.
  - csimpl. rewrite Hx. simpl. rewrite <-Hu.
    assert (omap (λ '(id0, a0), x0 ← <[a := y]> h !! a0;
              if is_unsent x0 then Some (id0, (take_unsent x0).2) else None) l
            = omap (λ '(id0, a0), x0 ← h !! a0;
              if is_unsent x0 then Some (id0, (take_unsent x0).2) else None) l) as ->.
    { apply list_omap_ext. apply Forall_Forall2_diag, Forall_forall. intros [k c] Hp.
      rewrite Hins; [done|]. by apply (Hne (k, c)). }
    destruct b; [|done]. by rewrite Et, <-app_assoc.
  - intros c. rewrite Hh'. destruct (decide (c = a)) as [->|Hc].
    + rewrite decide_False by done. rewrite lookup_insert_eq, Hx. csimpl.
      rewrite decide_True by left. by rewrite Et.
    + rewrite Hins by done. destruct (decide (c ∈ l.*2)) as [Hin|Hin].
      * by rewrite decide_True by (by right).
      * rewrite decide_False; [done|]. intros [?|?]%elem_of_cons; done.
Qed.

Lemma arcs_values_NoDup (h : gmap N T) m : arcs_ok h m → NoDup (map_to_list m).*2.
Proof.
  intros [_ Hinj]. apply NoDup_fmap_2_strong; [|apply NoDup_map_to_list].
  intros [i a] [j b] Hi%elem_of_map_to_list Hj%elem_of_map_to_list Heq. simpl in Heq. subst.
  by rewrite (Hinj _ _ _ Hi Hj).
Qed.

Lemma arcs_updated_spec base (h : gmap N T) (m : gmap N N) id :
  arcs_ok h m →
  let '(u, h') := IdMap.as_proto h m UpdatedOnly base in
  u !! id = (a ← m !! id; x ← h !! a; if is_unsent x then Some (to_proto x base) else None) ∧
  ∀ a, h' !! a = if decide (a ∈ (map_to_list m).*2) then (λ x, (take_unsent x).2) <$> h !! a
                 else h !! a.
Proof.
  intros Hok. simpl. unfold IdMap.since_last_update_arc.
  pose proof (since_last_update_fold (map_to_list m) [] h (arcs_values_NoDup _ _ Hok)) as Hf.
  destruct (foldl _ ([], h) _) as [out h']. destruct Hf as [-> Hh'].
  { apply Forall_forall. intros [i a] Hi%elem_of_map_to_list. by apply (proj1 Hok i). }
  split; [|done]. simpl.
  set (g := λ '(id, a), x ← h !! a; if is_unsent x then Some (id, (take_unsent x).2) else None).
  assert (∀ y, (id, y) ∈ omap g (map_to_list m) ↔
    ∃ a x, m !! id = Some a ∧ h !! a = Some x ∧ is_unsent x = true ∧ y = (take_unsent x).2) as Hel.
  { intros y. rewrite list_elem_of_omap. split.
    - intros ([i a] & Hi%elem_of_map_to_list & Hg). unfold g in Hg.
      destruct (h !! a) as [x|] eqn:Hx; simpl in Hg; [|done].
      destruct (is_unsent x) eqn:Eu; [|done]. injection Hg as <- <-. by exists a, x.
    - intros (a & x & Ha & Hx & Hu & ->). exists (id, a).
      split; [by apply elem_of_map_to_list|]. unfold g. rewrite Hx. simpl. by rewrite Hu. }
  assert (NoDup (omap g (map_to_list m)).*1) as Hnd.
  { assert ((omap g (map_to_list m)).*1 `sublist_of` (map_to_list m).*1) as Hsub.
    { clear. induction (map_to_list m) as [|[i a] l IH]; csimpl; [constructor|].
      destruct (h !! a) as [x|]; simpl; [|by constructor].
      destruct (is_unsent x); csimpl; by constructor. }
    eapply sublist_NoDup; [apply (NoDup_fst_map_to_list m)|exact Hsub]. }
  assert ((∀ y, (id, y) ∉ omap g (map_to_list m)) →
    list_to_map (M := gmap N O) ((λ '(id, d), (id, to_proto d base)) <$> omap g (map_to_list m)) !! id
    = None) as Hnone.
  { intros Hno. apply not_elem_of_list_to_map.
    intros ([i p] & Hip & ([j y] & Hj & Hy)%list_elem_of_fmap)%list_elem_of_fmap.
    simplify_eq/=. by apply (Hno y). }
  destruct (m !! id) as [a|] eqn:Ha; simpl.
  - destruct (h !! a) as [x|] eqn:Hx; simpl.
    + destruct (is_unsent x) eqn:Eu.
      * apply elem_of_list_to_map_1.
        { rewrite <-list_fmap_compose. erewrite list_fmap_ext; [exact Hnd|]. by intros ? [] _. }
        apply list_elem_of_fmap. exists (id, (take_unsent x).2). rewrite take_unsent_proto.
        split; [done|]. apply Hel. by exists a, x.
      * apply Hnone. intros y (? & ? & ? & ? & ? & ?)%Hel. simplify_eq. congruence.
    + apply Hnone. intros y (? & ? & ? & ? & ? & ?)%Hel. simplify_eq.
  - apply Hnone. intros y (? & ? & ? & ? & ? & ?)%Hel. simplify_eq.
Qed.

Lemma arcs_sync_all base (h : gmap N T) m :
  arcs_exact base h m ((IdMap.as_proto h m All base).1 ∪ ∅).
Proof. unfold arcs_exact. simpl. by rewrite right_id_L by apply _. Qed.

Lemma arcs_sync_updated base (h : gmap N T) m v :
  arcs_ok h m → arcs_synced base h m v →
  let '(u, h') := IdMap.as_proto h m UpdatedOnly base in
  arcs_ok h' m ∧ arcs_exact base h' m (u ∪ v) ∧ dom h' = dom h.
Proof.
  intros Hok Hv. pose proof (λ id, arcs_updated_spec base h m id Hok) as Hs.
  destruct (IdMap.as_proto h m UpdatedOnly base) as [u h'].
  assert (∀ a, h' !! a = if decide (a ∈ (map_to_list m).*2) then (λ x, (take_unsent x).2) <$> h !! a
                 else h !! a) as Hh' by apply (Hs 0). split; [|split].
  - split; [|apply Hok]. intros i a Ha. destruct (proj1 Hok i a Ha) as [x Hx].
    rewrite Hh', Hx. by case_decide; eexists.
  - apply map_eq. intros id. rewrite lookup_union, lookup_omap. destruct (Hs id) as [-> _].
    specialize (Hv id). destruct (m !! id) as [a|] eqn:Ha; simpl; [|by rewrite Hv].
    destruct Hv as (x & Hx & Hv). rewrite Hh', Hx. simpl.
    rewrite decide_True by (apply list_elem_of_fmap; exists (id, a); split; [done|];
      by apply elem_of_map_to_list).
    simpl. rewrite take_unsent_proto. destruct (is_unsent x); [by destruct (v !! id)|].
    destruct Hv as [?|Hv]; [done|]. by rewrite Hv.
  - apply set_eq. intros a. rewrite !elem_of_dom, Hh'. case_decide; [|done].
    by rewrite fmap_is_Some.
Qed.

Lemma arcs_exact_synced base (h : gmap N T) m v :
  arcs_ok h m → arcs_exact base h m v → arcs_synced base h m v.
Proof.
  intros Hok -> id. rewrite lookup_omap. destruct (m !! id) as [a|] eqn:Ha; [|done]. simpl.
  destruct (proj1 Hok id a Ha) as [x Hx]. exists x. split; [done|]. right. by rewrite Hx.
Qed.

Lemma arcs_synced_insert base (h : gmap N T) m v id a x :
  arcs_synced base h m v → h !! a = Some x → is_unsent x = true →
  arcs_synced base h (<[id := a]> m) v.
Proof.
  intros Hv Hx Hu id'. destruct (decide (id = id')) as [->|Hne].
  - rewrite lookup_insert_eq. exists x. by split; [|left].
  - rewrite lookup_insert_ne by done. apply Hv.
Qed.

Lemma arcs_synced_evolves base (h h' : gmap N T) m v :
  evolves h h' → arcs_synced base h m v → arcs_synced base h' m v.
Proof.
  intros Hev Hv id. specialize (Hv id). destruct (m !! id) as [a|]; [|done].
  destruct Hv as (x & Hx & Hv). destruct (Hev _ _ Hx) as (x' & Hx' & Hx''). exists x'.
  destruct Hx'' as [->|Hu]; [done|]. by split; [|left].
Qed.

End ArcSync.
