(* ===== verification/ConsoleView.v ===== *)
(** * What the console's clients see

    A client of the console puts the updates it receives together into a [View].
    This file shows that the view of every watching client is in step with the
    aggregator, whatever the layer, the server and the clients do in between,
    and exact after each publication.  The layer is seen through [layer_step],
    what it promises the aggregator: it changes shared stats only together with
    their flag and sends events with fresh stats (ConsoleLayer shows it does). *)

From S2P Require Import Prelude ConsoleStats ConsoleVisitors ConsoleSpans ConsoleAggregate.
Import Aggregator.

Local Open Scope N_scope.

(** ** Views *)

Record View := mkView {
  v_tasks : gmap N TaskProto;
  v_task_stats : gmap N TaskStats.Proto;
  v_resources : gmap N ResourceProto;
  v_resource_stats : gmap N ResourceStats.Proto;
  v_async_ops : gmap N AsyncOpProto;
  v_async_op_stats : gmap N AsyncOpStats.Proto;
}.

Definition empty_view : View := mkView ∅ ∅ ∅ ∅ ∅ ∅.

Definition apply_update (v : View) (u : Update) : View :=
  let v := match task_update_ u with
    | Some tu => mkView (apply_list tp_id (v_tasks v) (new_tasks tu))
                   (task_stats_update tu ∪ v_task_stats v) (v_resources v) (v_resource_stats v)
                   (v_async_ops v) (v_async_op_stats v)
    | None => v
    end in
  let v := match resource_update_ u with
    | Some ru => mkView (v_tasks v) (v_task_stats v)
                   (apply_list rp_id (v_resources v) (new_resources ru))
                   (resource_stats_update ru ∪ v_resource_stats v)
                   (v_async_ops v) (v_async_op_stats v)
    | None => v
    end in
  match async_op_update_ u with
  | Some au => mkView (v_tasks v) (v_task_stats v) (v_resources v) (v_resource_stats v)
                 (apply_list ap_id (v_async_ops v) (new_async_ops au))
                 (async_op_stats_update au ∪ v_async_op_stats v)
  | None => v
  end.

Definition view_of (c : Chan Update) : View := foldl apply_update empty_view (sent c).

Section View.
Context `{Hdr}.

Record in_step (self : t) (h : Heap) (v : View) : Prop := {
  is_tasks : synced (base_time self) (tasks self) (v_tasks v);
  is_task_stats : arcs_synced (base_time self) (task_heap h) (task_stats self) (v_task_stats v);
  is_resources : synced (base_time self) (resources self) (v_resources v);
  is_resource_stats :
    arcs_synced (base_time self) (resource_heap h) (resource_stats self) (v_resource_stats v);
  is_async_ops : synced (base_time self) (async_ops self) (v_async_ops v);
  is_async_op_stats :
    arcs_synced (base_time self) (async_heap h) (async_op_stats self) (v_async_op_stats v);
}.

Record shows (self : t) (h : Heap) (v : View) : Prop := {
  sh_tasks : exact (base_time self) (tasks self) (v_tasks v);
  sh_task_stats : arcs_exact (base_time self) (task_heap h) (task_stats self) (v_task_stats v);
  sh_resources : exact (base_time self) (resources self) (v_resources v);
  sh_resource_stats :
    arcs_exact (base_time self) (resource_heap h) (resource_stats self) (v_resource_stats v);
  sh_async_ops : exact (base_time self) (async_ops self) (v_async_ops v);
  sh_async_op_stats :
    arcs_exact (base_time self) (async_heap h) (async_op_stats self) (v_async_op_stats v);
}.

End View.

(** ** Events that wait *)

Section Queues.
Context {T O : Type} `{UnsentLaws T O}.

(** The entries' [Arc]s and those of the waiting events [pend] are live and
    different, and the latter are unsent. *)
Record queue_ok (h : gmap N T) (m : gmap N N) (pend : list (N * N)) : Prop := {
  qo_arcs : arcs_ok h m;
  qo_nodup : NoDup pend.*2;
  qo_fresh : ∀ p, p ∈ pend → ∀ id, m !! id ≠ Some p.2;
  qo_live : ∀ p, p ∈ pend → ∃ x, h !! p.2 = Some x ∧ is_unsent x = true;
}.

(** What the layer may do to a heap while it sends events with [new] stats. *)
Record grows (h h' : gmap N T) (new : list N) : Prop := {
  gr_evolves : evolves h h';
  gr_nodup : NoDup new;
  gr_new : ∀ a, a ∈ new → h !! a = None ∧ ∃ x, h' !! a = Some x ∧ is_unsent x = true;
}.

Lemma queue_insert h m id a pend :
  queue_ok h m ((id, a) :: pend) → queue_ok h (<[id := a]> m) pend.
Proof.
  intros [[Hl Hinj] Hnd Hf Hv]. apply NoDup_cons in Hnd as [Ha Hnd].
  assert (∀ id', m !! id' ≠ Some a) as Hna by (apply (Hf (id, a)); left).
  split; [split| | |].
  - apply map_Forall_insert_2; [|done]. destruct (Hv (id, a)) as (x & Hx & _); [left|].
    by exists x.
  - intros i j b Hi Hj. rewrite lookup_insert_Some in Hi, Hj.
    destruct Hi as [[<- <-]|[? Hi]], Hj as [[<- ?]|[? Hj]]; simplify_eq; try done.
    + by apply Hna in Hj.
    + by apply Hna in Hi.
    + by apply (Hinj _ _ b).
  - done.
  - intros p Hp id'. rewrite lookup_insert_Some. intros [[_ Hpa]|[_ Hm]].
    + apply Ha. rewrite Hpa. apply list_elem_of_fmap. by exists p.
    + eapply Hf; [right; exact Hp|exact Hm].
  - intros p Hp. apply Hv. by right.
Qed.

Lemma queue_grows h h' m pend new :
  queue_ok h m pend → grows h h' new.*2 → queue_ok h' m (pend ++ new).
Proof.
  intros [[Hl Hinj] Hnd Hf Hv] [Hev Hnn Hnew].
  assert (∀ p, p ∈ new → h !! p.2 = None ∧ ∃ x, h' !! p.2 = Some x ∧ is_unsent x = true) as Hn.
  { intros p Hp. apply Hnew, list_elem_of_fmap. by exists p. }
  split; [split| | |].
  - intros i a Ha. destruct (Hl _ _ Ha) as [x Hx].
    destruct (Hev _ _ Hx) as (x' & Hx' & _). by exists x'.
  - done.
  - rewrite fmap_app. apply NoDup_app. split; [done|]. split; [|done].
    intros a (p & -> & Hp)%list_elem_of_fmap (q & Hq & Hq')%list_elem_of_fmap.
    destruct (Hv _ Hp) as (x & Hx & _). destruct (Hn _ Hq') as [Hx' _]. congruence.
  - intros p [Hp|Hp]%elem_of_app id Hid; [by eapply Hf|].
    destruct (Hl _ _ Hid) as [x Hx]. destruct (Hn _ Hp) as [Hx' _]. congruence.
  - intros p [Hp|Hp]%elem_of_app; [|by apply Hn].
    destruct (Hv _ Hp) as (x & Hx & Hu).
    destruct (Hev _ _ Hx) as (x' & Hx' & [->|Hu']); by exists x' || by exists x.
Qed.

Lemma queue_updated base h m pend :
  queue_ok h m pend → queue_ok (IdMap.as_proto h m UpdatedOnly base).2 m pend.
Proof.
  intros [Hok Hnd Hf Hv]. pose proof (λ id, arcs_updated_spec base h m id Hok) as Hs.
  destruct (IdMap.as_proto h m UpdatedOnly base) as [u h']. simpl.
  assert (∀ a, h' !! a = if decide (a ∈ (map_to_list m).*2) then (λ x, (take_unsent x).2) <$> h !! a
                 else h !! a) as Hh' by apply (Hs 0). split; [split| | |].
  - intros i a Ha. destruct (proj1 Hok i a Ha) as [x Hx]. rewrite Hh', Hx. by case_decide; eexists.
  - apply Hok.
  - done.
  - done.
  - intros p Hp. destruct (Hv _ Hp) as (x & Hx & Hu). exists x. split; [|done].
    rewrite Hh', decide_False; [done|].
    intros ([i a] & Hpa & Hi%elem_of_map_to_list)%list_elem_of_fmap. simpl in Hpa.
    apply (Hf _ Hp i). by rewrite Hi, Hpa.
Qed.

Lemma grows_refl h : grows h h [].
Proof.
  split; [|constructor|]; [intros a x Hx; exists x; auto|].
  intros a Ha. by apply not_elem_of_nil in Ha.
Qed.

End Queues.

(** ** The aggregator *)

Definition task_pend : list Event → list (N * N) :=
  omap (λ e, match e with EvSpawn id _ stats _ _ => Some (id, stats) | _ => None end).
Definition resource_pend : list Event → list (N * N) :=
  omap (λ e, match e with EvResource id _ _ _ _ _ _ stats => Some (id, stats) | _ => None end).
Definition async_pend : list Event → list (N * N) :=
  omap (λ e, match e with EvAsyncResourceOp id _ _ _ _ stats => Some (id, stats) | _ => None end).

Section Steps.
Context `{Hdr}.

(** What the layer promises: it only appends events, whose stats are fresh, and
    marks every stats it changes. *)
Record layer_step (env env' : Env) : Prop := {
  ls_events : ∃ new, events env' = events env ++ new ∧
    grows (task_heap (heap env)) (task_heap (heap env')) (task_pend new).*2 ∧
    grows (resource_heap (heap env)) (resource_heap (heap env')) (resource_pend new).*2 ∧
    grows (async_heap (heap env)) (async_heap (heap env')) (async_pend new).*2;
  ls_chans : chans env' = chans env;
}.

(** The entries and the stats, without the clients. *)
Record data_inv (self : t) (h : Heap) (l : list Event) : Prop := {
  di_tasks : ids_ok t_id (tasks self);
  di_resources : ids_ok r_id (resources self);
  di_async_ops : ids_ok a_id (async_ops self);
  di_task_queue : queue_ok (task_heap h) (task_stats self) (task_pend l);
  di_resource_queue : queue_ok (resource_heap h) (resource_stats self) (resource_pend l);
  di_async_queue : queue_ok (async_heap h) (async_op_stats self) (async_pend l);
}.

Record agg_inv (self : t) (env : Env) : Prop := {
  ai_data : data_inv self (heap env) (events env);
  ai_details : details_watchers self = ∅;
  ai_watchers : NoDup (watchers self);
  ai_views : ∀ w, w ∈ watchers self →
    ∃ c, chans env !! w = Some c ∧ in_step self (heap env) (view_of c);
}.

Lemma in_step_update self h v e l :
  data_inv self h (e :: l) → in_step self h v → in_step (update_state self e) h v.
Proof.
  intros Hd [H1 H2 H3 H4 H5 H6]. destruct e; constructor; simpl; try done.
  - by apply synced_insert.
  - destruct (qo_live _ _ _ (di_task_queue _ _ _ Hd) (id, stats)) as (x & Hx & Hu); [left|].
    by eapply arcs_synced_insert.
  - by apply synced_insert.
  - destruct (qo_live _ _ _ (di_resource_queue _ _ _ Hd) (id, stats)) as (x & Hx & Hu); [left|].
    by eapply arcs_synced_insert.
  - by apply synced_insert.
  - destruct (qo_live _ _ _ (di_async_queue _ _ _ Hd) (id, stats)) as (x & Hx & Hu); [left|].
    by eapply arcs_synced_insert.
Qed.

Lemma data_update self h e l : data_inv self h (e :: l) → data_inv (update_state self e) h l.
Proof.
  intros [H1 H2 H3 H4 H5 H6]. destruct e; constructor; simpl; try done;
    try (by apply map_Forall_insert_2); by apply queue_insert.
Qed.

Lemma update_watchers self e :
  watchers (update_state self e) = watchers self ∧
  details_watchers (update_state self e) = details_watchers self ∧
  running (update_state self e) = running self ∧ base_time (update_state self e) = base_time self.
Proof. by destruct e. Qed.

Lemma drain_inv self env :
  agg_inv self env → agg_inv (foldl update_state self (events env)) (set_events env []).
Proof.
  intros [Hd Hdet Hnd Hv]. remember (events env) as l eqn:El. clear El.
  revert self Hd Hdet Hnd Hv. induction l as [|e l IH]; intros self Hd Hdet Hnd Hv; [by constructor|].
  destruct (update_watchers self e) as (Hw & Hdw & _). simpl. apply IH.
  - by apply data_update.
  - by rewrite Hdw.
  - by rewrite Hw.
  - rewrite Hw. intros w Hw'. destruct (Hv w Hw') as (c & Hc & Hs). exists c.
    split; [done|]. by eapply in_step_update.
Qed.

Lemma drain_watchers self l :
  watchers (foldl update_state self l) = watchers self ∧
  running (foldl update_state self l) = running self.
Proof.
  revert self. induction l as [|e l IH]; intros self; [done|]. simpl.
  destruct (IH (update_state self e)) as [-> ->]. destruct (update_watchers self e) as (? & _ & ? & _).
  done.
Qed.

Lemma layer_step_inv self env env' : layer_step env env' → agg_inv self env → agg_inv self env'.
Proof.
  intros [(new & Hev & Ht & Hr & Ha) Hch] [Hd Hdet Hnd Hv]. constructor; [|done|done|].
  - destruct Hd. constructor; [done..| | |]; rewrite Hev; unfold task_pend, resource_pend, async_pend;
      rewrite omap_app; by eapply queue_grows.
  - rewrite Hch. intros w Hw. destruct (Hv w Hw) as (c & Hc & []). exists c. split; [done|].
    constructor; [done| |done| |done|]; eapply arcs_synced_evolves; try done;
      [apply Ht|apply Hr|apply Ha].
Qed.

(** *** Publishing *)

#[local] Opaque IdMap.as_proto_list IdMap.as_proto.

Definition published (self : t) (env : Env) (include : Include) : Update * t * Env :=
  let '(tu, self, env) := task_update self env include in
  let '(ru, self, env) := resource_update self env include in
  let '(au, self, env) := async_op_update self env include in
  (mkUpdate (Some tu) (Some ru) (Some au) None None, self, env).

Lemma published_updated self env v :
  data_inv self (heap env) (events env) → in_step self (heap env) v →
  let '(u, self', env') := published self env UpdatedOnly in
  shows self' (heap env') (apply_update v u).
Proof.
  intros [Ht Hr Ha [Hta _ _ _] [Hra _ _ _] [Haa _ _ _]] [H1 H2 H3 H4 H5 H6].
  unfold published, task_update, resource_update, async_op_update.
  pose proof (sync_updated t_id tp_id (λ _ _, eq_refl) (λ _, eq_refl) (base_time self) _ _ Ht H1) as P1.
  pose proof (arcs_sync_updated (base_time self) _ _ _ Hta H2) as P2.
  pose proof (sync_updated r_id rp_id (λ _ _, eq_refl) (λ _, eq_refl) (base_time self) _ _ Hr H3) as P3.
  pose proof (arcs_sync_updated (base_time self) _ _ _ Hra H4) as P4.
  pose proof (sync_updated a_id ap_id (λ _ _, eq_refl) (λ _, eq_refl) (base_time self) _ _ Ha H5) as P5.
  pose proof (arcs_sync_updated (base_time self) _ _ _ Haa H6) as P6.
  destruct (IdMap.as_proto_list (tasks self) _ _) as [l1 m1].
  destruct (IdMap.as_proto (task_heap _) _ _ _) as [l2 m2]. simpl.
  destruct (IdMap.as_proto_list (resources self) _ _) as [l3 m3].
  destruct (IdMap.as_proto (resource_heap _) _ _ _) as [l4 m4]. simpl.
  destruct (IdMap.as_proto_list (async_ops self) _ _) as [l5 m5].
  destruct (IdMap.as_proto (async_heap _) _ _ _) as [l6 m6]. simpl.
  destruct P1 as [_ P1], P2 as (_ & P2 & _), P3 as [_ P3], P4 as (_ & P4 & _), P5 as [_ P5],
    P6 as (_ & P6 & _).
  by constructor.
Qed.

#[local] Transparent IdMap.as_proto_list IdMap.as_proto.

Lemma published_data self env include :
  data_inv self (heap env) (events env) →
  let '(u, self', env') := published self env include in
  data_inv self' (heap env') (events env) ∧ events env' = events env ∧ chans env' = chans env ∧
  detail_chans env' = detail_chans env ∧ replies env' = replies env ∧
  watchers self' = watchers self ∧ details_watchers self' = details_watchers self ∧
  base_time self' = base_time self ∧ clock env' = clock env.
Proof.
  intros [Ht Hr Ha Htq Hrq Haq].
  unfold published, task_update, resource_update, async_op_update.
  destruct include; unfold IdMap.as_proto_list, IdMap.as_proto; simpl.
  - split; [by constructor|done].
  - pose proof (queue_updated (base_time self) _ _ _ Htq) as P1.
    pose proof (queue_updated (base_time self) _ _ _ Hrq) as P2.
    pose proof (queue_updated (base_time self) _ _ _ Haq) as P3.
    unfold IdMap.as_proto in P1, P2, P3.
    destruct (IdMap.since_last_update_arc (task_heap _) _) as [l1 h1].
    destruct (IdMap.since_last_update_arc (resource_heap _) _) as [l2 h2].
    destruct (IdMap.since_last_update_arc (async_heap _) _) as [l3 h3].
    simpl in *. split; [|done]. constructor; simpl; [| | |done|done|done];
      intros id x (y & <- & Hy)%lookup_fmap_Some; simpl; eauto.
Qed.

(** The client is there and has room for another update. *)
Definition can_send {T} (c : Chan T) : bool :=
  rx_open c && bool_decide (length (sent c) - received c < capacity c)%nat.

Lemma retain_watchers_spec (cs : gmap N (Chan Update)) ws u :
  NoDup ws →
  let '(cs', ws') := retain_watchers cs ws u in
  NoDup ws' ∧ (∀ w, w ∈ ws' → w ∈ ws) ∧ (∀ w, w ∉ ws → cs' !! w = cs !! w) ∧
  (∀ w, w ∈ ws' → ∃ c c', cs !! w = Some c ∧ cs' !! w = Some c' ∧ sent c' = sent c ++ [u]) ∧
  (∀ w c, w ∈ ws → cs !! w = Some c → can_send c = true → w ∈ ws').
Proof.
  revert cs. induction ws as [|w ws IH]; intros cs Hnd; simpl.
  { repeat split; [constructor|done| |]; [intros w []%not_elem_of_nil|].
    intros w c []%not_elem_of_nil. }
  apply NoDup_cons in Hnd as [Hw Hnd]. unfold watch_update.
  destruct (cs !! w) as [c|] eqn:Hc.
  - destruct (try_send c u) as [c' b] eqn:Hs.
    specialize (IH (<[w := c']> cs) Hnd).
    destruct (retain_watchers _ ws u) as [cs' ws']. destruct IH as (Hnd' & Hsub & Hout & Hin & Hk).
    assert (∀ w' d, w' ∈ ws → cs !! w' = Some d → can_send d = true → w' ∈ ws') as Hk'.
    { intros w' d Hw' Hd. apply Hk; [done|]. by rewrite lookup_insert_ne by (intros ->; done). }
    assert (∀ w', w' ∉ w :: ws → cs' !! w' = cs !! w') as Hout'.
    { intros w' [Hne Hnin]%not_elem_of_cons. rewrite Hout by done. by rewrite lookup_insert_ne. }
    assert (∀ w', w' ∈ ws' → ∃ c c', cs !! w' = Some c ∧ cs' !! w' = Some c' ∧
      sent c' = sent c ++ [u]) as Hin'.
    { intros w' Hw'. destruct (Hin w' Hw') as (d & d' & Hd & Hd' & Hsd).
      rewrite lookup_insert_ne in Hd by (intros <-; by apply Hw, Hsub). by exists d, d'. }
    destruct b.
    + repeat split; [|set_solver|done| |].
      3: { intros w' d [->|Hw']%elem_of_cons Hd Hcs; [left|right; by eapply Hk']. }
      * constructor; [|done]. intros Hin''. by apply Hw, Hsub.
      * intros w' [->|Hw']%elem_of_cons; [|by apply Hin'].
        exists c, c'. split; [done|]. split; [by rewrite Hout, lookup_insert_eq|].
        unfold try_send in Hs. destruct (_ && _); by simplify_eq.
    + repeat split; [done|set_solver|done|done|].
      intros w' d [->|Hw']%elem_of_cons Hd Hcs; [|by eapply Hk'].
      unfold try_send in Hs. simplify_eq. unfold can_send in Hcs. by rewrite Hcs in Hs.
  - specialize (IH cs Hnd). destruct (retain_watchers cs ws u) as [cs' ws'].
    destruct IH as (Hnd' & Hsub & Hout & Hin & Hk). repeat split; [done|set_solver| |done|].
    + intros w' [_ Hnin]%not_elem_of_cons. by apply Hout.
    + intros w' d [->|Hw']%elem_of_cons Hd Hcs; [congruence|by eapply Hk].
Qed.

Lemma shows_in_step self h v l : data_inv self h l → shows self h v → in_step self h v.
Proof.
  intros Hd [H1 H2 H3 H4 H5 H6]. constructor; try by apply exact_synced.
  - apply arcs_exact_synced; [|done]. apply (qo_arcs _ _ _ (di_task_queue _ _ _ Hd)).
  - apply arcs_exact_synced; [|done]. apply (qo_arcs _ _ _ (di_resource_queue _ _ _ Hd)).
  - apply arcs_exact_synced; [|done]. apply (qo_arcs _ _ _ (di_async_queue _ _ _ Hd)).
Qed.

(** A publication goes through, every client that is kept gets the update, and
    its view then shows exactly what the aggregator has. *)
Lemma publish_inv self env :
  agg_inv self env →
  ∃ self' env', publish self env = Done (self', env') ∧ agg_inv self' env' ∧
    events env' = events env ∧ tx_open env' = tx_open env ∧
    (∀ w, w ∉ watchers self → chans env' !! w = chans env !! w) ∧
    (∀ w, w ∈ watchers self' → w ∈ watchers self) ∧
    (∀ w c, w ∈ watchers self → chans env !! w = Some c → can_send c = true → w ∈ watchers self') ∧
    ∀ w, w ∈ watchers self' →
      ∃ c, chans env' !! w = Some c ∧ shows self' (heap env') (view_of c).
Proof.
  intros [Hd Hdet Hnd Hv]. unfold publish.
  set (self0 := set_metadata self (all_metadata self) []).
  assert (data_inv self0 (heap env) (events env)) as Hd0 by (destruct Hd; by constructor).
  assert (∀ v, in_step self (heap env) v → in_step self0 (heap env) v) as Hv0
    by (intros v []; by constructor).
  pose proof (published_data self0 env UpdatedOnly Hd0) as Hpd.
  pose proof (λ v, published_updated self0 env v Hd0) as Hpu.
  unfold published in Hpd, Hpu.
  assert (tx_open (task_update self0 env UpdatedOnly).2 = tx_open env) as Htx.
  { unfold task_update. destruct (IdMap.as_proto_list _ _ _), (IdMap.as_proto _ _ _ _). done. }
  destruct (task_update self0 env UpdatedOnly) as [[tu self1] env1]. simpl in Htx.
  assert (tx_open (resource_update self1 env1 UpdatedOnly).2 = tx_open env1) as Htx1.
  { unfold resource_update. destruct (IdMap.as_proto_list _ _ _), (IdMap.as_proto _ _ _ _). done. }
  destruct (resource_update self1 env1 UpdatedOnly) as [[ru self2] env2]. simpl in Htx1.
  assert (tx_open (async_op_update self2 env2 UpdatedOnly).2 = tx_open env2) as Htx2.
  { unfold async_op_update. destruct (IdMap.as_proto_list _ _ _), (IdMap.as_proto _ _ _ _). done. }
  destruct (async_op_update self2 env2 UpdatedOnly) as [[au self3] env3]. simpl in Htx2.
  destruct Hpd as (Hd3 & Hev & Hch & Hdc & Hre & Hws & Hdw & Hbt & Hck).
  set (u := mkUpdate _ _ _ _ _). pose proof (retain_watchers_spec (chans env3) (watchers self3) u) as Hr.
  rewrite Hws in *. specialize (Hr Hnd).
  destruct (retain_watchers (chans env3) (watchers self0) u) as [cs ws].
  destruct Hr as (Hnd' & Hsub & Hout & Hin & Hk). rewrite Hch in Hk.
  unfold publish_details. simpl. rewrite Hdw. simpl. rewrite Hdet, map_to_list_empty. simpl.
  eexists _, _. split; [done|].
  assert (∀ w, w ∈ ws → ∃ c, cs !! w = Some c ∧ shows self3 (heap env3) (view_of c)) as Hshow.
  { intros w Hw. destruct (Hin w Hw) as (c & c' & Hc & Hc' & Hs). exists c'. split; [done|].
    rewrite Hch in Hc. destruct (Hv w (Hsub w Hw)) as (c0 & Hc0 & Hst). simplify_eq.
    unfold view_of. rewrite Hs, foldl_app. simpl. apply (Hpu (view_of c)). by apply Hv0. }
  assert (data_inv (set_details_watchers (set_watchers self3 ws) ∅) (heap env3) (events env))
    as Hd4 by (destruct Hd3; by constructor).
  split; [|split; [|split; [|split; [|split; [|split]]]]]; simpl; try done.
  - constructor; simpl; [by rewrite Hev|done|done|].
    intros w Hw. destruct (Hshow w Hw) as (c & Hc & []). exists c. split; [done|].
    eapply shows_in_step; [exact Hd4|]. by constructor.
  - congruence.
  - intros w Hw. rewrite Hout by done. by rewrite Hch.
  - intros w Hw. destruct (Hshow w Hw) as (c & Hc & []). exists c. split; [done|]. by constructor.
Qed.

(** A new client gets everything the aggregator has. *)
Lemma subscribe_inv self env w c :
  agg_inv self env → w ∉ watchers self → chans env !! w = Some c → sent c = [] →
  let '(self', env') := add_instrument_subscription self env w in
  agg_inv self' env' ∧ events env' = events env ∧ tx_open env' = tx_open env ∧
  (∀ w', w' ≠ w → chans env' !! w' = chans env !! w') ∧
  (∀ w', w' ∈ watchers self' → w' ∈ watchers self ∨ w' = w) ∧
  (rx_open c = true → (received c < capacity c)%nat →
   w ∈ watchers self' ∧ ∃ c', chans env' !! w = Some c' ∧ shows self' (heap env') (view_of c')).
Proof.
  intros [Hd Hdet Hnd Hv] Hw Hc Hs.
  unfold add_instrument_subscription, task_update, resource_update, async_op_update; simpl.
  set (u := mkUpdate _ _ _ _ _). unfold watch_update. rewrite Hc.
  assert (shows self (heap env) (apply_update empty_view u)) as Hsh.
  { pose proof (sync_all t_id tp_id (λ _ _, eq_refl) (base_time self) _ (di_tasks _ _ _ Hd)) as P1.
    pose proof (sync_all r_id rp_id (λ _ _, eq_refl) (base_time self) _ (di_resources _ _ _ Hd)) as P2.
    pose proof (sync_all a_id ap_id (λ _ _, eq_refl) (base_time self) _ (di_async_ops _ _ _ Hd)) as P3.
    constructor; simpl; [exact P1|apply arcs_sync_all|exact P2|apply arcs_sync_all|exact P3
      |apply arcs_sync_all]. }
  unfold try_send. rewrite Hs. simpl.
  destruct (rx_open c && bool_decide (0 - received c < capacity c)%nat) eqn:Eb; simpl.
  - split; [|split; [done|split; [done|split; [|split]]]]; simpl.
    + constructor; simpl; [destruct Hd; by constructor|done| |].
      * apply NoDup_app. split; [done|]. split; [set_solver|apply NoDup_singleton].
      * intros w' [Hw'|Hw'%list_elem_of_singleton]%elem_of_app; [|subst w'].
        -- rewrite lookup_insert_ne by (intros ->; done). destruct (Hv w' Hw') as (c' & Hc' & []).
           exists c'. split; [done|]. by constructor.
        -- rewrite lookup_insert_eq. eexists. split; [done|]. unfold view_of; simpl.
           eapply shows_in_step; [destruct Hd; by constructor|]. destruct Hsh; by constructor.
    + intros w' Hne. by rewrite lookup_insert_ne.
    + intros w' [Hw'|Hw'%list_elem_of_singleton]%elem_of_app; auto.
    + intros _ _. split; [set_solver|]. rewrite lookup_insert_eq. eexists. split; [done|].
      destruct Hsh; by constructor.
  - split; [|split; [done|split; [done|split; [|split]]]]; simpl.
    + constructor; simpl; [destruct Hd; by constructor|done|done|].
      intros w' Hw'. rewrite lookup_insert_ne by (intros ->; done).
      destruct (Hv w' Hw') as (c' & Hc' & []). exists c'. split; [done|]. by constructor.
    + intros w' Hne. by rewrite lookup_insert_ne.
    + auto.
    + intros Ho Hlt. rewrite Ho in Eb. simpl in Eb. apply bool_decide_eq_false in Eb. lia.
Qed.

End Steps.

(** ** The whole console *)

Section System.
Context `{Hdr}.

Record Console := mkConsole {
  agg : t;
  env : Env;
  server : Server.t;
}.

Definition empty_heap : Heap := mkHeap _ ∅ ∅ ∅.

(** The state [ConsoleLayer::build] sets up. *)
Definition init (base : TimeAnchor.t) (clock : N) (buffer capacity : nat) : Console :=
  mkConsole (Aggregator.new base)
    (mkEnv empty_heap (mkShared 0 0 0) [] true ∅ ∅ ∅ clock)
    (Server.new buffer capacity).

(** A client takes an update out of its channel, or goes away. *)
Definition client_recv (c : Chan Update) : Chan Update :=
  mkChan (sent c) (S (received c)) (capacity c) (rx_open c).
Definition client_close (c : Chan Update) : Chan Update :=
  mkChan (sent c) (received c) (capacity c) false.

Definition set_queue (s : Server.t) (l : list Command) : Server.t :=
  Server.mk (Server.client_buffer_size s) l (Server.subscribe_capacity s) (Server.rpc_open s).

Inductive step : Console → Console → Prop :=
| step_layer a e s e' : layer_step e e' → step (mkConsole a e s) (mkConsole a e' s)
| step_timer a e s a' e' :
    run_round a e TimerTick = Done (Some (a', e')) → step (mkConsole a e s) (mkConsole a' e' s)
| step_command a e s cmd l a' e' :
    Server.subscribe s = cmd :: l →
    run_round a e (Rpc (Some cmd)) = Done (Some (a', e')) →
    step (mkConsole a e s) (mkConsole a' e' (set_queue s l))
| step_watch a e s s' e' r :
    Server.watch_updates s e = (s', e', r) → step (mkConsole a e s) (mkConsole a e' s')
| step_details a e s id reply s' r :
    Server.watch_task_details s id reply = (s', r) → step (mkConsole a e s) (mkConsole a e s')
| step_pause a e s s' r : Server.pause s = Done (s', r) → step (mkConsole a e s) (mkConsole a e s')
| step_resume a e s s' r :
    Server.resume s = Done (s', r) → step (mkConsole a e s) (mkConsole a e s')
| step_recv a e s w c :
    chans e !! w = Some c → (received c < length (sent c))%nat →
    step (mkConsole a e s) (mkConsole a (set_chans e (<[w := client_recv c]> (chans e))) s)
| step_close a e s w c :
    chans e !! w = Some c →
    step (mkConsole a e s) (mkConsole a (set_chans e (<[w := client_close c]> (chans e))) s).

Definition waiting (l : list Command) : list N :=
  omap (λ c, match c with Instrument w => Some w | _ => None end) l.

(** The channels of the commands that wait are new ones, each for one client. *)
Record console_inv (s : Console) : Prop := {
  ci_agg : agg_inv (agg s) (env s);
  ci_nodup : NoDup (waiting (Server.subscribe (server s)));
  ci_waiting : ∀ w, w ∈ waiting (Server.subscribe (server s)) →
    (w ∉ watchers (agg s)) ∧ ∃ c, chans (env s) !! w = Some c ∧ sent c = [];
}.

Lemma init_inv base clock buffer capacity : console_inv (init base clock buffer capacity).
Proof.
  constructor; simpl; [|constructor|intros w []%not_elem_of_nil].
  constructor; simpl; [|done|constructor|intros w []%not_elem_of_nil].
  constructor; simpl; try done.
  all: constructor; [split; [done|]| |intros p []%not_elem_of_nil|intros p []%not_elem_of_nil];
    [|constructor]; intros i j a Hi; by rewrite lookup_empty in Hi.
Qed.

(** The aggregator's part of a round after the command or the timer. *)
Lemma round_inv self env b :
  agg_inv self env → tx_open env = true →
  let self1 := foldl update_state self (events env) in
  let env1 := set_events env [] in
  ∃ self' env',
    (if negb (bool_decide (watchers self1 = [])) && b then
       (let! r := publish self1 env1 in Done (Some r))
     else Done (Some (self1, env1))) = Done (Some (self', env')) ∧
    agg_inv self' env' ∧ events env' = [] ∧
    (∀ w, w ∉ watchers self → chans env' !! w = chans env !! w) ∧
    (∀ w, w ∈ watchers self' → w ∈ watchers self) ∧
    (b = true →
     (∀ w c, w ∈ watchers self → chans env !! w = Some c → can_send c = true → w ∈ watchers self') ∧
     ∀ w, w ∈ watchers self' →
       ∃ c, chans env' !! w = Some c ∧ shows self' (heap env') (view_of c)).
Proof.
  intros Hinv Htx self1 env1.
  destruct (drain_watchers self (events env)) as [Hw _].
  pose proof (drain_inv _ _ Hinv) as Hinv1. fold self1 env1 in Hinv1, Hw.
  destruct (bool_decide (watchers self1 = [])) eqn:Ew; simpl.
  - apply bool_decide_eq_true in Ew. exists self1, env1. split; [done|]. split; [done|].
    split; [done|]. split; [done|]. rewrite Ew. rewrite Hw in Ew. rewrite Ew.
    split; [done|]. intros _. split; [done|]. intros w []%not_elem_of_nil.
  - destruct b; simpl.
    + destruct (publish_inv _ _ Hinv1) as (self' & env' & -> & Hi & Hev & _ & Hout & Hsub & Hk & Hs).
      rewrite Hw in *. exists self', env'. simpl. split; [done|]. split; [done|]. split; [done|].
      split; [done|]. split; [done|]. done.
    + exists self1, env1. rewrite Hw. split; [done|]. split; [done|]. split; [done|].
      split; [done|]. split; [done|]. done.
Qed.

Lemma chans_inv (self : t) (e : Env) w c c' :
  agg_inv self e → chans e !! w = Some c → sent c' = sent c →
  agg_inv self (set_chans e (<[w := c']> (chans e))).
Proof.
  intros [Hd Hdet Hnd Hv] Hc Hs. constructor; simpl; try done.
  intros w' Hw'. destruct (Hv w' Hw') as (d & Hd' & Hst). destruct (decide (w = w')) as [->|Hne].
  - rewrite lookup_insert_eq. eexists. split; [done|]. simplify_eq. unfold view_of. by rewrite Hs.
  - rewrite lookup_insert_ne by done. by exists d.
Qed.

Lemma client_step_inv a e s w c c' :
  console_inv (mkConsole a e s) → chans e !! w = Some c → sent c' = sent c →
  console_inv (mkConsole a (set_chans e (<[w := c']> (chans e))) s).
Proof.
  intros [Ha Hnd Hw] Hc Hs. constructor; simpl in *; [by eapply chans_inv|done|].
  intros w' Hw'. destruct (Hw w' Hw') as (Hn & d & Hd & Hsd). split; [done|].
  destruct (decide (w = w')) as [->|Hne].
  - rewrite lookup_insert_eq. eexists. split; [done|]. congruence.
  - rewrite lookup_insert_ne by done. by exists d.
Qed.

Lemma server_send_inv a e s s' :
  console_inv (mkConsole a e s) →
  (∃ l, Server.subscribe s' = Server.subscribe s ++ l ∧ waiting l = []) →
  console_inv (mkConsole a e s').
Proof.
  intros [Ha Hnd Hw] (l & Hl & Hwl). constructor; simpl in *; [done|..];
    rewrite Hl; unfold waiting in *; rewrite omap_app, Hwl, app_nil_r; done.
Qed.

Lemma command_inv a e s cmd l :
  console_inv (mkConsole a e s) → Server.subscribe s = cmd :: l →
  let '(a', e') := handle_command a e cmd in
  console_inv (mkConsole a' e' (set_queue s l)) ∧ tx_open e' = tx_open e.
Proof.
  intros [Ha Hnd Hw] Hq. simpl in *. rewrite Hq in *. destruct cmd as [w|req| |]; simpl in *.
  - apply NoDup_cons in Hnd as [Hwl Hnd]. destruct (Hw w) as (Hn & c & Hc & Hs); [left|].
    pose proof (subscribe_inv a e w c Ha Hn Hc Hs) as Hsub.
    destruct (add_instrument_subscription a e w) as [a' e'].
    destruct Hsub as (Ha' & _ & Htx & Hch & Hws & _). split; [|done].
    constructor; simpl; [done|done|]. intros w' Hw'.
    assert (w' ≠ w) as Hne by (intros ->; done).
    destruct (Hw w') as (Hn' & c' & Hc' & Hs'); [by right|]. split.
    + intros Hin. destruct (Hws w' Hin); done.
    + rewrite Hch by done. by exists c'.
  - split; [|done]. constructor; simpl; [|done|done]. destruct Ha; by constructor.
  - split; [|done]. constructor; simpl; [|done|done].
    destruct Ha as [[] Hdet Hnd' Hv]. constructor; simpl; [by constructor|done|done|].
    intros w Hw'. destruct (Hv w Hw') as (c & Hc & []). exists c. split; [done|]. by constructor.
  - split; [|done]. constructor; simpl; [|done|done].
    destruct Ha as [[] Hdet Hnd' Hv]. constructor; simpl; [by constructor|done|done|].
    intros w Hw'. destruct (Hv w Hw') as (c & Hc & []). exists c. split; [done|]. by constructor.
Qed.

(** After a round, the channels that wait are as before. *)
Lemma round_console a e s b a' e' :
  console_inv (mkConsole a e s) → tx_open e = true →
  (if negb (bool_decide (watchers (foldl update_state a (events e)) = [])) && b then
     (let! r := publish (foldl update_state a (events e)) (set_events e []) in Done (Some r))
   else Done (Some (foldl update_state a (events e), set_events e []))) = Done (Some (a', e')) →
  console_inv (mkConsole a' e' s).
Proof.
  intros [Ha Hnd Hw] Htx Hr. destruct (round_inv _ _ b Ha Htx) as (x & y & Hxy & Hi & _ & Hch & Hws & _).
  simpl in Hxy. rewrite Hxy in Hr. simplify_eq. constructor; simpl in *; [done|done|].
  intros w Hin. destruct (Hw w Hin) as (Hn & c & Hc & Hs). split.
  - intros Hin'. by apply Hn, Hws.
  - rewrite Hch by done. by exists c.
Qed.

Lemma watch_inv a e s s' e' r :
  Server.watch_updates s e = (s', e', r) → console_inv (mkConsole a e s) →
  console_inv (mkConsole a e' s').
Proof.
  unfold Server.watch_updates, Server.send. intros Hwu [Ha Hnd Hw]. simpl in *.
  destruct (Server.is_full s); simplify_eq; [done|].
  set (w := fresh (dom (chans e))) in *.
  assert (chans e !! w = None) as Hfresh by (apply not_elem_of_dom, is_fresh).
  set (cs := <[w := bounded (Server.client_buffer_size s)]> (chans e)) in *.
  assert (∀ w' c, chans e !! w' = Some c → cs !! w' = Some c) as Hcs.
  { intros w' c Hc. unfold cs. rewrite lookup_insert_ne; [done|]. intros <-. congruence. }
  assert (agg_inv a (set_chans e cs)) as Ha'.
  { destruct Ha as [Hd Hdet Hnd' Hv]. constructor; simpl; try done. intros w' Hw'.
    destruct (Hv w' Hw') as (c & Hc & Hst). eauto. }
  assert (∀ w', w' ∈ waiting (Server.subscribe s) →
    (w' ∉ watchers a) ∧ ∃ c, cs !! w' = Some c ∧ sent c = []) as Hw''.
  { intros w' Hw'. destruct (Hw w' Hw') as (Hn & c & Hc & Hs). eauto. }
  destruct (Server.rpc_open s); simplify_eq; [|by constructor].
  constructor; simpl; [done|..]; unfold waiting; rewrite omap_app; simpl.
  - apply NoDup_app. split; [done|]. split; [|apply NoDup_singleton].
    intros w' Hw' ->%list_elem_of_singleton. destruct (Hw w Hw') as (_ & c & Hc & _). congruence.
  - intros w' [Hw'|Hw'%list_elem_of_singleton]%elem_of_app; [by apply Hw''|]. subst w'. split.
    + intros Hin. destruct (ai_views _ _ Ha w Hin) as (c & Hc & _). congruence.
    + unfold cs. rewrite lookup_insert_eq. by eexists.
Qed.

Lemma step_inv s s' : step s s' → console_inv s → console_inv s'.
Proof.
  intros Hst Hinv. destruct Hst.
  - destruct Hinv as [Ha Hnd Hw]. constructor; simpl in *; [by eapply layer_step_inv|done|].
    destruct H0 as [_ ->]. done.
  - unfold run_round in *. simpl in *. destruct (tx_open e) eqn:Htx; [|done].
    by eapply round_console.
  - unfold run_round in *. simpl in *. pose proof (command_inv _ _ _ _ _ Hinv H0) as Hc.
    destruct (handle_command a e cmd) as [a1 e1]. destruct Hc as [Hc Htx].
    destruct (tx_open e1) eqn:Htx1; [|done]. by eapply (round_console _ _ _ false).
  - by eapply watch_inv.
  - unfold Server.watch_task_details, Server.send in *.
    eapply server_send_inv; [done|]. destruct id as [id|]; simplify_eq; [|exists []; by rewrite app_nil_r].
    destruct (id =? 0); simplify_eq; [exists []; by rewrite app_nil_r|].
    destruct (Server.is_full s); simplify_eq; [exists []; by rewrite app_nil_r|].
    destruct (Server.rpc_open s); simplify_eq; [by eexists|exists []; by rewrite app_nil_r].
  - unfold Server.pause, Server.send in *. eapply server_send_inv; [done|].
    destruct (Server.rpc_open s), (Server.is_full s); simplify_eq/=; [by eexists|..];
      exists []; by rewrite app_nil_r.
  - unfold Server.resume, Server.send in *. eapply server_send_inv; [done|].
    destruct (Server.rpc_open s), (Server.is_full s); simplify_eq/=; [by eexists|..];
      exists []; by rewrite app_nil_r.
  - by eapply client_step_inv.
  - by eapply client_step_inv.
Qed.

Lemma reachable_inv base clock buffer capacity s :
  rtc step (init base clock buffer capacity) s → console_inv s.
Proof.
  intros Hr. remember (init base clock buffer capacity) as s0 eqn:E.
  assert (console_inv s0) as H0 by (subst; apply init_inv). clear E.
  induction Hr as [|s1 s2 s3 H12 _ IH]; [done|]. apply IH. by eapply step_inv.
Qed.

(** C27: In every reachable state of the console (any events of the layer, requests,
    commands and clients coming and going, in any order), when the timer fires
    the aggregator publishes without a panic: every watching client that is
    still there and has room stays subscribed, and the view each remaining
    client has put together from its updates is then exactly what the
    aggregator has: the same tasks, resources and asynchronous operations, each
    with its current stats. *)
Theorem console_view_exact base clock buffer capacity s :
  rtc step (init base clock buffer capacity) s →
  tx_open (env s) = true → running (agg s) = true →
  ∃ self' env',
    run_round (agg s) (env s) TimerTick = Done (Some (self', env')) ∧ events env' = [] ∧
    (∀ w c, w ∈ watchers (agg s) → chans (env s) !! w = Some c → can_send c = true →
       w ∈ watchers self') ∧
    ∀ w, w ∈ watchers self' →
      ∃ c, chans env' !! w = Some c ∧ shows self' (heap env') (view_of c).
Proof.
  intros Hr%reachable_inv Htx Hrun. destruct Hr as [Ha _ _].
  destruct (round_inv _ _ true Ha Htx) as (self' & env' & Hround & _ & Hev & _ & _ & Hs).
  destruct (Hs eq_refl) as [Hk Hsh]. exists self', env'.
  unfold run_round. simpl. rewrite Htx, Hrun. done.
Qed.

(** A client that asks to watch is served its first update with all the
    aggregator has, as soon as its command is handled, and watches from then on. *)
Lemma console_subscribe base clock buffer capacity s w l c :
  rtc step (init base clock buffer capacity) s →
  Server.subscribe (server s) = Instrument w :: l →
  chans (env s) !! w = Some c → rx_open c = true → (received c < ConsoleAggregate.capacity c)%nat →
  let '(self', env') := handle_command (agg s) (env s) (Instrument w) in
  w ∈ watchers self' ∧
  ∃ c', chans env' !! w = Some c' ∧ shows self' (heap env') (view_of c').
Proof.
  intros Hr%reachable_inv Hq Hc Ho Hlt. destruct Hr as [Ha _ Hw].
  destruct (Hw w) as (Hn & c0 & Hc0 & Hs0); [rewrite Hq; left|]. simplify_eq.
  pose proof (subscribe_inv _ _ _ _ Ha Hn Hc Hs0) as Hsub. simpl.
  destruct (add_instrument_subscription (agg s) (env s) w) as [a' e'].
  destruct Hsub as (_ & _ & _ & _ & _ & Hsh). by apply Hsh.
Qed.

(** A request for the details of a task is answered with "not found" whatever the
    task, and starts no watch: [run] drops it.  The handler that is not called
    would have served it, with a stream, for every task the aggregator has stats
    of (and whose histogram can be serialized). *)
Theorem task_details_never_served self env req :
  tx_open env = true →
  (∃ self' env',
     run_round self env (Rpc (Some (WatchTaskDetail req))) = Done (Some (self', env')) ∧
     replies env' !! wr_reply req = Some SenderDropped ∧
     Server.watch_task_details_reply SenderDropped = Err (Server.NotFound "task not found") ∧
     details_watchers self' = details_watchers self) ∧
  ∀ a stats raw,
    task_stats self !! wr_id req = Some a → task_heap (heap env) !! a = Some stats →
    hdr_serialize (Histogram.histogram (PollStats.histogram (PollStats.timestamps
      (TaskStats.poll_stats stats)))) = Some raw →
    wr_alive req = true → (0 < wr_buffer req)%nat →
    ∃ self' env' c, add_task_detail_subscription self env req = Done (self', env') ∧
      replies env' !! wr_reply req = Some (GotStream c) ∧
      details_watchers self' !! wr_id req
        = Some (default [] (details_watchers self !! wr_id req) ++ [c]).
Proof.
  intros Htx. split.
  - unfold run_round. simpl. rewrite Htx, andb_false_r. eexists _, _. split; [done|].
    split; [apply lookup_insert_eq|]. split; [done|].
    generalize (events env). intros l. revert self. induction l as [|e l IH]; intros self; [done|].
    simpl. rewrite IH. by destruct e.
  - intros a stats raw Ha Hs Hr Hal Hb. unfold add_task_detail_subscription. rewrite Ha. simpl.
    rewrite Hs, Hal. destruct (bool_decide_reflect (wr_buffer req = 0%nat)); [lia|].
    unfold task_details, TaskStats.poll_duration_histogram, Histogram.to_proto. simpl. rewrite Hr.
    simpl. unfold watch_update. rewrite lookup_insert_eq. unfold try_send. simpl.
    rewrite bool_decide_eq_true_2 by lia. simpl. eexists _, _, _. split; [done|].
    split; apply lookup_insert_eq.
Qed.

End System.

Lemma console_view_exact_witness :
  let w := fresh (∅ : gset N) in
  ∃ (s : @Console bound_hdr) self' env',
    watchers (agg s) = [w] ∧
    run_round (agg s) (env s) TimerTick = Done (Some (self', env')) ∧
    w ∈ watchers self' ∧
    ∃ c, chans env' !! w = Some c ∧ shows self' (heap env') (view_of c).
Proof.
  intros w.
  set (s0 := @init bound_hdr (TimeAnchor.mk 0 0) 5 8 8).
  set (s1 := mkConsole (agg s0) (Server.watch_updates (server s0) (env s0)).1.2
               (Server.watch_updates (server s0) (env s0)).1.1).
  assert (step s0 s1) as H01 by (apply (step_watch _ _ _ _ _ (Ok w)); vm_compute; reflexivity).
  set (r := add_instrument_subscription (agg s1) (env s1) w).
  set (s2 := mkConsole r.1 r.2 (set_queue (server s1) [])).
  assert (step s1 s2) as H12.
  { apply (step_command _ _ _ (Instrument w) []); vm_compute; reflexivity. }
  destruct (console_view_exact (TimeAnchor.mk 0 0) 5 8 8 s2) as (self' & env' & Hr & _ & Hk & Hs).
  - eapply rtc_l; [exact H01|]. eapply rtc_l; [exact H12|]. apply rtc_refl.
  - vm_compute. reflexivity.
  - vm_compute. reflexivity.
  - assert (watchers (agg s2) = [w]) as Hw by (vm_compute; reflexivity).
    assert (w ∈ watchers self') as Hin.
    { apply (Hk w (mkChan [mkUpdate
          (Some (mkTaskUpdate [] ∅ 0)) (Some (mkResourceUpdate [] ∅ [] 0))
          (Some (mkAsyncOpUpdate [] ∅ 0)) (Some (mkTimestamp 0 5)) (Some [])] 0 8 true)).
      - rewrite Hw. left.
      - vm_compute. reflexivity.
      - vm_compute. reflexivity. }
    exists s2, self', env'. split; [exact Hw|]. split; [exact Hr|]. split; [exact Hin|].
    exact (Hs w Hin).
Defined.

Lemma task_details_never_served_witness :
  let e := env (@init bound_hdr (TimeAnchor.mk 0 0) 5 8 8) in
  let req := mkWatchRequest 3 1 true 8 in
  ∃ self' env',
    run_round (Aggregator.new (TimeAnchor.mk 0 0)) e (Rpc (Some (WatchTaskDetail req)))
      = Done (Some (self', env')) ∧
    replies env' !! 1 = Some SenderDropped.
Proof.
  intros e req.
  destruct (task_details_never_served (Aggregator.new (TimeAnchor.mk 0 0)) e req eq_refl)
    as [(self' & env' & Hr & Hrep & _) _].
  exists self', env'. split; [exact Hr|exact Hrep].
Defined.
