(* ===== verification/ConsoleLayer.v ===== *)
(** * The console's tracing layer (runtime/console: lib.rs)

    [ConsoleLayer] gets the callbacks of the tracing library: callsites, new,
    entered, left and closed spans, and events.  It keeps the stats of spans in
    the spans' extensions and sends the aggregator an event for each new task,
    resource and asynchronous operation.  tracing's registry of spans is part of
    the state ([spans], which tracing itself changes); [clock] of the aggregator's
    environment is the time of a callback.  The theorems show that the layer
    keeps what [layer_step] promises the aggregator. *)

From S2P Require Import Prelude ConsoleStats ConsoleVisitors ConsoleSpans ConsoleAggregate ConsoleView.

Local Open Scope N_scope.

Module ConsoleLayer.
Section Ops.
Context `{Hdr}.

(** A span in the registry, with the extensions the layer puts there. *)
Record Span := mkSpan {
  metadata : Metadata;
  parent : option N;
  ext_task : option N;
  ext_resource : option N;
  ext_async_op : option N;
}.

Record t := mk {
  current_spans : gmap N SpanStack.t;
  spawn_callsites : Callsites.t;
  waker_callsites : Callsites.t;
  resource_callsites : Callsites.t;
  async_op_callsites : Callsites.t;
  async_op_poll_callsites : Callsites.t;
  poll_op_callsites : Callsites.t;
  resource_state_update_callsites : Callsites.t;
  async_op_state_update_callsites : Callsites.t;
  max_poll_duration_nanos : N;
  event_buffer_capacity : nat;
}.

(** The layer, what it shares with the aggregator, whether the aggregator still
    receives, and the registry. *)
Record World := mkWorld {
  layer : t;
  env : Aggregator.Env;
  rx_open : bool;
  spans : gmap N Span;
}.

Definition DEFAULT_EVENT_BUFFER_CAPACITY : nat := 1024.
Definition DEFAULT_CLIENT_BUFFER_CAPACITY : nat := 1024.
Definition DEFAULT_POLL_DURATION_MAX : N := NANOS.

(** [Builder]; the address and port are the server's. *)
Record Builder := mkBuilder {
  b_event_buffer_capacity : nat;
  b_client_buffer_capacity : nat;
  b_poll_duration_max : N;
}.

Definition builder : Builder :=
  mkBuilder DEFAULT_EVENT_BUFFER_CAPACITY 1024 DEFAULT_POLL_DURATION_MAX.

(** [ConsoleLayer::build]: the layer, and the aggregator and server [init] gives. *)
Definition build (config : Builder) (base : TimeAnchor.t) (clock : N) : t * Console :=
  (mk ∅ (Callsites.default 8) (Callsites.default 8) (Callsites.default 8) (Callsites.default 32)
      (Callsites.default 32) (Callsites.default 32) (Callsites.default 32) (Callsites.default 32)
      (wrap 64 (b_poll_duration_max config)) (b_event_buffer_capacity config),
   init base clock (b_client_buffer_capacity config) (b_client_buffer_capacity config)).

Definition set_layer (w : World) (l : t) : World := mkWorld l (env w) (rx_open w) (spans w).
Definition set_env (w : World) (e : Aggregator.Env) : World :=
  mkWorld (layer w) e (rx_open w) (spans w).
Definition set_heap (w : World) (h : Heap) : World := set_env w (Aggregator.set_heap (env w) h).
Definition set_shared (w : World) (s : Shared) : World :=
  set_env w (Aggregator.set_shared (env w) s).
Definition set_spans (w : World) (s : gmap N Span) : World :=
  mkWorld (layer w) (env w) (rx_open w) s.

Definition is_spawn (w : World) (m : Metadata) : outcome bool :=
  Callsites.contains (spawn_callsites (layer w)) m.
Definition is_waker (w : World) (m : Metadata) : outcome bool :=
  Callsites.contains (waker_callsites (layer w)) m.
Definition is_resource (w : World) (m : Metadata) : outcome bool :=
  Callsites.contains (resource_callsites (layer w)) m.
Definition is_async_op (w : World) (m : Metadata) : outcome bool :=
  Callsites.contains (async_op_callsites (layer w)) m.

Definition is_id_spawned (w : World) (id : N) : outcome bool :=
  match spans w !! id with Some span => is_spawn w (metadata span) | None => Done false end.
Definition is_id_resource (w : World) (id : N) : outcome bool :=
  match spans w !! id with Some span => is_resource w (metadata span) | None => Done false end.
Definition is_id_async_op (w : World) (id : N) : outcome bool :=
  match spans w !! id with Some span => is_async_op w (metadata span) | None => Done false end.

Fixpoint find_entered (l : list N) (p : N → outcome bool) : outcome (option N) :=
  match l with
  | [] => Done None
  | id :: l => let! b := p id in if b then Done (Some id) else find_entered l p
  end.

(** From the innermost span outwards. *)
Definition first_entered (stack : SpanStack.t) (p : N → outcome bool) : outcome (option N) :=
  find_entered (SpanStack.id_ <$> reverse (SpanStack.stack stack)) p.

(** The innermost entered span of the thread for which [p] holds. *)
Definition current_entered (w : World) (thread : N) (p : N → outcome bool) : outcome (option N) :=
  match current_spans (layer w) !! thread with
  | Some stack => first_entered stack p
  | None => Done None
  end.

(** Which counter an event that cannot be sent goes to. *)
Inductive Dropped := DTasks | DResources | DAsyncOps.

Definition count_dropped (s : Shared) (d : Dropped) : Shared :=
  match d with
  | DTasks => mkShared (incr (dropped_tasks s)) (dropped_resources s) (dropped_async_ops s)
  | DResources => mkShared (dropped_tasks s) (incr (dropped_resources s)) (dropped_async_ops s)
  | DAsyncOps => mkShared (dropped_tasks s) (dropped_resources s) (incr (dropped_async_ops s))
  end.

Definition is_full (w : World) : bool :=
  bool_decide (event_buffer_capacity (layer w) ≤ length (Aggregator.events (env w)))%nat.

(** [mk_event] allocates the stats; a full channel is noticed before that. *)
Definition send_stats {A} (w : World) (dropped : Dropped)
    (mk_event : World → outcome (World * Event * A)) : outcome (World * option A) :=
  if is_full w then
    Done (set_shared w (count_dropped (Aggregator.shared (env w)) dropped), None)
  else
    let! (w, event, stats) := mk_event w in
    if rx_open w then
      Done (set_env w (Aggregator.set_events (env w) (Aggregator.events (env w) ++ [event])),
            Some stats)
    else Done (w, None).

Definition send_metadata (w : World) (dropped : Dropped) (event : Event) : outcome (World * bool) :=
  let! (w, r) := send_stats w dropped (λ w, Done (w, event, ())) in
  Done (w, match r with Some _ => true | None => false end).

(** ** Callsites *)

Inductive Class :=
| CSpawn | CWaker | CResource | CAsyncOp | CAsyncOpPoll | CPollOp | CResourceUpdate
| CAsyncOpUpdate | COther.

Definition classify (m : Metadata) : Class :=
  if decide (meta_target m = TaskVisitor.SPAWN_TARGET ∨ meta_name m = TaskVisitor.SPAWN_NAME)
  then CSpawn
  else if decide (meta_target m = WakerVisitor.WAKER_EVENT_TARGET) then CWaker
  else if decide (meta_name m = ResourceVisitor.RES_SPAN_NAME) then CResource
  else if decide (meta_name m = AsyncOpVisitor.ASYNC_OP_SPAN_NAME) then CAsyncOp
  else if decide (meta_name m = AsyncOpVisitor.ASYNC_OP_POLL_NAME) then CAsyncOpPoll
  else if decide (meta_target m = PollOpVisitor.POLL_OP_EVENT_TARGET) then CPollOp
  else if decide (meta_target m = StateUpdateVisitor.RE_STATE_UPDATE_EVENT_TARGET)
  then CResourceUpdate
  else if decide (meta_target m = StateUpdateVisitor.AO_STATE_UPDATE_EVENT_TARGET)
  then CAsyncOpUpdate
  else COther.

Definition class_dropped (c : Class) : Dropped :=
  match c with
  | CSpawn | CWaker | COther => DTasks
  | CResource | CResourceUpdate => DResources
  | CAsyncOp | CAsyncOpPoll | CPollOp | CAsyncOpUpdate => DAsyncOps
  end.

Definition insert_callsite (l : t) (c : Class) (m : Metadata) : t * outcome () :=
  let set f cs := let '(cs, r) := Callsites.insert cs m in (f cs, r) in
  let '(mk cur sp wk re ao ap po ru au max cap) := l in
  match c with
  | CSpawn => set (λ cs, mk cur cs wk re ao ap po ru au max cap) sp
  | CWaker => set (λ cs, mk cur sp cs re ao ap po ru au max cap) wk
  | CResource => set (λ cs, mk cur sp wk cs ao ap po ru au max cap) re
  | CAsyncOp => set (λ cs, mk cur sp wk re cs ap po ru au max cap) ao
  | CAsyncOpPoll => set (λ cs, mk cur sp wk re ao cs po ru au max cap) ap
  | CPollOp => set (λ cs, mk cur sp wk re ao ap cs ru au max cap) po
  | CResourceUpdate => set (λ cs, mk cur sp wk re ao ap po cs au max cap) ru
  | CAsyncOpUpdate => set (λ cs, mk cur sp wk re ao ap po ru cs max cap) au
  | COther => (l, Done ())
  end.

(** The interest is always [always]. *)
Definition register_callsite (w : World) (m : Metadata) : outcome World :=
  let c := classify m in
  let '(l, r) := insert_callsite (layer w) c m in
  let! _ := r in
  let! (w, _) := send_metadata (set_layer w l) (class_dropped c) (EvMetadata m) in
  Done w.

(** ** New spans

    [extensions_mut().insert] panics when the span already has stats of that
    type. *)
Definition insert_task_ext (w : World) (id a : N) : outcome World :=
  let! span := unwrap (spans w !! id) in
  match ext_task span with
  | Some _ => Panic
  | None => Done (set_spans w (<[id := mkSpan (metadata span) (parent span) (Some a)
                                        (ext_resource span) (ext_async_op span)]> (spans w)))
  end.

Definition insert_resource_ext (w : World) (id a : N) : outcome World :=
  let! span := unwrap (spans w !! id) in
  match ext_resource span with
  | Some _ => Panic
  | None => Done (set_spans w (<[id := mkSpan (metadata span) (parent span) (ext_task span)
                                        (Some a) (ext_async_op span)]> (spans w)))
  end.

Definition insert_async_op_ext (w : World) (id a : N) : outcome World :=
  let! span := unwrap (spans w !! id) in
  match ext_async_op span with
  | Some _ => Panic
  | None => Done (set_spans w (<[id := mkSpan (metadata span) (parent span) (ext_task span)
                                        (ext_resource span) (Some a)]> (spans w)))
  end.

(** [Arc::new] *)
Definition alloc_task (w : World) (s : TaskStats.t) : World * N :=
  let h := Aggregator.heap (env w) in
  let a := fresh (dom (task_heap h)) in
  (set_heap w (mkHeap _ (<[a := s]> (task_heap h)) (resource_heap h) (async_heap h)), a).

Definition alloc_resource (w : World) (s : ResourceStats.t) : World * N :=
  let h := Aggregator.heap (env w) in
  let a := fresh (dom (resource_heap h)) in
  (set_heap w (mkHeap _ (task_heap h) (<[a := s]> (resource_heap h)) (async_heap h)), a).

Definition alloc_async_op (w : World) (s : AsyncOpStats.t) : World * N :=
  let h := Aggregator.heap (env w) in
  let a := fresh (dom (async_heap h)) in
  (set_heap w (mkHeap _ (task_heap h) (resource_heap h) (<[a := s]> (async_heap h))), a).

Definition new_task (w : World) (id : N) (m : Metadata) (fs : list (string * Recorded))
  : outcome World :=
  let at_ := Aggregator.clock (env w) in
  let '(fields, location) :=
    TaskVisitor.result (foldl TaskVisitor.record (TaskVisitor.new (meta_ptr m)) fs) in
  let! (w, r) := send_stats w DTasks (λ w,
    let! stats := TaskStats.new (max_poll_duration_nanos (layer w)) at_ in
    let '(w, a) := alloc_task w stats in
    Done (w, EvSpawn id m a fields location, a)) in
  match r with
  | Some a => insert_task_ext w id a
  | None => Done w
  end.

Definition new_resource (w : World) (thread id : N) (m : Metadata) (fs : list (string * Recorded))
  : outcome World :=
  let at_ := Aggregator.clock (env w) in
  match ResourceVisitor.result (foldl ResourceVisitor.record ResourceVisitor.default fs) with
  | None => Done w
  | Some (ResourceVisitor.mkResult concrete_type kind location is_internal inherit) =>
      let! parent_id := current_entered w thread (is_id_resource w) in
      let! (w, r) := send_stats w DResources (λ w,
        let '(w, a) := alloc_resource w (ResourceStats.new at_ inherit parent_id) in
        Done (w, EvResource id parent_id m concrete_type kind location is_internal a, a)) in
      match r with
      | Some a => insert_resource_ext w id a
      | None => Done w
      end
  end.

Definition new_async_op (w : World) (thread id : N) (m : Metadata) (fs : list (string * Recorded))
  : outcome World :=
  let at_ := Aggregator.clock (env w) in
  match AsyncOpVisitor.result (foldl AsyncOpVisitor.record AsyncOpVisitor.default fs) with
  | None => Done w
  | Some (source, inherit) =>
      let! resource_id := current_entered w thread (is_id_resource w) in
      let! parent_id := current_entered w thread (is_id_async_op w) in
      match resource_id with
      | None => Done w
      | Some resource_id =>
          let! (w, r) := send_stats w DAsyncOps (λ w,
            let '(w, a) := alloc_async_op w (AsyncOpStats.new at_ inherit parent_id) in
            Done (w, EvAsyncResourceOp id parent_id resource_id m source a, a)) in
          match r with
          | Some a => insert_async_op_ext w id a
          | None => Done w
          end
      end
  end.

Definition on_new_span (w : World) (thread id : N) (m : Metadata) (fs : list (string * Recorded))
  : outcome World :=
  let! spawn := is_spawn w m in
  if spawn then new_task w id m fs
  else
    let! resource := is_resource w m in
    if resource then new_resource w thread id m fs
    else
      let! async_op := is_async_op w m in
      if async_op then new_async_op w thread id m fs else Done w.

(** ** Events, entering, leaving and closing *)

Definition set_task_stats (w : World) (a : N) (s : TaskStats.t) : World :=
  let h := Aggregator.heap (env w) in
  set_heap w (mkHeap _ (<[a := s]> (task_heap h)) (resource_heap h) (async_heap h)).

Definition set_resource_stats (w : World) (a : N) (s : ResourceStats.t) : World :=
  let h := Aggregator.heap (env w) in
  set_heap w (mkHeap _ (task_heap h) (<[a := s]> (resource_heap h)) (async_heap h)).

Definition set_async_stats (w : World) (a : N) (s : AsyncOpStats.t) : World :=
  let h := Aggregator.heap (env w) in
  set_heap w (mkHeap _ (task_heap h) (resource_heap h) (<[a := s]> (async_heap h))).

(** The stats behind an extension. *)
Definition task_of (w : World) (span : Span) : option (N * TaskStats.t) :=
  a ← ext_task span; pair a <$> task_heap (Aggregator.heap (env w)) !! a.
Definition async_of (w : World) (span : Span) : option (N * AsyncOpStats.t) :=
  a ← ext_async_op span; pair a <$> async_heap (Aggregator.heap (env w)) !! a.
Definition resource_of (w : World) (span : Span) : option (N * ResourceStats.t) :=
  a ← ext_resource span; pair a <$> resource_heap (Aggregator.heap (env w)) !! a.

Definition on_event (w : World) (thread : N) (m : Metadata) (fs : list (string * Recorded))
  : outcome World :=
  let! waker := is_waker w m in
  if waker then
    let at_ := Aggregator.clock (env w) in
    let! visitor := for_loop WakerVisitor.record WakerVisitor.default fs in
    match WakerVisitor.result visitor with
    | None => Done w
    | Some (id, op) =>
        match spans w !! id ≫= task_of w with
        | None => Done w
        | Some (a, stats) =>
            let op :=
              if WakeOp.is_wake op then
                let self_wake :=
                  match current_spans (layer w) !! thread with
                  | Some spans => existsb (λ span, span =? id) (SpanStack.iter spans)
                  | None => false
                  end in
                WakeOp.self_wake op self_wake
              else op in
            Done (set_task_stats w a (TaskStats.record_wake_op stats op at_))
        end
    end
  else
    let! _ := Callsites.contains (poll_op_callsites (layer w)) m in
    Done w.

(** The local [update] of [on_enter]: the time if the span is one the layer
    follows. *)
Definition enter_update (w : World) (span : Span) (at_ : option N) : World * option N :=
  let now := default (Aggregator.clock (env w)) at_ in
  match task_of w span with
  | Some (a, stats) => (set_task_stats w a (TaskStats.start_poll stats now), Some now)
  | None =>
      match async_of w span with
      | Some (a, stats) => (set_async_stats w a (AsyncOpStats.start_poll stats now), Some now)
      | None =>
          match resource_of w span with
          | Some _ => (w, Some now)
          | None => (w, None)
          end
      end
  end.

Definition set_stack (w : World) (thread : N) (s : SpanStack.t) : World :=
  let '(mk cur sp wk re ao ap po ru au max cap) := layer w in
  set_layer w (mk (<[thread := s]> cur) sp wk re ao ap po ru au max cap).

Definition stack_of (w : World) (thread : N) : SpanStack.t :=
  default [] (current_spans (layer w) !! thread).

Definition on_enter (w : World) (thread id : N) : World :=
  match spans w !! id with
  | None => w
  | Some span =>
      let '(w, r) := enter_update w span None in
      match r with
      | None => w
      | Some now =>
          let w :=
            match parent span ≫= λ p, spans w !! p with
            | Some parent => (enter_update w parent (Some now)).1
            | None => w
            end in
          set_stack w thread (SpanStack.push (stack_of w thread) id).1
      end
  end.

(** The local [update] of [on_exit]. *)
Definition exit_update (w : World) (span : Span) (at_ : option N) : outcome (World * option N) :=
  let now := default (Aggregator.clock (env w)) at_ in
  match task_of w span with
  | Some (a, stats) =>
      let! stats := TaskStats.end_poll stats now in Done (set_task_stats w a stats, Some now)
  | None =>
      match async_of w span with
      | Some (a, stats) =>
          let! stats := AsyncOpStats.end_poll stats now in Done (set_async_stats w a stats, Some now)
      | None =>
          match resource_of w span with
          | Some _ => Done (w, Some now)
          | None => Done (w, None)
          end
      end
  end.

Definition on_exit (w : World) (thread id : N) : outcome World :=
  match spans w !! id with
  | None => Done w
  | Some span =>
      let! (w, r) := exit_update w span None in
      match r with
      | None => Done w
      | Some now =>
          let! w :=
            match parent span ≫= λ p, spans w !! p with
            | Some parent => let! (w, _) := exit_update w parent (Some now) in Done w
            | None => Done w
            end in
          Done (set_stack w thread (SpanStack.pop (stack_of w thread) id).1)
      end
  end.

Definition on_close (w : World) (id : N) : outcome World :=
  match spans w !! id with
  | None => Done w
  | Some span =>
      let now := Aggregator.clock (env w) in
      match task_of w span with
      | Some (a, stats) =>
          let! stats := TaskStats.drop_task stats now in Done (set_task_stats w a stats)
      | None =>
          match async_of w span with
          | Some (a, stats) =>
              let! stats := AsyncOpStats.drop_async_op stats now in
              Done (set_async_stats w a stats)
          | None =>
              match resource_of w span with
              | Some (a, stats) =>
                  let! stats := ResourceStats.drop_resource stats now in
                  Done (set_resource_stats w a stats)
              | None => Done w
              end
          end
      end
  end.

(** ** Callbacks *)

Inductive Callback :=
| RegisterCallsite (m : Metadata)
| NewSpan (thread id : N) (m : Metadata) (fs : list (string * Recorded))
| OnEvent (thread : N) (m : Metadata) (fs : list (string * Recorded))
| Enter (thread id : N)
| Exit (thread id : N)
| Close (id : N).

Definition exec (w : World) (c : Callback) : outcome World :=
  match c with
  | RegisterCallsite m => register_callsite w m
  | NewSpan thread id m fs => on_new_span w thread id m fs
  | OnEvent thread m fs => on_event w thread m fs
  | Enter thread id => Done (on_enter w thread id)
  | Exit thread id => on_exit w thread id
  | Close id => on_close w id
  end.

End Ops.
End ConsoleLayer.

(** ** Theorems *)

Section Grows.
Context {T O : Type} `{UnsentLaws T O}.

Lemma grows_trans (h1 h2 h3 : gmap N T) l l' :
  grows h1 h2 l → grows h2 h3 l' → grows h1 h3 (l ++ l').
Proof.
  intros [He1 Hn1 Hf1] [He2 Hn2 Hf2].
  assert (∀ a, h2 !! a = None → h1 !! a = None) as Hback.
  { intros a Ha. destruct (h1 !! a) as [x|] eqn:Hx; [|done].
    destruct (He1 _ _ Hx) as (x' & Hx' & _). congruence. }
  assert (∀ a x, h2 !! a = Some x → is_unsent x = true →
    ∃ x', h3 !! a = Some x' ∧ is_unsent x' = true) as Hkeep.
  { intros a x Hx Hu. destruct (He2 _ _ Hx) as (x' & Hx' & Hc). exists x'. split; [done|].
    by destruct Hc as [->|]. }
  split.
  - intros a x Hx. destruct (He1 _ _ Hx) as (x' & Hx' & Hc).
    destruct (He2 _ _ Hx') as (x'' & Hx'' & Hc'). exists x''. split; [done|].
    destruct Hc' as [->|]; auto.
  - apply NoDup_app. split; [done|]. split; [|done]. intros a Ha Ha'.
    destruct (Hf1 _ Ha) as (_ & x & Hx & _). destruct (Hf2 _ Ha') as [Hx' _]. congruence.
  - intros a [Ha|Ha]%elem_of_app.
    + destruct (Hf1 _ Ha) as (Hno & x & Hx & Hu). split; [done|]. by eapply Hkeep.
    + destruct (Hf2 _ Ha) as (Hno & Hx). split; [by apply Hback|done].
Qed.

(** Changed stats that are marked, and new stats. *)
Lemma grows_set (h : gmap N T) a x y :
  h !! a = Some x → (y = x ∨ is_unsent y = true) → grows h (<[a := y]> h) [].
Proof.
  intros Hx Hy. split; [|constructor|by intros b Hb%not_elem_of_nil].
  intros b z Hz. destruct (decide (a = b)) as [->|Hne].
  - rewrite lookup_insert_eq. simplify_eq. eauto.
  - rewrite lookup_insert_ne by done. eauto.
Qed.

Lemma grows_alloc (h : gmap N T) x (send : bool) :
  is_unsent x = true →
  grows h (<[fresh (dom h) := x]> h) (if send then [fresh (dom h)] else []).
Proof.
  intros Hx. assert (h !! fresh (dom h) = None) as Hf by (apply not_elem_of_dom, is_fresh).
  split.
  - intros b z Hz. rewrite lookup_insert_ne by congruence. eauto.
  - destruct send; [apply NoDup_singleton|constructor].
  - intros a Ha. destruct send; [|by apply not_elem_of_nil in Ha].
    apply list_elem_of_singleton in Ha as ->. split; [done|]. exists x.
    by rewrite lookup_insert_eq.
Qed.

End Grows.

Module LayerProofs.
Import Aggregator ConsoleLayer.
Section Proofs.
Context `{Hdr}.

Lemma layer_step_refl e : layer_step e e.
Proof.
  constructor; [|done]. exists []. rewrite app_nil_r. split; [done|].
  split; [|split]; apply grows_refl.
Qed.

Lemma layer_step_trans e1 e2 e3 : layer_step e1 e2 → layer_step e2 e3 → layer_step e1 e3.
Proof.
  intros [(n1 & H1 & Ht1 & Hr1 & Ha1) Hc1] [(n2 & H2 & Ht2 & Hr2 & Ha2) Hc2].
  constructor; [|congruence]. exists (n1 ++ n2). rewrite H2, H1, app_assoc.
  unfold task_pend, resource_pend, async_pend in *. rewrite !omap_app, !fmap_app.
  split; [done|]. split; [|split]; by eapply grows_trans.
Qed.

Lemma step_shared e s : layer_step e (Aggregator.set_shared e s).
Proof.
  constructor; [|done]. exists []. rewrite app_nil_r. split; [done|].
  split; [|split]; apply grows_refl.
Qed.

Lemma step_task_stats w a x y :
  task_heap (heap (env w)) !! a = Some x → (y = x ∨ is_unsent y = true) →
  layer_step (env w) (env (set_task_stats w a y)).
Proof.
  intros Hx Hy. constructor; [|done]. exists []. rewrite app_nil_r. split; [done|].
  split; [by eapply grows_set|]. split; apply grows_refl.
Qed.

Lemma step_resource_stats w a x y :
  resource_heap (heap (env w)) !! a = Some x → (y = x ∨ is_unsent y = true) →
  layer_step (env w) (env (set_resource_stats w a y)).
Proof.
  intros Hx Hy. constructor; [|done]. exists []. rewrite app_nil_r. split; [done|].
  split; [apply grows_refl|]. split; [by eapply grows_set|apply grows_refl].
Qed.

Lemma step_async_stats w a x y :
  async_heap (heap (env w)) !! a = Some x → (y = x ∨ is_unsent y = true) →
  layer_step (env w) (env (set_async_stats w a y)).
Proof.
  intros Hx Hy. constructor; [|done]. exists []. rewrite app_nil_r. split; [done|].
  split; [apply grows_refl|]. split; [apply grows_refl|by eapply grows_set].
Qed.

(** Sending, given what creating the event and its stats does. *)
Lemma step_send {A} w d mk_event w' (r : option A) :
  (∀ w1 ev x, mk_event w = Done (w1, ev, x) →
     layer_step (env w) (env w1) ∧
     layer_step (env w) (set_events (env w1) (events (env w1) ++ [ev]))) →
  send_stats w d mk_event = Done (w', r) → layer_step (env w) (env w').
Proof.
  intros Hmk. unfold send_stats. destruct (is_full w).
  { intros [= <- <-]. apply step_shared. }
  destruct (mk_event w) as [[[w1 ev] x]| |] eqn:E; [|done|done]. simpl.
  destruct (Hmk _ _ _ eq_refl) as [H1 H2].
  destruct (rx_open w1); intros [= <- <-]; [exact H2|exact H1].
Qed.

Lemma ext_env w id a w' :
  insert_task_ext w id a = Done w' ∨ insert_resource_ext w id a = Done w' ∨
  insert_async_op_ext w id a = Done w' → env w' = env w.
Proof.
  unfold insert_task_ext, insert_resource_ext, insert_async_op_ext.
  destruct (spans w !! id) as [sp|]; simpl; [|by intros [?|[?|?]]].
  intros [Hw|[Hw|Hw]].
  - by destruct (ext_task sp); simplify_eq.
  - by destruct (ext_resource sp); simplify_eq.
  - by destruct (ext_async_op sp); simplify_eq.
Qed.

Lemma task_of_spec w span a s :
  task_of w span = Some (a, s) → task_heap (heap (env w)) !! a = Some s.
Proof.
  unfold task_of. destruct (ext_task span) as [b|]; simpl; [|done].
  destruct (task_heap _ !! b) as [x|] eqn:E; simpl; [|done]. by intros [= <- <-].
Qed.

Lemma async_of_spec w span a s :
  async_of w span = Some (a, s) → async_heap (heap (env w)) !! a = Some s.
Proof.
  unfold async_of. destruct (ext_async_op span) as [b|]; simpl; [|done].
  destruct (async_heap _ !! b) as [x|] eqn:E; simpl; [|done]. by intros [= <- <-].
Qed.

Lemma resource_of_spec w span a s :
  resource_of w span = Some (a, s) → resource_heap (heap (env w)) !! a = Some s.
Proof.
  unfold resource_of. destruct (ext_resource span) as [b|]; simpl; [|done].
  destruct (resource_heap _ !! b) as [x|] eqn:E; simpl; [|done]. by intros [= <- <-].
Qed.

Lemma step_new_task w id m fs w' :
  new_task w id m fs = Done w' → layer_step (env w) (env w').
Proof.
  unfold new_task. destruct (TaskVisitor.result _) as [fields location].
  intros ([w1 r] & Hs & Hr)%outcome_bind_Done. eapply step_send in Hs.
  - destruct r as [a|]; [|by simplify_eq]. by rewrite (ext_env w1 id a w') by auto.
  - intros w2 ev x (stats & Hst & Hev)%outcome_bind_Done. simpl in Hev. simplify_eq.
    assert (is_unsent stats = true) as Hu.
    { unfold TaskStats.new in Hst. apply outcome_bind_Done in Hst as (h & _ & ?). by simplify_eq. }
    split; (constructor; [|done]).
    + exists []. rewrite app_nil_r. split; [done|].
      split; [by apply (grows_alloc _ stats false)|]. split; apply grows_refl.
    + eexists [_]. split; [done|]. simpl. split; [by apply (grows_alloc _ stats true)|].
      split; apply grows_refl.
Qed.

Lemma step_new_resource w thread id m fs w' :
  new_resource w thread id m fs = Done w' → layer_step (env w) (env w').
Proof.
  unfold new_resource. destruct (ResourceVisitor.result _) as [[ty k loc int inh]|];
    [|intros [= <-]; apply layer_step_refl].
  intros (par & _ & ([w1 r] & Hs & Hr)%outcome_bind_Done)%outcome_bind_Done. eapply step_send in Hs.
  - destruct r as [a|]; [|by simplify_eq]. by rewrite (ext_env w1 id a w') by auto.
  - intros w2 ev x Hev. simpl in Hev. simplify_eq. split; (constructor; [|done]).
    + exists []. rewrite app_nil_r. split; [done|]. split; [apply grows_refl|].
      split; [by apply (grows_alloc _ _ false)|apply grows_refl].
    + eexists [_]. split; [done|]. simpl. split; [apply grows_refl|].
      split; [by apply (grows_alloc _ _ true)|apply grows_refl].
Qed.

Lemma step_new_async_op w thread id m fs w' :
  new_async_op w thread id m fs = Done w' → layer_step (env w) (env w').
Proof.
  unfold new_async_op. destruct (AsyncOpVisitor.result _) as [[src inh]|];
    [|intros [= <-]; apply layer_step_refl].
  intros (res & _ & (par & _ & Hres)%outcome_bind_Done)%outcome_bind_Done.
  destruct res as [res|]; [|simplify_eq; apply layer_step_refl].
  apply outcome_bind_Done in Hres as ([w1 r] & Hs & Hr). eapply step_send in Hs.
  - destruct r as [a|]; [|by simplify_eq]. by rewrite (ext_env w1 id a w') by auto.
  - intros w2 ev x Hev. simpl in Hev. simplify_eq. split; (constructor; [|done]).
    + exists []. rewrite app_nil_r. split; [done|]. split; [apply grows_refl|].
      split; [apply grows_refl|by apply (grows_alloc _ _ false)].
    + eexists [_]. split; [done|]. simpl. split; [apply grows_refl|].
      split; [apply grows_refl|by apply (grows_alloc _ _ true)].
Qed.

Lemma step_enter_update w span at_ w' r :
  enter_update w span at_ = (w', r) → layer_step (env w) (env w') ∧ spans w' = spans w.
Proof.
  unfold enter_update. destruct (task_of w span) as [[a s]|] eqn:Et.
  { intros [= <- <-]. split; [|done]. eapply step_task_stats; [by eapply task_of_spec|by right]. }
  destruct (async_of w span) as [[a s]|] eqn:Ea.
  { intros [= <- <-]. split; [|done]. eapply step_async_stats; [by eapply async_of_spec|by right]. }
  destruct (resource_of w span); intros [= <- <-]; (split; [apply layer_step_refl|done]).
Qed.

Lemma step_exit_update w span at_ w' r :
  exit_update w span at_ = Done (w', r) → layer_step (env w) (env w') ∧ spans w' = spans w.
Proof.
  unfold exit_update. destruct (task_of w span) as [[a s]|] eqn:Et.
  { intros (s' & Hs & Hw)%outcome_bind_Done. simplify_eq. split; [|done].
    eapply step_task_stats; [by eapply task_of_spec|]. right.
    unfold TaskStats.end_poll in Hs. apply outcome_bind_Done in Hs as (p & _ & ?). by simplify_eq. }
  destruct (async_of w span) as [[a s]|] eqn:Ea.
  { intros (s' & Hs & Hw)%outcome_bind_Done. simplify_eq. split; [|done].
    eapply step_async_stats; [by eapply async_of_spec|]. right.
    unfold AsyncOpStats.end_poll in Hs. apply outcome_bind_Done in Hs as (p & _ & ?). by simplify_eq. }
  destruct (resource_of w span); intros [= <- <-]; (split; [apply layer_step_refl|done]).
Qed.

Lemma set_stack_env w thread s : env (set_stack w thread s) = env w.
Proof. unfold set_stack. by destruct (layer w). Qed.

Lemma step_on_enter w thread id : layer_step (env w) (env (on_enter w thread id)).
Proof.
  unfold on_enter. destruct (spans w !! id) as [span|]; [|apply layer_step_refl].
  destruct (enter_update w span None) as [w1 r] eqn:E. apply step_enter_update in E as [H1 _].
  destruct r as [now|]; [|done]. rewrite set_stack_env.
  destruct (parent span ≫= _) as [p|]; [|done].
  destruct (enter_update w1 p (Some now)) as [w2 r2] eqn:E2. apply step_enter_update in E2 as [H2 _].
  by eapply layer_step_trans.
Qed.

Lemma step_on_exit w thread id w' : on_exit w thread id = Done w' → layer_step (env w) (env w').
Proof.
  unfold on_exit. destruct (spans w !! id) as [span|]; [|intros [= <-]; apply layer_step_refl].
  intros ([w1 r] & [H1 _]%step_exit_update & Hr)%outcome_bind_Done.
  destruct r as [now|]; [|by simplify_eq].
  apply outcome_bind_Done in Hr as (w2 & Hw2 & Hr). simplify_eq. rewrite set_stack_env.
  destruct (parent span ≫= _) as [p|]; [|by simplify_eq].
  apply outcome_bind_Done in Hw2 as ([w3 r3] & [H2 _]%step_exit_update & ?). simplify_eq.
  by eapply layer_step_trans.
Qed.

Lemma drop_resource_marked s at_ s' :
  ResourceStats.drop_resource s at_ = Done s' → s' = s ∨ is_unsent s' = true.
Proof.
  unfold ResourceStats.drop_resource. destruct (ResourceStats.is_dropped s); [|
    destruct (ResourceStats.dropped_at_ s); [done|]]; intros [= <-]; [by left|by right].
Qed.

Lemma step_on_close w id w' : on_close w id = Done w' → layer_step (env w) (env w').
Proof.
  unfold on_close. destruct (spans w !! id) as [span|]; [|intros [= <-]; apply layer_step_refl].
  destruct (task_of w span) as [[a s]|] eqn:Et.
  { intros (s' & Hs & Hw)%outcome_bind_Done. simplify_eq.
    eapply step_task_stats; [by eapply task_of_spec|]. unfold TaskStats.drop_task in Hs.
    destruct (TaskStats.is_dropped s); [|destruct (TaskStats.dropped_at_ _); [done|]];
      injection Hs as <-; [by left|by right]. }
  destruct (async_of w span) as [[a s]|] eqn:Ea.
  { intros (s' & Hs & Hw)%outcome_bind_Done. simplify_eq.
    eapply step_async_stats; [by eapply async_of_spec|]. unfold AsyncOpStats.drop_async_op in Hs.
    apply outcome_bind_Done in Hs as (s1 & Hs1%drop_resource_marked & ?). simplify_eq.
    destruct Hs1 as [->|]; [left; by destruct s|by right]. }
  destruct (resource_of w span) as [[a s]|] eqn:Er; [|intros [= <-]; apply layer_step_refl].
  intros (s' & Hs%drop_resource_marked & Hw)%outcome_bind_Done. simplify_eq.
  eapply step_resource_stats; [by eapply resource_of_spec|done].
Qed.

Lemma step_on_event w thread m fs w' : on_event w thread m fs = Done w' → layer_step (env w) (env w').
Proof.
  unfold on_event. intros (b & _ & Hb)%outcome_bind_Done. destruct b.
  - apply outcome_bind_Done in Hb as (v & _ & Hb).
    destruct (WakerVisitor.result v) as [[id op]|]; [|simplify_eq; apply layer_step_refl].
    destruct (spans w !! id) as [span|]; simpl in Hb; [|simplify_eq; apply layer_step_refl].
    destruct (task_of w span) as [[a s]|] eqn:Et; [|simplify_eq; apply layer_step_refl].
    simplify_eq. eapply step_task_stats; [by eapply task_of_spec|by right].
  - apply outcome_bind_Done in Hb as (c & _ & ?). simplify_eq. apply layer_step_refl.
Qed.

Lemma step_register w m w' : register_callsite w m = Done w' → layer_step (env w) (env w').
Proof.
  unfold register_callsite. destruct (insert_callsite _ _ _) as [l r].
  intros (? & _ & ([w1 b] & Hs & ?)%outcome_bind_Done)%outcome_bind_Done. simplify_eq.
  unfold send_metadata in Hs. apply outcome_bind_Done in Hs as ([w2 sent2] & Hs & ?). simplify_eq.
  eapply (step_send (set_layer w l)) in Hs; [exact Hs|].
  intros w3 ev y Hev. simplify_eq. split; [apply layer_step_refl|].
  constructor; [|done]. eexists [_]. split; [done|]. simpl. split; [|split]; apply grows_refl.
Qed.

End Proofs.
End LayerProofs.

(** C28: The tracing layer keeps its promise to the aggregator: whatever callback
    tracing makes, in whatever state, the layer only appends events to the
    channel, the stats it sends are new ones no other entry has, and every
    stats it changes (by wakes, polls, drops) is marked as unsent.  With
    [console_view_exact] the views of the console's clients are exact for the
    real layer. *)
Theorem layer_keeps_promise `{Hdr} w c w' :
  ConsoleLayer.exec w c = Done w' →
  layer_step (ConsoleLayer.env w) (ConsoleLayer.env w').
Proof.
  destruct c; simpl.
  - apply LayerProofs.step_register.
  - unfold ConsoleLayer.on_new_span. intros (b & _ & Hb)%outcome_bind_Done.
    destruct b; [by eapply LayerProofs.step_new_task|].
    apply outcome_bind_Done in Hb as (b & _ & Hb). destruct b; [by eapply LayerProofs.step_new_resource|].
    apply outcome_bind_Done in Hb as (b & _ & Hb). destruct b; [by eapply LayerProofs.step_new_async_op|].
    simplify_eq. apply LayerProofs.layer_step_refl.
  - apply LayerProofs.step_on_event.
  - intros [= <-]. apply LayerProofs.step_on_enter.
  - apply LayerProofs.step_on_exit.
  - apply LayerProofs.step_on_close.
Qed.

(** The layer of the default configuration, before the first callback. *)
Definition demo_world : @ConsoleLayer.World bound_hdr :=
  let c := @ConsoleLayer.build bound_hdr ConsoleLayer.builder (TimeAnchor.mk 0 0) 7 in
  ConsoleLayer.mkWorld c.1 (env c.2) true ∅.

Definition demo_meta : Metadata := mkMetadata 9 9 "runtime.spawn" "executor::task".

Lemma layer_keeps_promise_witness :
  ∃ w', ConsoleLayer.exec demo_world (ConsoleLayer.RegisterCallsite demo_meta) = Done w' ∧
    Aggregator.events (ConsoleLayer.env w') = [EvMetadata demo_meta] ∧
    layer_step (ConsoleLayer.env demo_world) (ConsoleLayer.env w').
Proof.
  eexists. split; [vm_compute; reflexivity|]. split; [reflexivity|].
  apply (layer_keeps_promise demo_world (ConsoleLayer.RegisterCallsite demo_meta)).
  vm_compute. reflexivity.
Defined.
