(* ===== verification/LoadBalancer.v ===== *)
(** * Cores and their load (runtime/executor: placement.rs, load_balancer.rs, and
      the pinning of threads in thread_manager.rs)

    [Linux], [Windows] and [Macos] find the cores of the system and pin a thread
    to one; the answers of the operating system are arguments.  [Stats] holds
    the load of each core, [LoadBalancer] decides when the mean is computed, and
    [Pinner] hands cores to threads in turn.  Words are 64 bits wide. *)

From Stdlib Require Import Sorting.Sorted.
From S2P Require Import Prelude.

Local Open Scope N_scope.

Definition usize_max : N := 2 ^ 64 - 1.

(** ** Placement *)

Record CoreId := mkCoreId { core : N }.

#[export] Instance CoreId_eq_dec : EqDecision CoreId.
Proof. solve_decision. Defined.

Definition indices (n : N) : list N := N.of_nat <$> seq 0 (N.to_nat n).

Module Linux.

Definition CPU_SETSIZE : N := 1024.

(** A [cpu_set_t] is its bits; [CPU_SET] past the end is an index out of range. *)
Definition new_cpu_set : N := 0.
Definition CPU_ISSET (i set : N) : bool := N.testbit set i.
Definition CPU_SET (i set : N) : outcome N :=
  if i <? CPU_SETSIZE then Done (N.setbit set i) else Panic.

(** [sched_getaffinity] fills the set and returns 0, or fails. *)
Definition get_affinity_mask (getaffinity : option N) : option N := getaffinity.

Definition get_core_ids (getaffinity : option N) : option (list CoreId) :=
  match get_affinity_mask getaffinity with
  | Some full_set =>
      Some (mkCoreId <$> filter (λ i, CPU_ISSET i full_set = true) (indices CPU_SETSIZE))
  | None => None
  end.

(** The set handed to [sched_setaffinity], whose result is ignored. *)
Definition set_for_current (core_id : CoreId) : outcome N := CPU_SET (core core_id) new_cpu_set.

End Linux.

Module Windows.

(** [GetProcessAffinityMask]: the mask, or 0 on failure. *)
Definition get_affinity_mask (mask : option N) : option N := mask.

Definition get_core_ids (mask : option N) : option (list CoreId) :=
  match get_affinity_mask mask with
  | Some mask =>
      Some (mkCoreId <$>
              filter (λ i, N.land mask (N.shiftl 1 i) = N.shiftl 1 i) (indices 64))
  | None => None
  end.

(** The mask handed to [SetThreadAffinityMask]; a shift that is too far panics where
    overflow is checked, and uses the low six bits elsewhere. *)
Definition set_for_current (checks : bool) (core_id : CoreId) : outcome N :=
  if checks && (64 <=? core core_id) then Panic
  else Done (N.shiftl 1 (core core_id `mod` 64)).

End Windows.

Module Macos.

Definition get_core_ids (num_cpus : N) : option (list CoreId) := Some (mkCoreId <$> indices num_cpus).

(** [affinity_tag] is a [c_int]: the low 32 bits. *)
Definition set_for_current (core_id : CoreId) : N := wrap 32 (core core_id).

End Macos.

(** ** Load *)

Definition MAX_CORE : nat := 256.

(** [MEAN_UPDATE_TRESHOLD] in milliseconds. *)
Definition MEAN_UPDATE_TRESHOLD : N := 200.

(** [sort_by] is stable: an element goes before the first later one that is not
    strictly less in the order. *)
Fixpoint sort_insert {A} (before : A → A → bool) (x : A) (l : list A) : list A :=
  match l with
  | [] => [x]
  | y :: l' => if before y x then y :: sort_insert before x l' else x :: l
  end.

Definition sort_by {A} (before : A → A → bool) (l : list A) : list A :=
  foldr (sort_insert before) [] l.

Module Stats.

Record t := mk {
  smp_load : list N;
  mean_level : N;
  updating_mean : bool;
}.

Definition new (num_cores : N) : t :=
  let n := Nat.min (N.to_nat num_cores) MAX_CORE in
  mk (replicate n 0 ++ replicate (MAX_CORE - n) usize_max) 0 false.

Definition store_load (self : t) (affinity load : N) : outcome t :=
  let! l := set_at (smp_load self) (N.to_nat affinity) load in
  Done (mk l (mean_level self) (updating_mean self)).

(** Up to the first core that is not there. *)
Fixpoint active (core : N) (l : list N) : list (N * N) :=
  match l with
  | [] => []
  | load :: l => if load =? usize_max then [] else (core, load) :: active (core + 1) l
  end.

(** Highest load first. *)
Definition get_sorted_load (self : t) : list (N * N) :=
  sort_by (λ y x, x.2 <? y.2) (active 0 (smp_load self)).

Definition mean (self : t) : N := mean_level self.

(** Additions that would overflow are left out. *)
Definition sum_loads (l : list N) : N :=
  foldl (λ sum load, if sum + load <=? usize_max then sum + load else sum) 0 l.

(** [wrapping_div] panics on a zero divisor. *)
Definition update_mean (self : t) (num_cores : N) : outcome t :=
  if updating_mean self then Done self
  else
    let sum := sum_loads (take (N.to_nat num_cores) (smp_load self)) in
    if num_cores =? 0 then Panic
    else Done (mk (smp_load self) (sum / num_cores) false).

End Stats.

Module LoadBalancer.

(** [mean_last_updated_at] in milliseconds. *)
Record t := mk {
  num_cores : N;
  cores : list CoreId;
  mean_last_updated_at : N;
}.

Definition new (cores : list CoreId) (now : N) : t :=
  mk (N.of_nat (length cores)) cores now.

(** [locked]: somebody holds the lock for writing. *)
Definition should_update (self : t) (locked : bool) (now : N) : bool :=
  if locked then false else MEAN_UPDATE_TRESHOLD <? now - mean_last_updated_at self.

Definition update_load_mean (self : t) (stats : Stats.t) (locked : bool) (now : N)
  : outcome (t * Stats.t) :=
  if should_update self locked now then
    let self := mk (num_cores self) (cores self) now in
    let! stats := Stats.update_mean stats (num_cores self) in
    Done (self, stats)
  else Done (self, stats).

Definition core_count (self : t) : N := num_cores self.
Definition get_cores (self : t) : list CoreId := cores self.

End LoadBalancer.

(** ** Pinning threads ([ThreadManager::affinity_pinner])

    [pin] is [ROUND_ROBIN_PIN]; the result is the new pin and, unless there is
    only one core, the core the thread is pinned to. *)
Definition affinity_pinner (core_count : N) (pin : CoreId) : outcome (CoreId * option CoreId) :=
  if core_count =? 1 then Done (pin, None)
  else
    let! _ := Linux.set_for_current pin in
    if core_count =? 0 then Panic
    else Done (mkCoreId ((core pin + 1) `mod` core_count), Some pin).

Fixpoint pin_threads (n : nat) (core_count : N) (pin : CoreId) : outcome (list CoreId) :=
  match n with
  | O => Done []
  | S n =>
      let! (pin, c) := affinity_pinner core_count pin in
      let! l := pin_threads n core_count pin in
      Done (match c with Some c => c :: l | None => l end)
  end.

(** ** Theorems *)

Lemma indices_elem n i : i ∈ indices n ↔ i < n.
Proof.
  unfold indices. rewrite list_elem_of_fmap. split.
  - intros (k & -> & Hk%elem_of_seq). lia.
  - intros Hi. exists (N.to_nat i). split; [lia|]. apply elem_of_seq. lia.
Qed.

Lemma indices_nodup n : NoDup (indices n).
Proof. apply NoDup_fmap_2; [intros x y; lia|apply NoDup_seq]. Qed.

Lemma indices_sorted n : StronglySorted N.lt (indices n).
Proof.
  unfold indices. generalize (N.to_nat n). intros k. generalize 0%nat.
  induction k as [|k IH]; intros s; simpl; constructor; [apply IH|].
  apply Forall_forall. intros x (j & -> & Hj%elem_of_seq)%list_elem_of_fmap. lia.
Qed.

Lemma filter_sorted (P : N → Prop) `{∀ x, Decision (P x)} l :
  StronglySorted N.lt l → StronglySorted N.lt (filter P l).
Proof.
  induction 1 as [|x l Hs IH Hx]; [constructor|]. rewrite filter_cons. case_decide; [|done].
  constructor; [done|]. apply Forall_forall. intros y Hy%list_elem_of_filter.
  rewrite Forall_forall in Hx. apply Hx, Hy.
Qed.

Lemma filter_none {A} (P : A → Prop) `{∀ x, Decision (P x)} l :
  (∀ x, x ∈ l → ¬ P x) → filter P l = [].
Proof.
  induction l as [|x l IH]; intros Hl; [done|]. rewrite filter_cons, decide_False.
  - apply IH. intros y Hy. apply Hl. by right.
  - apply Hl. by left.
Qed.

(** The one element of a list without duplicates that satisfies [P]. *)
Lemma filter_unique {A} (P : A → Prop) `{∀ x, Decision (P x)} c l :
  (∀ x, P x ↔ x = c) → NoDup l → c ∈ l → filter P l = [c].
Proof.
  intros HP. induction l as [|x l IH]; intros Hnd Hx; [by apply not_elem_of_nil in Hx|].
  apply NoDup_cons in Hnd as [Hnx Hnd]. rewrite filter_cons.
  destruct (decide (P x)) as [Hp|Hp].
  - apply HP in Hp as ->. f_equal. apply filter_none. intros y Hy Hp%HP. congruence.
  - apply IH; [done|]. apply elem_of_cons in Hx as [->|Hx]; [|done]. by destruct Hp; apply HP.
Qed.

Lemma core_ids_of (P : N → Prop) `{∀ x, Decision (P x)} n i :
  mkCoreId i ∈ mkCoreId <$> filter P (indices n) ↔ i < n ∧ P i.
Proof.
  rewrite list_elem_of_fmap. setoid_rewrite list_elem_of_filter. setoid_rewrite indices_elem.
  split.
  - intros (j & [= ->] & ? & ?). done.
  - intros [??]. by exists i.
Qed.

(** The cores found on Linux are exactly those in the affinity mask, in
    ascending order; pinning a thread to one of them gives it the mask from which
    exactly that core is found again. *)
Theorem linux_cores_exact mask ids :
  Linux.get_core_ids (Some mask) = Some ids →
  (∀ i, mkCoreId i ∈ ids ↔ i < Linux.CPU_SETSIZE ∧ N.testbit mask i = true) ∧
  StronglySorted N.lt (core <$> ids) ∧
  ∀ c, c ∈ ids → ∃ m, Linux.set_for_current c = Done m ∧
    Linux.get_core_ids (Some m) = Some [c].
Proof.
  unfold Linux.get_core_ids, Linux.get_affinity_mask. intros [= <-].
  split; [intros i; apply core_ids_of|]. split.
  { rewrite <-list_fmap_compose, list_fmap_id. apply filter_sorted, indices_sorted. }
  intros [c] [Hc _]%core_ids_of. unfold Linux.set_for_current, Linux.CPU_SET.
  cbn [core]. apply N.ltb_lt in Hc as Hc'. rewrite Hc'. eexists. split; [done|]. do 2 f_equal.
  rewrite (filter_unique _ c); [done| |apply indices_nodup|by apply indices_elem].
  intros x. unfold Linux.CPU_ISSET, Linux.new_cpu_set. rewrite N.setbit_iff, N.bits_0.
  split; [by intros [->|?]|by left].
Qed.

Lemma linux_cores_exact_witness :
  ∃ m, Linux.set_for_current (mkCoreId 5) = Done m ∧
    Linux.get_core_ids (Some m) = Some [mkCoreId 5].
Proof.
  destruct (linux_cores_exact 38 (mkCoreId <$> [1; 2; 5])) as (_ & _ & H).
  - vm_compute. reflexivity.
  - apply H. right. right. left.
Defined.

(** ** Sorting *)

Section Sort.

Context {A : Type} (before : A → A → bool).

Definition in_order (x y : A) : Prop := before y x = false.

Lemma sort_insert_perm x l : sort_insert before x l ≡ₚ x :: l.
Proof.
  induction l as [|y l IH]; simpl; [done|]. destruct (before y x); [|done].
  rewrite IH. apply Permutation_swap.
Qed.

Lemma sort_by_perm l : sort_by before l ≡ₚ l.
Proof. induction l as [|x l IH]; simpl; [done|]. by rewrite sort_insert_perm, IH. Qed.

Context (Hasym : ∀ x y, before x y = true → before y x = false).
Context (Htrans : ∀ x y z, in_order x y → in_order y z → in_order x z).

Lemma sort_insert_sorted x l :
  StronglySorted in_order l → StronglySorted in_order (sort_insert before x l).
Proof.
  induction 1 as [|y l Hs IH Hy]; simpl; [repeat constructor|].
  destruct (before y x) eqn:Hb.
  - constructor; [done|]. apply Forall_forall. intros z Hz.
    rewrite (sort_insert_perm x l) in Hz. apply elem_of_cons in Hz as [->|Hz].
    + by apply Hasym.
    + by rewrite Forall_forall in Hy; apply Hy.
  - constructor; [by constructor|]. constructor; [done|].
    eapply Forall_impl; [apply Hy|]. intros z Hz. by eapply Htrans.
Qed.

Lemma sort_by_sorted l : StronglySorted in_order (sort_by before l).
Proof. induction l; simpl; [constructor|by apply sort_insert_sorted]. Qed.

End Sort.

(** ** Loads *)

(** The statistics of [n] cores: the loads of the cores, then the mark. *)
Definition stats_wf (n : nat) (loads : list N) (s : Stats.t) : Prop :=
  length loads = n ∧ Forall (λ l, l < usize_max) loads ∧
  Stats.smp_load s = loads ++ replicate (MAX_CORE - n) usize_max ∧
  Stats.updating_mean s = false.

Lemma stats_new_wf n :
  (n ≤ MAX_CORE)%nat → stats_wf n (replicate n 0) (Stats.new (N.of_nat n)).
Proof.
  intros Hn. unfold Stats.new. rewrite Nat2N.id, Nat.min_l by done.
  repeat split; simpl; [apply length_replicate|apply Forall_replicate; done].
Qed.

Lemma store_load_wf n loads s i l :
  stats_wf n loads s → (N.to_nat i < n)%nat → l < usize_max →
  ∃ s', Stats.store_load s i l = Done s' ∧ stats_wf n (<[N.to_nat i := l]> loads) s'.
Proof.
  intros (Hlen & Hl & Hs & Hu) Hi Hlt. unfold Stats.store_load, set_at.
  rewrite decide_True by (rewrite Hs, length_app; lia).
  eexists. split; [done|]. repeat split; simpl; [by rewrite length_insert|by apply Forall_insert| |done].
  rewrite Hs, insert_app_l; [done|lia].
Qed.

(** The last load stored for each core. *)
Definition latest (n : nat) (stores : list (N * N)) : list N :=
  foldl (λ loads p, <[N.to_nat p.1 := p.2]> loads) (replicate n 0) stores.

Definition store_all (s : Stats.t) (stores : list (N * N)) : outcome Stats.t :=
  for_loop (λ s p, Stats.store_load s p.1 p.2) s stores.

Lemma store_all_wf n stores loads s :
  stats_wf n loads s →
  Forall (λ p, (N.to_nat p.1 < n)%nat ∧ p.2 < usize_max) stores →
  ∃ s', store_all s stores = Done s' ∧
    stats_wf n (foldl (λ loads p, <[N.to_nat p.1 := p.2]> loads) loads stores) s'.
Proof.
  unfold store_all. revert loads s.
  induction stores as [|[i l] stores IH]; intros loads s Hwf Hst; simpl; [by eexists|].
  inversion Hst as [|? ? [Hi Hl] Hst']; subst. simpl in *.
  destruct (store_load_wf n loads s i l Hwf Hi Hl) as (s' & -> & Hwf'). by apply IH.
Qed.

Lemma active_marked k loads m :
  Forall (λ l, l < usize_max) loads →
  Stats.active k (loads ++ replicate m usize_max) =
  imap (λ i l, (k + N.of_nat i, l)) loads.
Proof.
  intros Hl. revert k. induction Hl as [|x l Hx Hl IH]; intros k; simpl.
  - by destruct m.
  - destruct (N.eqb_spec x usize_max); [lia|]. rewrite IH, N.add_0_r. f_equal.
    apply imap_ext. intros i y _. simpl. f_equal. lia.
Qed.

Definition descending (x y : N * N) : Prop := y.2 <= x.2.

(** Whatever loads have been stored for [n] cores, [get_sorted_load] returns each
    of the cores [0..n-1] once, with the load stored for it last (0 when there is
    none), the highest load first. *)
Theorem sorted_load_exact n stores :
  (n ≤ MAX_CORE)%nat →
  Forall (λ p, (N.to_nat p.1 < n)%nat ∧ p.2 < usize_max) stores →
  ∃ s, store_all (Stats.new (N.of_nat n)) stores = Done s ∧
    Stats.get_sorted_load s ≡ₚ imap (λ i l, (N.of_nat i, l)) (latest n stores) ∧
    StronglySorted descending (Stats.get_sorted_load s).
Proof.
  intros Hn Hst. destruct (store_all_wf n stores _ _ (stats_new_wf n Hn) Hst)
    as (s & Hs & Hlen & Hl & Hload & _).
  exists s. split; [done|]. unfold Stats.get_sorted_load. split.
  - rewrite sort_by_perm, Hload, active_marked by done. by erewrite imap_ext.
  - eapply (StronglySorted_ind (λ l, StronglySorted descending l));
      [constructor| |apply (sort_by_sorted (λ y x, x.2 <? y.2))].
    + intros x l _ IH Hx. constructor; [done|]. eapply Forall_impl; [apply Hx|].
      intros y Hy. unfold in_order in Hy. apply N.ltb_ge in Hy. done.
    + intros x y. rewrite N.ltb_lt, N.ltb_ge. lia.
    + intros x y z. unfold in_order. rewrite !N.ltb_ge. lia.
Qed.

Lemma sorted_load_exact_witness :
  ∃ s, store_all (Stats.new 3) [(1, 7); (2, 4); (1, 9)] = Done s ∧
    Stats.get_sorted_load s ≡ₚ [(0, 0); (1, 9); (2, 4)] ∧
    StronglySorted descending (Stats.get_sorted_load s).
Proof.
  apply (sorted_load_exact 3 [(1, 7); (2, 4); (1, 9)]).
  - unfold MAX_CORE. lia.
  - repeat constructor; simpl; lia.
Defined.

(** ** The mean *)

Definition total (l : list N) : N := foldr N.add 0 l.

Lemma sum_loads_exact l acc :
  acc + total l <= usize_max →
  foldl (λ sum load, if sum + load <=? usize_max then sum + load else sum) acc l = acc + total l.
Proof.
  revert acc. induction l as [|x l IH]; intros acc Ht; simpl in *; [lia|].
  destruct (N.leb_spec (acc + x) usize_max); [|lia]. rewrite IH; lia.
Qed.

Lemma sum_loads_bound l acc :
  foldl (λ sum load, if sum + load <=? usize_max then sum + load else sum) acc l <= acc + total l.
Proof.
  revert acc. induction l as [|x l IH]; intros acc; simpl; [lia|].
  etrans; [apply IH|]. destruct (_ <=? _); lia.
Qed.

Lemma total_bound l m : Forall (λ x, x <= m) l → total l <= N.of_nat (length l) * m.
Proof. induction 1; simpl; lia. Qed.

(** The mean of [n] cores is at most the highest load, also when the sum of the
    loads does not fit a word, and is the sum divided by [n], rounded down, when
    it does; without cores the division panics. *)
Theorem update_mean_bounds n loads s m :
  stats_wf n loads s → Forall (λ l, l <= m) loads →
  match Stats.update_mean s (N.of_nat n) with
  | Done s' =>
      stats_wf n loads s' ∧ Stats.mean s' <= m ∧
      (total loads <= usize_max → Stats.mean s' = total loads / N.of_nat n)
  | Panic => n = 0%nat
  | OutOfFuel => False
  end.
Proof.
  intros (Hlen & Hl & Hs & Hu) Hm. unfold Stats.update_mean. rewrite Hu, Nat2N.id, Hs.
  rewrite take_app_length' by done.
  destruct (N.eqb_spec (N.of_nat n) 0); [lia|]. split; [|split].
  - repeat split; simpl; done.
  - simpl. unfold Stats.sum_loads.
    transitivity (N.of_nat n * m / N.of_nat n).
    + apply N.Div0.div_le_mono. etrans; [apply sum_loads_bound|].
      apply total_bound in Hm. rewrite Hlen in Hm. lia.
    + rewrite N.mul_comm, N.div_mul; lia.
  - intros Ht. simpl. unfold Stats.sum_loads. by rewrite sum_loads_exact.
Qed.

Lemma update_mean_bounds_witness :
  match Stats.update_mean (Stats.mk ([usize_max - 1; usize_max - 1] ++ replicate 254 usize_max) 0 false) 2 with
  | Done s' => Stats.mean s' <= usize_max - 1
  | _ => False
  end.
Proof.
  assert (stats_wf 2 [usize_max - 1; usize_max - 1]
    (Stats.mk ([usize_max - 1; usize_max - 1] ++ replicate 254 usize_max) 0 false)) as Hwf.
  { repeat split; simpl. repeat constructor. }
  pose proof (update_mean_bounds 2 _ _ (usize_max - 1) Hwf) as H.
  destruct (Stats.update_mean _ _) as [s'| |]; [apply H|discriminate H|apply H]; repeat constructor; done.
Defined.

(** ** Pinning *)

Lemma pin_threads_spec k n pin :
  1 < n → n <= Linux.CPU_SETSIZE → core pin < n →
  pin_threads k n pin =
  Done ((λ i, mkCoreId ((core pin + N.of_nat i) `mod` n)) <$> seq 0 k).
Proof.
  intros Hn Hmax. revert pin. induction k as [|k IH]; intros [p] Hp; simpl in *; [done|].
  unfold affinity_pinner, Linux.set_for_current, Linux.CPU_SET. simpl.
  destruct (N.eqb_spec n 1); [lia|]. destruct (N.ltb_spec p Linux.CPU_SETSIZE); [|lia]. simpl.
  destruct (N.eqb_spec n 0); [lia|]. simpl. rewrite IH by (simpl; apply N.mod_lt; lia). simpl.
  rewrite N.add_0_r, (N.mod_small p n) by done. do 2 f_equal.
  rewrite <-fmap_S_seq, <-list_fmap_compose. apply list_fmap_ext. intros _ i _. simpl. f_equal.
  rewrite N.Div0.add_mod_idemp_l. f_equal. lia.
Qed.

(** With between 2 and 1024 cores no thread fails to be pinned, and thread [k],
    in the order in which the threads take the lock, is pinned to core
    [k mod core_count]: the cores are used equally, up to one thread. *)
Theorem pinning_round_robin k n :
  1 < n → n <= Linux.CPU_SETSIZE →
  pin_threads k n (mkCoreId 0) = Done ((λ i, mkCoreId (N.of_nat i `mod` n)) <$> seq 0 k) ∧
  ∀ l, pin_threads k n (mkCoreId 0) = Done l → Forall (λ c, core c < n) l.
Proof.
  intros Hn Hmax. pose proof (pin_threads_spec k n (mkCoreId 0) Hn Hmax) as H.
  rewrite H by (simpl; lia). split.
  - done.
  - intros l [= <-]. apply Forall_forall. intros c (i & -> & _)%list_elem_of_fmap.
    simpl. apply N.mod_lt. lia.
Qed.

Lemma pinning_round_robin_witness :
  pin_threads 5 2 (mkCoreId 0) = Done (mkCoreId <$> [0; 1; 0; 1; 0]).
Proof.
  destruct (pinning_round_robin 5 2) as [H _]; [lia|unfold Linux.CPU_SETSIZE; lia|]. apply H.
Defined.
