(* ===== verification/Supervision.v ===== *)
(** * Process groups (runtime/executor: supervision.rs; GroupId in
      runtime/lightproc: proc_data.rs)

    A group is a slot of a pool with a reference count and the id of its parent.
    The pool (sharded_slab) is a parameter: [pool_alloc] picks the slot of a new
    group, and [PoolLaws] says it picks one that is not in use.  A slot keeps its
    object when it is cleared, and hands it out again.  Each thread has a current
    group.  [step] is the interleaving of the operations of all threads, in which
    the ids handed out and not yet given back are counted. *)

From S2P Require Import Prelude.

Local Open Scope N_scope.

(** ** Group ids *)

Module GroupId.

Abbreviation t := N.

Definition from_u64 (i : N) : outcome t := if i =? 0 then Panic else Done i.
Definition from_non_zero_u64 (i : N) : t := i.
Definition into_u64 (self : t) : N := self.
Definition into_non_zero_u64 (self : t) : N := self.

End GroupId.

Definition id_to_idx (id : GroupId.t) : N := wrap 64 (GroupId.into_u64 id + (2 ^ 64 - 1)).
Definition idx_to_id (idx : N) : outcome GroupId.t := GroupId.from_u64 (wrap 64 (idx + 1)).

(** ** Groups *)

Record GroupInner := mkGroupInner {
  parent : option GroupId.t;
  ref_count : N;
}.

Definition GroupInner_default : GroupInner := mkGroupInner None 0.

(** [increment_refcnt], [fetch_add]: the value before, and the one after. *)
Definition increment_refcnt (self : GroupInner) : N * GroupInner :=
  (ref_count self, mkGroupInner (parent self) (wrap 64 (ref_count self + 1))).

(** [fetch_sub]. *)
Definition decrement_refcnt (self : GroupInner) : N * GroupInner :=
  (ref_count self, mkGroupInner (parent self) (wrap 64 (ref_count self + (2 ^ 64 - 1)))).

(** A slot of the pool: whether it is in use, and its object. *)
Record Slot := mkSlot { live : bool; object : GroupInner }.

Class PoolOps := pool_alloc : gmap N Slot → option N.

Class PoolLaws `{PoolOps} := {
  pool_alloc_free : ∀ slots i s, pool_alloc slots = Some i → slots !! i = Some s → live s = false;
  pool_alloc_usize : ∀ slots i, pool_alloc slots = Some i → i < 2 ^ 64;
}.

Module SupervisionRegistry.

(** [current] is by thread. *)
Record t := mk {
  groups : gmap N Slot;
  current_of : gmap N GroupId.t;
}.

Definition new : t := mk ∅ ∅.

Definition set_groups (self : t) (g : gmap N Slot) : t := mk g (current_of self).

Definition get (self : t) (id : GroupId.t) : option GroupInner :=
  match groups self !! id_to_idx id with
  | Some (mkSlot true g) => Some g
  | _ => None
  end.

Definition put (self : t) (id : GroupId.t) (g : GroupInner) : t :=
  set_groups self (<[id_to_idx id := mkSlot true g]> (groups self)).

Definition current_ref (self : t) (thread : N) : option GroupId.t := current_of self !! thread.

Definition clone_group (self : t) (id : GroupId.t) : outcome (t * GroupId.t) :=
  match get self id with
  | None => Panic
  | Some group =>
      let (ref_cnt, group) := increment_refcnt group in
      if ref_cnt =? 0 then Panic else Done (put self id group, id)
  end.

Definition current (self : t) (thread : N) : outcome (t * option GroupId.t) :=
  match current_ref self thread with
  | None => Done (self, None)
  | Some id => let! (self, id) := clone_group self id in Done (self, Some id)
  end.

(** [get_or]: the first group of a thread stays. *)
Definition set_current (self : t) (thread : N) (id : GroupId.t) : t :=
  match current_of self !! thread with
  | Some _ => self
  | None => mk (groups self) (<[thread := id]> (current_of self))
  end.

Section Pool.

Context `{PoolOps}.

(** [create_with] hands the object of the slot to the closure. *)
Definition new_group_inner (self : t) (parent : option GroupId.t) : outcome (t * GroupId.t) :=
  let! idx := unwrap (pool_alloc (groups self)) in
  let group := match groups self !! idx with
               | Some s => object s
               | None => GroupInner_default
               end in
  if ref_count group =? 0 then
    let! id := idx_to_id idx in
    Done (set_groups self (<[idx := mkSlot true (mkGroupInner parent 1)]> (groups self)), id)
  else Panic.

Definition new_root_group (self : t) : outcome (t * GroupId.t) := new_group_inner self None.

Definition new_group (self : t) (thread : N) : outcome (t * GroupId.t) :=
  let! (self, parent) := current self thread in
  new_group_inner self parent.

End Pool.

Definition try_close (self : t) (panicking : bool) (id : GroupId.t) : outcome (t * bool) :=
  match get self id with
  | None => if panicking then Done (self, false) else Panic
  | Some group =>
      let (remaining, group) := decrement_refcnt group in
      let self := put self id group in
      if negb panicking && negb (remaining <? 2 ^ 64 - 1) then Panic
      else Done (self, negb (1 <? remaining))
  end.

(** [Clear::clear] on the object of a slot: the reference to the parent is
    closed. *)
Definition clear (self : t) (panicking : bool) (group : GroupInner) : outcome (t * GroupInner) :=
  match parent group with
  | Some parent =>
      let! (self, _) := try_close self panicking parent in
      Done (self, mkGroupInner None (ref_count group))
  | None => Done (self, group)
  end.

(** The pool clearing a slot: the object is cleared and kept. *)
Definition clear_slot (self : t) (panicking : bool) (idx : N) : outcome t :=
  match groups self !! idx with
  | Some (mkSlot true group) =>
      let self := set_groups self (<[idx := mkSlot false group]> (groups self)) in
      let! (self, group) := clear self panicking group in
      Done (set_groups self (<[idx := mkSlot false group]> (groups self)))
  | _ => Done self
  end.

End SupervisionRegistry.

(** ** Counting references *)

Fixpoint cnt (i : N) (l : list N) : N :=
  match l with
  | [] => 0
  | x :: l => (if x =? i then 1 else 0) + cnt i l
  end.

#[export] Instance cnt_proper i : Proper ((≡ₚ) ==> (=)) (cnt i).
Proof. induction 1; simpl; lia. Qed.

Lemma cnt_app i l k : cnt i (l ++ k) = cnt i l + cnt i k.
Proof. induction l; simpl; lia. Qed.

(** The parent a group that is in use holds a reference to. *)
Definition slot_parent (s : Slot) : list N :=
  if live s then match parent (object s) with Some p => [id_to_idx p] | None => [] end else [].

Definition parents (g : gmap N Slot) : list N := (map_to_list g).*2 ≫= slot_parent.

Lemma parents_insert g i s : parents (<[i := s]> g) ≡ₚ slot_parent s ++ parents (delete i g).
Proof.
  unfold parents. rewrite <-insert_delete_eq.
  rewrite map_to_list_insert by apply lookup_delete_eq. done.
Qed.

Lemma parents_lookup g i s :
  g !! i = Some s → parents g ≡ₚ slot_parent s ++ parents (delete i g).
Proof. intros Hi. rewrite <-parents_insert, insert_id by done. done. Qed.

Lemma parents_absent g i : g !! i = None → parents (delete i g) = parents g.
Proof. intros Hi. by rewrite delete_id. Qed.

(** Changing a slot without changing the parent it holds. *)
Lemma parents_update g i s s' :
  g !! i = Some s → slot_parent s' = slot_parent s → parents (<[i := s']> g) ≡ₚ parents g.
Proof. intros Hi He. rewrite parents_insert, He, <-parents_lookup by done. done. Qed.

(** The references to slot [i]: the ids handed out, [h], and the groups whose
    parent it is. *)
Definition refs (g : gmap N Slot) (h : list GroupId.t) (i : N) : N :=
  cnt i ((id_to_idx <$> h) ++ parents g).

Record refs_inv (n : N) (g : gmap N Slot) (h : list GroupId.t) : Prop := {
  inv_count : ∀ i s, g !! i = Some s → ref_count (object s) = if live s then refs g h i else 0;
  inv_owned : ∀ i, 0 < refs g h i → ∃ s, g !! i = Some s ∧ live s = true;
  inv_bound : ∀ i, refs g h i <= n;
}.

Lemma refs_inv_empty : refs_inv 0 ∅ [].
Proof. split; intros; simplify_map_eq; unfold refs, parents in *; rewrite map_to_list_empty in *; simpl in *; lia. Qed.

Lemma refs_inv_mono n m g h : n <= m → refs_inv n g h → refs_inv m g h.
Proof. intros Hnm [H1 H2 H3]. split; [done..|]. intros i. specialize (H3 i). lia. Qed.

Lemma refs_cons g h id i : refs g (id :: h) i = (if id_to_idx id =? i then 1 else 0) + refs g h i.
Proof. done. Qed.

#[export] Instance refs_inv_proper n g : Proper ((≡ₚ) ==> iff) (refs_inv n g).
Proof.
  assert (∀ h h', h ≡ₚ h' → refs_inv n g h → refs_inv n g h') as Hp.
  { intros h h' Hh [H1 H2 H3]. assert (∀ i, refs g h' i = refs g h i) as He.
    { intros i. unfold refs. by rewrite Hh. }
    split; intros i; [intros s|..]; rewrite He; auto. }
  intros h h' Hh. split; apply Hp; [done|by symmetry].
Qed.

Lemma idx_of_id idx id : idx < 2 ^ 64 → idx_to_id idx = Done id → id_to_idx id = idx.
Proof.
  unfold idx_to_id, id_to_idx, GroupId.from_u64, GroupId.into_u64, wrap. intros Hi.
  destruct (N.eqb_spec ((idx + 1) `mod` 2 ^ 64) 0) as [|Hn]; [done|]. intros [= <-].
  destruct (decide (idx + 1 = 2 ^ 64)) as [He|He]; [by rewrite He in Hn|].
  rewrite (N.mod_small (idx + 1)) by lia.
  replace (idx + 1 + (2 ^ 64 - 1)) with (idx + 1 * 2 ^ 64) by lia.
  rewrite N.Div0.mod_add, N.mod_small; lia.
Qed.

(** ** The operations keep the counts *)

Import SupervisionRegistry.

Lemma get_spec r id g :
  get r id = Some g ↔ groups r !! id_to_idx id = Some (mkSlot true g).
Proof.
  unfold get. destruct (groups r !! id_to_idx id) as [[[] g']|]; naive_solver.
Qed.

(** Changing the count of a slot in use from [refs g h] to [refs g h']. *)
Lemma refs_inv_recount n m g h h' i s c :
  refs_inv n g h → g !! i = Some s → live s = true →
  c = refs g h' i → n <= m →
  (∀ j, j ≠ i → refs g h' j = refs g h j) → c <= m →
  refs_inv m (<[i := mkSlot true (mkGroupInner (parent (object s)) c)]> g) h'.
Proof.
  intros [H1 H2 H3] Hi Hl -> Hnm Hj Hc.
  assert (∀ j, refs (<[i := mkSlot true (mkGroupInner (parent (object s)) (refs g h' i))]> g) h' j
             = refs g h' j) as He.
  { intros j. unfold refs. rewrite !cnt_app. f_equal. apply cnt_proper.
    apply (parents_update _ _ s); [done|]. unfold slot_parent. by rewrite Hl. }
  split; intros j; [intros s'|..]; rewrite ?He; destruct (decide (j = i)) as [->|Hn].
  - rewrite lookup_insert_eq. by intros [= <-].
  - rewrite lookup_insert_ne by done. intros Hs. rewrite (H1 _ _ Hs), Hj by done. done.
  - rewrite lookup_insert_eq. eauto.
  - rewrite lookup_insert_ne by done. rewrite Hj by done. apply H2.
  - done.
  - rewrite Hj by done. specialize (H3 j). lia.
Qed.

Lemma clone_group_inv n r h id r' id' :
  n + 1 < 2 ^ 64 → refs_inv n (groups r) h → clone_group r id = Done (r', id') →
  id' = id ∧ refs_inv (n + 1) (groups r') (id :: h) ∧ current_of r' = current_of r.
Proof.
  intros Hn Hinv. unfold clone_group, increment_refcnt. destruct (get r id) as [g|] eqn:Hg; [|done].
  destruct (_ =? 0); [done|]. intros [= <- <-]. split; [done|]. split; [|done].
  apply get_spec in Hg as Hl. pose proof (inv_count _ _ _ Hinv _ _ Hl) as Hc. simpl in Hc.
  pose proof (inv_bound _ _ _ Hinv (id_to_idx id)) as Hb.
  rewrite Hc. unfold wrap. rewrite N.mod_small by lia.
  apply (refs_inv_recount n _ _ h (id :: h) _ (mkSlot true g)); try done.
  - rewrite refs_cons, N.eqb_refl. lia.
  - lia.
  - intros j Hj. rewrite refs_cons. destruct (N.eqb_spec (id_to_idx id) j); [congruence|lia].
  - lia.
Qed.

Lemma try_close_inv n r h id panicking :
  n < 2 ^ 64 - 1 → refs_inv n (groups r) (id :: h) →
  ∃ r', try_close r panicking id = Done (r', refs (groups r) (id :: h) (id_to_idx id) =? 1) ∧
    refs_inv n (groups r') h ∧ current_of r' = current_of r ∧
    (∀ j s, live s = false → groups r !! j = Some s → groups r' !! j = Some s).
Proof.
  intros Hn Hinv. pose proof (refs_cons (groups r) h id (id_to_idx id)) as Hr.
  rewrite N.eqb_refl in Hr. cbv iota in Hr.
  destruct (inv_owned _ _ _ Hinv (id_to_idx id)) as ([[] g] & Hl & Hlive); [lia| |done].
  pose proof (inv_count _ _ _ Hinv _ _ Hl) as Hc. simpl in Hc.
  pose proof (inv_bound _ _ _ Hinv (id_to_idx id)) as Hb.
  unfold try_close. rewrite (proj2 (get_spec r id g) Hl). unfold decrement_refcnt. rewrite Hc.
  destruct (N.ltb_spec (refs (groups r) (id :: h) (id_to_idx id)) (2 ^ 64 - 1)); [|lia].
  rewrite andb_false_r. exists (put r id (mkGroupInner (parent g)
    (wrap 64 (refs (groups r) (id :: h) (id_to_idx id) + (2 ^ 64 - 1))))).
  split; [|split; [|split; [done|]]].
  - do 2 f_equal. destruct (N.ltb_spec 1 (refs (groups r) (id :: h) (id_to_idx id)));
      destruct (N.eqb_spec (refs (groups r) (id :: h) (id_to_idx id)) 1); simpl; lia || done.
  - assert (wrap 64 (refs (groups r) (id :: h) (id_to_idx id) + (2 ^ 64 - 1)) =
            refs (groups r) h (id_to_idx id)) as ->.
    { rewrite Hr. unfold wrap.
      replace (1 + _ + (2 ^ 64 - 1)) with (refs (groups r) h (id_to_idx id) + 1 * 2 ^ 64) by lia.
      rewrite N.Div0.mod_add, N.mod_small; lia. }
    apply (refs_inv_recount n _ _ (id :: h) h _ (mkSlot true g)); try done; [|lia].
    intros j Hj. rewrite refs_cons. destruct (N.eqb_spec (id_to_idx id) j); [congruence|lia].
  - intros j s Hs Hj. unfold put. simpl. rewrite lookup_insert_ne; [done|].
    intros <-. rewrite Hl in Hj. by simplify_eq.
Qed.

Lemma new_group_inner_inv `{PoolLaws} n r h p r' id :
  1 <= n → refs_inv n (groups r) (option_list p ++ h) → new_group_inner r p = Done (r', id) →
  refs_inv n (groups r') (id :: h) ∧ current_of r' = current_of r.
Proof.
  intros Hn [H1 H2 H3]. unfold new_group_inner.
  destruct (pool_alloc (groups r)) as [idx|] eqn:Ha; [|done]. cbn [unwrap outcome_bind].
  destruct (_ =? 0); [|done]. destruct (idx_to_id idx) as [id'| |] eqn:Hid; [|done..].
  cbn [outcome_bind]. intros [= <- <-]. split; [|done].
  pose proof (idx_of_id _ _ (pool_alloc_usize _ _ Ha) Hid) as Hidx.
  assert (∀ s, groups r !! idx = Some s → live s = false) as Hfree by eauto using pool_alloc_free.
  assert (refs (groups r) (option_list p ++ h) idx = 0) as Hz.
  { destruct (decide (0 < refs (groups r) (option_list p ++ h) idx)) as [Hp|]; [|lia].
    apply H2 in Hp as (s & Hs & Hl). rewrite (Hfree s Hs) in Hl. done. }
  assert (parents (delete idx (groups r)) ≡ₚ parents (groups r)) as Hd.
  { destruct (groups r !! idx) as [s|] eqn:Hs.
    - rewrite (parents_lookup _ _ _ Hs). unfold slot_parent. by rewrite (Hfree s).
    - by rewrite parents_absent. }
  assert (∀ j, refs (<[idx := mkSlot true (mkGroupInner p 1)]> (groups r)) (id' :: h) j =
    (if idx =? j then 1 else 0) + refs (groups r) (option_list p ++ h) j) as He.
  { intros j. rewrite refs_cons, Hidx. f_equal. unfold refs. apply cnt_proper.
    rewrite parents_insert, Hd, fmap_app. destruct p as [p|]; simpl; [|done].
    symmetry. apply Permutation_middle. }
  split; intros j; [intros s|..]; rewrite ?He; simpl; destruct (N.eqb_spec idx j) as [<-|Hj].
  - rewrite lookup_insert_eq. intros [= <-]. simpl. lia.
  - rewrite lookup_insert_ne by done. apply H1.
  - rewrite lookup_insert_eq. eauto.
  - rewrite lookup_insert_ne by done. apply H2.
  - lia.
  - apply H3.
Qed.

(** Taking a slot nobody refers to out of use: the reference to its parent is
    handed out. *)
Lemma refs_inv_free n g h i o :
  refs_inv n g h → g !! i = Some (mkSlot true o) → ref_count o = 0 →
  refs_inv n (<[i := mkSlot false o]> g) (option_list (parent o) ++ h).
Proof.
  intros [H1 H2 H3] Hi Ho.
  assert (∀ j, refs (<[i := mkSlot false o]> g) (option_list (parent o) ++ h) j = refs g h j) as He.
  { intros j. unfold refs. apply cnt_proper.
    rewrite parents_insert, (parents_lookup g i _ Hi), fmap_app. unfold slot_parent. simpl.
    destruct (parent o); simpl; [apply Permutation_middle|done]. }
  pose proof (H1 _ _ Hi) as Hc. simpl in Hc.
  split; intros j; [intros s|..]; rewrite He; destruct (decide (j = i)) as [->|Hn].
  - rewrite lookup_insert_eq. by intros [= <-].
  - rewrite lookup_insert_ne by done. apply H1.
  - lia.
  - rewrite lookup_insert_ne by done. apply H2.
  - apply H3.
  - apply H3.
Qed.

Lemma refs_inv_dead n g h i o o' :
  refs_inv n g h → g !! i = Some (mkSlot false o) → ref_count o' = 0 →
  refs_inv n (<[i := mkSlot false o']> g) h.
Proof.
  intros [H1 H2 H3] Hi Ho.
  assert (∀ j, refs (<[i := mkSlot false o']> g) h j = refs g h j) as He.
  { intros j. unfold refs. rewrite !cnt_app. f_equal. apply cnt_proper.
    by apply (parents_update _ _ (mkSlot false o)). }
  split; intros j; [intros s|..]; rewrite He; destruct (decide (j = i)) as [->|Hn].
  - rewrite lookup_insert_eq. by intros [= <-].
  - rewrite lookup_insert_ne by done. apply H1.
  - intros Hp. apply H2 in Hp as (s & Hs & Hl). rewrite Hi in Hs. by simplify_eq.
  - rewrite lookup_insert_ne by done. apply H2.
  - apply H3.
  - apply H3.
Qed.

Lemma clear_slot_inv n r h i o panicking :
  n < 2 ^ 64 - 1 → refs_inv n (groups r) h →
  groups r !! i = Some (mkSlot true o) → ref_count o = 0 →
  ∃ r', clear_slot r panicking i = Done r' ∧ refs_inv n (groups r') h.
Proof.
  intros Hn Hinv Hi Ho. apply (refs_inv_free _ _ _ _ _ Hinv Hi) in Ho as Hf.
  unfold clear_slot, clear. rewrite Hi. destruct (parent o) as [p|] eqn:Hp.
  - destruct (try_close_inv n (set_groups r (<[i := mkSlot false o]> (groups r))) h p panicking)
      as (r' & -> & Hinv' & _ & Hdead); [done..|]. cbn [outcome_bind].
    eexists. split; [done|]. eapply refs_inv_dead; [done| |done].
    apply Hdead; [done|]. apply lookup_insert_eq.
  - eexists. split; [done|]. simpl. rewrite insert_insert_eq. done.
Qed.

(** ** All threads *)

Record State := mkState {
  registry : t;
  (** The ids handed out and not yet closed. *)
  handed_out : list GroupId.t;
}.

Section System.

Context `{PoolLaws}.

Inductive step : State → State → Prop :=
| step_new_root_group r h r' id :
    new_root_group r = Done (r', id) → step (mkState r h) (mkState r' (id :: h))
| step_new_group r h thread r' id :
    new_group r thread = Done (r', id) → step (mkState r h) (mkState r' (id :: h))
| step_current r h thread r' o :
    current r thread = Done (r', o) → step (mkState r h) (mkState r' (option_list o ++ h))
| step_set_current r h thread id :
    id ∈ h → step (mkState r h) (mkState (set_current r thread id) h)
| step_close r h panicking id r' b :
    try_close r panicking id = Done (r', b) →
    step (mkState r (id :: h)) (mkState r' h)
| step_reorder r h h' : h ≡ₚ h' → step (mkState r h) (mkState r h')
| step_clear r h panicking i o r' :
    groups r !! i = Some (mkSlot true o) → ref_count o = 0 →
    clear_slot r panicking i = Done r' → step (mkState r h) (mkState r' h).

Inductive reach : N → State → Prop :=
| reach_init : reach 0 (mkState new [])
| reach_step n s s' : reach n s → step s s' → reach (n + 1) s'.

Lemma reach_inv n s :
  reach n s → n < 2 ^ 64 - 1 → refs_inv n (groups (registry s)) (handed_out s).
Proof.
  induction 1 as [|n s s' Hr IH Hs]; intros Hn; [apply refs_inv_empty|].
  specialize (IH ltac:(lia)). apply (refs_inv_mono n (n + 1)) in IH as IH'; [|lia].
  destruct Hs as [r h r' id Hnew|r h th r' id Hnew|r h th r' o Hcur|r h th id Hid
    |r h pk id r' b Hc|r h h' Hp|r h pk i o r' Hi Ho Hc]; simpl in *.
  - eapply (new_group_inner_inv (n + 1) r h None) in Hnew; [apply Hnew|lia|exact IH' || exact Hinv].
  - unfold new_group, current in Hnew. destruct (current_ref r th) as [p|].
    + destruct (clone_group r p) as [[r1 p1]| |] eqn:Hcl; [|done..]. simpl in Hnew.
      eapply (clone_group_inv n) in Hcl as (-> & Hinv & _); [|lia|done].
      eapply (new_group_inner_inv (n + 1) r1 h (Some p)) in Hnew; [apply Hnew|lia|exact IH' || exact Hinv].
    + eapply (new_group_inner_inv (n + 1) r h None) in Hnew; [apply Hnew|lia|exact IH' || exact Hinv].
  - unfold current in Hcur. destruct (current_ref r th) as [p|]; [|by simplify_eq].
    destruct (clone_group r p) as [[r1 p1]| |] eqn:Hcl; [|done..]. simpl in Hcur. simplify_eq.
    eapply (clone_group_inv n) in Hcl as (-> & Hinv & _); [apply Hinv|lia|apply IH].
  - unfold set_current. by destruct (current_of r !! th).
  - destruct (try_close_inv (n + 1) r h id pk) as (r1 & Hc' & Hinv & _); [done..|].
    rewrite Hc' in Hc. by simplify_eq.
  - by rewrite <-Hp.
  - destruct (clear_slot_inv (n + 1) r h i o pk) as (r1 & Hc' & Hinv); [done..|].
    rewrite Hc' in Hc. by simplify_eq.
Qed.

(** Whatever the threads do, in fewer than 2^64 - 1 operations: closing a group
    whose id was handed out never panics; it reports the group closed exactly when
    that id was the last reference to it, no other id being out and no group in
    use having it as its parent; and the count of references of every group in use
    is the number of ids out plus the number of its children. *)
Theorem last_close_closes n r h :
  reach n (mkState r h) → n < 2 ^ 64 - 1 →
  (∀ i o, groups r !! i = Some (mkSlot true o) → ref_count o = refs (groups r) h i) ∧
  (∀ id panicking, id ∈ h → ∃ r', try_close r panicking id =
     Done (r', refs (groups r) h (id_to_idx id) =? 1)).
Proof.
  intros Hr Hn. pose proof (reach_inv _ _ Hr Hn) as Hinv. simpl in Hinv. split.
  - intros i o Hi. apply (inv_count _ _ _ Hinv _ _ Hi).
  - intros id pk (h' & Hh)%elem_of_Permutation. pose proof Hinv as Hinv'. rewrite Hh in Hinv'.
    destruct (try_close_inv n r h' id pk) as (r' & Hc & _); [done..|]. exists r'. rewrite Hc.
    unfold refs. by rewrite Hh.
Qed.

End System.

(** ** A pool *)

(** The first slot after all that were ever used, while the index fits a word. *)
Definition next_slot (slots : gmap N Slot) : option N :=
  let i := map_fold (λ k _ m, N.max (k + 1) m) 0 slots in
  if i <? 2 ^ 64 then Some i else None.

Lemma next_slot_fresh (slots : gmap N Slot) : ∀ k s, slots !! k = Some s →
  k < map_fold (λ k _ m, N.max (k + 1) m) 0 slots.
Proof.
  apply (map_fold_weak_ind (λ m (slots : gmap N Slot), ∀ k s, slots !! k = Some s → k < m)); [done|].
  intros i x m r _ IH k s Hk. destruct (decide (k = i)) as [->|Hn]; [lia|].
  rewrite lookup_insert_ne in Hk by done. apply IH in Hk. lia.
Qed.

#[export] Instance bump_pool : PoolOps := next_slot.

#[export] Instance bump_pool_laws : PoolLaws.
Proof.
  split; unfold pool_alloc, bump_pool, next_slot; intros slots i.
  - intros s Hi Hs. apply next_slot_fresh in Hs. destruct (_ <? _); simplify_eq. lia.
  - destruct (N.ltb_spec (map_fold (λ k _ m, N.max (k + 1) m) 0 slots) (2 ^ 64)); by intros [= <-].
Qed.

Definition get_done {A} (d : A) (o : outcome A) : A := match o with Done a => a | _ => d end.

(** A root group, made current on thread 7, and a child of it. *)
Definition demo1 : t * GroupId.t := get_done (new, 0) (new_root_group new).
Definition demo2 : t := set_current demo1.1 7 demo1.2.
Definition demo3 : t * GroupId.t := get_done (new, 0) (new_group demo2 7).

Lemma last_close_closes_witness :
  (∃ r', try_close demo3.1 false 2 = Done (r', true)) ∧
  (∃ r', try_close demo3.1 false 1 = Done (r', false)).
Proof.
  destruct (last_close_closes 3 demo3.1 [2; 1]) as [_ H].
  - apply (reach_step 2 (mkState demo2 [1])).
    + apply (reach_step 1 (mkState demo1.1 [1])).
      * apply (reach_step 0 (mkState new [])); [apply reach_init|].
        apply (step_new_root_group new []). vm_compute. reflexivity.
      * apply (step_set_current demo1.1 [1] 7 1). left.
    + apply (step_new_group demo2 [1] 7). vm_compute. reflexivity.
  - lia.
  - split; [destruct (H 2 false) as [r' Hr]|destruct (H 1 false) as [r' Hr]];
      [left| |right; left|]; exists r'; rewrite Hr; vm_compute; reflexivity.
Defined.
