(* ===== verification/Worker.v ===== *)
(** * Worker threads (runtime/executor: worker.rs)

    A worker takes tasks from its local queue, its own queue, the global queue
    and the queues of other workers, in this order, until there are none.
    [run] is what running a task does: the tasks it schedules on the local queue
    of the worker and on the global one.  The deques (crossbeam_deque) are a
    parameter: [steal_batch_and_pop] answers the n-th attempt to steal, and
    [StealLaws] says what an answer means for the queues.  [run_inner] has fuel
    for its three loops. *)

From S2P Require Import Prelude.

Inductive Steal (T : Type) :=
| Success (task : T) (from dest : list T)
| Empty
| Retry.
Arguments Success {T}.
Arguments Empty {T}.
Arguments Retry {T}.

Class StealOps (T : Type) := steal_batch_and_pop : nat → list T → list T → Steal T.

(** A batch is taken from the front, into an empty queue; the first task of it is
    returned. *)
Class StealLaws (T : Type) `{StealOps T} := {
  steal_success : ∀ n from task from' dest',
    steal_batch_and_pop n from [] = Success task from' dest' → from = task :: dest' ++ from';
  steal_empty : ∀ n from, steal_batch_and_pop n from [] = Empty → from = [];
}.

(** At most [r] attempts in a row are lost to others. *)
Class StealFair (T : Type) `{StealOps T} (r : nat) :=
  steal_fair : ∀ n from, ∃ k, k ≤ r ∧ steal_batch_and_pop (n + k) from [] ≠ Retry ∧
    ∀ j, j < k → steal_batch_and_pop (n + j) from [] = Retry.

(** ** Backing off

    [for _ in 0..(1 << i) { spin_loop(); i += 1 }] on an [i32], kept as its 32
    bits.  [checks] says whether arithmetic overflow is checked; unchecked, the
    shift uses the low five bits.  [1 << 31] is negative, and its range empty. *)
Definition backoff (checks : bool) (i : N) : outcome N :=
  if checks && (32 <=? i)%N then Panic
  else
    let s := (i `mod` 32)%N in
    Done (wrap 32 (i + (if (s =? 31)%N then 0 else N.shiftl 1 s))).

Module WorkerThread.

Section Queues.

Context {T : Type}.

(** The queues a worker sees: the global one, its own, the one of tasks that must
    stay on this thread, and those of the workers it can steal from. *)
Record t := mk {
  task_queue : list T;
  tasks : list T;
  local_tasks : list T;
  fences : list (list T);
}.

Definition new (task_queue : list T) : t := mk task_queue [] [] [].

Definition schedule_local (self : t) (task : T) : t :=
  mk (task_queue self) (tasks self) (local_tasks self ++ [task]) (fences self).

(** [max_by_key] returns the last of the longest. *)
Definition longer (best : option (nat * nat)) (fence : nat * list T) : option (nat * nat) :=
  match best with
  | Some (j, m) => if m <=? length fence.2 then Some (fence.1, length fence.2) else best
  | None => Some (fence.1, length fence.2)
  end.

Definition select_fence (fences : list (list T)) : option nat :=
  fst <$> foldl longer None (imap pair fences).

Context `{StealOps T} (checks : bool).

(** The tasks of the global queue; [clk] counts the attempts to steal. *)
Fixpoint steal_global (fuel clk : nat) (i : N) (self : t) : outcome (option (T * t) * nat) :=
  match fuel with
  | O => OutOfFuel
  | S fuel =>
      match steal_batch_and_pop clk (task_queue self) (tasks self) with
      | Success task from dest =>
          Done (Some (task, mk from dest (local_tasks self) (fences self)), S clk)
      | Empty => Done (None, S clk)
      | Retry => let! i := backoff checks i in steal_global fuel (S clk) i self
      end
  end.

Fixpoint steal_fences (fuel clk : nat) (self : t) : outcome (option (T * t) * nat) :=
  match fuel with
  | O => OutOfFuel
  | S fuel =>
      match select_fence (fences self) with
      | None => Done (None, clk)
      | Some f =>
          match steal_batch_and_pop clk (default [] (fences self !! f)) (tasks self) with
          | Success task from dest =>
              Done (Some (task, mk (task_queue self) dest (local_tasks self)
                                  (<[f := from]> (fences self))), S clk)
          | Empty => Done (None, S clk)
          | Retry => steal_fences fuel (S clk) self
          end
      end
  end.

(** The condition of the ['work] loop up to running the task it finds. *)
Definition find_task (fuel clk : nat) (self : t) : outcome (option (T * t) * nat) :=
  match local_tasks self with
  | task :: l => Done (Some (task, mk (task_queue self) (tasks self) l (fences self)), clk)
  | [] =>
      match tasks self with
      | task :: l => Done (Some (task, mk (task_queue self) l (local_tasks self) (fences self)), clk)
      | [] =>
          let! (found, clk) := steal_global fuel clk 0 self in
          match found with
          | Some r => Done (Some r, clk)
          | None => steal_fences fuel clk self
          end
      end
  end.

Context (run : T → list T * list T).

Definition run_task (task : T) (self : t) : t :=
  mk (task_queue self ++ (run task).2) (tasks self) (local_tasks self ++ (run task).1) (fences self).

(** The tasks run, in order, and the queues left. *)
Fixpoint run_inner (fuel steals clk : nat) (self : t) : outcome (list T * t * nat) :=
  match fuel with
  | O => OutOfFuel
  | S fuel =>
      let! (found, clk) := find_task steals clk self in
      match found with
      | Some (task, self) =>
          let! (trace, self, clk) := run_inner fuel steals clk (run_task task self) in
          Done (task :: trace, self, clk)
      | None => Done ([], self, clk)
      end
  end.

End Queues.

Arguments t : clear implicits.

End WorkerThread.

(** ** Theorems *)

Import WorkerThread.

(** Retries the backoff survives from [i]. *)
Fixpoint backoffs (checks : bool) (k : nat) (i : N) : outcome N :=
  match k with
  | O => Done i
  | S k => let! i := backoff checks i in backoffs checks k i
  end.

Lemma backoffs_unchecked k i : ∃ i', backoffs false k i = Done i'.
Proof. revert i. induction k as [|k IH]; intros i; simpl; [by eexists|]. apply IH. Qed.

(** Lost races: the counter of the backoff grows inside the spinning loop, so that
    the fifth attempt lost in a row shifts by more than the width of the type, and
    panics where overflow is checked. *)
Lemma backoffs_checked k : (∃ i, backoffs true k 0 = Done i) ↔ k ≤ 4.
Proof.
  split.
  - intros [i Hi]. destruct (decide (k ≤ 4)) as [|Hk]; [done|]. exfalso.
    replace k with (5 + (k - 5)) in Hi by lia. revert Hi. generalize (k - 5). intros m. simpl. done.
  - intros Hk. do 5 (destruct k as [|k]; [vm_compute; eauto|]). lia.
Qed.

Section Fence.

Context {T : Type}.

Definition fence_best (fs : list (list T)) (best : option (nat * nat)) : Prop :=
  match best with
  | Some (j, m) => (∃ l, fs !! j = Some l ∧ length l = m) ∧ Forall (λ l, length l ≤ m) fs
  | None => fs = []
  end.

Lemma longer_best fs best l :
  fence_best fs best → fence_best (fs ++ [l]) (longer best (length fs, l)).
Proof.
  destruct best as [[j m]|]; simpl.
  - intros [(l' & Hl & Hm) Hf]. destruct (Nat.leb_spec m (length l)); simpl.
    + split; [exists l; split; [|done]; by rewrite lookup_app_r, Nat.sub_diag|].
      apply Forall_app. split; [|by constructor]. eapply Forall_impl; [done|]. simpl. lia.
    + split; [exists l'; split; [|done]; by apply lookup_app_l_Some|].
      apply Forall_app. split; [done|]. constructor; [lia|done].
  - intros ->. simpl. split; [by eexists|]. by repeat constructor.
Qed.

Lemma select_fence_spec (fs : list (list T)) :
  match select_fence fs with
  | Some j => ∃ l, fs !! j = Some l ∧ Forall (λ l', length l' ≤ length l) fs
  | None => fs = []
  end.
Proof.
  assert (fence_best fs (foldl longer None (imap pair fs))) as H.
  { induction fs as [|l fs IH] using rev_ind; [done|]. rewrite imap_app, foldl_app. simpl.
    rewrite Nat.add_0_r. by apply longer_best. }
  unfold select_fence.
  destruct (foldl longer None (imap pair fs)) as [[j m]|]; simpl in *; [|done].
  destruct H as [(l & Hl & <-) Hf]. by exists l.
Qed.

End Fence.

Section RunInner.

Context {T : Type} `{StealLaws T} (checks : bool) (r : nat) `{!StealFair T r}.
Context (Hr : checks = true → r ≤ 4).

Lemma backoffs_done k : k ≤ r → ∃ i, backoffs checks k 0 = Done i.
Proof. destruct checks; intros Hk; [apply backoffs_checked; specialize (Hr eq_refl); lia|apply backoffs_unchecked]. Qed.

Definition all_queues (q : t T) : list T :=
  local_tasks q ++ tasks q ++ task_queue q ++ concat (fences q).

(** What finding a task leaves: a task of the queues, the other tasks where they
    were or in the own queue; nothing is found only when there is nothing. *)
Definition found_spec (q : t T) (found : option (T * t T)) : Prop :=
  match found with
  | Some (task, q') => all_queues q ≡ₚ task :: all_queues q' ∧ local_tasks q' = []
  | None => True
  end.

Lemma steal_global_from k fuel clk i q :
  k < fuel → tasks q = [] → local_tasks q = [] → (∃ i', backoffs checks k i = Done i') →
  steal_batch_and_pop (clk + k) (task_queue q) [] ≠ Retry →
  (∀ j, j < k → steal_batch_and_pop (clk + j) (task_queue q) [] = Retry) →
  ∃ found clk', steal_global checks fuel clk i q = Done (found, clk') ∧ found_spec q found ∧
    (found = None → task_queue q = []).
Proof.
  revert fuel clk i. induction k as [|k IH]; intros [|fuel] clk i Hf Ht Hloc [i' Hi] Hn Hj; [lia| |lia|].
  - simpl. rewrite Ht. rewrite Nat.add_0_r in Hn.
    destruct (steal_batch_and_pop clk (task_queue q) []) as [task from dest| |] eqn:Hs; [| |done].
    + do 2 eexists. split; [done|]. split; [|done]. apply steal_success in Hs.
      unfold found_spec, all_queues. simpl. rewrite Hs, Ht, Hloc. split; [|done].
      simpl. by rewrite <-(assoc_L (++)).
    + do 2 eexists. split; [done|]. split; [done|]. intros _. by eapply steal_empty.
  - simpl. rewrite Ht. pose proof (Hj 0 ltac:(lia)) as H0'. rewrite Nat.add_0_r in H0'. rewrite H0'.
    simpl in Hi. destruct (backoff checks i) as [i1| |]; [|done..]. simpl in Hi |- *.
    apply IH; [lia|done|done|by eexists| |].
    + by rewrite <-Nat.add_succ_comm in Hn.
    + intros j Hjk. rewrite Nat.add_succ_comm. apply Hj. lia.
Qed.

Lemma steal_global_spec fuel clk q :
  r < fuel → tasks q = [] → local_tasks q = [] →
  ∃ found clk', steal_global checks fuel clk 0 q = Done (found, clk') ∧ found_spec q found ∧
    (found = None → task_queue q = []).
Proof.
  intros Hf Ht Hl. destruct (steal_fair clk (task_queue q)) as (k & Hk & Hn & Hj).
  apply (steal_global_from k); [lia|done|done|by apply backoffs_done|done|done].
Qed.

Lemma steal_fences_from k fuel clk q f :
  k < fuel → tasks q = [] → local_tasks q = [] → task_queue q = [] →
  select_fence (fences q) = Some f →
  steal_batch_and_pop (clk + k) (default [] (fences q !! f)) [] ≠ Retry →
  (∀ j, j < k → steal_batch_and_pop (clk + j) (default [] (fences q !! f)) [] = Retry) →
  ∃ found clk', steal_fences fuel clk q = Done (found, clk') ∧ found_spec q found ∧
    (found = None → concat (fences q) = []).
Proof.
  revert fuel clk. induction k as [|k IH]; intros [|fuel] clk Hf Ht Hloc Hg Hsel Hn Hj; [lia| |lia|].
  - simpl. rewrite Ht, Hsel. rewrite Nat.add_0_r in Hn.
    pose proof (select_fence_spec (fences q)) as Hspec. rewrite Hsel in Hspec.
    destruct Hspec as (l & Hl & Hmax). rewrite Hl in Hn |- *. simpl in Hn |- *.
    destruct (steal_batch_and_pop clk l []) as [task from dest| |] eqn:Hs; [| |done].
    + do 2 eexists. split; [done|]. split; [|done]. apply steal_success in Hs.
      unfold found_spec, all_queues. simpl. rewrite Ht, Hloc, Hg. simpl. split; [|done].
      rewrite <-(take_drop_middle _ _ _ Hl) at 1. rewrite insert_take_drop by (by eapply lookup_lt_Some).
      rewrite !concat_app. simpl. rewrite Hs. solve_Permutation.
    + do 2 eexists. split; [done|]. split; [done|]. intros _. apply steal_empty in Hs as ->.
      clear -Hmax. induction Hmax as [|x fs Hx Hfs IH]; simpl; [done|].
      destruct x; simpl in *; [done|lia].
  - simpl. rewrite Ht, Hsel. pose proof (Hj 0 ltac:(lia)) as H0'. rewrite Nat.add_0_r in H0'.
    rewrite H0'. apply IH; [lia|done..| |].
    + by rewrite <-Nat.add_succ_comm in Hn.
    + intros j Hjk. rewrite Nat.add_succ_comm. apply Hj. lia.
Qed.

Lemma steal_fences_spec fuel clk q :
  r < fuel → tasks q = [] → local_tasks q = [] → task_queue q = [] →
  ∃ found clk', steal_fences fuel clk q = Done (found, clk') ∧ found_spec q found ∧
    (found = None → concat (fences q) = []).
Proof.
  intros Hf Ht Hl Hg. pose proof (select_fence_spec (fences q)) as Hspec.
  destruct (select_fence (fences q)) as [f|] eqn:Hsel.
  - destruct (steal_fair clk (default [] (fences q !! f))) as (k & Hk & Hn & Hj).
    eapply (steal_fences_from k); eauto. lia.
  - destruct fuel as [|fuel]; [lia|]. simpl. rewrite Hsel. rewrite Hspec. by do 2 eexists.
Qed.

Lemma find_task_spec fuel clk q :
  r < fuel → ∃ found clk', find_task checks fuel clk q = Done (found, clk') ∧
    match found with
    | Some (task, q') => all_queues q ≡ₚ task :: all_queues q' ∧
        (local_tasks q = task :: local_tasks q' ∨ local_tasks q = [] ∧ local_tasks q' = [])
    | None => all_queues q = []
    end.
Proof.
  intros Hf. unfold find_task. destruct (local_tasks q) as [|t0 l] eqn:Hl.
  2: { do 2 eexists. split; [done|]. simpl. split; [|by left]. unfold all_queues. by rewrite Hl. }
  destruct (tasks q) as [|t0 l] eqn:Ht.
  2: { do 2 eexists. split; [done|]. simpl. split; [|by right]. unfold all_queues. by rewrite Hl, Ht. }
  destruct (steal_global_spec fuel clk q Hf Ht Hl) as (found & clk' & -> & Hs & Hnone). simpl.
  destruct found as [[task q']|].
  { do 2 eexists. split; [done|]. simpl in Hs. split; [apply Hs|right; split; [done|apply Hs]]. }
  specialize (Hnone eq_refl).
  destruct (steal_fences_spec fuel clk' q Hf Ht Hl Hnone) as (found & clk'' & -> & Hs' & Hnone').
  do 2 eexists. split; [done|]. destruct found as [[task q']|].
  - simpl in Hs'. split; [apply Hs'|right; split; [done|apply Hs']].
  - unfold all_queues. rewrite Hl, Ht, Hnone, Hnone'; done.
Qed.

(** The tasks a task gives rise to, itself included: a workload that ends. *)
Context (run : T → list T * list T) (desc : T → list T).
Context (Hdesc : ∀ task, desc task ≡ₚ task :: ((run task).1 ≫= desc) ++ ((run task).2 ≫= desc)).

Definition workload (q : t T) : list T := all_queues q ≫= desc.

Lemma run_task_queues task q :
  all_queues (run_task run task q) ≡ₚ all_queues q ++ (run task).1 ++ (run task).2.
Proof. unfold all_queues, run_task. simpl. solve_Permutation. Qed.

Lemma workload_run q q' task :
  all_queues q ≡ₚ task :: all_queues q' → workload q ≡ₚ task :: workload (run_task run task q').
Proof.
  intros Hq. unfold workload. rewrite Hq, run_task_queues, !bind_app, bind_cons, Hdesc.
  simpl. apply perm_skip. solve_Permutation.
Qed.

(** C26: With fuel for one more round than there are tasks, [run_inner] returns: it has
    run every task of every queue and every task these gave rise to exactly once,
    those that were on the local queue first and in order, and leaves all queues
    empty.  Where overflow is checked, at most four attempts in a row to steal may
    be lost. *)
Theorem run_inner_complete fuel steals clk q :
  length (workload q) < fuel → r < steals →
  ∃ trace q' clk', run_inner checks run fuel steals clk q = Done (trace, q', clk') ∧
    all_queues q' = [] ∧ trace ≡ₚ workload q ∧ local_tasks q `prefix_of` trace.
Proof.
  intros Hf Hs. revert clk q Hf. induction fuel as [|fuel IH]; intros clk q Hf; [lia|]. simpl.
  destruct (find_task_spec steals clk q Hs) as (found & clk1 & -> & Hfound). simpl.
  destruct found as [[task q1]|].
  - destruct Hfound as [Hq Hloc]. apply workload_run in Hq as Hw.
    destruct (IH clk1 (run_task run task q1)) as (trace & q2 & clk2 & -> & He & Ht & Hp).
    { rewrite Hw in Hf. simpl in Hf. lia. }
    simpl. do 3 eexists. split; [done|]. split; [done|]. split; [by rewrite Hw, Ht|].
    destruct Hloc as [->|[-> _]]; [|apply prefix_nil].
    apply prefix_cons. etrans; [|apply Hp]. by apply prefix_app_r.
  - do 3 eexists. split; [done|]. split; [done|]. unfold workload.
    rewrite Hfound. split; [done|]. unfold all_queues in Hfound.
    apply app_eq_nil in Hfound as [-> _]. apply prefix_nil.
Qed.

End RunInner.

(** ** A concrete workload

    Every third attempt to steal wins half of the queue; task [n + 1] schedules
    [n] on the local queue and, when odd, [0] on the global one. *)
#[export] Instance third_steal : StealOps nat := λ n from dest,
  if n `mod` 3 =? 2 then
    match from with
    | [] => Empty
    | task :: rest =>
        Success task (drop (length rest / 2) rest) (dest ++ take (length rest / 2) rest)
    end
  else Retry.

#[export] Instance third_steal_laws : StealLaws nat.
Proof.
  split; unfold steal_batch_and_pop, third_steal.
  - intros n [|x from] task from' dest'; destruct (_ =? _); try done.
    intros [= <- <- <-]. simpl. by rewrite take_drop.
  - intros n [|x from]; destruct (_ =? _); done.
Qed.

Lemma third_steal_retry n (from : list nat) :
  steal_batch_and_pop n from [] = Retry ↔ n `mod` 3 ≠ 2.
Proof.
  unfold steal_batch_and_pop, third_steal. destruct (Nat.eqb_spec (n `mod` 3) 2); [|done].
  by destruct from.
Qed.

#[export] Instance third_steal_fair : StealFair nat 2.
Proof.
  intros n from. exists (2 - n `mod` 3).
  pose proof (Nat.mod_upper_bound n 3 ltac:(lia)) as Hb.
  assert (∀ j, j ≤ 2 - n `mod` 3 → (n + j) `mod` 3 = n `mod` 3 + j) as Hm.
  { intros j Hj. pose proof (Nat.div_mod_eq n 3).
    symmetry. apply (Nat.mod_unique _ _ (n / 3)); lia. }
  split; [lia|]. setoid_rewrite third_steal_retry. split.
  - rewrite Hm; lia.
  - intros j Hj. rewrite Hm; lia.
Qed.

Definition demo_run (n : nat) : list nat * list nat :=
  match n with
  | O => ([], [])
  | S m => ([m], if Nat.even n then [] else [0])
  end.

Fixpoint demo_desc (n : nat) : list nat :=
  n :: match n with
       | O => []
       | S m => demo_desc m ++ (if Nat.even n then [] else [0])
       end.

Definition demo_queues : t nat := mk [3; 0] [2] [1; 0] [[0]; [4; 1]].

Lemma run_inner_complete_witness :
  ∃ trace q' clk', run_inner true demo_run 40 3 0 demo_queues = Done (trace, q', clk') ∧
    all_queues q' = [] ∧ trace ≡ₚ workload demo_desc demo_queues ∧ [1; 0] `prefix_of` trace.
Proof.
  apply (run_inner_complete true 2 ltac:(lia) demo_run demo_desc).
  - intros [|n]; [reflexivity|]. simpl.
    destruct (match n with 0 => false | S n' => Nat.even n' end); simpl; rewrite !app_nil_r; reflexivity.
  - vm_compute. lia.
  - lia.
Defined.
