(* ===== verification/Pool.v ===== *)
(** * The thread pool (runtime/executor: thread_manager.rs, worker.rs, and the
      schedule functions of pool.rs)

    [ThreadManager] starts the worker threads and keeps their sleepers.
    [Threads] runs all of them, interleaved at each access to a queue or a parker:
    [advance] is the loop of [WorkerThread::run] and [run_timeout] around
    [run_inner], cut at these accesses.  The tasks a task schedules when it is run,
    and those other threads schedule, are events of their own. *)

From S2P Require Import Prelude Worker.

(** ** The thread manager *)

Inductive Kind := Static | Dynamic.

#[export] Instance Kind_eq_dec : EqDecision Kind.
Proof. solve_decision. Defined.

Module ThreadManager.

(** A sleeper is known by the number of its thread; [parked_threads] is a queue of
    bounded capacity. *)
Record t := mk {
  static_threads : nat;
  dynamic_threads : nat;
  parked_threads : list nat;
  parked_capacity : nat;
  fences : list nat;
  last_frequency : N;
}.

Definition new (num_cpus static_threads : nat) : t :=
  let dynamic_threads := Nat.max 1 (num_cpus - static_threads) in
  mk static_threads dynamic_threads [] (Nat.max 1 (static_threads + dynamic_threads)) [] 0.

Definition increment_frequency (self : t) : t :=
  mk (static_threads self) (dynamic_threads self) (parked_threads self) (parked_capacity self)
     (fences self) (wrap 64 (last_frequency self + 1)).

(** [ArrayQueue::push] followed by [unwrap]. *)
Definition push_parked (self : t) (sleeper : nat) : outcome t :=
  if length (parked_threads self) <? parked_capacity self then
    Done (mk (static_threads self) (dynamic_threads self) (parked_threads self ++ [sleeper])
             (parked_capacity self) (fences self) (last_frequency self))
  else Panic.

(** The threads started, by number; [arrival] is the order in which their sleepers
    arrive. *)
Definition spooled (self : t) : list (nat * Kind) :=
  imap pair (replicate (static_threads self) Static ++ replicate (dynamic_threads self) Dynamic).

Definition initialize (self : t) (arrival : list nat) : outcome (t * list (nat * Kind)) :=
  let! self := for_loop push_parked self arrival in
  Done (self, spooled self).

(** The threads that are woken, and the number returned. *)
Definition unpark_thread (self : t) (num : nat) : t * list nat * nat :=
  (mk (static_threads self) (dynamic_threads self) [] (parked_capacity self)
      (fences self) (last_frequency self),
   parked_threads self, num).

Definition provision_threads (self : t) (n : nat) : t * list nat :=
  let '(self, woken, rem) := unpark_thread self n in (self, woken).

Definition scale_pool (self : t) : t := self.

End ThreadManager.

(** [Spooler::new]: two static threads. *)
Module Spooler.

Definition new (num_cpus : nat) (arrival : list nat) : outcome (ThreadManager.t * list (nat * Kind)) :=
  ThreadManager.initialize (ThreadManager.new num_cpus 2) arrival.

End Spooler.

(** ** The threads *)

(** Where a worker is in its loop: about to look at its local queue, at its own
    queue, at the global queue, about to park, parked. *)
Inductive Pc := AtLocal | AtOwn | AtGlobal | AtPark | Parked.

#[export] Instance Pc_eq_dec : EqDecision Pc.
Proof. solve_decision. Defined.

Section Threads.

Context {T : Type}.

(** [token] is the one of the parker; [waking] counts the calls of the local
    schedule function that have pushed their task and not yet unparked. *)
Record Thread := mkThread {
  kind : Kind;
  pc : Pc;
  token : bool;
  local_tasks : list T;
  tasks : list T;
  waking : nat;
}.

Definition goto (w : Thread) (p : Pc) : Thread :=
  mkThread (kind w) p (token w) (local_tasks w) (tasks w) (waking w).

Record Threads := mkThreads {
  task_queue : list T;
  threads : list Thread;
  ran : list T;
}.

(** One access of a worker: the worker, the global queue, and the task it runs.
    [batch] is how many tasks it steals beside the one it runs, [timeout] whether
    [park_timeout] ends; there are no fences to steal from. *)
Definition advance (timeout : bool) (batch : nat) (w : Thread) (queue : list T)
  : option (Thread * list T * list T) :=
  match pc w with
  | AtLocal =>
      match local_tasks w with
      | task :: l => Some (mkThread (kind w) AtLocal (token w) l (tasks w) (waking w), queue, [task])
      | [] => Some (goto w AtOwn, queue, [])
      end
  | AtOwn =>
      match tasks w with
      | task :: l =>
          Some (mkThread (kind w) AtLocal (token w) (local_tasks w) l (waking w), queue, [task])
      | [] => Some (goto w AtGlobal, queue, [])
      end
  | AtGlobal =>
      match queue with
      | task :: rest =>
          Some (mkThread (kind w) AtLocal (token w) (local_tasks w) (take batch rest) (waking w),
                drop batch rest, [task])
      | [] => Some (goto w AtPark, queue, [])
      end
  | AtPark | Parked =>
      if token w then
        Some (mkThread (kind w) AtLocal false (local_tasks w) (tasks w) (waking w), queue, [])
      else
        match pc w, kind w with
        | AtPark, _ => Some (goto w Parked, queue, [])
        | _, Static => if timeout then Some (goto w AtLocal, queue, []) else None
        | _, _ => None
        end
  end.

(** The closure of [schedule_local]: the push and the unpark. *)
Definition push_local (w : Thread) (task : T) : Thread :=
  mkThread (kind w) (pc w) (token w) (local_tasks w ++ [task]) (tasks w) (S (waking w)).

Definition unpark (w : Thread) : option Thread :=
  match waking w with
  | O => None
  | S n => Some (mkThread (kind w) (pc w) true (local_tasks w) (tasks w) n)
  end.

Inductive Event :=
| Schedule (task : T)
| ScheduleLocal (i : nat) (task : T)
| Unpark (i : nat)
| Advance (i : nat) (timeout : bool) (batch : nat).

(** [Executor::schedule]: the closure only pushes. *)
Definition schedule (s : Threads) (task : T) : Threads :=
  mkThreads (task_queue s ++ [task]) (threads s) (ran s).

Definition exec (s : Threads) (e : Event) : option Threads :=
  match e with
  | Schedule task => Some (schedule s task)
  | ScheduleLocal i task =>
      w ← threads s !! i;
      Some (mkThreads (task_queue s) (<[i := push_local w task]> (threads s)) (ran s))
  | Unpark i =>
      w ← threads s !! i; w' ← unpark w;
      Some (mkThreads (task_queue s) (<[i := w']> (threads s)) (ran s))
  | Advance i timeout batch =>
      w ← threads s !! i;
      '(w', queue, run) ← advance timeout batch w (task_queue s);
      Some (mkThreads queue (<[i := w']> (threads s)) (ran s ++ run))
  end.

Fixpoint exec_all (s : Threads) (l : list Event) : option Threads :=
  match l with
  | [] => Some s
  | e :: l => s' ← exec s e; exec_all s' l
  end.

(** The workers as they are started. *)
Definition start (kinds : list Kind) : Threads :=
  mkThreads [] ((λ k, mkThread k AtLocal false [] [] 0) <$> kinds) [].

End Threads.

Arguments Thread : clear implicits.
Arguments Threads : clear implicits.
Arguments Event : clear implicits.

(** ** Theorems: the thread manager *)

Lemma push_all_parked (m : ThreadManager.t) l :
  length (ThreadManager.parked_threads m) + length l ≤ ThreadManager.parked_capacity m →
  for_loop ThreadManager.push_parked m l =
  Done (ThreadManager.mk (ThreadManager.static_threads m) (ThreadManager.dynamic_threads m)
    (ThreadManager.parked_threads m ++ l) (ThreadManager.parked_capacity m)
    (ThreadManager.fences m) (ThreadManager.last_frequency m)).
Proof.
  revert m. induction l as [|x l IH]; intros [st dy pt cap fe fr] Hlen; simpl in *.
  - by rewrite app_nil_r.
  - unfold ThreadManager.push_parked at 1. simpl. destruct (Nat.ltb_spec (length pt) cap); [|lia].
    simpl. rewrite IH by (simpl; rewrite length_app; simpl; lia). simpl. by rewrite <-app_assoc.
Qed.

(** Starting the pool never fails for want of room for a sleeper: in whatever
    order the threads report, all of them are kept, there is at least one dynamic
    thread beside the static ones, and with more processors than static threads
    there are as many threads as processors. *)
Theorem initialize_starts_all cpus static arrival :
  arrival ≡ₚ seq 0 (static + Nat.max 1 (cpus - static)) →
  ∃ m, ThreadManager.initialize (ThreadManager.new cpus static) arrival =
         Done (m, ThreadManager.spooled m) ∧
    ThreadManager.parked_threads m = arrival ∧
    ThreadManager.fences m = [] ∧
    length (ThreadManager.spooled m) = Nat.max (S static) cpus ∧
    (ThreadManager.spooled m).*2 = replicate static Static ++ replicate (Nat.max 1 (cpus - static)) Dynamic.
Proof.
  intros Ha. apply Permutation_length in Ha as Hlen. rewrite length_seq in Hlen.
  unfold ThreadManager.initialize. rewrite push_all_parked by (simpl; lia). cbn [outcome_bind].
  eexists. split; [done|]. repeat split; simpl.
  - unfold ThreadManager.spooled. simpl. rewrite length_imap, length_app, !length_replicate. lia.
  - unfold ThreadManager.spooled. simpl. rewrite fmap_imap.
    etrans; [by apply (imap_ext _ (λ _ k, k))|]. etrans; [apply (imap_const id)|]. apply list_fmap_id.
Qed.

Lemma initialize_starts_all_witness :
  ∃ m, ThreadManager.initialize (ThreadManager.new 4 2) [2; 0; 3; 1] =
    Done (m, ThreadManager.spooled m) ∧ length (ThreadManager.spooled m) = 4.
Proof.
  destruct (initialize_starts_all 4 2 [2; 0; 3; 1]) as (m & Hm & _ & _ & Hl & _).
  - simpl. apply NoDup_Permutation; [apply (bool_decide_unpack _); vm_compute; exact I..|].
    intros x. rewrite !elem_of_cons, !elem_of_nil. lia.
  - exists m. split; [exact Hm|exact Hl].
Defined.

(** ** Theorems: the threads *)

Section Proofs.

Context {T : Type}.

Implicit Types (s : Threads T) (w : Thread T) (e : Event T).

Record thread_inv w : Prop := {
  ti_local : pc w = AtLocal ∨ local_tasks w = [] ∨ token w = true ∨ 0 < waking w;
  ti_own : pc w = AtLocal ∨ pc w = AtOwn ∨ tasks w = [];
}.

Definition threads_inv s : Prop := Forall thread_inv (threads s).

Definition mine w : list T := local_tasks w ++ tasks w.
Definition queued s : list T := task_queue s ++ (threads s ≫= mine).

Definition given e : list T :=
  match e with
  | Schedule task | ScheduleLocal _ task => [task]
  | _ => []
  end.

Lemma pool_start_inv kinds : threads_inv (start kinds).
Proof.
  apply Forall_fmap, Forall_true. intros k. split; simpl; auto.
Qed.

Lemma start_idle kinds : queued (start kinds) = [].
Proof. unfold queued. simpl. induction kinds; [done|]. by rewrite fmap_cons, bind_cons. Qed.

Lemma advance_inv timeout batch w q w' q' run :
  advance timeout batch w q = Some (w', q', run) → thread_inv w →
  thread_inv w' ∧ run ++ mine w' ++ q' ≡ₚ mine w ++ q.
Proof.
  unfold advance, mine. intros Ha [Hl Ho]. destruct w as [k p tk l o wk]; simpl in *.
  repeat (case_match; simpl in *; simplify_eq);
    (split; [split; simpl; naive_solver|]); simpl; rewrite ?take_drop; try done.
  all: try solve_Permutation.
  destruct Ho as [?|[?| ->]]; [done..|].
  rewrite <-app_assoc, take_drop, app_nil_r. apply Permutation_middle.
Qed.

Lemma mine_insert (ts : list (Thread T)) i w w' :
  ts !! i = Some w → (<[i := w']> ts ≫= mine) ++ mine w ≡ₚ (ts ≫= mine) ++ mine w'.
Proof.
  intros Hi. rewrite <-(take_drop_middle _ _ _ Hi) at 2.
  rewrite insert_take_drop by (by eapply lookup_lt_Some).
  rewrite !bind_app, !bind_cons. solve_Permutation.
Qed.

Lemma pool_exec_inv s e s' :
  exec s e = Some s' → threads_inv s →
  threads_inv s' ∧ ran s' ++ queued s' ≡ₚ ran s ++ queued s ++ given e.
Proof.
  unfold exec, threads_inv, queued. intros He Hinv.
  destruct e as [task|i task|i|i timeout batch]; simpl in *.
  - simplify_eq. simpl. split; [done|]. solve_Permutation.
  - destruct (threads s !! i) as [w|] eqn:Hi; simplify_option_eq. split.
    + apply Forall_insert; [done|]. pose proof (proj1 (Forall_lookup _ _) Hinv _ _ Hi) as [Hl Ho].
      split; simpl; [|done]. right; right; right. lia.
    + apply (Permutation_app_inv_r (mine w)).
      pose proof (mine_insert _ _ _ (push_local w task) Hi) as Hm.
      rewrite <-!(assoc_L (++)), Hm. unfold mine. simpl. solve_Permutation.
  - destruct (threads s !! i) as [w|] eqn:Hi; simplify_option_eq.
    unfold unpark in *. destruct (waking w) eqn:Hw; simplify_eq. split.
    + apply Forall_insert; [done|]. pose proof (proj1 (Forall_lookup _ _) Hinv _ _ Hi) as [Hl Ho].
      split; simpl; auto.
    + rewrite !app_nil_r. do 2 f_equiv. apply (Permutation_app_inv_r (mine w)).
      by rewrite (mine_insert _ _ _ _ Hi).
  - destruct (threads s !! i) as [w|] eqn:Hi; simplify_option_eq.
    destruct (advance timeout batch w (task_queue s)) as [[[w' q] run]|] eqn:Ha; simplify_option_eq.
    apply advance_inv in Ha as [Hw Hq]; [|by apply (proj1 (Forall_lookup _ _) Hinv _ _ Hi)]. split.
    + by apply Forall_insert.
    + apply (Permutation_app_inv_r (mine w)).
      rewrite <-!(assoc_L (++)), (mine_insert _ _ _ w' Hi). simpl.
      transitivity (ran s ++ (threads s ≫= mine) ++ (run ++ mine w' ++ q)); [solve_Permutation|].
      rewrite Hq. solve_Permutation.
Qed.

Lemma pool_exec_all_inv s l s' :
  exec_all s l = Some s' → threads_inv s →
  threads_inv s' ∧ ran s' ++ queued s' ≡ₚ ran s ++ queued s ++ (l ≫= given).
Proof.
  revert s. induction l as [|e l IH]; intros s; simpl.
  - intros [= ->] Hinv. split; [done|]. by rewrite app_nil_r.
  - destruct (exec s e) as [s1|] eqn:He; [|done]. simpl. intros Hs Hinv.
    apply pool_exec_inv in He as [Hinv1 Hp]; [|done]. apply IH in Hs as [Hinv' Hp']; [|done].
    split; [done|]. rewrite Hp'. transitivity ((ran s1 ++ queued s1) ++ (l ≫= given)); [solve_Permutation|].
    rewrite Hp. solve_Permutation.
Qed.

(** C24: Whatever the threads do, in whatever order: every task that was scheduled is in
    exactly one queue, or has been run once; and a worker that has gone past its
    local queue with a task on it has been unparked or is about to be, so that no
    local task waits for a worker that sleeps. *)
Theorem pool_loses_nothing kinds l s :
  exec_all (start kinds) l = Some s →
  ran s ++ queued s ≡ₚ (l ≫= given) ∧
  ∀ i w, threads s !! i = Some w → pc w = Parked →
    tasks w = [] ∧ (local_tasks w = [] ∨ token w = true ∨ 0 < waking w).
Proof.
  intros Hs. apply pool_exec_all_inv in Hs as [Hinv Hp]; [|apply pool_start_inv]. split.
  - by rewrite Hp, start_idle.
  - intros i w Hi Hpc. destruct (proj1 (Forall_lookup _ _) Hinv _ _ Hi) as [Hl Ho].
    rewrite Hpc in *. split; [by destruct Ho as [?|[?|?]]|by destruct Hl].
Qed.

(** *** Progress *)

(** What happens on worker [i] alone: its own accesses, and the end of calls of its
    schedule function. *)
Definition about (i : nat) e : Prop :=
  match e with
  | Unpark j | Advance j _ _ => j = i
  | _ => False
  end.

Definition runs (i : nat) s s' : Prop := ∃ l, Forall (about i) l ∧ exec_all s l = Some s'.

Lemma runs_refl i s : runs i s s.
Proof. by exists []. Qed.

Lemma exec_all_app s l k : exec_all s (l ++ k) = s' ← exec_all s l; exec_all s' k.
Proof. revert s. induction l as [|e l IH]; intros s; simpl; [done|]. by destruct (exec s e); simpl. Qed.

Lemma runs_trans i s1 s2 s3 : runs i s1 s2 → runs i s2 s3 → runs i s1 s3.
Proof.
  intros (l & Hl & E1) (k & Hk & E2). exists (l ++ k). rewrite Forall_app, exec_all_app, E1.
  done.
Qed.

Lemma runs_advance i s w timeout batch w' q run :
  threads s !! i = Some w → advance timeout batch w (task_queue s) = Some (w', q, run) →
  runs i s (mkThreads q (<[i := w']> (threads s)) (ran s ++ run)).
Proof.
  intros Hi Ha. exists [Advance i timeout batch]. split; [by repeat constructor|].
  simpl. rewrite Hi. simpl. by rewrite Ha.
Qed.

(** The work worker [i] can reach: what it has run, its queues, the global one. *)
Definition reachable_work s w : list T := ran s ++ mine w ++ task_queue s.

(** From [s] worker [i] alone gets to [s'] and [w'], running what it takes. *)
Definition moves (i : nat) s w s' w' : Prop :=
  runs i s s' ∧ threads s' !! i = Some w' ∧ kind w' = kind w ∧
  reachable_work s' w' ≡ₚ reachable_work s w.

Lemma moves_trans i s1 w1 s2 w2 s3 w3 :
  moves i s1 w1 s2 w2 → moves i s2 w2 s3 w3 → moves i s1 w1 s3 w3.
Proof.
  intros (R1 & _ & K1 & P1) (R2 & L2 & K2 & P2). split; [by eapply runs_trans|].
  split; [done|]. split; [by rewrite K2|by rewrite P2].
Qed.

Lemma moves_advance i s w timeout batch w' q run :
  thread_inv w → threads s !! i = Some w →
  advance timeout batch w (task_queue s) = Some (w', q, run) → kind w' = kind w →
  ∃ s', moves i s w s' w' ∧ task_queue s' = q.
Proof.
  intros Hw Hi Ha Hk. eexists. split; [split; [by eapply runs_advance|]|done]. simpl.
  split; [by apply list_lookup_insert_eq; eapply lookup_lt_Some|]. split; [done|].
  apply advance_inv in Ha as [_ Hp]; [|done]. unfold reachable_work. simpl.
  rewrite <-(assoc_L (++)), Hp. done.
Qed.

(** From the top of its loop a worker empties its queues and the global one. *)
Lemma drains n i s w :
  thread_inv w → threads s !! i = Some w → pc w = AtLocal → length (mine w ++ task_queue s) ≤ n →
  ∃ s' w', moves i s w s' w' ∧ mine w' = [] ∧ task_queue s' = [].
Proof.
  revert s w. induction n as [n IH] using lt_wf_ind. intros s w Hw Hi Hpc Hn.
  destruct w as [k p tk l o wk]. simpl in Hpc. subst p. unfold mine in *; simpl in Hn.
  destruct l as [|task l].
  2: { destruct (moves_advance i s _ false 0 (mkThread k AtLocal tk l o wk) _ _ Hw Hi eq_refl eq_refl)
         as (s1 & Hm & Hq). simpl in Hn.
       destruct (IH (n - 1) ltac:(lia) s1 (mkThread k AtLocal tk l o wk)) as (s' & w' & Hm' & He);
         [by split; simpl; auto|apply Hm|done|rewrite Hq; simpl; lia|].
       exists s', w'. split; [by eapply moves_trans|done]. }
  destruct (moves_advance i s _ false 0 (mkThread k AtOwn tk [] o wk) _ _ Hw Hi eq_refl eq_refl)
    as (s1 & Hm1 & Hq1). assert (thread_inv (mkThread k AtOwn tk [] o wk)) as Hw1 by (split; simpl; auto).
  destruct o as [|task o].
  2: { destruct (moves_advance i s1 _ false 0 (mkThread k AtLocal tk [] o wk) _ _ Hw1 (proj1 (proj2 Hm1)) eq_refl eq_refl)
         as (s2 & Hm2 & Hq2). simpl in Hn.
       destruct (IH (n - 1) ltac:(lia) s2 (mkThread k AtLocal tk [] o wk)) as (s' & w' & Hm' & He);
         [by split; simpl; auto|apply Hm2|done|rewrite Hq2, Hq1; simpl; lia|].
       exists s', w'. split; [eapply moves_trans; [done|by eapply moves_trans]|done]. }
  destruct (moves_advance i s1 _ false 0 (mkThread k AtGlobal tk [] [] wk) _ _ Hw1 (proj1 (proj2 Hm1)) eq_refl eq_refl)
    as (s2 & Hm2 & Hq2). assert (thread_inv (mkThread k AtGlobal tk [] [] wk)) as Hw2 by (split; simpl; auto).
  pose proof (moves_trans _ _ _ _ _ _ _ Hm1 Hm2) as Hm12. rewrite Hq1 in Hq2.
  destruct (task_queue s) as [|task q] eqn:Hts.
  { exists s2, (mkThread k AtGlobal tk [] [] wk). done. }
  assert (advance false 0 (mkThread k AtGlobal tk [] [] wk) (task_queue s2) =
    Some (mkThread k AtLocal tk [] [] wk, q, [task])) as Ha by (rewrite Hq2; done).
  destruct (moves_advance i s2 _ _ _ _ _ _ Hw2 (proj1 (proj2 Hm2)) Ha eq_refl) as (s3 & Hm3 & Hq3).
  simpl in Hn. destruct (IH (n - 1) ltac:(lia) s3 (mkThread k AtLocal tk [] [] wk)) as (s' & w' & Hm' & He);
    [by split; simpl; auto|apply Hm3|done|rewrite Hq3; simpl; lia|].
  exists s', w'. split; [eapply moves_trans; [apply Hm12|by eapply moves_trans]|done].
Qed.

(** A worker that can wake up gets back to the top of its loop. *)
Definition can_wake w : Prop := kind w = Static ∨ token w = true ∨ 0 < waking w.

Lemma wakes i s w :
  thread_inv w → threads s !! i = Some w → pc w = AtPark ∨ pc w = Parked → can_wake w →
  ∃ s' w', moves i s w s' w' ∧ thread_inv w' ∧ pc w' = AtLocal.
Proof.
  intros Hw Hi Hpc Hc. destruct w as [k p tk l o wk]; unfold can_wake in Hc; simpl in *.
  assert (∀ s w, thread_inv w → threads s !! i = Some w → pc w = AtPark ∨ pc w = Parked →
    token w = true → ∃ s' w', moves i s w s' w' ∧ thread_inv w' ∧ pc w' = AtLocal) as Htok.
  { clear. intros s [k p tk l o wk] Hw Hi Hpc Ht. simpl in *. subst tk.
    destruct (moves_advance i s _ false 0 (mkThread k AtLocal false l o wk) (task_queue s) [] Hw Hi)
      as (s' & Hm & _); [by destruct Hpc as [-> | ->]|done|].
    do 2 eexists. split; [done|]. split; [by split; simpl; auto|done]. }
  destruct tk; [by eapply Htok|]. destruct wk as [|wk].
  - destruct Hc as [->|[?|?]]; [|done|lia].
    assert (∀ s w, thread_inv w → threads s !! i = Some w → pc w = Parked → kind w = Static →
      token w = false → ∃ s' w', moves i s w s' w' ∧ thread_inv w' ∧ pc w' = AtLocal) as Htime.
    { clear. intros s [k p tk l o wk] Hw Hi Hpc Hk Ht. simpl in *. subst p k tk.
      destruct (moves_advance i s _ true 0 (mkThread Static AtLocal false l o wk) (task_queue s) [] Hw Hi)
        as (s' & Hm & _); [done..|]. do 2 eexists. split; [done|]. split; [by split; simpl; auto|done]. }
    destruct Hpc as [->| ->]; [|by eapply Htime].
    destruct (moves_advance i s _ false 0 (mkThread Static Parked false l o 0) (task_queue s) [] Hw Hi)
      as (s1 & Hm1 & _); [done..|].
    destruct (Htime s1 (mkThread Static Parked false l o 0)) as (s' & w' & Hm & Hr);
      [by destruct Hw as [[?|?] [?|[?|?]]]; split; simpl in *; auto|apply Hm1|done..|].
    exists s', w'. split; [by eapply moves_trans|done].
  - set (w1 := mkThread k p true l o wk).
    set (s1 := mkThreads (task_queue s) (<[i := w1]> (threads s)) (ran s)).
    assert (moves i s (mkThread k p false l o (S wk)) s1 w1) as Hm1.
    { split; [|split; [|done]].
      - exists [Unpark i]. split; [by repeat constructor|]. simpl. rewrite Hi. done.
      - simpl. apply list_lookup_insert_eq. by eapply lookup_lt_Some. }
    destruct (Htok s1 w1) as (s' & w' & Hm & Hr);
      [destruct Hw; split; simpl in *; auto|apply Hm1|done|done|].
    exists s', w'. split; [by eapply moves_trans|done].
Qed.

Lemma to_top i s w :
  thread_inv w → threads s !! i = Some w → can_wake w →
  ∃ s' w', moves i s w s' w' ∧ thread_inv w' ∧ (pc w' = AtLocal ∨ pc w' = AtPark ∨ pc w' = Parked) ∧
    (pc w' = AtLocal ∨ can_wake w').
Proof.
  intros Hw Hi Hc. destruct w as [k p tk l o wk]; unfold can_wake in *; simpl in *.
  assert (∀ s w, thread_inv w → threads s !! i = Some w → pc w = AtGlobal → can_wake w →
    ∃ s' w', moves i s w s' w' ∧ thread_inv w' ∧ (pc w' = AtLocal ∨ pc w' = AtPark ∨ pc w' = Parked) ∧
    (pc w' = AtLocal ∨ can_wake w')) as Hglob.
  { clear. intros s [k p tk l o wk] Hw Hi Hpc Hc. simpl in *. subst p.
    destruct (task_queue s) as [|task q] eqn:Hq.
    - destruct (moves_advance i s _ false 0 (mkThread k AtPark tk l o wk) [] [] Hw Hi)
        as (s' & Hm & _); [by rewrite Hq|done|]. do 2 eexists. split; [done|].
      split; [destruct Hw as [[?|?] [?|[?|?]]]; split; simpl in *; auto; done|]. simpl. auto.
    - destruct (moves_advance i s _ false 0 (mkThread k AtLocal tk l [] wk) q [task] Hw Hi)
        as (s' & Hm & _); [by rewrite Hq|done|]. do 2 eexists. split; [done|].
      split; [by split; simpl; auto|]. simpl. auto. }
  destruct p.
  - do 2 eexists. split; [split; [apply runs_refl|done]|]. simpl. auto.
  - destruct o as [|task o].
    + destruct (moves_advance i s _ false 0 (mkThread k AtGlobal tk l [] wk) (task_queue s) [] Hw Hi)
        as (s1 & Hm & _); [done..|].
      destruct (Hglob s1 (mkThread k AtGlobal tk l [] wk)) as (s' & w' & Hm' & Hr);
        [destruct Hw as [[?|?] ?]; split; simpl in *; auto; done|apply Hm|done|done|].
      exists s', w'. split; [by eapply moves_trans|done].
    + destruct (moves_advance i s _ false 0 (mkThread k AtLocal tk l o wk) (task_queue s) [task] Hw Hi)
        as (s1 & Hm & _); [done..|]. do 2 eexists. split; [done|].
      split; [by split; simpl; auto|]. simpl. auto.
  - by eapply Hglob.
  - do 2 eexists. split; [split; [apply runs_refl|done]|]. simpl. auto.
  - do 2 eexists. split; [split; [apply runs_refl|done]|]. simpl. auto.
Qed.

(** No task waits for ever for want of a worker: from every state the threads can
    reach, every static worker, and every worker with a local task, can on its own
    (by its accesses, its timeout, and unparks already under way) run everything on
    its queues and on the global queue. *)
Theorem pool_serves kinds l s i w :
  exec_all (start kinds) l = Some s →
  threads s !! i = Some w → kind w = Static ∨ local_tasks w ≠ [] →
  ∃ s' w', runs i s s' ∧ threads s' !! i = Some w' ∧ mine w' = [] ∧ task_queue s' = [] ∧
    ran s' ≡ₚ ran s ++ mine w ++ task_queue s.
Proof.
  intros Hs Hi Hk. apply pool_exec_all_inv in Hs as [Hinv _]; [|apply pool_start_inv].
  pose proof (proj1 (Forall_lookup _ _) Hinv _ _ Hi) as Hw.
  assert (∃ s1 w1, moves i s w s1 w1 ∧ thread_inv w1 ∧ pc w1 = AtLocal) as (s1 & w1 & Hm1 & Hw1 & Hpc1).
  { destruct (decide (pc w = AtLocal)) as [Hpc|Hpc].
    { exists s, w. split; [split; [apply runs_refl|done]|done]. }
    destruct (to_top i s w Hw Hi) as (s1 & w1 & Hm1 & Hw1 & Hpc1 & Hc1).
    { unfold can_wake. destruct Hk as [?|Hk]; [by left|]. destruct Hw as [[?|[?|?]] _]; naive_solver. }
    destruct (decide (pc w1 = AtLocal)) as [?|Hn]; [by exists s1, w1|].
    destruct (wakes i s1 w1 Hw1) as (s2 & w2 & Hm2 & Hr); [apply Hm1|naive_solver..|].
    exists s2, w2. split; [by eapply moves_trans|done]. }
  destruct (drains _ i s1 w1 Hw1 (proj1 (proj2 Hm1)) Hpc1 (le_n _)) as (s2 & w2 & Hm2 & He & Hq).
  destruct (moves_trans _ _ _ _ _ _ _ Hm1 Hm2) as (Hr & Hi2 & _ & Hp).
  exists s2, w2. repeat split; try done. unfold reachable_work in Hp.
  rewrite He, Hq, !app_nil_r in Hp. done.
Qed.

(** *** Dynamic workers *)

(** A dynamic worker that sleeps, and that nobody is about to unpark, sleeps on,
    whatever is pushed to the global queue, until a task is scheduled on its own
    thread. *)
Theorem dynamic_worker_asleep s l s' i w :
  exec_all s l = Some s' → threads s !! i = Some w →
  kind w = Dynamic → pc w = Parked → token w = false → waking w = 0 →
  Forall (λ e, ∀ task, e ≠ ScheduleLocal i task) l →
  threads s' !! i = Some w.
Proof.
  intros Hs Hi Hk Hpc Ht Hwk Hl. revert s Hs Hi.
  induction Hl as [|e l He Hl IH]; intros s Hs Hi; simpl in Hs; [by simplify_eq|].
  destruct (exec s e) as [s1|] eqn:He1; [|done]. apply (IH s1 Hs). clear IH Hs.
  destruct e as [task|j task|j|j timeout batch]; simpl in He1; simplify_option_eq.
  - done.
  - simpl. rewrite list_lookup_insert_ne; [done|]. intros ->. by eapply He.
  - simpl. destruct (decide (j = i)) as [->|]; [|by rewrite list_lookup_insert_ne].
    simplify_eq. unfold unpark in *. by rewrite Hwk in *.
  - destruct (decide (j = i)) as [->|].
    + simplify_eq. unfold advance in *. rewrite Hpc, Ht, Hk in *. done.
    + destruct (advance _ _ _ _) as [[[w' q] run]|]; simplify_option_eq.
      simpl. by rewrite list_lookup_insert_ne.
Qed.

End Proofs.

(** ** A worker that nobody interrupts

    The pool's [advance], one access after the other, is the loop [run_inner] of
    Worker without fences. *)

Section Alone.

Context {T : Type} `{StealLaws T} (checks : bool) (run : T → list T * list T).

Implicit Types (s : Threads T) (w : Thread T) (q : WorkerThread.t T).

(** The queues of the pool as the worker [w] sees them. *)
Definition seen s w : WorkerThread.t T := WorkerThread.mk (task_queue s) (tasks w) (local_tasks w) [].

(** What running a task schedules. *)
Definition scheduled i (out : list T * list T) : list (Event T) :=
  (out.1 ≫= λ task, [ScheduleLocal i task; Unpark i]) ++ (Schedule <$> out.2).

Lemma exec_local i l s w :
  threads s !! i = Some w →
  ∃ w', exec_all s (l ≫= λ task, [ScheduleLocal i task; Unpark i]) =
      Some (mkThreads (task_queue s) (<[i := w']> (threads s)) (ran s)) ∧
    pc w' = pc w ∧ local_tasks w' = local_tasks w ++ l ∧ tasks w' = tasks w ∧
    kind w' = kind w ∧ waking w' = waking w.
Proof.
  revert s w. induction l as [|x l IH]; intros s w Hi.
  { exists w. rewrite app_nil_r, list_insert_id by done. by destruct s. }
  rewrite bind_cons. cbn [app exec_all exec mbind option_bind]. rewrite Hi. cbn [mbind option_bind threads].
  rewrite list_lookup_insert_eq by (by eapply lookup_lt_Some). cbn [mbind option_bind unpark push_local waking].
  destruct (IH (mkThreads (task_queue s) (<[i := mkThread (kind w) (pc w) true (local_tasks w ++ [x])
      (tasks w) (waking w)]> (<[i := push_local w x]> (threads s))) (ran s))
    (mkThread (kind w) (pc w) true (local_tasks w ++ [x]) (tasks w) (waking w)))
    as (w' & Hw & Hp & Hl & Ht & Hk & Hwk).
  { cbn. rewrite list_lookup_insert_eq; [done|]. rewrite length_insert. by eapply lookup_lt_Some. }
  exists w'. cbn in *. rewrite Hw, !list_insert_insert_eq, Hl, <- app_assoc. done.
Qed.

Lemma exec_global l s :
  exec_all s (Schedule <$> l) = Some (mkThreads (task_queue s ++ l) (threads s) (ran s)).
Proof.
  revert s. induction l as [|x l IH]; intros s; cbn; [by rewrite app_nil_r; destruct s|].
  rewrite IH. cbn. by rewrite <- app_assoc.
Qed.

(** A task is run: the worker is back at the top. *)
Lemma exec_scheduled i out s w :
  threads s !! i = Some w →
  ∃ w', exec_all s (scheduled i out) =
      Some (mkThreads (task_queue s ++ out.2) (<[i := w']> (threads s)) (ran s)) ∧
    pc w' = pc w ∧ local_tasks w' = local_tasks w ++ out.1 ∧ tasks w' = tasks w.
Proof.
  intros Hi. unfold scheduled. rewrite exec_all_app.
  destruct (exec_local i out.1 s w Hi) as (w' & -> & Hp & Hl & Ht & _). exists w'.
  cbn [mbind option_bind]. by rewrite exec_global.
Qed.

Lemma steal_global_found fuel clk j q found clk' :
  WorkerThread.steal_global checks fuel clk j q = Done (found, clk') → WorkerThread.tasks q = [] →
  match found with
  | Some (task, q') => WorkerThread.task_queue q = task :: WorkerThread.tasks q' ++ WorkerThread.task_queue q' ∧
      WorkerThread.local_tasks q' = WorkerThread.local_tasks q ∧ WorkerThread.fences q' = WorkerThread.fences q
  | None => WorkerThread.task_queue q = []
  end.
Proof.
  revert clk j. induction fuel as [|fuel IH]; intros clk j Hs Ht; [done|]. cbn in Hs. rewrite Ht in Hs.
  destruct (steal_batch_and_pop clk (WorkerThread.task_queue q) []) as [task from dest| |] eqn:Hb.
  - simplify_eq. cbn. by apply steal_success in Hb.
  - simplify_eq. by eapply steal_empty.
  - apply outcome_bind_Done in Hs as (j' & _ & Hs). by eapply IH.
Qed.

(** Events of the worker [i]: its own accesses, and what the tasks it runs
    schedule. *)
Definition of_worker i (e : Event T) : Prop :=
  match e with
  | Advance j _ _ | ScheduleLocal j _ | Unpark j => j = i
  | Schedule _ => True
  end.

Definition advances (e : Event T) : Prop := match e with Advance _ _ _ => True | _ => False end.

Lemma exec_advance i s w timeout batch w' queue out :
  threads s !! i = Some w → advance timeout batch w (task_queue s) = Some (w', queue, out) →
  exec s (Advance i timeout batch) = Some (mkThreads queue (<[i := w']> (threads s)) (ran s ++ out)).
Proof. intros Hi Ha. cbn. rewrite Hi. cbn. by rewrite Ha. Qed.

(** The worker, looking for a task: the accesses it makes. *)
Lemma exec_find i s w fuel clk found clk' :
  threads s !! i = Some w → pc w = AtLocal →
  WorkerThread.find_task checks fuel clk (seen s w) = Done (found, clk') →
  ∃ l s' w', exec_all s l = Some s' ∧ Forall (of_worker i) l ∧ Forall advances l ∧
    threads s' = <[i := w']> (threads s) ∧
    match found with
    | Some (task, q) => seen s' w' = q ∧ pc w' = AtLocal ∧ ran s' = ran s ++ [task]
    | None => seen s' w' = seen s w ∧ pc w' = AtPark ∧ ran s' = ran s ∧ mine w' = []
    end.
Proof.
  intros Hi Hpc. destruct w as [k p tk lo ow wk]. cbn in Hpc. subst p. unfold WorkerThread.find_task. cbn.
  pose proof (lookup_lt_Some _ _ _ Hi) as Hlt.
  destruct lo as [|x lo].
  2: { intros [= <- <-]. exists [Advance i false 0]. do 2 eexists. cbn [exec_all].
       rewrite (exec_advance i s _ _ _ _ _ _ Hi eq_refl). cbn. repeat split; by repeat constructor. }
  destruct ow as [|x ow].
  2: { intros [= <- <-]. exists [Advance i false 0; Advance i false 0]. do 2 eexists. cbn [exec_all].
       rewrite (exec_advance i s _ _ _ _ _ _ Hi eq_refl). cbn [mbind option_bind].
       erewrite exec_advance; [|cbn; by apply list_lookup_insert_eq|reflexivity].
       cbn. rewrite list_insert_insert_eq, app_nil_r. repeat split; by repeat constructor. }
  intros ([o clk1] & Hs & Hf)%outcome_bind_Done. apply steal_global_found in Hs; [|done]. cbn in Hs.
  assert (∀ batch w' queue out, advance false batch (mkThread k AtGlobal tk [] [] wk) (task_queue s)
      = Some (w', queue, out) →
    exec_all s [Advance i false 0; Advance i false 0; Advance i false batch] =
      Some (mkThreads queue (<[i := w']> (threads s)) (ran s ++ out))) as Hthree.
  { intros batch w' queue out Ha. cbn [exec_all].
    rewrite (exec_advance i s _ _ _ _ _ _ Hi eq_refl). cbn [mbind option_bind].
    erewrite exec_advance; [|cbn; by apply list_lookup_insert_eq|reflexivity]. cbn [mbind option_bind].
    erewrite exec_advance; [|cbn; rewrite list_insert_insert_eq; by apply list_lookup_insert_eq|exact Ha].
    cbn. rewrite !list_insert_insert_eq, !app_nil_r. done. }
  destruct o as [[task q]|].
  - destruct Hs as (Hq & Hl & Hfe). simplify_eq. exists [Advance i false 0; Advance i false 0;
      Advance i false (length (WorkerThread.tasks q))]. do 2 eexists.
    split; [apply Hthree; cbn; rewrite Hq; cbn; by rewrite take_app_length, drop_app_length|]. split; [by repeat constructor|]. split; [by repeat constructor|]. split; [done|].
    destruct q; cbn in *. by subst.
  - destruct fuel; [done|]. cbn in Hf. simplify_eq.
    exists [Advance i false 0; Advance i false 0; Advance i false 0]. do 2 eexists.
    split; [apply Hthree; cbn; by rewrite Hs|]. split; [by repeat constructor|].
    split; [by repeat constructor|]. split; [done|]. cbn. rewrite app_nil_r. unfold seen. cbn. by rewrite Hs.
Qed.

Lemma given_advances (l : list (Event T)) : Forall advances l → l ≫= given = [].
Proof. induction 1 as [|e l He _ IH]; [done|]. rewrite bind_cons, IH. by destruct e. Qed.

Lemma given_scheduled i out : scheduled i out ≫= given = out.1 ++ out.2.
Proof.
  unfold scheduled. rewrite bind_app. f_equal.
  - induction out.1 as [|x l IH]; [done|]. by rewrite bind_cons, bind_app, IH.
  - induction out.2 as [|x l IH]; [done|]. by rewrite fmap_cons, bind_cons, IH.
Qed.

Lemma scheduled_of_worker i out : Forall (of_worker i) (scheduled i out).
Proof.
  unfold scheduled. apply Forall_app. split.
  - induction out.1 as [|x l IH]; [done|]. rewrite bind_cons. by repeat constructor.
  - apply Forall_fmap, Forall_true. done.
Qed.

(** whenever a worker by itself runs the tasks [trace] and leaves the queues [q],
    the interleaved pool has a schedule that does the same: only accesses of this
    worker, with each task it runs scheduling what it schedules, and nothing else;
    the worker ends where it parks, and the other workers are untouched. *)
Lemma run_inner_in_pool fuel steals clk i s w trace q clk' :
  threads s !! i = Some w → pc w = AtLocal →
  WorkerThread.run_inner checks run fuel steals clk (seen s w) = Done (trace, q, clk') →
  ∃ l s' w', exec_all s l = Some s' ∧ Forall (of_worker i) l ∧
    l ≫= given = trace ≫= (λ task, (run task).1 ++ (run task).2) ∧
    threads s' = <[i := w']> (threads s) ∧ seen s' w' = q ∧ pc w' = AtPark ∧ mine w' = [] ∧
    ran s' = ran s ++ trace.
Proof.
  revert clk s w trace. induction fuel as [|fuel IH]; intros clk s w trace Hi Hpc; [done|].
  cbn [WorkerThread.run_inner]. intros ([found clk1] & Hf & Hr)%outcome_bind_Done.
  pose proof (lookup_lt_Some _ _ _ Hi) as Hlt.
  destruct (exec_find i s w steals clk found clk1 Hi Hpc Hf) as (l1 & s1 & w1 & He1 & Ho1 & Ha1 & Ht1 & Hfound).
  apply given_advances in Ha1. destruct found as [[task q1]|].
  2: { destruct Hfound as (Hseen & Hp & Hran & Hmine). injection Hr as <- <- <-.
       exists l1, s1, w1. rewrite app_nil_r. by split_and!. }
  destruct Hfound as (Hseen & Hp1 & Hran).
  apply outcome_bind_Done in Hr as ([[trace' q'] clk2] & Hr & [= <- <- <-]).
  assert (threads s1 !! i = Some w1) as Hi1 by (rewrite Ht1; by apply list_lookup_insert_eq).
  destruct (exec_scheduled i (run task) s1 w1 Hi1) as (w2 & He2 & Hp2 & Hl2 & Ho2).
  edestruct (IH clk1 (mkThreads (task_queue s1 ++ (run task).2) (<[i := w2]> (threads s1)) (ran s1)) w2 trace')
    as (l3 & s3 & w3 & He3 & Ho3 & Hg3 & Ht3 & Hseen3 & Hp3 & Hm3 & Hran3).
  { cbn. rewrite Ht1, list_insert_insert_eq. by apply list_lookup_insert_eq. }
  { congruence. }
  { rewrite <- Hr. f_equal. unfold seen, WorkerThread.run_task. subst q1. cbn. by rewrite Hl2, Ho2. }
  exists (l1 ++ scheduled i (run task) ++ l3), s3, w3.
  rewrite !exec_all_app, He1. cbn [mbind option_bind]. rewrite exec_all_app, He2. cbn [mbind option_bind].
  rewrite !bind_app, Ha1, given_scheduled, Hg3. cbn [threads ran] in *.
  split_and!; try done.
  - apply Forall_app. split; [done|]. apply Forall_app. split; [apply scheduled_of_worker|done].
  - by rewrite Ht3, Ht1, !list_insert_insert_eq.
  - by rewrite Hran3, Hran, <- app_assoc.
Qed.

End Alone.

(** The manager wakes every thread that ever reported, once: a second request wakes
    nobody, and the number returned does not depend on how many were woken. *)
Lemma unpark_thread_once m num m1 woken rem :
  ThreadManager.unpark_thread m num = (m1, woken, rem) →
  woken = ThreadManager.parked_threads m ∧ rem = num ∧
  ∀ num', ThreadManager.unpark_thread m1 num' = (m1, [], num').
Proof. by intros [= <- <- <-]. Qed.

(** ** A concrete run *)

(** One static and one dynamic worker: both go to sleep, the dynamic one for good;
    then a task is scheduled globally, and one on the dynamic worker. *)
Definition to_sleep (i : nat) : list (Event nat) := replicate 4 (Advance i false 0).

Definition demo_events : list (Event nat) :=
  to_sleep 0 ++ to_sleep 1 ++ [Schedule 10; ScheduleLocal 1 11].

Definition demo_threads : Threads nat :=
  mkThreads [10] [mkThread Static Parked false [] [] 0; mkThread Dynamic Parked false [11] [] 1] [].

Lemma pool_loses_nothing_witness : ran demo_threads ++ queued demo_threads ≡ₚ [10; 11].
Proof.
  destruct (pool_loses_nothing [Static; Dynamic] demo_events demo_threads) as [H _].
  - vm_compute. reflexivity.
  - exact H.
Defined.

Lemma pool_serves_witness :
  ∃ s' w', runs 0 demo_threads s' ∧ threads s' !! 0 = Some w' ∧ mine w' = [] ∧
    task_queue s' = [] ∧ ran s' ≡ₚ [10].
Proof.
  apply (pool_serves [Static; Dynamic] demo_events demo_threads 0 (mkThread Static Parked false [] [] 0)).
  - vm_compute. reflexivity.
  - reflexivity.
  - left. reflexivity.
Defined.

Lemma dynamic_worker_asleep_witness :
  let asleep := mkThread Dynamic Parked false [] [] 0 in
  let s := mkThreads [] [mkThread Static Parked false [] [] 0; asleep] [] in
  let s' := mkThreads [10; 11] [mkThread Static AtOwn false [] [] 0; asleep] [] in
  let l := [Schedule 10; Schedule 11; Advance 0 true 0; Advance 0 false 0] in
  exec_all s l = Some s' ∧ threads s' !! 1 = Some asleep.
Proof.
  intros asleep s s' l. split; [vm_compute; reflexivity|].
  apply (dynamic_worker_asleep s l s' 1 asleep); try reflexivity.
  repeat constructor; discriminate.
Defined.

Definition alone_threads : Threads nat :=
  mkThreads [3; 0] [mkThread Static AtLocal false [1; 0] [2] 0; mkThread Dynamic Parked false [] [] 0] [].

Lemma run_inner_in_pool_witness :
  ∃ l s', exec_all alone_threads l = Some s' ∧ task_queue s' = [] ∧
    threads s' !! 1 = Some (mkThread Dynamic Parked false [] [] 0) ∧ 5 ≤ length (ran s').
Proof.
  destruct (WorkerThread.run_inner true demo_run 40 3 0
    (seen alone_threads (mkThread Static AtLocal false [1; 0] [2] 0))) as [[[trace q] clk]| |] eqn:Hr;
    [|vm_compute in Hr; discriminate..].
  destruct (run_inner_in_pool true demo_run 40 3 0 0 alone_threads
    (mkThread Static AtLocal false [1; 0] [2] 0) trace q clk)
    as (l & s' & w' & He & _ & _ & Ht & Hq & _ & _ & Hran); [reflexivity|reflexivity|exact Hr|].
  vm_compute in Hr. injection Hr as <- <- <-. exists l, s'. split; [exact He|].
  split; [exact (f_equal WorkerThread.task_queue Hq)|].
  split; [rewrite Ht; reflexivity|]. rewrite Hran. vm_compute. lia.
Defined.
