(* ===== verification/Runtime.v ===== *)
(** * Procs on the thread pool (runtime/executor: pool.rs, worker.rs;
      runtime/lightproc: lightproc.rs)

    The executor as a whole: futures are spawned as procs ([LightProc]) whose
    schedule function puts them into a queue of the pool ([Pool]); a worker that
    takes one runs it, which polls its future; wakers and handles may be used by
    anybody meanwhile.  An operation on a proc is one step here, and so is an access
    to a queue; the unpark that ends a call of a local schedule function is a step of
    its own, which may come at any later time.  Left out are cancelling through the
    handle, which is unsound by itself (LightProc), and polls that panic:
    [LightProc::recoverable] wraps the future so that a panic is an output. *)

From S2P Require Import Prelude LightProc Worker Pool.

(** ** The runtime *)

(** The schedule function of a proc: [Executor::schedule] or the closure that
    [schedule_local] makes on a worker. *)
Inductive home := Anywhere | OnWorker (i : nat).

#[export] Instance home_eq_dec : EqDecision home.
Proof. solve_decision. Defined.

Section Runtime.
Context {R : Type}.

Record task := mkTask { home_of : home; body : sys R }.

(** [procs]: the procs that were spawned, known by their number; [busy]: the
    proc whose future each worker is polling; [calls]: the calls of a local schedule
    function that have pushed their [LightProc] and not yet unparked the worker:
    the proc, whose block the function is in, and the worker. *)
Record runtime := mkRuntime {
  procs : list task;
  pool : Threads nat;
  busy : list (option nat);
  calls : list (nat * nat);
}.

(** What a step comes to: it is done; nobody is in a position to do it; the
    process aborts; the block of a proc is used after it was freed, either by
    leaving its span or by the unpark of its schedule function; or something else
    happens that must not: any other use of freed memory, a future is dropped
    twice, an operation loops, or a worker has a task that it cannot run. *)
Inductive effect := Went (s : runtime) | Cannot | Stops | Late | Violated.

(** A [LightProc] is given to the schedule function. *)
Definition hand (h : home) (id : nat) (p : Threads nat) : option (Threads nat) :=
  match h with
  | Anywhere => Some (Pool.schedule p id)
  | OnWorker i => Pool.exec p (ScheduleLocal i id)
  end.

Fixpoint hand_all (n : nat) (h : home) (id : nat) (p : Threads nat) : option (Threads nat) :=
  match n with
  | O => Some p
  | S n => p' ← hand h id p; hand_all n h id p'
  end.

(** The unparks that are left to do. *)
Definition called (n : nat) (h : home) (id : nat) : list (nat * nat) :=
  match h with
  | Anywhere => []
  | OnWorker i => replicate n (id, i)
  end.

(** An operation on a proc, with the [LightProc]s it hands over. *)
Definition on_proc (id : nat) (e : event R) (s : runtime) : effect :=
  match procs s !! id with
  | Some t =>
      match ProcSystem.exec e (body t) with
      | Next b =>
          let n := queue (blk b) - queue (blk (body t)) in
          match hand_all n (home_of t) id (pool s) with
          | Some p => Went (mkRuntime (<[id := mkTask (home_of t) b]> (procs s)) p (busy s)
                              (calls s ++ called n (home_of t) id))
          | None => Violated
          end
      | Unowned => Cannot
      | Aborts => Stops
      | Broken LateSpan => Late
      | Broken _ | Spins => Violated
      end
  | None => Cannot
  end.

(** [spawn], [spawn_local]: [task.schedule()] hands the new proc over. *)
Definition spawn (h : home) (s : runtime) : effect :=
  match ProcSystem.exec EvSchedule ProcSystem.start with
  | Next b =>
      match hand h (length (procs s)) (pool s) with
      | Some p => Went (mkRuntime (procs s ++ [mkTask h b]) p (busy s)
                          (calls s ++ called 1 h (length (procs s))))
      | None => Cannot
      end
  | _ => Violated
  end.

(** The unpark of a local schedule function, with the unparker that it keeps in the
    block of the proc. *)
Definition unpark_call (n : nat) (s : runtime) : effect :=
  match calls s !! n with
  | Some (id, i) =>
      match procs s !! id, Pool.exec (pool s) (Unpark i) with
      | Some t, Some p =>
          if freed (blk (body t)) then Late
          else Went (mkRuntime (procs s) p (busy s) (delete n (calls s)))
      | _, _ => Violated
      end
  | None => Cannot
  end.

(** [task.run()] on worker [i]. *)
Definition run_task (i id : nat) (s : runtime) : effect :=
  match procs s !! id with
  | Some t =>
      match ProcSystem.exec EvRun (body t) with
      | Next b => Went (mkRuntime (<[id := mkTask (home_of t) b]> (procs s)) (pool s)
                          (<[i := const id <$> ticking b]> (busy s)) (calls s))
      | Aborts => Stops
      | Broken LateSpan => Late
      | _ => Violated
      end
  | None => Violated
  end.

(** An access of worker [i], which is not polling. *)
Definition work (i : nat) (timeout : bool) (batch : nat) (s : runtime) : effect :=
  match busy s !! i, threads (pool s) !! i with
  | Some None, Some w =>
      match Pool.advance timeout batch w (task_queue (pool s)) with
      | Some (w', q, run) =>
          let s := mkRuntime (procs s)
                     (mkThreads q (<[i := w']> (threads (pool s))) (ran (pool s) ++ run))
                     (busy s) (calls s) in
          match run with
          | id :: _ => run_task i id s
          | [] => Went s
          end
      | None => Cannot
      end
  | _, _ => Cannot
  end.

(** The poll of worker [i] returns. *)
Definition polled (i : nat) (answer : option R) (s : runtime) : effect :=
  match busy s !! i with
  | Some (Some id) =>
      match on_proc id (match answer with Some out => EvReady out | None => EvPending end) s with
      | Went s => Went (mkRuntime (procs s) (pool s) (<[i := None]> (busy s)) (calls s))
      | Cannot => Violated
      | v => v
      end
  | _ => Cannot
  end.

(** What the owners of wakers and of the handle do. *)
Definition owners (e : event R) : bool :=
  match e with
  | EvClone | EvWake | EvWakeByRef | EvDropWaker | EvPoll _ | EvDropHandle => true
  | _ => false
  end.

Inductive move :=
| Spawn (h : home)
| Owner (id : nat) (e : event R)
| Work (i : nat) (timeout : bool) (batch : nat)
| Polled (i : nat) (answer : option R)
| UnparkCall (n : nat).

Definition step (m : move) (s : runtime) : effect :=
  match m with
  | Spawn h => spawn h s
  | Owner id e => if owners e then on_proc id e s else Cannot
  | Work i timeout batch => work i timeout batch s
  | Polled i answer => polled i answer s
  | UnparkCall n => unpark_call n s
  end.

Fixpoint steps (l : list move) (s : runtime) : effect :=
  match l with
  | [] => Went s
  | m :: l => match step m s with Went s' => steps l s' | v => v end
  end.

Definition start (kinds : list Kind) : runtime :=
  mkRuntime [] (Pool.start kinds) (replicate (length kinds) None) [].

(** [ShutdownHandler::shutdown] (lib.rs): every handle is cancelled, and dropped
    as the list is drained. *)
Fixpoint shutdown (tasks : list nat) (s : runtime) : effect :=
  match tasks with
  | [] => Went s
  | id :: tasks =>
      match on_proc id EvCancel s with
      | Went s =>
          match on_proc id EvDropHandle s with
          | Went s => shutdown tasks s
          | v => v
          end
      | v => v
      end
  end.

(** How often worker [i] takes a step in a list of moves. *)
Definition of_worker (i : nat) (m : move) : bool :=
  match m with Work j _ _ | Polled j _ => Nat.eqb i j | _ => false end.

Definition turns (i : nat) (l : list move) : nat := length (filter (λ m, of_worker i m = true) l).

End Runtime.

Arguments task : clear implicits.
Arguments runtime : clear implicits.
Arguments effect : clear implicits.
Arguments move : clear implicits.

(** ** What operations do to the queue *)

Section Queue.
Context {R : Type} (P : nat → nat → Prop) `{!PreOrder P}.

(** The number of [LightProc]s before and after. *)
Definition moves_queue {A} (m : M R A) : Prop :=
  ∀ p a p', m p = Ret a p' → P (queue p) (queue p').

Lemma mq_ret {A} (a : A) : moves_queue (ret a).
Proof. intros p b p' [= _ <-]. reflexivity. Qed.

Lemma mq_bind {A B} (m : M R A) (k : A → M R B) :
  moves_queue m → (∀ a, moves_queue (k a)) → moves_queue (bind m k).
Proof.
  intros Hm Hk p b p' Hb. unfold bind in Hb. destruct (m p) as [a p1| | |] eqn:E; try done.
  etransitivity; [by eapply Hm|by eapply Hk].
Qed.

Lemma mq_guarded {A} (m : M R A) : moves_queue m → moves_queue (guarded m).
Proof. intros Hm p a p'. unfold guarded, access. destruct (freed p); [done|]. apply Hm. Qed.

Lemma mq_retry {S A} n (round : S → M R (S + A)) st :
  (∀ st, moves_queue (round st)) → moves_queue (retry n round st).
Proof.
  intros Hr. revert st. induction n as [|n IH]; intros st; [done|].
  cbn [retry]. apply mq_bind; [done|]. intros [st'|a]; [done|apply mq_ret].
Qed.

Lemma mq_load : moves_queue load.
Proof. apply mq_guarded. intros p a p' [= _ <-]. reflexivity. Qed.

Lemma mq_fetch f : moves_queue (fetch f).
Proof. apply mq_guarded. intros p a p' [= _ <-]. reflexivity. Qed.

Lemma mq_cas current new : moves_queue (cas current new).
Proof.
  apply mq_guarded. intros p a p'. destruct (State.compare_exchange _ _ _). intros [= _ <-]. reflexivity.
Qed.

Lemma mq_replace_awaiter new : moves_queue (replace_awaiter new).
Proof. apply mq_guarded. intros p a p' [= _ <-]. reflexivity. Qed.

Lemma mq_wake_other w : moves_queue (wake_other w).
Proof. intros p a p' [= _ <-]. reflexivity. Qed.

Lemma mq_write_output o : moves_queue (write_output o).
Proof. apply mq_guarded. intros p a p' [= _ <-]. reflexivity. Qed.

Lemma mq_read_output : moves_queue read_output.
Proof. apply mq_guarded. intros p a p'. destruct (output p); [|done]. intros [= _ <-]. reflexivity. Qed.

Lemma mq_exit_span : moves_queue exit_span.
Proof. intros p a p'. unfold exit_span, access. destruct (freed p); [done|]. intros [= _ <-]. reflexivity. Qed.

Lemma mq_drop_future : moves_queue RawProc.drop_future.
Proof. apply mq_guarded. intros p a p'. destruct (future p); [|done]. intros [= _ <-]. reflexivity. Qed.

Lemma mq_destroy : moves_queue RawProc.destroy.
Proof. apply mq_guarded. intros p a p' [= _ <-]. reflexivity. Qed.

Lemma mq_abort : moves_queue (λ _, Abort_ : run R ()).
Proof. done. Qed.

End Queue.

Create HintDb mq.
#[export] Hint Resolve mq_ret mq_load mq_fetch mq_cas mq_replace_awaiter mq_wake_other mq_write_output
  mq_read_output mq_exit_span mq_drop_future mq_destroy mq_abort : mq.

#[local] Instance eq_preorder : PreOrder (@eq nat) := _.
#[local] Instance nat_le_preorder : PreOrder le.
Proof. split; [exact Nat.le_refl|exact Nat.le_trans]. Qed.

#[local] Hint Resolve eq_preorder nat_le_preorder : mq.

(** Take an operation apart. *)
Ltac mq_step :=
  lazymatch goal with
  | |- PreOrder _ => first [exact eq_preorder | exact nat_le_preorder]
  | |- moves_queue _ RawProc.decrement => unfold RawProc.decrement
  | |- moves_queue _ (bind _ _) => apply mq_bind; [| |intros ?]
  | |- moves_queue _ (retry _ _ _) => apply mq_retry; [|intros ?]
  | |- moves_queue _ (leave _) => unfold leave
  | |- moves_queue _ (when ?b _) => unfold when; destruct b
  | |- moves_queue _ (match ?x with _ => _ end) => destruct x
  | |- moves_queue _ _ => auto with mq
  end.

Section QueueEvents.
Context {R : Type}.
Implicit Types (s : sys R) (e : event R).

Lemma mq_schedule : moves_queue (R := R) le RawProc.schedule.
Proof. apply mq_guarded. intros p a p' [= _ <-]. simpl. lia. Qed.
Hint Resolve mq_schedule : mq.

Lemma after_moves_queue P {A} (m : M R A) p k s :
  moves_queue P m → (∀ a p', blk (k a p') = p') →
  ProcSystem.after m p k = Next s → P (queue p) (queue (blk s)).
Proof.
  intros Hm Hk Ha. unfold ProcSystem.after in Ha. destruct (m p) as [a p'| | |] eqn:E; try done.
  injection Ha as <-. rewrite Hk. by eapply Hm.
Qed.

(** The owners and the polls of a proc take no [LightProc] away. *)
Lemma exec_queue_grows e s s' :
  owners e = true ∨ e = EvPending ∨ (∃ out, e = EvReady out) →
  ProcSystem.exec e s = Next s' → queue (blk s) ≤ queue (blk s').
Proof.
  intros He. destruct e; simpl; try (by destruct He as [?|[?|[? ?]]]);
    repeat case_match; try done; apply after_moves_queue; try done;
    unfold RawProc.clone_waker, RawProc.wake, RawProc.wake_by_ref, RawProc.tick_ready,
      RawProc.tick_pending, ProcHandle.poll, ProcHandle.drop, RawProc.wake_round,
      RawProc.wake_by_ref_round, RawProc.tick_ready_round, RawProc.tick_pending_round,
      ProcHandle.poll_round, ProcHandle.take_round, ProcHandle.drop_round, ProcData.notify,
      ProcData.notify_unless, ProcData.swap_awaiter, ProcData.lock_round; repeat mq_step.
Qed.

Lemma exec_run_queue s s' :
  ProcSystem.exec EvRun s = Next s' → queue (blk s') = pred (queue (blk s)).
Proof.
  simpl. repeat case_match; try done. intros Ha. symmetry. revert Ha.
  change (pred (queue (blk s))) with (queue (ProcSystem.unqueue (blk s))).
  apply (after_moves_queue eq); [|done].
  unfold RawProc.tick_enter, RawProc.tick_enter_round, ProcData.notify,
    ProcData.swap_awaiter, ProcData.lock_round; repeat mq_step.
Qed.

(** What the owners do leaves the poll in progress. *)
Lemma exec_owner_ticking e s s' :
  owners e = true → ProcSystem.exec e s = Next s' → ticking s' = ticking s.
Proof.
  intros He. destruct e; try done; simpl; unfold ProcSystem.after; repeat case_match; try done;
    by intros [= <-].
Qed.

Lemma exec_answer_ticking (answer : option R) s s' :
  ProcSystem.exec (match answer with Some out => EvReady out | None => EvPending end) s = Next s' →
  ticking s' = None.
Proof.
  destruct answer; simpl; unfold ProcSystem.after; repeat case_match; try done; by intros [= <-].
Qed.

(** A proc is in at most one queue, and in none while it is polled. *)
Lemma inv_queue s : inv s → queue (blk s) ≤ 1 ∧ (is_Some (ticking s) → queue (blk s) = 0).
Proof.
  intros [p ans Hf Hq|f sc ru co cl aw r aws fu out q wo n ha tick ans _ _ _ _ _ Hph]; simpl.
  - rewrite Hq. split; [lia|done].
  - destruct Hph as [| |? ? ? ? ? ? ->|? ? ? ->|? ? ? ? ? ? ->]; subst; simpl;
      (split; [try destruct sc; simpl; lia|]); (done || by intros [? ?]).
Qed.

(** A proc that was queued can be run. *)
Lemma exec_run_possible s :
  inv s → (0 < queue (blk s))%nat →
  (∃ s', ProcSystem.exec EvRun s = Next s' ∧ inv s') ∨ ProcSystem.exec EvRun s = Broken LateSpan.
Proof.
  intros Hs. cases_inv Hs; [simpl; lia|..]; intros Hq; simpl in Hq; try lia;
    (apply after_late; repeat wp_step; use_conditions; solve_inv).
Qed.

End QueueEvents.

(** ** The invariant *)

(** How often a task is in a list of queues. *)
Definition occurs (id : nat) (l : list nat) : nat := length (filter (id =.) l).

#[export] Instance occurs_perm id : Proper ((≡ₚ) ==> eq) (occurs id).
Proof. intros l l' Hp. unfold occurs. by rewrite Hp. Qed.

Lemma occurs_app id l l' : occurs id (l ++ l') = occurs id l + occurs id l'.
Proof. unfold occurs. by rewrite filter_app, length_app. Qed.

Lemma occurs_cons id x l : occurs id (x :: l) = (if decide (id = x) then 1 else 0) + occurs id l.
Proof. unfold occurs. rewrite filter_cons. by case_decide. Qed.

Lemma occurs_pos id l : 0 < occurs id l ↔ id ∈ l.
Proof.
  unfold occurs. induction l as [|x l IH]; [rewrite elem_of_nil; simpl; lia|].
  rewrite filter_cons, elem_of_cons. case_decide; simpl; [|rewrite IH]; naive_solver lia.
Qed.

Section Invariant.
Context {R : Type}.
Implicit Types (s : runtime R) (t : task R) (p : Threads nat) (m : move R).

(** How often a proc has been handed to the pool and not yet run. *)
Definition pending s (id : nat) : nat :=
  match procs s !! id with Some t => queue (blk (body t)) | None => 0 end.

(** How many calls are about to unpark worker [i]. *)
Definition waiting_calls (i : nat) (l : list (nat * nat)) : nat := length (filter (λ c, c.2 = i) l).

Lemma waiting_app i l l' : waiting_calls i (l ++ l') = waiting_calls i l + waiting_calls i l'.
Proof. unfold waiting_calls. by rewrite filter_app, length_app. Qed.

Lemma waiting_called i n h id : waiting_calls i (called n h id) = if decide (h = OnWorker i) then n else 0.
Proof.
  destruct h as [|j]; [by rewrite decide_False|]. cbn [called].
  induction n as [|n IH]; unfold waiting_calls in *; [by case_decide|].
  cbn [replicate]. rewrite filter_cons. cbn [snd]. repeat case_decide; simplify_eq; simpl; lia.
Qed.

(** The pool and the calls in progress agree. *)
Definition calls_ok (p : Threads nat) (l : list (nat * nat)) : Prop :=
  ∀ i w, threads p !! i = Some w → waking w = waiting_calls i l.

Record rt_inv s : Prop := {
  ri_pool : threads_inv (pool s);
  ri_calls : calls_ok (pool s) (calls s);
  ri_called : Forall (λ c, c.1 < length (procs s) ∧ c.2 < length (threads (pool s))) (calls s);
  ri_workers : length (busy s) = length (threads (pool s));
  ri_home id t i : procs s !! id = Some t → home_of t = OnWorker i → i < length (threads (pool s));
  ri_procs id t : procs s !! id = Some t → inv (body t);
  ri_queued id : occurs id (queued (pool s)) = pending s id;
  ri_busy i id : busy s !! i = Some (Some id) →
    ∃ t, procs s !! id = Some t ∧ is_Some (ticking (body t));
  ri_once i j id : busy s !! i = Some (Some id) → busy s !! j = Some (Some id) → i = j;
  ri_ticking id t : procs s !! id = Some t → is_Some (ticking (body t)) →
    ∃ i, busy s !! i = Some (Some id);
}.

(** A step of the pool that runs nothing. *)
Lemma pool_given p e p' :
  threads_inv p → Pool.exec p e = Some p' → ran p' = ran p →
  threads_inv p' ∧ queued p' ≡ₚ queued p ++ given e.
Proof.
  intros Hp He Hr. apply pool_exec_inv in He as [Hp' Hq]; [|done]. split; [done|].
  rewrite Hr in Hq. by apply Permutation_app_inv_l in Hq.
Qed.

Lemma hand_spec h id p :
  threads_inv p → (∀ i, h = OnWorker i → i < length (threads p)) →
  ∃ p', hand h id p = Some p' ∧ threads_inv p' ∧ queued p' ≡ₚ queued p ++ [id] ∧
    length (threads p') = length (threads p).
Proof.
  intros Hp Hh. destruct h as [|i]; simpl.
  - eexists. split; [done|]. destruct (pool_given p (Schedule id) _ Hp eq_refl eq_refl). done.
  - destruct (lookup_lt_is_Some_2 (threads p) i) as [w Hw]; [by apply Hh|].
    rewrite Hw. simpl. eexists. split; [done|]. simpl. rewrite length_insert.
    destruct (pool_given p (ScheduleLocal i id)
      (mkThreads (task_queue p) (<[i := push_local w id]> (threads p)) (ran p)) Hp) as [Hp' Hq];
      [by simpl; rewrite Hw|done|]. done.
Qed.

Lemma hand_calls h id p p' l :
  calls_ok p l → hand h id p = Some p' → calls_ok p' (l ++ called 1 h id).
Proof.
  intros Hp Hh i w Hw. rewrite waiting_app, waiting_called. destruct h as [|j]; simpl in Hh.
  - simplify_eq. simpl in Hw. rewrite (Hp i w Hw). case_decide; [done|lia].
  - destruct (threads p !! j) as [v|] eqn:Hj; simplify_eq/=.
    apply list_lookup_insert_Some in Hw as [(-> & <- & _)|[Hne Hw]].
    + simpl. rewrite (Hp i v Hj), decide_True by done. lia.
    + rewrite (Hp i w Hw), decide_False by congruence. lia.
Qed.

Lemma called_S n h id : called (S n) h id = called 1 h id ++ called n h id.
Proof. by destruct h. Qed.

Lemma hand_all_calls n h id p p' l :
  calls_ok p l → hand_all n h id p = Some p' → calls_ok p' (l ++ called n h id).
Proof.
  revert p l. induction n as [|n IH]; intros p l Hp Hh; simpl in Hh.
  { simplify_eq. destruct h; simpl; by rewrite app_nil_r. }
  destruct (hand h id p) as [p1|] eqn:E; [|done]. simpl in Hh.
  rewrite called_S, (assoc_L (++)). eapply IH; [|done]. by eapply hand_calls.
Qed.

Lemma hand_all_spec n h id p :
  threads_inv p → (∀ i, h = OnWorker i → i < length (threads p)) →
  ∃ p', hand_all n h id p = Some p' ∧ threads_inv p' ∧ queued p' ≡ₚ queued p ++ replicate n id ∧
    length (threads p') = length (threads p).
Proof.
  revert p. induction n as [|n IH]; intros p Hp Hh; simpl.
  { eexists. split; [done|]. by rewrite app_nil_r. }
  destruct (hand_spec h id p Hp Hh) as (p1 & -> & Hp1 & Hq1 & Hl1). simpl.
  destruct (IH p1 Hp1) as (p2 & -> & Hp2 & Hq2 & Hl2); [by rewrite Hl1|].
  eexists. split; [done|]. split; [done|]. split; [|congruence].
  rewrite Hq2, Hq1. by rewrite <- (assoc_L (++)).
Qed.

Lemma occurs_replicate id n x : occurs id (replicate n x) = if decide (id = x) then n else 0.
Proof. induction n as [|n IH]; simpl; [by case_decide|]. rewrite occurs_cons, IH. case_decide; lia. Qed.

(** One proc and the queues change. *)
Lemma rt_inv_update s id t b p bz cs :
  rt_inv s → procs s !! id = Some t → inv b →
  threads_inv p → calls_ok p cs →
  Forall (λ c, c.1 < length (procs s) ∧ c.2 < length (threads (pool s))) cs → length (threads p) = length (threads (pool s)) →
  (∀ j, occurs j (queued p) = if decide (j = id) then queue (blk b) else pending s j) →
  length bz = length (busy s) →
  (∀ i x, x ≠ id → bz !! i = Some (Some x) ↔ busy s !! i = Some (Some x)) →
  (is_Some (ticking b) ↔ ∃ i, bz !! i = Some (Some id)) →
  (∀ i j, bz !! i = Some (Some id) → bz !! j = Some (Some id) → i = j) →
  rt_inv (mkRuntime (<[id := mkTask (home_of t) b]> (procs s)) p bz cs).
Proof.
  intros Hs Ht Hb Hp Hcs Hcd Hlen Hocc Hbl Hother Htick Honce.
  assert (id < length (procs s)) as Hid by (by eapply lookup_lt_Some).
  assert (∀ j t', <[id := mkTask (home_of t) b]> (procs s) !! j = Some t' →
    j = id ∧ t' = mkTask (home_of t) b ∨ j ≠ id ∧ procs s !! j = Some t') as Hpr.
  { intros j t' Hj. apply list_lookup_insert_Some in Hj as [(-> & <- & _)|[? ?]]; auto. }
  split; simpl.
  - done.
  - done.
  - by rewrite length_insert, Hlen.
  - rewrite Hbl, Hlen. apply Hs.
  - intros j t' i Hj Hh. rewrite Hlen.
    destruct (Hpr j t' Hj) as [[-> ->]|[_ Hj']]; by eapply ri_home.
  - intros j t' Hj. destruct (Hpr j t' Hj) as [[-> ->]|[_ Hj']]; [done|by eapply ri_procs].
  - intros j. rewrite Hocc. unfold pending. simpl. case_decide as Hj.
    + subst. by rewrite list_lookup_insert_eq.
    + by rewrite list_lookup_insert_ne.
  - intros i x Hi. destruct (decide (x = id)) as [->|Hne].
    + eexists. rewrite list_lookup_insert_eq by done. split; [done|]. simpl. apply Htick. eauto.
    + rewrite list_lookup_insert_ne by done. eapply ri_busy; [done|]. by apply Hother.
  - intros i j x Hi Hj. destruct (decide (x = id)) as [->|Hne]; [by apply Honce|].
    eapply ri_once; [done|by apply Hother..].
  - intros j t' Hj Ht'. destruct (Hpr j t' Hj) as [[-> ->]|[Hne Hj']]; [by apply Htick|].
    destruct (ri_ticking s Hs j t' Hj' Ht') as [i Hi]. exists i. by apply Hother.
Qed.

(** An operation of the owners or the end of a poll. *)
Lemma on_proc_spec s id t e :
  rt_inv s → procs s !! id = Some t →
  owners e = true ∨ e = EvPending ∨ (∃ out, e = EvReady out) →
  match on_proc id e s with
  | Went s' => ∃ b, ProcSystem.exec e (body t) = Next b ∧ inv b ∧
      procs s' = <[id := mkTask (home_of t) b]> (procs s) ∧ busy s' = busy s ∧
      threads_inv (pool s') ∧ calls_ok (pool s') (calls s') ∧
      Forall (λ c, c.1 < length (procs s) ∧ c.2 < length (threads (pool s))) (calls s') ∧
      length (threads (pool s')) = length (threads (pool s)) ∧
      (∀ j, occurs j (queued (pool s')) = if decide (j = id) then queue (blk b) else pending s j)
  | Cannot => ProcSystem.exec e (body t) = Unowned
  | Stops | Late => True
  | Violated => False
  end.
Proof.
  intros Hs Ht He. unfold on_proc. rewrite Ht.
  assert (e ≠ EvCancel) as Hnc by (intros ->; by destruct He as [?|[?|[? ?]]]).
  pose proof (exec_inv late_span e (body t) Hnc (λ _, eq_refl) (ri_procs _ Hs _ _ Ht)) as Hg.
  destruct (ProcSystem.exec e (body t)) as [b| | |f|] eqn:Hb; try done; [|by rewrite Hg].
  pose proof (exec_queue_grows e _ _ He Hb) as Hgrow.
  destruct (hand_all_spec (queue (blk b) - queue (blk (body t))) (home_of t) id (pool s))
    as (p & Hh & Hp & Hq & Hl); [apply Hs|intros; by eapply ri_home|]. rewrite Hh.
  exists b. split_and!; try done.
  { eapply hand_all_calls; [apply Hs|done]. }
  { apply Forall_app. split; [apply Hs|]. destruct (home_of t) as [|i] eqn:Hho; [by constructor|].
    apply Forall_replicate. split; [by eapply lookup_lt_Some|by eapply ri_home]. }
  intros j. simpl.
  rewrite Hq, occurs_app, occurs_replicate, (ri_queued _ Hs). unfold pending.
  case_decide; subst; [rewrite Ht; lia|lia].
Qed.

Definition fine (v : effect R) : Prop :=
  match v with Went s => rt_inv s | Violated => False | _ => True end.

Lemma owner_fine s id e : rt_inv s → owners e = true → fine (on_proc id e s).
Proof.
  intros Hs He. destruct (procs s !! id) as [t|] eqn:Ht; [|by unfold on_proc; rewrite Ht].
  pose proof (on_proc_spec s id t e Hs Ht (or_introl He)) as Hsp.
  destruct (on_proc id e s) as [[pr p bz cs]| | | |]; simpl in *; [|done..].
  destruct Hsp as (b & Hb & Hib & -> & -> & Hp & Hc & Hcd & Hl & Hocc).
  apply exec_owner_ticking in Hb; [|done].
  eapply rt_inv_update; try done.
  - rewrite Hb. split; [by eapply ri_ticking|]. intros [i Hi].
    destruct (ri_busy _ Hs _ _ Hi) as (t' & Ht' & Htick). rewrite Ht in Ht'. by inv_eqs.
  - intros i j. by apply ri_once.
Qed.

Lemma insert_busy (bz : list (option nat)) i v j x :
  <[i := v]> bz !! j = Some (Some x) →
  (j = i ∧ v = Some x) ∨ (j ≠ i ∧ bz !! j = Some (Some x)).
Proof.
  intros Hj. apply list_lookup_insert_Some in Hj as [(-> & -> & _)|[? ?]]; auto.
Qed.

Lemma polled_fine s i answer : rt_inv s → fine (polled i answer s).
Proof.
  intros Hs. unfold polled. destruct (busy s !! i) as [[id|]|] eqn:Hi; [|done..].
  destruct (ri_busy _ Hs _ _ Hi) as (t & Ht & Htick).
  pose proof (on_proc_spec s id t (match answer with Some out => EvReady out | None => EvPending end)
    Hs Ht ltac:(destruct answer; eauto)) as Hsp.
  destruct (on_proc _ _ s) as [[pr p bz cs]| | | |]; simpl in *; [|..|done|done|done].
  - destruct Hsp as (b & Hb & Hib & -> & -> & Hp & Hc & Hcd & Hl & Hocc).
    apply exec_answer_ticking in Hb.
    assert (∀ j, <[i := None]> (busy s) !! j ≠ Some (Some id)) as Hfree.
    { intros j [[_ ?]|[Hne Hj]]%insert_busy; [done|]. by apply Hne, (ri_once _ Hs _ _ _ Hj Hi). }
    eapply rt_inv_update; try done.
    + by rewrite length_insert.
    + intros j x Hne. split; [by intros [[_ ?]|[_ ?]]%insert_busy|].
      intros Hj. rewrite list_lookup_insert_ne; [done|]. intros ->. congruence.
    + rewrite Hb. split; [by intros [? ?]|]. intros [j Hj]. by apply Hfree in Hj.
    + intros j k Hj. by apply Hfree in Hj.
  - destruct Htick as [st Hst]. destruct answer; simpl in Hsp; rewrite Hst in Hsp;
      unfold ProcSystem.after in Hsp; by repeat case_match.
Qed.

(** Only the pool changes. *)
Lemma rt_inv_pool s p cs :
  rt_inv s → threads_inv p → calls_ok p cs → cs ⊆ calls s →
  length (threads p) = length (threads (pool s)) →
  queued p ≡ₚ queued (pool s) → rt_inv (mkRuntime (procs s) p (busy s) cs).
Proof.
  intros [] Hp Hc Hcs Hl Hq. split; simpl; try done.
  - rewrite Hl. apply Forall_forall. intros c Hin. by apply (proj1 (Forall_forall _ _) ri_called0), Hcs.
  - by rewrite Hl.
  - intros. rewrite Hl. eauto.
  - intros id. by rewrite Hq.
Qed.

Lemma advance_runs_one timeout batch (w : Thread nat) q w' q' run :
  Pool.advance timeout batch w q = Some (w', q', run) → run = [] ∨ ∃ x, run = [x].
Proof. unfold Pool.advance. repeat case_match; intros; simplify_eq; eauto. Qed.

(** An access of worker [i] to the pool, and what it takes out. *)
Lemma pool_advance p i w timeout batch w' q run :
  threads_inv p → threads p !! i = Some w →
  Pool.advance timeout batch w (task_queue p) = Some (w', q, run) →
  let p' := mkThreads q (<[i := w']> (threads p)) (ran p ++ run) in
  threads_inv p' ∧ queued p ≡ₚ run ++ queued p' ∧ length (threads p') = length (threads p).
Proof.
  intros Hp Hw Ha p'. assert (Pool.exec p (Advance i timeout batch) = Some p') as He.
  { simpl. rewrite Hw. simpl. by rewrite Ha. }
  apply pool_exec_inv in He as [Hp' Hq]; [|done]. split; [done|]. simpl in Hq.
  rewrite app_nil_r, <- (assoc_L (++)) in Hq. apply Permutation_app_inv_l in Hq.
  split; [by symmetry|]. simpl. by rewrite length_insert.
Qed.

Lemma advance_waking timeout batch (w : Thread nat) q w' q' run :
  Pool.advance timeout batch w q = Some (w', q', run) → waking w' = waking w.
Proof. unfold Pool.advance. repeat case_match; intros; by simplify_eq. Qed.

Lemma calls_insert p i w w' q r l :
  calls_ok p l → threads p !! i = Some w → waking w' = waking w →
  calls_ok (mkThreads q (<[i := w']> (threads p)) r) l.
Proof.
  intros Hp Hw He j v [(-> & <- & _)|[_ Hj]]%list_lookup_insert_Some; [rewrite He|]; by apply Hp.
Qed.

Lemma run_task_fine s i x p :
  rt_inv s → busy s !! i = Some None → threads_inv p → calls_ok p (calls s) →
  length (threads p) = length (threads (pool s)) → queued (pool s) ≡ₚ x :: queued p →
  run_task i x (mkRuntime (procs s) p (busy s) (calls s)) = Late ∨
  ∃ t b, procs s !! x = Some t ∧ ProcSystem.exec EvRun (body t) = Next b ∧
    run_task i x (mkRuntime (procs s) p (busy s) (calls s)) =
      Went (mkRuntime (<[x := mkTask (home_of t) b]> (procs s)) p
              (<[i := const x <$> ticking b]> (busy s)) (calls s)) ∧
    rt_inv (mkRuntime (<[x := mkTask (home_of t) b]> (procs s)) p
              (<[i := const x <$> ticking b]> (busy s)) (calls s)).
Proof.
  intros Hs Hi Hp Hc Hl Hq. pose proof (ri_queued _ Hs x) as Hx.
  rewrite Hq, occurs_cons, decide_True in Hx by done. unfold pending in Hx.
  destruct (procs s !! x) as [t|] eqn:Ht; [|lia].
  destruct (exec_run_possible (body t)) as [(b & Hb & Hib)|Hb]; [by eapply ri_procs|lia| |].
  2: { left. unfold run_task. cbn [procs]. by rewrite Ht, Hb. }
  right. exists t, b. split; [done|]. split; [done|].
  split; [unfold run_task; cbn [procs pool busy calls]; by rewrite Ht, Hb|].
  assert (ticking (body t) = None) as Htick.
  { destruct (inv_queue (body t) (ri_procs _ Hs _ _ Ht)) as [_ Hno].
    destruct (ticking (body t)); [|done]. rewrite Hno in Hx; [lia|eauto]. }
  assert (∀ j, busy s !! j ≠ Some (Some x)) as Hnot.
  { intros j Hj. destruct (ri_busy _ Hs _ _ Hj) as (t' & Ht' & [st Hst]). congruence. }
  assert (i < length (busy s)) as Hlen by (by eapply lookup_lt_Some).
  eapply rt_inv_update; try done; try apply Hs.
  - intros j. pose proof (ri_queued _ Hs j) as Hj. rewrite Hq, occurs_cons in Hj.
    apply exec_run_queue in Hb. unfold pending in *. case_decide; subst; [rewrite Ht in Hj|]; lia.
  - by rewrite length_insert.
  - intros j y Hne. split.
    + intros [[-> Hv]|[_ ?]]%insert_busy; [|done]. destruct (ticking b); simpl in Hv; congruence.
    + intros Hj. rewrite list_lookup_insert_ne; [done|]. intros ->. congruence.
  - split.
    + intros [st Hst]. exists i. rewrite Hst. by apply list_lookup_insert_eq.
    + intros [j [[_ Hv]|[_ Hj]]%insert_busy]; [|by apply Hnot in Hj].
      destruct (ticking b); [eauto|done].
  - intros j k [[-> _]|[_ Hj]]%insert_busy [[-> _]|[_ Hk]]%insert_busy; try done;
      by first [apply Hnot in Hj|apply Hnot in Hk].
Qed.

(** An access of a worker: it is late, or a good state comes of it. *)
Lemma work_cases s i timeout batch w w' q run :
  rt_inv s → busy s !! i = Some None → threads (pool s) !! i = Some w →
  Pool.advance timeout batch w (task_queue (pool s)) = Some (w', q, run) →
  work i timeout batch s = Late ∨
  ∃ s', work i timeout batch s = Went s' ∧ rt_inv s' ∧
    pool s' = mkThreads q (<[i := w']> (threads (pool s))) (ran (pool s) ++ run) ∧
    (run = [] ∧ busy s' = busy s ∧ procs s' = procs s ∨
     ∃ x t b, run = [x] ∧ procs s !! x = Some t ∧ procs s' = <[x := mkTask (home_of t) b]> (procs s) ∧
       busy s' = <[i := const x <$> ticking b]> (busy s)).
Proof.
  intros Hs Hi Hw Ha. unfold work. rewrite Hi, Hw, Ha.
  destruct (pool_advance _ _ _ _ _ _ _ _ (ri_pool _ Hs) Hw Ha) as (Hp & Hq & Hl).
  pose proof (calls_insert _ _ _ w' q (ran (pool s) ++ run) _ (ri_calls _ Hs) Hw
    (advance_waking _ _ _ _ _ _ _ Ha)) as Hc.
  destruct (advance_runs_one _ _ _ _ _ _ _ Ha) as [->|[x ->]].
  - right. eexists. split; [done|]. split; [by apply rt_inv_pool|]. eauto.
  - destruct (run_task_fine s i x _ Hs Hi Hp Hc Hl Hq) as [->|(t & b & Ht & _ & -> & Hs')]; [by left|right].
    eexists. split; [done|]. split; [done|]. split; [done|]. right. by exists x, t, b.
Qed.

Lemma work_fine s i timeout batch : rt_inv s → fine (work i timeout batch s).
Proof.
  intros Hs. destruct (busy s !! i) as [[|]|] eqn:Hi; [by unfold work; rewrite Hi| |by unfold work; rewrite Hi].
  destruct (threads (pool s) !! i) as [w|] eqn:Hw; [|by unfold work; rewrite Hi, Hw].
  destruct (Pool.advance timeout batch w (task_queue (pool s))) as [[[w' q] run]|] eqn:Ha;
    [|by unfold work; rewrite Hi, Hw, Ha].
  by destruct (work_cases _ _ _ _ _ _ _ _ Hs Hi Hw Ha) as [->|(s' & -> & Hs' & _)].
Qed.

Lemma spawn_fine s h : rt_inv s → fine (spawn h s).
Proof.
  intros Hs. unfold spawn.
  destruct (ProcSystem.exec EvSchedule ProcSystem.start) as [b| | | |] eqn:Hb; try (by vm_compute in Hb).
  assert (inv b ∧ queue (blk b) = 1 ∧ ticking b = None) as (Hib & Hqb & Htb).
  { pose proof (exec_schedule none (ProcSystem.start (R := R)) start_inv) as Hg. rewrite Hb in Hg.
    split; [done|]. vm_compute in Hb. by injection Hb as <-. }
  destruct (hand h (length (procs s)) (pool s)) as [p|] eqn:Hh; [|done].
  assert (∀ i, h = OnWorker i → i < length (threads (pool s))) as Hho.
  { intros i ->. simpl in Hh. destruct (threads (pool s) !! i) eqn:E; [|done]. by eapply lookup_lt_Some. }
  destruct (hand_spec h (length (procs s)) (pool s)) as (p' & Hh' & Hp & Hq & Hl); [apply Hs|done|].
  rewrite Hh in Hh'. inv_eqs.
  assert (∀ j t, (procs s ++ [mkTask h b]) !! j = Some t →
    procs s !! j = Some t ∨ j = length (procs s) ∧ t = mkTask h b) as Hpr.
  { intros j t [Hj|[Hge Hj]]%lookup_app_Some; [by left|right].
    apply list_lookup_singleton_Some in Hj as [? <-]. split; [lia|done]. }
  split; simpl.
  - done.
  - eapply hand_calls; [apply Hs|done].
  - rewrite length_app, Hl. simpl. apply Forall_app. split.
    + eapply Forall_impl; [apply Hs|]. simpl. lia.
    + destruct h as [|i]; repeat constructor; simpl; [lia|by apply Hho].
  - rewrite Hl. apply Hs.
  - intros j t i [Hj|[_ ->]]%Hpr Hi; rewrite Hl; [by eapply ri_home|]. by apply Hho.
  - intros j t [Hj|[_ ->]]%Hpr; [by eapply ri_procs|done].
  - intros j. rewrite Hq, occurs_app, (ri_queued _ Hs). unfold pending. simpl.
    rewrite occurs_cons. change (occurs j []) with 0. case_decide as Hj.
    + subst. rewrite lookup_ge_None_2 by lia. by rewrite list_lookup_middle.
    + rewrite Nat.add_0_r. destruct (decide (j < length (procs s))).
      * by rewrite lookup_app_l.
      * rewrite !lookup_ge_None_2; [done|rewrite length_app; simpl; lia|lia].
  - intros i x Hi. destruct (ri_busy _ Hs _ _ Hi) as (t & Ht & Htick). exists t.
    split; [|done]. by apply lookup_app_l_Some.
  - apply Hs.
  - intros j t [Hj|[_ ->]]%Hpr Htick; [by eapply ri_ticking|]. simpl in Htick. rewrite Htb in Htick.
    by destruct Htick.
Qed.

(** A call that is about to unpark can: the worker is there, and so is the block,
    unless it was freed. *)
Lemma unpark_call_spec s n id i :
  rt_inv s → calls s !! n = Some (id, i) →
  ∃ t w k, procs s !! id = Some t ∧ threads (pool s) !! i = Some w ∧ waking w = S k ∧
    unpark_call n s =
      if freed (blk (body t)) then Late
      else Went (mkRuntime (procs s)
        (mkThreads (task_queue (pool s))
           (<[i := mkThread (kind w) (pc w) true (local_tasks w) (tasks w) k]> (threads (pool s)))
           (ran (pool s))) (busy s) (delete n (calls s))).
Proof.
  intros Hs Hn. destruct (Forall_lookup_1 _ _ _ _ (ri_called _ Hs) Hn) as [Hid Hi]. simpl in Hid, Hi.
  destruct (lookup_lt_is_Some_2 _ _ Hid) as [t Ht]. destruct (lookup_lt_is_Some_2 _ _ Hi) as [w Hw].
  assert (0 < waiting_calls i (calls s)) as Hpos.
  { unfold waiting_calls. destruct (filter _ (calls s)) as [|c l] eqn:E; [|simpl; lia].
    assert ((id, i) ∈ filter (λ c : nat * nat, c.2 = i) (calls s)) as Hin.
    { apply list_elem_of_filter. split; [done|]. by eapply list_elem_of_lookup_2. }
    rewrite E in Hin. by apply not_elem_of_nil in Hin. }
  rewrite <- (ri_calls _ Hs i w Hw) in Hpos. destruct (waking w) as [|k] eqn:Hk; [lia|].
  exists t, w, k. split_and!; [done..|]. unfold unpark_call. rewrite Hn, Ht. simpl. rewrite Hw. simpl.
  unfold unpark. by rewrite Hk.
Qed.

Lemma waiting_delete i n c l :
  l !! n = Some c →
  waiting_calls i l = (if decide (c.2 = i) then 1 else 0) + waiting_calls i (delete n l).
Proof.
  intros Hn. rewrite <- (take_drop_middle _ _ _ Hn) at 1. rewrite delete_take_drop, !waiting_app.
  unfold waiting_calls at 2. rewrite filter_cons. fold (waiting_calls i (drop (S n) l)).
  case_decide; simpl; unfold waiting_calls; lia.
Qed.

Lemma unpark_fine s n : rt_inv s → fine (unpark_call n s).
Proof.
  intros Hs. destruct (calls s !! n) as [[id i]|] eqn:Hn; [|by unfold unpark_call; rewrite Hn].
  destruct (unpark_call_spec s n id i Hs Hn) as (t & w & k & Ht & Hw & Hk & ->).
  destruct (freed (blk (body t))); [done|].
  destruct (pool_given (pool s) (Unpark i) (mkThreads (task_queue (pool s))
    (<[i := mkThread (kind w) (pc w) true (local_tasks w) (tasks w) k]> (threads (pool s)))
    (ran (pool s)))) as [Hp Hq]; [apply Hs| |done|].
  { simpl. rewrite Hw. simpl. unfold unpark. by rewrite Hk. }
  apply rt_inv_pool; try done.
  - intros j v Hj. pose proof (waiting_delete j n _ _ Hn) as Hd. simpl in Hd.
    apply list_lookup_insert_Some in Hj as [(<- & <- & _)|[Hne Hj]].
    + rewrite <- (ri_calls _ Hs i w Hw), decide_True in Hd by done. simpl in *. lia.
    + rewrite <- (ri_calls _ Hs j v Hj), decide_False in Hd by done. simpl in *. lia.
  - intros c Hin. rewrite delete_take_drop in Hin. rewrite <- (take_drop n (calls s)).
    apply elem_of_app in Hin as [Hin|Hin]; apply elem_of_app; [by left|right].
    apply (subseteq_drop 1 (drop n (calls s))). by rewrite drop_drop, Nat.add_comm.
  - simpl. by rewrite length_insert.
  - by rewrite Hq, app_nil_r.
Qed.

Lemma step_fine s m : rt_inv s → fine (step m s).
Proof.
  intros Hs. destruct m as [h|id e|i timeout batch|i answer|n]; cbn [step].
  - by apply spawn_fine.
  - destruct (owners e) eqn:He; [by apply owner_fine|done].
  - by apply work_fine.
  - by apply polled_fine.
  - by apply unpark_fine.
Qed.

Lemma rt_start_inv kinds : rt_inv (start kinds).
Proof.
  split; simpl; try done.
  - apply pool_start_inv.
  - intros i w (k & -> & _)%list_lookup_fmap_Some. done.
  - by rewrite length_replicate, length_fmap.
  - intros id. by rewrite start_idle.
  - by intros i id [? _]%lookup_replicate_1.
  - by intros i j id [? _]%lookup_replicate_1.
Qed.

Lemma steps_fine l s : rt_inv s → fine (steps l s).
Proof.
  revert s. induction l as [|m l IH]; intros s Hs; simpl; [done|].
  pose proof (step_fine s m Hs) as Hf. destruct (step m s); try done. by apply IH.
Qed.

End Invariant.

(** ** Progress of one worker *)

Section Progress.
Context {R : Type}.
Implicit Types (s : runtime R) (w : Thread nat) (m : move R).

(** What others do to a worker: they append to its local queue, and unpark it. *)
Record fed w w' : Prop := {
  fed_pc : pc w' = pc w;
  fed_token : token w = true → token w' = true;
  fed_local : ∃ l, local_tasks w' = local_tasks w ++ l;
}.

Lemma fed_refl w : fed w w.
Proof. split; try done. exists []. by rewrite app_nil_r. Qed.

Lemma fed_trans w1 w2 w3 : fed w1 w2 → fed w2 w3 → fed w1 w3.
Proof.
  intros [? ? [l Hl]] [? ? [k Hk]]. split; [congruence|auto|].
  exists (l ++ k). by rewrite Hk, Hl, (assoc_L (++)).
Qed.

(** Worker [i] is only fed. *)
Definition feeds (i : nat) (p p' : Threads nat) : Prop :=
  ∀ w, threads p !! i = Some w → ∃ w', threads p' !! i = Some w' ∧ fed w w'.

Lemma feeds_refl i p : feeds i p p.
Proof. intros w Hw. eauto using fed_refl. Qed.

Lemma feeds_trans i p1 p2 p3 : feeds i p1 p2 → feeds i p2 p3 → feeds i p1 p3.
Proof.
  intros W1 W2 w Hw. destruct (W1 w Hw) as (w2 & Hw2 & F1). destruct (W2 w2 Hw2) as (w3 & Hw3 & F2).
  eauto using fed_trans.
Qed.

(** Another worker changes, or this one is fed. *)
Lemma feeds_insert i j p q r v v' :
  threads p !! j = Some v → (i = j → fed v v') →
  feeds i p (mkThreads q (<[j := v']> (threads p)) r).
Proof.
  intros Hj Hf w Hw. simpl. destruct (decide (i = j)) as [->|Hne].
  - rewrite list_lookup_insert_eq by (by eapply lookup_lt_Some). rewrite Hw in Hj. inv_eqs. eauto.
  - rewrite list_lookup_insert_ne by done. eauto using fed_refl.
Qed.

Lemma hand_feeds i h id p p' : hand h id p = Some p' → ran p' = ran p ∧ feeds i p p'.
Proof.
  destruct h as [|j]; simpl.
  - intros [= <-]. split; [done|]. intros w Hw. eauto using fed_refl.
  - destruct (threads p !! j) as [v|] eqn:Hj; [|done]. simpl. intros [= <-].
    split; [done|]. eapply feeds_insert; [done|]. intros _. split; try done. by exists [id].
Qed.

Lemma hand_all_feeds i n h id p p' : hand_all n h id p = Some p' → ran p' = ran p ∧ feeds i p p'.
Proof.
  revert p. induction n as [|n IH]; intros p; simpl; [intros [= <-]; split; [done|apply feeds_refl]|].
  destruct (hand h id p) as [p1|] eqn:Hh; [|done]. simpl. intros Hp.
  destruct (hand_feeds i _ _ _ _ Hh) as [Hr Hf]. destruct (IH p1 Hp) as [Hr' Hf'].
  split; [congruence|by eapply feeds_trans].
Qed.

Lemma on_proc_feeds i id e s s' :
  on_proc id e s = Went s' → ran (pool s') = ran (pool s) ∧ feeds i (pool s) (pool s') ∧ busy s' = busy s.
Proof.
  unfold on_proc. destruct (procs s !! id) as [t|] eqn:Ht; [|done].
  repeat case_match; try done. intros [= <-]. simpl.
  destruct (hand_all_feeds i _ _ _ _ _ ltac:(eassumption)). done.
Qed.

(** What an access of worker [j] has done. *)
Lemma work_inv j timeout batch s s' :
  rt_inv s → work j timeout batch s = Went s' →
  ∃ w w' q run b, busy s !! j = Some None ∧ threads (pool s) !! j = Some w ∧
    Pool.advance timeout batch w (task_queue (pool s)) = Some (w', q, run) ∧
    pool s' = mkThreads q (<[j := w']> (threads (pool s))) (ran (pool s) ++ run) ∧
    busy s' = <[j := b]> (busy s) ∧ (run = [] → b = None).
Proof.
  intros Hs Hm. pose proof Hm as Hc. unfold work in Hc.
  destruct (busy s !! j) as [[|]|] eqn:Hj; try done.
  destruct (threads (pool s) !! j) as [w|] eqn:Hw; [|done].
  destruct (Pool.advance timeout batch w (task_queue (pool s))) as [[[w' q] run]|] eqn:Ha; [|done].
  destruct (work_cases _ _ _ _ _ _ _ _ Hs Hj Hw Ha) as [?|(s1 & E & _ & Hp & Hcase)]; [congruence|].
  rewrite Hm in E. injection E as <-. exists w, w', q, run.
  destruct Hcase as [(-> & Hb & _)|(x & t & b & -> & _ & _ & Hb)].
  - exists None. by rewrite (list_insert_id (busy s)).
  - exists (const x <$> ticking b). done.
Qed.

Lemma step_ran m s s' : rt_inv s → step m s = Went s' → ∃ r, ran (pool s') = ran (pool s) ++ r.
Proof.
  intros Hs Hm. destruct m as [h|x e|j timeout batch|j answer|n]; cbn [step] in Hm.
  - unfold spawn in Hm. repeat case_match; simplify_eq.
    destruct (hand_feeds 0 _ _ _ _ ltac:(eassumption)) as [Hr _]. exists []. by rewrite app_nil_r.
  - destruct (owners e); [|done]. destruct (on_proc_feeds 0 _ _ _ _ Hm) as [Hr _].
    exists []. by rewrite app_nil_r.
  - destruct (work_inv _ _ _ _ _ Hs Hm) as (? & ? & ? & run & ? & _ & _ & _ & -> & _). by exists run.
  - unfold polled in Hm. destruct (busy s !! j) as [[x|]|]; try done.
    destruct (on_proc x _ s) as [s1| | | |] eqn:E; simplify_eq.
    destruct (on_proc_feeds 0 _ _ _ _ E) as [Hr _]. exists []. by rewrite app_nil_r.
  - unfold unpark_call in Hm. repeat case_match; simplify_eq.
    match goal with E : Pool.exec _ _ = Some _ |- _ => simpl in E end.
    exists []. rewrite app_nil_r. simplify_option_eq. done.
Qed.

Lemma steps_ran l : ∀ s s', rt_inv s → steps l s = Went s' → ∃ r, ran (pool s') = ran (pool s) ++ r.
Proof.
  induction l as [|m l IH]; intros s s' Hs Hst; simpl in Hst; [simplify_eq; exists []; by rewrite app_nil_r|].
  pose proof (step_fine s m Hs) as Hs1. destruct (step m s) as [s1| | | |] eqn:E; try done.
  destruct (step_ran m s s1 Hs E) as [r Hr]. destruct (IH s1 s' Hs1 Hst) as [r' Hr'].
  exists (r ++ r'). by rewrite Hr', Hr, (assoc_L (++)).
Qed.

(** How far worker [i] is from the top of its loop. *)
Definition distance (b : option nat) w : nat :=
  (match pc w with
   | AtLocal => 0
   | AtPark | Parked =>
       if token w then 2 else match pc w with AtPark => 4 | _ => 3 end
   | AtGlobal => 5
   | AtOwn => 6
   end) + (match b with Some _ => 1 | None => 0 end).

Lemma distance_fed b w w' : fed w w' → distance b w' ≤ distance b w.
Proof.
  intros [Hpc Htk _]. unfold distance. rewrite Hpc.
  destruct (pc w), (token w), (token w'); try lia; by discriminate Htk.
Qed.

(** Task [id] is number [k] in the local queue of worker [i], which is [d] from the
    top of its loop. *)
Definition local_at i id k s (d : nat) : Prop :=
  ∃ w b, threads (pool s) !! i = Some w ∧ local_tasks w !! k = Some id ∧ busy s !! i = Some b ∧
    distance b w = d.

Lemma busy_lookup s i w : rt_inv s → threads (pool s) !! i = Some w → is_Some (busy s !! i).
Proof. intros Hs Hw. apply lookup_lt_is_Some. rewrite (ri_workers _ Hs). by eapply lookup_lt_Some. Qed.

(** A worker that is only fed is as close to the task as before. *)
Lemma local_fed i id k s s' d :
  local_at i id k s d → feeds i (pool s) (pool s') → busy s' !! i = busy s !! i →
  ∃ d', local_at i id k s' d' ∧ d' ≤ d.
Proof.
  intros (w & b & Hw & Hk & Hb & <-) Hf Hb'. destruct (Hf w Hw) as (w' & Hw' & Hfed).
  exists (distance b w'). split; [|by apply distance_fed]. exists w', b. rewrite Hb'.
  split_and!; try done. destruct Hfed as [_ _ [l ->]]. by apply lookup_app_l_Some.
Qed.

(** An access of the worker itself: it takes the first local task at the top of its
    loop, and else gets closer to it. *)
Lemma advance_closer timeout batch w q w' q' run id k b :
  Pool.advance timeout batch w q = Some (w', q', run) → local_tasks w !! k = Some id →
  (run = [] → b = None) →
  id ∈ run ∨ ∃ k', local_tasks w' !! k' = Some id ∧ 8 * k' + distance b w' < 8 * k + distance None w.
Proof.
  intros Ha Hk Hb. destruct w as [kd pcw tk lo ta wk]. unfold Pool.advance in Ha. simpl in *.
  assert (distance b (mkThread kd AtLocal tk lo ta wk) ≤ 1) as Hb1
    by (unfold distance; destruct b; simpl; lia).
  destruct pcw; simpl in *.
  - destruct lo as [|x lo]; [done|]. simplify_eq. destruct k as [|k]; simpl in Hk.
    + left. inv_eqs. by left.
    + right. exists k. split; [done|]. unfold distance in *. simpl in *. lia.
  - right. exists k. destruct ta as [|x ta]; simplify_eq; (split; [done|]); unfold distance in *; simpl in *;
      [rewrite Hb by done; lia|lia].
  - right. exists k. destruct q as [|x q]; simplify_eq; (split; [done|]); unfold distance in *; simpl in *;
      [rewrite Hb by done; destruct tk; lia|lia].
  - right. exists k. destruct tk; simplify_eq; (split; [done|]); unfold distance; simpl;
      rewrite Hb by done; lia.
  - right. exists k. destruct tk, kd, timeout; simplify_eq; (split; [done|]); unfold distance; simpl;
      rewrite Hb by done; lia.
Qed.

(** Whatever happens, the task is run or as close to being run as before, and
    closer if the worker moves. *)
Lemma step_local i id k s d m s' :
  rt_inv s → local_at i id k s d → step m s = Went s' →
  ∃ r, ran (pool s') = ran (pool s) ++ r ∧
    (id ∈ r ∨ ∃ k' d', local_at i id k' s' d' ∧
       8 * k' + d' + (if of_worker i m then 1 else 0) ≤ 8 * k + d).
Proof.
  intros Hs Hl Hm.
  assert (∀ r, ran (pool s') = ran (pool s) ++ r → feeds i (pool s) (pool s') →
    busy s' !! i = busy s !! i → of_worker i m = false → ∃ r, ran (pool s') = ran (pool s) ++ r ∧
    (id ∈ r ∨ ∃ k' d', local_at i id k' s' d' ∧
       8 * k' + d' + (if of_worker i m then 1 else 0) ≤ 8 * k + d)) as Hothers.
  { intros r Hr Hf Hb Hw. exists r. rewrite Hw. split; [done|]. right.
    destruct (local_fed _ _ _ _ _ _ Hl Hf Hb) as (d' & Hl' & Hd). exists k, d'. split; [done|lia]. }
  destruct m as [h|x e|j timeout batch|j answer|n]; cbn [step] in Hm.
  - unfold spawn in Hm. repeat case_match; simplify_eq.
    destruct (hand_feeds i _ _ _ _ ltac:(eassumption)).
    apply (Hothers []); try done. by rewrite app_nil_r.
  - destruct (owners e); [|done]. destruct (on_proc_feeds i _ _ _ _ Hm) as (Hr & Hf & Hb).
    apply (Hothers []); try done; [by rewrite app_nil_r|by rewrite Hb].
  - destruct (work_inv _ _ _ _ _ Hs Hm) as (w & w' & q & run & b' & Hj & Hw & Ha & Hp & Hb' & Hrun).
    assert (ran (pool s') = ran (pool s) ++ run) as Hr by by rewrite Hp.
    destruct (decide (i = j)) as [<-|Hne].
    + exists run. split; [done|]. destruct Hl as (w0 & b0 & Hw0 & Hk & Hb0 & <-).
      rewrite Hw in Hw0. rewrite Hj in Hb0. inv_eqs.
      destruct (advance_closer _ _ _ _ _ _ _ id k b' Ha Hk Hrun) as [?|(k' & Hk' & Hd)]; [by left|right].
      exists k', (distance b' w'). cbn [of_worker]. rewrite Nat.eqb_refl. split; [|lia].
      exists w', b'. rewrite Hp, Hb'. simpl.
      rewrite !list_lookup_insert_eq by (by eapply lookup_lt_Some). done.
    + apply (Hothers run); [done| | |].
      * rewrite Hp. by eapply feeds_insert.
      * rewrite Hb'. by apply list_lookup_insert_ne.
      * by apply Nat.eqb_neq.
  - unfold polled in Hm. destruct (busy s !! j) as [[x|]|] eqn:Hj; try done.
    destruct (on_proc x _ s) as [s1| | | |] eqn:E; simplify_eq.
    destruct (on_proc_feeds i _ _ _ _ E) as (Hr & Hf & Hb).
    destruct (decide (i = j)) as [<-|Hne].
    + exists []. rewrite app_nil_r. split; [done|]. right.
      destruct Hl as (w & b & Hw & Hk & Hbi & <-). rewrite Hj in Hbi. inv_eqs.
      destruct (Hf w Hw) as (w' & Hw' & Hfed). exists k, (distance None w'). cbn [of_worker].
      rewrite Nat.eqb_refl. pose proof (distance_fed None w w' Hfed) as Hd. split.
      * exists w', None. simpl. split_and!; try done.
        -- destruct Hfed as [_ _ [l ->]]. by apply lookup_app_l_Some.
        -- apply list_lookup_insert_eq. rewrite Hb. by eapply lookup_lt_Some.
      * unfold distance in *. lia.
    + apply (Hothers []); simpl; [by rewrite app_nil_r|done| |by apply Nat.eqb_neq].
      rewrite Hb. by apply list_lookup_insert_ne.
  - destruct (calls s !! n) as [[x j]|] eqn:Hn; [|unfold unpark_call in Hm; by rewrite Hn in Hm].
    destruct (unpark_call_spec s n x j Hs Hn) as (t & w & c & Ht & Hw & Hc & Heq).
    rewrite Heq in Hm. destruct (freed _); simplify_eq.
    apply (Hothers []); simpl; [by rewrite app_nil_r| |done|done].
    eapply feeds_insert; [done|]. intros _. split; try done. exists []. by rewrite app_nil_r.
Qed.

Lemma turns_cons i m l : turns i (m :: l) = (if of_worker i m then 1 else 0) + turns i l.
Proof. unfold turns. rewrite filter_cons. destruct (of_worker i m); by repeat case_decide. Qed.

(** So it is run when the worker has moved often enough. *)
Lemma local_served i id l : ∀ k s d s',
  rt_inv s → local_at i id k s d → steps l s = Went s' → 8 * k + d < turns i l →
  ∃ r, ran (pool s') = ran (pool s) ++ r ∧ id ∈ r.
Proof.
  induction l as [|m l IH]; intros k s d s' Hs Hl Hst Ht; [unfold turns in Ht; simpl in Ht; lia|].
  simpl in Hst. pose proof (step_fine s m Hs) as Hs1. destruct (step m s) as [s1| | | |] eqn:E; try done.
  destruct (step_local i id k s d m s1 Hs Hl E) as (r & Hr & [Hin|(k' & d' & Hl' & Hd)]).
  - destruct (steps_ran l s1 s' Hs1 Hst) as [r' Hr']. exists (r ++ r'). rewrite Hr', Hr, (assoc_L (++)).
    split; [done|]. apply elem_of_app. by left.
  - rewrite turns_cons in Ht. destruct (IH k' s1 d' s' Hs1 Hl' Hst) as (r' & Hr' & Hin); [lia|].
    exists (r ++ r'). rewrite Hr', Hr, (assoc_L (++)). split; [done|]. apply elem_of_app. by right.
Qed.

(** And the worker can always move: at worst it waits for whoever has pushed the
    task to unpark it. *)
Definition moves_worker (i : nat) s m : Prop :=
  match m with
  | Work j _ _ | Polled j _ => j = i
  | UnparkCall n => ∃ id, calls s !! n = Some (id, i)
  | _ => False
  end.

Lemma polled_possible i id answer s : busy s !! i = Some (Some id) → polled i answer s ≠ Cannot.
Proof. intros Hi. unfold polled. rewrite Hi. destruct (on_proc _ _ _); discriminate. Qed.

Lemma local_moves i id k s d :
  rt_inv s → local_at i id k s d → ∃ m, moves_worker i s m ∧ step m s ≠ Cannot.
Proof.
  intros Hs (w & b & Hw & Hk & Hb & _). destruct b as [x|].
  { exists (Polled i None). split; [done|]. by eapply polled_possible. }
  destruct (Pool.advance true 0 w (task_queue (pool s))) as [[[w' q] run]|] eqn:Ha.
  { exists (Work i true 0). split; [done|]. simpl.
    by destruct (work_cases _ _ _ _ _ _ _ _ Hs Hb Hw Ha) as [->|(s' & -> & _)]. }
  assert (pc w = Parked ∧ token w = false) as [Hpc Htk].
  { clear -Ha. unfold Pool.advance in Ha. repeat case_match; try done. all: simplify_eq. }
  pose proof (proj1 (Forall_lookup _ _) (ri_pool _ Hs) _ _ Hw) as [Hl _].
  destruct Hl as [?|[Hno|[?|Hwk]]]; [congruence|by rewrite Hno in Hk|congruence|].
  rewrite (ri_calls _ Hs i w Hw) in Hwk. unfold waiting_calls in Hwk.
  destruct (filter _ (calls s)) as [|[x j] l] eqn:E; [simpl in Hwk; lia|].
  assert ((x, j) ∈ filter (λ c : nat * nat, c.2 = i) (calls s)) as Hin by (rewrite E; by left).
  apply list_elem_of_filter in Hin as [Hj [n Hn]%list_elem_of_lookup]. simpl in Hj. subst j.
  exists (UnparkCall n). split; [simpl; eauto|]. simpl.
  destruct (unpark_call_spec s n x i Hs Hn) as (t & w1 & c & _ & _ & _ & ->). by destruct (freed _).
Qed.

End Progress.

(** ** Where tasks wait *)

Section Places.
Context {R : Type}.
Implicit Types (s : runtime R) (p : Threads nat) (hs : nat → option home).

(** Every task is in a queue of its home. *)
Record placed hs p : Prop := {
  pl_local j w x : threads p !! j = Some w → x ∈ local_tasks w → hs x = Some (OnWorker j);
  pl_tasks j w x : threads p !! j = Some w → x ∈ tasks w → hs x = Some Anywhere;
  pl_queue x : x ∈ task_queue p → hs x = Some Anywhere;
}.

Definition homes s (id : nat) : option home := home_of <$> procs s !! id.

Lemma placed_hand hs h id p p' :
  placed hs p → hs id = Some h → hand h id p = Some p' → placed hs p'.
Proof.
  intros [Hl Ht Hq] Hh. destruct h as [|i]; simpl.
  - intros [= <-]. split; simpl; try done. intros x [?| ->%list_elem_of_singleton]%elem_of_app; eauto.
  - destruct (threads p !! i) as [w|] eqn:Hi; [|done]. simpl. intros [= <-]. split; simpl; [..|done].
    + intros j w' x [(-> & <- & _)|[_ Hj]]%list_lookup_insert_Some; [|eauto].
      simpl. intros [?| ->%list_elem_of_singleton]%elem_of_app; eauto.
    + intros j w' x [(-> & <- & _)|[_ Hj]]%list_lookup_insert_Some; simpl; eauto.
Qed.

Lemma placed_hand_all hs n h id p p' :
  placed hs p → hs id = Some h → hand_all n h id p = Some p' → placed hs p'.
Proof.
  intros Hp Hh. revert p Hp. induction n as [|n IH]; intros p Hp; simpl; [by intros [= <-]|].
  destruct (hand h id p) as [p1|] eqn:E; [|done]. simpl. apply IH. by eapply placed_hand.
Qed.

Lemma placed_advance hs p i w timeout batch w' q run :
  placed hs p → threads p !! i = Some w →
  Pool.advance timeout batch w (task_queue p) = Some (w', q, run) →
  placed hs (mkThreads q (<[i := w']> (threads p)) (ran p ++ run)) ∧
  ∀ x, x ∈ run → hs x = Some (OnWorker i) ∨ hs x = Some Anywhere.
Proof.
  intros [Hl Ht Hq] Hw Ha. split.
  2: { clear -Hl Ht Hq Hw Ha. destruct w as [kd pcw tk lo ta wk]. unfold Pool.advance in Ha. simpl in *.
       repeat case_match; simplify_eq; try (by intros ? ?%not_elem_of_nil);
         intros ? ->%list_elem_of_singleton.
       - left. eapply Hl; [done|]. by left.
       - right. eapply Ht; [done|]. by left.
       - right. apply Hq. by left. }
  assert ((∀ x, x ∈ local_tasks w' → x ∈ local_tasks w) ∧
    (∀ x, x ∈ tasks w' → x ∈ tasks w ∨ x ∈ task_queue p) ∧ (∀ x, x ∈ q → x ∈ task_queue p)) as (A & B & C).
  { clear -Ha. destruct w as [kd pcw tk lo ta wk]. unfold Pool.advance in Ha. simpl in *.
    repeat case_match; simplify_eq; simpl; split_and!; try (solve [auto]);
      try (intros x Hx; first [by right|left; by right]).
    - intros x Hx. right. right. eapply subseteq_take, Hx.
    - intros x Hx. right. eapply subseteq_drop, Hx. }
  split; simpl.
  - intros j v x [(-> & <- & _)|[_ Hj]]%list_lookup_insert_Some Hx; eauto.
  - intros j v x [(-> & <- & _)|[_ Hj]]%list_lookup_insert_Some Hx; [|eauto].
    destruct (B x Hx); eauto.
  - eauto.
Qed.

Lemma placed_mono hs hs' p :
  (∀ x h, hs x = Some h → hs' x = Some h) → placed hs p → placed hs' p.
Proof. intros Hm [Hl Ht Hq]. split; eauto. Qed.

(** A proc keeps its schedule function. *)
Lemma homes_insert s id t b p bz cs x h :
  procs s !! id = Some t → homes s x = Some h →
  homes (mkRuntime (<[id := mkTask (home_of t) b]> (procs s)) p bz cs) x = Some h.
Proof.
  unfold homes. simpl. intros Ht Hx. destruct (decide (x = id)) as [->|Hne].
  - rewrite list_lookup_insert_eq by (by eapply lookup_lt_Some). by rewrite Ht in Hx.
  - by rewrite list_lookup_insert_ne.
Qed.

(** And what a worker polls, it may. *)
Record in_place s : Prop := {
  ip_queues : placed (homes s) (pool s);
  ip_busy j x : busy s !! j = Some (Some x) → homes s x = Some (OnWorker j) ∨ homes s x = Some Anywhere;
}.

Lemma in_place_mono s s' :
  in_place s → (∀ x h, homes s x = Some h → homes s' x = Some h) → placed (homes s') (pool s') →
  (∀ j x, busy s' !! j = Some (Some x) → busy s !! j = Some (Some x) ∨
     homes s x = Some (OnWorker j) ∨ homes s x = Some Anywhere) → in_place s'.
Proof.
  intros [_ Hb] Hm Hp Hb'. split; [done|]. intros j x Hj.
  destruct (Hb' j x Hj) as [H|H]; [apply Hb in H|]; destruct H; eauto.
Qed.

Lemma on_proc_placed id e s s' : in_place s → on_proc id e s = Went s' → in_place s'.
Proof.
  unfold on_proc. intros Hp. destruct (procs s !! id) as [t|] eqn:Ht; [|done].
  destruct (ProcSystem.exec e (body t)) as [b| | |[]|]; try done.
  destruct (hand_all _ _ _ _) as [p|] eqn:Hh; [|done]. intros [= <-].
  assert (∀ x h, homes s x = Some h → homes (mkRuntime (<[id := mkTask (home_of t) b]> (procs s)) p (busy s)
    (calls s ++ called (queue (blk b) - queue (blk (body t))) (home_of t) id)) x = Some h) as Hm.
  { intros x h. by apply homes_insert. }
  apply (in_place_mono s); [done..| |by left]. cbn [pool].
  eapply placed_mono; [exact Hm|]. eapply placed_hand_all; [apply Hp| |exact Hh]. unfold homes. by rewrite Ht.
Qed.

Lemma work_placed i timeout batch s s' :
  rt_inv s → in_place s → work i timeout batch s = Went s' → in_place s'.
Proof.
  intros Hs Hp Hm. pose proof Hm as Hc. unfold work in Hc.
  destruct (busy s !! i) as [[|]|] eqn:Hi; try done.
  destruct (threads (pool s) !! i) as [w|] eqn:Hw; [|done].
  destruct (Pool.advance timeout batch w (task_queue (pool s))) as [[[w' q] run]|] eqn:Ha; [|done]. clear Hc.
  destruct (work_cases _ _ _ _ _ _ _ _ Hs Hi Hw Ha) as [?|(s1 & E & _ & Hpool & Hcase)]; [congruence|].
  rewrite Hm in E. injection E as <-.
  destruct (placed_advance _ _ _ _ _ _ _ _ _ (ip_queues _ Hp) Hw Ha) as [Hp' Hrun].
  assert (∀ x h, homes s x = Some h → homes s' x = Some h) as Hmono.
  { destruct s' as [pr p bz cs]. simpl in *. intros y h.
    destruct Hcase as [(_ & _ & ->)|(x & t & b & _ & Ht & -> & _)]; [done|by apply homes_insert]. }
  apply (in_place_mono s); try done; [rewrite Hpool; by eapply placed_mono|].
  intros j y Hj. destruct Hcase as [(_ & Hb & _)|(x & t & b & -> & _ & _ & Hb)]; rewrite Hb in Hj; [by left|].
  apply insert_busy in Hj as [[-> Hy]|[_ Hj]]; [right|by left].
  destruct (ticking b); simpl in Hy; simplify_eq. apply Hrun. by left.
Qed.

Lemma spawn_placed h s s' : in_place s → spawn h s = Went s' → in_place s'.
Proof.
  unfold spawn. intros Hp. destruct (ProcSystem.exec _ _) as [b| | | |]; try done.
  destruct (hand h _ _) as [p|] eqn:Hh; [|done]. intros [= <-].
  assert (∀ x h', homes s x = Some h' → homes (mkRuntime (procs s ++ [mkTask h b]) p (busy s)
    (calls s ++ called 1 h (length (procs s)))) x = Some h') as Hm.
  { unfold homes. simpl. intros x h' Hx. destruct (procs s !! x) as [t|] eqn:Ht; [|done].
    by rewrite (lookup_app_l_Some _ _ _ _ Ht). }
  apply (in_place_mono s); [done..| |by left]. cbn [pool].
  eapply placed_hand; [|unfold homes; simpl; by rewrite list_lookup_middle|exact Hh].
  eapply placed_mono; [exact Hm|apply Hp].
Qed.

Lemma step_placed m s s' : rt_inv s → in_place s → step m s = Went s' → in_place s'.
Proof.
  intros Hs Hp. destruct m as [h|id e|i timeout batch|i answer|n]; cbn [step].
  - by apply spawn_placed.
  - destruct (owners e); [|done]. by apply on_proc_placed.
  - by apply work_placed.
  - unfold polled. destruct (busy s !! i) as [[id|]|]; try done.
    destruct (on_proc id _ s) as [s1| | | |] eqn:E; try done. intros [= <-].
    pose proof (on_proc_placed _ _ _ _ Hp E) as [Hq Hb]. split; [done|].
    intros j x [[_ ?]|[_ Hj]]%insert_busy; [done|]. exact (Hb j x Hj).
  - intros Hm. destruct (calls s !! n) as [[x j]|] eqn:Hn; [|unfold unpark_call in Hm; by rewrite Hn in Hm].
    destruct (unpark_call_spec s n x j Hs Hn) as (t & w & c & Ht & Hw & Hc & Heq).
    rewrite Heq in Hm. destruct (freed _); simplify_eq. destruct Hp as [[Hl Hta Hq] Hb].
    split; [split; simpl|exact Hb]; [..|exact Hq]; intros k v y [(-> & <- & _)|[_ Hj]]%list_lookup_insert_Some;
      simpl; eauto.
Qed.

Lemma steps_placed l s s' : rt_inv s → in_place s → steps l s = Went s' → in_place s'.
Proof.
  revert s. induction l as [|m l IH]; intros s Hs Hp; simpl; [by intros [= <-]|].
  pose proof (step_fine s m Hs) as Hs1. destruct (step m s) as [s1| | | |] eqn:E; try done.
  apply IH; [done|]. exact (step_placed m s s1 Hs Hp E).
Qed.

Lemma start_placed kinds : in_place (start kinds).
Proof.
  split; [split|]; simpl.
  - intros j w x (k & -> & _)%list_lookup_fmap_Some. by intros ?%not_elem_of_nil.
  - intros j w x (k & -> & _)%list_lookup_fmap_Some. by intros ?%not_elem_of_nil.
  - by intros x ?%not_elem_of_nil.
  - by intros j x [? _]%lookup_replicate_1.
Qed.

(** A queued proc that is bound to a worker is in its local queue. *)
Lemma queued_local s id i :
  in_place s → homes s id = Some (OnWorker i) → id ∈ queued (pool s) →
  ∃ w k, threads (pool s) !! i = Some w ∧ local_tasks w !! k = Some id.
Proof.
  intros [[Hl Ht Hq] _] Hh. unfold queued. rewrite elem_of_app, list_elem_of_bind.
  intros [Hin|(w & Hin & [j Hw]%list_elem_of_lookup)].
  { apply Hq in Hin. congruence. }
  unfold mine in Hin. apply elem_of_app in Hin as [Hin|Hin].
  - pose proof (Hl _ _ _ Hw Hin) as Hj. rewrite Hh in Hj. inv_eqs.
    apply list_elem_of_lookup in Hin as [k Hk]. eauto.
  - apply (Ht _ _ _ Hw) in Hin. congruence.
Qed.

End Places.

(** ** Procs that were woken *)

Section Woken.
Context {R : Type}.
Implicit Types (s : runtime R) (m : move R) (l : list (move R)).

(** Proc [id] is bound to worker [i] and will be polled. *)
Definition awaits i id s : Prop :=
  ∃ t, procs s !! id = Some t ∧ home_of t = OnWorker i ∧ due (body t).

(** It was run. *)
Definition run_since id s s' : Prop := ∃ r, ran (pool s') = ran (pool s) ++ r ∧ id ∈ r.

(** A poll of it has returned its output. *)
Definition answered i id l s : Prop :=
  ∃ l1 l2 out s', l = l1 ++ Polled i (Some out) :: l2 ∧ steps l1 s = Went s' ∧
    busy s' !! i = Some (Some id).

Lemma on_proc_inv x e s s' :
  on_proc x e s = Went s' →
  ∃ t b, procs s !! x = Some t ∧ ProcSystem.exec e (body t) = Next b ∧
    procs s' = <[x := mkTask (home_of t) b]> (procs s).
Proof.
  unfold on_proc. destruct (procs s !! x) as [t|]; [|done].
  destruct (ProcSystem.exec e (body t)) as [b| | |[]|] eqn:Hb; try done.
  destruct (hand_all _ _ _ _); [|done]. intros [= <-]. by exists t, b.
Qed.

Lemma owner_due e (b b' : sys R) :
  inv b → due b → owners e = true → ProcSystem.exec e b = Next b' → due b'.
Proof.
  intros Hi Hd He Hx. destruct Hd as [Hq|[Ht Hm]].
  - left. pose proof (exec_queue_grows e b b' (or_introl He) Hx).
    assert (e ≠ EvCancel) as Hne by by intros ->.
    pose proof (exec_inv late_span e b Hne (λ _, eq_refl) Hi) as Hg. rewrite Hx in Hg.
    destruct (inv_queue b' Hg). lia.
  - right. rewrite (exec_owner_ticking e b b' He Hx). split; [done|].
    pose proof (owners_keep_mark e b) as Hk. rewrite Hx in Hk. apply Hk; try done. by destruct e.
Qed.

(** Another proc changes. *)
Lemma awaits_insert i id s s' x t b :
  awaits i id s → procs s !! x = Some t → procs s' = <[x := mkTask (home_of t) b]> (procs s) →
  (x = id → due b) → awaits i id s'.
Proof.
  intros (t0 & Ht0 & Hh & Hd) Ht Hp Hb. destruct (decide (x = id)) as [->|Hne].
  - rewrite Ht in Ht0. inv_eqs. exists (mkTask (home_of t0) b). rewrite Hp.
    rewrite list_lookup_insert_eq by (by eapply lookup_lt_Some). auto.
  - exists t0. rewrite Hp, list_lookup_insert_ne by done. auto.
Qed.

(** Who polls a proc that is bound to a worker. *)
Lemma polled_at_home i j id s t :
  in_place s → procs s !! id = Some t → home_of t = OnWorker i → busy s !! j = Some (Some id) → j = i.
Proof.
  intros Hp Ht Hh Hj. destruct (ip_busy _ Hp _ _ Hj) as [H|H]; unfold homes in H; rewrite Ht in H; simpl in H;
    rewrite Hh in H; congruence.
Qed.

Lemma step_awaits i id m s s' :
  rt_inv s → in_place s → awaits i id s → step m s = Went s' →
  awaits i id s' ∨ run_since id s s' ∨ ∃ out, m = Polled i (Some out) ∧ busy s !! i = Some (Some id).
Proof.
  intros Hs Hp Ha Hm. pose proof Ha as (t & Ht & Hh & Hd).
  destruct m as [h|x e|j timeout batch|j answer|n]; cbn [step] in Hm.
  - left. unfold spawn in Hm. repeat case_match; simplify_eq. exists t. simpl.
    by rewrite (lookup_app_l_Some _ _ _ _ Ht).
  - left. destruct (owners e) eqn:He; [|done]. apply on_proc_inv in Hm as (t' & b & Ht' & Hb & Hpr).
    apply (awaits_insert i id s s' x t' b Ha Ht' Hpr). intros ->. rewrite Ht in Ht'. inv_eqs.
    eapply owner_due; try done. by eapply ri_procs.
  - pose proof Hm as Hc. unfold work in Hc. destruct (busy s !! j) as [[|]|] eqn:Hj; try done.
    destruct (threads (pool s) !! j) as [w|] eqn:Hw; [|done].
    destruct (Pool.advance timeout batch w (task_queue (pool s))) as [[[w' q] run]|] eqn:Hadv; [|done].
    destruct (work_cases _ _ _ _ _ _ _ _ Hs Hj Hw Hadv) as [?|(s1 & E & _ & Hpool & Hcase)]; [congruence|].
    rewrite Hm in E. injection E as <-.
    destruct Hcase as [(_ & _ & Hpr)|(x & t' & b & -> & Ht' & Hpr & _)].
    { left. exists t. by rewrite Hpr. }
    destruct (decide (x = id)) as [->|Hne]; [|left; by apply (awaits_insert i id s s' x t' b Ha Ht' Hpr)].
    right. left. exists [id]. rewrite Hpool. split; [done|by left].
  - unfold polled in Hm. destruct (busy s !! j) as [[x|]|] eqn:Hj; try done.
    destruct (on_proc x _ s) as [s1| | | |] eqn:E; simplify_eq.
    apply on_proc_inv in E as (t' & b & Ht' & Hb & Hpr). destruct (decide (x = id)) as [->|Hne].
    2: { left. by apply (awaits_insert i id s _ x t' b Ha Ht' Hpr). }
    assert (j = i) as -> by by eapply polled_at_home. destruct answer as [out|]; [right; right; eauto|].
    left. apply (awaits_insert i id s _ id t' b Ha Ht' Hpr). intros _. rewrite Ht in Ht'. inv_eqs.
    pose proof (ri_procs _ Hs _ _ Ht) as Hi. destruct (ri_busy _ Hs _ _ Hj) as (t0 & Ht0 & Htick).
    rewrite Ht in Ht0. inv_eqs. destruct Hd as [Hq|[_ Hmk]].
    { destruct (inv_queue _ Hi) as [_ Hz]. rewrite Hz in Hq; done. }
    destruct (marked_handed_back _ Hi Htick Hmk) as (b' & Hb' & Hq). left. congruence.
  - left. exists t. unfold unpark_call in Hm. repeat case_match; simplify_eq. done.
Qed.

Lemma run_since_trans id l s s' s'' :
  rt_inv s' → run_since id s s' → steps l s' = Went s'' → run_since id s s''.
Proof.
  intros Hs (r & Hr & Hin) Hst. destruct (steps_ran l s' s'' Hs Hst) as [r' Hr'].
  exists (r ++ r'). rewrite Hr', Hr, (assoc_L (++)). split; [done|]. apply elem_of_app. by left.
Qed.

Lemma steps_awaits i id l : ∀ s s',
  rt_inv s → in_place s → awaits i id s → steps l s = Went s' →
  awaits i id s' ∨ run_since id s s' ∨ answered i id l s.
Proof.
  induction l as [|m l IH]; intros s s' Hs Hp Ha Hst; simpl in Hst; [simplify_eq; by left|].
  pose proof (step_fine s m Hs) as Hs1. destruct (step m s) as [s1| | | |] eqn:E; try done.
  destruct (step_awaits i id m s s1 Hs Hp Ha E) as [Ha1|[Hr|(out & -> & Hb)]].
  - destruct (IH s1 s' Hs1 (step_placed _ _ _ Hs Hp E) Ha1 Hst) as [?|[Hr|Han]]; [by left|right; left|right; right].
    + destruct (step_ran m s s1 Hs E) as [r0 Hr0]. destruct Hr as (r & Hr & Hin). exists (r0 ++ r).
      rewrite Hr, Hr0, (assoc_L (++)). split; [done|]. apply elem_of_app. by right.
    + destruct Han as (l1 & l2 & out & s2 & -> & Hl1 & Hb). exists (m :: l1), l2, out, s2. simpl. by rewrite E.
  - right. left. by eapply run_since_trans.
  - right. right. by exists [], l, out, s.
Qed.

(** Where a proc that will be polled is. *)
Lemma awaits_where i id s :
  rt_inv s → in_place s → awaits i id s →
  busy s !! i = Some (Some id) ∨ ∃ k d, local_at i id k s d ∧ d ≤ 7.
Proof.
  intros Hs Hp (t & Ht & Hh & [Hq|[Htick _]]).
  - right. destruct (queued_local s id i Hp) as (w & k & Hw & Hk).
    + unfold homes. rewrite Ht. simpl. by rewrite Hh.
    + apply occurs_pos. rewrite (ri_queued _ Hs). unfold pending. rewrite Ht. lia.
    + destruct (busy_lookup s i w Hs Hw) as [b Hb]. exists k, (distance b w). split; [by exists w, b|].
      unfold distance. destruct (pc w), (token w), b; simpl; lia.
  - left. destruct (ri_ticking _ Hs _ _ Ht Htick) as [j Hj]. by rewrite <- (polled_at_home i j id s t).
Qed.

End Woken.

(** ** Properties *)

Section Properties.
Context {R : Type}.
Implicit Types (s : runtime R) (l : list (move R)).

(** C18: whatever is spawned, woken, dropped and polled (but not cancelled), and
    whatever the workers do, on any number of threads and in any order (with each
    operation on a proc and each access to a queue taken as one step): nothing
    drops a future twice or loops, and no operation on a proc touches freed memory
    but for two accesses, which end the execution here ([Late]): leaving the span
    at the end of [tick], and the unpark of a local schedule function; a task that
    a worker takes out of a queue is always a proc that it can run; every proc is
    in as many queues as it has [LightProc]s, which is at most one, in none while
    it is polled, and it is polled by at most one worker. *)
Theorem runtime_safe kinds l :
  steps l (start kinds) ≠ Violated ∧
  ∀ s id t, steps l (start kinds) = Went s → procs s !! id = Some t →
    occurs id (queued (pool s)) = queue (blk (body t)) ∧
    queue (blk (body t)) ≤ 1 ∧
    (freed (blk (body t)) = true → occurs id (queued (pool s)) = 0) ∧
    (is_Some (ticking (body t)) →
       occurs id (queued (pool s)) = 0 ∧ ∃ i, ∀ j, busy s !! j = Some (Some id) ↔ j = i).
Proof.
  pose proof (steps_fine l (start kinds) (rt_start_inv kinds)) as Hf.
  split; [by intros Hv; rewrite Hv in Hf|]. intros s id t Hs Ht. rewrite Hs in Hf. simpl in Hf.
  pose proof (ri_procs _ Hf _ _ Ht) as Hi. destruct (inv_queue _ Hi) as [Hq1 Hq0].
  assert (occurs id (queued (pool s)) = queue (blk (body t))) as Hocc.
  { rewrite (ri_queued _ Hf). unfold pending. by rewrite Ht. }
  split_and!; [done..| |].
  - intros Hfr. rewrite Hocc. destruct Hi; [done|discriminate Hfr].
  - intros Htick. split; [rewrite Hocc; auto|].
    destruct (ri_ticking _ Hf _ _ Ht Htick) as [i Hb]. exists i. intros j.
    split; [intros Hj; by eapply ri_once|by intros ->].
Qed.

Lemma runtime_reached_inv kinds l s : steps l (start kinds) = Went s → rt_inv s ∧ in_place s.
Proof.
  intros Hs. pose proof (steps_fine l (start kinds) (rt_start_inv kinds)) as Hf. rewrite Hs in Hf.
  split; [exact Hf|]. exact (steps_placed _ _ _ (rt_start_inv kinds) (start_placed kinds) Hs).
Qed.

(** An operation that the proc takes goes through. *)
Lemma on_proc_next s id t e b :
  rt_inv s → procs s !! id = Some t → ProcSystem.exec e (body t) = Next b →
  ∃ s', on_proc id e s = Went s' ∧ procs s' = <[id := mkTask (home_of t) b]> (procs s).
Proof.
  intros Hs Ht Hb. unfold on_proc. rewrite Ht, Hb.
  destruct (hand_all_spec (queue (blk b) - queue (blk (body t))) (home_of t) id (pool s))
    as (p & -> & _); [apply Hs|intros; by eapply ri_home|]. by eexists.
Qed.

(** C25: waking a waiting proc that is bound to a worker leads to a poll, whatever
    happens on any thread afterwards (spawning, waking, polls that return, other
    workers): as long as the process neither aborts nor touches freed memory by
    leaving a span or unparking a worker too late, the proc has been run, or the poll during which it was woken
    has returned its output, or that poll is still going on on its worker, or the
    proc is number [k] in the queue of its worker and is run by the time that
    worker has made [8 * (k + 1)] further moves; and meanwhile the worker is never
    stuck: it can make a move, or the call that unparks it can. *)
Theorem woken_proc_runs kinds l s i id t :
  steps l (start kinds) = Went s → procs s !! id = Some t → home_of t = OnWorker i →
  0 < wakers (body t) →
  State.is_completed (word (blk (body t))) = false → State.is_closed (word (blk (body t))) = false →
  ∃ s1, step (Owner id EvWake) s = Went s1 ∧
  ∀ l2 s2, steps l2 s1 = Went s2 →
    run_since id s1 s2 ∨ answered i id l2 s1 ∨
    (busy s2 !! i = Some (Some id) ∨
     ∃ w k, threads (pool s2) !! i = Some w ∧ local_tasks w !! k = Some id ∧
       ∀ l3 s3, steps l3 s2 = Went s3 → 8 * (k + 1) ≤ turns i l3 → run_since id s2 s3) ∧
    ∃ m, moves_worker i s2 m ∧ step m s2 ≠ Cannot.
Proof.
  intros Hst Ht Hh Hw Hco Hcl. destruct (runtime_reached_inv _ _ _ Hst) as [Hs Hp].
  destruct (wake_makes_due (body t) (ri_procs _ Hs _ _ Ht) Hw Hco Hcl) as (b & Hb & Hdue).
  destruct (on_proc_next s id t EvWake b Hs Ht Hb) as (s1 & Hon & Hpr).
  pose proof (step_fine s (Owner id EvWake) Hs) as Hs1. cbn [step owners] in Hs1. rewrite Hon in Hs1.
  exists s1. split; [done|]. intros l2 s2 Hl2. pose proof (on_proc_placed _ _ _ _ Hp Hon) as Hp1.
  assert (awaits i id s1) as Ha.
  { exists (mkTask (home_of t) b). rewrite Hpr, list_lookup_insert_eq by (by eapply lookup_lt_Some). done. }
  destruct (steps_awaits i id l2 s1 s2 Hs1 Hp1 Ha Hl2) as [Ha2|[?|?]]; [|by left|by right; left].
  right. right. pose proof (steps_fine l2 s1 Hs1) as Hs2. rewrite Hl2 in Hs2.
  destruct (awaits_where i id s2 Hs2 (steps_placed _ _ _ Hs1 Hp1 Hl2) Ha2) as [Hbusy|(k & d & Hk & Hd)].
  - split; [by left|]. exists (Polled i None). split; [done|]. by eapply polled_possible.
  - split; [right|by eapply local_moves]. pose proof Hk as (w & b' & Hwk & Hid & _ & _). exists w, k.
    split_and!; [done..|]. intros l3 s3 Hl3 Hturns. eapply local_served; try done. lia.
Qed.

End Properties.

(** ** Witnesses: two workers *)

Section Witnesses.

Definition reach_by (l : list (move nat)) : runtime nat :=
  match steps l (start [Static; Dynamic]) with Went s => s | _ => start [] end.

(** A global and a local proc; worker 0 takes one and polls it. *)
Definition two_procs : list (move nat) :=
  [Spawn Anywhere; Spawn (OnWorker 1); Work 0 false 0; Work 0 false 0; Work 0 false 0].

Lemma runtime_safe_witness :
  ∃ t, procs (reach_by two_procs) !! 0 = Some t ∧ is_Some (ticking (body t)) ∧
    occurs 0 (queued (pool (reach_by two_procs))) = 0.
Proof.
  destruct (runtime_safe [Static; Dynamic] two_procs) as [_ Hs].
  destruct (procs (reach_by two_procs) !! 0) as [t|] eqn:Ht; [|vm_compute in Ht; discriminate Ht].
  destruct (Hs (reach_by two_procs) 0 t) as (_ & _ & _ & Hp).
  - vm_compute. reflexivity.
  - exact Ht.
  - assert (is_Some (ticking (body t))) as Htick.
    { vm_compute in Ht. injection Ht as <-. by eexists. }
    exists t. split; [reflexivity|]. split; [exact Htick|]. apply Hp, Htick.
Defined.

(** A proc on worker 0 that has kept a waker and waits. *)
Definition waiting_local : list (move nat) :=
  [Spawn (OnWorker 0); Work 0 false 0; Owner 0 EvClone; Polled 0 None].

(** It is woken while another proc is spawned, and the worker goes round its loop. *)
Definition woken_local : list (move nat) := waiting_local ++ [Owner 0 EvWake].
Definition goes_round : list (move nat) :=
  [Work 0 true 0; Polled 0 None; Work 0 true 0; Work 0 true 0; Work 0 true 0; Work 0 true 0;
   Work 0 true 0; Work 0 true 0].

Lemma woken_proc_runs_witness :
  run_since 0 (reach_by (woken_local ++ [Spawn (OnWorker 1)]))
    (reach_by (woken_local ++ [Spawn (OnWorker 1)] ++ goes_round)).
Proof.
  destruct (procs (reach_by waiting_local) !! 0) as [t|] eqn:Ht; [|vm_compute in Ht; discriminate Ht].
  destruct (woken_proc_runs [Static; Dynamic] waiting_local (reach_by waiting_local) 0 0 t)
    as (s1 & Hs1 & Hafter).
  - vm_compute. reflexivity.
  - exact Ht.
  - vm_compute in Ht. injection Ht as <-. reflexivity.
  - vm_compute in Ht. injection Ht as <-. vm_compute. lia.
  - vm_compute in Ht. injection Ht as <-. vm_compute. reflexivity.
  - vm_compute in Ht. injection Ht as <-. vm_compute. reflexivity.
  - vm_compute in Hs1. injection Hs1 as <-.
    destruct (Hafter [Spawn (OnWorker 1)] (reach_by (woken_local ++ [Spawn (OnWorker 1)])))
      as [(r & Hr & Hin)|[(l1 & l2 & out & s' & Hl & _)|[[Hb|(w & k & Hw & Hk & Hrun)] _]]].
    + vm_compute. reflexivity.
    + vm_compute in Hr. destruct r; [by apply not_elem_of_nil in Hin|discriminate Hr].
    + destruct l1 as [|? [|]]; discriminate Hl.
    + vm_compute in Hb. discriminate Hb.
    + vm_compute in Hw. injection Hw as <-. destruct k as [|k]; [|discriminate Hk].
      apply (Hrun goes_round); vm_compute; [reflexivity|lia].
Defined.

(** The whole life of a global future: spawned, polled, woken, polled again, its
    output fetched through the handle. *)
Example future_completes :
  (λ t, answers (body t)) <$> procs (reach_by
    [Spawn Anywhere; Work 0 false 0; Work 0 false 0; Work 0 false 0; Owner 0 EvClone; Polled 0 None;
     Owner 0 (EvPoll 3); Owner 0 EvWake; Work 0 false 0; Work 0 false 0; Work 0 false 0;
     Polled 0 (Some 7); Owner 0 (EvPoll 3)]) !! 0
  = Some [HandlePending; HandleReady (Some 7)].
Proof. vm_compute. reflexivity. Qed.

(** Shutting down a task that waits, while somebody keeps its waker: giving up the
    waker frees the proc, and the worker that was handed the cancelled proc uses
    freed memory. *)
Theorem shutdown_uses_freed :
  ∃ s1, shutdown [0] (reach_by waiting_local) = Went s1 ∧
    steps [Owner 0 EvDropWaker; Work 0 false 0] s1 = Violated.
Proof. eexists. split; vm_compute; reflexivity. Qed.

End Witnesses.
