(* ===== verification/Executor.v ===== *)
(** * The executor (runtime/executor: pool.rs, run.rs)

    [Block] runs a future on the calling thread, parking it between polls; the
    wakers it hands out are references to the parker.  [Executor] spawns procs: it
    takes the group of the thread from the supervision registry, opens a span,
    which the console's layer sees, and hands the new proc to the global queue or
    to the local queue of the thread's worker. *)

From S2P Require Import Prelude LightProc Supervision.
From S2P Require Import ConsoleStats ConsoleVisitors ConsoleSpans ConsoleAggregate ConsoleView ConsoleLayer.

Local Open Scope N_scope.

(** ** Blocking on a future *)

Module Block.

(** [handles] counts the [Unparker]s, the one inside the [Parker] included. *)
Record Parker := mkParker { token : bool; handles : Z }.

Definition new_parker : Parker := mkParker false 1.

Definition unpark (p : Parker) : Parker := mkParker true (handles p).
Definition clone_unparker (p : Parker) : Parker := mkParker (token p) (handles p + 1).
Definition drop_unparker (p : Parker) : Parker := mkParker (token p) (handles p - 1).

(** The waker's table of functions. *)
Definition clone_raw (p : Parker) : Parker := clone_unparker p.
Definition wake_raw (p : Parker) : Parker := drop_unparker (unpark p).
Definition wake_by_ref_raw (p : Parker) : Parker := unpark p.
Definition drop_raw (p : Parker) : Parker := drop_unparker p.

Inductive WakerOp := Clone | Wake | WakeByRef | Drop.

Definition vtable (op : WakerOp) : Parker → Parker :=
  match op with
  | Clone => clone_raw
  | Wake => wake_raw
  | WakeByRef => wake_by_ref_raw
  | Drop => drop_raw
  end.

Definition apply_ops (ops : list WakerOp) (p : Parker) : Parker := foldl (λ p op, vtable op p) p ops.

(** Park until there is a token, and take it; [others] are the operations other
    threads have still to do on the wakers, and [None] means sleeping for ever. *)
Fixpoint park (p : Parker) (others : list WakerOp) : option (Parker * list WakerOp) :=
  if token p then Some (mkParker false (handles p), others)
  else
    match others with
    | [] => None
    | op :: others => park (vtable op p) others
    end.

(** A future: what it does to the waker in each poll that leaves it pending, and
    in the poll that completes it, and its output. *)
Record Future (R : Type) := mkFuture {
  pending : list (list WakerOp);
  last : list WakerOp;
  result : R;
}.
Arguments mkFuture {R}.
Arguments pending {R}.
Arguments last {R}.
Arguments result {R}.

Fixpoint poll_loop (pending : list (list WakerOp)) (last : list WakerOp) (p : Parker)
    (others : list WakerOp) : option (Parker * list WakerOp) :=
  match pending with
  | [] => Some (apply_ops last p, others)
  | ops :: pending =>
      '(p, others) ← park (apply_ops ops p) others;
      poll_loop pending last p others
  end.

(** [block]: [cache] is the parker kept by the thread, taken while it is in use. *)
Definition block {R} (cache : option Parker) (f : Future R) (others : list WakerOp)
  : option (R * option Parker * list WakerOp) :=
  let parker := default new_parker cache in
  '(parker, others) ← poll_loop (pending f) (last f) (clone_unparker parker) others;
  Some (result f, Some (drop_raw parker), others).

End Block.

(** ** Spawning *)

Module Executor.
Section Ops.
Context `{Hdr} {R : Type}.

(** [std::panic::Location] *)
Record Caller := mkCaller { c_file : string; c_line : N; c_column : N }.

(** A proc with the span it runs in and its group. *)
Record Task := mkTask {
  t_proc : LightProc.proc R;
  t_span : N;
  t_cgroup : option N;
}.

(** A worker of a thread: the tasks on its local queue, by their id, and the token
    of its parker. *)
Record Worker := mkWorker { w_local : list N; w_token : bool }.

Record World := mkWorld {
  registry : Supervision.SupervisionRegistry.t;
  console : ConsoleLayer.World;
  tasks : gmap N Task;
  spool : list N;
  workers : gmap N Worker;
}.

(** The calling thread, the id tracing gives the new span, and its parent. *)
Record Call := mkCall { thread : N; span_id : N; span_parent : option N; caller : Caller }.

(** The callsites of the span and of the event that follows it. *)
Record Site := mkSite { spawn_meta : Metadata; event_meta : Metadata }.

Definition spawn_fields (c : Caller) (kind : string) (cgroup : N) : list (string * Recorded) :=
  [("loc.file", RStr (c_file c)); ("loc.line", RU64 (c_line c)); ("loc.col", RU64 (c_column c));
   ("kind", RStr kind); ("cgroup", RU64 cgroup)].

(** tracing puts the span into its registry and calls the layer. *)
Definition open_span (w : ConsoleLayer.World) (call : Call) (m : Metadata)
    (fs : list (string * Recorded)) : outcome ConsoleLayer.World :=
  ConsoleLayer.on_new_span
    (ConsoleLayer.set_spans w (<[span_id call :=
       ConsoleLayer.mkSpan m (span_parent call) None None None]> (ConsoleLayer.spans w)))
    (thread call) (span_id call) m fs.

(** [LightProc::recoverable]. *)
Definition recoverable (w : World) (span : N) (cgroup : option N) : World * N :=
  let id := fresh (dom (tasks w)) in
  (mkWorld (registry w) (console w)
     (<[id := mkTask LightProc.RawProc.allocate span cgroup]> (tasks w)) (spool w) (workers w), id).

Definition set_registry (w : World) r : World := mkWorld r (console w) (tasks w) (spool w) (workers w).
Definition set_console (w : World) c : World := mkWorld (registry w) c (tasks w) (spool w) (workers w).

(** [Executor::schedule] *)
Definition schedule (w : World) (task : N) : World :=
  mkWorld (registry w) (console w) (tasks w) (spool w ++ [task]) (workers w).

Definition get_worker (w : World) (thread : N) : outcome Worker := unwrap (workers w !! thread).

Definition install_worker (w : World) (thread : N) : World :=
  mkWorld (registry w) (console w) (tasks w) (spool w) (<[thread := mkWorker [] false]> (workers w)).

(** [schedule_local]: the closure pushes the task and unparks the worker. *)
Definition schedule_local (w : World) (thread task : N) : outcome World :=
  let! worker := get_worker w thread in
  Done (mkWorld (registry w) (console w) (tasks w) (spool w)
          (<[thread := mkWorker (w_local worker ++ [task]) true]> (workers w))).

Definition spawn_in (w : World) (call : Call) (site : Site) (kind : string) (cgroup : option N)
    (schedule : World → N → outcome World) (ready : outcome ()) : outcome (World * N) :=
  let! c := open_span (console w) call (spawn_meta site)
              (spawn_fields (caller call) kind (default 0 cgroup)) in
  let! _ := ready in
  let (w, task) := recoverable (set_console w c) (span_id call) cgroup in
  let! c := ConsoleLayer.on_event (console w) (thread call) (event_meta site)
              [("message", RDebug "spawning sendable task")] in
  let! w := schedule (set_console w c) task in
  Done (w, task).

Definition spawn (w : World) (call : Call) (site : Site) : outcome (World * N) :=
  let! (r, cgroup) := Supervision.SupervisionRegistry.current (registry w) (thread call) in
  spawn_in (set_registry w r) call site "global" cgroup (λ w task, Done (schedule w task)) (Done ()).

Definition spawn_local (w : World) (call : Call) (site : Site) : outcome (World * N) :=
  let! (r, cgroup) := Supervision.SupervisionRegistry.current (registry w) (thread call) in
  spawn_in (set_registry w r) call site "local" cgroup (λ w task, schedule_local w (thread call) task)
    (let! _ := get_worker w (thread call) in Done ()).

Definition spawn_local_cgroup (w : World) (call : Call) (site : Site) (cgroup : N)
  : outcome (World * N) :=
  spawn_in w call site "local" (Some cgroup) (λ w task, schedule_local w (thread call) task)
    (let! _ := get_worker w (thread call) in Done ()).

(** [Executor::new]: the root group, current on the thread that makes it. *)
Definition new `{Supervision.PoolOps} (w : World) (thread : N) : outcome (World * N) :=
  let! (r, cgroup) := Supervision.SupervisionRegistry.new_root_group (registry w) in
  Done (set_registry w (Supervision.SupervisionRegistry.set_current r thread cgroup), cgroup).

(** [Executor::run]: the future that is blocked on writes the output into [out],
    which is taken to be initialized afterwards. *)
Definition run {A} (cache : option Block.Parker) (f : Block.Future A) (others : list Block.WakerOp)
  : option (A * option Block.Parker * list Block.WakerOp) :=
  let out_written := Block.mkFuture (Block.pending f) (Block.last f) (Some (Block.result f)) in
  '(out, cache, others) ← Block.block cache out_written others;
  a ← out;
  Some (a, cache, others).

End Ops.
End Executor.

(** ** Theorems: blocking *)

Import Block.

Definition is_wake (op : WakerOp) : bool :=
  match op with Wake | WakeByRef => true | _ => false end.

Definition wakes (ops : list WakerOp) : nat := length (filter (λ op, is_wake op = true) ops).

(** What an operation does to the number of references. *)
Definition refs_of (op : WakerOp) : Z :=
  match op with Clone => 1 | Wake | Drop => -1 | WakeByRef => 0 end%Z.

Definition net (ops : list WakerOp) : Z := foldr (λ op z, refs_of op + z)%Z 0%Z ops.

Lemma net_app l k : net (l ++ k) = (net l + net k)%Z.
Proof. induction l; simpl; lia. Qed.

Lemma vtable_handles op p : handles (vtable op p) = (handles p + refs_of op)%Z.
Proof. destruct op; simpl; lia. Qed.

Lemma apply_ops_handles ops p : handles (apply_ops ops p) = (handles p + net ops)%Z.
Proof.
  revert p. induction ops as [|op ops IH]; intros p; simpl; [lia|].
  change (handles (apply_ops ops (vtable op p)) = handles p + (refs_of op + net ops))%Z.
  rewrite IH, vtable_handles. lia.
Qed.

Lemma wakes_cons op ops : wakes (op :: ops) = ((if is_wake op then 1 else 0) + wakes ops)%nat.
Proof. unfold wakes. rewrite filter_cons. by destruct op. Qed.

(** Parking takes at most one wake from the other threads, none when there is a
    token already. *)
Lemma park_spec p others :
  (1 ≤ wakes others)%nat ∨ token p = true →
  ∃ p' did rest, park p others = Some (p', rest) ∧ others = did ++ rest ∧
    (wakes others ≤ (if token p then 0 else 1) + wakes rest)%nat ∧
    handles p' = (handles p + net did)%Z.
Proof.
  revert p. induction others as [|op others IH]; intros p Hw; simpl; destruct (token p) eqn:Ht.
  - eexists _, [], []. split; [done|]. simpl. split; [done|]. split; lia.
  - destruct Hw as [Hw|?]; [|done]. unfold wakes in Hw. simpl in Hw. lia.
  - eexists _, [], (op :: others). split; [done|]. simpl. split; [done|]. split; lia.
  - destruct Hw as [Hw|?]; [|done]. rewrite wakes_cons in Hw.
    assert (token (vtable op p) = is_wake op) as Htok by (destruct op; done || apply Ht).
    destruct (IH (vtable op p)) as (p' & did & rest & Hp & -> & Hle & Hh).
    { rewrite Htok. destruct (is_wake op); [by right|]. left. lia. }
    rewrite Htok in Hle. exists p', (op :: did), rest. split; [done|]. split; [done|]. split.
    + rewrite wakes_cons. destruct (is_wake op); lia.
    + simpl. rewrite Hh, vtable_handles. lia.
Qed.

Lemma poll_loop_spec pending last p others :
  (length pending ≤ wakes others)%nat →
  ∃ p' did rest, poll_loop pending last p others = Some (p', rest) ∧ others = did ++ rest ∧
    handles p' = (handles p + net (concat pending) + net last + net did)%Z.
Proof.
  revert p others. induction pending as [|ops pending IH]; intros p others Hw; simpl.
  - eexists _, [], others. split; [done|]. split; [done|]. rewrite apply_ops_handles. simpl. lia.
  - simpl in Hw.
    destruct (park_spec (apply_ops ops p) others) as (p1 & did & rest & -> & -> & Hle & Hh);
      [left; lia|]. simpl.
    destruct (IH p1 rest) as (p' & did' & rest' & -> & -> & Hh').
    { destruct (token (apply_ops ops p)); lia. }
    exists p', (did ++ did'), rest'. split; [done|]. split; [by rewrite (assoc_L (++))|].
    rewrite Hh', Hh, apply_ops_handles, !net_app. lia.
Qed.

(** [block] returns the output of the future: if the other threads wake it as often
    as it is pending it never sleeps for ever, whatever wakes came early or were
    left over in the parker; the parker is kept for the next call, and the
    references to it are those before plus what the operations on wakers left. *)
Theorem block_returns {R} cache (f : Future R) others :
  (length (pending f) ≤ wakes others)%nat →
  ∃ p did rest, block cache f others = Some (result f, Some p, rest) ∧ others = did ++ rest ∧
    handles p = (handles (default new_parker cache) +
      net (concat (pending f)) + net (last f) + net did)%Z.
Proof.
  intros Hw. unfold block.
  destruct (poll_loop_spec (pending f) (last f) (clone_unparker (default new_parker cache)) others Hw)
    as (p & did & rest & -> & -> & Hh). simpl.
  do 3 eexists. split; [done|]. split; [done|]. simpl in *. lia.
Qed.

Lemma run_is_block {A} cache (f : Future A) others :
  Executor.run cache f others = block cache f others.
Proof.
  unfold Executor.run, block. simpl. by destruct (poll_loop _ _ _ _) as [[p rest]|].
Qed.

(** A future that clones its waker and is woken through the clone. *)
Lemma block_returns_witness :
  ∃ p did rest, block None (mkFuture [[Clone]; [Clone; WakeByRef]] [] 42%N) [Wake; Wake; Drop] =
      Some (42, Some p, rest) ∧ [Wake; Wake; Drop] = did ++ rest ∧
    handles p = (1 + 2 + 0 + net did)%Z.
Proof. apply (block_returns None (mkFuture [[Clone]; [Clone; WakeByRef]] [] 42) [Wake; Wake; Drop]). vm_compute. lia. Defined.

(** ** Theorems: spawning *)

Section Spawn.
Context `{Hdr} {R : Type}.
Implicit Types (w : @Executor.World _ R).
Import Executor.

(** What the console is to show of a spawn. *)
Definition spawn_event (call : Call) (m : Metadata) (kind : string) (cgroup a : N) : Event :=
  EvSpawn (span_id call) m a
    [mk_field (meta_ptr m) "kind" (RStr kind); mk_field (meta_ptr m) "cgroup" (RU64 cgroup)]
    (Some (mkLocation (Some (c_file (caller call))) (Some (wrap 32 (c_line (caller call))))
             (Some (wrap 32 (c_column (caller call)))))).

Lemma spawn_fields_seen m c kind cgroup :
  TaskVisitor.result (foldl TaskVisitor.record (TaskVisitor.new m) (spawn_fields c kind cgroup)) =
  ([mk_field m "kind" (RStr kind); mk_field m "cgroup" (RU64 cgroup)],
   Some (mkLocation (Some (c_file c)) (Some (wrap 32 (c_line c))) (Some (wrap 32 (c_column c))))).
Proof. reflexivity. Qed.

(** The console's side of a spawn: the event, or a count of it. *)
Lemma open_span_spawn c call m kind cgroup stats :
  ConsoleLayer.is_spawn c m = Done true → ConsoleLayer.rx_open c = true →
  TaskStats.new (ConsoleLayer.max_poll_duration_nanos (ConsoleLayer.layer c))
    (Aggregator.clock (ConsoleLayer.env c)) = Done stats →
  ∃ c', open_span c call m (spawn_fields (caller call) kind cgroup) = Done c' ∧
    ConsoleLayer.layer c' = ConsoleLayer.layer c ∧
    if ConsoleLayer.is_full c then
      Aggregator.events (ConsoleLayer.env c') = Aggregator.events (ConsoleLayer.env c) ∧
      dropped_tasks (Aggregator.shared (ConsoleLayer.env c')) =
        incr (dropped_tasks (Aggregator.shared (ConsoleLayer.env c)))
    else ∃ a, Aggregator.events (ConsoleLayer.env c') =
        Aggregator.events (ConsoleLayer.env c) ++ [spawn_event call m kind cgroup a] ∧
      task_heap (Aggregator.heap (ConsoleLayer.env c)) !! a = None ∧
      task_heap (Aggregator.heap (ConsoleLayer.env c')) !! a = Some stats.
Proof.
  intros Hs Hrx Hst. unfold open_span, ConsoleLayer.on_new_span.
  change (ConsoleLayer.is_spawn (ConsoleLayer.set_spans c _) m) with (ConsoleLayer.is_spawn c m).
  rewrite Hs. cbn [outcome_bind]. unfold ConsoleLayer.new_task. rewrite spawn_fields_seen.
  unfold ConsoleLayer.send_stats.
  change (ConsoleLayer.is_full (ConsoleLayer.set_spans c _)) with (ConsoleLayer.is_full c).
  destruct (ConsoleLayer.is_full c).
  - cbn. eexists. split; [done|]. done.
  - cbn [ConsoleLayer.set_spans ConsoleLayer.layer ConsoleLayer.env]. rewrite Hst. cbn. rewrite Hrx.
    unfold ConsoleLayer.insert_task_ext. cbn. rewrite lookup_insert_eq. cbn.
    eexists. split; [done|]. split; [done|]. eexists. split; [done|]. cbn. split.
    + apply not_elem_of_dom, is_fresh.
    + apply lookup_insert_eq.
Qed.

(** The layer can follow a spawn at this site: the span's callsite is registered as
    one of spawns, and that of the event that follows is not one of wakes. *)
Record watched (c : ConsoleLayer.World) (site : Site) : Prop := {
  wd_spawn : ConsoleLayer.is_spawn c (spawn_meta site) = Done true;
  wd_event : ConsoleLayer.is_waker c (event_meta site) = Done false;
  wd_poll : ∃ b, Callsites.contains (ConsoleLayer.poll_op_callsites (ConsoleLayer.layer c))
                   (event_meta site) = Done b;
  wd_open : ConsoleLayer.rx_open c = true;
  wd_stats : ∃ s, TaskStats.new (ConsoleLayer.max_poll_duration_nanos (ConsoleLayer.layer c))
                    (Aggregator.clock (ConsoleLayer.env c)) = Done s;
}.

Lemma on_event_other c c' site thread fs :
  watched c site → ConsoleLayer.layer c' = ConsoleLayer.layer c →
  ConsoleLayer.on_event c' thread (event_meta site) fs = Done c'.
Proof.
  intros [_ Hw [b Hb] _ _] Hl. unfold ConsoleLayer.on_event, ConsoleLayer.is_waker in *.
  rewrite Hl, Hw. cbn [outcome_bind]. by rewrite Hb.
Qed.

Lemma watched_same c c' site :
  ConsoleLayer.layer c' = ConsoleLayer.layer c → ConsoleLayer.rx_open c' = ConsoleLayer.rx_open c →
  Aggregator.clock (ConsoleLayer.env c') = Aggregator.clock (ConsoleLayer.env c) →
  watched c site → watched c' site.
Proof.
  intros Hl Hr Hc [Hs He Hp Ho Ht].
  split; unfold ConsoleLayer.is_spawn, ConsoleLayer.is_waker in *; by rewrite ?Hl, ?Hr, ?Hc.
Qed.

(** The layer can follow the next spawn as well. *)
Lemma open_span_watched c call site kind cgroup :
  watched c site →
  ∃ c', open_span c call (spawn_meta site) (spawn_fields (caller call) kind cgroup) = Done c' ∧
    ConsoleLayer.layer c' = ConsoleLayer.layer c ∧ watched c' site.
Proof.
  intros Hw. destruct (wd_stats _ _ Hw) as [stats Hst]. unfold open_span, ConsoleLayer.on_new_span.
  change (ConsoleLayer.is_spawn (ConsoleLayer.set_spans c _) (spawn_meta site))
    with (ConsoleLayer.is_spawn c (spawn_meta site)).
  rewrite (wd_spawn _ _ Hw). cbn [outcome_bind]. unfold ConsoleLayer.new_task. rewrite spawn_fields_seen.
  unfold ConsoleLayer.send_stats.
  change (ConsoleLayer.is_full (ConsoleLayer.set_spans c _)) with (ConsoleLayer.is_full c).
  destruct (ConsoleLayer.is_full c).
  - cbn. eexists. split; [done|]. split; [done|]. by apply (watched_same c).
  - cbn [ConsoleLayer.set_spans ConsoleLayer.layer ConsoleLayer.env]. rewrite Hst. cbn.
    rewrite (wd_open _ _ Hw). unfold ConsoleLayer.insert_task_ext. cbn. rewrite lookup_insert_eq. cbn.
    eexists. split; [done|]. split; [done|]. by apply (watched_same c).
Qed.

(** What a spawn leaves behind, and that another can follow. *)
Lemma spawn_world w call site r' group :
  watched (console w) site →
  SupervisionRegistry.current (registry w) (thread call) = Done (r', Some group) →
  ∃ c' task, spawn w call site =
      Done (mkWorld r' c' (<[task := mkTask RawProc.allocate (span_id call) (Some group)]> (tasks w))
              (spool w ++ [task]) (workers w), task) ∧
    tasks w !! task = None ∧ watched c' site.
Proof.
  intros Hw Hcur.
  destruct (open_span_watched (console w) call site "global" group Hw) as (c' & Hopen & Hl & Hw').
  unfold spawn. rewrite Hcur. cbn [outcome_bind]. unfold spawn_in. simpl default.
  change (console (set_registry w r')) with (console w). rewrite Hopen.
  cbn [outcome_bind recoverable]. cbn [console set_console set_registry].
  rewrite (on_event_other _ _ _ _ _ Hw Hl). cbn.
  do 2 eexists. split; [done|]. split; [apply not_elem_of_dom, is_fresh|done].
Qed.

(** C29: Spawning works and is reported: the proc is new, with one reference and its
    handle, in the group of the calling thread, which counts one reference more;
    it is at the end of the global queue; and the console is sent an event with
    fresh stats, the kind and group of the task, and where it was spawned, unless
    its channel is full, in which case the task runs all the same and is counted
    as dropped. *)
Theorem spawn_reported w call site group r' :
  watched (console w) site →
  SupervisionRegistry.current (registry w) (thread call) = Done (r', Some group) →
  ∃ w' task, spawn w call site = Done (w', task) ∧
    tasks w !! task = None ∧
    tasks w' = <[task := mkTask RawProc.allocate (span_id call) (Some group)]> (tasks w) ∧
    spool w' = spool w ++ [task] ∧ registry w' = r' ∧
    (∃ g, SupervisionRegistry.get (registry w) group = Some g ∧
      SupervisionRegistry.get (registry w') group =
        Some (mkGroupInner (Supervision.parent g) (wrap 64 (ref_count g + 1)))) ∧
    if ConsoleLayer.is_full (console w) then
      dropped_tasks (Aggregator.shared (ConsoleLayer.env (console w'))) =
        incr (dropped_tasks (Aggregator.shared (ConsoleLayer.env (console w))))
    else ∃ a, Aggregator.events (ConsoleLayer.env (console w')) =
        Aggregator.events (ConsoleLayer.env (console w)) ++
          [spawn_event call (spawn_meta site) "global" group a] ∧
      task_heap (Aggregator.heap (ConsoleLayer.env (console w))) !! a = None.
Proof.
  intros Hw Hcur. destruct (wd_stats _ _ Hw) as [stats Hst].
  destruct (open_span_spawn (console w) call (spawn_meta site) "global" group stats
    (wd_spawn _ _ Hw) (wd_open _ _ Hw) Hst) as (c' & Hopen & Hl & Hcase).
  unfold spawn. rewrite Hcur. cbn [outcome_bind]. unfold spawn_in. simpl default.
  change (console (set_registry w r')) with (console w). rewrite Hopen.
  cbn [outcome_bind recoverable]. cbn [console set_console set_registry].
  rewrite (on_event_other _ _ _ _ _ Hw Hl). cbn.
  do 2 eexists. split; [done|]. cbn.
  split; [apply not_elem_of_dom, is_fresh|]. split; [done|]. split; [done|]. split; [done|].
  split; [|destruct (ConsoleLayer.is_full (console w)); naive_solver].
  unfold SupervisionRegistry.current in Hcur.
  destruct (SupervisionRegistry.current_ref (registry w) (thread call)) as [id|]; [|done].
  unfold SupervisionRegistry.clone_group, increment_refcnt in Hcur.
  destruct (SupervisionRegistry.get (registry w) id) as [g|] eqn:Hg; [|done].
  destruct (ref_count g =? 0); [done|]. simpl in Hcur. simplify_eq. exists g. split; [done|].
  apply get_spec. simpl. apply lookup_insert_eq.
Qed.

(** A local task can only be spawned from a worker thread; there it goes to the end of
    the thread's own local queue, and the worker is unparked. *)
Theorem spawn_local_needs_worker w call site group r' :
  watched (console w) site →
  SupervisionRegistry.current (registry w) (thread call) = Done (r', Some group) →
  match workers w !! thread call with
  | None => spawn_local w call site = Panic
  | Some worker => ∃ w' task, spawn_local w call site = Done (w', task) ∧
      tasks w !! task = None ∧ spool w' = spool w ∧
      workers w' = <[thread call := mkWorker (w_local worker ++ [task]) true]> (workers w)
  end.
Proof.
  intros Hw Hcur. destruct (wd_stats _ _ Hw) as [stats Hst].
  destruct (open_span_spawn (console w) call (spawn_meta site) "local" group stats
    (wd_spawn _ _ Hw) (wd_open _ _ Hw) Hst) as (c' & Hopen & Hl & _).
  unfold spawn_local. rewrite Hcur. cbn [outcome_bind]. unfold spawn_in. simpl default.
  change (console (set_registry w r')) with (console w). rewrite Hopen. unfold get_worker.
  destruct (workers w !! thread call) as [worker|] eqn:Hwk; [|done].
  cbn [outcome_bind unwrap recoverable]. cbn [console set_console set_registry].
  rewrite (on_event_other _ _ _ _ _ Hw Hl). cbn. unfold schedule_local, get_worker. cbn. rewrite Hwk.
  cbn. do 2 eexists. split; [done|]. cbn. split; [apply not_elem_of_dom, is_fresh|]. done.
Qed.

End Spawn.

(** ** A spawn on the default console *)

Definition demo_site : Executor.Site :=
  Executor.mkSite demo_meta (mkMetadata 11 11 "event pool.rs:126" "executor::pool").

Definition demo_call : Executor.Call :=
  Executor.mkCall 7 1 None (Executor.mkCaller "main.rs" 12 5).

Definition demo_console : @ConsoleLayer.World bound_hdr :=
  match ConsoleLayer.exec demo_world (ConsoleLayer.RegisterCallsite demo_meta) with
  | Done w => w
  | _ => demo_world
  end.

Definition demo_executor : @Executor.World bound_hdr () :=
  let w := Executor.mkWorld SupervisionRegistry.new demo_console ∅ [] ∅ in
  match Executor.new w 7 with Done (w, _) => w | _ => w end.

Lemma demo_watched : watched (Executor.console demo_executor) demo_site.
Proof. split; [vm_compute; reflexivity..| | |]; [eexists; vm_compute; reflexivity|vm_compute; reflexivity|eexists; vm_compute; reflexivity]. Qed.

Lemma spawn_reported_witness :
  ∃ w' task, Executor.spawn demo_executor demo_call demo_site = Done (w', task) ∧
    Executor.spool w' = [task].
Proof.
  edestruct (spawn_reported demo_executor demo_call demo_site 1) as (w' & task & Hs & _ & _ & Hsp & _).
  - exact demo_watched.
  - vm_compute. reflexivity.
  - exists w', task. split; [exact Hs|exact Hsp].
Defined.

Lemma spawn_local_needs_worker_witness :
  Executor.spawn_local demo_executor demo_call demo_site = Panic.
Proof.
  apply (spawn_local_needs_worker demo_executor demo_call demo_site 1
    (match SupervisionRegistry.current (Executor.registry demo_executor) 7 with
     | Done (r, _) => r | _ => SupervisionRegistry.new end)).
  - exact demo_watched.
  - vm_compute. reflexivity.
Defined.
