(* ===== verification/StateValue.v ===== *)
(** * State values (bffhd/resources/state/value.rs, and the serde form of a state in
      resources/state/mod.rs)

    A value stored in a state carries the OID of its type; the registry of
    implementations gives the vtable for an OID, and the value's metadata caches
    it.  Object identifiers are their bytes, a vtable is its address.

    [StateSerde] writes a state as a map from the OID of its value to the value,
    and reads it back; the derived serde code of [MachineState] is a parameter. *)

From S2P Require Import Prelude Oid Db Users Machine.

Local Open Scope N_scope.

Record ImplId := mkImplId { type_oid : list N }.

#[export] Instance ImplId_eq_dec : EqDecision ImplId.
Proof. solve_decision. Defined.
#[export] Instance ImplId_countable : Countable ImplId.
Proof. by apply (inj_countable' type_oid mkImplId); intros []. Qed.

Record ImplDebugInfo := mkDebugInfo { file : string; line : N; column : N }.

Record ImplData := mkImplData {
  vtable : N;
  name : string;
  info : ImplDebugInfo;
}.

(** [TypeOid] and [RegisteredImpl], the traits of a type that is registered. *)
Class Registered := {
  reg_type_oid : list N;
  reg_type_name : string;
  reg_vtable : N;
  reg_debug_info : ImplDebugInfo;
}.

Module ImplEntry.

Record t := mk { id : ImplId; data : ImplData }.

Definition from_type_oid (oid : list N) : ImplId := mkImplId oid.
Definition new_id `{Registered} : ImplId := mkImplId reg_type_oid.

Definition new (T : Registered) : t :=
  mk new_id (mkImplData reg_vtable reg_type_name reg_debug_info).

End ImplEntry.

Module ImplRegistry.

Record t := mk { oid_to_data : gmap ImplId ImplData }.

Definition new : t := mk ∅.

(** The places of the existing and the new implementation, when there are two. *)
Definition add_entry (self : t) (entry : ImplEntry.t) : t * option (ImplDebugInfo * ImplDebugInfo) :=
  (mk (<[ImplEntry.id entry := ImplEntry.data entry]> (oid_to_data self)),
   match oid_to_data self !! ImplEntry.id entry with
   | Some old => Some (info old, info (ImplEntry.data entry))
   | None => None
   end).

Definition get (self : t) (id : ImplId) : option ImplData := oid_to_data self !! id.

(** [IMPL_REGISTRY], of the entries the inventory has, in its order, and the
    conflicts printed. *)
Definition build (entries : list ImplEntry.t) : t * list (ImplDebugInfo * ImplDebugInfo) :=
  foldl (λ '(reg, out) entry,
      let '(reg, conflict) := add_entry reg entry in (reg, out ++ option_list conflict))
    (new, []) entries.

End ImplRegistry.

Module ArchivedStateValueMetadata.

Record t := mk { meta_oid : list N; vtable_cache : N }.

(** [resolve_metadata], for a type with the given OID. *)
Definition resolve_metadata (archived_type_oid : list N) : t := mk archived_type_oid 0.

(** [vtable] on the global registry: the metadata with its cache, and the vtable. *)
Definition get_vtable (reg : ImplRegistry.t) (self : t) : outcome (t * N) :=
  if negb (vtable_cache self =? 0) then Done (self, vtable_cache self)
  else
    let! data := unwrap (ImplRegistry.get reg (ImplEntry.from_type_oid (meta_oid self))) in
    Done (mk (meta_oid self) (vtable data), vtable data).

Definition pointer_metadata (reg : ImplRegistry.t) (self : t) : outcome (t * N) :=
  get_vtable reg self.

(** Every call of a sequence. *)
Fixpoint get_vtables (reg : ImplRegistry.t) (n : nat) (self : t) : outcome (t * list N) :=
  match n with
  | O => Done (self, [])
  | S n =>
      let! (self, v) := get_vtable reg self in
      let! (self, l) := get_vtables reg n self in
      Done (self, v :: l)
  end.

End ArchivedStateValueMetadata.

(** [NewState::get_value] *)
Definition get_value {A} : outcome (option A) := Panic.

(** ** The serde form of a state *)

(** The derived [Serialize] and [Deserialize] of [MachineState]. *)
Class MachineSerde := {
  Content : Type;
  ser_machine : MachineState → Content;
  de_machine : Content → option MachineState;
}.

Class MachineSerdeLaws `{MachineSerde} : Prop := {
  machine_roundtrip ms : de_machine (ser_machine ms) = Some ms;
}.

Module StateSerde.
Section StateSerde.
Context `{MachineSerde}.

Definition OID_VALUE : outcome Oid.ObjectIdentifier :=
  let! r := Oid.from_str Oid.OID_VALUE_str in unwrap_ok r.

(** [State::serialize]: the entries of the map. *)
Definition serialize (human_readable : bool) (self : State) : outcome (list (Oid.serde_form * Content)) :=
  let! oid := OID_VALUE in
  let! key := Oid.serialize human_readable oid in
  Done [(key, ser_machine (inner self))].

Inductive DeError := MissingField | BadOid (e : Oid.ObjectIdentifierError) | UnknownOid | BadValue.

(** [StateVisitor::visit_map]: the first entry is read, whatever follows. *)
Definition visit_map (map : list (Oid.serde_form * Content)) : outcome (result State DeError) :=
  match map with
  | [] => Done (Err MissingField)
  | (key, val) :: _ =>
      let! r := Oid.visit key in
      match r with
      | Err e => Done (Err (BadOid e))
      | Ok oid =>
          let! value := OID_VALUE in
          if decide (Oid.nodes oid = Oid.nodes value) then
            Done (from_option (λ ms, Ok (mkState ms)) (Err BadValue) (de_machine val))
          else Done (Err UnknownOid)
      end
  end.

End StateSerde.
End StateSerde.

(** ** Theorems *)

Section Serde.
Context `{MachineSerdeLaws}.

(** A state is read back from both serde forms, and only a map whose first key is
    the OID of the machine state is read as a state. *)
Theorem state_serde_roundtrip :
  (∀ human st, ∃ m, StateSerde.serialize human st = Done m ∧ StateSerde.visit_map m = Done (Ok st)) ∧
  (∀ key val rest st, StateSerde.visit_map ((key, val) :: rest) = Done (Ok st) →
     ∃ o, Oid.visit key = Done (Ok o) ∧ Oid.into_string o = Done Oid.OID_VALUE_str ∧
       de_machine val = Some (inner st)).
Proof.
  split.
  - intros human [ms]. unfold StateSerde.serialize, StateSerde.visit_map.
    assert (∃ o k, StateSerde.OID_VALUE = Done o ∧ Oid.serialize human o = Done k ∧
      Oid.visit k = Done (Ok o)) as (o & k & -> & Hk & Hv).
    { destruct human; eexists _, _; (split; [by vm_compute|]); (split; [by vm_compute|]); by vm_compute. }
    cbn [outcome_bind]. rewrite Hk. eexists. split; [done|]. cbn [outcome_bind]. rewrite Hv.
    cbn [outcome_bind]. by rewrite decide_True, machine_roundtrip.
  - intros key val rest st. unfold StateSerde.visit_map.
    intros ([o|e] & Ho & Hr)%outcome_bind_Done; [|done]. exists o. split; [done|].
    apply outcome_bind_Done in Hr as (v & Hv & Hr).
    destruct (decide (Oid.nodes o = Oid.nodes v)) as [Heq|]; [|done]. split.
    + unfold Oid.into_string. rewrite Heq. vm_compute in Hv. injection Hv as <-. by vm_compute.
    + destruct (de_machine val) as [ms|]; by simplify_eq/=.
Qed.

End Serde.

Import ArchivedStateValueMetadata.

Lemma build_snoc entries e :
  ImplRegistry.build (entries ++ [e]) =
  let '(reg, out) := ImplRegistry.build entries in
  ((ImplRegistry.add_entry reg e).1, out ++ option_list (ImplRegistry.add_entry reg e).2).
Proof. unfold ImplRegistry.build. rewrite foldl_app. simpl. by destruct (foldl _ _ _). Qed.

Definition of_id (id : ImplId) (e : ImplEntry.t) : Prop := ImplEntry.id e = id.
#[export] Instance of_id_dec id e : Decision (of_id id e).
Proof. unfold of_id. apply _. Defined.

(** The last registration of an OID is the one looked up, and there is one message
    for each registration that replaces another. *)
Lemma registry_build_spec entries id :
  ImplRegistry.get (ImplRegistry.build entries).1 id =
    ImplEntry.data <$> last (filter (of_id id) entries) ∧
  (size (ImplRegistry.oid_to_data (ImplRegistry.build entries).1) +
    length (ImplRegistry.build entries).2 = length entries)%nat.
Proof.
  unfold ImplRegistry.get. induction entries as [|e entries [IH1 IH2]] using rev_ind; [done|].
  rewrite build_snoc. destruct (ImplRegistry.build entries) as [reg out]. simpl in *.
  rewrite filter_app, filter_cons, filter_nil, !length_app. unfold of_id at 2. split.
  - destruct (decide (ImplEntry.id e = id)) as [<-|Hn].
    + by rewrite lookup_insert_eq, last_snoc.
    + by rewrite lookup_insert_ne, app_nil_r by done.
  - destruct (ImplRegistry.oid_to_data reg !! ImplEntry.id e) as [old|] eqn:Ho; simpl.
    + rewrite (map_size_insert_Some _ _ _ (mk_is_Some _ _ Ho)). lia.
    + rewrite map_size_insert_None by done. lia.
Qed.

Lemma get_vtables_cached reg data self n :
  ImplRegistry.get reg (ImplEntry.from_type_oid (meta_oid self)) = Some data →
  vtable_cache self = 0 ∨ vtable_cache self = vtable data →
  ∃ self', get_vtables reg n self = Done (self', replicate n (vtable data)).
Proof.
  revert self. induction n as [|n IH]; intros [oid c] Hg Hc; simpl in *; [by eexists|].
  unfold get_vtable. simpl.
  assert (∃ c', (if negb (c =? 0) then Done (mk oid c, c)
    else let! data := unwrap (ImplRegistry.get reg (ImplEntry.from_type_oid oid)) in
         Done (mk oid (vtable data), vtable data)) = Done (mk oid c', vtable data) ∧
    c' = vtable data) as (c' & -> & ->).
  { rewrite Hg. simpl. destruct (N.eqb_spec c 0); simpl; [by eexists|].
    destruct Hc as [?| ->]; [done|by eexists]. }
  simpl. destruct (IH (mk oid (vtable data))) as [self' ->]; simpl; eauto.
Qed.

(** However often the vtable of a stored value is asked for, through the cache or
    not, it is the one of the last implementation registered under the value's
    OID; for an OID nobody registered, asking panics. *)
Theorem vtable_of_last_entry entries oid n :
  let reg := (ImplRegistry.build entries).1 in
  match last (filter (of_id (mkImplId oid)) entries) with
  | Some e => ∃ self', get_vtables reg n (resolve_metadata oid) =
      Done (self', replicate n (vtable (ImplEntry.data e)))
  | None => get_vtables reg (S n) (resolve_metadata oid) = Panic
  end.
Proof.
  intros reg. destruct (registry_build_spec entries (mkImplId oid)) as [Hg _].
  destruct (last _) as [e|]; simpl in Hg.
  - apply get_vtables_cached; [exact Hg|by left].
  - simpl. unfold get_vtable. simpl. unfold reg, ImplEntry.from_type_oid. by rewrite Hg.
Qed.
