(* ===== verification/Startup.v ===== *)
(** * Starting the server (bffhd: config, capnp/config.rs, capnp/mod.rs, tls.rs,
      keylog.rs, utils/uuid.rs; the program in bin/bffhd/main.rs)

    [Config] is the configuration and how it is read, [Main] what the command line
    makes of it, [Tls] the TLS acceptor and [KeyLog] the file of TLS secrets,
    [APIServer] the listening sockets and what happens to a connection, [Uuid] the
    conversion of ids to the API.  Files, PEM decoding, rustls, name resolution and
    sockets are parameters. *)

From S2P Require Import Prelude Roles Machine UserApi.
From S2P Require Import ConsoleStats ConsoleVisitors ConsoleSpans ConsoleAggregate ConsoleView ConsoleLayer.
From S2P Require Import LightProc Supervision Executor.

Local Open Scope N_scope.

(** ** Configuration *)

Definition DEFAULT_PORT : N := 59661.

Module Listen.

Record t := mk { address : string; port : option N }.

Definition to_tuple (self : t) : string * N := (address self, default DEFAULT_PORT (port self)).

Definition fmt (self : t) : string :=
  address self +:+ ":" +:+ to_string (default DEFAULT_PORT (port self)).

End Listen.

Record TlsListen := mkTlsListen {
  certfile : string;
  keyfile : string;
  ciphers : option string;
  tls_min_version : option string;
  protocols : list string;
}.

Record LogConfig := mkLogConfig { log_filter : option string; log_format : string }.

Definition LogConfig_default : LogConfig := mkLogConfig None "full".

Module Config.

Record t := mk {
  listens : list Listen.t;
  machines : gmap string MachineDescription;
  actors : gmap string ModuleConfig;
  initiators : gmap string ModuleConfig;
  mqtt_url : string;
  actor_connections : list (string * string);
  init_connections : list (string * string);
  db_path : string;
  auditlog_path : string;
  roles : gmap string Role;
  tlsconfig : TlsListen;
  tlskeylog : option string;
  verbosity : Z;
  logging : LogConfig;
  spacename : string;
  instanceurl : string;
}.

Definition is_quiet (self : t) : bool := (verbosity self <? 0)%Z.

(** [deser_option]: what cannot be read is not there. *)
Definition deser_option {A E} (d : result A E) : result (option A) E := Ok (ok d).

Definition default : t :=
  mk [Listen.mk "127.0.0.1" None] ∅
    {[ "Actor" := mkModuleConfig "Shelly" ∅ ]} {[ "Initiator" := mkModuleConfig "TCP-Listen" ∅ ]}
    "tcp://localhost:1883" [("Testmachine", "Actor")] [("Initiator", "Testmachine")]
    "/run/bffh/database" "/var/log/bffh/audit.log" ∅
    (mkTlsListen "./bffh.crt" "./bffh.key" None None []) None 0 LogConfig_default
    EmptyString EmptyString.

Inductive ConfigError := NotFound (path : string) | NotAFile (path : string) | Parse (e : string).

(** What is at a path, and what the Dhall library makes of a file. *)
Inductive Node := Missing | Directory | File (parsed : result t string).

Definition read (fs : string → Node) (path : string) : result t ConfigError :=
  match fs path with
  | Missing => Err (NotFound path)
  | Directory => Err (NotAFile path)
  | File parsed => map_err Parse parsed
  end.

End Config.

(** ** The command line *)

Module Main.

(** The arguments clap accepted. *)
Record Matches := mkMatches {
  m_config : option string;
  m_verbosity : N;
  m_quiet : bool;
  m_log_format : option string;
  m_print_default : bool;
  m_check : bool;
  m_dump : bool;
  m_dump_users : option string;
  m_force : bool;
  m_load : option string;
  m_keylog : option string;
}.

(** What the program does then. *)
Inductive Action :=
| PrintDefault (config : Config.t)
| PrintConfig (config : Config.t)
| ExitFailure (error : Config.ConfigError)
| ConfigFailed (error : Config.ConfigError)
| DumpNotImplemented
| DumpUsers (config : Config.t) (file : string) (force : bool)
| LoadUsers (config : Config.t) (file : string)
| NoKeylogPath
| Serve (config : Config.t).

Definition keylog_path (m : Matches) (env : option string) : option (option string) :=
  match m_keylog m with
  | Some EmptyString =>
      match env with
      | None | Some EmptyString => None
      | Some p => Some (Some p)
      end
  | k => Some k
  end.

(** The configuration the server is run with. *)
Definition configure (m : Matches) (keylog : option string) (c : Config.t) : Config.t :=
  let verbosity := Z.of_N (m_verbosity m) in
  let verbosity := if (verbosity =? 0)%Z && m_quiet m then (-1)%Z else verbosity in
  Config.mk (Config.listens c) (Config.machines c) (Config.actors c) (Config.initiators c)
    (Config.mqtt_url c) (Config.actor_connections c) (Config.init_connections c)
    (Config.db_path c) (Config.auditlog_path c) (Config.roles c) (Config.tlsconfig c)
    keylog verbosity
    (mkLogConfig (log_filter (Config.logging c)) (default "full" (m_log_format m)))
    (Config.spacename c) (Config.instanceurl c).

(** [env] is the variable [SSLKEYLOGFILE]. *)
Definition main (fs : string → Config.Node) (env : option string) (m : Matches) : Action :=
  let configpath := default "/etc/difluoroborane.dhall" (m_config m) in
  if m_print_default m then PrintDefault Config.default
  else if m_check m then
    match Config.read fs configpath with
    | Ok c => PrintConfig c
    | Err e => ExitFailure e
    end
  else
    match Config.read fs configpath with
    | Err e => ConfigFailed e
    | Ok config =>
        if m_dump m then DumpNotImplemented
        else
          match m_dump_users m, m_load m with
          | Some file, _ => DumpUsers config file (m_force m)
          | None, Some file => LoadUsers config file
          | None, None =>
              match keylog_path m env with
              | None => NoKeylogPath
              | Some keylog => Serve (configure m keylog config)
              end
          end
    end.

End Main.

(** ** TLS *)

Definition lower_char (c : ascii) : ascii :=
  let n := N_of_ascii c in if in_range 65 90 n then ascii_of_N (n + 32) else c.

(** [to_lowercase]; characters beyond ASCII, none of which becomes an ASCII letter
    of a version's name, are kept. *)
Fixpoint to_lowercase (s : string) : string :=
  match s with
  | EmptyString => EmptyString
  | String c s => String (lower_char c) (to_lowercase s)
  end.

Module Tls.

Inductive Version := TLS12 | TLS13.

(** An item of a PEM file. *)
Inductive Item := PKCS8Key (key : list N) | RSAKey (key : list N) | OtherItem.

Class TlsIo := {
  open_file : string → result string string;
  pem_certs : string → result (list (list N)) string;
  pem_read_one : string → result (option Item) string;
  protocol_versions : list Version → result () string;
  single_cert : list (list N) → list N → result () string;
  open_append : string → result () string;
}.

Inductive Error :=
| OpenCertFile (path e : string)
| OpenKeyFile (path e : string)
| SystemCertsFile (e : string)
| ReadKeyFile (e : string)
| KeyFileFormat
| TlsVersion (v : string)
| BuilderError (e : string)
| KeyLogOpen (e : string).

(** The cipher suites by their names; the configured list is not looked up. *)
Inductive CipherSuite :=
| ECDHE_ECDSA_AES_128_GCM | ECDHE_ECDSA_AES_256_GCM | ECDHE_ECDSA_CHACHA20
| ECDHE_RSA_AES_128_GCM | ECDHE_RSA_AES_256_GCM | ECDHE_RSA_CHACHA20
| TLS13_AES_128_GCM | TLS13_AES_256_GCM | TLS13_CHACHA20.

Definition suites : list (string * CipherSuite) :=
  [("TLS_ECDHE_ECDSA_WITH_AES_128_GCM_SHA256", ECDHE_ECDSA_AES_128_GCM);
   ("TLS_ECDHE_ECDSA_WITH_AES_256_GCM_SHA384", ECDHE_ECDSA_AES_256_GCM);
   ("TLS_ECDHE_ECDSA_WITH_CHACHA20_POLY1305_SHA256", ECDHE_ECDSA_CHACHA20);
   ("TLS_ECDHE_RSA_WITH_AES_128_GCM_SHA256", ECDHE_RSA_AES_128_GCM);
   ("TLS_ECDHE_RSA_WITH_AES_256_GCM_SHA384", ECDHE_RSA_AES_256_GCM);
   ("TLS_ECDHE_RSA_WITH_CHACHA20_POLY1305_SHA256", ECDHE_RSA_CHACHA20);
   ("TLS13_AES_128_GCM_SHA256", TLS13_AES_128_GCM);
   ("TLS13_AES_256_GCM_SHA384", TLS13_AES_256_GCM);
   ("TLS13_CHACHA20_POLY1305_SHA256", TLS13_CHACHA20)].

Definition lookup_cipher_suite (name : string) : option CipherSuite :=
  (λ p, p.2.2) <$> list_find (λ p, p.1 = name) suites.

Record TlsConfig := mkTlsConfig { keylog : option string }.

(** The configuration of the acceptor. *)
Record Acceptor := mkAcceptor {
  versions : list Version;
  certs : list (list N);
  key : list N;
  key_log : option string;
}.

Section Ops.
Context `{TlsIo}.

Definition new (keylogfile : option string) : result TlsConfig Error :=
  match keylogfile with
  | Some path => let? _ := map_err KeyLogOpen (open_append path) in Ok (mkTlsConfig (Some path))
  | None => Ok (mkTlsConfig None)
  end.

Definition SAFE_DEFAULT_VERSIONS : list Version := [TLS13; TLS12].

Definition pick_versions (config : TlsListen) : result (list Version) Error :=
  match tls_min_version config with
  | Some min =>
      let v := to_lowercase min in
      if decide (v = "tls12") then Ok [TLS12]
      else if decide (v = "tls13") then Ok [TLS13]
      else Err (TlsVersion v)
  | None => Ok SAFE_DEFAULT_VERSIONS
  end.

Definition make_tls_acceptor (self : TlsConfig) (config : TlsListen) : result Acceptor Error :=
  let? certfp := map_err (OpenCertFile (certfile config)) (open_file (certfile config)) in
  let? certs := map_err SystemCertsFile (pem_certs certfp) in
  let? keyfp := map_err (OpenKeyFile (keyfile config)) (open_file (keyfile config)) in
  let? item := map_err ReadKeyFile (pem_read_one keyfp) in
  let? key := match item with
              | Some (PKCS8Key key) | Some (RSAKey key) => Ok key
              | _ => Err KeyFileFormat
              end in
  let? versions := pick_versions config in
  let? _ := map_err BuilderError (protocol_versions versions) in
  let? _ := map_err BuilderError (single_cert certs key) in
  Ok (mkAcceptor versions certs key (keylog self)).

End Ops.
End Tls.

Module KeyLog.

(** [KeyLogFileInner]: the file's contents and the buffer kept for the lines. *)
Record t := mk { file : string; buf : string }.

(** [new]: the file is opened for appending; [opened] is what it held. *)
Definition new (opened : result string string) : result t string :=
  let? contents := opened in Ok (mk contents EmptyString).

(** [write_all] succeeds, or fails leaving the file as [partial] says. *)
Definition try_write (self : t) (failed : option string) (label : string) (client_random secret : list N)
  : t * result () () :=
  let buf := label +:+ " " +:+ hex_encode_bytes client_random +:+ " " +:+
             hex_encode_bytes secret +:+ String (ascii_of_N 10) EmptyString in
  match failed with
  | None => (mk (file self +:+ buf) buf, Ok ())
  | Some partial => (mk partial buf, Err ())
  end.

(** [rustls::KeyLog::log]: a failure is only logged. *)
Definition log (self : t) (failed : option string) (label : string) (client_random secret : list N) : t :=
  (try_write self failed label client_random secret).1.

End KeyLog.

(** ** Ids in the API *)

Module Uuid.

Definition uuid_to_api (uuid : N) : N * N :=
  let bytes := State.to_bytes 16 uuid in
  (State.of_bytes (take 8 bytes), State.of_bytes (drop 8 bytes)).

Definition api_to_uuid (uuid0 uuid1 : N) : N :=
  State.of_bytes (State.to_bytes 8 uuid0 ++ State.to_bytes 8 uuid1).

End Uuid.

(** ** The API server *)

Module APIServer.

Section Bind.

(** Resolving an address, and opening a socket on one. *)
Context {Addr Socket : Type}.
Context (resolve : string * N → result (list Addr) string).
Context (bind_socket : Addr → result Socket string).

(** The addresses in the order in which they are resolved, the sockets in the
    order in which they are opened. *)
Definition resolved (listens : list Listen.t) : list Addr :=
  mjoin (omap (λ l, ok (resolve (Listen.to_tuple l))) listens).

Definition bind (listens : list Listen.t) : list Socket :=
  omap (λ addr, ok (bind_socket addr)) (resolved listens).

End Bind.

Section Handle.
Context `{Hdr, PoolOps} {R : Type}.

(** What a listening socket gives: a connection, with the address of its peer if
    it has one, or a failure. *)
Inductive Incoming (Addr : Type) := Accepted (peer : option Addr) | AcceptFailed.

(** [handle]: the connection is served by a task on this thread, in a group of its
    own. *)
Definition handle (w : @Executor.World _ R) (call : Executor.Call) (site : Executor.Site)
  : outcome (Executor.World * N) :=
  let! (r, cgroup) := SupervisionRegistry.new_group (Executor.registry w) (Executor.thread call) in
  Executor.spawn_local_cgroup (Executor.set_registry w r) call site cgroup.

(** [handle_until], on the connections that come before the stop signal. *)
Definition handle_until {Addr} (w : @Executor.World _ R) (site : Executor.Site)
    (incoming : list (Incoming Addr * Executor.Call)) : outcome Executor.World :=
  for_loop (λ w '(i, call),
      match i with
      | Accepted _ (Some _) => let! (w, _) := handle w call site in Done w
      | _ => Done w
      end) w incoming.

End Handle.

End APIServer.

(** ** Theorems: configuration *)

Import Main.

(** What the server is run with: everything as in the file, but for the log of TLS
    secrets, the verbosity and the log format, which are those of the command line
    whatever the file says; it is quiet exactly when asked to be and not asked to
    be verbose as well. *)
Theorem main_serves fs env m c :
  main fs env m = Serve c →
  ∃ c0, Config.read fs (default "/etc/difluoroborane.dhall" (m_config m)) = Ok c0 ∧
    m_print_default m = false ∧ m_check m = false ∧ m_dump m = false ∧
    m_dump_users m = None ∧ m_load m = None ∧
    Config.listens c = Config.listens c0 ∧ Config.machines c = Config.machines c0 ∧
    Config.roles c = Config.roles c0 ∧ Config.tlsconfig c = Config.tlsconfig c0 ∧
    Config.is_quiet c = m_quiet m && (m_verbosity m =? 0) ∧
    (m_keylog m = None → Config.tlskeylog c = None) ∧
    (∀ p, m_keylog m = Some p → ∃ q, Config.tlskeylog c = Some q ∧ q ≠ EmptyString ∧
       (q = p ∨ p = EmptyString ∧ env = Some q)).
Proof.
  unfold main. destruct (m_print_default m); [done|].
  destruct (m_check m); [by destruct (Config.read _ _)|].
  destruct (Config.read _ _) as [c0|]; [|done]. destruct (m_dump m); [done|].
  destruct (m_dump_users m), (m_load m); try done.
  destruct (keylog_path m env) as [k|] eqn:Hk; [|done]. intros [= <-].
  exists c0. repeat (split; [done|]). split; [|split].
  - unfold Config.is_quiet, configure. simpl. destruct (m_verbosity m), (m_quiet m); done.
  - unfold keylog_path in Hk. intros Hm. rewrite Hm in Hk. by simplify_eq.
  - unfold keylog_path in Hk. intros p Hm. rewrite Hm in Hk. simpl. destruct p as [|ch p].
    + destruct env as [[|ch q]|]; simplify_eq. eexists. split; [done|]. split; [done|]. by right.
    + simplify_eq. eexists. split; [done|]. split; [done|]. by left.
Qed.

Definition demo_fs (path : string) : Config.Node :=
  if decide (path = "/etc/difluoroborane.dhall") then Config.File (Ok Config.default) else Config.Missing.

Definition demo_matches : Matches :=
  mkMatches None 0 true None false false false None false None (Some EmptyString).

Lemma main_serves_witness :
  ∃ c, main demo_fs (Some "/tmp/keys") demo_matches = Serve c ∧ Config.is_quiet c = true.
Proof.
  eexists. split; [vm_compute; reflexivity|].
  edestruct (main_serves demo_fs (Some "/tmp/keys") demo_matches)
    as (c0 & _ & _ & _ & _ & _ & _ & _ & _ & _ & _ & Hq & _); [vm_compute; reflexivity|exact Hq].
Defined.

(** ** Theorems: TLS *)

Section Tls.
Context `{Tls.TlsIo}.

(** The acceptor is made of the files and of the version alone: what the
    configuration says of ciphers and protocols does not matter; a minimum version
    is the only one accepted, and one that is not known is an error; without one
    there are both. *)
Theorem acceptor_from self config a :
  Tls.make_tls_acceptor self config = Ok a →
  (∀ c p, Tls.make_tls_acceptor self (mkTlsListen (certfile config) (keyfile config) c
            (tls_min_version config) p) = Ok a) ∧
  Tls.key_log a = Tls.keylog self ∧
  Tls.versions a = match tls_min_version config with
                   | None => [Tls.TLS13; Tls.TLS12]
                   | Some v => if decide (to_lowercase v = "tls12") then [Tls.TLS12] else [Tls.TLS13]
                   end ∧
  (∀ v, tls_min_version config = Some v → to_lowercase v = "tls12" ∨ to_lowercase v = "tls13").
Proof.
  intros Ha. split; [done|]. revert Ha.
  unfold Tls.make_tls_acceptor, Tls.pick_versions, Tls.SAFE_DEFAULT_VERSIONS.
  intros (? & _ & (? & _ & (? & _ & (? & _ & (? & _ & (vs & Hv & (? & _ & (? & _ & Ha)
    %result_bind_Ok)%result_bind_Ok)%result_bind_Ok)%result_bind_Ok)%result_bind_Ok)%result_bind_Ok)
    %result_bind_Ok)%result_bind_Ok.
  injection Ha as <-. simpl. split; [done|].
  destruct (tls_min_version config) as [v|]; [|split; [by simplify_eq|done]].
  destruct (decide (to_lowercase v = "tls12")) as [Hl|]; [split; [by simplify_eq|intros ? [= <-]; by left]|].
  destruct (decide (to_lowercase v = "tls13")) as [Hl|]; [|done].
  split; [by simplify_eq|intros ? [= <-]; by right].
Qed.

End Tls.

(** Files in which everything is found. *)
#[export] Instance demo_tls : Tls.TlsIo := {|
  Tls.open_file path := Ok path;
  Tls.pem_certs _ := Ok [[1]];
  Tls.pem_read_one _ := Ok (Some (Tls.RSAKey [2]));
  Tls.protocol_versions _ := Ok ();
  Tls.single_cert _ _ := Ok ();
  Tls.open_append _ := Ok ();
|}.

Lemma acceptor_from_witness :
  let config := mkTlsListen "crt" "key" (Some "TLS13_AES_128_GCM_SHA256") (Some "TLS12") ["http/1.1"] in
  Tls.versions (Tls.mkAcceptor [Tls.TLS12] [[1]] [2] None) = [Tls.TLS12] ∧
  Tls.make_tls_acceptor (Tls.mkTlsConfig None) (mkTlsListen "crt" "key" None (Some "TLS12") []) =
    Ok (Tls.mkAcceptor [Tls.TLS12] [[1]] [2] None).
Proof.
  intros config.
  destruct (acceptor_from (Tls.mkTlsConfig None) config (Tls.mkAcceptor [Tls.TLS12] [[1]] [2] None))
    as (H1 & _ & H2 & _); [vm_compute; reflexivity|].
  split; [exact H2|apply H1].
Defined.

(** ** Theorems: the key log *)

(** A reader of key logs: lines of a label and two strings of hex digits. *)
Definition read_line (line : string) : option (string * list N * list N) :=
  match split " " line with
  | [label; random; secret] =>
      r ← hex_decode_string random; s ← hex_decode_string secret; Some (label, r, s)
  | _ => None
  end.

Definition read_log (s : string) : list (option (string * list N * list N)) :=
  read_line <$> split_terminator (ascii_of_N 10) s.

Definition entry := (string * list N * list N)%type.

(** The file after all entries were written. *)
Definition write_all (f : KeyLog.t) (l : list entry) : KeyLog.t :=
  foldl (λ f '(label, random, secret), (KeyLog.try_write f None label random secret).1) f l.

Definition entry_ok (e : entry) : Prop :=
  no_char " " e.1.1 = true ∧ no_char (ascii_of_N 10) e.1.1 = true ∧
  Forall (fits 8) e.1.2 ∧ Forall (fits 8) e.2.

Lemma no_char_cons c d s : d ≠ c → no_char c s = true → no_char c (String d s) = true.
Proof. intros Hd Hs. unfold no_char. simpl. by rewrite bool_decide_true. Qed.

Lemma hex_no_char c l :
  hex_value c = None → Forall (fits 8) l → no_char c (hex_encode_bytes l) = true.
Proof.
  intros Hc. induction 1 as [|b l Hb _ IH]; [done|]. unfold fits in Hb.
  assert (∀ n, n < 16 → hex_digit n ≠ c) as Hd.
  { intros n Hn <-. by rewrite hex_value_digit in Hc. }
  cbn [hex_encode_bytes]. apply no_char_cons; [|apply no_char_cons]; [| |done].
  - apply Hd, N.Div0.div_lt_upper_bound. lia.
  - apply Hd, N.mod_lt. lia.
Qed.

Definition key_line (e : entry) : string :=
  e.1.1 +:+ " " +:+ hex_encode_bytes e.1.2 +:+ " " +:+ hex_encode_bytes e.2.

Lemma read_key_line e : entry_ok e → read_line (key_line e) = Some e.
Proof.
  destruct e as [[label random] secret]. intros (Hl & _ & Hr & Hs). simpl in *.
  unfold read_line, key_line. cbn [fst snd].
  change (" " +:+ hex_encode_bytes random +:+ " " +:+ hex_encode_bytes secret) with
    (String " " (hex_encode_bytes random +:+ String " " (hex_encode_bytes secret))).
  rewrite !split_app_sep by (done || by apply hex_no_char).
  rewrite split_no_char by by apply hex_no_char.
  pose proof (hex_roundtrip random Hr) as H1. pose proof (hex_roundtrip secret Hs) as H2.
  simpl in H1, H2. by rewrite H1, H2.
Qed.

Lemma key_line_one_line e : entry_ok e → no_char (ascii_of_N 10) (key_line e) = true.
Proof.
  intros (_ & Hl & Hr & Hs). pose proof (hex_no_char (ascii_of_N 10) _ eq_refl Hr) as Hr'.
  pose proof (hex_no_char (ascii_of_N 10) _ eq_refl Hs) as Hs'.
  unfold key_line, no_char in *. rewrite !sall_app. by rewrite Hl, Hr', Hs'.
Qed.

Definition key_text (l : list entry) : string :=
  foldr (λ e s, key_line e +:+ String (ascii_of_N 10) s) EmptyString l.

Lemma write_all_text l f : KeyLog.file (write_all f l) = KeyLog.file f +:+ key_text l.
Proof.
  revert f. induction l as [|[[label random] secret] l IH]; intros f; simpl;
    [by rewrite string_app_nil_r|].
  change (KeyLog.file (write_all (KeyLog.try_write f None label random secret).1 l) =
    KeyLog.file f +:+ (key_line (label, random, secret) +:+ String (ascii_of_N 10) (key_text l))).
  rewrite IH. unfold key_line. cbn [KeyLog.try_write fst snd KeyLog.file].
  by rewrite !string_app_assoc.
Qed.

Lemma split_key_text l :
  Forall entry_ok l → split (ascii_of_N 10) (key_text l) = (key_line <$> l) ++ [EmptyString].
Proof.
  induction 1 as [|e l He _ IH]; [done|]. cbn [key_text foldr fmap list_fmap].
  fold (key_text l). rewrite split_app_sep by by apply key_line_one_line. by rewrite IH.
Qed.

(** Whatever secrets are logged, with labels on one line and without spaces, a
    reader of the file gets exactly them, in order. *)
Theorem key_log_roundtrip l :
  Forall entry_ok l →
  read_log (KeyLog.file (write_all (KeyLog.mk EmptyString EmptyString) l)) = Some <$> l.
Proof.
  intros Hl. rewrite write_all_text. unfold read_log, split_terminator. cbn [KeyLog.file].
  rewrite string_app_nil_l, split_key_text by done.
  rewrite last_snoc, removelast_last, <-list_fmap_compose.
  apply list_fmap_ext. intros i e He. simpl. apply read_key_line.
  by eapply Forall_lookup_1.
Qed.

Lemma key_log_roundtrip_witness :
  read_log (KeyLog.file (write_all (KeyLog.mk EmptyString EmptyString)
    [("CLIENT_RANDOM", [0; 255], [16]); ("SERVER", [], [1])])) =
  [Some ("CLIENT_RANDOM", [0; 255], [16]); Some ("SERVER", [], [1])].
Proof.
  apply (key_log_roundtrip [("CLIENT_RANDOM", [0; 255], [16]); ("SERVER", [], [1])]).
  repeat constructor.
Defined.

(** ** Theorems: ids *)

Lemma to_bytes_bytes n x : Forall (λ b, b < 256) (State.to_bytes n x).
Proof.
  revert x. induction n as [|n IH]; intros x; cbn [State.to_bytes]; constructor; [|apply IH].
  change 255 with (N.ones 8). rewrite N.land_ones. apply N.mod_lt. done.
Qed.

Lemma to_of_bytes l : Forall (λ b, b < 256) l → State.to_bytes (length l) (State.of_bytes l) = l.
Proof.
  induction 1 as [|b l Hb _ IH]; [done|]. cbn [length State.to_bytes State.of_bytes].
  change 255 with (N.ones 8). rewrite N.land_ones, N.shiftr_div_pow2. change (2 ^ 8) with 256.
  rewrite (N.mul_comm 256), N.Div0.mod_add, N.mod_small, N.div_add, N.div_small by done.
  by rewrite N.add_0_l, IH.
Qed.

Lemma of_bytes_inverse n x :
  State.to_bytes n (State.of_bytes (State.to_bytes n x)) = State.to_bytes n x.
Proof.
  rewrite <-(to_bytes_length n x) at 1. apply to_of_bytes, to_bytes_bytes.
Qed.

(** An id sent through the API in two words comes back, and the two words of the API
    come back from the id. *)
Theorem uuid_roundtrip uuid lower upper :
  fits 128 uuid → fits 64 lower → fits 64 upper →
  (let (u0, u1) := Uuid.uuid_to_api uuid in Uuid.api_to_uuid u0 u1 = uuid) ∧
  Uuid.uuid_to_api (Uuid.api_to_uuid lower upper) = (lower, upper).
Proof.
  unfold fits, Uuid.uuid_to_api, Uuid.api_to_uuid. intros Hu Hl Hh. split.
  - pose proof (to_bytes_split 8 8 uuid) as Hsp. cbn [Nat.add] in Hsp. rewrite Hsp.
    rewrite take_app_length', drop_app_length' by by rewrite to_bytes_length.
    rewrite !of_bytes_inverse, <-Hsp. by apply of_to_bytes.
  - assert (∀ l, length l = 16%nat → Forall (λ b, b < 256) l →
      State.to_bytes 16 (State.of_bytes l) = l) as Hid.
    { intros l Hlen Hb. rewrite <-Hlen. by apply to_of_bytes. }
    rewrite Hid by (rewrite ?length_app, ?to_bytes_length; done ||
                    (apply Forall_app; split; apply to_bytes_bytes)).
    rewrite take_app_length', drop_app_length' by by rewrite to_bytes_length.
    by rewrite !of_to_bytes.
Qed.

Lemma uuid_roundtrip_witness :
  Uuid.uuid_to_api (Uuid.api_to_uuid 5 7) = (5, 7) ∧
  (let (u0, u1) := Uuid.uuid_to_api (2 ^ 100 + 3) in Uuid.api_to_uuid u0 u1 = 2 ^ 100 + 3).
Proof.
  destruct (uuid_roundtrip (2 ^ 100 + 3) 5 7) as [H1 H2]; [vm_compute; reflexivity..|].
  split; [exact H2|exact H1].
Defined.

(** ** Theorems: connections *)

(** The server listens on exactly the sockets that could be opened on addresses its
    configuration resolves to; what fails is left out. *)
Lemma bind_sockets {Addr Socket} (resolve : string * N → result (list Addr) string)
    (open : Addr → result Socket string) listens s :
  s ∈ APIServer.bind resolve open listens ↔
  ∃ l addrs a, l ∈ listens ∧ resolve (Listen.to_tuple l) = Ok addrs ∧ a ∈ addrs ∧ open a = Ok s.
Proof.
  unfold APIServer.bind, APIServer.resolved. rewrite list_elem_of_omap.
  assert (∀ {A} (r : result A string) x, ok r = Some x ↔ r = Ok x) as Hok.
  { intros A [] x; simpl; naive_solver. }
  split.
  - intros (a & Ha & Hs%Hok). apply list_elem_of_join in Ha as (addrs & Ha & Hin).
    apply list_elem_of_omap in Hin as (l & Hl & Hr%Hok). naive_solver.
  - intros (l & addrs & a & Hl & Hr & Ha & Hs). exists a. split; [|by apply Hok].
    apply list_elem_of_join. exists addrs. split; [done|].
    apply list_elem_of_omap. exists l. split; [done|by apply Hok].
Qed.

Lemma new_group_inner_get `{PoolLaws} r p r' id :
  SupervisionRegistry.new_group_inner r p = Done (r', id) →
  SupervisionRegistry.get r' id = Some (mkGroupInner p 1).
Proof.
  intros Hi. unfold SupervisionRegistry.new_group_inner in Hi.
  destruct (pool_alloc _) as [idx|] eqn:Ha; [|done]. simpl in Hi.
  destruct (_ =? 0); [|done]. destruct (idx_to_id idx) as [id'| |] eqn:Hid; [|done..].
  simpl in Hi. simplify_eq. apply get_spec.
  rewrite (idx_of_id _ _ (pool_alloc_usize _ _ Ha) Hid). simpl. apply lookup_insert_eq.
Qed.

(** A connection gets a task of its own on the thread that accepted it, last on its
    local queue, in a new group with one reference, a child of the thread's. *)
Theorem connection_own_group `{Hdr} {R} `{PoolLaws} (w : @Executor.World _ R) call site worker r' id :
  watched (Executor.console w) site →
  Executor.workers w !! Executor.thread call = Some worker →
  SupervisionRegistry.new_group (Executor.registry w) (Executor.thread call) = Done (r', id) →
  ∃ w' task, APIServer.handle w call site = Done (w', task) ∧
    Executor.tasks w !! task = None ∧
    Executor.tasks w' !! task = Some (Executor.mkTask RawProc.allocate (Executor.span_id call) (Some id)) ∧
    Executor.workers w' = <[Executor.thread call :=
      Executor.mkWorker (Executor.w_local worker ++ [task]) true]> (Executor.workers w) ∧
    Executor.spool w' = Executor.spool w ∧
    SupervisionRegistry.get (Executor.registry w') id = Some (mkGroupInner
      (SupervisionRegistry.current_ref (Executor.registry w) (Executor.thread call)) 1).
Proof.
  intros Hw Hwk Hg. destruct (wd_stats _ _ Hw) as [stats Hst].
  destruct (open_span_spawn (Executor.console w) call (Executor.spawn_meta site) "local" id stats
    (wd_spawn _ _ Hw) (wd_open _ _ Hw) Hst) as (c' & Hopen & Hl & _).
  unfold APIServer.handle. rewrite Hg. cbn [outcome_bind].
  unfold Executor.spawn_local_cgroup, Executor.spawn_in. simpl default.
  change (Executor.console (Executor.set_registry w r')) with (Executor.console w). rewrite Hopen.
  unfold Executor.get_worker. cbn [Executor.workers Executor.set_registry]. rewrite Hwk.
  cbn [outcome_bind unwrap Executor.recoverable]. cbn [Executor.console Executor.set_console].
  rewrite (on_event_other _ _ _ _ _ Hw Hl). cbn. unfold Executor.schedule_local, Executor.get_worker.
  cbn. rewrite Hwk. cbn. do 2 eexists. split; [done|]. cbn.
  split; [apply not_elem_of_dom, is_fresh|]. split; [apply lookup_insert_eq|].
  split; [done|]. split; [done|].
  unfold SupervisionRegistry.new_group, SupervisionRegistry.current in Hg.
  destruct (SupervisionRegistry.current_ref _ _) as [p|]; [|by apply new_group_inner_get in Hg].
  unfold SupervisionRegistry.clone_group in Hg.
  destruct (SupervisionRegistry.get _ p); [|done]. destruct (increment_refcnt _) as [n g'].
  destruct (n =? 0); [done|]. simpl in Hg. by apply new_group_inner_get in Hg.
Qed.

(** A worker thread that accepts a connection. *)
Definition demo_listener : @Executor.World bound_hdr () := Executor.install_worker demo_executor 7.

Lemma connection_own_group_witness :
  ∃ w' task, APIServer.handle demo_listener demo_call demo_site = Done (w', task) ∧
    SupervisionRegistry.get (Executor.registry w') 2 = Some (mkGroupInner (Some 1) 1).
Proof.
  destruct (connection_own_group demo_listener demo_call demo_site (Executor.mkWorker [] false)
    (get_done (SupervisionRegistry.new, 0)
       (SupervisionRegistry.new_group (Executor.registry demo_listener) 7)).1 2)
    as (w' & task & Hh & _ & _ & _ & _ & Hg).
  - exact demo_watched.
  - vm_compute. reflexivity.
  - vm_compute. reflexivity.
  - exists w', task. split; [exact Hh|exact Hg].
Defined.
