(* ===== verification/Server.v ===== *)
(** * The server as a whole (bffhd: lib.rs; opening the databases in
      resources/state/db.rs, users/mod.rs, users/db.rs, db/raw.rs and the audit log
      in audit.rs; logging.rs)

    [Difluoroborane.new] puts the components together: the executor with the
    console's tasks on it, the databases, the users, the roles, the audit log and
    one resource per configured machine, all of them global.
    [Difluoroborane.run] loads initiators and actors, sets up TLS, opens the
    sockets, and waits for a signal.

    What the server needs of the executor is the interface [Spawning]: a spawned
    task is queued behind those before it.  [ExecutorSpawning] is the instance
    made of Executor.  Opening files and sockets, signal handlers and LMDB are
    parameters; the server's own spans and log events are left out. *)

From S2P Require Import Prelude Db Users Roles Machine Session Resources Initiators Actors.
From S2P Require Import ConsoleStats ConsoleVisitors ConsoleSpans ConsoleAggregate ConsoleView ConsoleLayer.
From S2P Require Import LightProc Supervision Executor Startup.

(** ** Opening the databases *)

(** [Environment::new().set_flags(..).set_max_dbs(8).open(path)], [open_db] and
    [create_db]. *)
Class LmdbOpen `{Lmdb} := {
  env_open : string → result Env lmdb_error;
  env_open_db : Env → option string → result Dbi lmdb_error;
  env_create_db : Env → option string → result (Env * Dbi) lmdb_error;
}.

(** Creating a database that may be there already changes no contents, and
    databases of different names are different. *)
Class LmdbOpenLaws `{LmdbOpen} : Prop := {
  create_contents e n e' d : env_create_db e n = Ok (e', d) → ∀ x, env_contents e' x = env_contents e x;
  create_distinct e n e1 d1 m e2 d2 :
    env_create_db e (Some n) = Ok (e1, d1) → env_create_db e1 (Some m) = Ok (e2, d2) → n ≠ m → d1 ≠ d2;
}.

Module RawOpen.
Section RawOpen.
Context `{LmdbOpen}.

Definition open (env : Env) (name : option string) : result RawDB.t lmdb_error :=
  let? db := env_open_db env name in Ok (RawDB.mk db).

Definition create (env : Env) (name : option string) : result (Env * RawDB.t) lmdb_error :=
  let? (env, db) := env_create_db env name in Ok (env, RawDB.mk db).

End RawOpen.
End RawOpen.

Inductive StateDBError :=
| OpenEnv (e : db_error)
| Open (e : db_error)
| Create (e : db_error).

Module StateOpen.
Section StateOpen.
Context `{LmdbOpen}.

Definition open_env (path : string) : result Env StateDBError :=
  map_err (λ e, OpenEnv (mkDbError e)) (env_open path).

Definition new (db : RawDB.t) : StateDB.t := StateDB.mk (DB.mk db).

Definition open_with_env (env : Env) : result StateDB.t StateDBError :=
  let? db := map_err (λ e, Open (mkDbError e)) (RawOpen.open env (Some "state")) in Ok (new db).

Definition open (path : string) : result (Env * StateDB.t) StateDBError :=
  let? env := open_env path in
  let? db := open_with_env env in Ok (env, db).

Definition create_with_env (env : Env) : result (Env * StateDB.t) StateDBError :=
  let? (env, db) := map_err (λ e, Create (mkDbError e)) (RawOpen.create env (Some "state")) in
  Ok (env, new db).

Definition create (path : string) : result (Env * StateDB.t) StateDBError :=
  let? env := open_env path in create_with_env env.

End StateOpen.
End StateOpen.

Module UserOpen.
Section UserOpen.
Context `{LmdbOpen} `{Rkyv User}.

Definition new (db : RawDB.t) : UserDB.t := UserDB.mk (DB.mk db).

Definition open (env : Env) : result UserDB.t db_error :=
  let? db := map_err mkDbError (RawOpen.open env (Some "user")) in Ok (new db).

Definition create (env : Env) : result (Env * UserDB.t) db_error :=
  let? (env, db) := map_err mkDbError (RawOpen.create env (Some "user")) in Ok (env, new db).

(** [Users::new]: the database of the first call stays, whatever environment later
    calls come with. *)
Definition users_new (cell : option UserDB.t) (env : Env)
  : result (Env * option UserDB.t * Users.t) db_error :=
  match cell with
  | Some db => Ok (env, cell, Users.mk db)
  | None => let? (env, db) := create env in Ok (env, Some db, Users.mk db)
  end.

End UserOpen.
End UserOpen.

(** ** Logging *)

Module Logging.

Inductive Format := Pretty | Compact | Full.

(** What a subscriber is set up with. *)
Abbreviation Subscriber := (Format * option string)%type.

(** [var] is the variable [BFFH_LOG].  [init] of a subscriber makes it the global
    one of the process, and panics when there is one already. *)
Definition init (subscriber : option Subscriber) (config : LogConfig) (var : option string)
  : outcome Subscriber :=
  let filter := match log_filter config with Some f => Some f | None => var end in
  let format := to_lowercase (log_format config) in
  let format := if decide (format = "pretty") then Pretty
                else if decide (format = "compact") then Compact else Full in
  match subscriber with
  | Some _ => Panic
  | None => Done (format, filter)
  end.

End Logging.

(** ** Starting tasks *)

(** What the server needs of an executor: [jobs] are the tasks on the global
    queue, [room] how many more can be spawned. *)
Class Spawning (Job : Type) := {
  Pool : Type;
  pool_new : outcome Pool;
  pool_spawn : Pool → Job → outcome Pool;
  pool_jobs : Pool → list Job;
  pool_room : Pool → N → Prop;
}.
#[global] Arguments Pool Job {_}.

Class SpawningLaws (Job : Type) `{Spawning Job} : Prop := {
  pool_new_ok : ∃ p, pool_new = Done p ∧ pool_jobs p = [] ∧ pool_room p (2 ^ 64 - 2);
  pool_spawn_ok p job n : pool_room p (N.succ n) →
    ∃ p', pool_spawn p job = Done p' ∧ pool_jobs p' = pool_jobs p ++ [job] ∧ pool_room p' n;
  pool_room_le p n m : pool_room p n → (m <= n)%N → pool_room p m;
}.

(** ** The server *)

(** The audit log's file, signal handlers, name resolution and sockets. *)
Class ServerIo `{AuditIo} := {
  Addr : Type;
  Socket : Type;
  IoError : Type;
  audit_open : string → result LineWriter IoError;
  signals_new : result () IoError;
  resolve : string * N → result (list Addr) string;
  bind_socket : Addr → result Socket string;
}.

Section Types.
Context `{LmdbOpen} `{Rkyv User} `{Rkyv State} `{Rkyv MachineState} `{ServerIo} `{Signals} `{Mqtt}.
Context `{VecAlloc} `{InputJson} `{Initiators.Spawn}.

(** Nothing constructs [DBErr]; [ApiError] holds capnp's error, which has no
    values. *)
Inductive BFFHError :=
| DBErr (e : db_error)
| UsersError (e : db_error)
| StateDBErr (e : StateDBError)
| AuditLogError (e : IoError)
| SignalsError (e : IoError)
| ActorErr (e : ActorError)
| TlsSetup (e : Tls.Error)
| ApiError (e : Empty_set).

(** [APIServer]: what connections are served with. *)
Record Api := mkApi {
  api_sockets : list Socket;
  api_acceptor : Tls.Acceptor;
  api_sessions : Session.SessionManager;
  api_users : Users.t;
}.

(** What runs on the executor. *)
Inductive Job :=
| JobAggregator
| JobConsole
| JobConsoleWatch
| JobInitiator (d : InitiatorDriver)
| JobMqtt
| JobActor (a : ActorDriver.t * Resources.Resource)
| JobApi (api : Api).

(** The global cells: tracing's subscriber and those of the server. *)
Record Globals := mkGlobals {
  SUBSCRIBER : option Logging.Subscriber;
  USERDB : option UserDB.t;
  ROLES : option (gmap string Role);
  AUDIT : option LineWriter;
  RESOURCES : option Search.ResourcesHandle;
  CONFIG : option Config.t;
}.

Definition no_globals : Globals := mkGlobals None None None None None None.

Definition set_subscriber (g : Globals) (s : Logging.Subscriber) : Globals :=
  mkGlobals (Some s) (USERDB g) (ROLES g) (AUDIT g) (RESOURCES g) (CONFIG g).
Definition set_userdb (g : Globals) (db : option UserDB.t) : Globals :=
  mkGlobals (SUBSCRIBER g) db (ROLES g) (AUDIT g) (RESOURCES g) (CONFIG g).
Definition set_roles (g : Globals) (m : option (gmap string Role)) : Globals :=
  mkGlobals (SUBSCRIBER g) (USERDB g) m (AUDIT g) (RESOURCES g) (CONFIG g).
Definition set_log (g : Globals) (log : LineWriter) : Globals :=
  mkGlobals (SUBSCRIBER g) (USERDB g) (ROLES g) (Some log) (RESOURCES g) (CONFIG g).

(** [RESOURCES.set(..).unwrap()] and [CONFIG.set(..).unwrap()]. *)
Definition fill_resources (g : Globals) (h : Search.ResourcesHandle) : outcome Globals :=
  match RESOURCES g with
  | Some _ => Panic
  | None => Done (mkGlobals (SUBSCRIBER g) (USERDB g) (ROLES g) (AUDIT g) (Some h) (CONFIG g))
  end.
Definition fill_config (g : Globals) (config : Config.t) : outcome Globals :=
  match CONFIG g with
  | Some _ => Panic
  | None => Done (mkGlobals (SUBSCRIBER g) (USERDB g) (ROLES g) (AUDIT g) (RESOURCES g) (Some config))
  end.

End Types.

(** [?] in a function that may panic: an error returns with the state [g] reached
    by then. *)
Definition or_fail {G A B E} (g : G) (r : result A E) (k : A → outcome (G * result B E))
  : outcome (G * result B E) :=
  match r with
  | Ok a => k a
  | Err e => Done (g, Err e)
  end.
Notation "'try?' x ':=' e 'else' g 'in' k" := (or_fail g e (λ x, k))
  (at level 10, x pattern, e at level 200, g at level 200, k at level 200) : rust_scope.

Module AuditOpen.
Section AuditOpen.
Context `{ServerIo}.

(** [AuditLog::new] through the global cell. *)
Definition new (cell : option LineWriter) (path : string) : result LineWriter IoError :=
  match cell with
  | Some log => Ok log
  | None => audit_open path
  end.

End AuditOpen.
End AuditOpen.

Module Difluoroborane.
Section Difluoroborane.
Context `{LmdbOpen} `{Rkyv User} `{Rkyv State} `{Rkyv MachineState} `{ServerIo} `{Signals} `{Mqtt}.
Context `{VecAlloc} `{InputJson} `{Initiators.Spawn} `{Tls.TlsIo} `{Spawning Job}.

Record t := mk {
  config : Config.t;
  executor : Pool Job;
  statedb : StateDB.t;
  users : Users.t;
  roles : Roles.t;
  resources : Search.ResourcesHandle;
}.

Definition spawn_all (p : Pool Job) (jobs : list Job) : outcome (Pool Job) :=
  for_loop pool_spawn p jobs.

(** [Executor::new] and the console's tasks; [aggregator]: its server has one. *)
Definition start_executor (aggregator : bool) : outcome (Pool Job) :=
  let! executor := pool_new in
  let! executor := if aggregator then pool_spawn executor JobAggregator else Done executor in
  let! executor := pool_spawn executor JobConsole in
  pool_spawn executor JobConsoleWatch.

(** [new] at the time [now]; [var] is the variable [BFFH_LOG]. The result has the
    global cells it leaves, on an error too. *)
Definition new (g : Globals) (now : Z) (var : option string) (aggregator : bool) (config : Config.t)
  : outcome (Globals * result (t * World) BFFHError) :=
  let! subscriber := Logging.init (SUBSCRIBER g) (Config.logging config) var in
  let g := set_subscriber g subscriber in
  let! executor := start_executor aggregator in
  try? env := map_err StateDBErr (StateOpen.open_env (Config.db_path config)) else g in
  try? (env, statedb) := map_err StateDBErr (StateOpen.create_with_env env) else g in
  try? (env, userdb, users) := map_err UsersError (UserOpen.users_new (USERDB g) env) else g in
  let g := set_userdb g userdb in
  let (rolesmap, roles) := Roles.new (ROLES g) (Config.roles config) in
  let g := set_roles g rolesmap in
  try? log := map_err AuditLogError (AuditOpen.new (AUDIT g) (Config.auditlog_path config)) else g in
  let g := set_log g log in
  let! (w, resources) := Boot.resources (mkWorld env (Some log) ∅ now) statedb (Config.machines config) in
  let! g := fill_resources g resources in
  let! g := fill_config g config in
  Done (g, Ok (mk config executor statedb users roles resources, w)).

(** The answers of the stream of signals: it is asked again as long as it has
    none. *)
Fixpoint wait_signal (answers : list (option N)) : option N :=
  match answers with
  | [] => None
  | None :: answers => wait_signal answers
  | Some sig :: _ => Some sig
  end.

(** What [run] has started so far: the tasks, and the sockets it has opened. *)
Record Running := mkRunning {
  running : Pool Job;
  sockets : list Socket;
}.

Definition start_jobs (st : Running) (jobs : list Job) : outcome Running :=
  let! p := spawn_all (running st) jobs in Done (mkRunning p (sockets st)).

(** [APIServer::bind]: the new sockets, and the state with them open. *)
Definition open_sockets (st : Running) (listens : list Listen.t) : Running * list Socket :=
  let new := APIServer.bind resolve bind_socket listens in
  (mkRunning (running st) (sockets st ++ new), new).

Definition session_manager (self : t) : Session.SessionManager :=
  Session.mkSessionManager (users self) (roles self).

(** [run]; [signals] are the answers of the stream of signals, and the result is
    the signal that stopped the server. *)
Definition run (self : t) (w : World) (signals : list (option N))
  : outcome (Running * result N BFFHError) :=
  let st := mkRunning (executor self) [] in
  try? _ := map_err SignalsError signals_new else st in
  let sessionmanager := session_manager self in
  let! inits := InitiatorLoad.load w sessionmanager (resources self)
                  (Config.init_connections (config self)) (Config.initiators (config self)) in
  let! st := start_jobs st (JobInitiator <$> inits) in
  let! loaded := ActorLoad.load (resources self) (Config.mqtt_url (config self))
                   (Config.actor_connections (config self)) (Config.actors (config self)) in
  try? acts := map_err ActorErr loaded else st in
  let! st := start_jobs st (JobMqtt :: (JobActor <$> acts)) in
  try? tlsconfig := map_err TlsSetup (Tls.new (Config.tlskeylog (config self))) else st in
  try? acceptor :=
    map_err TlsSetup (Tls.make_tls_acceptor tlsconfig (Config.tlsconfig (config self))) else st in
  let (st, new) := open_sockets st (Config.listens (config self)) in
  let! st := start_jobs st [JobApi (mkApi new acceptor sessionmanager (users self))] in
  match wait_signal signals with
  | Some sig => Done (st, Ok sig)
  | None => OutOfFuel
  end.

End Difluoroborane.
End Difluoroborane.

(** ** The executor as the server uses it *)

Section ExecutorSpawning.
Context `{Hdr, PoolLaws} {R Job : Type}.

(** The state of the executor's world before the server starts, the thread it
    runs on, and where it spawns. *)
Context (w0 : @Executor.World _ R) (thread : N) (site : Executor.Site) (caller : Executor.Caller).

(** [p_jobs]: what each task is; [p_span]: the id of the next span. *)
Record pool := mkPool { p_world : @Executor.World _ R; p_jobs : gmap N Job; p_span : N }.

Definition executor_new : outcome pool :=
  let! (w, _) := Executor.new w0 thread in Done (mkPool w ∅ 1).

Definition executor_spawn (p : pool) (job : Job) : outcome pool :=
  let call := Executor.mkCall thread (p_span p) None caller in
  let! (w, task) := Executor.spawn (p_world p) call site in
  Done (mkPool w (<[task := job]> (p_jobs p)) (N.succ (p_span p))).

(** The global queue. *)
Definition executor_jobs (p : pool) : list Job :=
  omap (λ task, p_jobs p !! task) (Executor.spool (p_world p)).

(** [n] more spawns will not overflow the count of the group the thread is in. *)
Definition executor_room (p : pool) (n : N) : Prop :=
  watched (Executor.console (p_world p)) site ∧
  (∀ task, task ∈ Executor.spool (p_world p) → is_Some (Executor.tasks (p_world p) !! task)) ∧
  ∃ id g, SupervisionRegistry.current_ref (Executor.registry (p_world p)) thread = Some id ∧
    SupervisionRegistry.get (Executor.registry (p_world p)) id = Some g ∧
    (0 < ref_count g)%N ∧ (ref_count g + n < 2 ^ 64)%N.

#[local] Instance ExecutorSpawning : Spawning Job := {|
  Pool := pool;
  pool_new := executor_new;
  pool_spawn := executor_spawn;
  pool_jobs := executor_jobs;
  pool_room := executor_room;
|}.

Lemma executor_spawn_room p job n :
  executor_room p (N.succ n) →
  ∃ p', executor_spawn p job = Done p' ∧ executor_jobs p' = executor_jobs p ++ [job] ∧
    executor_room p' n.
Proof.
  intros (Hw & Hsp & id & g & Hcur & Hget & Hpos & Hmax).
  set (r' := SupervisionRegistry.put (Executor.registry (p_world p)) id
               (mkGroupInner (Supervision.parent g) (wrap 64 (ref_count g + 1)))).
  destruct (spawn_world (p_world p) (Executor.mkCall thread (p_span p) None caller) site r' id)
    as (c' & task & Hs & Hnew & Hw'); [done| |].
  { unfold SupervisionRegistry.current. cbn [Executor.thread]. rewrite Hcur.
    unfold SupervisionRegistry.clone_group, increment_refcnt. rewrite Hget.
    rewrite (proj2 (N.eqb_neq _ _)) by lia. done. }
  unfold executor_spawn. rewrite Hs. cbn [outcome_bind]. eexists. split; [done|].
  assert (task ∉ Executor.spool (p_world p)) as Hnot.
  { intros Hin. destruct (Hsp _ Hin) as [? Hx]. by rewrite Hx in Hnew. }
  split.
  - unfold executor_jobs. cbn [p_world p_jobs Executor.spool]. rewrite omap_app. cbn.
    rewrite lookup_insert_eq. f_equal. apply list_omap_ext. apply Forall2_same_length_lookup. split; [done|].
    intros i x y Hx Hy. simplify_eq. apply lookup_insert_ne. intros ->. by apply list_elem_of_lookup_2 in Hx.
  - split; [done|]. split.
    + cbn. intros t Ht. apply elem_of_app in Ht as [Ht|Ht%list_elem_of_singleton].
      * destruct (decide (t = task)) as [->|]; [by rewrite lookup_insert_eq|].
        rewrite lookup_insert_ne by done. by apply Hsp.
      * subst. by rewrite lookup_insert_eq.
    + exists id. eexists. cbn. split; [done|]. split.
      { apply get_spec. cbn. apply lookup_insert_eq. }
      cbn. unfold wrap. rewrite N.mod_small by lia. lia.
Qed.

(** A process that has not started an executor yet. *)
Context (Hw0 : watched (Executor.console w0) site).
Context (Hspool : Executor.spool w0 = []).
Context (Hthread : SupervisionRegistry.current_ref (Executor.registry w0) thread = None).
Context (Hroot : ∃ r id, SupervisionRegistry.new_root_group (Executor.registry w0) = Done (r, id)).

Lemma root_group r id :
  SupervisionRegistry.new_root_group (Executor.registry w0) = Done (r, id) →
  SupervisionRegistry.get r id = Some (mkGroupInner None 1) ∧
  SupervisionRegistry.current_of r = SupervisionRegistry.current_of (Executor.registry w0).
Proof.
  unfold SupervisionRegistry.new_root_group, SupervisionRegistry.new_group_inner.
  intros (idx & Hidx & Hr)%outcome_bind_Done. destruct (_ =? _)%N; [|done].
  apply outcome_bind_Done in Hr as (id' & Hid & Hr). simplify_eq. split; [|done].
  destruct (pool_alloc _) as [idx'|] eqn:Ha; [|done]. simplify_eq/=.
  apply get_spec. cbn. rewrite (idx_of_id idx id); [apply lookup_insert_eq| |done].
  by eapply pool_alloc_usize.
Qed.

Lemma executor_spawning_laws : SpawningLaws Job.
Proof.
  split; [|apply executor_spawn_room|].
  2: { intros p n m (Hw & Hs & id & g & Hc & Hg & Hp & Hn) Hm. split; [done|]. split; [done|].
       exists id, g. split_and!; try done. lia. }
  destruct Hroot as (r & id & Hr).
  destruct (root_group r id Hr) as [Hget Hcur]. cbn [pool_new ExecutorSpawning].
  unfold executor_new, Executor.new. rewrite Hr. cbn [outcome_bind].
  eexists. split; [done|]. split.
  { unfold executor_jobs. cbn. by rewrite Hspool. }
  split; [done|]. split; [cbn; rewrite Hspool; intros ? []%elem_of_nil|].
  unfold SupervisionRegistry.current_ref in Hthread. rewrite <- Hcur in Hthread.
  unfold SupervisionRegistry.set_current. cbn. rewrite Hthread.
  exists id. eexists. cbn. split; [apply lookup_insert_eq|]. split; [exact Hget|]. cbn. lia.
Qed.

End ExecutorSpawning.

(** ** Starting up *)

Section Boots.
Context `{LmdbLaws} `{!LmdbHealthy} `{!LmdbOpen} `{!LmdbOpenLaws} `{Rkyv User}.
Context `{HS : Rkyv State} `{HM : Rkyv MachineState} `{!RkyvMachine}.
Context `{AuditIoLaws} `{!AuditIoHealthy} `{!ServerIo} `{Signals} `{Mqtt}.
Context `{VecAlloc} `{InputJson} `{Initiators.Spawn} `{Tls.TlsIo} `{SpawningLaws Job}.
Implicit Types (p : Pool Job) (config : Config.t).
Import Difluoroborane.

(** What a configuration names can be opened: the environment [e0] with its
    databases [ds] and [du], and the audit log. *)
Record opens config (e0 e1 e2 : Env) (ds du : Dbi) (log : LineWriter) : Prop := {
  o_env : env_open (Config.db_path config) = Ok e0;
  o_state : env_create_db e0 (Some "state") = Ok (e1, ds);
  o_user : env_create_db e1 (Some "user") = Ok (e2, du);
  o_audit : audit_open (Config.auditlog_path config) = Ok log;
}.

Definition console_jobs (aggregator : bool) : list Job :=
  (if aggregator then [JobAggregator] else []) ++ [JobConsole; JobConsoleWatch].

Lemma spawn_all_ok p jobs n :
  pool_room p (n + N.of_nat (length jobs)) →
  ∃ p', spawn_all p jobs = Done p' ∧ pool_jobs p' = pool_jobs p ++ jobs ∧ pool_room p' n.
Proof.
  revert p. induction jobs as [|job jobs IH]; intros p Hroom.
  - exists p. rewrite app_nil_r. split; [done|]. split; [done|]. by rewrite N.add_0_r in Hroom.
  - destruct (pool_spawn_ok p job (n + N.of_nat (length jobs))) as (p1 & Hs & Hj & Hr).
    { replace (N.succ (n + N.of_nat (length jobs))) with (n + N.of_nat (length (job :: jobs)))%N
        by (cbn [length]; lia). done. }
    destruct (IH p1 Hr) as (p' & Hs' & Hj' & Hr'). exists p'. split; [|split; [|done]].
    + unfold spawn_all. cbn [for_loop]. rewrite Hs. exact Hs'.
    + rewrite Hj', Hj, <- app_assoc. done.
Qed.

Lemma start_jobs_ok st jobs n :
  pool_room (running st) (n + N.of_nat (length jobs)) →
  ∃ st', start_jobs st jobs = Done st' ∧ sockets st' = sockets st ∧
    pool_jobs (running st') = pool_jobs (running st) ++ jobs ∧ pool_room (running st') n.
Proof.
  intros (p & Hs & Hj & Hr)%spawn_all_ok. unfold start_jobs. rewrite Hs.
  eexists. split; [done|]. by cbn.
Qed.

(** The console's tasks. *)
Lemma console_spawned (aggregator : bool) :
  ∃ p, start_executor aggregator = Done p ∧ pool_jobs p = console_jobs aggregator ∧
    pool_room p (2 ^ 64 - 5).
Proof.
  destruct pool_new_ok as (p0 & Hn & Hj0 & Hr0).
  destruct (spawn_all_ok p0 (console_jobs aggregator) (2 ^ 64 - 5)) as (p & Hs & Hj & Hr).
  { eapply pool_room_le; [done|]. destruct aggregator; cbn; lia. }
  exists p. rewrite Hj, Hj0. split; [|done]. unfold start_executor. rewrite Hn. cbn [outcome_bind].
  unfold spawn_all, console_jobs in Hs.
  destruct aggregator; cbn [for_loop app] in Hs; cbn [outcome_bind];
    repeat match goal with
    | H : outcome_bind ?m _ = Done _ |- _ => destruct m; [|done..]; cbn [outcome_bind] in *
    end; done.
Qed.

(** the server starts: if the databases and the audit log can be opened, the
    console's tasks are on the executor, there is one resource for each configured
    machine and no other, each in working order and in the state the database had
    for it (free if it had none), the users are those of the database, the roles
    those of the configuration, and the global cells are filled. *)
Lemma boot_ok now var aggregator config e0 e1 e2 ds du log :
  opens config e0 e1 e2 ds du log → (∀ i, is_Some (Config.machines config !! i) → valid_key i) →
  ∃ d w g, new no_globals now var aggregator config = Done (g, Ok (d, w)) ∧
    pool_jobs (executor d) = console_jobs aggregator ∧ pool_room (executor d) (2 ^ 64 - 5) ∧
    (∀ i, is_Some (Search.get_by_id (resources d) i) ↔ is_Some (Config.machines config !! i)) ∧
    (∀ i r, Search.get_by_id (resources d) i = Some r → Resources.coherent w r ∧
       machine_of w r = Some (default MState.new ((λ b, inner (archived_root b)) <$> env_contents e0 ds !! i))) ∧
    users_in (Users.userdb (users d)) (env_contents (Machine.env w)) =
      users_in (Users.userdb (users d)) (env_contents e0) ∧
    Roles.roles (roles d) = Config.roles config ∧ Difluoroborane.config d = config ∧
    RESOURCES g = Some (resources d) ∧ CONFIG g = Some config.
Proof.
  intros [He Hs Hu Hl] Hk. unfold new. cbn [Logging.init no_globals SUBSCRIBER outcome_bind].
  destruct (console_spawned aggregator) as (p & -> & Hj & Hr). cbn [outcome_bind].
  unfold StateOpen.open_env. rewrite He. cbn [map_err or_fail].
  unfold StateOpen.create_with_env, RawOpen.create. rewrite Hs. cbn [map_err or_fail result_bind].
  unfold UserOpen.users_new, UserOpen.create, RawOpen.create.
  cbn [no_globals set_subscriber USERDB]. rewrite Hu.
  unfold AuditOpen.new. cbn [map_err or_fail result_bind Roles.new ROLES AUDIT set_userdb set_roles set_subscriber no_globals].
  rewrite Hl. cbn [map_err or_fail].
  set (sdb := StateOpen.new (RawDB.mk ds)). set (w0 := mkWorld e2 (Some log) ∅ now).
  destruct (boot_spec w0 sdb (Config.machines config) Hk) as (w & h & Hb & Hget & Hst & Hd); [by eexists|].
  rewrite Hb. cbn [outcome_bind fill_resources fill_config set_log RESOURCES CONFIG].
  assert (∀ x, env_contents e2 x = env_contents e0 x) as Hcont.
  { intros x. by rewrite (create_contents _ _ _ _ Hu), (create_contents _ _ _ _ Hs). }
  eexists _, w, _. split; [done|]. cbn [executor resources users roles Difluoroborane.config RESOURCES CONFIG].
  split; [done|]. split; [done|]. split.
  { intros i. split; intros [x Hx]; [apply Hget in Hx as (m & -> & _); eauto|]. eexists. apply Hget. eauto. }
  split.
  { intros i r Hi. destruct (Hst i r Hi) as [Hc Hm]. split; [done|]. rewrite Hm.
    apply Hget in Hi as (m & _ & ->). unfold machine_of, stored. cbn. by rewrite Hcont. }
  split; [|done]. unfold users_in, user_dbi. cbn. rewrite Hd; [by rewrite Hcont|].
  cbn. intros Heq. symmetry in Heq. by apply (create_distinct _ _ _ _ _ _ _ Hs Hu) in Heq.
Qed.

(** What can go wrong, in the order in which it is tried. *)
Inductive boot_failure (g : Globals) config : BFFHError → Prop :=
| FailEnv e :
    env_open (Config.db_path config) = Err e →
    boot_failure g config (StateDBErr (OpenEnv (mkDbError e)))
| FailState e0 e :
    env_open (Config.db_path config) = Ok e0 → env_create_db e0 (Some "state") = Err e →
    boot_failure g config (StateDBErr (Create (mkDbError e)))
| FailUsers e0 e1 ds e :
    env_open (Config.db_path config) = Ok e0 → env_create_db e0 (Some "state") = Ok (e1, ds) →
    USERDB g = None → env_create_db e1 (Some "user") = Err e →
    boot_failure g config (UsersError (mkDbError e))
| FailAudit e0 e1 ds e :
    env_open (Config.db_path config) = Ok e0 → env_create_db e0 (Some "state") = Ok (e1, ds) →
    (is_Some (USERDB g) ∨ ∃ r, env_create_db e1 (Some "user") = Ok r) →
    AUDIT g = None → audit_open (Config.auditlog_path config) = Err e →
    boot_failure g config (AuditLogError e).

(** The cells are free for the one server of the process. *)
Definition cells_free (g : Globals) : Prop := RESOURCES g = None ∧ CONFIG g = None.

(** Once the databases are open: the audit log and the machines. *)
Lemma boot_finish g now config e sdb (k : World → Search.ResourcesHandle → t) :
  (∀ i, is_Some (Config.machines config !! i) → valid_key i) → cells_free g →
  ∃ g' r, (try? log := map_err AuditLogError (AuditOpen.new (AUDIT g) (Config.auditlog_path config)) else g in
    let! (w, resources) := Boot.resources (mkWorld e (Some log) ∅ now) sdb (Config.machines config) in
    let! g := fill_resources (set_log g log) resources in
    let! g := fill_config g config in
    Done (g, Ok (k w resources, w))) = Done (g', r) ∧ SUBSCRIBER g' = SUBSCRIBER g ∧
    ∀ er, r = Err er ↔ ∃ x, er = AuditLogError x ∧ AUDIT g = None ∧
      audit_open (Config.auditlog_path config) = Err x.
Proof.
  intros Hk [Hr Hc]. unfold AuditOpen.new.
  destruct (AUDIT g) as [log|] eqn:Ha; [|destruct (audit_open _) as [log|x] eqn:Ho];
    cbn [map_err or_fail];
    [| |by eexists g, _; split_and!; [done..|]; intros er; split; [intros [= <-]; eauto|intros (? & -> & _ & ?); congruence]].
  all: destruct (boot_spec (mkWorld e (Some log) ∅ now) sdb (Config.machines config) Hk)
    as (w & h & -> & _); [by eexists|]; unfold fill_resources, fill_config; cbn [outcome_bind set_log RESOURCES];
    rewrite Hr; cbn [outcome_bind CONFIG set_log]; rewrite Hc; do 2 eexists; split_and!; [done..|];
    intros er; split; [done|]; intros (? & ? & ?); naive_solver.
Qed.

Lemma new_returns g now var aggregator config :
  (∀ i, is_Some (Config.machines config !! i) → valid_key i) →
  SUBSCRIBER g = None → cells_free g →
  ∃ g' r, new g now var aggregator config = Done (g', r) ∧ is_Some (SUBSCRIBER g') ∧
    ∀ e, r = Err e ↔ boot_failure g config e.
Proof.
  intros Hk Hsub Hfree. unfold new. rewrite Hsub. cbn [Logging.init outcome_bind].
  destruct (console_spawned aggregator) as (p & -> & _ & _). cbn [outcome_bind].
  unfold StateOpen.open_env, StateOpen.create_with_env, RawOpen.create.
  destruct (env_open (Config.db_path config)) as [e0|er] eqn:He; cbn [map_err or_fail].
  2: { do 2 eexists. split_and!; [done|by eexists|]. intros e. split; [intros; inv_eqs; by apply FailEnv|].
       inversion 1; congruence. }
  destruct (env_create_db e0 (Some "state")) as [[e1 ds]|er] eqn:Hs; cbn [map_err or_fail result_bind].
  2: { do 2 eexists. split_and!; [done|by eexists|]. intros e. split; [intros; inv_eqs; by eapply FailState|].
       inversion 1; congruence. }
  unfold UserOpen.users_new, UserOpen.create, RawOpen.create. cbn [USERDB set_subscriber].
  destruct (USERDB g) as [udb|] eqn:Hg;
    [|destruct (env_create_db e1 (Some "user")) as [[e2 du]|er] eqn:Hu];
    cbn [map_err or_fail result_bind].
  3: { do 2 eexists. split_and!; [done|by eexists|]. intros e. split; [intros; inv_eqs; by eapply FailUsers|].
       inversion 1; try congruence. destruct select (_ ∨ _) as [[? ?]|[? ?]]; congruence. }
  all: destruct (Roles.new _ _) as [rm rs];
    match goal with
    | |- ∃ g' r, or_fail ?g1 _ _ = _ ∧ _ =>
        edestruct (boot_finish g1 now config) as (g' & r & Hb & Hsub' & Herr); [done|done|]
    end;
    exists g', r; split; [exact Hb|]; rewrite Hsub'; split; [by eexists|];
    intros e; rewrite Herr; cbn [AUDIT set_userdb set_roles set_subscriber]; split;
    [intros (x & -> & ? & ?); eapply FailAudit; eauto|inversion 1; try congruence; eauto].
Qed.


End Boots.

(** ** Running *)

Section Runs.
Context `{LmdbLaws} `{!LmdbHealthy} `{!LmdbOpen} `{!LmdbOpenLaws} `{HU : Rkyv User} `{!RkyvLaws User}.
Context `{HS : Rkyv State} `{HM : Rkyv MachineState} `{!RkyvMachine}.
Context `{AuditIoLaws} `{!AuditIoHealthy} `{!ServerIo} `{Signals} `{Mqtt}.
Context `{VecAlloc} `{InputJson} `{Initiators.Spawn} `{Tls.TlsIo} `{SpawningLaws Job}.
Implicit Types (p : Pool Job) (config : Config.t) (d : Difluoroborane.t) (w : World).
Import Difluoroborane.

Lemma load_modules_length {A C D} (load_single : string → C → A → outcome (option D)) m l ds :
  load_modules load_single m l = Done ds → length ds ≤ length l.
Proof.
  revert m ds. induction l as [|[n c] l IH]; intros m ds Hl; cbn [load_modules] in Hl.
  - by injection Hl as <-.
  - destruct (m !! n) as [a|].
    + apply outcome_bind_Done in Hl as (o & _ & Hl). apply outcome_bind_Done in Hl as (ds' & Hd & Hl).
      apply IH in Hd. destruct o; injection Hl as <-; cbn; lia.
    + apply IH in Hl. cbn. lia.
Qed.

Lemma initiators_length w sessions h connections (initiators : gmap string ModuleConfig) ds :
  InitiatorLoad.load w sessions h connections initiators = Done ds → length ds ≤ size initiators.
Proof. intros Hl%load_modules_length. by rewrite length_map_to_list in Hl. Qed.

Lemma actors_length h url connections (actors : gmap string ModuleConfig) ds :
  ActorLoad.load h url connections actors = Done (Ok ds) → length ds ≤ size actors.
Proof.
  unfold ActorLoad.load. repeat case_match; try done. intros (ds' & Hl & He)%outcome_bind_Done.
  injection He as <-. apply load_modules_length in Hl. by rewrite length_map_to_list in Hl.
Qed.

(** The configuration can be served: the signal handlers can be installed, the
    broker is reached, the acceptor can be made. *)
Record servable config (acceptor : Tls.Acceptor) : Prop := {
  s_signals : signals_new = Ok ();
  s_uids : map_Forall (λ _ cfg, dummy_uid_ok cfg) (Config.initiators config);
  s_mqtt : ∃ url options, url_parse (Config.mqtt_url config) = Ok url ∧
    ActorLoad.mqtt_options url = Ok options ∧ mqtt_connect options = Ok ();
  s_tls : ∃ tls, Tls.new (Config.tlskeylog config) = Ok tls ∧
    Tls.make_tls_acceptor tls (Config.tlsconfig config) = Ok acceptor;
  s_few : (N.of_nat (size (Config.initiators config)) + N.of_nat (size (Config.actors config)) < 2 ^ 62)%N;
}.

(** What runs in the end. *)
Record serving d w (acceptor : Tls.Acceptor) (st : Running) : Prop := {
  v_sockets : sockets st = APIServer.bind resolve bind_socket (Config.listens (config d));
  v_jobs : ∃ inits acts, pool_jobs (running st) = pool_jobs (executor d) ++
      (JobInitiator <$> inits) ++ [JobMqtt] ++ (JobActor <$> acts) ++
      [JobApi (mkApi (sockets st) acceptor (session_manager d) (users d))] ∧
    (∀ x, x ∈ inits ↔ ∃ name cfg r, Config.initiators (config d) !! name = Some cfg ∧
       connected (Search.get_by_id (resources d)) (Config.init_connections (config d)) name r ∧
       driver_for w (session_manager d) name cfg r x) ∧
    (∀ x r, (x, r) ∈ acts ↔ ∃ name cfg a, Config.actors (config d) !! name = Some cfg ∧
       connected (Search.get_by_id (resources d)) (Config.actor_connections (config d)) name r ∧
       Actors.load_single name (mod_name cfg) (mod_params cfg) = Some a ∧
       x = ActorDriver.new sub_new a);
}.

Lemma run_serves d w signals sig acceptor :
  servable (config d) acceptor → wait_signal signals = Some sig → pool_room (executor d) (2 ^ 64 - 5) →
  ∃ st, run d w signals = Done (st, Ok sig) ∧ serving d w acceptor st.
Proof.
  intros [Hsig Hu (url & options & Hurl & Hopt & Hconn) (tls & Htls & Hacc) Hfew] Hwait Hroom.
  unfold run. rewrite Hsig. cbn [map_err or_fail].
  destruct (load_starts_connected_initiators w (session_manager d) (resources d)
    (Config.init_connections (config d)) (Config.initiators (config d)) Hu) as (inits & Hi & Hinits).
  rewrite Hi. cbn [outcome_bind]. pose proof (initiators_length _ _ _ _ _ _ Hi) as Hil.
  destruct (load_starts_connected_actors (resources d) (Config.mqtt_url (config d)) url options
    (Config.actor_connections (config d)) (Config.actors (config d)) Hurl Hopt Hconn)
    as (acts & Ha & Hacts). pose proof (actors_length _ _ _ _ _ Ha) as Hal.
  destruct (start_jobs_ok (mkRunning (executor d) []) (JobInitiator <$> inits) (2 ^ 63))
    as (s1 & Hs1 & Ho1 & Hj1 & Hr1).
  { eapply pool_room_le; [done|]. rewrite length_fmap. lia. }
  rewrite Hs1. cbn [outcome_bind]. rewrite Ha. cbn [outcome_bind map_err or_fail].
  destruct (start_jobs_ok s1 (JobMqtt :: (JobActor <$> acts)) 1) as (s2 & Hs2 & Ho2 & Hj2 & Hr2).
  { eapply pool_room_le; [done|]. cbn [length]. rewrite length_fmap. lia. }
  rewrite Hs2. cbn [outcome_bind]. rewrite Htls. cbn [map_err or_fail]. rewrite Hacc. cbn [map_err or_fail].
  unfold open_sockets. set (socks := APIServer.bind _ _ _).
  destruct (start_jobs_ok (mkRunning (running s2) (sockets s2 ++ socks))
    [JobApi (mkApi socks acceptor (session_manager d) (users d))] 0) as (s3 & Hs3 & Ho3 & Hj3 & _); [done|].
  rewrite Hs3. cbn [outcome_bind]. rewrite Hwait. eexists. split; [done|].
  cbn [sockets running] in *. rewrite Ho2, Ho1 in Ho3. split; [done|].
  exists inits, acts. split; [|done]. by rewrite Hj3, Hj2, Hj1, Ho3, <- !app_assoc.
Qed.

Lemma not_api inits acts api :
  (JobApi api ∉ ((JobInitiator <$> inits) ++ [JobMqtt] ++ (JobActor <$> acts))) ∧
  (JobApi api ∉ (JobInitiator <$> inits)).
Proof.
  assert (JobApi api ∉ (JobInitiator <$> inits)) as Hi by (intros (? & ? & _)%list_elem_of_fmap; done).
  split; [|done]. rewrite !elem_of_app, list_elem_of_singleton.
  intros [?|[?|(? & ? & _)%list_elem_of_fmap]]; done.
Qed.

(** C16: no socket is opened before the initiators, the broker and TLS are set up:
    when [run] returns an error, it has opened no socket and spawned no task to
    serve the API; and when it returns, the sockets it has opened are served with
    an acceptor made from the configured certificate and key, and with sessions
    on the server's users and roles.  This is for a server with fewer than 2^62
    configured initiators and actors, on an executor that can still count as many
    tasks. *)
Theorem sockets_need_tls d w signals st r :
  pool_room (executor d) (2 ^ 64 - 5) →
  (N.of_nat (size (Config.initiators (config d))) + N.of_nat (size (Config.actors (config d))) < 2 ^ 62)%N →
  run d w signals = Done (st, r) →
  match r with
  | Err _ => sockets st = [] ∧
      ∃ jobs, pool_jobs (running st) = pool_jobs (executor d) ++ jobs ∧ ∀ api, JobApi api ∉ jobs
  | Ok _ => ∃ tls acceptor jobs, Tls.new (Config.tlskeylog (config d)) = Ok tls ∧
      Tls.make_tls_acceptor tls (Config.tlsconfig (config d)) = Ok acceptor ∧
      pool_jobs (running st) = pool_jobs (executor d) ++ jobs ++
        [JobApi (mkApi (sockets st) acceptor (session_manager d) (users d))] ∧ ∀ api, JobApi api ∉ jobs
  end.
Proof.
  intros Hroom Hfew. unfold run. destruct signals_new; cbn [map_err or_fail].
  2: { intros [= <- <-]. split; [done|]. exists []. split; [by rewrite app_nil_r|]. intros api. by intros ?%elem_of_nil. }
  intros (inits & Hi & Hr)%outcome_bind_Done. pose proof (initiators_length _ _ _ _ _ _ Hi) as Hil.
  destruct (start_jobs_ok (mkRunning (executor d) []) (JobInitiator <$> inits) (2 ^ 63))
    as (s1 & Hs1 & Ho1 & Hj1 & Hr1).
  { eapply pool_room_le; [done|]. rewrite length_fmap. lia. }
  rewrite Hs1 in Hr. cbn [outcome_bind] in Hr. apply outcome_bind_Done in Hr as (loaded & Ha & Hr).
  destruct loaded as [acts|e]; cbn [map_err or_fail] in Hr.
  2: { injection Hr as <- <-. split; [done|]. exists (JobInitiator <$> inits). split; [done|].
       intros api. apply (not_api _ []). }
  pose proof (actors_length _ _ _ _ _ Ha) as Hal.
  destruct (start_jobs_ok s1 (JobMqtt :: (JobActor <$> acts)) 1) as (s2 & Hs2 & Ho2 & Hj2 & Hr2).
  { eapply pool_room_le; [done|]. cbn [length]. rewrite length_fmap. lia. }
  rewrite Hs2 in Hr. cbn [outcome_bind] in Hr.
  set (jobs := (JobInitiator <$> inits) ++ [JobMqtt] ++ (JobActor <$> acts)).
  assert (pool_jobs (running s2) = pool_jobs (executor d) ++ jobs) as Hj by (by rewrite Hj2, Hj1, <- !app_assoc).
  assert (sockets s2 = []) as Ho by (by rewrite Ho2, Ho1).
  assert (∀ api, JobApi api ∉ jobs) as Hno by (intros api; apply not_api).
  destruct (Tls.new _) as [tls|e] eqn:Htls; cbn [map_err or_fail] in Hr; [|injection Hr as <- <-; by eauto].
  destruct (Tls.make_tls_acceptor _ _) as [acceptor|e] eqn:Hacc; cbn [map_err or_fail] in Hr;
    [|injection Hr as <- <-; by eauto].
  unfold open_sockets in Hr. set (socks := APIServer.bind _ _ _) in Hr.
  destruct (start_jobs_ok (mkRunning (running s2) (sockets s2 ++ socks))
    [JobApi (mkApi socks acceptor (session_manager d) (users d))] 0) as (s3 & Hs3 & Ho3 & Hj3 & _); [done|].
  cbn [sockets running] in *. rewrite Ho in Ho3. cbn [app] in Ho3.
  rewrite Hs3 in Hr. cbn [outcome_bind] in Hr. destruct (wait_signal signals); [|done].
  injection Hr as <- <-. exists tls, acceptor, jobs. rewrite Ho3. split_and!; try done.
  by rewrite Hj3, Hj, <- app_assoc.
Qed.

(** C10: from a configuration to a server: if what the configuration names can be
    opened and reached, the server starts, and once a signal stops it, it was
    serving the API on every configured address that could be opened, with
    sessions on the users of the database and the roles of the configuration; it
    had a driver for each initiator and actor connected to a configured machine;
    and every configured machine was there in the state the database had. *)
Theorem server_serves now var aggregator config e0 e1 e2 ds du log acceptor signals sig :
  opens config e0 e1 e2 ds du log → (∀ i, is_Some (Config.machines config !! i) → valid_key i) →
  servable config acceptor → wait_signal signals = Some sig →
  ∃ d w g st, new no_globals now var aggregator config = Done (g, Ok (d, w)) ∧
    run d w signals = Done (st, Ok sig) ∧ serving d w acceptor st ∧
    Difluoroborane.config d = config ∧ Roles.roles (roles d) = Config.roles config ∧
    users_in (Users.userdb (users d)) (env_contents (Machine.env w)) =
      users_in (Users.userdb (users d)) (env_contents e0) ∧
    (∀ i, is_Some (Search.get_by_id (resources d) i) ↔ is_Some (Config.machines config !! i)) ∧
    (∀ i r, Search.get_by_id (resources d) i = Some r → Resources.coherent w r ∧
       machine_of w r = Some (default MState.new ((λ b, inner (archived_root b)) <$> env_contents e0 ds !! i))).
Proof.
  intros Ho Hk Hs Hw.
  destruct (boot_ok now var aggregator config e0 e1 e2 ds du log Ho Hk)
    as (d & w & g & Hn & _ & Hroom & Hm & Hst & Hu & Hr & Hc & _).
  destruct (run_serves d w signals sig acceptor) as (st & Hrun & Hserv); [by rewrite Hc|done|done|].
  exists d, w, g, st. split_and!; done.
Qed.

End Runs.

(** ** A workshop *)

Section Witnesses.

#[local] Instance map_open : LmdbOpen := {|
  env_open path := if decide (path = "/run/bffh/database") then Ok shop_env else Err (Other 2);
  env_open_db e n := Ok (default EmptyString n);
  env_create_db e n := Ok (e, default EmptyString n);
|}.

#[local] Instance map_open_laws : LmdbOpenLaws.
Proof. split; cbn; [by intros ???? [= <- <-]|]. intros ??????? [= <- <-] [= <- <-]. done. Qed.

#[local] Instance shop_io : ServerIo := {|
  Addr := string;
  Socket := string;
  IoError := string;
  audit_open _ := Ok shop_log;
  signals_new := Ok ();
  resolve a := if decide (a.1 = "localhost") then Ok ["127.0.0.1"; "::1"] else Err "no such host";
  bind_socket a := if decide (a = "::1") then Err "not available" else Ok a;
|}.

#[local] Instance local_broker : Mqtt := {|
  UrlError := ();
  url_parse _ := Ok (mkUrl "mqtt" (Some "broker") None EmptyString None);
  mqtt_connect _ := Ok ();
|}.

#[local] Instance doubling : VecAlloc := {| grow cap len n := Nat.max cap (len + n); junk n := replicate n 0%N |}.
#[local] Instance no_input : InputJson := {| parse_input _ := None |}.
#[local] Instance no_children : Initiators.Spawn := {|
  SpawnError := ();
  spawn_error_text _ := "cannot start";
  spawn_child _ _ := Err ();
|}.

Definition shop_executor : @Executor.World bound_hdr () :=
  Executor.mkWorld SupervisionRegistry.new demo_console ∅ [] ∅.

#[local] Instance shop_spawning : Spawning Job :=
  ExecutorSpawning shop_executor 7 demo_site (Executor.mkCaller "lib.rs" 160 18).

#[local] Instance shop_spawning_laws : SpawningLaws Job.
Proof.
  apply executor_spawning_laws.
  - exact demo_watched.
  - done.
  - done.
  - do 2 eexists. vm_compute. reflexivity.
Qed.

(** The lathe with a relay, and an initiator for a user who is not there. *)
Definition shop_config : Config.t :=
  Config.mk [Listen.mk "localhost" None; Listen.mk "elsewhere" (Some 80%N)]
    {[ "lathe" := lathe_desc ]} {[ "relay" := mkModuleConfig "Shelly" ∅ ]}
    {[ "ghost" := mkModuleConfig "Dummy" {[ "uid" := "carol" ]} ]}
    "mqtt://broker" [("relay", "lathe")] [("ghost", "lathe")]
    "/run/bffh/database" "/var/log/bffh/audit.log" ∅
    (mkTlsListen "./bffh.crt" "./bffh.key" None None []) None 0 LogConfig_default
    EmptyString EmptyString.

Definition shop_acceptor : Tls.Acceptor := Tls.mkAcceptor [Tls.TLS13; Tls.TLS12] [[1%N]] [2%N] None.

Lemma shop_opens : opens shop_config shop_env shop_env shop_env "state" "user" shop_log.
Proof. by split. Qed.

Lemma shop_keys i : is_Some (Config.machines shop_config !! i) → valid_key i.
Proof.
  cbn [Config.machines shop_config]. intros [d [<- _]%lookup_singleton_Some]. vm_compute. split; lia.
Qed.

Lemma shop_servable : servable shop_config shop_acceptor.
Proof.
  split.
  - done.
  - intros i c. cbn [Config.initiators shop_config]. intros [<- <-]%lookup_singleton_Some _ uid.
    cbn. intros [_ <-]%lookup_singleton_Some. vm_compute. split; lia.
  - do 2 eexists. split_and!; reflexivity.
  - eexists. split; reflexivity.
  - vm_compute. reflexivity.
Qed.

Lemma server_serves_witness :
  ∃ d w g st, Difluoroborane.new no_globals 0 None true shop_config = Done (g, Ok (d, w)) ∧
    Difluoroborane.run d w [None; Some 15%N] = Done (st, Ok 15%N) ∧
    Difluoroborane.sockets st = ["127.0.0.1"] ∧
    is_Some (Search.get_by_id (Difluoroborane.resources d) "lathe").
Proof.
  destruct (server_serves 0 None true shop_config shop_env shop_env shop_env "state" "user" shop_log
    shop_acceptor [None; Some 15%N] 15%N) as (d & w & g & st & Hn & Hr & Hs & Hc & _ & _ & Hm & _).
  - exact shop_opens.
  - exact shop_keys.
  - exact shop_servable.
  - reflexivity.
  - exists d, w, g, st. split; [exact Hn|]. split; [exact Hr|]. split.
    + rewrite (v_sockets _ _ _ _ Hs), Hc. vm_compute. reflexivity.
    + apply Hm. eexists. reflexivity.
Defined.

Lemma sockets_need_tls_witness :
  ∃ d w g st, Difluoroborane.new no_globals 0 None true shop_config = Done (g, Ok (d, w)) ∧
    Difluoroborane.run d w [Some 2%N] = Done (st, Ok 2%N) ∧
    ∃ tls, Tls.new None = Ok tls ∧
      ∃ a, Tls.make_tls_acceptor tls (Config.tlsconfig shop_config) = Ok a.
Proof.
  destruct (boot_ok 0 None true shop_config shop_env shop_env shop_env "state" "user" shop_log
    shop_opens shop_keys) as (d & w & g & Hn & _ & Hroom & _ & _ & _ & _ & Hc & _).
  destruct (run_serves d w [Some 2%N] 2%N shop_acceptor) as (st & Hr & _);
    [rewrite Hc; exact shop_servable|reflexivity|exact Hroom|].
  exists d, w, g, st. split; [exact Hn|]. split; [exact Hr|].
  destruct (sockets_need_tls d w [Some 2%N] st (Ok 2%N) Hroom) as (tls & a & jobs & Ht & Ha & _).
  - rewrite Hc. vm_compute. reflexivity.
  - exact Hr.
  - rewrite Hc in Ht, Ha. exists tls. split; [exact Ht|]. exists a. exact Ha.
Defined.

(** The shop, with the database where there is none. *)
Definition misplaced_config : Config.t :=
  Config.mk [] {[ "lathe" := lathe_desc ]} ∅ ∅ "mqtt://broker" [] [] "/nowhere" "/var/log/bffh/audit.log" ∅
    (mkTlsListen "./bffh.crt" "./bffh.key" None None []) None 0 LogConfig_default
    EmptyString EmptyString.


End Witnesses.
