(* ===== verification/Visit.v ===== *)
(** * A visit, from the connection to the relay (bffhd: capnp/mod.rs and the
      components it reaches)

    [Connection.bootstrap] is what the task of a connection does once the TLS
    exchange is over.  The rest of the file puts the components together: a
    client that logs in, takes a machine and gives it back, and the actor of the
    machine, which is told by the machine's signal.  Every step is the operation
    of the component: Auth, MachineApi, Resources and Actors. *)

From S2P Require Import Prelude Permissions Roles Db Users Machine Session Resources.
From S2P Require Import UserApi MachineApi FabFire Auth Actors.

Module Connection.
Section Connection.
Context `{Lmdb}.

(** The task [APIServer::handle] spawns: [handshake] is what comes of the TLS
    exchange; the bootstrap object is then served to the client. *)
Definition bootstrap {Peer Stream E : Type} (manager : Session.SessionManager) (peer : Peer)
  (handshake : result Stream E) : option (BootCap.t Peer) :=
  match handshake with
  | Ok _ => Some (BootCap.new peer manager)
  | Err _ => None
  end.

End Connection.
End Connection.

(** ** Logging in and finding the machine *)

Section Visit.
Context `{LmdbLaws} `{!LmdbHealthy} `{HU : Rkyv User} `{!RkyvLaws User}.
Context `{HS : Rkyv State} `{HM : Rkyv MachineState} `{!RkyvMachine}.
Context `{AuditIoLaws} `{!AuditIoHealthy} `{SaslLaws} `{SignalsLaws}.
Implicit Types (w : World) (r : Resource) (s : Session.SessionHandle).

(** What the SASL session and the authentication object become of messages that
    do not end the exchange. *)
Fixpoint sasl_feed (session : SaslSession) (l : list (list N)) : option SaslSession :=
  match l with
  | [] => Some session
  | data :: l =>
      match sasl_step session data with
      | (session, _, Ok Running) => sasl_feed session l
      | _ => None
      end
  end.

Definition auth_feed w : Authentication.State → list (list N) → outcome Authentication.State :=
  for_loop (λ st data, let! (st, _) := Authentication.step w true st (Ok data) in Done st).

Lemma auth_feed_running w manager l session session' :
  sasl_feed session l = Some session' →
  auth_feed w (Authentication.Running_ session manager) l = Done (Authentication.Running_ session' manager).
Proof.
  unfold auth_feed. induction l as [|data l IH] in session |- *; cbn [sasl_feed for_loop]; [congruence|].
  cbn [Authentication.step]. destruct (sasl_step session data) as [[s1 out] [[|sent]|]] eqn:Hs; try done.
  intros Hf. cbn [outcome_bind]. by apply IH.
Qed.

Lemma login_spec w session manager data session' out sent user :
  sasl_step session data = (session', out, Ok (Finished sent)) → validation session' = Some user →
  session_valid w (Session.open manager user) →
  ∃ view, Authentication.step w true (Authentication.Running_ session manager) (Ok data) =
      Done (Authentication.Finished_, Ok (Successful (if sent then Some out else None) view)) ∧
    sv_machines view = Session.open manager user.
Proof.
  intros Hs Hu Hv. unfold Authentication.step. rewrite Hs, Hu. unfold ApiSession.build.
  destruct (permits_decides w (Session.open manager user) "bffh.users.manage" Hv) as (b & -> & _).
  by eexists.
Qed.

(** A session that may see a machine finds it under its id. *)
Lemma get_machine_spec h w s i r ms :
  Search.get_by_id h i = Some r → coherent w r → machine_of w r = Some ms → session_valid w s →
  may_disclose w s r ∨ may_read w s r ∨ holder (state ms) = Some (Session.user s) →
  ∃ v, MachineSystem.get_machine w (MachineSystem.mkMachines s h) i = Done (Some v) ∧ view_of w s r ms v.
Proof.
  intros Hi Hc Hm Hv Hsee. unfold MachineSystem.get_machine. cbn [MachineSystem.ms_resources MachineSystem.ms_session].
  rewrite Hi. unfold MachineApi.optional_build.
  destruct (visible_spec w r s ms Hc Hm Hv) as (b & -> & Hb). cbn [outcome_bind].
  destruct (build_spec w s r ms Hc Hm Hv) as (v & Hbuild & Hview).
  unfold MachineApi.build in Hbuild. exists v. split; [|done].
  assert ((if b then Done true else Resource.has_read w s r) = Done true) as ->.
  { destruct b; [done|]. unfold Resource.has_read, Resource.get_required_privs.
    destruct (permits_decides w s (Permissions.as_permission
      (Permissions.read (privs (r_desc r)))) Hv) as (rd & -> & Hr). f_equal. apply Hr. naive_solver. }
  cbn [outcome_bind]. by rewrite Hbuild.
Qed.

(** Nobody but its user gets a capability to use a machine in use or to give it
    back; managers get the one to manage it. *)
Lemma in_use_no_capability w s r ms user :
  coherent w r → machine_of w r = Some ms → session_valid w s →
  state ms = InUse user → Session.user s ≠ user →
  ∃ v, MachineApi.build w s r = Done v ∧ mv_use v = None ∧ mv_inuse v = None ∧
    (is_Some (mv_manage v) ↔ may_manage_ w s r).
Proof.
  intros Hc Hm Hv Hst Hne. destruct (build_spec w s r ms Hc Hm Hv) as (v & Hb & Hview).
  exists v. split; [done|]. split_and!.
  - destruct (vo_caps _ _ _ _ _ Hview (mv_use v)) as [?|Heq]; [left|done|].
    apply (vo_use _ _ _ _ _ Hview) in Heq as [_ [Hs|Hs]]; congruence.
  - destruct (vo_caps _ _ _ _ _ Hview (mv_inuse v)) as [?|Heq]; [right; right; left|done|].
    apply (vo_inuse _ _ _ _ _ Hview) in Heq. congruence.
  - rewrite <- (vo_manage _ _ _ _ _ Hview). split; [intros [c Hc']|intros ->; by eexists].
    destruct (vo_caps _ _ _ _ _ Hview (mv_manage v)) as [?|?]; [right; left|congruence|done].
Qed.

(** ** The visit *)

(** The capability a session finds at a machine. *)
Definition finds h w s i (cap : MachineView → option MachineCap) (c : MachineCap) : Prop :=
  ∃ v, MachineSystem.get_machine w (MachineSystem.mkMachines s h) i = Done (Some v) ∧ cap v = Some c.

(** [w'] is [w] after the capability [cap] of the machine was found and called. *)
Definition uses h w s i w' : Prop :=
  ∃ c, finds h w s i mv_use c ∧ MachineApi.use_server w c MachineApi.Use = Done (w', Ok ()).
Definition gives_back h w s i w' : Prop :=
  ∃ c, finds h w s i mv_inuse c ∧ MachineApi.inuse_server w c MachineApi.GiveBack = Done (w', Ok ()).

(** The driver, polled at the version [n] of the machine's signal, ends idle and
    has tried to carry out [st] last. *)
Definition carries_out history a d evs n st d' evs' : Prop :=
  ActorDriver.poll 2 (λ _, at_version history (Some n)) (λ _, true) 0 d = Done (d', DriverPending, evs') ∧
  driven history a d' (evs ++ evs') ∧ ActorDriver.future d' = None ∧
  last (effects a (evs ++ evs')) = Actors.apply a (mkState st).

Lemma uses_spec h w s i r ms :
  Search.get_by_id h i = Some r → coherent w r → machine_of w r = Some ms → session_valid w s →
  state ms = Free → may_write w s r → may_disclose w s r ∨ may_read w s r →
  ∃ w', uses h w s i w' ∧ updated w r (mkMachineState (InUse (Session.user s)) (previous ms)) w'.
Proof.
  intros Hi Hc Hm Hv Hst Hw Hsee.
  destruct (get_machine_spec h w s i r ms Hi Hc Hm Hv) as (v & Hg & Hview); [tauto|].
  destruct (use_handler_spec w s r ms (InUse (Session.user s)) Hc Hm Hv) as (w' & Hu & Hupd).
  { rewrite Hst. by constructor. }
  exists w'. split; [|done]. exists (mkMachineCap s r). split; [|exact Hu].
  exists v. split; [done|]. apply (vo_use _ _ _ _ _ Hview). auto.
Qed.

Lemma gives_back_spec h w s i r ms :
  Search.get_by_id h i = Some r → coherent w r → machine_of w r = Some ms → session_valid w s →
  state ms = InUse (Session.user s) →
  ∃ w', gives_back h w s i w' ∧ updated w r (mkMachineState Free (Some (Session.user s))) w'.
Proof.
  intros Hi Hc Hm Hv Hst.
  destruct (get_machine_spec h w s i r ms Hi Hc Hm Hv) as (v & Hg & Hview); [rewrite Hst; auto|].
  destruct (handle_spec w r (ReqGiveBack s) ms Hc Hm I)
    as (w' & Hh & [(ms' & [_ ->] & Hu)|[-> Hno]]); unfold handle in Hh.
  - exists w'. split; [|done]. exists (mkMachineCap s r). split.
    + exists v. split; [done|]. by apply (vo_inuse _ _ _ _ _ Hview).
    + cbn. unfold MachineApi.after. by rewrite Hh.
  - exfalso. by eapply Hno.
Qed.

Lemma carried_out history a d evs w r ms n :
  driven history a d evs → coherent w r → machine_of w r = Some ms →
  signals w !! r_id r = Some (history n) →
  ∃ d' evs', carries_out history a d evs n ms d' evs'.
Proof.
  intros Hd Hc Hm Hsig. destruct (driver_settles history a d evs n Hd) as (d' & evs' & Hp & Hd' & Hf & _ & He).
  exists d', evs'. unfold shown in He. by rewrite (signal_state w r ms _ Hc Hm Hsig) in He.
Qed.

(** C9: a visit works from end to end: a client whose TLS exchange succeeds, that
    picks a mechanism of the list and completes the exchange as [user], finds a
    free machine it may see and write, takes it, and is its user; meanwhile a
    session of another user that looks at the machine is given neither the
    capability to use it nor the one to give it back, and the one to manage it
    exactly with the manage privilege (the one for information everybody has);
    then it gives the machine back.  The audit log has both changes, and an actor
    of the machine, whatever it did before, tries to carry out first the one and
    then the other. *)
Theorem visit_switches_machine {Peer Stream E} (peer : Peer) (stream : Stream) h w i r ms manager
    mech session l session1 data session2 out sent user :
  Search.get_by_id h i = Some r → coherent w r → machine_of w r = Some ms → state ms = Free →
  mech ∈ BootCap.mechanisms → sasl_start mech = Some session → sasl_feed session l = Some session1 →
  sasl_step session1 data = (session2, out, Ok (Finished sent)) → validation session2 = Some user →
  let s := Session.open manager user in
  let taken := mkMachineState (InUse (Session.user s)) (previous ms) in
  let free := mkMachineState Free (Some (Session.user s)) in
  session_valid w s → may_write w s r → may_disclose w s r ∨ may_read w s r →
  ∃ boot st view w1 w2 v1 v2,
    Connection.bootstrap manager peer (Ok (E := E) stream) = Some boot ∧
    auth_feed w (BootCap.create_session (BootCap.sessionmanager _ boot) mech) l = Done st ∧
    Authentication.step w true st (Ok data) =
      Done (Authentication.Finished_, Ok (Successful (if sent then Some out else None) view)) ∧
    sv_machines view = s ∧ uses h w (sv_machines view) i w1 ∧ machine_of w1 r = Some taken ∧
    (∀ s', session_valid w1 s' → Session.user s' ≠ Session.user s →
       ∃ v, MachineApi.build w1 s' r = Done v ∧ mv_use v = None ∧ mv_inuse v = None ∧
         (is_Some (mv_manage v) ↔ may_manage_ w1 s' r)) ∧
    gives_back h w1 (sv_machines view) i w2 ∧ machine_of w2 r = Some free ∧
    audit_of w2 = audit_of w ++ [mkAuditLogLine (clock w) (r_id r) (MState.display taken);
                                 mkAuditLogLine (clock w1) (r_id r) (MState.display free)] ∧
    signals w1 !! r_id r = Some v1 ∧ signals w2 !! r_id r = Some v2 ∧
    ∀ history n a d evs, driven history a d evs → history (S n) = v1 → history (S (S n)) = v2 →
      ∃ d1 evs1 d2 evs2, carries_out history a d evs (S n) taken d1 evs1 ∧
        carries_out history a d1 (evs ++ evs1) (S (S n)) free d2 evs2.
Proof.
  intros Hi Hc Hm Hst Hmech Hstart Hfeed Hstep Huser s taken free Hv Hw Hsee.
  destruct (advertised_runs manager mech Hmech) as (s0 & Hs0 & Hcreate). simplify_eq.
  destruct (login_spec w session1 manager data session2 out sent user Hstep Huser Hv)
    as (view & Hlogin & Hview).
  destruct (uses_spec h w s i r ms Hi Hc Hm Hv Hst Hw Hsee) as (w1 & Huse & [Hm1 Hc1 Ha1 _ _]).
  destruct (gives_back_spec h w1 s i r taken Hi Hc1 Hm1 Hv eq_refl) as (w2 & Hback & [Hm2 Hc2 Ha2 _ _]).
  destruct (coh_signal _ _ Hc1) as (v1 & Hv1 & _). destruct (coh_signal _ _ Hc2) as (v2 & Hv2 & _).
  eexists _, (Authentication.Running_ session1 manager), view, w1, w2, v1, v2. rewrite Hview.
  split; [done|]. cbn [BootCap.sessionmanager BootCap.new]. rewrite Hcreate.
  split_and!; try done; [by apply auth_feed_running| | |].
  - intros s' Hv' Hne. by eapply in_use_no_capability.
  - rewrite Ha2, Ha1, <- app_assoc. done.
  - intros history n a d evs Hd Hn1 Hn2.
    destruct (carried_out history a d evs w1 r taken (S n)) as (d1 & evs1 & Hd1); [done..|by rewrite Hn1|].
    destruct (carried_out history a d1 (evs ++ evs1) w2 r free (S (S n))) as (d2 & evs2 & Hd2);
      [by apply Hd1|done..|by rewrite Hn2|].
    by exists d1, evs1, d2, evs2.
Qed.

End Visit.

(** ** Bob takes the lathe *)

Section Witnesses.

Definition bob_user : User := mkUser "bob" (mkUserData ["user"] None ∅).

(** A SASL library that asks once before it lets bob in. *)
#[local] Instance patient_sasl : Sasl := {|
  SaslSession := bool * option User;
  sasl_step s data := if s.1 then ((true, Some bob_user), [], Ok (Finished false))
                      else ((true, None), [63%N], Ok Running);
  validation := snd;
  mechname_parse := Some;
  sasl_start m := if decide (m = "PLAIN") then Some (false, None) else None;
  sasl_available := ["PLAIN"];
|}.

#[local] Instance patient_sasl_laws : SaslLaws.
Proof. split. intros m ->%list_elem_of_singleton. split; [done|]. by eexists. Qed.

Lemma bob_authorized (w : World) :
  env w = env (shop MState.new) → authorized w (session_of bob) "lab.use.lathe".
Proof.
  intros He. exists bob_user, "user". unfold session_account. rewrite He.
  split; [vm_compute; reflexivity|]. split; [left|]. exists "user". split; [done|].
  eexists _, (Permissions.Children (Permissions.mkPermissionBuf "lab.use")).
  split; [reflexivity|]. split; [left|]. by exists "lathe".
Qed.

Definition asked (again : bool) (user : option User) : SaslSession := (again, user).

Lemma visit_switches_machine_witness :
  ∃ w1 w2, uses shop_handle (shop MState.new) (session_of bob) "lathe" w1 ∧
    machine_of w1 lathe = Some (mkMachineState (InUse bob) None) ∧
    gives_back shop_handle w1 (session_of bob) "lathe" w2 ∧
    machine_of w2 lathe = Some (mkMachineState Free (Some bob)).
Proof.
  destruct (visit_switches_machine (E := ()) "::1" () shop_handle (shop MState.new) "lathe" lathe MState.new
    (Session.mkSessionManager demo_users demo_roles) "PLAIN" (asked false None) [[1%N]] (asked true None)
    [2%N] (asked true (Some bob_user)) [] false bob_user)
    as (boot & st & view & w1 & w2 & v1 & v2 & _ & _ & _ & Heq & Huse & Hm1 & _ & Hback & Hm2 & _);
    try reflexivity; try apply shop_coherent; try apply shop_machine; try apply bob_valid;
    try (left; by apply bob_authorized); try (by apply bob_authorized).
  all: try (by left).
  rewrite Heq in Huse, Hback. by exists w1, w2.
Defined.

End Witnesses.
